(* ===== verification/_CoqProject ===== *)
-Q . S2P
Prelude.v
Spec.v
Pool.v
Placement.v
Handle.v
Model.v
Broadcast.v
Weak.v
Seqlock.v
Store.v
Dag.v
Text.v
Quarantine.v
Health.v
Protocol.v
Executor.v
Ledger.v
Shell.v
Worker.v
Remote.v
Node.v
Scheduler.v
Link.v
Qualify.v
Tasks.v
Server.v
Requests.v
Recover.v
Restart.v
System.v
Guarantees.v
Loop.v
Fits.v
Weigh.v
Completion.v
Success.v
Durable.v
Snapshot.v
Lives.v
Ptx.v
Kernels.v
Cuda.v
Dcgm.v
Daemon.v
Command.v
Discovery.v
Schema.v
Bench.v
