(* ===== verification/Prelude.v ===== *)
(** * roster: a verification development

    roster is a job scheduler: a daemon accepts workflows (jobs with
    dependencies and resource requests), places each ready job on a node, runs
    it there through an executor, records every transition in SQLite and in a
    broadcast ring, and takes unfinished runs back after a restart.  This
    library models its core, from the source under [src/src/], and proves what
    makes it correct.  This file is the prelude shared by all others.

    ** The parts and the files that model them

    - Data: [Spec.v] (workflow/spec.rs), [Pool.v] (resource/pool.rs and the
      inventory of discovery.rs), [Handle.v] and [Executor.v]
      (executor/mod.rs; a node as node.rs offers it to the scheduler),
      [Model.v] (workflow/model.rs, event.rs), [Protocol.v]
      (ipc/protocol.rs), [Text.v] (paths.rs and the string operations used).
    - Submitting: [Dag.v] (workflow/dag.rs), [Server.v] (the Submit and Cancel
      handlers of ipc/server.rs), [Requests.v] (one connection, [dispatch] and
      the other handlers; ipc/client.rs).
    - Placing: [Pool.v], [Placement.v] (resource/placement.rs).
    - Scheduling: [Scheduler.v] (the four phases of a tick in
      scheduler/mod.rs), [Tasks.v] (facts on the jobs a tick reserves),
      [Qualify.v] (its GPU checks and qualifications), [Quarantine.v] and
      [Health.v] (resource/quarantine.rs, health.rs).
    - Running: [Shell.v] (executor/shell.rs), [Worker.v] (worker.rs: what a
      node runs for a controller), [Remote.v] (executor/remote.rs), [Link.v]
      (the scheduler's polls of a job behind a link that loses messages),
      [Node.v] (node.rs: nodes.yaml and the ssh tunnels).
    - Recording: [Store.v] (store/mod.rs), [Schema.v] (its tables and their
      migrations), [Ledger.v] (the interface between
      the tasks that write the store and those that read it), [Broadcast.v]
      (broadcast.rs, the seqlock ring of job events), [Weak.v] (relaxed,
      release and acquire accesses and fences), [Seqlock.v] (the ring on that
      memory), [Bench.v] (bin/bench_broadcast.rs: the threads of the latency
      benchmark around it).
    - Reading cards: [Discovery.v] (resource/discovery.rs, and health.rs's check
      at start and Xid thread).
    - Testing cards: [Ptx.v] (the PTX instructions the kernels use: a thread's
      steps, a grid's interleavings), [Kernels.v] (the three kernels of
      resource/cuda.rs as instruction lists, and their CPU twins), [Cuda.v]
      (the test that runs them through the driver), [Dcgm.v]
      (resource/qualify.rs: the qualify command and its readers of dcgmi's
      output).
    - Restarting: [Recover.v] (daemon/recover.rs), [Restart.v] (the books after
      it).
    - From outside: [Daemon.v] (daemon/mod.rs: pid file, lock and socket, one
      system call a step, any number of processes), [Command.v] (main.rs: every
      command as a program over the calls it makes).
    - The whole: [System.v] (the scheduler task cut at its awaits and
      interleaved with submissions, cancels and changes of the outside world;
      the invariant), [Guarantees.v] (what follows from the invariant),
      [Loop.v] (the loop [run] in one piece, shown to be those stretches in a
      row),
      [Fits.v] (where a waiting job can still run), [Weigh.v] (a measure of
      what is left to do), [Completion.v] (every run ends), [Success.v] (and
      ends well, when its commands do),
      [Durable.v] (the store against memory), [Snapshot.v] (the runs a crash
      leaves), [Lives.v] (crashes and restarts composed with the running
      daemon).

    ** How code becomes definitions

    A struct is a Record, an enum an Inductive, a function a Definition of the
    same name, methods under a Module of the type's name where names would
    clash.  Unsigned integers are [N], exit codes [Z]; an arithmetic overflow
    or an index out of range that panics is the [Panic] of [exec].  A
    [HashMap] is a [gmap]; every theorem holds for whatever order it iterates
    in ([HashOrder]).  A fallible function returns [result].  What the program
    gets from outside (executors, ssh, the operating system, NVML, the
    database engine, serde, clocks, fresh ids) is a type class or an argument
    acting on a state of the world, [W]; the facts used about it are named:
    [serde_roundtrip], [rfc3339_roundtrip], [yaml_roundtrip], [StoreBacked],
    [WritesLand], [clock_runs], [compact], [prompt], [patient], [cooperative],
    [fair_run], [counter_sound].  Each class has a concrete instance, and each
    theorem with hypotheses a witness that runs on it.

    An [await] is a place where other tasks run.  The scheduler's code between
    two awaits is one definition (a stretch), and [System.sched_step] chains
    the stretches through a program counter, so that [System.step] is every
    interleaving of the scheduler with the handlers.

    ** What the theorems show

    - The daemon (Guarantees), started on inventories without a gap: no reachable
      state makes the scheduler panic;
      on each node, what is free plus what running jobs, launches in flight
      and qualifications hold is what the machine has; no card is ever held
      twice; a job starts only after its dependencies succeeded, moves only
      along the state machine, is started once; a valid run always has a job
      that can move.  A waiting job always has a node left that could run it
      (Fits), and once submissions stop every job ends, in every execution in
      which, again and again, the scheduler places jobs at a moment when the
      nodes are up and no card is set aside, and the world puts the daemon off
      only finitely often (Completion): with Succeeded, when its commands
      succeed and nobody cancels (Success).  The loop as the source composes it
      does what its stretches do in a row, panics included, and left alone
      runs on through reachable states (Loop).
    - Durability (Durable, Snapshot, Recover, Restart, Lives), for a store that
      takes every write: a job's row lags behind memory only while the scheduler
      still has it to write, or, before its submission was answered, while that
      writes its rows one by one; wherever a crash falls, within the writes of a
      phase or a submission too, the restart loses nothing of any unfinished run
      that was answered, puts back by one move at most the jobs whose rows were
      pending, and, on machines that have what those jobs hold, leaves a daemon in
      which all of the above holds again, any number of times, whatever nodes each
      life lists;
      opening the database brings what any release or interrupted start left up
      to date (Schema).
    - Admission (Dag, Server, Placement, Pool): validation accepts exactly the
      acyclic workflows with known dependencies and distinct ids, and names a
      real offender otherwise; a submission is accepted exactly when every job
      could run on some idle node, and its rows are written before it is answered
      (a write may fail unnoticed);
      placement is first fit and all or nothing; reservations are exact and
      conserve the pool.
    - Phases (Scheduler, Tasks): each phase's effect, on every branch.
    - The ring (Seqlock, Broadcast): with the orderings and fences of the code
      a receiver never returns a torn event, whatever stale values the memory
      lets it read; it gets every event in order while it is not lapped, and a
      lapped one skips ahead; an event that is out and known to a receiver's
      thread is delivered by its next call; a benchmark run no consumer of
      which counted a lap measured every event (Bench).
    - Nodes (Worker, Remote, Node, Shell): a launch repeated by a controller
      starts the job once; trouble on the link is never taken for the end of a job its
      node has (Link); editing nodes.yaml keeps what it has, but for what others
      write while an add waits for its node; a node counts as online exactly
      when its last check was answered by a daemon of the same version; opening a tunnel terminates;
      a job gets exactly its cards; a log's tail is whole lines.
    - Cards (Quarantine, Health, Discovery, Cuda, Dcgm): when a card is out of
      service, and why; an Xid quarantines the card it is about and no other;
      the inventory discovered suits the pool exactly when no device is skipped
      before one that answers; the kernels compute what the CPU does in every interleaving of
      their threads, so the card test passes a card that computes and remembers
      right and fails one that does not, also for one bad word of the buffer it
      was given (Cuda; the word it counts errors in is taken to be sound); the qualify
      command reports the outcome to the daemon exactly once.
    - One daemon (Daemon), among the processes of one runtime directory: at most one process between lock and cleanup, which
      is what the rest takes for granted of the store and the nodes, as long as
      no shutdown falls between another start's open and its lock (then there
      can be two, a theorem shows); whatever a dead daemon leaves, the next
      start succeeds, and a start beside a live one is refused with its pid;
      the listener serves until a signal and is back within five seconds of
      it.
    - Commands (Command): each comes to an end unless a call it makes never
      returns (no call to a daemon has a time limit, and a theorem shows one that
      hangs), within its waits when every call is prompt; none but a forced one ends a
      daemon whose jobs nothing would track; start, restart and enable succeed
      only when a daemon has answered.
    - Clients (Requests): the wire protocol round trips, at any size; status and
      ps show a run as it is stored, each job once.

    ** Bounds and fuel

    [Dag.topo_sort] runs on fuel linear in the jobs and their dependencies,
    which is proved enough; [Node.open] on 51 turns, proved enough for the 10 s deadline at
    200 ms a turn; the waits of [Command.v] on 601 and 101 turns, proved enough for
    their 60 s and 10 s at 100 ms a turn.  The kernels need no fuel:
    every interleaving of their threads is proved to end without a fault
    ([grid_computes]).  The ring's theorems hold for fewer than 2^62 events (the
    version counter is twice the position in a 64-bit word; at 10^9 events a
    second that is over a century).  Pools are well formed when the inventory's GPU indices are 0,
    1, .. ([inventory_wf]); the code relies on this, and a lemma of [Pool.v]
    shows what happens otherwise.  Memory is
    sequentially consistent in [Broadcast.v], whose facts are about whole calls;
    [Seqlock.v] has one writing thread (the ring's, by its type) and any number
    of reading ones, each with its own view.

    ** What is not modelled

    sysinfo, NVML and libcuda themselves (parameters: [Discovery.Nvml],
    [Health.Device], [CudaDriver] with what its documentation promises as the
    class [Card]); tokio's scheduling of its tasks; clap's
    parsing of the command line, date formats and [{:?}] texts (parameters);
    SQLite's execution of statements; hdrhistogram, which thread runs on which
    core, and the benchmark's heartbeat on stderr.  Serialisation is serde's.
    [Lives.v] takes every write to land ([WritesLand]; [Requests.submission_lost]
    runs one that does not) and a recovery to run to its end.  A submission cut
    off in the middle of its writes can cost its run after a second crash
    ([Lives.cut_off_submission]); it was not answered.  A launch in flight at a crash is not recorded,
    and the next life launches the job again: on the same node its worker
    answers with the job it runs ([Worker.v]), on another it runs there a
    second time ([Lives.relaunched_elsewhere]).  A restart is
    followed only on machines that have what the jobs taken back hold
    ([Restart.fits]): elsewhere lemmas of [Pool.v] show the over-commitment and the
    panic that come of it.  All processes of [Daemon.v] have one runtime
    directory. *)

From stdpp Require Export base tactics option list gmap strings pretty fin_maps sets sorting.
From Stdlib Require Export NArith ZArith Lia Ascii.

#[global] Set Default Goal Selector "!".
#[global] Open Scope N_scope.
#[global] Open Scope list_scope.

(** ** Panics

    An operation that indexes a vector out of range or overflows a machine
    integer panics.  [exec A] is the result of such an operation. *)

Inductive exec (A : Type) : Type :=
  | Ret (a : A)
  | Panic.
Arguments Ret {A} a.
Arguments Panic {A}.

#[export] Instance exec_ret : MRet exec := @Ret.
#[export] Instance exec_bind : MBind exec :=
  λ A B f m, match m with Ret a => f a | Panic => Panic end.
#[export] Instance exec_fmap : FMap exec :=
  λ A B f m, match m with Ret a => Ret (f a) | Panic => Panic end.

(** The value an operation returned, when it did not panic. *)
Definition returned {A} (m : exec A) : option A :=
  match m with Ret a => Some a | Panic => None end.

(** Rust's [Result]. *)
Inductive result (A E : Type) : Type :=
  | Ok (a : A)
  | Err (e : E).
Arguments Ok {A E} a.
Arguments Err {A E} e.

(** [result.ok()] *)
Definition result_ok {A E} (r : result A E) : option A :=
  match r with Ok a => Some a | Err _ => None end.

Lemma bind_Ret_inv {A B} (m : exec A) (f : A → exec B) b :
  m ≫= f = Ret b → ∃ a, m = Ret a ∧ f a = Ret b.
Proof. destruct m as [a|]; [by exists a|done]. Qed.

Section exec_monad.
Context {A B : Type}.

(** [for x in l { acc = f(acc, x) }] where the body may panic. *)
Fixpoint foldM (f : B → A → exec B) (acc : B) (l : list A) : exec B :=
  match l with
  | [] => Ret acc
  | x :: l' => acc' ← f acc x; foldM f acc' l'
  end.

Lemma foldM_app f acc (l1 l2 : list A) :
  foldM f acc (l1 ++ l2) = acc' ← foldM f acc l1; foldM f acc' l2.
Proof.
  revert acc. induction l1 as [|x l1 IH]; intros acc; [done|]; cbn.
  destruct (f acc x); cbn; [apply IH|done].
Qed.

(** An invariant of the accumulator, carried through the loop. *)
Lemma foldM_inv (P : B → Prop) f acc (l : list A) :
  P acc →
  (∀ b x, x ∈ l → P b → ∃ b', f b x = Ret b' ∧ P b') →
  ∃ b', foldM f acc l = Ret b' ∧ P b'.
Proof.
  revert acc. induction l as [|x l IH]; intros acc HP Hf; cbn; [eauto|].
  destruct (Hf acc x) as (b' & -> & Hb'); [by left|done|]. cbn.
  apply IH; [done|]. intros b y Hy. apply Hf. by right.
Qed.

(** The same when the loop is known to have returned. *)
Lemma foldM_inv_ret (P : B → Prop) f acc acc' (l : list A) :
  foldM f acc l = Ret acc' →
  P acc →
  (∀ b b' x, x ∈ l → f b x = Ret b' → P b → P b') →
  P acc'.
Proof.
  revert acc. induction l as [|x l IH]; intros acc H HP Hf; cbn in *.
  { by simplify_eq. }
  apply bind_Ret_inv in H as (b & Hb & H).
  eapply IH; [done| |].
  - eapply Hf; [by left|done|done].
  - intros ??? ?. apply Hf. by right.
Qed.
End exec_monad.

(** Indexing: [v[i]], [v[i] = x] and [v[i].op()] panic out of range. *)
Definition index {A} (l : list A) (i : nat) : exec A :=
  match l !! i with Some a => Ret a | None => Panic end.

Definition index_mut {A} (l : list A) (i : nat) (f : A → exec A) : exec (list A) :=
  a ← index l i; a' ← f a; Ret (<[i := a']> l).

Lemma index_Ret {A} (l : list A) i a : index l i = Ret a ↔ l !! i = Some a.
Proof. unfold index. destruct (l !! i); split; intros; by simplify_eq. Qed.

Lemma index_mut_Ret {A} (l l' : list A) i f :
  index_mut l i f = Ret l' ↔ ∃ a a', l !! i = Some a ∧ f a = Ret a' ∧ l' = <[i := a']> l.
Proof.
  unfold index_mut. split.
  - intros (a & Ha%index_Ret & H)%bind_Ret_inv. apply bind_Ret_inv in H as (a' & Ha' & ?).
    exists a, a'. by simplify_eq.
  - intros (a & a' & Ha & Hf & ->). unfold index. rewrite Ha. cbn. by rewrite Hf.
Qed.

(** ** Machine integers

    Unsigned integers are [N]; [+=] and [-=] panic where the debug build's
    overflow checks do, so an operation that returns did not wrap. *)

Definition u32_max : N := 2 ^ 32 - 1.
Definition u64_max : N := 2 ^ 64 - 1.

Definition checked_add (max a b : N) : exec N :=
  if decide (a + b ≤ max) then Ret (a + b) else Panic.

Definition checked_sub (a b : N) : exec N :=
  if decide (b ≤ a) then Ret (a - b) else Panic.

(** [AtomicU64::fetch_add] and its 64-bit [usize] twin wrap around. *)
Definition fetch_add (counter n : N) : N := (counter + n) mod 2 ^ 64.

(** [saturating_sub] is the truncated subtraction of [N]. *)
Definition saturating_sub (a b : N) : N := a - b.

Lemma checked_add_Ret max a b c : checked_add max a b = Ret c ↔ a + b ≤ max ∧ c = a + b.
Proof. unfold checked_add. case_decide; split; intros; destruct_and?; by simplify_eq. Qed.

Lemma checked_sub_Ret a b c : checked_sub a b = Ret c ↔ b ≤ a ∧ c = a - b.
Proof. unfold checked_sub. case_decide; split; intros; destruct_and?; by simplify_eq. Qed.

(** ** Hash maps

    A hash map is a finite map together with an iteration order nobody may
    rely on: every theorem that depends on the order holds for each one. *)

Class HashOrder : Type := {
  hm_iter : ∀ {K A : Type} `{Countable K}, gmap K A → list (K * A);
  hm_iter_perm : ∀ {K A : Type} `{Countable K} (m : gmap K A), hm_iter m ≡ₚ map_to_list m;
}.

(** One such order, for concrete runs. *)
Definition canonical_order : HashOrder := {|
  hm_iter := λ K A _ _ m, map_to_list m;
  hm_iter_perm := λ K A _ _ m, reflexivity _;
|}.

Section hash_map.
Context `{HashOrder} `{Countable K} {A W : Type}.
Implicit Types m : gmap K A.

Definition hm_keys m : list K := (hm_iter m).*1.
Definition hm_values m : list A := (hm_iter m).*2.

Lemma elem_of_hm_iter m k a : (k, a) ∈ hm_iter m ↔ m !! k = Some a.
Proof. rewrite hm_iter_perm. apply elem_of_map_to_list. Qed.

Lemma elem_of_hm_values m a : a ∈ hm_values m ↔ ∃ k, m !! k = Some a.
Proof.
  unfold hm_values. rewrite list_elem_of_fmap. split.
  - intros ([k a'] & -> & Hin). exists k. by apply elem_of_hm_iter.
  - intros [k Hk]. exists (k, a). by rewrite elem_of_hm_iter.
Qed.

Lemma NoDup_hm_keys m : NoDup (hm_keys m).
Proof. unfold hm_keys. rewrite hm_iter_perm. apply NoDup_fst_map_to_list. Qed.

(** [for v in map.values_mut() { .. }]: the body updates the value in place
    and may push to a list of its own. *)
Definition values_mut (f : A → A * list W) m : gmap K A * list W :=
  foldl (λ acc kv, let '(a', w) := f kv.2 in (<[kv.1 := a']> acc.1, acc.2 ++ w))
    (m, []) (hm_iter m).

Lemma foldl_insert_lookup (f : A → A * list W) (l : list (K * A)) m0 w0 k :
  NoDup l.*1 →
  (foldl (λ acc kv, let '(a', w) := f kv.2 in (<[kv.1 := a']> acc.1, acc.2 ++ w))
     (m0, w0) l).1 !! k
  = match list_find (λ kv, kv.1 = k) l with
    | Some (_, kv) => Some (f kv.2).1
    | None => m0 !! k
    end.
Proof.
  revert m0 w0. induction l as [|[k' a] l IH]; intros m0 w0 Hnd; [done|]; cbn.
  apply NoDup_cons in Hnd as [Hnin Hnd].
  destruct (f a) as [a' w] eqn:E. rewrite IH by done.
  case_decide as Hk; cbn in *.
  - subst k'. rewrite E. cbn.
    destruct (list_find _ l) as [[i [k'' a'']]|] eqn:F.
    + apply list_find_Some in F as (Hl & Hk & _). cbn in Hk. subst k''.
      exfalso. apply Hnin. apply list_elem_of_fmap. exists (k, a''). split; [done|].
      by eapply list_elem_of_lookup_2.
    + by rewrite lookup_insert_eq.
  - destruct (list_find _ l) as [[i [k'' a'']]|]; cbn; [done|].
    by rewrite lookup_insert_ne.
Qed.

Lemma values_mut_fst f m : (values_mut f m).1 = (λ a, (f a).1) <$> m.
Proof.
  apply map_eq. intros k. unfold values_mut.
  rewrite foldl_insert_lookup by apply NoDup_hm_keys. rewrite lookup_fmap.
  destruct (list_find _ (hm_iter m)) as [[i [k' a]]|] eqn:F.
  - apply list_find_Some in F as (Hl & Hk & _). cbn in Hk. subst k'.
    apply list_elem_of_lookup_2, elem_of_hm_iter in Hl. by rewrite Hl.
  - apply list_find_None in F. destruct (m !! k) as [a|] eqn:Hk; [|done].
    apply elem_of_hm_iter in Hk. rewrite Forall_forall in F. by destruct (F _ Hk).
Qed.

Lemma values_mut_snd f m :
  (values_mut f m).2 = concat ((λ kv : K * A, (f kv.2).2) <$> hm_iter m).
Proof.
  unfold values_mut.
  enough (∀ l m0 w0,
    (foldl (λ acc kv, let '(a', w) := f kv.2 in (<[kv.1 := a']> acc.1, acc.2 ++ w))
       (m0, w0) l).2 = w0 ++ concat ((λ kv : K * A, (f kv.2).2) <$> l)) as ->; [done|].
  induction l as [|[k a] l IH]; intros m0 w0; cbn; [by rewrite app_nil_r|].
  destruct (f a) as [a' w] eqn:E. rewrite IH. cbn. by rewrite <-app_assoc.
Qed.
End hash_map.

(** ** Lists *)

Lemma fmap_sublist {A B} (f : A → B) (l1 l2 : list A) :
  l1 `sublist_of` l2 → f <$> l1 `sublist_of` f <$> l2.
Proof. induction 1; cbn; by constructor. Qed.

Lemma fmap_bind {A B C} (f : B → C) (g : A → list B) (l : list A) :
  f <$> (l ≫= g) = l ≫= (λ a, f <$> g a).
Proof. induction l as [|x l IH]; [done|]. cbn. by rewrite fmap_app, IH. Qed.

Lemma list_filter_sublist {A} (f : A → bool) (l : list A) : List.filter f l `sublist_of` l.
Proof. induction l as [|x l IH]; cbn; [done|]. destruct (f x); by constructor. Qed.

(** ** Sums over lists *)

Definition Nsum {A} (f : A → N) (l : list A) : N := foldr (λ x acc, f x + acc) 0 l.
Arguments Nsum : simpl never.

Section Nsum.
Context {A : Type}.
Implicit Types (f g : A → N) (l : list A).

Lemma Nsum_cons f x l : Nsum f (x :: l) = f x + Nsum f l.
Proof. done. Qed.

Lemma Nsum_app f l1 l2 : Nsum f (l1 ++ l2) = Nsum f l1 + Nsum f l2.
Proof. induction l1 as [|x l1 IH]; cbn; rewrite ?Nsum_cons; [done|]. rewrite IH. lia. Qed.

#[export] Instance Nsum_perm f : Proper ((≡ₚ) ==> (=)) (Nsum f).
Proof.
  intros l1 l2 Hp. induction Hp; rewrite ?Nsum_cons; lia.
Qed.

Lemma Nsum_elem f x l : x ∈ l → f x ≤ Nsum f l.
Proof. induction 1; rewrite Nsum_cons; lia. Qed.

Lemma Nsum_zero f l : (∀ x, x ∈ l → f x = 0) → Nsum f l = 0.
Proof.
  induction l as [|x l IH]; intros Hz; [done|].
  rewrite Nsum_cons, Hz by (by left). rewrite IH; [done|].
  intros y Hy. apply Hz. by right.
Qed.
End Nsum.

Lemma Nsum_ext {A} (f1 f2 : A → N) l : (∀ x, x ∈ l → f1 x = f2 x) → Nsum f1 l = Nsum f2 l.
Proof.
  induction l as [|x l IH]; [done|]. intros E. rewrite !Nsum_cons, E by (by left).
  f_equal. apply IH. intros y Hy. apply E. by right.
Qed.

(** One of the list's elements stands out by [d]. *)
Lemma Nsum_bump {A} (f1 f2 : A → N) l x d :
  NoDup l → x ∈ l → f2 x = f1 x + d → (∀ y, y ∈ l → y ≠ x → f2 y = f1 y) → Nsum f2 l = Nsum f1 l + d.
Proof.
  induction l as [|y l IH]; [by intros _ ?%elem_of_nil|].
  intros [Hni Hnd]%NoDup_cons [->|Hx]%elem_of_cons E Hother; rewrite !Nsum_cons.
  - rewrite E, (Nsum_ext f2 f1 l); [lia|]. intros z Hz. apply Hother; [by right|]. intros ->. done.
  - rewrite (Hother y); [|by left|by intros ->]. rewrite IH; [lia|done|done|done|].
    intros z Hz. apply Hother. by right.
Qed.

Lemma Nsum_swap {A B} (f : A → B → N) l1 l2 :
  Nsum (λ x, Nsum (f x) l2) l1 = Nsum (λ y, Nsum (λ x, f x y) l1) l2.
Proof.
  induction l1 as [|x l1 IH].
  - cbn. symmetry. by apply Nsum_zero.
  - rewrite Nsum_cons, IH. clear IH. induction l2 as [|y l2 IH2]; [done|].
    rewrite !Nsum_cons. lia.
Qed.

(** ** Residues *)

Lemma mod_gap c p q : 0 < c → p `mod` c = q `mod` c → p < q → p + c ≤ q.
Proof.
  intros Hc Hm Hlt. pose proof (N.div_mod' p c). pose proof (N.div_mod' q c).
  assert (p `div` c < q `div` c) by nia. nia.
Qed.

(** ** Serialised values

    Serialisation is serde's: a function to text and a partial function back.
    What the program relies on is that reading returns what was written. *)

Class Serde (A : Type) : Type := {
  to_json : A → string;
  from_json : string → option A;
}.

Definition serde_roundtrip (A : Type) `{Serde A} : Prop :=
  ∀ a : A, from_json (to_json a) = Some a.

(** One such pair, for concrete runs: the bits of the value's code. *)
Fixpoint positive_to_text (p : positive) : string :=
  match p with
  | xH => ""
  | xO p' => String "0" (positive_to_text p')
  | xI p' => String "1" (positive_to_text p')
  end.

Fixpoint positive_of_text (s : string) : positive :=
  match s with
  | "" => xH
  | String c s' => if Ascii.eqb c "1" then xI (positive_of_text s') else xO (positive_of_text s')
  end.

Definition demo_serde {A} `{Countable A} : Serde A := {|
  to_json := λ a, positive_to_text (encode a);
  from_json := λ s, decode (positive_of_text s);
|}.

Lemma demo_serde_roundtrip {A} `{Countable A} : @serde_roundtrip A demo_serde.
Proof.
  intros a. cbn. replace (positive_of_text (positive_to_text (encode a))) with (encode a).
  - apply decode_encode.
  - generalize (encode a). intros p. induction p as [p IH|p IH|]; cbn; by rewrite <-?IH.
Qed.

(** ** Tactics *)

(** Case analysis on every string comparison of the goal. *)
Ltac string_cases :=
  repeat match goal with
  | |- context [String.eqb ?a ?b] => destruct (String.eqb_spec a b) as [->|_]
  end.

(** ** Hints *)

Create HintDb roster discriminated.
Create Rewrite HintDb roster.
