(* ===== verification/Spec.v ===== *)
(** * Workflow specifications: [src/workflow/spec.rs]

    The data of a workflow file, the resource request of a job and the two
    computations on it: the card counts tried for a job that gives only VRAM,
    and each card's even share of that VRAM.  [parse] itself is [serde_yaml]. *)

From S2P Require Import Prelude.

(** Declared resource requirements for a job. *)
Record ResourceSpec := mkResourceSpec {
  rs_cpu : N;        (* u32 *)
  rs_memory_mb : N;  (* u64 *)
  rs_gpu : N;        (* u32; number of GPUs, 0 = CPU-only *)
  rs_vram_mb : N;    (* u64; across its GPUs, 0 = any card *)
}.

#[export] Instance ResourceSpec_eq_dec : EqDecision ResourceSpec.
Proof. solve_decision. Defined.

Definition default_cpu : N := 1.
Definition default_memory_mb : N := 512.

(** [impl Default for ResourceSpec] *)
Definition ResourceSpec_default : ResourceSpec :=
  mkResourceSpec default_cpu default_memory_mb 0 0.

(** Single job declaration inside a workflow. *)
Record JobSpec := mkJobSpec {
  js_id : string;
  js_command : string;
  js_depends_on : list string;
  js_resources : ResourceSpec;
}.

#[export] Instance JobSpec_eq_dec : EqDecision JobSpec.
Proof. solve_decision. Defined.

Record WorkflowSpec := mkWorkflowSpec {
  ws_name : string;
  ws_jobs : list JobSpec;
}.

#[export] Instance WorkflowSpec_eq_dec : EqDecision WorkflowSpec.
Proof. solve_decision. Defined.

#[export] Instance ResourceSpec_countable : Countable ResourceSpec.
Proof.
  by refine (inj_countable' (λ r, (rs_cpu r, rs_memory_mb r, rs_gpu r, rs_vram_mb r))
    (λ '(c, m, g, v), mkResourceSpec c m g v) _); intros [].
Defined.
#[export] Instance JobSpec_countable : Countable JobSpec.
Proof.
  by refine (inj_countable' (λ j, (js_id j, js_command j, js_depends_on j, js_resources j))
    (λ '(i, c, d, r), mkJobSpec i c d r) _); intros [].
Defined.
#[export] Instance WorkflowSpec_countable : Countable WorkflowSpec.
Proof.
  by refine (inj_countable' (λ s, (ws_name s, ws_jobs s)) (λ '(n, j), mkWorkflowSpec n j) _); intros [].
Defined.

(** Card counts tried for a job that gives only VRAM. *)
Definition GPU_COUNTS : list N := [1; 2; 4; 8].

(** [ResourceSpec { gpu, ..self.clone() }] *)
Definition with_gpu (gpu : N) (s : ResourceSpec) : ResourceSpec :=
  mkResourceSpec (rs_cpu s) (rs_memory_mb s) gpu (rs_vram_mb s).

(** The requests to try, fewest cards first. *)
Definition gpu_options (s : ResourceSpec) : list ResourceSpec :=
  if (0 <? rs_gpu s) || (rs_vram_mb s =? 0) then [s]
  else (λ gpu, with_gpu gpu s) <$> GPU_COUNTS.

(** [u64::div_ceil] *)
Definition div_ceil (a b : N) : N :=
  if 0 <? a mod b then a / b + 1 else a / b.

(** Each card's even share of the job's VRAM; 0 when it asks for no GPU. *)
Definition vram_per_gpu (s : ResourceSpec) : N :=
  if rs_gpu s =? 0 then 0 else div_ceil (rs_vram_mb s) (rs_gpu s).

(** ** Properties *)

Lemma div_ceil_spec a b : b ≠ 0 → a ≤ div_ceil a b * b < a + b.
Proof.
  intros Hb. unfold div_ceil.
  pose proof (N.div_mod a b Hb) as Hdm. pose proof (N.mod_lt a b Hb) as Hlt.
  generalize dependent (a mod b). generalize dependent (a / b). intros q r Hdm Hlt.
  destruct (N.ltb_spec 0 r); rewrite ?N.mul_add_distr_r, (N.mul_comm q b); lia.
Qed.

Lemma div_ceil_le a b : b ≠ 0 → div_ceil a b ≤ a.
Proof.
  intros Hb. pose proof (div_ceil_spec a b Hb).
  destruct (N.le_gt_cases (div_ceil a b) a) as [?|?]; [done|]. nia.
Qed.

(** The cards of a request hold the VRAM it asks for, and a share smaller by
    one megabyte would not. *)
Lemma vram_per_gpu_spec s :
  rs_gpu s ≠ 0 →
  rs_vram_mb s ≤ vram_per_gpu s * rs_gpu s < rs_vram_mb s + rs_gpu s.
Proof.
  intros Hg. unfold vram_per_gpu. destruct (N.eqb_spec (rs_gpu s) 0); [done|].
  by apply div_ceil_spec.
Qed.

Lemma gpu_options_nonempty s : gpu_options s ≠ [].
Proof. unfold gpu_options. by destruct (_ || _). Qed.

(** Every option asks for the job's own CPU, memory and VRAM; its card count
    is the job's, unless the job gave only VRAM. *)
Lemma elem_of_gpu_options s o :
  o ∈ gpu_options s →
  rs_cpu o = rs_cpu s ∧ rs_memory_mb o = rs_memory_mb s ∧ rs_vram_mb o = rs_vram_mb s ∧
  (o = s ∨ rs_gpu s = 0 ∧ 0 < rs_vram_mb s ∧ rs_gpu o ∈ GPU_COUNTS).
Proof.
  unfold gpu_options.
  destruct (N.ltb_spec 0 (rs_gpu s)); cbn; [by intros ->%list_elem_of_singleton; auto|].
  destruct (N.eqb_spec (rs_vram_mb s) 0); [by intros ->%list_elem_of_singleton; auto|].
  intros Ho. change (o ∈ (λ gpu, with_gpu gpu s) <$> GPU_COUNTS) in Ho.
  apply list_elem_of_fmap in Ho as (gpu & -> & Hin). cbn.
  split_and!; [done..|]. right. split_and!; [lia|lia|done].
Qed.

(** A request for VRAM never ends up without a card. *)
Lemma gpu_options_has_card s o :
  o ∈ gpu_options s → 0 < rs_vram_mb s → 0 < rs_gpu o.
Proof.
  intros Ho Hv. unfold gpu_options in Ho.
  destruct (N.ltb_spec 0 (rs_gpu s)); cbn in Ho.
  { by apply list_elem_of_singleton in Ho as ->. }
  destruct (N.eqb_spec (rs_vram_mb s) 0); [lia|].
  change (o ∈ (λ gpu, with_gpu gpu s) <$> GPU_COUNTS) in Ho.
  apply list_elem_of_fmap in Ho as (gpu & -> & Hin). cbn.
  unfold GPU_COUNTS in Hin. set_unfold in Hin. destruct_or?; lia.
Qed.

(** ** Concrete jobs, for the witnesses *)

Definition demo_job (id : string) (deps : list string) : JobSpec := {|
  js_id := id; js_command := "true"; js_depends_on := deps;
  js_resources := ResourceSpec_default;
|}.

Definition demo_spec (jobs : list JobSpec) : WorkflowSpec :=
  {| ws_name := "demo"; ws_jobs := jobs |}.
