(* ===== verification/Pool.v ===== *)
(** * One node's resources: [src/resource/pool.rs], [src/resource/discovery.rs]

    The machine's inventory, the pool of what is free on it, and every
    operation that books or returns resources.  [available_vram_mb] and
    [blocked] are vectors the code indexes with a card's [index], so each
    operation that does so may panic; [pool_wf] is the invariant under which
    none does, and [accounts] ties what is free to the allocations held. *)

From S2P Require Import Prelude Spec.

(** ** Data *)

Record GpuInfo := mkGpuInfo {
  gi_index : N;      (* u32 *)
  gi_name : string;
  gi_vram_mb : N;    (* u64 *)
  gi_uuid : string;  (* from NVML; empty in a declared inventory *)
}.

Record SystemResources := mkSystemResources {
  sr_cpu_cores : N;  (* u32 *)
  sr_memory_mb : N;  (* u64 *)
  sr_gpus : list GpuInfo;
}.

(** One whole GPU within an allocation. *)
Record GpuAllocation := mkGpuAllocation {
  ga_index : N;      (* u32 *)
  ga_vram_mb : N;    (* u64 *)
}.

(** What [try_reserve] hands out and [release] takes back. *)
Record Allocation := mkAllocation {
  al_cpu : N;        (* u32 *)
  al_memory_mb : N;  (* u64 *)
  al_gpus : list GpuAllocation;
}.

#[export] Instance GpuAllocation_eq_dec : EqDecision GpuAllocation.
Proof. solve_decision. Defined.
#[export] Instance Allocation_eq_dec : EqDecision Allocation.
Proof. solve_decision. Defined.
#[export] Instance GpuAllocation_countable : Countable GpuAllocation.
Proof.
  by refine (inj_countable' (λ g, (ga_index g, ga_vram_mb g)) (λ '(i, v), mkGpuAllocation i v) _); intros [].
Defined.
#[export] Instance Allocation_countable : Countable Allocation.
Proof.
  by refine (inj_countable' (λ a, (al_cpu a, al_memory_mb a, al_gpus a))
    (λ '(c, m, g), mkAllocation c m g) _); intros [].
Defined.

Record ResourcePool := mkResourcePool {
  rp_total : SystemResources;
  rp_available_cpu : N;
  rp_available_memory_mb : N;
  rp_available_vram_mb : list N;   (* indexed by GpuInfo.index *)
  rp_blocked : list bool;          (* indexed by GpuInfo.index *)
}.

#[export] Instance GpuInfo_eq_dec : EqDecision GpuInfo.
Proof. solve_decision. Defined.

(** [index as usize] *)
Definition gi_slot (g : GpuInfo) : nat := N.to_nat (gi_index g).
Definition ga_slot (g : GpuAllocation) : nat := N.to_nat (ga_index g).

(** ** Operations *)

Module ResourcePool.

Definition new (resources : SystemResources) : ResourcePool := {|
  rp_total := resources;
  rp_available_cpu := sr_cpu_cores resources;
  rp_available_memory_mb := sr_memory_mb resources;
  rp_available_vram_mb := gi_vram_mb <$> sr_gpus resources;
  rp_blocked := replicate (length (sr_gpus resources)) false;
|}.

(** Count an allocation already in use; it can't refuse.  [get_mut] ignores a
    card the pool does not have. *)
Definition book (alloc : Allocation) (p : ResourcePool) : ResourcePool := {|
  rp_total := rp_total p;
  rp_available_cpu := saturating_sub (rp_available_cpu p) (al_cpu alloc);
  rp_available_memory_mb := saturating_sub (rp_available_memory_mb p) (al_memory_mb alloc);
  rp_available_vram_mb :=
    foldl (λ free ga, alter (λ f, saturating_sub f (ga_vram_mb ga)) (ga_slot ga) free)
      (rp_available_vram_mb p) (al_gpus alloc);
  rp_blocked := rp_blocked p;
|}.

Definition set_available_vram_mb (free : list N) (p : ResourcePool) : ResourcePool := {|
  rp_total := rp_total p;
  rp_available_cpu := rp_available_cpu p;
  rp_available_memory_mb := rp_available_memory_mb p;
  rp_available_vram_mb := free;
  rp_blocked := rp_blocked p;
|}.

Definition set_blocked (blocked : list bool) (p : ResourcePool) : ResourcePool := {|
  rp_total := rp_total p;
  rp_available_cpu := rp_available_cpu p;
  rp_available_memory_mb := rp_available_memory_mb p;
  rp_available_vram_mb := rp_available_vram_mb p;
  rp_blocked := blocked;
|}.

(** Book one whole card for roster's own use, such as a qualification. *)
Definition reserve_card (idx : N) (p : ResourcePool)
    : exec (option Allocation * ResourcePool) :=
  match find (λ g, gi_index g =? idx) (sr_gpus (rp_total p)) with
  | None => Ret (None, p)
  | Some g =>
      if gi_vram_mb g =? 0 then Ret (None, p) else
      free ← index (rp_available_vram_mb p) (N.to_nat idx);
      if negb (free =? gi_vram_mb g) then Ret (None, p) else
      Ret (Some {| al_cpu := 0; al_memory_mb := 0;
                   al_gpus := [mkGpuAllocation idx (gi_vram_mb g)] |},
           set_available_vram_mb (<[N.to_nat idx := 0]> (rp_available_vram_mb p)) p)
  end.

(** The iterator behind [try_find_gpus]: the three filters, [take(n)] and the
    map to whole cards; a card past the [n]-th match is never looked at. *)
Fixpoint select_gpus (p : ResourcePool) (share : N) (gpus : list GpuInfo) (n : N)
    : exec (list GpuAllocation) :=
  if n =? 0 then Ret [] else
  match gpus with
  | [] => Ret []
  | g :: gpus' =>
      unbooked ← (if 0 <? gi_vram_mb g
                  then free ← index (rp_available_vram_mb p) (gi_slot g);
                       Ret (free =? gi_vram_mb g)
                  else Ret false);
      if negb unbooked then select_gpus p share gpus' n else
      blocked ← index (rp_blocked p) (gi_slot g);
      if blocked || negb (share <=? gi_vram_mb g) then select_gpus p share gpus' n else
      rest ← select_gpus p share gpus' (n - 1);
      Ret (mkGpuAllocation (gi_index g) (gi_vram_mb g) :: rest)
  end.

(** First-fit selection of whole GPUs. *)
Definition try_find_gpus (spec : ResourceSpec) (p : ResourcePool)
    : exec (option (list GpuAllocation)) :=
  if rs_gpu spec =? 0 then Ret (Some []) else
  selected ← select_gpus p (vram_per_gpu spec) (sr_gpus (rp_total p)) (rs_gpu spec);
  Ret (if N.of_nat (length selected) =? rs_gpu spec then Some selected else None).

(** Read-only admission check. *)
Definition can_admit (spec : ResourceSpec) (p : ResourcePool) : exec bool :=
  gpus ← try_find_gpus spec p;
  Ret (match gpus with Some _ => true | None => false end
       && (rs_cpu spec <=? rp_available_cpu p)
       && (rs_memory_mb spec <=? rp_available_memory_mb p)).

(** Whether the job could ever fit here, against totals. *)
Definition could_fit (spec : ResourceSpec) (p : ResourcePool) : bool :=
  let matching_gpus :=
    length (List.filter (λ g, (0 <? gi_vram_mb g) && (vram_per_gpu spec <=? gi_vram_mb g))
              (sr_gpus (rp_total p))) in
  (rs_cpu spec <=? sr_cpu_cores (rp_total p))
  && (rs_memory_mb spec <=? sr_memory_mb (rp_total p))
  && (rs_gpu spec <=? N.of_nat matching_gpus).

(** [for gpu in gpus { free[gpu.index] -= gpu.vram_mb }] *)
Definition take_vram (free : list N) (gpus : list GpuAllocation) : exec (list N) :=
  foldM (λ free ga, index_mut free (ga_slot ga) (λ f, checked_sub f (ga_vram_mb ga))) free gpus.

(** [for gpu in gpus { free[gpu.index] += gpu.vram_mb }] *)
Definition give_vram (free : list N) (gpus : list GpuAllocation) : exec (list N) :=
  foldM (λ free ga, index_mut free (ga_slot ga) (λ f, checked_add u64_max f (ga_vram_mb ga)))
    free gpus.

(** Check and reserve; the pool is unchanged when admission fails. *)
Definition try_reserve (spec : ResourceSpec) (p : ResourcePool)
    : exec (option Allocation * ResourcePool) :=
  if rp_available_cpu p <? rs_cpu spec then Ret (None, p) else
  if rp_available_memory_mb p <? rs_memory_mb spec then Ret (None, p) else
  found ← (if rs_gpu spec =? 0 then Ret (Some []) else try_find_gpus spec p);
  match found with
  | None => Ret (None, p)
  | Some gpu_allocs =>
      cpu ← checked_sub (rp_available_cpu p) (rs_cpu spec);
      memory_mb ← checked_sub (rp_available_memory_mb p) (rs_memory_mb spec);
      vram_mb ← take_vram (rp_available_vram_mb p) gpu_allocs;
      Ret (Some {| al_cpu := rs_cpu spec; al_memory_mb := rs_memory_mb spec;
                   al_gpus := gpu_allocs |},
           {| rp_total := rp_total p;
              rp_available_cpu := cpu;
              rp_available_memory_mb := memory_mb;
              rp_available_vram_mb := vram_mb;
              rp_blocked := rp_blocked p |})
  end.

(** Return an allocation to the pool. *)
Definition release (alloc : Allocation) (p : ResourcePool) : exec ResourcePool :=
  cpu ← checked_add u32_max (rp_available_cpu p) (al_cpu alloc);
  memory_mb ← checked_add u64_max (rp_available_memory_mb p) (al_memory_mb alloc);
  vram_mb ← give_vram (rp_available_vram_mb p) (al_gpus alloc);
  Ret {| rp_total := rp_total p;
         rp_available_cpu := cpu;
         rp_available_memory_mb := memory_mb;
         rp_available_vram_mb := vram_mb;
         rp_blocked := rp_blocked p |}.

End ResourcePool.

(** ** Invariants *)

(** An inventory that lists its cards in index order from 0 with no gap, as
    discovery does when every device answers: only then is a card's [index]
    its position in the vectors [new] builds. *)
Definition inventory_wf (r : SystemResources) : Prop :=
  sr_cpu_cores r ≤ u32_max ∧ sr_memory_mb r ≤ u64_max ∧
  Forall (λ g, gi_vram_mb g ≤ u64_max) (sr_gpus r) ∧
  gi_slot <$> sr_gpus r = seq 0 (length (sr_gpus r)).

#[export] Instance inventory_wf_dec r : Decision (inventory_wf r).
Proof. unfold inventory_wf. apply _. Defined.

Record pool_wf (p : ResourcePool) : Prop := {
  wf_inventory : inventory_wf (rp_total p);
  wf_vram_length : length (rp_available_vram_mb p) = length (sr_gpus (rp_total p));
  wf_blocked_length : length (rp_blocked p) = length (sr_gpus (rp_total p));
}.

(** The VRAM a list of cards takes from one slot, and an allocation does. *)
Definition vram_at (i : nat) (gpus : list GpuAllocation) : N :=
  Nsum (λ ga, if decide (ga_slot ga = i) then ga_vram_mb ga else 0) gpus.
Definition vram_on (i : nat) (a : Allocation) : N := vram_at i (al_gpus a).

(** What is free plus what is held is what the machine has. *)
Record accounts (p : ResourcePool) (held : list Allocation) : Prop := {
  acc_wf : pool_wf p;
  acc_cpu : rp_available_cpu p + Nsum al_cpu held = sr_cpu_cores (rp_total p);
  acc_memory : rp_available_memory_mb p + Nsum al_memory_mb held = sr_memory_mb (rp_total p);
  acc_vram : ∀ g, g ∈ sr_gpus (rp_total p) → ∃ free,
    rp_available_vram_mb p !! gi_slot g = Some free ∧
    free + Nsum (vram_on (gi_slot g)) held = gi_vram_mb g;
  acc_cards : ∀ a ga, a ∈ held → ga ∈ al_gpus a →
    ∃ g, g ∈ sr_gpus (rp_total p) ∧ gi_slot g = ga_slot ga;
}.

(** A card handed out whole. *)
Definition whole (g : GpuInfo) : GpuAllocation := mkGpuAllocation (gi_index g) (gi_vram_mb g).

Definition whole_alloc (r : SystemResources) (a : Allocation) : Prop :=
  ∀ ga, ga ∈ al_gpus a → ∃ g, g ∈ sr_gpus r ∧ ga = whole g ∧ 0 < gi_vram_mb g.

(** A card the request may get now, and whether it may get all it asks for. *)
Definition fits_card (p : ResourcePool) (share : N) (g : GpuInfo) : bool :=
  (0 <? gi_vram_mb g)
  && bool_decide (rp_available_vram_mb p !! gi_slot g = Some (gi_vram_mb g))
  && bool_decide (rp_blocked p !! gi_slot g = Some false)
  && (share <=? gi_vram_mb g).

Definition free_cards (p : ResourcePool) (spec : ResourceSpec) : list GpuInfo :=
  List.filter (fits_card p (vram_per_gpu spec)) (sr_gpus (rp_total p)).

Definition admits (p : ResourcePool) (spec : ResourceSpec) : Prop :=
  rs_cpu spec ≤ rp_available_cpu p ∧ rs_memory_mb spec ≤ rp_available_memory_mb p ∧
  rs_gpu spec ≤ N.of_nat (length (free_cards p spec)).

#[export] Instance admits_dec p spec : Decision (admits p spec).
Proof. unfold admits. apply _. Defined.

(** First fit: the lowest cards in inventory order. *)
Definition chosen (p : ResourcePool) (spec : ResourceSpec) : list GpuAllocation :=
  whole <$> take (N.to_nat (rs_gpu spec)) (free_cards p spec).

Definition reserved (p : ResourcePool) (spec : ResourceSpec) : Allocation :=
  mkAllocation (rs_cpu spec) (rs_memory_mb spec) (chosen p spec).

(** ** Slots and sums *)

Lemma vram_at_nil i : vram_at i [] = 0.
Proof. done. Qed.

Lemma vram_at_cons i ga gpus :
  vram_at i (ga :: gpus) = (if decide (ga_slot ga = i) then ga_vram_mb ga else 0) + vram_at i gpus.
Proof. done. Qed.

Lemma vram_at_absent i gpus : i ∉ ga_slot <$> gpus → vram_at i gpus = 0.
Proof.
  intros Hni. apply Nsum_zero. intros ga Hga. case_decide as Hs; [|done].
  destruct Hni. apply list_elem_of_fmap. by exists ga.
Qed.

Lemma vram_at_unique ga gpus :
  NoDup (ga_slot <$> gpus) → ga ∈ gpus → vram_at (ga_slot ga) gpus = ga_vram_mb ga.
Proof.
  induction gpus as [|ga' gpus IH]; intros Hnd Hin; [by apply elem_of_nil in Hin|].
  apply NoDup_cons in Hnd as [Hni Hnd]. rewrite vram_at_cons.
  apply elem_of_cons in Hin as [->|Hin].
  - rewrite decide_True, vram_at_absent by done. lia.
  - rewrite IH by done. rewrite decide_False; [lia|].
    intros Hs. apply Hni, list_elem_of_fmap. eauto.
Qed.

(** Both loops over an allocation's cards update one slot per card; [pre] says
    when the checked operation returns and [eff] what it leaves. *)
Section vram_vector.
Variables (upd : N → N → exec N) (eff : N → N → N) (pre : N → N → Prop).
Hypothesis upd_eff : ∀ v x, pre v x → upd v x = Ret (eff v x).
Hypothesis eff_0 : ∀ v, eff v 0 = v.
Hypothesis eff_add : ∀ v x y, eff v (x + y) = eff (eff v x) y.
Hypothesis pre_add : ∀ v x y, pre v (x + y) → pre v x ∧ pre (eff v x) y.

Lemma vram_loop_total free gpus :
  (∀ ga, ga ∈ gpus → (ga_slot ga < length free)%nat) →
  (∀ i v, i ∈ ga_slot <$> gpus → free !! i = Some v → pre v (vram_at i gpus)) →
  ∃ free', foldM (λ free ga, index_mut free (ga_slot ga) (λ f, upd f (ga_vram_mb ga))) free gpus
    = Ret free' ∧ length free' = length free ∧
    ∀ i v, free !! i = Some v → free' !! i = Some (eff v (vram_at i gpus)).
Proof.
  revert free. induction gpus as [|ga gpus IH]; intros free Hlt Hpre.
  { exists free. split_and!; [done..|]. intros i v ->. by rewrite vram_at_nil, eff_0. }
  destruct (lookup_lt_is_Some_2 free (ga_slot ga)) as [v Hv]; [apply Hlt; by left|].
  assert (pre v (ga_vram_mb ga) ∧ pre (eff v (ga_vram_mb ga)) (vram_at (ga_slot ga) gpus))
    as [Hp1 Hp2].
  { apply pre_add. assert (pre v (vram_at (ga_slot ga) (ga :: gpus))) as H
      by (apply Hpre; [by left|done]).
    by rewrite vram_at_cons, decide_True in H. }
  destruct (IH (<[ga_slot ga := eff v (ga_vram_mb ga)]> free)) as (free' & Hr & Hl & Hf).
  { intros ga' Hin. rewrite length_insert. apply Hlt. by right. }
  { intros i w Hin Hi. apply list_lookup_insert_Some in Hi as [(<- & <- & _)|[Hne Hi]]; [done|].
    assert (pre w (vram_at i (ga :: gpus))) as H by (apply Hpre; [by right|done]).
    by rewrite vram_at_cons, decide_False in H. }
  exists free'. split_and!.
  - cbn. unfold index_mut, index. rewrite Hv. cbn. by rewrite upd_eff.
  - by rewrite Hl, length_insert.
  - intros i w Hi. rewrite vram_at_cons. case_decide as Hs.
    + subst i. simplify_eq. rewrite eff_add. apply Hf.
      apply list_lookup_insert_eq. by eapply lookup_lt_Some.
    + apply Hf. by rewrite list_lookup_insert_ne.
Qed.
End vram_vector.

Lemma take_vram_total free gpus :
  (∀ ga, ga ∈ gpus → (ga_slot ga < length free)%nat) →
  (∀ i v, i ∈ ga_slot <$> gpus → free !! i = Some v → vram_at i gpus ≤ v) →
  ∃ free', ResourcePool.take_vram free gpus = Ret free' ∧ length free' = length free ∧
    ∀ i v, free !! i = Some v → free' !! i = Some (v - vram_at i gpus).
Proof.
  apply (vram_loop_total _ (λ v x, v - x) (λ v x, x ≤ v)); intros; [|lia..].
  by apply checked_sub_Ret.
Qed.

Lemma give_vram_total free gpus :
  (∀ ga, ga ∈ gpus → (ga_slot ga < length free)%nat) →
  (∀ i v, i ∈ ga_slot <$> gpus → free !! i = Some v → v + vram_at i gpus ≤ u64_max) →
  ∃ free', ResourcePool.give_vram free gpus = Ret free' ∧ length free' = length free ∧
    ∀ i v, free !! i = Some v → free' !! i = Some (v + vram_at i gpus).
Proof.
  apply (vram_loop_total _ (λ v x, v + x) (λ v x, v + x ≤ u64_max)); intros; [|lia..].
  by apply checked_add_Ret.
Qed.

(** ** Selection *)

Lemma inventory_lookup r i g :
  inventory_wf r → sr_gpus r !! i = Some g → gi_slot g = i.
Proof.
  intros (_ & _ & _ & Hseq) Hi.
  assert ((gi_slot <$> sr_gpus r) !! i = Some (gi_slot g)) as H by (by rewrite list_lookup_fmap, Hi).
  rewrite Hseq in H. by apply lookup_seq in H as [-> _].
Qed.

Lemma inventory_elem r g :
  inventory_wf r → g ∈ sr_gpus r → sr_gpus r !! gi_slot g = Some g.
Proof.
  intros Hr [i Hi]%list_elem_of_lookup. by rewrite (inventory_lookup _ _ _ Hr Hi).
Qed.

Lemma inventory_slot r g :
  inventory_wf r → g ∈ sr_gpus r → (gi_slot g < length (sr_gpus r))%nat ∧ gi_vram_mb g ≤ u64_max.
Proof.
  intros Hr Hg. split; [by eapply lookup_lt_Some, inventory_elem|].
  destruct Hr as (_ & _ & Hall & _). rewrite Forall_forall in Hall. by apply Hall.
Qed.

Lemma inventory_slot_inj r g g' :
  inventory_wf r → g ∈ sr_gpus r → g' ∈ sr_gpus r → gi_slot g = gi_slot g' → g = g'.
Proof.
  intros Hr Hg Hg' Heq. apply (inventory_elem _ _ Hr) in Hg, Hg'.
  rewrite Heq in Hg. by simplify_eq.
Qed.

Lemma inventory_NoDup r : inventory_wf r → NoDup (gi_slot <$> sr_gpus r).
Proof. intros (_ & _ & _ & ->). apply NoDup_seq. Qed.

Lemma select_gpus_spec p share gpus n :
  pool_wf p → (∀ g, g ∈ gpus → g ∈ sr_gpus (rp_total p)) →
  ResourcePool.select_gpus p share gpus n
  = Ret (whole <$> take (N.to_nat n) (List.filter (fits_card p share) gpus)).
Proof.
  intros Hwf. revert n. induction gpus as [|g gpus IH]; intros n Hsub; cbn [ResourcePool.select_gpus].
  { destruct (N.eqb_spec n 0); cbn; by rewrite ?take_nil. }
  assert (∀ n, ResourcePool.select_gpus p share gpus n
    = Ret (whole <$> take (N.to_nat n) (List.filter (fits_card p share) gpus))) as IH'.
  { intros n'. apply IH. intros g' ?. apply Hsub. by right. }
  destruct (N.eqb_spec n 0) as [->|Hn]; [done|].
  destruct (inventory_slot _ g (wf_inventory _ Hwf)) as [Hlt _]; [apply Hsub; by left|].
  destruct (lookup_lt_is_Some_2 (rp_available_vram_mb p) (gi_slot g)) as [free Hfree].
  { by rewrite (wf_vram_length _ Hwf). }
  destruct (lookup_lt_is_Some_2 (rp_blocked p) (gi_slot g)) as [b Hb].
  { by rewrite (wf_blocked_length _ Hwf). }
  cbn [List.filter]. unfold fits_card at 1, index. rewrite Hfree, Hb. cbn.
  destruct (0 <? gi_vram_mb g); cbn; [|apply IH'].
  case_bool_decide as Hf; simplify_eq; cycle 1.
  { rewrite (proj2 (N.eqb_neq _ _)) by congruence. cbn. apply IH'. }
  rewrite N.eqb_refl. cbn. destruct b; cbn; [by case_bool_decide; [done|]; cbn; apply IH'|].
  rewrite bool_decide_true by done. destruct (share <=? gi_vram_mb g); cbn; [|apply IH'].
  rewrite IH'. cbn. replace (N.to_nat n) with (S (N.to_nat (n - 1))) by lia. done.
Qed.

Lemma length_chosen p spec :
  rs_gpu spec ≤ N.of_nat (length (free_cards p spec)) →
  length (chosen p spec) = N.to_nat (rs_gpu spec).
Proof. intros H. unfold chosen. rewrite length_fmap, length_take. lia. Qed.

Lemma try_find_gpus_spec p spec :
  pool_wf p →
  ResourcePool.try_find_gpus spec p
  = Ret (if decide (rs_gpu spec ≤ N.of_nat (length (free_cards p spec)))
         then Some (chosen p spec) else None).
Proof.
  intros Hwf. unfold ResourcePool.try_find_gpus.
  destruct (N.eqb_spec (rs_gpu spec) 0) as [E|E].
  { rewrite decide_True by lia. unfold chosen. by rewrite E. }
  rewrite select_gpus_spec by done. cbn. fold (free_cards p spec). fold (chosen p spec).
  case_decide as Hle.
  - rewrite length_chosen by done. by rewrite N2Nat.id, N.eqb_refl.
  - unfold chosen. rewrite length_fmap, length_take, (proj2 (N.eqb_neq _ _)) by lia. done.
Qed.

(** Every chosen card is a card of the machine with none of its VRAM booked,
    not blocked, and large enough for its share. *)
Lemma elem_of_free_cards p spec g :
  g ∈ free_cards p spec ↔
  g ∈ sr_gpus (rp_total p) ∧ 0 < gi_vram_mb g ∧ vram_per_gpu spec ≤ gi_vram_mb g ∧
  rp_available_vram_mb p !! gi_slot g = Some (gi_vram_mb g) ∧
  rp_blocked p !! gi_slot g = Some false.
Proof.
  unfold free_cards, fits_card. rewrite list_elem_of_In, filter_In, <-list_elem_of_In.
  rewrite !andb_true_iff, !bool_decide_eq_true, N.ltb_lt, N.leb_le. tauto.
Qed.

Lemma elem_of_chosen p spec ga :
  ga ∈ chosen p spec → ∃ g, g ∈ free_cards p spec ∧ ga = whole g.
Proof.
  intros (g & -> & Hg)%list_elem_of_fmap. exists g. split; [|done].
  by eapply subseteq_take.
Qed.

Lemma ga_slot_whole g : ga_slot (whole g) = gi_slot g.
Proof. done. Qed.

Lemma NoDup_chosen p spec : pool_wf p → NoDup (ga_slot <$> chosen p spec).
Proof.
  intros Hwf. unfold chosen. rewrite <-list_fmap_compose.
  change (ga_slot ∘ whole) with gi_slot.
  eapply sublist_NoDup; [apply inventory_NoDup, (wf_inventory _ Hwf)|]. apply fmap_sublist.
  trans (free_cards p spec); [apply sublist_take|]. apply list_filter_sublist.
Qed.

Lemma chosen_fits p spec i v :
  pool_wf p → rp_available_vram_mb p !! i = Some v → vram_at i (chosen p spec) ≤ v.
Proof.
  intros Hwf Hv. destruct (decide (i ∈ ga_slot <$> chosen p spec)) as [Hin|Hni].
  - apply list_elem_of_fmap in Hin as (ga & -> & Hga).
    rewrite vram_at_unique by (done || by apply NoDup_chosen).
    apply elem_of_chosen in Hga as (g & (_ & _ & _ & Hg & _)%elem_of_free_cards & ->).
    rewrite ga_slot_whole in Hv. simplify_eq. done.
  - rewrite vram_at_absent by done. lia.
Qed.

(** ** What the operations promise *)

Lemma set_blocked_wf p bs :
  pool_wf p → length bs = length (rp_blocked p) → pool_wf (ResourcePool.set_blocked bs p).
Proof. intros [? ? Hb] Hl. split; cbn; [done..|]. by rewrite Hl. Qed.

Lemma accounts_set_blocked p held bs :
  accounts p held → length bs = length (rp_blocked p) →
  accounts (ResourcePool.set_blocked bs p) held.
Proof. intros [Hwf ????] Hl. split; cbn; [by apply set_blocked_wf|done..]. Qed.

Lemma new_wf r : inventory_wf r → pool_wf (ResourcePool.new r).
Proof. intros Hr. split; cbn; [done|by rewrite length_fmap|by rewrite length_replicate]. Qed.

#[export] Instance accounts_perm p : Proper ((≡ₚ) ==> iff) (accounts p).
Proof.
  assert (∀ h1 h2, h1 ≡ₚ h2 → accounts p h1 → accounts p h2) as Himp.
  { intros h1 h2 Hp [Hwf Hc Hm Hv Hk]. split; [done|by rewrite <-Hp..| |].
    - intros g Hg. destruct (Hv g Hg) as (free & Hf & Hs). exists free. by rewrite <-Hp.
    - intros a ga Ha. apply Hk. by rewrite Hp. }
  intros h1 h2 Hp. split; by apply Himp.
Qed.

(** The pool after a successful reservation. *)
Lemma try_reserve_success p spec :
  pool_wf p → admits p spec →
  ∃ p', ResourcePool.try_reserve spec p = Ret (Some (reserved p spec), p') ∧
    rp_total p' = rp_total p ∧ rp_blocked p' = rp_blocked p ∧
    rp_available_cpu p' = rp_available_cpu p - rs_cpu spec ∧
    rp_available_memory_mb p' = rp_available_memory_mb p - rs_memory_mb spec ∧
    length (rp_available_vram_mb p') = length (rp_available_vram_mb p) ∧
    ∀ i v, rp_available_vram_mb p !! i = Some v →
      rp_available_vram_mb p' !! i = Some (v - vram_at i (chosen p spec)).
Proof.
  intros Hwf (Hcpu & Hmem & Hgpu). unfold ResourcePool.try_reserve.
  rewrite (proj2 (N.ltb_ge _ _)), (proj2 (N.ltb_ge _ _)) by done.
  assert ((if rs_gpu spec =? 0 then Ret (Some []) else ResourcePool.try_find_gpus spec p)
    = Ret (Some (chosen p spec))) as ->.
  { rewrite try_find_gpus_spec, decide_True by done.
    destruct (N.eqb_spec (rs_gpu spec) 0) as [E|]; [|done]. unfold chosen. by rewrite E. }
  cbn. rewrite (proj2 (checked_sub_Ret _ _ _) (conj Hcpu eq_refl)). cbn.
  rewrite (proj2 (checked_sub_Ret _ _ _) (conj Hmem eq_refl)). cbn.
  destruct (take_vram_total (rp_available_vram_mb p) (chosen p spec)) as (vs & Ht & Hl & Hv).
  { intros ga (g & (Hg & _)%elem_of_free_cards & ->)%elem_of_chosen.
    rewrite (wf_vram_length _ Hwf). by apply (inventory_slot _ g (wf_inventory _ Hwf)). }
  { intros i v _. by apply chosen_fits. }
  rewrite Ht. cbn. eexists. split; [reflexivity|]. cbn. by split_and!.
Qed.

Lemma try_reserve_failure p spec :
  pool_wf p → ¬ admits p spec → ResourcePool.try_reserve spec p = Ret (None, p).
Proof.
  intros Hwf Hna. unfold ResourcePool.try_reserve.
  destruct (N.ltb_spec (rp_available_cpu p) (rs_cpu spec)); [done|].
  destruct (N.ltb_spec (rp_available_memory_mb p) (rs_memory_mb spec)); [done|].
  assert (¬ rs_gpu spec ≤ N.of_nat (length (free_cards p spec))) as Hg.
  { intros ?. by apply Hna. }
  rewrite (proj2 (N.eqb_neq _ _)) by lia.
  by rewrite try_find_gpus_spec, decide_False by done.
Qed.

Lemma try_reserve_Ret p spec r p' :
  pool_wf p → ResourcePool.try_reserve spec p = Ret (r, p') →
  (r = Some (reserved p spec) ∧ admits p spec) ∨ (r = None ∧ p' = p ∧ ¬ admits p spec).
Proof.
  intros Hwf H. destruct (decide (admits p spec)) as [Ha|Ha].
  - left. destruct (try_reserve_success p spec Hwf Ha) as (p1 & H1 & _).
    rewrite H1 in H. by simplify_eq.
  - right. rewrite try_reserve_failure in H by done. by simplify_eq.
Qed.

Lemma try_reserve_total p spec :
  pool_wf p → ∃ r p', ResourcePool.try_reserve spec p = Ret (r, p').
Proof.
  intros Hwf. destruct (decide (admits p spec)) as [Ha|Ha].
  - destruct (try_reserve_success p spec Hwf Ha) as (p' & -> & _). eauto.
  - rewrite try_reserve_failure by done. eauto.
Qed.

Lemma reserved_whole p spec : whole_alloc (rp_total p) (reserved p spec).
Proof.
  intros ga (g & (Hg & Hpos & _)%elem_of_free_cards & ->)%elem_of_chosen. by exists g.
Qed.

Lemma accounts_try_reserve p p' spec a held :
  accounts p held → ResourcePool.try_reserve spec p = Ret (Some a, p') →
  accounts p' (a :: held).
Proof.
  intros Hacc Hr. pose proof (acc_wf _ _ Hacc) as Hwf.
  destruct (try_reserve_Ret _ _ _ _ Hwf Hr) as [[Ha Hadm]|(? & _)]; simplify_eq.
  destruct (try_reserve_success p spec Hwf Hadm)
    as (p1 & Hr1 & Ht & Hb & Hc & Hm & Hl & Hv).
  rewrite Hr1 in Hr. injection Hr as ->.
  destruct Hadm as (Hcpu & Hmem & _). destruct Hacc as [_ Ac Am Av Ak]. split.
  - destruct Hwf as [Hi Hvl Hbl]. split; [by rewrite Ht|by rewrite Hl, Ht|by rewrite Hb, Ht].
  - rewrite Nsum_cons, Hc, Ht. cbn. lia.
  - rewrite Nsum_cons, Hm, Ht. cbn. lia.
  - rewrite Ht. intros g Hg. destruct (Av g Hg) as (free & Hf & Hs).
    eexists. split; [by apply Hv|]. rewrite Nsum_cons.
    change (vram_on (gi_slot g) (reserved p spec)) with (vram_at (gi_slot g) (chosen p spec)).
    pose proof (chosen_fits p spec _ _ Hwf Hf). lia.
  - rewrite Ht. intros b ga [->|Hb']%elem_of_cons Hga; [|by eapply Ak].
    apply elem_of_chosen in Hga as (g & (Hg & _)%elem_of_free_cards & ->). by exists g.
Qed.

(** A held allocation can always be returned: no overflow, no index out of
    range. *)
Lemma accounts_release p a held :
  accounts p (a :: held) →
  ∃ p', ResourcePool.release a p = Ret p' ∧ accounts p' held ∧
    rp_total p' = rp_total p ∧ rp_blocked p' = rp_blocked p ∧
    rp_available_cpu p' = rp_available_cpu p + al_cpu a ∧
    rp_available_memory_mb p' = rp_available_memory_mb p + al_memory_mb a ∧
    length (rp_available_vram_mb p') = length (rp_available_vram_mb p) ∧
    ∀ i v, rp_available_vram_mb p !! i = Some v →
      rp_available_vram_mb p' !! i = Some (v + vram_on i a).
Proof.
  intros [Hwf Ac Am Av Ak].
  pose proof (wf_inventory _ Hwf) as Hinv. pose proof Hinv as (Hcm & Hmm & _ & _).
  rewrite Nsum_cons in Ac, Am. unfold ResourcePool.release.
  assert (∀ ga, ga ∈ al_gpus a → (ga_slot ga < length (rp_available_vram_mb p))%nat) as Hlt.
  { intros ga Hga. destruct (Ak a ga) as (g & Hg & <-); [by left|done|].
    rewrite (wf_vram_length _ Hwf). by apply (inventory_slot _ g Hinv). }
  destruct (give_vram_total (rp_available_vram_mb p) (al_gpus a)) as (vs & Hg & Hl & Hv).
  { done. }
  { intros i v Hin Hi. apply list_elem_of_fmap in Hin as (ga & -> & Hga).
    destruct (Ak a ga) as (g & Hg & Heq); [by left|done|].
    destruct (Av g Hg) as (free & Hf & Hs). rewrite Heq, Nsum_cons in *. simplify_eq.
    destruct (inventory_slot _ g Hinv Hg). unfold vram_on in Hs at 1. lia. }
  rewrite (proj2 (checked_add_Ret _ _ _ _)) by (split; [|reflexivity]; lia). cbn.
  rewrite (proj2 (checked_add_Ret _ _ _ _)) by (split; [|reflexivity]; lia). cbn.
  rewrite Hg. cbn. eexists. split; [reflexivity|]. cbn. split_and!; [|done..].
  split; cbn; [|lia|lia| |].
  - destruct Hwf as [Hi Hvl Hbl]. split; cbn; [done|congruence|done].
  - intros g Hg'. destruct (Av g Hg') as (free & Hf & Hs). rewrite Nsum_cons in Hs.
    eexists. split; [by apply Hv|]. unfold vram_on in Hs at 1. lia.
  - intros b ga Hb Hga. eapply (Ak b); [by right|done].
Qed.

Lemma find_card r idx g :
  find (λ g, gi_index g =? idx) (sr_gpus r) = Some g → g ∈ sr_gpus r ∧ gi_index g = idx.
Proof. intros [Hin Heq]%find_some. split; [by apply list_elem_of_In|by apply N.eqb_eq]. Qed.

Lemma reserve_card_total p idx :
  pool_wf p → ∃ r p', ResourcePool.reserve_card idx p = Ret (r, p').
Proof.
  intros Hwf. unfold ResourcePool.reserve_card.
  destruct (find _ _) as [g|] eqn:Hf; [|eauto].
  apply find_card in Hf as [Hg <-]. destruct (_ =? 0); [eauto|].
  destruct (lookup_lt_is_Some_2 (rp_available_vram_mb p) (gi_slot g)) as [v Hv].
  { rewrite (wf_vram_length _ Hwf). by apply (inventory_slot _ g (wf_inventory _ Hwf)). }
  unfold index. fold (gi_slot g). rewrite Hv. cbn. destruct (negb _); eauto.
Qed.

Lemma reserve_card_Ret p idx r p' :
  ResourcePool.reserve_card idx p = Ret (r, p') →
  (r = None ∧ p' = p) ∨
  ∃ g, g ∈ sr_gpus (rp_total p) ∧ gi_index g = idx ∧ 0 < gi_vram_mb g ∧
    rp_available_vram_mb p !! gi_slot g = Some (gi_vram_mb g) ∧
    r = Some (mkAllocation 0 0 [whole g]) ∧
    p' = ResourcePool.set_available_vram_mb (<[gi_slot g := 0]> (rp_available_vram_mb p)) p.
Proof.
  unfold ResourcePool.reserve_card. destruct (find _ _) as [g|] eqn:Hf; [|by left; simplify_eq].
  apply find_card in Hf as [Hg <-].
  destruct (N.eqb_spec (gi_vram_mb g) 0); [by left; simplify_eq|].
  intros (free & Hfree%index_Ret & H)%bind_Ret_inv.
  destruct (N.eqb_spec free (gi_vram_mb g)) as [->|]; cbn in H; [right|by left; simplify_eq].
  exists g. injection H as <- <-. split_and!; [done|done|lia|done..].
Qed.

Lemma accounts_reserve_card p p' idx a held :
  accounts p held → ResourcePool.reserve_card idx p = Ret (Some a, p') →
  accounts p' (a :: held) ∧ whole_alloc (rp_total p) a.
Proof.
  intros [Hwf Ac Am Av Ak] [[? _]|(g & Hg & <- & Hpos & Hfree & Ha & ->)]%reserve_card_Ret; [done|].
  injection Ha as ->. pose proof (wf_inventory _ Hwf) as Hinv.
  split; [split; cbn; rewrite ?Nsum_cons; cbn|].
  - destruct Hwf. split; cbn; [done|by rewrite length_insert|done].
  - lia.
  - lia.
  - intros g' Hg'. destruct (Av g' Hg') as (free & Hf & Hs).
    rewrite Nsum_cons. unfold vram_on at 1. cbn [al_gpus].
    rewrite vram_at_cons, vram_at_nil, ga_slot_whole.
    destruct (decide (gi_slot g = gi_slot g')) as [Heq|Hne].
    + rewrite Heq in *. simplify_eq. exists 0. split.
      * apply list_lookup_insert_eq. by eapply lookup_lt_Some.
      * assert (g = g') as -> by (by eapply inventory_slot_inj). cbn. lia.
    + exists free. split; [by rewrite list_lookup_insert_ne|]. lia.
  - intros b ga [->|Hb]%elem_of_cons Hga; [|by eapply Ak].
    apply list_elem_of_singleton in Hga as ->. by exists g.
  - intros ga ->%list_elem_of_singleton. by exists g.
Qed.

Lemma accounts_new r : inventory_wf r → accounts (ResourcePool.new r) [].
Proof.
  intros Hr. split; cbn; [by apply new_wf|unfold Nsum; cbn; lia..| |].
  - intros g Hg. exists (gi_vram_mb g). unfold Nsum; cbn. split; [|lia].
    by rewrite list_lookup_fmap, inventory_elem.
  - by intros a ga ?%elem_of_nil.
Qed.

Lemma held_two_le {A} (f : A → N) (l : list A) i j a b :
  i ≠ j → l !! i = Some a → l !! j = Some b → f a + f b ≤ Nsum f l.
Proof.
  revert i j. induction l as [|x l IH]; intros i j Hne Hi Hj; [done|]. rewrite Nsum_cons.
  destruct i as [|i], j as [|j]; cbn in *; simplify_eq.
  - pose proof (Nsum_elem f b l). apply list_elem_of_lookup_2 in Hj. naive_solver lia.
  - pose proof (Nsum_elem f a l). apply list_elem_of_lookup_2 in Hi. naive_solver lia.
  - enough (f a + f b ≤ Nsum f l) by lia. eapply (IH i j); [congruence|done..].
Qed.

(** Two allocations held at the same time share no card. *)
Lemma accounts_exclusive p held i j a b ga gb :
  accounts p held →
  held !! i = Some a → held !! j = Some b → i ≠ j →
  whole_alloc (rp_total p) a → whole_alloc (rp_total p) b →
  ga ∈ al_gpus a → gb ∈ al_gpus b → ga_index ga ≠ ga_index gb.
Proof.
  intros Hacc Hi Hj Hne Ha Hb Hga Hgb Heq.
  destruct (Ha _ Hga) as (g & Hg & -> & Hpos), (Hb _ Hgb) as (g' & Hg' & -> & _).
  assert (g = g') as <-.
  { eapply inventory_slot_inj; [apply (wf_inventory _ (acc_wf _ _ Hacc))|done..|].
    unfold gi_slot. cbn in Heq. by rewrite Heq. }
  destruct (acc_vram _ _ Hacc g Hg) as (free & _ & Hsum).
  pose proof (held_two_le (vram_on (gi_slot g)) _ _ _ _ _ Hne Hi Hj) as Hle.
  assert (∀ c, whole g ∈ al_gpus c → gi_vram_mb g ≤ vram_on (gi_slot g) c) as Hon.
  { intros c Hc. unfold vram_on, vram_at. etrans; [|by apply (Nsum_elem _ _ _ Hc)].
    cbn. rewrite decide_True by done. lia. }
  pose proof (Hon _ Hga). pose proof (Hon _ Hgb). lia.
Qed.

(** ** The pool as a transition system

    Everything the scheduler does to a pool between startup and shutdown:
    reserve for a job, reserve a card for a qualification, return a held
    allocation, refresh the blocked flags. *)

Inductive pool_step : ResourcePool * list Allocation → ResourcePool * list Allocation → Prop :=
  | pool_step_reserve p p' spec a held :
      ResourcePool.try_reserve spec p = Ret (Some a, p') → pool_step (p, held) (p', a :: held)
  | pool_step_reserve_card p p' idx a held :
      ResourcePool.reserve_card idx p = Ret (Some a, p') → pool_step (p, held) (p', a :: held)
  | pool_step_release p p' a held held' :
      held ≡ₚ a :: held' → ResourcePool.release a p = Ret p' → pool_step (p, held) (p', held')
  | pool_step_block p bs held :
      length bs = length (rp_blocked p) → pool_step (p, held) (ResourcePool.set_blocked bs p, held).

Definition pool_inv (r : SystemResources) (s : ResourcePool * list Allocation) : Prop :=
  rp_total s.1 = r ∧ accounts s.1 s.2 ∧ Forall (whole_alloc r) s.2.

Lemma pool_step_inv r s s' : pool_step s s' → pool_inv r s → pool_inv r s'.
Proof.
  intros Hstep (Ht & Hacc & Hall). destruct Hstep as [p p' spec a held Hr|p p' idx a held Hr
    |p p' a held held' Hp Hr|p bs held Hl]; cbn in *; subst r.
  - pose proof (accounts_try_reserve _ _ _ _ _ Hacc Hr) as Hacc'.
    destruct (try_reserve_Ret _ _ _ _ (acc_wf _ _ Hacc) Hr) as [[Ha Hadm]|(? & _)]; simplify_eq.
    destruct (try_reserve_success _ _ (acc_wf _ _ Hacc) Hadm) as (p1 & Hr1 & Ht & _).
    rewrite Hr1 in Hr. injection Hr as ->.
    split_and!; [done|done|]. constructor; [apply reserved_whole|done].
  - pose proof (accounts_reserve_card _ _ _ _ _ Hacc Hr) as [Hacc' Hw].
    apply reserve_card_Ret in Hr as [[? _]|(g & _ & _ & _ & _ & _ & ->)]; [done|].
    split_and!; [done|done|by constructor].
  - rewrite Hp in Hacc, Hall. apply Forall_cons in Hall as [_ Hall].
    destruct (accounts_release _ _ _ Hacc) as (p1 & Hr1 & Hacc' & Ht & _).
    rewrite Hr1 in Hr. injection Hr as ->. by split_and!.
  - split_and!; [done|by apply accounts_set_blocked|done].
Qed.

Lemma pool_reachable_inv r p held :
  inventory_wf r → rtc pool_step (ResourcePool.new r, []) (p, held) → pool_inv r (p, held).
Proof.
  intros Hr Hsteps.
  assert (∀ s s', rtc pool_step s s' → pool_inv r s → pool_inv r s') as Hinv.
  { induction 1; [done|]. intros. by eapply IHrtc, pool_step_inv. }
  eapply Hinv; [done|]. split_and!; [done|by apply accounts_new|by apply Forall_nil].
Qed.

(** ** Properties *)

(** Whatever sequence of reservations, qualifications, returns and block
    refreshes a pool goes through from startup, what is free plus what is held
    is exactly the machine's CPU, memory and VRAM. *)
Theorem pool_conserves_resources (r : SystemResources) (p : ResourcePool) (held : list Allocation) :
  inventory_wf r →
  rtc pool_step (ResourcePool.new r, []) (p, held) →
  rp_available_cpu p + Nsum al_cpu held = sr_cpu_cores r ∧
  rp_available_memory_mb p + Nsum al_memory_mb held = sr_memory_mb r ∧
  ∀ g, g ∈ sr_gpus r → ∃ free,
    rp_available_vram_mb p !! gi_slot g = Some free ∧
    free + Nsum (vram_on (gi_slot g)) held = gi_vram_mb g.
Proof.
  intros Hr Hsteps. destruct (pool_reachable_inv _ _ _ Hr Hsteps) as (<- & [] & _).
  by split_and!.
Qed.

(** A GPU is never shared: two allocations held at the same time name no
    common card, however the pool got there. *)
Theorem pool_gpus_exclusive (r : SystemResources) (p : ResourcePool) (held : list Allocation)
    (i j : nat) (a b : Allocation) :
  inventory_wf r →
  rtc pool_step (ResourcePool.new r, []) (p, held) →
  held !! i = Some a → held !! j = Some b → i ≠ j →
  ∀ ga gb, ga ∈ al_gpus a → gb ∈ al_gpus b → ga_index ga ≠ ga_index gb.
Proof.
  intros Hr Hsteps Hi Hj Hne ga gb Hga Hgb.
  destruct (pool_reachable_inv _ _ _ Hr Hsteps) as (Ht & Hacc & Hall). cbn in *.
  rewrite Forall_lookup in Hall. subst r.
  eapply (accounts_exclusive p held i j a b); [done..|by eapply Hall|by eapply Hall|done|done].
Qed.

(** C23: [try_reserve] on every branch: it grants exactly when CPU, memory and
    enough unbooked, unblocked, large-enough cards are there, hands out the
    lowest of those cards whole, takes precisely that from the pool, and
    leaves a pool that refuses untouched. *)
Theorem try_reserve_functional (p : ResourcePool) (spec : ResourceSpec) :
  pool_wf p →
  (¬ admits p spec → ResourcePool.try_reserve spec p = Ret (None, p)) ∧
  (admits p spec → ∃ p',
    ResourcePool.try_reserve spec p = Ret (Some (reserved p spec), p') ∧
    N.of_nat (length (al_gpus (reserved p spec))) = rs_gpu spec ∧
    Forall (λ ga, vram_per_gpu spec ≤ ga_vram_mb ga) (al_gpus (reserved p spec)) ∧
    rp_available_cpu p' = rp_available_cpu p - rs_cpu spec ∧
    rp_available_memory_mb p' = rp_available_memory_mb p - rs_memory_mb spec ∧
    ∀ g, g ∈ sr_gpus (rp_total p) →
      rp_available_vram_mb p' !! gi_slot g =
        (if decide (whole g ∈ al_gpus (reserved p spec)) then Some 0
         else rp_available_vram_mb p !! gi_slot g)).
Proof.
  intros Hwf. split; [by apply try_reserve_failure|]. intros Hadm.
  destruct (try_reserve_success p spec Hwf Hadm) as (p' & Hr & _ & _ & Hc & Hm & _ & Hv).
  exists p'. split_and!; [done| | |done|done|].
  - cbn. rewrite length_chosen by apply Hadm. apply N2Nat.id.
  - apply Forall_forall. cbn. intros ga (g & Hg & ->)%elem_of_chosen.
    by apply elem_of_free_cards in Hg as (_ & _ & ? & _).
  - cbn. intros g Hg. case_decide as Hin.
    + pose proof (vram_at_unique _ _ (NoDup_chosen p spec Hwf) Hin) as Hat.
      apply elem_of_chosen in Hin as Hin'.
      destruct Hin' as (g' & (Hg' & _ & _ & Hfree & _)%elem_of_free_cards & Heq).
      assert (g = g') as <-.
      { eapply inventory_slot_inj; [apply (wf_inventory _ Hwf)|done..|].
        by rewrite <-!ga_slot_whole, Heq. }
      rewrite (Hv _ _ Hfree). rewrite ga_slot_whole in Hat. rewrite Hat. cbn. f_equal. lia.
    + destruct (lookup_lt_is_Some_2 (rp_available_vram_mb p) (gi_slot g)) as [v Hv'].
      { rewrite (wf_vram_length _ Hwf). by apply (inventory_slot _ g (wf_inventory _ Hwf)). }
      rewrite (Hv _ _ Hv'), Hv', vram_at_absent; [f_equal; lia|].
      intros (ga & Hs & Hga)%list_elem_of_fmap. apply Hin.
      apply elem_of_chosen in Hga as Hga'.
      destruct Hga' as (g' & (Hg' & _)%elem_of_free_cards & ->).
      assert (g = g') as ->; [|done].
      eapply inventory_slot_inj; [apply (wf_inventory _ Hwf)|done..].
Qed.

Lemma list_ext_lookup {A} (l1 l2 : list A) :
  length l1 = length l2 → (∀ i a, l1 !! i = Some a → l2 !! i = Some a) → l1 = l2.
Proof.
  intros Hl Hlook. apply list_eq. intros i. destruct (l1 !! i) eqn:E.
  - symmetry. by apply Hlook.
  - apply lookup_ge_None in E. symmetry. apply lookup_ge_None. lia.
Qed.

(** Releasing what [try_reserve] just handed out gives back exactly the
    pool it came from. *)
Theorem release_undoes_try_reserve (p p' : ResourcePool) (spec : ResourceSpec)
    (a : Allocation) (held : list Allocation) :
  accounts p held →
  ResourcePool.try_reserve spec p = Ret (Some a, p') →
  ResourcePool.release a p' = Ret p.
Proof.
  intros Hacc Hr. pose proof (acc_wf _ _ Hacc) as Hwf.
  pose proof (accounts_try_reserve _ _ _ _ _ Hacc Hr) as Hacc'.
  destruct (try_reserve_Ret _ _ _ _ Hwf Hr) as [[Ha Hadm]|(? & _)]; simplify_eq.
  destruct (try_reserve_success p spec Hwf Hadm) as (p1 & Hr1 & Ht & Hb & Hc & Hm & Hl & Hv).
  rewrite Hr1 in Hr. injection Hr as ->.
  destruct (accounts_release _ _ _ Hacc') as (q & Hq & _ & Ht' & Hb' & Hc' & Hm' & Hl' & Hv').
  rewrite Hq. f_equal. destruct Hadm as (Hcpu & Hmem & _).
  assert (rp_available_vram_mb q = rp_available_vram_mb p) as Hvram.
  { symmetry. apply list_ext_lookup; [congruence|]. intros i v Hi.
    rewrite (Hv' _ _ (Hv _ _ Hi)). pose proof (chosen_fits p spec _ _ Hwf Hi).
    change (vram_on i (reserved p spec)) with (vram_at i (chosen p spec)). f_equal. lia. }
  destruct p, q; cbn in *. subst. f_equal; lia.
Qed.

Lemma can_admit_spec p spec :
  pool_wf p → ResourcePool.can_admit spec p = Ret (bool_decide (admits p spec)).
Proof.
  intros Hwf. unfold ResourcePool.can_admit. rewrite try_find_gpus_spec by done. cbn. f_equal.
  apply eq_true_iff_eq. rewrite bool_decide_eq_true, !andb_true_iff, !N.leb_le.
  unfold admits. case_decide; intuition done.
Qed.

(** The read-only admission check says yes exactly when a reservation
    would succeed. *)
Theorem can_admit_iff_try_reserve (p : ResourcePool) (spec : ResourceSpec) :
  pool_wf p →
  ResourcePool.can_admit spec p = Ret true ↔
  ∃ a p', ResourcePool.try_reserve spec p = Ret (Some a, p').
Proof.
  intros Hwf. rewrite can_admit_spec by done. split.
  - intros [= Hadm%bool_decide_eq_true].
    destruct (try_reserve_success p spec Hwf Hadm) as (p' & Hr & _). eauto.
  - intros (a & p' & Hr). destruct (try_reserve_Ret _ _ _ _ Hwf Hr) as [[_ Hadm]|(? & _)]; [|done].
    by rewrite bool_decide_true.
Qed.

Lemma could_fit_true p spec :
  ResourcePool.could_fit spec p = true ↔
  rs_cpu spec ≤ sr_cpu_cores (rp_total p) ∧ rs_memory_mb spec ≤ sr_memory_mb (rp_total p) ∧
  rs_gpu spec ≤ N.of_nat (length
    (List.filter (λ g, (0 <? gi_vram_mb g) && (vram_per_gpu spec <=? gi_vram_mb g))
       (sr_gpus (rp_total p)))).
Proof. unfold ResourcePool.could_fit. rewrite !andb_true_iff, !N.leb_le. tauto. Qed.

Lemma list_filter_ext_in {A} (f g : A → bool) (l : list A) :
  (∀ x, x ∈ l → f x = g x) → List.filter f l = List.filter g l.
Proof. intros H. apply List.filter_ext_in. intros x Hx. apply H, list_elem_of_In, Hx. Qed.

Lemma free_cards_idle r spec :
  inventory_wf r →
  free_cards (ResourcePool.new r) spec
  = List.filter (λ g, (0 <? gi_vram_mb g) && (vram_per_gpu spec <=? gi_vram_mb g)) (sr_gpus r).
Proof.
  intros Hr. apply list_filter_ext_in. intros g Hg. unfold fits_card. cbn.
  rewrite !bool_decide_true; [by rewrite !andb_true_r| |].
  - apply lookup_replicate_2. by apply (inventory_slot _ g Hr).
  - by rewrite list_lookup_fmap, (inventory_elem _ _ Hr Hg).
Qed.

(** [could_fit], which decides whether a job is refused at submission, is
    exactly admission on the same machine with nothing booked or blocked. *)
Theorem could_fit_iff_idle_admission (p : ResourcePool) (spec : ResourceSpec) :
  inventory_wf (rp_total p) →
  ResourcePool.could_fit spec p = true ↔
  ∃ a p', ResourcePool.try_reserve spec (ResourcePool.new (rp_total p)) = Ret (Some a, p').
Proof.
  intros Hr. pose proof (new_wf _ Hr) as Hwf.
  rewrite <-(can_admit_iff_try_reserve _ _ Hwf), can_admit_spec by done.
  assert (ResourcePool.could_fit spec p = true ↔ admits (ResourcePool.new (rp_total p)) spec) as ->.
  { rewrite could_fit_true. unfold admits. by rewrite (free_cards_idle _ _ Hr). }
  split; [intros H; by rewrite bool_decide_true|by intros [= H%bool_decide_eq_true]].
Qed.

(** A grant on a pool in use is one the idle machine would make too. *)
Lemma try_reserve_could_fit p p' spec a held :
  accounts p held → ResourcePool.try_reserve spec p = Ret (Some a, p') →
  ResourcePool.could_fit spec p = true.
Proof.
  intros Hacc Hr.
  destruct (try_reserve_Ret _ _ _ _ (acc_wf _ _ Hacc) Hr) as [[_ (Hc & Hm & Hg)]|(? & _)]; [|done].
  apply could_fit_true. pose proof (acc_cpu _ _ Hacc). pose proof (acc_memory _ _ Hacc).
  split_and!; [lia..|]. etrans; [exact Hg|].
  match goal with |- N.of_nat (length ?l1) ≤ N.of_nat (length ?l2) =>
    assert (l1 `sublist_of` l2) as Hsub; [|apply sublist_length in Hsub; lia] end.
  unfold free_cards. clear. induction (sr_gpus (rp_total p)) as [|g gs IH]; cbn; [done|].
  unfold fits_card at 1.
  destruct (0 <? gi_vram_mb g), (vram_per_gpu spec <=? gi_vram_mb g);
    repeat case_bool_decide; cbn; first [exact IH|by constructor].
Qed.

(** [book] counts a job taken back after a restart, when it fits. *)
Lemma book_vram_lookup (free : list N) gpus i v :
  free !! i = Some v →
  foldl (λ free ga, alter (λ f, saturating_sub f (ga_vram_mb ga)) (ga_slot ga) free) free gpus !! i
  = Some (v - vram_at i gpus).
Proof.
  revert free v. induction gpus as [|ga gpus IH]; intros free v Hv; cbn.
  { rewrite vram_at_nil, Hv. f_equal. lia. }
  rewrite vram_at_cons. case_decide as Hs.
  - subst i. erewrite IH; [|by rewrite list_lookup_alter_eq, Hv].
    unfold saturating_sub. f_equal. lia.
  - erewrite IH; [|by rewrite list_lookup_alter_ne]. done.
Qed.

Lemma book_vram_length (free : list N) gpus :
  length (foldl (λ free ga, alter (λ f, saturating_sub f (ga_vram_mb ga)) (ga_slot ga) free)
    free gpus) = length free.
Proof.
  revert free. induction gpus as [|ga gpus IH]; intros free; cbn; [done|].
  by rewrite IH, length_alter.
Qed.

Lemma accounts_book p a held :
  accounts p held →
  al_cpu a ≤ rp_available_cpu p → al_memory_mb a ≤ rp_available_memory_mb p →
  (∀ ga, ga ∈ al_gpus a → ∃ g, g ∈ sr_gpus (rp_total p) ∧ gi_slot g = ga_slot ga) →
  (∀ i v, rp_available_vram_mb p !! i = Some v → vram_on i a ≤ v) →
  accounts (ResourcePool.book a p) (a :: held).
Proof.
  intros [Hwf Ac Am Av Ak] Hc Hm Hk Hv. split; cbn; rewrite ?Nsum_cons; unfold saturating_sub.
  - destruct Hwf. split; cbn; [done|by rewrite book_vram_length|done].
  - lia.
  - lia.
  - intros g Hg. destruct (Av g Hg) as (free & Hf & Hs). eexists.
    split; [by apply book_vram_lookup|]. specialize (Hv _ _ Hf). rewrite Nsum_cons.
    unfold vram_on in Hv |- * at 1. lia.
  - intros b ga [->|Hb]%elem_of_cons Hga; [by apply Hk|by eapply Ak].
Qed.

(** ** What restart and sparse inventories do

    [book] saturates and skips unknown cards; [release] does neither. *)

(** A job taken back after a restart that holds more CPU than the machine
    now has leaves, once released, more CPU free than the machine has: [book]
    stops at zero and [release] adds the whole allocation back. *)
Theorem book_release_exceeds_total (r : SystemResources) (a : Allocation) :
  sr_cpu_cores r < al_cpu a → al_cpu a ≤ u32_max →
  sr_memory_mb r ≤ u64_max → al_memory_mb a ≤ sr_memory_mb r → al_gpus a = [] →
  ∃ p', ResourcePool.release a (ResourcePool.book a (ResourcePool.new r)) = Ret p' ∧
    rp_available_cpu p' = al_cpu a ∧ sr_cpu_cores (rp_total p') < rp_available_cpu p'.
Proof.
  intros Hlt Hmax Hmm Hm Hg. unfold ResourcePool.release, ResourcePool.book, saturating_sub. cbn.
  rewrite (proj2 (checked_add_Ret _ _ _ _)) by (split; [|reflexivity]; lia). cbn.
  rewrite (proj2 (checked_add_Ret _ _ _ _)) by (split; [|reflexivity]; lia). cbn.
  rewrite Hg. cbn. eexists. split; [reflexivity|]. cbn. lia.
Qed.

(** A job taken back on a machine that lost its GPU is booked without
    complaint, and panics the scheduler when it ends. *)
Theorem release_of_lost_card_panics (r : SystemResources) (a : Allocation) (ga : GpuAllocation) :
  al_gpus a = [ga] → (length (sr_gpus r) ≤ ga_slot ga)%nat →
  ResourcePool.release a (ResourcePool.book a (ResourcePool.new r)) = Panic.
Proof.
  intros Hg Hout. unfold ResourcePool.release.
  destruct (checked_add u32_max _ _); cbn; [|done].
  destruct (checked_add u64_max _ _); cbn; [|done].
  rewrite Hg. unfold ResourcePool.give_vram, index_mut, index. cbn.
  rewrite lookup_ge_None_2; [done|]. by rewrite length_alter, length_fmap.
Qed.

Lemma select_gpus_out_of_range p share g gs n :
  n ≠ 0 → 0 < gi_vram_mb g → (length (rp_available_vram_mb p) ≤ gi_slot g)%nat →
  ResourcePool.select_gpus p share (g :: gs) n = Panic.
Proof.
  intros Hn Hv Hout. cbn. rewrite (proj2 (N.eqb_neq _ _)), (proj2 (N.ltb_lt _ _)) by done.
  unfold index. by rewrite (lookup_ge_None_2 _ _ Hout).
Qed.

(** Discovery skips a device that does not answer and keeps the others'
    NVML indices, so an inventory can name a card past the end of the per-GPU
    vectors; the first GPU request then panics. *)
Theorem sparse_inventory_panics (r : SystemResources) (g : GpuInfo) (gs : list GpuInfo)
    (spec : ResourceSpec) :
  sr_gpus r = g :: gs → (length (sr_gpus r) ≤ gi_slot g)%nat → 0 < gi_vram_mb g →
  rs_cpu spec ≤ sr_cpu_cores r → rs_memory_mb spec ≤ sr_memory_mb r → 0 < rs_gpu spec →
  ResourcePool.try_reserve spec (ResourcePool.new r) = Panic.
Proof.
  intros Hgs Hout Hv Hc Hm Hg. unfold ResourcePool.try_reserve. cbn.
  rewrite (proj2 (N.ltb_ge _ _)), (proj2 (N.ltb_ge _ _)) by done.
  unfold ResourcePool.try_find_gpus. rewrite !(proj2 (N.eqb_neq _ _)) by lia. cbn.
  rewrite Hgs, select_gpus_out_of_range; [done|lia|done|]. cbn. by rewrite length_fmap.
Qed.

(** ** Witnesses *)

Definition demo_machine : SystemResources :=
  mkSystemResources 16 32000
    [mkGpuInfo 0 "A" 16000 ""; mkGpuInfo 1 "B" 16000 ""; mkGpuInfo 2 "C" 8000 ""].
Definition demo_request : ResourceSpec := mkResourceSpec 4 8000 2 24000.
Definition demo_alloc : Allocation :=
  mkAllocation 4 8000 [mkGpuAllocation 0 16000; mkGpuAllocation 1 16000].
Definition demo_small : ResourceSpec := mkResourceSpec 1 512 1 0.
Definition demo_small_alloc : Allocation := mkAllocation 1 512 [mkGpuAllocation 2 8000].
Definition demo_pool1 : ResourcePool :=
  mkResourcePool demo_machine 12 24000 [0; 0; 8000] [false; false; false].
Definition demo_pool2 : ResourcePool :=
  mkResourcePool demo_machine 11 23488 [0; 0; 0] [false; false; false].

Example demo_reserve :
  ResourcePool.try_reserve demo_request (ResourcePool.new demo_machine)
  = Ret (Some demo_alloc, demo_pool1).
Proof. vm_compute. reflexivity. Qed.

Lemma demo_machine_wf : inventory_wf demo_machine.
Proof. apply (bool_decide_unpack _). vm_compute. exact I. Qed.

Lemma demo_steps :
  rtc pool_step (ResourcePool.new demo_machine, []) (demo_pool2, [demo_small_alloc; demo_alloc]).
Proof.
  eapply rtc_l; [apply (pool_step_reserve _ demo_pool1 demo_request); vm_compute; reflexivity|].
  eapply rtc_l; [apply (pool_step_reserve _ demo_pool2 demo_small); vm_compute; reflexivity|].
  apply rtc_refl.
Qed.

Lemma demo_accounts : accounts demo_pool2 [demo_small_alloc; demo_alloc].
Proof. apply (pool_reachable_inv _ _ _ demo_machine_wf demo_steps). Qed.

Lemma demo_accounts1 : accounts demo_pool1 [demo_alloc].
Proof.
  eapply accounts_try_reserve; [apply accounts_new, demo_machine_wf|apply demo_reserve].
Qed.

Lemma pool_conserves_resources_witness :
  rp_available_cpu demo_pool2 + Nsum al_cpu [demo_small_alloc; demo_alloc] = 16.
Proof.
  exact (proj1 (pool_conserves_resources _ _ _ demo_machine_wf demo_steps)).
Defined.

Lemma pool_gpus_exclusive_witness : ga_index (mkGpuAllocation 2 8000) ≠ ga_index (mkGpuAllocation 0 16000).
Proof.
  apply (pool_gpus_exclusive demo_machine demo_pool2 [demo_small_alloc; demo_alloc] 0 1
    demo_small_alloc demo_alloc demo_machine_wf demo_steps eq_refl eq_refl (λ H, O_S 0 H)).
  all: apply (bool_decide_unpack _); vm_compute; exact I.
Defined.

Lemma try_reserve_functional_witness :
  ∃ p', ResourcePool.try_reserve demo_request (ResourcePool.new demo_machine)
    = Ret (Some demo_alloc, p').
Proof.
  destruct (try_reserve_functional (ResourcePool.new demo_machine) demo_request
    (new_wf _ demo_machine_wf)) as [_ H].
  destruct H as (p' & H & _); [vm_compute; split_and!; done|]. exists p'. exact H.
Defined.

Lemma release_undoes_try_reserve_witness :
  ResourcePool.release demo_small_alloc demo_pool2 = Ret demo_pool1.
Proof.
  apply (release_undoes_try_reserve demo_pool1 demo_pool2 demo_small demo_small_alloc [demo_alloc]).
  - exact demo_accounts1.
  - vm_compute. reflexivity.
Defined.

Lemma can_admit_iff_try_reserve_witness :
  ResourcePool.can_admit demo_request demo_pool1 = Ret false ∧
  ResourcePool.can_admit demo_small demo_pool1 = Ret true.
Proof.
  split; [vm_compute; reflexivity|].
  apply (can_admit_iff_try_reserve demo_pool1 demo_small (acc_wf _ _ demo_accounts1)).
  exists demo_small_alloc, demo_pool2. vm_compute. reflexivity.
Defined.

Lemma could_fit_iff_idle_admission_witness :
  ResourcePool.could_fit demo_request demo_pool1 = true.
Proof.
  apply (could_fit_iff_idle_admission demo_pool1 demo_request demo_machine_wf).
  exists demo_alloc, demo_pool1. exact demo_reserve.
Defined.

Lemma book_release_exceeds_total_witness :
  ∃ p', ResourcePool.release (mkAllocation 8 512 [])
      (ResourcePool.book (mkAllocation 8 512 []) (ResourcePool.new (mkSystemResources 4 1024 [])))
    = Ret p' ∧ rp_available_cpu p' = 8 ∧ sr_cpu_cores (rp_total p') < rp_available_cpu p'.
Proof.
  apply (book_release_exceeds_total (mkSystemResources 4 1024 []) (mkAllocation 8 512 []));
    cbn; done.
Defined.

Lemma release_of_lost_card_panics_witness :
  ResourcePool.release (mkAllocation 1 512 [mkGpuAllocation 1 16000])
    (ResourcePool.book (mkAllocation 1 512 [mkGpuAllocation 1 16000])
      (ResourcePool.new (mkSystemResources 4 1024 [mkGpuInfo 0 "A" 16000 ""]))) = Panic.
Proof.
  apply (release_of_lost_card_panics (mkSystemResources 4 1024 [mkGpuInfo 0 "A" 16000 ""])
    _ (mkGpuAllocation 1 16000)); [done|cbn; apply Nat.le_refl].
Defined.

Lemma sparse_inventory_panics_witness :
  ResourcePool.try_reserve demo_small
    (ResourcePool.new (mkSystemResources 4 1024 [mkGpuInfo 1 "B" 16000 ""])) = Panic.
Proof.
  apply (sparse_inventory_panics _ (mkGpuInfo 1 "B" 16000 "") []); vm_compute;
    first [done|intros ?; discriminate|apply Nat.le_refl].
Defined.
