(* ===== verification/Placement.v ===== *)
(** * First-fit placement: [src/resource/placement.rs]

    [place] reserves every member of a job over the usable nodes in order, all
    or nothing.  The cluster is the list of pools, one per node; a held
    allocation is paired with the index of its node, and [cluster_accounts]
    lifts a pool's bookkeeping to all of them. *)

From S2P Require Import Prelude Spec Pool.

(** ** Operations *)

(** [pools.iter_mut().enumerate().filter(online).find_map(try_reserve)] *)
Fixpoint find_node (request : ResourceSpec) (node : nat) (online : list bool)
    (pools : list ResourcePool) : exec (option (nat * Allocation) * list ResourcePool) :=
  match pools with
  | [] => Ret (None, [])
  | pool :: rest =>
      up ← index online node;
      r ← (if (up : bool) then ResourcePool.try_reserve request pool else Ret (None, pool));
      match r with
      | (Some alloc, pool') => Ret (Some (node, alloc), pool' :: rest)
      | (None, pool') =>
          r' ← find_node request (S node) online rest;
          Ret (r'.1, pool' :: r'.2)
      end
  end.

(** [spec.gpu_options().iter().find_map(..)] *)
Fixpoint find_option (options : list ResourceSpec) (online : list bool)
    (pools : list ResourcePool) : exec (option (nat * Allocation) * list ResourcePool) :=
  match options with
  | [] => Ret (None, pools)
  | o :: options' =>
      r ← find_node o 0 online pools;
      match r with
      | (Some found, pools') => Ret (Some found, pools')
      | (None, pools') => find_option options' online pools'
      end
  end.

(** [pools[node].release(alloc)] for each pair *)
Definition release_all (placed : list (nat * Allocation)) (pools : list ResourcePool)
    : exec (list ResourcePool) :=
  foldM (λ pools na, index_mut pools na.1 (ResourcePool.release na.2)) pools placed.

Fixpoint place_members (pools : list ResourcePool) (online : list bool)
    (placed : list (nat * Allocation)) (members : list ResourceSpec)
    : exec (option (list (nat * Allocation)) * list ResourcePool) :=
  match members with
  | [] => Ret (Some placed, pools)
  | spec :: members' =>
      r ← find_option (gpu_options spec) online pools;
      match r with
      | (Some member, pools') => place_members pools' online (placed ++ [member]) members'
      | (None, pools') => pools'' ← release_all placed pools'; Ret (None, pools'')
      end
  end.

(** First-fit each member over the online nodes in order, all or nothing. *)
Definition place (pools : list ResourcePool) (online : list bool) (members : list ResourceSpec)
    : exec (option (list (nat * Allocation)) * list ResourcePool) :=
  place_members pools online [] members.

(** ** The cluster's books *)

Definition on_node (n : nat) (held : list (nat * Allocation)) : list Allocation :=
  (List.filter (λ na, na.1 =? n)%nat held).*2.

Record cluster_accounts (pools : list ResourcePool) (held : list (nat * Allocation)) : Prop := {
  ca_pool : ∀ n p, pools !! n = Some p → accounts p (on_node n held);
  ca_whole : ∀ n a, (n, a) ∈ held → ∃ p, pools !! n = Some p ∧ whole_alloc (rp_total p) a;
}.

Lemma ca_node pools held n a : cluster_accounts pools held → (n, a) ∈ held → (n < length pools)%nat.
Proof. intros Hacc Hin. destruct (ca_whole _ _ Hacc _ _ Hin) as (p & Hp & _). by eapply lookup_lt_Some. Qed.

Lemma cluster_accounts_new machines :
  Forall inventory_wf machines → cluster_accounts (ResourcePool.new <$> machines) [].
Proof.
  intros Hwf. split; [|by intros n x Hx%elem_of_nil].
  intros n p Hp. rewrite list_lookup_fmap in Hp. destruct (machines !! n) as [m|] eqn:Hm; [|done].
  injection Hp as <-. apply accounts_new. rewrite Forall_forall in Hwf. apply Hwf.
  by eapply list_elem_of_lookup_2.
Qed.

(** The same nodes, with the same cards blocked. *)
Definition same_machines (pools pools' : list ResourcePool) : Prop :=
  Forall2 (λ p p', rp_total p = rp_total p' ∧ rp_blocked p = rp_blocked p') pools pools'.

#[export] Instance same_machines_equiv : Equivalence same_machines.
Proof.
  unfold same_machines. split.
  - intros pools. apply Forall_Forall2_diag, Forall_forall. done.
  - intros p1 p2 H. apply Forall2_flip. eapply Forall2_impl; [exact H|]. by intros ?? [-> ->].
  - intros p1 p2 p3 H1. revert p3. induction H1 as [|x y l k [Ht Hb] _ IH]; intros p3 H2.
    + done.
    + apply Forall2_cons_inv_l in H2 as (z & k' & [Ht' Hb'] & H2 & ->).
      constructor; [by rewrite Ht, Hb|by apply IH].
Qed.

Lemma same_machines_insert pools n p p' :
  pools !! n = Some p → rp_total p = rp_total p' → rp_blocked p = rp_blocked p' →
  same_machines pools (<[n := p']> pools).
Proof.
  intros Hn Ht Hb. rewrite <-(list_insert_id pools n p Hn) at 1.
  apply Forall2_insert; [reflexivity|done].
Qed.

Lemma on_node_cons n m a held :
  on_node n ((m, a) :: held) = if decide (m = n) then a :: on_node n held else on_node n held.
Proof.
  unfold on_node. cbn. destruct (Nat.eqb_spec m n); [by rewrite decide_True|by rewrite decide_False].
Qed.

#[export] Instance on_node_perm n : Proper ((≡ₚ) ==> (≡ₚ)) (on_node n).
Proof.
  intros h1 h2 Hp. unfold on_node. apply fmap_Permutation.
  induction Hp as [|x l1 l2 _ IH|x y l|l1 l2 l3 _ IH1 _ IH2]; cbn; [done| | |by trans (List.filter (λ na, na.1 =? n)%nat l2)].
  - destruct (_ =? n)%nat; by rewrite IH.
  - destruct (x.1 =? n)%nat, (y.1 =? n)%nat; try done. constructor.
Qed.

#[export] Instance cluster_accounts_perm pools : Proper ((≡ₚ) ==> iff) (cluster_accounts pools).
Proof.
  assert (∀ h1 h2, h1 ≡ₚ h2 → cluster_accounts pools h1 → cluster_accounts pools h2) as Himp.
  { intros h1 h2 Hp [Hpool Hnode]. split.
    - intros n p Hn. rewrite <-Hp. by apply Hpool.
    - intros n a Hin. apply (Hnode n a). by rewrite Hp. }
  intros h1 h2 Hp. split; by apply Himp.
Qed.

Lemma cluster_wf pools held : cluster_accounts pools held → Forall pool_wf pools.
Proof. intros Hacc. apply Forall_lookup. intros n p Hn. eapply acc_wf, ca_pool, Hn. done. Qed.

Lemma ca_held pools held n p a :
  cluster_accounts pools held → pools !! n = Some p → (n, a) ∈ held →
  a ∈ on_node n held.
Proof.
  intros _ _ Hin. unfold on_node. apply list_elem_of_fmap. exists (n, a). split; [done|].
  apply list_elem_of_In, filter_In. split; [by apply list_elem_of_In|]. cbn. apply Nat.eqb_refl.
Qed.

(** A pool is determined by its machine, its blocked cards and what is held. *)
Lemma accounts_determine p q held :
  accounts p held → accounts q held →
  rp_total p = rp_total q → rp_blocked p = rp_blocked q → p = q.
Proof.
  intros [Hp Pc Pm Pv _] [Hq Qc Qm Qv _] Ht Hb.
  assert (rp_available_vram_mb p = rp_available_vram_mb q) as Hv.
  { apply list_ext_lookup; [by rewrite (wf_vram_length _ Hp), (wf_vram_length _ Hq), Ht|].
    intros i v Hi. apply lookup_lt_Some in Hi as Hlt. rewrite (wf_vram_length _ Hp) in Hlt.
    apply lookup_lt_is_Some_2 in Hlt as [g Hg].
    pose proof (inventory_lookup _ _ _ (wf_inventory _ Hp) Hg) as Hs.
    apply list_elem_of_lookup_2 in Hg. destruct (Pv g Hg) as (f1 & Hf1 & Hs1).
    rewrite Ht in Hg. destruct (Qv g Hg) as (f2 & Hf2 & Hs2). rewrite Hs in *. simplify_eq.
    rewrite Hf2. f_equal. lia. }
  destruct p, q; cbn in *. subst. f_equal; lia.
Qed.

Lemma cluster_accounts_determine pools pools' held held' :
  cluster_accounts pools held → cluster_accounts pools' held' →
  held ≡ₚ held' → same_machines pools pools' → pools = pools'.
Proof.
  intros Hp Hq Hh Hs. apply list_ext_lookup; [by eapply Forall2_length|].
  intros n p Hn. destruct (Forall2_lookup_l _ _ _ _ _ Hs Hn) as (q & Hq' & Ht & Hb).
  rewrite Hq'. f_equal. symmetry.
  eapply (accounts_determine p q (on_node n held)); [by apply Hp| |done|done].
  rewrite Hh. by apply Hq.
Qed.

Lemma cluster_update pools held held' n p p' :
  cluster_accounts pools held → pools !! n = Some p → accounts p' (on_node n held') →
  rp_total p' = rp_total p →
  (∀ m, m ≠ n → on_node m held' ≡ₚ on_node m held) →
  (∀ m a, (m, a) ∈ held' → (m, a) ∈ held ∨ m = n ∧ whole_alloc (rp_total p) a) →
  cluster_accounts (<[n := p']> pools) held'.
Proof.
  intros [Hpool Hwhole] Hn Hacc Ht Hother Hnew. split.
  - intros m q Hm. apply list_lookup_insert_Some in Hm as [(-> & <- & _)|[Hne Hm]]; [done|].
    rewrite Hother by done. by apply Hpool.
  - intros m a Hin. destruct (decide (m = n)) as [->|Hne].
    + exists p'. split; [by eapply list_lookup_insert_eq, lookup_lt_Some|]. rewrite Ht.
      destruct (Hnew _ _ Hin) as [Hold|[_ ?]]; [|done].
      destruct (Hwhole _ _ Hold) as (q & Hq & ?). by simplify_eq.
    + destruct (Hnew _ _ Hin) as [Hold|[? _]]; [|done]. destruct (Hwhole _ _ Hold) as (q & Hq & ?).
      exists q. by rewrite list_lookup_insert_ne.
Qed.

Lemma try_reserve_total_kept p p' o a :
  pool_wf p → ResourcePool.try_reserve o p = Ret (Some a, p') → rp_total p' = rp_total p.
Proof.
  intros Hwf Hr. destruct (try_reserve_Ret _ _ _ _ Hwf Hr) as [[_ Hadm]|(? & _)]; [|done].
  destruct (try_reserve_success p o Hwf Hadm) as (p1 & Hr1 & Ht & _).
  rewrite Hr1 in Hr. by injection Hr as _ ->.
Qed.

Lemma cluster_reserve pools held n p p' o a :
  cluster_accounts pools held → pools !! n = Some p →
  ResourcePool.try_reserve o p = Ret (Some a, p') →
  cluster_accounts (<[n := p']> pools) ((n, a) :: held) ∧ same_machines pools (<[n := p']> pools).
Proof.
  intros Hacc Hn Hr. pose proof (ca_pool _ _ Hacc _ _ Hn) as Hp. split.
  - eapply (cluster_update _ held); [done|done| | | |].
    + rewrite on_node_cons, decide_True by done. by eapply accounts_try_reserve.
    + eapply try_reserve_total_kept; [by apply (acc_wf _ _ Hp)|exact Hr].
    + intros m Hm. by rewrite on_node_cons, decide_False.
    + intros m b [[= -> ->]|Hin]%elem_of_cons; [right|by left]. split; [done|].
      destruct (try_reserve_Ret _ _ _ _ (acc_wf _ _ Hp) Hr) as [[Ha _]|(? & _)]; [|done].
      injection Ha as ->. apply reserved_whole.
  - destruct (try_reserve_Ret _ _ _ _ (acc_wf _ _ Hp) Hr) as [[_ Hadm]|(? & _)]; [|done].
    destruct (try_reserve_success p o (acc_wf _ _ Hp) Hadm) as (p1 & Hr1 & Ht & Hb & _).
    rewrite Hr1 in Hr. injection Hr as _ ->. by eapply same_machines_insert.
Qed.

Lemma cluster_release pools n a held :
  cluster_accounts pools ((n, a) :: held) →
  ∃ pools', index_mut pools n (ResourcePool.release a) = Ret pools' ∧
    cluster_accounts pools' held ∧ same_machines pools pools'.
Proof.
  intros Hacc. destruct (lookup_lt_is_Some_2 pools n) as [p Hn].
  { eapply (ca_node _ _ n a Hacc). by left. }
  pose proof (ca_pool _ _ Hacc _ _ Hn) as Hp. rewrite on_node_cons, decide_True in Hp by done.
  destruct (accounts_release _ _ _ Hp) as (p' & Hr & Hp' & Ht & Hb & _).
  exists (<[n := p']> pools). split_and!.
  - unfold index_mut, index. rewrite Hn. cbn. by rewrite Hr.
  - eapply cluster_update; [exact Hacc|done|done|done| |].
    + intros m Hm. by rewrite on_node_cons, decide_False.
    + intros m b Hin. left. by right.
  - by eapply same_machines_insert.
Qed.

Lemma cluster_release_all pools placed held :
  cluster_accounts pools (placed ++ held) →
  ∃ pools', release_all placed pools = Ret pools' ∧
    cluster_accounts pools' held ∧ same_machines pools pools'.
Proof.
  revert pools. induction placed as [|[n a] placed IH]; intros pools Hacc; [by exists pools|].
  destruct (cluster_release _ _ _ _ Hacc) as (p1 & H1 & Hacc1 & Hs1).
  destruct (IH _ Hacc1) as (p2 & H2 & Hacc2 & Hs2). exists p2. split_and!; [|done|].
  - unfold release_all in *. cbn. by rewrite H1.
  - by trans p1.
Qed.

(** ** What placement finds *)

(** No usable node of [pools], whose first node has index [node], takes [o]. *)
Definition refuses (o : ResourceSpec) (online : list bool) (node : nat)
    (pools : list ResourcePool) : Prop :=
  ∀ j q, pools !! j = Some q → online !! (node + j)%nat = Some true → ¬ admits q o.

Lemma refuses_cons o online node p pools :
  (online !! node = Some true → ¬ admits p o) → refuses o online (S node) pools →
  refuses o online node (p :: pools).
Proof.
  intros Hp Hrest [|j] q Hq Hon; cbn in *; simplify_eq.
  - rewrite Nat.add_0_r in Hon. by apply Hp.
  - eapply Hrest; [done|]. by rewrite Nat.add_succ_r in Hon.
Qed.

Lemma find_node_spec o node online pools :
  Forall pool_wf pools → (node + length pools ≤ length online)%nat →
  (∃ i p p', pools !! i = Some p ∧ online !! (node + i)%nat = Some true ∧ admits p o ∧
     ResourcePool.try_reserve o p = Ret (Some (reserved p o), p') ∧
     refuses o online node (take i pools) ∧
     find_node o node online pools = Ret (Some ((node + i)%nat, reserved p o), <[i := p']> pools)) ∨
  (refuses o online node pools ∧ find_node o node online pools = Ret (None, pools)).
Proof.
  revert node. induction pools as [|p pools IH]; intros node Hwf Hlen; [by right|].
  apply Forall_cons in Hwf as [Hp Hwf]. cbn in Hlen.
  destruct (lookup_lt_is_Some_2 online node) as [up Hup]; [lia|].
  cbn [find_node]. unfold index. rewrite Hup. cbn [mbind exec_bind].
  assert (∀ r, (up = true → ¬ admits p o) →
    r = Ret (None, p) →
    (∃ i q p', (p :: pools) !! i = Some q ∧ online !! (node + i)%nat = Some true ∧ admits q o ∧
       ResourcePool.try_reserve o q = Ret (Some (reserved q o), p') ∧
       refuses o online node (take i (p :: pools)) ∧
       (r ≫= λ r, match r with
         | (Some alloc, pool') => Ret (Some (node, alloc), pool' :: pools)
         | (None, pool') => r' ← find_node o (S node) online pools; Ret (r'.1, pool' :: r'.2)
         end) = Ret (Some ((node + i)%nat, reserved q o), <[i := p']> (p :: pools))) ∨
    (refuses o online node (p :: pools) ∧
      (r ≫= λ r, match r with
         | (Some alloc, pool') => Ret (Some (node, alloc), pool' :: pools)
         | (None, pool') => r' ← find_node o (S node) online pools; Ret (r'.1, pool' :: r'.2)
         end) = Ret (None, p :: pools))) as Hskip.
  { intros r Hna ->. cbn. destruct (IH (S node) Hwf ltac:(lia)) as
      [(i & q & p' & Hq & Hon & Hadm & Hr & Href & Hf)|[Href Hf]].
    - left. exists (S i), q, p'. rewrite Hf. cbn. rewrite Nat.add_succ_r. split_and!; [done..| |done].
      apply refuses_cons; [|done]. intros Hon'. apply Hna. congruence.
    - right. rewrite Hf. cbn. split; [|done]. apply refuses_cons; [|done].
      intros Hon'. apply Hna. congruence. }
  destruct up; [|by apply Hskip].
  destruct (decide (admits p o)) as [Ha|Ha]; [|by apply Hskip; [|apply try_reserve_failure]].
  destruct (try_reserve_success p o Hp Ha) as (p' & Hr & _). left. exists 0%nat, p, p'.
  rewrite Nat.add_0_r, Hr. cbn. split_and!; done.
Qed.

Lemma find_option_spec options online pools :
  Forall pool_wf pools → (length pools ≤ length online)%nat →
  (∃ l1 o l2 i p p', options = l1 ++ o :: l2 ∧ Forall (λ o', refuses o' online 0 pools) l1 ∧
     pools !! i = Some p ∧ online !! i = Some true ∧ admits p o ∧
     ResourcePool.try_reserve o p = Ret (Some (reserved p o), p') ∧
     refuses o online 0 (take i pools) ∧
     find_option options online pools = Ret (Some (i, reserved p o), <[i := p']> pools)) ∨
  (Forall (λ o', refuses o' online 0 pools) options ∧
   find_option options online pools = Ret (None, pools)).
Proof.
  intros Hwf Hlen. induction options as [|o options IH]; [by right|]. cbn.
  destruct (find_node_spec o 0 online pools Hwf Hlen) as
    [(i & p & p' & Hp & Hon & Hadm & Hr & Href & ->)|[Href ->]]; cbn.
  - left. exists [], o, options, i, p, p'. by split_and!.
  - destruct IH as [(l1 & o' & l2 & i & p & p' & -> & Hl1 & Hrest)|[Hall ->]].
    + left. exists (o :: l1), o', l2, i, p, p'. split_and!; [done|by constructor|apply Hrest..].
    + right. split; [by constructor|done].
Qed.

(** What a placed member satisfies, against the machines placement started on. *)
Definition placed_ok (online : list bool) (pools : list ResourcePool) (na : nat * Allocation) : Prop :=
  online !! na.1 = Some true ∧ ∃ p, pools !! na.1 = Some p ∧ whole_alloc (rp_total p) na.2.

Lemma placed_ok_same online pools pools' na :
  same_machines pools' pools → placed_ok online pools na → placed_ok online pools' na.
Proof.
  intros Hs (Hon & p & Hp & Hw). split; [done|].
  destruct (Forall2_lookup_r _ _ _ _ _ Hs Hp) as (q & Hq & Ht & _). exists q. by rewrite Ht.
Qed.

Lemma place_members_inv pools0 pools online placed members held :
  cluster_accounts pools (placed ++ held) → same_machines pools0 pools →
  (length pools ≤ length online)%nat → Forall (placed_ok online pools0) placed →
  ∃ r pools', place_members pools online placed members = Ret (r, pools') ∧
    same_machines pools0 pools' ∧
    match r with
    | Some placed' => cluster_accounts pools' (placed' ++ held) ∧
        length placed' = (length placed + length members)%nat ∧
        Forall (placed_ok online pools0) placed'
    | None => cluster_accounts pools' held
    end.
Proof.
  revert pools placed. induction members as [|spec members IH];
    intros pools placed Hacc Hsame Hlen Hok; cbn.
  { eexists _, _. split; [done|]. split_and!; [done|done|lia|done]. }
  pose proof (cluster_wf _ _ Hacc) as Hwf.
  destruct (find_option_spec (gpu_options spec) online pools Hwf Hlen) as
    [(l1 & o & l2 & i & p & p' & _ & _ & Hp & Hon & _ & Hr & _ & ->)|[_ ->]]; cbn.
  - destruct (cluster_reserve _ _ _ _ _ _ _ Hacc Hp Hr) as [Hacc' Hs'].
    destruct (IH (<[i := p']> pools) (placed ++ [(i, reserved p o)])) as
      (r & pools' & Hpl & Hsame' & Hres).
    + rewrite <-app_assoc. cbn. by rewrite <-Permutation_middle.
    + by trans pools.
    + by rewrite length_insert.
    + apply Forall_app. split; [done|]. apply Forall_singleton.
      apply (placed_ok_same _ _ _ _ Hsame). split; [done|]. exists p. cbn.
      split; [done|apply reserved_whole].
    + exists r, pools'. split_and!; [done|done|]. destruct r; [|done].
      rewrite length_app in Hres. cbn in *. destruct Hres as (? & -> & ?). split_and!; [done|lia|done].
  - destruct (cluster_release_all _ _ _ Hacc) as (pools' & -> & Hacc' & Hs'). cbn.
    eexists _, _. split; [done|]. split; [by trans pools|done].
Qed.

Lemma place_inv pools online members held :
  cluster_accounts pools held → (length pools ≤ length online)%nat →
  ∃ r pools', place pools online members = Ret (r, pools') ∧ same_machines pools pools' ∧
    match r with
    | Some placed => cluster_accounts pools' (placed ++ held) ∧
        length placed = length members ∧ Forall (placed_ok online pools) placed
    | None => pools' = pools
    end.
Proof.
  intros Hacc Hlen. destruct (place_members_inv pools pools online [] members held) as
    (r & pools' & Hpl & Hsame & Hres); [done..|].
  exists r, pools'. split_and!; [done..|]. destruct r; [done|].
  by eapply cluster_accounts_determine.
Qed.

(** ** Properties *)

(** C21: Placement is all or nothing: it never panics on a cluster whose books
    balance; a success reserves one online node per member and the books
    balance with those reservations added; a miss leaves every pool exactly as
    it was, whatever was reserved for earlier members on the way. *)
Theorem place_all_or_nothing (pools : list ResourcePool) (online : list bool)
    (members : list ResourceSpec) (held : list (nat * Allocation)) :
  cluster_accounts pools held → (length pools ≤ length online)%nat →
  ∃ r pools', place pools online members = Ret (r, pools') ∧
    match r with
    | Some placed => cluster_accounts pools' (placed ++ held) ∧
        length placed = length members ∧
        Forall (λ na, online !! na.1 = Some true) placed
    | None => pools' = pools
    end.
Proof.
  intros Hacc Hlen. destruct (place_inv _ _ members _ Hacc Hlen) as (r & pools' & Hpl & _ & Hres).
  exists r, pools'. split; [done|]. destruct r as [placed|]; [|done].
  destruct Hres as (? & ? & Hok). split_and!; [done..|].
  eapply Forall_impl; [exact Hok|]. by intros na [].
Qed.

(** C22: First fit, fewest cards: a single member goes to the first usable
    node that admits the first of its card counts any usable node admits; it
    waits only when no usable node admits any of them. *)
Theorem place_first_fit (pools : list ResourcePool) (online : list bool) (spec : ResourceSpec) :
  Forall pool_wf pools → (length pools ≤ length online)%nat →
  (∃ fewer o more node p pools',
     gpu_options spec = fewer ++ o :: more ∧
     place pools online [spec] = Ret (Some [(node, reserved p o)], pools') ∧
     pools !! node = Some p ∧ online !! node = Some true ∧ admits p o ∧
     (∀ j q, (j < node)%nat → pools !! j = Some q → online !! j = Some true → ¬ admits q o) ∧
     (∀ o' j q, o' ∈ fewer → pools !! j = Some q → online !! j = Some true → ¬ admits q o')) ∨
  (place pools online [spec] = Ret (None, pools) ∧
   ∀ o j q, o ∈ gpu_options spec → pools !! j = Some q → online !! j = Some true → ¬ admits q o).
Proof.
  intros Hwf Hlen. unfold place. cbn [place_members].
  destruct (find_option_spec (gpu_options spec) online pools Hwf Hlen) as
    [(l1 & o & l2 & i & p & p' & Ho & Hl1 & Hp & Hon & Hadm & _ & Href & ->)|[Hall ->]]; cbn.
  - left. exists l1, o, l2, i, p, (<[i := p']> pools). split_and!; [done..| |].
    + intros j q Hj Hq. apply (Href j q). by rewrite lookup_take_lt.
    + rewrite Forall_forall in Hl1. intros o' j q Ho'. by apply Hl1.
  - right. split; [done|]. rewrite Forall_forall in Hall. intros o j q Ho. by apply Hall.
Qed.

(** ** Witnesses *)

Definition demo_node (cpu : N) (vram : list N) : ResourcePool :=
  ResourcePool.new (mkSystemResources cpu 8000
    (imap (λ i v, mkGpuInfo (N.of_nat i) "fake" v "") vram)).

Definition demo_cluster : list ResourcePool := [demo_node 8 [24000; 24000]; demo_node 8 [80000]].
Definition demo_serve : ResourceSpec := mkResourceSpec 1 512 0 40000.

Lemma demo_cluster_accounts : cluster_accounts demo_cluster [].
Proof.
  split; [|by intros n a ?%elem_of_nil].
  intros [|[|n]] p Hn; cbn in Hn; simplify_eq; apply accounts_new, (bool_decide_unpack _);
    vm_compute; exact I.
Qed.

(** One card on node 1 beats two on node 0. *)
Example demo_fewest_cards :
  match place demo_cluster [true; true] [demo_serve] with
  | Ret (Some [(node, a)], _) => (node, length (al_gpus a)) = (1%nat, 1%nat)
  | _ => False
  end.
Proof. vm_compute. reflexivity. Qed.

Lemma place_all_or_nothing_witness :
  ∃ r pools', place demo_cluster [true; true] [demo_serve; demo_serve; demo_serve] = Ret (r, pools') ∧
    match r with Some _ => False | None => pools' = demo_cluster end.
Proof.
  destruct (place_all_or_nothing demo_cluster [true; true] [demo_serve; demo_serve; demo_serve] []
    demo_cluster_accounts (le_n 2)) as (r & pools' & H & Hr).
  exists r, pools'. split; [exact H|]. destruct r; [|exact Hr].
  vm_compute in H. discriminate H.
Defined.

Lemma place_first_fit_witness :
  (∃ fewer o more node p pools', gpu_options demo_serve = fewer ++ o :: more ∧
     place demo_cluster [true; true] [demo_serve] = Ret (Some [(node, reserved p o)], pools')) ∨
  place demo_cluster [true; true] [demo_serve] = Ret (None, demo_cluster).
Proof.
  destruct (place_first_fit demo_cluster [true; true] demo_serve
    (cluster_wf _ _ demo_cluster_accounts) (le_n 2)) as [(a & b & c & d & e & f & H1 & H2 & _)|[H _]].
  - left. exists a, b, c, d, e, f. split; [exact H1|exact H2].
  - right. exact H.
Defined.
