(* ===== verification/Handle.v ===== *)
(** * Job handles and executor results: [src/executor/mod.rs]

    The data an executor hands out and answers with.  The trait itself is in
    [Executor.v], after the job instances its operations take. *)

From S2P Require Import Prelude.

(** A path, as its text. *)
Definition PathBuf : Type := string.

(** What a concrete executor needs to operate a job later. *)
Inductive Backend :=
  | Backend_Process (scope : option string) (exit_file : option PathBuf)
  | Backend_Container (name : string)
  | Backend_Remote (run_id job_id : string).

Record JobHandle := mkJobHandle {
  jh_host_pid : N;  (* u32; 0 when unknown *)
  jh_backend : Backend;
}.

#[export] Instance Backend_eq_dec : EqDecision Backend.
Proof. solve_decision. Defined.
#[export] Instance JobHandle_eq_dec : EqDecision JobHandle.
Proof. solve_decision. Defined.

Module JobHandle.

Definition process (host_pid : N) (scope : option string) (exit_file : option PathBuf) : JobHandle :=
  mkJobHandle host_pid (Backend_Process scope exit_file).

Definition exit_file (h : JobHandle) : option PathBuf :=
  match jh_backend h with Backend_Process _ exit_file => exit_file | _ => None end.

Definition scope (h : JobHandle) : option string :=
  match jh_backend h with Backend_Process scope _ => scope | _ => None end.

Definition remote (host_pid : N) (run_id job_id : string) : JobHandle :=
  mkJobHandle host_pid (Backend_Remote run_id job_id).

End JobHandle.

(** Result of a non-blocking process poll. *)
Inductive PollResult :=
  | PollRunning
  | PollExited (exit_code : Z).  (* i32 *)

#[export] Instance PollResult_eq_dec : EqDecision PollResult.
Proof. solve_decision. Defined.

(** Errors of executor operations; an [io::Error] is its message. *)
Inductive ExecutorError :=
  | SpawnFailed (error : string)
  | WaitFailed (error : string)
  | KillFailed (error : string)
  | LogSetupFailed (error : string)
  | LogReadFailed (error : string)
  | Unreachable (reason : string)
  | Remote (message : string)
  | Rejected (reason : string).

#[export] Instance ExecutorError_eq_dec : EqDecision ExecutorError.
Proof. solve_decision. Defined.

(** The [#[error("..")]] texts. *)
Definition ExecutorError_to_string (e : ExecutorError) : string :=
  match e with
  | SpawnFailed m => "spawn failed: " +:+ m
  | WaitFailed m => "wait failed: " +:+ m
  | KillFailed m => "kill failed: " +:+ m
  | LogSetupFailed m => "log setup failed: " +:+ m
  | LogReadFailed m => "log read failed: " +:+ m
  | Unreachable m => "node unreachable: " +:+ m
  | Remote m => "node error: " +:+ m
  | Rejected m => "rejected: " +:+ m
  end.
