(* ===== verification/Model.v ===== *)
(** * Jobs and runs: [src/workflow/model.rs], [src/event.rs]

    The job state machine's states with their textual and numeric codes, the
    run state derived from them, the runtime record of a job and of a run, and
    the event a transition emits. *)

From S2P Require Import Prelude Spec Pool Handle.

(** ** Run and job states *)

Module RunState.

Inductive t := Pending | Running | Succeeded | Failed | Cancelled.

#[global] Instance eq_dec : EqDecision t.
Proof. solve_decision. Defined.

Definition as_str (s : t) : string :=
  match s with
  | Pending => "Pending"
  | Running => "Running"
  | Succeeded => "Succeeded"
  | Failed => "Failed"
  | Cancelled => "Cancelled"
  end.

Definition from_str (s : string) : option t :=
  if (s =? "Pending")%string then Some Pending else
  if (s =? "Running")%string then Some Running else
  if (s =? "Succeeded")%string then Some Succeeded else
  if (s =? "Failed")%string then Some Failed else
  if (s =? "Cancelled")%string then Some Cancelled else
  None.

(** Through any serializer and deserializer: the canonical string. *)
Definition serialize {S} (serialize_str : string → S) (s : t) : S := serialize_str (as_str s).
Definition deserialize {E} (custom : string → E) (text : result string E) : result t E :=
  match text with
  | Ok text =>
      match from_str text with Some s => Ok s | None => Err (custom ("unknown RunState: " +:+ text)) end
  | Err error => Err error
  end.

End RunState.

Module JobState.

Inductive t :=
  | Pending | Queued | Running | Succeeded | Failed | Skipped | Cancelled | TimedOut | Interrupted.

#[global] Instance eq_dec : EqDecision t.
Proof. solve_decision. Defined.

(** No further transitions are possible. *)
Definition is_terminal (s : t) : bool :=
  match s with
  | Succeeded | Failed | Skipped | Cancelled | TimedOut | Interrupted => true
  | Pending | Queued | Running => false
  end.

Definition as_str (s : t) : string :=
  match s with
  | Pending => "Pending"
  | Queued => "Queued"
  | Running => "Running"
  | Succeeded => "Succeeded"
  | Failed => "Failed"
  | Skipped => "Skipped"
  | Cancelled => "Cancelled"
  | TimedOut => "TimedOut"
  | Interrupted => "Interrupted"
  end.

Definition from_str (s : string) : option t :=
  if (s =? "Pending")%string then Some Pending else
  if (s =? "Queued")%string then Some Queued else
  if (s =? "Running")%string then Some Running else
  if (s =? "Succeeded")%string then Some Succeeded else
  if (s =? "Failed")%string then Some Failed else
  if (s =? "Skipped")%string then Some Skipped else
  if (s =? "Cancelled")%string then Some Cancelled else
  if (s =? "TimedOut")%string then Some TimedOut else
  if (s =? "Interrupted")%string then Some Interrupted else
  None.

(** Compact code carried by a wire event. *)
Definition to_code (s : t) : N :=
  match s with
  | Pending => 0
  | Queued => 1
  | Running => 2
  | Succeeded => 3
  | Failed => 4
  | Skipped => 5
  | Cancelled => 6
  | TimedOut => 7
  | Interrupted => 8
  end.

Definition from_code (code : N) : option t :=
  match code with
  | 0 => Some Pending
  | 1 => Some Queued
  | 2 => Some Running
  | 3 => Some Succeeded
  | 4 => Some Failed
  | 5 => Some Skipped
  | 6 => Some Cancelled
  | 7 => Some TimedOut
  | 8 => Some Interrupted
  | _ => None
  end.

(** Through any serializer and deserializer: the canonical string. *)
Definition serialize {S} (serialize_str : string → S) (s : t) : S := serialize_str (as_str s).
Definition deserialize {E} (custom : string → E) (text : result string E) : result t E :=
  match text with
  | Ok text =>
      match from_str text with Some s => Ok s | None => Err (custom ("unknown JobState: " +:+ text)) end
  | Err error => Err error
  end.

End JobState.

(** The four [matches!] of [derive_run_state]. *)
Definition is_failing (s : JobState.t) : bool :=
  match s with JobState.Failed | JobState.TimedOut | JobState.Interrupted => true | _ => false end.
Definition is_cancelled (s : JobState.t) : bool :=
  match s with JobState.Cancelled => true | _ => false end.
Definition is_active (s : JobState.t) : bool :=
  match s with JobState.Running | JobState.Queued => true | _ => false end.
Definition is_fine (s : JobState.t) : bool :=
  match s with JobState.Succeeded | JobState.Skipped => true | _ => false end.

(** Derive a run's state from its jobs' states; the order of the checks is
    load-bearing. *)
Definition derive_run_state (states : list JobState.t) : RunState.t :=
  if existsb is_failing states then RunState.Failed else
  if existsb is_cancelled states then RunState.Cancelled else
  if existsb is_active states then RunState.Running else
  if negb (match states with [] => true | _ => false end) && forallb is_fine states
  then RunState.Succeeded else
  RunState.Pending.

(** ** Jobs and runs *)

(** A point in time, in nanoseconds since the epoch. *)
Definition DateTime : Type := Z.

(** One node's part of a job. *)
Record Execution := mkExecution {
  ex_node : nat;                (* index into the daemon's nodes *)
  ex_allocation : Allocation;   (* reserved on that node's pool *)
  ex_handle : option JobHandle; (* set at launch *)
}.

Record JobInstance := mkJobInstance {
  ji_job_id : string;
  ji_job_seq : N;
  ji_spec : JobSpec;
  ji_state : JobState.t;
  ji_executions : list Execution; (* set when Running, taken on release *)
  ji_cancelling : bool;
  ji_started_at : option DateTime;
  ji_ended_at : option DateTime;
  ji_exit_code : option Z;
  ji_log_path : option PathBuf;
  ji_rejected : list (nat * string); (* nodes that turned the job down, and why *)
  ji_reason : option string;
}.

Module JobInstance.

Definition new (spec : JobSpec) (job_seq : N) : JobInstance := {|
  ji_job_id := js_id spec;
  ji_job_seq := job_seq;
  ji_spec := spec;
  ji_state := JobState.Pending;
  ji_executions := [];
  ji_cancelling := false;
  ji_started_at := None;
  ji_ended_at := None;
  ji_exit_code := None;
  ji_log_path := None;
  ji_rejected := [];
  ji_reason := None;
|}.

Definition rejected_by (node : nat) (j : JobInstance) : bool :=
  existsb (λ r, Nat.eqb r.1 node) (ji_rejected j).

(** Field updates, [job.field = value]. *)
Definition set_state (s : JobState.t) (j : JobInstance) : JobInstance :=
  mkJobInstance (ji_job_id j) (ji_job_seq j) (ji_spec j) s (ji_executions j) (ji_cancelling j)
    (ji_started_at j) (ji_ended_at j) (ji_exit_code j) (ji_log_path j) (ji_rejected j) (ji_reason j).
Definition set_executions (e : list Execution) (j : JobInstance) : JobInstance :=
  mkJobInstance (ji_job_id j) (ji_job_seq j) (ji_spec j) (ji_state j) e (ji_cancelling j)
    (ji_started_at j) (ji_ended_at j) (ji_exit_code j) (ji_log_path j) (ji_rejected j) (ji_reason j).
Definition set_cancelling (c : bool) (j : JobInstance) : JobInstance :=
  mkJobInstance (ji_job_id j) (ji_job_seq j) (ji_spec j) (ji_state j) (ji_executions j) c
    (ji_started_at j) (ji_ended_at j) (ji_exit_code j) (ji_log_path j) (ji_rejected j) (ji_reason j).
Definition set_started_at (t : option DateTime) (j : JobInstance) : JobInstance :=
  mkJobInstance (ji_job_id j) (ji_job_seq j) (ji_spec j) (ji_state j) (ji_executions j)
    (ji_cancelling j) t (ji_ended_at j) (ji_exit_code j) (ji_log_path j) (ji_rejected j) (ji_reason j).
Definition set_ended_at (t : option DateTime) (j : JobInstance) : JobInstance :=
  mkJobInstance (ji_job_id j) (ji_job_seq j) (ji_spec j) (ji_state j) (ji_executions j)
    (ji_cancelling j) (ji_started_at j) t (ji_exit_code j) (ji_log_path j) (ji_rejected j)
    (ji_reason j).
Definition set_exit_code (c : option Z) (j : JobInstance) : JobInstance :=
  mkJobInstance (ji_job_id j) (ji_job_seq j) (ji_spec j) (ji_state j) (ji_executions j)
    (ji_cancelling j) (ji_started_at j) (ji_ended_at j) c (ji_log_path j) (ji_rejected j)
    (ji_reason j).
Definition set_log_path (p : option PathBuf) (j : JobInstance) : JobInstance :=
  mkJobInstance (ji_job_id j) (ji_job_seq j) (ji_spec j) (ji_state j) (ji_executions j)
    (ji_cancelling j) (ji_started_at j) (ji_ended_at j) (ji_exit_code j) p (ji_rejected j)
    (ji_reason j).
Definition set_rejected (r : list (nat * string)) (j : JobInstance) : JobInstance :=
  mkJobInstance (ji_job_id j) (ji_job_seq j) (ji_spec j) (ji_state j) (ji_executions j)
    (ji_cancelling j) (ji_started_at j) (ji_ended_at j) (ji_exit_code j) (ji_log_path j) r
    (ji_reason j).
Definition set_reason (r : option string) (j : JobInstance) : JobInstance :=
  mkJobInstance (ji_job_id j) (ji_job_seq j) (ji_spec j) (ji_state j) (ji_executions j)
    (ji_cancelling j) (ji_started_at j) (ji_ended_at j) (ji_exit_code j) (ji_log_path j)
    (ji_rejected j) r.

End JobInstance.

Record WorkflowRun := mkWorkflowRun {
  wr_run_id : string;
  wr_run_seq : N;
  wr_workflow_name : string;
  wr_spec : WorkflowSpec;
  wr_jobs : gmap string JobInstance;  (* keyed by job_id *)
  wr_created_at : DateTime;
}.

Module WorkflowRun.

(** [spec.jobs.iter().enumerate().map(..).collect()]: a later job with the
    same id would replace an earlier one. *)
Definition jobs_of (jobs : list JobSpec) (job_seq_start : N) : gmap string JobInstance :=
  foldl (λ m kj, <[kj.1 := kj.2]> m) ∅
    (imap (λ i job_spec, (js_id job_spec, JobInstance.new job_spec (job_seq_start + N.of_nat i)))
       jobs).

Definition new (run_id : string) (run_seq : N) (spec : WorkflowSpec) (job_seq_start : N)
    (now : DateTime) : WorkflowRun := {|
  wr_run_id := run_id;
  wr_run_seq := run_seq;
  wr_workflow_name := ws_name spec;
  wr_spec := spec;
  wr_jobs := jobs_of (ws_jobs spec) job_seq_start;
  wr_created_at := now;
|}.

Definition set_jobs (jobs : gmap string JobInstance) (r : WorkflowRun) : WorkflowRun :=
  mkWorkflowRun (wr_run_id r) (wr_run_seq r) (wr_workflow_name r) (wr_spec r) jobs
    (wr_created_at r).

Definition set_created_at (t : DateTime) (r : WorkflowRun) : WorkflowRun :=
  mkWorkflowRun (wr_run_id r) (wr_run_seq r) (wr_workflow_name r) (wr_spec r) (wr_jobs r) t.

Definition status `{HashOrder} (r : WorkflowRun) : RunState.t :=
  derive_run_state (ji_state <$> hm_values (wr_jobs r)).

End WorkflowRun.

(** ** Events *)

Record JobEvent := mkJobEvent {
  je_run_seq : N;
  je_job_seq : N;
  je_state_code : N;
  je_emitted_at : N;
}.

Module JobEvent.

Definition WORDS : nat := 4.

Definition new (run_seq job_seq : N) (new_state : JobState.t) (emitted_at : N) : JobEvent :=
  mkJobEvent run_seq job_seq (JobState.to_code new_state) emitted_at.

(** [from_code(..).expect(..)] *)
Definition state (e : JobEvent) : exec JobState.t :=
  match JobState.from_code (je_state_code e) with Some s => Ret s | None => Panic end.

End JobEvent.

(** [monotonic_raw_ns]: what [clock_gettime] wrote, in nanoseconds. *)
Definition monotonic_raw_ns (tv_sec tv_nsec : N) : exec N :=
  if decide (tv_sec * 1000000000 + tv_nsec ≤ u64_max) then Ret (tv_sec * 1000000000 + tv_nsec) else Panic.

(** ** Properties of the codes *)

(** The textual and numeric codes of the states round trip, and nothing
    else decodes: a stored or broadcast state is read back as itself, and a
    text or number no state writes is refused. *)
Theorem state_codes_roundtrip :
  (∀ s : JobState.t, JobState.from_str (JobState.as_str s) = Some s) ∧
  (∀ (s : JobState.t) (text : string),
     JobState.from_str text = Some s → text = JobState.as_str s) ∧
  (∀ s : JobState.t, JobState.from_code (JobState.to_code s) = Some s) ∧
  (∀ (s : JobState.t) (code : N),
     JobState.from_code code = Some s → code = JobState.to_code s) ∧
  (∀ s : RunState.t, RunState.from_str (RunState.as_str s) = Some s) ∧
  (∀ (s : RunState.t) (text : string),
     RunState.from_str text = Some s → text = RunState.as_str s).
Proof.
  split_and!.
  - by intros [].
  - intros s text. unfold JobState.from_str.
    string_cases; by intros [= <-].
  - by intros [].
  - intros s code. unfold JobState.from_code.
    destruct code as [|p]; [by intros [= <-]|].
    do 4 try destruct p as [p|p|]; intros H; cbn in H; try discriminate H; by injection H as <-.
  - by intros [].
  - intros s text. unfold RunState.from_str.
    string_cases; by intros [= <-].
Qed.

(** What a format wrote for a state, and reads back as the string written, is
    that state. *)
Lemma states_deserialize {E} (custom : string → E) :
  (∀ s, RunState.deserialize custom (RunState.serialize Ok s) = Ok s) ∧
  (∀ s, JobState.deserialize custom (JobState.serialize Ok s) = Ok s).
Proof. by split; intros []. Qed.

(** Later readings of the clock are later times, for five centuries. *)
Lemma monotonic_raw_ns_mono s n s' n' :
  n < 1000000000 → n' < 1000000000 → s < s' ∨ s = s' ∧ n ≤ n' → s' < 2 ^ 34 →
  ∃ t t', monotonic_raw_ns s n = Ret t ∧ monotonic_raw_ns s' n' = Ret t' ∧ t ≤ t'.
Proof.
  intros Hn Hn' Hle Hs. unfold monotonic_raw_ns, u64_max. rewrite !decide_True by lia.
  eexists _, _. split; [done|]. split; [done|]. lia.
Qed.

Lemma JobState_to_code_inj s s' : JobState.to_code s = JobState.to_code s' → s = s'.
Proof. by destruct s, s'. Qed.

(** Every event the scheduler builds decodes to the state it was built from. *)
Lemma JobEvent_state_new run_seq job_seq s t :
  JobEvent.state (JobEvent.new run_seq job_seq s t) = Ret s.
Proof. by destruct s. Qed.

(** ** Properties of the derived run state *)

Lemma existsb_elem {A} (f : A → bool) (l : list A) :
  existsb f l = true ↔ ∃ x, x ∈ l ∧ f x = true.
Proof.
  rewrite existsb_exists. split; intros (x & Hx & Hf); exists x; split; try done;
    by apply list_elem_of_In.
Qed.

Lemma existsb_perm {A} (f : A → bool) (l1 l2 : list A) : l1 ≡ₚ l2 → existsb f l1 = existsb f l2.
Proof.
  intros Hp. apply eq_true_iff_eq. rewrite !existsb_elem.
  split; intros (x & Hx & Hf); exists x; by rewrite ?Hp, <-?Hp in *.
Qed.

Lemma forallb_perm {A} (f : A → bool) (l1 l2 : list A) : l1 ≡ₚ l2 → forallb f l1 = forallb f l2.
Proof.
  intros Hp. apply eq_true_iff_eq. rewrite !forallb_forall. setoid_rewrite <-list_elem_of_In.
  split; intros H x Hx; apply H; by rewrite ?Hp, <-?Hp in *.
Qed.

#[export] Instance derive_run_state_perm : Proper ((≡ₚ) ==> (=)) derive_run_state.
Proof.
  intros l1 l2 Hp. unfold derive_run_state.
  do 3 rewrite (existsb_perm _ _ _ Hp). rewrite (forallb_perm _ _ _ Hp).
  destruct l1, l2; [done|by apply Permutation_nil_cons in Hp|
    by symmetry in Hp; apply Permutation_nil_cons in Hp|done].
Qed.

(** The states that decide a run's state, as the code groups them. *)
Definition failing (s : JobState.t) : Prop :=
  s = JobState.Failed ∨ s = JobState.TimedOut ∨ s = JobState.Interrupted.
Definition active (s : JobState.t) : Prop := s = JobState.Running ∨ s = JobState.Queued.
Definition fine (s : JobState.t) : Prop := s = JobState.Succeeded ∨ s = JobState.Skipped.

Lemma existsb_spec {A} (f : A → bool) (P : A → Prop) (l : list A) :
  (∀ x, f x = true ↔ P x) → Bool.reflect (∃ x, x ∈ l ∧ P x) (existsb f l).
Proof.
  intros Hf. apply Bool.iff_reflect. rewrite existsb_elem.
  split; intros (x & Hx & Hp); exists x; split; try done; by apply Hf.
Qed.

Lemma not_failing_fine s : failing s ∨ s = JobState.Cancelled ∨ active s → ¬ fine s.
Proof. unfold failing, active, fine. destruct s; naive_solver. Qed.

Lemma is_failing_spec s : is_failing s = true ↔ failing s.
Proof. unfold failing. destruct s; cbn; intuition congruence. Qed.
Lemma is_cancelled_spec s : is_cancelled s = true ↔ s = JobState.Cancelled.
Proof. destruct s; cbn; intuition congruence. Qed.
Lemma is_active_spec s : is_active s = true ↔ active s.
Proof. unfold active. destruct s; cbn; intuition congruence. Qed.
Lemma is_fine_spec s : is_fine s = true ↔ fine s.
Proof. unfold fine. destruct s; cbn; intuition congruence. Qed.

Lemma derive_run_state_cases states :
  match derive_run_state states with
  | RunState.Failed => ∃ s, s ∈ states ∧ failing s
  | RunState.Cancelled => (∀ s, s ∈ states → ¬ failing s) ∧ JobState.Cancelled ∈ states
  | RunState.Running =>
      (∀ s, s ∈ states → ¬ failing s ∧ s ≠ JobState.Cancelled) ∧ ∃ s, s ∈ states ∧ active s
  | RunState.Succeeded => states ≠ [] ∧ ∀ s, s ∈ states → fine s
  | RunState.Pending =>
      (∀ s, s ∈ states → ¬ failing s ∧ s ≠ JobState.Cancelled ∧ ¬ active s) ∧
      ¬ (states ≠ [] ∧ ∀ s, s ∈ states → fine s)
  end.
Proof.
  unfold derive_run_state.
  destruct (existsb_spec _ _ states is_failing_spec) as [?|Hf]; [done|].
  destruct (existsb_spec _ _ states is_cancelled_spec) as [(? & ? & ->)|Hc]; [naive_solver|].
  destruct (existsb_spec _ _ states is_active_spec) as [Ha|Ha]; [naive_solver|].
  destruct (negb _ && _) eqn:E.
  - apply andb_true_iff in E as [Hne Hall]. split; [by destruct states|].
    rewrite forallb_forall in Hall. intros s Hs. by apply is_fine_spec, Hall, list_elem_of_In.
  - split.
    + intros s Hs. split_and!; intros ?; [apply Hf|apply Hc|apply Ha]; eauto.
    + intros [Hne Hall]. destruct states as [|s l]; [done|]. cbn [negb andb] in E.
      apply not_true_iff_false in E. apply E. apply forallb_forall.
      intros s' Hs'. by apply is_fine_spec, Hall, list_elem_of_In.
Qed.

(** The precedence of a run's state: Failed when any job failed, timed out
    or was interrupted; otherwise Cancelled when any job was cancelled;
    otherwise Running when any job is queued or running; otherwise Succeeded
    when there are jobs and all succeeded or were skipped; otherwise Pending.
    The order in which the jobs are listed does not matter. *)
Theorem derive_run_state_precedence (states states' : list JobState.t) :
  (derive_run_state states = RunState.Failed ↔ ∃ s, s ∈ states ∧ failing s) ∧
  (derive_run_state states = RunState.Cancelled ↔
     (∀ s, s ∈ states → ¬ failing s) ∧ JobState.Cancelled ∈ states) ∧
  (derive_run_state states = RunState.Running ↔
     (∀ s, s ∈ states → ¬ failing s ∧ s ≠ JobState.Cancelled) ∧ ∃ s, s ∈ states ∧ active s) ∧
  (derive_run_state states = RunState.Succeeded ↔ states ≠ [] ∧ ∀ s, s ∈ states → fine s) ∧
  (states ≡ₚ states' → derive_run_state states = derive_run_state states').
Proof.
  pose proof (derive_run_state_cases states) as H.
  pose proof not_failing_fine as Hnf.
  split_and!; [| | | |by intros ->]; destruct (derive_run_state states); split; try done;
    try (intros; exfalso; by naive_solver).
Qed.

(** A run of which some jobs succeeded and the rest still wait for their
    dependencies is reported Pending, the state documented as "no jobs
    started": nothing in the precedence looks at finished jobs once one is
    pending. *)
Theorem partly_done_run_is_pending (succeeded pending : nat) :
  (0 < pending)%nat →
  derive_run_state (replicate succeeded JobState.Succeeded ++ replicate pending JobState.Pending)
  = RunState.Pending.
Proof.
  intros Hp. set (l := _ ++ _).
  assert (∀ s, s ∈ l → s = JobState.Succeeded ∨ s = JobState.Pending) as Hl.
  { intros s [Hs|Hs]%elem_of_app; apply elem_of_replicate in Hs; naive_solver. }
  assert (JobState.Pending ∈ l) as Hin.
  { apply elem_of_app. right. apply elem_of_replicate. split; [done|lia]. }
  pose proof (derive_run_state_cases l) as H. unfold failing, active, fine in H.
  destruct (derive_run_state l); [done|exfalso..].
  - destruct H as (_ & s & Hs & ?). destruct (Hl s Hs); naive_solver.
  - destruct H as [_ H]. by destruct (H _ Hin).
  - destruct H as (s & Hs & ?). destruct (Hl s Hs); naive_solver.
  - destruct H as [_ H]. by destruct (Hl _ H).
Qed.

Lemma partly_done_run_is_pending_witness :
  derive_run_state [JobState.Succeeded; JobState.Succeeded; JobState.Pending] = RunState.Pending.
Proof. exact (partly_done_run_is_pending 2 1 (le_n 1)). Defined.

Lemma derive_run_state_precedence_witness :
  derive_run_state [JobState.Failed; JobState.Running]
  = derive_run_state [JobState.Running; JobState.Failed].
Proof.
  apply (derive_run_state_precedence [JobState.Failed; JobState.Running]).
  apply perm_swap.
Defined.

(** ** A run's jobs *)

Lemma foldl_insert_lookup_Some {A} (l : list (string * A)) (m : gmap string A) k a :
  foldl (λ m kj, <[kj.1 := kj.2]> m) m l !! k = Some a →
  m !! k = Some a ∨ (k, a) ∈ l.
Proof.
  revert m. induction l as [|[k' a'] l IH]; intros m H; cbn in *; [by left|].
  apply IH in H as [H|H]; [|by right; right]. cbn in H.
  apply lookup_insert_Some in H as [[-> ->]|[_ H]]; [right; by left|by left].
Qed.

Lemma foldl_insert_lookup_keep {A} (l : list (string * A)) (m : gmap string A) k :
  k ∉ l.*1 → foldl (λ m kj, <[kj.1 := kj.2]> m) m l !! k = m !! k.
Proof.
  revert m. induction l as [|[k' a'] l IH]; intros m H; cbn in *; [done|].
  apply not_elem_of_cons in H as [Hne H]. rewrite IH by done. by rewrite lookup_insert_ne.
Qed.

Lemma foldl_insert_lookup_NoDup {A} (l : list (string * A)) (m : gmap string A) k a :
  NoDup l.*1 → (k, a) ∈ l → foldl (λ m kj, <[kj.1 := kj.2]> m) m l !! k = Some a.
Proof.
  revert m. induction l as [|[k' a'] l IH]; intros m Hnd Hin; [by apply elem_of_nil in Hin|].
  cbn in *. apply NoDup_cons in Hnd as [Hni Hnd].
  apply elem_of_cons in Hin as [[= -> ->]|Hin].
  - rewrite foldl_insert_lookup_keep by done. apply lookup_insert_eq.
  - by apply IH.
Qed.

Lemma jobs_of_lookup jobs start k j :
  WorkflowRun.jobs_of jobs start !! k = Some j →
  ∃ i spec, jobs !! i = Some spec ∧ k = js_id spec ∧
    j = JobInstance.new spec (start + N.of_nat i).
Proof.
  unfold WorkflowRun.jobs_of. intros [H|H]%foldl_insert_lookup_Some; [done|].
  apply list_elem_of_lookup in H as [i H]. rewrite list_lookup_imap in H.
  destruct (jobs !! i) as [spec|] eqn:E; cbn in H; simplify_eq. eauto.
Qed.

Lemma jobs_of_lookup_unique jobs start i spec :
  NoDup (js_id <$> jobs) → jobs !! i = Some spec →
  WorkflowRun.jobs_of jobs start !! js_id spec = Some (JobInstance.new spec (start + N.of_nat i)).
Proof.
  intros Hnd Hi. unfold WorkflowRun.jobs_of. apply foldl_insert_lookup_NoDup.
  - rewrite fmap_imap. erewrite imap_ext; [rewrite imap_const; exact Hnd|done].
  - apply list_elem_of_lookup. exists i. by rewrite list_lookup_imap, Hi.
Qed.
