(* ===== verification/Broadcast.v ===== *)
(** * The event ring: [src/broadcast.rs]

    A single producer, any number of consumers, and a per-slot seqlock whose
    version encodes the position written.  Every atomic access is a step of
    its own, and the steps of the producer and of the consumers interleave
    freely; between two accesses a thread is at a program counter.  Accesses
    are sequentially consistent here; [Seqlock.v] takes the same operations
    with the orderings and fences of the code.  A position is a [usize], 64
    bits. *)

From S2P Require Import Prelude Spec Pool Handle Model.

(** A value that is read and written word by word. *)
Class WordSafe (T : Type) : Type := {
  WORDS : nat;
  to_words : T → list N;
  of_words : list N → T;
  to_words_length : ∀ x, length (to_words x) = WORDS;
  of_to_words : ∀ x, of_words (to_words x) = x;
}.

Definition MAX_STAGING_WORDS : nat := 16.

Record RingBuffer := mkRingBuffer {
  rb_mask : N;
  rb_versions : list N;
  rb_words : list N;  (* capacity * stride *)
  rb_stride : N;      (* cache-line-rounded words per slot *)
  rb_producer : N;
}.

Definition checked_mul (max a b : N) : exec N :=
  if decide (a * b ≤ max) then Ret (a * b) else Panic.

(** [2 * pos + k] *)
Definition version (pos k : N) : exec N :=
  v ← checked_mul u64_max 2 pos; checked_add u64_max v k.

Definition rb_slot (b : RingBuffer) (pos : N) : N := N.land pos (rb_mask b).
Definition rb_word (b : RingBuffer) (pos : N) (i : nat) : nat :=
  N.to_nat (rb_slot b pos * rb_stride b) + i.

Definition set_producer (n : N) (b : RingBuffer) : RingBuffer :=
  mkRingBuffer (rb_mask b) (rb_versions b) (rb_words b) (rb_stride b) n.

Definition store_version (pos v : N) (b : RingBuffer) : exec RingBuffer :=
  vs ← index_mut (rb_versions b) (N.to_nat (rb_slot b pos)) (λ _, Ret v);
  Ret (mkRingBuffer (rb_mask b) vs (rb_words b) (rb_stride b) (rb_producer b)).

Definition load_version (pos : N) (b : RingBuffer) : exec N :=
  index (rb_versions b) (N.to_nat (rb_slot b pos)).

Definition store_word (pos : N) (i : nat) (w : N) (b : RingBuffer) : exec RingBuffer :=
  ws ← index_mut (rb_words b) (rb_word b pos i) (λ _, Ret w);
  Ret (mkRingBuffer (rb_mask b) (rb_versions b) ws (rb_stride b) (rb_producer b)).

#[local] Arguments Nat.ltb : simpl never.
#[local] Arguments replicate : simpl never.

Section ring.
Context {T : Type} `{WordSafe T}.

(** The value copied into the staging array. *)
Definition staged_words (value : T) : list N :=
  to_words value ++ replicate (MAX_STAGING_WORDS - WORDS) 0.

(** ** The operations, each a straight run *)

Definition send (value : T) (b : RingBuffer) : exec RingBuffer :=
  let pos := rb_producer b in
  let b0 := set_producer (fetch_add pos 1) b in
  odd ← version pos 1;
  b1 ← store_version pos odd b0;
  b2 ← foldM (λ b i, w ← index (staged_words value) i; store_word pos i w b) b1 (seq 0 WORDS);
  even ← version pos 2;
  store_version pos even b2.

Record Receiver := mkReceiver { rc_pos : N; rc_laps : N }.

(** A receiver that starts at the producer's position. *)
Definition subscribe (b : RingBuffer) : Receiver := mkReceiver (rb_producer b) 0.

(** Re-sync after being lapped: half a buffer back from the producer. *)
Definition catch_up (b : RingBuffer) (r : Receiver) : exec Receiver :=
  laps ← checked_add u64_max (rc_laps r) 1;
  let capacity := rb_mask b + 1 in
  Ret (mkReceiver (saturating_sub (rb_producer b) (capacity `div` 2)) laps).

Definition try_recv (b : RingBuffer) (r : Receiver) : exec (Receiver * option T) :=
  want ← version (rc_pos r) 2;
  v1 ← load_version (rc_pos r) b;
  if v1 <? want then Ret (r, None)
  else if want <? v1 then r' ← catch_up b r; Ret (r', None)
  else
    staged ← foldM (λ staged i, w ← index (rb_words b) (rb_word b (rc_pos r) i);
                      index_mut staged i (λ _, Ret w))
               (replicate MAX_STAGING_WORDS 0) (seq 0 WORDS);
    v2 ← load_version (rc_pos r) b;
    if decide (v1 = v2) then
      pos ← checked_add u64_max (rc_pos r) 1;
      Ret (mkReceiver pos (rc_laps r), Some (of_words (take WORDS staged)))
    else Ret (r, None).

Definition next_power_of_two (n : N) : N := 2 ^ N.log2_up n.
Definition next_multiple_of (n m : N) : N := (n + m - 1) `div` m * m.

Definition channel (capacity : N) : exec RingBuffer :=
  if decide (WORDS ≤ MAX_STAGING_WORDS)%nat then
    let capacity := next_power_of_two capacity `max` 2 in
    let slot_bytes := N.of_nat WORDS * 8 in
    let stride_bytes := next_multiple_of slot_bytes 64 in
    let stride := stride_bytes `div` 8 in
    Ret (mkRingBuffer (capacity - 1)
           ((λ i, 2 * N.of_nat i) <$> seq 0 (N.to_nat capacity))
           (replicate (N.to_nat (capacity * stride)) 0) stride 0)
  else Panic.

(** ** The same operations, one atomic access at a time *)

(** Where a [send] stands. *)
Inductive send_pc :=
  | S_Idle
  | S_Claimed (value : T) (pos : N)
  | S_Writing (value : T) (pos : N) (i : nat).

(** Claiming a position: [fetch_add]. *)
Definition send_begin (value : T) (b : RingBuffer) : RingBuffer * send_pc :=
  (set_producer (fetch_add (rb_producer b) 1) b, S_Claimed value (rb_producer b)).

Definition send_next (b : RingBuffer) (pc : send_pc) : exec (RingBuffer * send_pc) :=
  match pc with
  | S_Idle => Ret (b, S_Idle)
  | S_Claimed value pos =>
      odd ← version pos 1;
      b' ← store_version pos odd b;
      Ret (b', S_Writing value pos 0)
  | S_Writing value pos i =>
      if (i <? WORDS)%nat then
        w ← index (staged_words value) i;
        b' ← store_word pos i w b;
        Ret (b', S_Writing value pos (S i))
      else
        even ← version pos 2;
        b' ← store_version pos even b;
        Ret (b', S_Idle)
  end.

(** Where a [try_recv] stands. *)
Inductive recv_pc :=
  | R_Idle
  | R_Reading (v1 : N) (i : nat) (staged : list N)
  | R_Lapped.

Definition recv_next (b : RingBuffer) (r : Receiver) (pc : recv_pc)
    : exec (Receiver * recv_pc * option T) :=
  match pc with
  | R_Idle =>
      want ← version (rc_pos r) 2;
      v1 ← load_version (rc_pos r) b;
      if v1 <? want then Ret (r, R_Idle, None)
      else if want <? v1 then Ret (r, R_Lapped, None)
      else Ret (r, R_Reading v1 0 (replicate MAX_STAGING_WORDS 0), None)
  | R_Reading v1 i staged =>
      if (i <? WORDS)%nat then
        w ← index (rb_words b) (rb_word b (rc_pos r) i);
        staged' ← index_mut staged i (λ _, Ret w);
        Ret (r, R_Reading v1 (S i) staged', None)
      else
        v2 ← load_version (rc_pos r) b;
        if decide (v1 = v2) then
          pos ← checked_add u64_max (rc_pos r) 1;
          Ret (mkReceiver pos (rc_laps r), R_Idle, Some (of_words (take WORDS staged)))
        else Ret (r, R_Idle, None)
  | R_Lapped =>
      r' ← catch_up b r;
      Ret (r', R_Idle, None)
  end.

(** ** The ring at work *)

(** A subscriber: its receiver, where its [try_recv] stands, and, for the
    statements, what it was handed so far and for which position. *)
Record Client := mkClient {
  cl_receiver : Receiver;
  cl_pc : recv_pc;
  cl_got : list (N * T);
}.

(** [rg_sent] lists, for the statements, the values sent, by position. *)
Record Ring := mkRing {
  rg_buffer : RingBuffer;
  rg_sender : send_pc;
  rg_sent : list T;
  rg_clients : list Client;
}.

Definition client_next (b : RingBuffer) (c : Client) : exec Client :=
  r ← recv_next b (cl_receiver c) (cl_pc c);
  let '(receiver, pc, out) := r in
  Ret (mkClient receiver pc
         (cl_got c ++ match out with Some x => [(rc_pos (cl_receiver c), x)] | None => [] end)).

Inductive ring_step : Ring → Ring → Prop :=
  | ring_begin value b sent clients :
      ring_step (mkRing b S_Idle sent clients)
        (mkRing (send_begin value b).1 (send_begin value b).2 (sent ++ [value]) clients)
  | ring_send b pc b' pc' sent clients :
      send_next b pc = Ret (b', pc') →
      ring_step (mkRing b pc sent clients) (mkRing b' pc' sent clients)
  | ring_subscribe b pc sent clients :
      ring_step (mkRing b pc sent clients)
        (mkRing b pc sent (clients ++ [mkClient (subscribe b) R_Idle []]))
  | ring_recv b pc sent clients i c c' :
      clients !! i = Some c → client_next b c = Ret c' →
      ring_step (mkRing b pc sent clients) (mkRing b pc sent (<[i := c']> clients)).

Definition ring_start (b : RingBuffer) : Ring := mkRing b S_Idle [] [].


(** ** The shape of the ring *)

Definition capacity (b : RingBuffer) : N := rb_mask b + 1.

Record buffer_wf (b : RingBuffer) : Prop := {
  bw_pow : ∃ k, capacity b = 2 ^ k;
  bw_two : 2 ≤ capacity b;
  bw_versions : length (rb_versions b) = N.to_nat (capacity b);
  bw_words : length (rb_words b) = N.to_nat (capacity b * rb_stride b);
  bw_stride : (WORDS ≤ N.to_nat (rb_stride b))%nat;
  bw_staging : (WORDS ≤ MAX_STAGING_WORDS)%nat;
}.

Lemma rb_slot_mod b pos : buffer_wf b → rb_slot b pos = pos `mod` capacity b.
Proof.
  intros [[k Hk] _ _ _ _ _]. unfold rb_slot. rewrite Hk, <-N.land_ones, N.ones_equiv, <-Hk.
  unfold capacity. by rewrite N.add_1_r, N.pred_succ.
Qed.

Lemma rb_slot_lt b pos : buffer_wf b → rb_slot b pos < capacity b.
Proof. intros Hb. rewrite rb_slot_mod by done. apply N.mod_lt. destruct Hb. lia. Qed.

(** The words of a slot. *)
Definition word_of (b : RingBuffer) (s : N) (i : nat) : nat := N.to_nat (s * rb_stride b) + i.

Lemma word_of_lt b s i :
  buffer_wf b → s < capacity b → (i < WORDS)%nat → (word_of b s i < length (rb_words b))%nat.
Proof.
  intros [] Hs Hi. unfold word_of. rewrite bw_words0.
  assert (s * rb_stride b + rb_stride b ≤ capacity b * rb_stride b) by nia. lia.
Qed.

Lemma word_of_inj b s i s' i' :
  buffer_wf b → (i < WORDS)%nat → (i' < WORDS)%nat →
  word_of b s i = word_of b s' i' → s = s' ∧ i = i'.
Proof.
  intros [] Hi Hi' E. unfold word_of in E.
  assert (s * rb_stride b + N.of_nat i = s' * rb_stride b + N.of_nat i') as E' by lia.
  assert (s = s') as ->; [|lia].
  assert (s < s' ∨ s = s' ∨ s' < s) as [?|[?|?]] by lia; [exfalso|done|exfalso]; nia.
Qed.

(** What the slot of a version holds. *)
Definition holds (b : RingBuffer) (s : N) (x : T) (n : nat) : Prop :=
  ∀ i w, (i < n)%nat → to_words x !! i = Some w → rb_words b !! word_of b s i = Some w.

Definition sent_at (sent : list T) (pos : N) : option T := sent !! N.to_nat pos.

(** How many positions are completely written. *)
Definition completed (pc : send_pc) (sent : list T) : N :=
  match pc with S_Idle => N.of_nat (length sent) | _ => N.of_nat (length sent) - 1 end.

(** The version a slot has when [m] positions are written. *)
Definition settled (b : RingBuffer) (sent : list T) (m s v : N) : Prop :=
  (m ≤ s ∧ v = 2 * s) ∨
  ∃ q x, q < m ∧ m ≤ q + capacity b ∧ q `mod` capacity b = s ∧ v = 2 * q + 2 ∧
    sent_at sent q = Some x ∧ holds b s x WORDS.

Definition slot_ok (b : RingBuffer) (pc : send_pc) (sent : list T) (s v : N) : Prop :=
  match pc with
  | S_Writing x pos i =>
      if decide (s = rb_slot b pos) then v = 2 * pos + 1 ∧ holds b s x i
      else settled b sent (completed pc sent) s v
  | _ => settled b sent (completed pc sent) s v
  end.

Definition sender_ok (pc : send_pc) (sent : list T) : Prop :=
  match pc with
  | S_Idle => True
  | S_Claimed x pos => N.of_nat (length sent) = pos + 1 ∧ sent_at sent pos = Some x
  | S_Writing x pos i =>
      N.of_nat (length sent) = pos + 1 ∧ sent_at sent pos = Some x ∧ (i ≤ WORDS)%nat
  end.

Record client_ok (b : RingBuffer) (sent : list T) (c : Client) : Prop := {
  co_pos : rc_pos (cl_receiver c) ≤ N.of_nat (length sent);
  co_laps : rc_laps (cl_receiver c) ≤ rc_pos (cl_receiver c);
  co_pc : match cl_pc c with
          | R_Idle => True
          | R_Reading v1 i staged =>
              v1 = 2 * rc_pos (cl_receiver c) + 2 ∧ (i ≤ WORDS)%nat ∧
              length staged = MAX_STAGING_WORDS ∧
              ∃ v, rb_versions b !! N.to_nat (rb_slot b (rc_pos (cl_receiver c))) = Some v ∧
                v1 ≤ v ∧
                (v = v1 → ∃ x, sent_at sent (rc_pos (cl_receiver c)) = Some x ∧
                   ∀ j w, (j < i)%nat → to_words x !! j = Some w → staged !! j = Some w)
          | R_Lapped => rc_pos (cl_receiver c) + capacity b < N.of_nat (length sent)
          end;
  co_got : ∀ p x, (p, x) ∈ cl_got c → sent_at sent p = Some x ∧ p < rc_pos (cl_receiver c);
  co_order : StronglySorted N.lt (cl_got c).*1;
}.

Record ring_inv (s : Ring) : Prop := {
  ri_wf : buffer_wf (rg_buffer s);
  ri_producer : rb_producer (rg_buffer s) = N.of_nat (length (rg_sent s));
  ri_sender : sender_ok (rg_sender s) (rg_sent s);
  ri_slots : ∀ i v, rb_versions (rg_buffer s) !! i = Some v →
    slot_ok (rg_buffer s) (rg_sender s) (rg_sent s) (N.of_nat i) v;
  ri_clients : ∀ i c, rg_clients s !! i = Some c → client_ok (rg_buffer s) (rg_sent s) c;
}.

(** ** Facts about positions and slots *)

Lemma sent_at_snoc sent (x : T) p y : sent_at sent p = Some y → sent_at (sent ++ [x]) p = Some y.
Proof. apply lookup_app_l_Some. Qed.

Lemma sent_at_lt (sent : list T) p x : sent_at sent p = Some x → p < N.of_nat (length sent).
Proof. intros ?%lookup_lt_Some. lia. Qed.

(** The version of a settled slot says which position it holds. *)
Lemma settled_even b sent m pos v :
  buffer_wf b → settled b sent m (rb_slot b pos) v → v = 2 * pos + 2 →
  pos < m ∧ ∃ x, sent_at sent pos = Some x ∧ holds b (rb_slot b pos) x WORDS.
Proof.
  intros Hb [[Hm Hv]|(q & x & Hq & _ & _ & Hv & Hx & Hh)] E.
  - exfalso. rewrite rb_slot_mod in * by done. destruct Hb.
    pose proof (N.Div0.mod_le pos (capacity b)). lia.
  - assert (q = pos) as -> by lia. eauto.
Qed.

(** ... and only grows. *)
Lemma settled_below b sent m pos v :
  buffer_wf b → settled b sent m (rb_slot b pos) v → m ≤ pos → v ≤ 2 * pos.
Proof.
  intros Hb [[Hm Hv]|(q & x & Hq & _ & Hs & Hv & _)] Hle.
  - rewrite rb_slot_mod in * by done. destruct Hb.
    pose proof (N.Div0.mod_le pos (capacity b)). lia.
  - lia.
Qed.

Lemma settled_ahead b sent m pos v :
  buffer_wf b → settled b sent m (rb_slot b pos) v → 2 * pos + 2 < v → pos + capacity b < m.
Proof.
  intros Hb [[Hm Hv]|(q & x & Hq & _ & Hs & Hv & _)] Hlt.
  - rewrite rb_slot_mod in * by done. destruct Hb.
    pose proof (N.Div0.mod_le pos (capacity b)). lia.
  - rewrite rb_slot_mod in Hs by done. destruct Hb.
    pose proof (mod_gap (capacity b) pos q). lia.
Qed.

(** What a reader at [pos] may conclude from the version of its slot. *)
Lemma slot_reads b pc sent pos v :
  buffer_wf b → sender_ok pc sent → slot_ok b pc sent (rb_slot b pos) v →
  (v = 2 * pos + 2 → ∃ x, sent_at sent pos = Some x ∧ holds b (rb_slot b pos) x WORDS) ∧
  (2 * pos + 2 < v → pos + capacity b < N.of_nat (length sent)).
Proof.
  intros Hb Hpc Hs.
  assert (∀ m, m ≤ N.of_nat (length sent) → settled b sent m (rb_slot b pos) v →
    (v = 2 * pos + 2 → ∃ x, sent_at sent pos = Some x ∧ holds b (rb_slot b pos) x WORDS) ∧
    (2 * pos + 2 < v → pos + capacity b < N.of_nat (length sent))) as Hset.
  { intros m Hm Hset. split.
    - intros E. by destruct (settled_even _ _ _ _ _ Hb Hset E) as (_ & ?).
    - intros Hlt. pose proof (settled_ahead _ _ _ _ _ Hb Hset Hlt). lia. }
  destruct pc as [|x p|x p i]; cbn in *.
  - by eapply Hset, Hs.
  - eapply Hset, Hs. lia.
  - case_decide as E.
    + destruct Hs as [-> _]. destruct Hpc as (Hn & _). split; [lia|]. intros Hlt.
      rewrite !rb_slot_mod in E by done. destruct Hb.
      pose proof (mod_gap (capacity b) pos p). lia.
    + eapply Hset, Hs. lia.
Qed.

Lemma version_Ret pos k : pos < 2 ^ 62 → k ≤ 2 → version pos k = Ret (2 * pos + k).
Proof.
  intros Hp Hk. unfold version, checked_mul, checked_add, u64_max.
  rewrite decide_True by lia. cbn. by rewrite decide_True by lia.
Qed.

Lemma version_at b pos : buffer_wf b → is_Some (rb_versions b !! N.to_nat (rb_slot b pos)).
Proof.
  intros Hb. apply lookup_lt_is_Some. pose proof (rb_slot_lt b pos Hb). destruct Hb. lia.
Qed.

Lemma load_version_Ret b pos v :
  rb_versions b !! N.to_nat (rb_slot b pos) = Some v → load_version pos b = Ret v.
Proof. intros Hv. unfold load_version, index. by rewrite Hv. Qed.

Lemma index_Some {A} (l : list A) i a : l !! i = Some a → index l i = Ret a.
Proof. intros Hl. unfold index. by rewrite Hl. Qed.

Lemma index_set {A} (l : list A) i a : (i < length l)%nat → index_mut l i (λ _, Ret a) = Ret (<[i := a]> l).
Proof.
  intros [x Hx]%lookup_lt_is_Some. unfold index_mut. by rewrite (index_Some _ _ _ Hx).
Qed.

Lemma sorted_snoc l p : StronglySorted N.lt l → (∀ q, q ∈ l → q < p) → StronglySorted N.lt (l ++ [p]).
Proof.
  induction 1 as [|q l Hl IH Hq]; cbn; intros Hp; [by repeat constructor|].
  constructor; [apply IH; intros; apply Hp; by right|].
  apply Forall_app. split; [done|]. apply Forall_singleton, Hp. by left.
Qed.

(** ** The consumer's steps *)

Lemma catch_up_Ret b r n :
  rb_producer b = n → n < 2 ^ 62 → rc_laps r ≤ n →
  catch_up b r = Ret (mkReceiver (n - capacity b `div` 2) (rc_laps r + 1)).
Proof.
  intros Hn Hb Hl. unfold catch_up, checked_add, u64_max. rewrite decide_True by lia. cbn.
  by rewrite Hn.
Qed.

(** A consumer's step keeps it right, and does not panic. *)
Definition keeps_client (s : Ring) (c : Client) : Prop :=
  ∃ c', client_next (rg_buffer s) c = Ret c' ∧ client_ok (rg_buffer s) (rg_sent s) c'.

(** Open a ring and one of its consumers, at one place of its call. *)
Ltac open_client s c Hinv Hc Hat :=
  destruct s as [b pc sent clients]; destruct Hinv as [Hb Hprod Hpc Hslots Hcl]; cbn in *;
  pose proof (Hcl _ _ Hc) as [Hpos Hlaps Hcpc Hgot Hord];
  destruct c as [[pos laps] cpc got]; cbn in *; subst cpc; unfold keeps_client, client_next; cbn;
  let v := fresh "v" in destruct (version_at b pos Hb) as [v Hv];
  pose proof (slot_reads b pc sent pos v Hb Hpc) as Hreads;
  pose proof (Hslots _ _ Hv) as Hslot; rewrite N2Nat.id in Hslot;
  destruct (Hreads Hslot) as [Heven Hahead]; clear Hreads.

(** The version: a value to read, none yet, or a lap. *)
Lemma client_begins s i c :
  ring_inv s → N.of_nat (length (rg_sent s)) < 2 ^ 62 → rg_clients s !! i = Some c →
  cl_pc c = R_Idle → keeps_client s c.
Proof.
  intros Hinv Hn Hc Hat. open_client s c Hinv Hc Hat.
  rewrite version_Ret by lia. cbn. rewrite (load_version_Ret _ _ _ Hv). cbn.
  destruct (N.ltb_spec v (2 * pos + 2)).
  { eexists. split; [done|]. rewrite app_nil_r. by split. }
  destruct (N.ltb_spec (2 * pos + 2) v).
  { eexists. split; [done|]. rewrite app_nil_r. split; cbn; try done. by apply Hahead. }
  eexists. split; [done|]. rewrite app_nil_r. split; cbn; try done. split_and!; [lia|lia|done|].
  exists v. split_and!; [done|lia|]. intros _. destruct Heven as (x & Hx & _); [lia|].
  exists x. split; [done|]. intros. lia.
Qed.

(** A word staged, or the version again. *)
Lemma client_reads s i c v1 j staged :
  ring_inv s → N.of_nat (length (rg_sent s)) < 2 ^ 62 → rg_clients s !! i = Some c →
  cl_pc c = R_Reading v1 j staged → keeps_client s c.
Proof.
  intros Hinv Hn Hc Hat. open_client s c Hinv Hc Hat.
  destruct Hcpc as (-> & Hj & Hlen & v' & Hv' & Hle & Hst).
  assert (v' = v) as -> by congruence.
  destruct (Nat.ltb_spec j WORDS) as [Hlt|Hge].
  - destruct (lookup_lt_is_Some_2 (rb_words b) (rb_word b pos j)) as [w Hw].
    { apply (word_of_lt b (rb_slot b pos)); [done|by apply rb_slot_lt|done]. }
    rewrite (index_Some _ _ _ Hw). cbn. destruct Hb.
    rewrite index_set by lia. cbn. eexists. split; [done|]. rewrite app_nil_r.
    split; cbn; try done. split_and!; [done|lia|by rewrite length_insert|].
    exists v. split_and!; [done|done|]. intros E. destruct (Hst E) as (x & Hx & Hpre).
    exists x. split; [done|]. intros j' w' Hj' Hw'.
    destruct (decide (j' = j)) as [->|].
    + destruct Heven as (x' & Hx' & Hh); [lia|]. simplify_eq.
      specialize (Hh j w' Hlt Hw'). change (word_of b (rb_slot b pos) j) with (rb_word b pos j) in Hh.
      rewrite list_lookup_insert_eq by lia. congruence.
    + rewrite list_lookup_insert_ne by done. apply Hpre; [lia|done].
  - rewrite (load_version_Ret _ _ _ Hv). cbn. case_decide as E.
    + destruct (Hst (eq_sym E)) as (x & Hx & Hpre). pose proof (sent_at_lt _ _ _ Hx).
      unfold checked_add, u64_max. rewrite decide_True by lia. cbn.
      assert (take WORDS staged = to_words x) as ->.
      { destruct Hb. apply list_eq_same_length with (n := WORDS); [apply to_words_length| |].
        - rewrite length_take. lia.
        - intros k y y' Hk Hy Hy'. rewrite lookup_take_lt in Hy by done.
          rewrite (Hpre k y') in Hy; [congruence|lia|done]. }
      rewrite of_to_words. eexists. split; [done|]. split; cbn; try done; [lia|lia| |].
      * intros p y [Hin|Hin]%elem_of_app; [destruct (Hgot _ _ Hin); split; [done|lia]|].
         apply list_elem_of_singleton in Hin as [= -> ->]. split; [done|lia].
      * rewrite fmap_app. apply sorted_snoc; [done|].
         intros q ([? y] & -> & Hin)%list_elem_of_fmap. by apply (Hgot _ y).
    + eexists. split; [done|]. rewrite app_nil_r. by split.
Qed.

(** A lap is counted. *)
Lemma client_laps s i c :
  ring_inv s → N.of_nat (length (rg_sent s)) < 2 ^ 62 → rg_clients s !! i = Some c →
  cl_pc c = R_Lapped → keeps_client s c.
Proof.
  intros Hinv Hn Hc Hat. open_client s c Hinv Hc Hat.
  rewrite (catch_up_Ret b _ _ Hprod) by (cbn; lia). cbn. eexists. split; [done|].
  rewrite app_nil_r. destruct Hb.
  assert (capacity b `div` 2 ≤ capacity b) by (apply N.Div0.div_le_upper_bound; lia).
  assert (capacity b `div` 2 + capacity b `div` 2 ≤ capacity b).
  { pose proof (N.Div0.mul_div_le (capacity b) 2). lia. }
  generalize dependent (capacity b `div` 2). intros half Hh1 Hh2.
  split; cbn; try done; [lia|lia|].
  intros p y Hin. destruct (Hgot _ _ Hin). split; [done|lia].
Qed.

Lemma client_inv s i c :
  ring_inv s → N.of_nat (length (rg_sent s)) < 2 ^ 62 → rg_clients s !! i = Some c →
  ∃ c', client_next (rg_buffer s) c = Ret c' ∧ client_ok (rg_buffer s) (rg_sent s) c'.
Proof.
  intros Hinv Hn Hc. destruct (cl_pc c) eqn:Hat.
  - by eapply client_begins.
  - by eapply client_reads.
  - by eapply client_laps.
Qed.

(** ** The producer's steps *)

Lemma client_ok_same b b' sent c :
  rb_mask b' = rb_mask b → rb_versions b' = rb_versions b → client_ok b sent c → client_ok b' sent c.
Proof.
  intros Hm Hv [Hpos Hlaps Hpc Hgot Hord]. split; try done.
  unfold rb_slot, capacity in *. by rewrite Hm, Hv.
Qed.

Lemma client_ok_snoc b sent x c : client_ok b sent c → client_ok b (sent ++ [x]) c.
Proof.
  intros [Hpos Hlaps Hpc Hgot Hord]. split; try done.
  - rewrite length_app. cbn. lia.
  - destruct (cl_pc c); [done| |].
    + destruct Hpc as (? & ? & ? & v & ? & ? & Hst). split_and!; try done.
      exists v. split_and!; try done. intros E. destruct (Hst E) as (y & Hy & ?).
      exists y. split; [by apply sent_at_snoc|done].
    + rewrite length_app. cbn. lia.
  - intros p y Hin. destruct (Hgot _ _ Hin). split; [by apply sent_at_snoc|done].
Qed.

Lemma settled_snoc b sent m s v x : settled b sent m s v → settled b (sent ++ [x]) m s v.
Proof.
  intros [?|(q & y & ? & ? & ? & ? & Hy & ?)]; [by left|]. right. exists q, y.
  split_and!; try done. by apply sent_at_snoc.
Qed.

(** Raising a version disturbs no reader: the version it saw never returns. *)
Lemma client_ok_raise b vs sent c pos v v' :
  rb_versions b !! N.to_nat (rb_slot b pos) = Some v → v < v' →
  vs = <[N.to_nat (rb_slot b pos) := v']> (rb_versions b) →
  client_ok b sent c →
  client_ok (mkRingBuffer (rb_mask b) vs (rb_words b) (rb_stride b) (rb_producer b)) sent c.
Proof.
  intros Hv Hlt -> [Hpos Hlaps Hpc Hgot Hord]. split; try done.
  destruct (cl_pc c); try done. destruct Hpc as (? & ? & ? & w & Hw & Hle & Hst).
  split_and!; try done. unfold rb_slot in *. cbn.
  destruct (decide (N.to_nat (N.land (rc_pos (cl_receiver c)) (rb_mask b)) =
                    N.to_nat (N.land pos (rb_mask b)))) as [E|E].
  - rewrite E in *. assert (w = v) as -> by congruence. exists v'.
    rewrite list_lookup_insert_eq by (by eapply lookup_lt_Some). split_and!; [done|lia|lia].
  - exists w. by rewrite list_lookup_insert_ne.
Qed.

Lemma begin_inv b sent clients value :
  N.of_nat (length sent) < 2 ^ 62 →
  ring_inv (mkRing b S_Idle sent clients) →
  ring_inv (mkRing (send_begin value b).1 (send_begin value b).2 (sent ++ [value]) clients).
Proof.
  intros Hn [Hb Hprod _ Hslots Hcl]. cbn in *. split; cbn.
  - by destruct Hb.
  - unfold fetch_add. rewrite Hprod, N.mod_small, length_app by lia. cbn. lia.
  - rewrite length_app. cbn. split; [lia|]. unfold sent_at. rewrite Hprod, Nat2N.id.
    by apply list_lookup_middle.
  - intros i v Hv. cbn. rewrite length_app. cbn.
    replace (N.of_nat (length sent + 1) - 1) with (N.of_nat (length sent)) by lia.
    apply settled_snoc. by apply Hslots.
  - intros i c Hc. apply client_ok_snoc, (client_ok_same b); [done..|]. by eapply Hcl.
Qed.

(** The odd version opens the slot. *)
Lemma claimed_inv b sent clients x pos :
  N.of_nat (length sent) < 2 ^ 62 →
  ring_inv (mkRing b (S_Claimed x pos) sent clients) →
  ∃ b', send_next b (S_Claimed x pos) = Ret (b', S_Writing x pos 0) ∧
    ring_inv (mkRing b' (S_Writing x pos 0) sent clients).
Proof.
  intros Hn [Hb Hprod [Hlen Hx] Hslots Hcl]. cbn in *.
  rewrite version_Ret by lia. cbn. destruct (version_at b pos Hb) as [v Hv].
  unfold store_version. rewrite index_set by (by eapply lookup_lt_Some). cbn.
  eexists. split; [done|]. pose proof (Hslots _ _ Hv) as Hold. rewrite N2Nat.id in Hold. cbn in Hold.
  pose proof (settled_below _ _ _ _ _ Hb Hold) as Hbelow.
  split; cbn; try done.
  - destruct Hb. split; cbn; rewrite ?length_insert; done.
  - split_and!; [done|done|lia].
  - intros i w Hw. unfold slot_ok. cbn. case_decide as E.
    + change (rb_slot _ pos) with (rb_slot b pos) in E.
      assert (i = N.to_nat (rb_slot b pos)) as -> by lia.
      rewrite list_lookup_insert_eq in Hw by (by eapply lookup_lt_Some). simplify_eq.
      split; [done|]. intros ??. lia.
    + rewrite list_lookup_insert_ne in Hw.
      * by apply (Hslots i).
      * intros <-. apply E. by rewrite N2Nat.id.
  - intros i c Hc. eapply client_ok_raise; [done| |done|by eapply Hcl]. lia.
Qed.

(** A word goes to the open slot. *)
Lemma writing_inv b sent clients x pos i :
  ring_inv (mkRing b (S_Writing x pos i) sent clients) → (i < WORDS)%nat →
  ∃ b', send_next b (S_Writing x pos i) = Ret (b', S_Writing x pos (S i)) ∧
    ring_inv (mkRing b' (S_Writing x pos (S i)) sent clients).
Proof.
  intros [Hb Hprod (Hlen & Hx & Hi) Hslots Hcl] Hlt. cbn in *.
  rewrite (proj2 (Nat.ltb_lt i WORDS)) by done.
  destruct (lookup_lt_is_Some_2 (to_words x) i) as [w Hw]; [by rewrite to_words_length|].
  rewrite (index_Some _ _ w) by (by apply lookup_app_l_Some). cbn.
  pose proof (rb_slot_lt b pos Hb) as Hs. pose proof (word_of_lt b _ i Hb Hs Hlt) as Hword.
  unfold store_word. change (rb_word b pos i) with (word_of b (rb_slot b pos) i).
  rewrite index_set by done. cbn. eexists. split; [done|].
  split; cbn; try done.
  - destruct Hb. split; cbn; rewrite ?length_insert; done.
  - intros j v Hv. specialize (Hslots j v Hv). unfold slot_ok in *. cbn in *.
    change (rb_slot _ pos) with (rb_slot b pos). case_decide as E.
    + destruct Hslots as [-> Hh]. split; [done|]. intros k w' Hk Hw'.
      unfold word_of in *. cbn. rewrite E. destruct (decide (k = i)) as [->|].
      * simplify_eq. by rewrite list_lookup_insert_eq.
      * rewrite list_lookup_insert_ne by lia. rewrite <-E. apply Hh; [lia|done].
    + destruct Hslots as [?|(q & y & ? & ? & ? & ? & ? & Hh)]; [by left|]. right.
      exists q, y. split_and!; try done. intros k w' Hk Hw'. unfold word_of. cbn.
      rewrite list_lookup_insert_ne; [by apply Hh|]. intros E'.
      by apply (word_of_inj b) in E' as [? _].
  - intros j c Hc. apply (client_ok_same b); [done..|]. by eapply Hcl.
Qed.

(** The even version closes it. *)
Lemma written_inv b sent clients x pos i :
  N.of_nat (length sent) < 2 ^ 62 →
  ring_inv (mkRing b (S_Writing x pos i) sent clients) → (WORDS ≤ i)%nat →
  ∃ b', send_next b (S_Writing x pos i) = Ret (b', S_Idle) ∧
    ring_inv (mkRing b' S_Idle sent clients).
Proof.
  intros Hn [Hb Hprod (Hlen & Hx & Hi) Hslots Hcl] Hge. cbn in *.
  rewrite (proj2 (Nat.ltb_ge i WORDS)) by done. rewrite version_Ret by lia. cbn.
  destruct (version_at b pos Hb) as [v Hv]. unfold store_version.
  rewrite index_set by (by eapply lookup_lt_Some). cbn. eexists. split; [done|].
  pose proof (Hslots _ _ Hv) as Hold. rewrite N2Nat.id in Hold. unfold slot_ok in Hold.
  rewrite decide_True in Hold by done. destruct Hold as [-> Hh].
  assert (i = WORDS) as -> by lia.
  split; cbn; try done.
  - destruct Hb. split; cbn; rewrite ?length_insert; done.
  - intros j w Hw. destruct (decide (j = N.to_nat (rb_slot b pos))) as [->|Hj].
    + rewrite list_lookup_insert_eq in Hw by (by eapply lookup_lt_Some). simplify_eq.
      rewrite N2Nat.id. right. exists pos, x.
      split_and!; [lia| |exact (eq_sym (rb_slot_mod b pos Hb))|done|done|done].
      unfold capacity. cbn. lia.
    + rewrite list_lookup_insert_ne in Hw by done. pose proof (lookup_lt_Some _ _ _ Hw) as Hjl.
      specialize (Hslots j w Hw). unfold slot_ok in Hslots.
      rewrite decide_False in Hslots by lia. cbn in Hslots.
      pose proof (rb_slot_mod b pos Hb) as Hmod. destruct Hb.
      destruct Hslots as [[Hm ->]|(q & y & Hq & Hm & Hs & -> & Hy & Hh')].
      * left. split; [|done]. assert (N.of_nat j ≠ pos); [|lia]. intros E. apply Hj.
        rewrite Hmod, N.mod_small by lia. lia.
      * right. exists q, y. split_and!; try done; [lia|].
        unfold capacity in *. cbn. assert (pos ≠ q + (rb_mask b + 1)); [|lia]. intros ->. apply Hj.
        rewrite Hmod. replace (q + (rb_mask b + 1)) with (q + 1 * (rb_mask b + 1)) by lia.
        rewrite N.Div0.mod_add, Hs. lia.
  - intros j c Hc. eapply client_ok_raise; [done| |done|by eapply Hcl]. lia.
Qed.

(** ** Every step, and the start *)

Lemma send_inv s :
  ring_inv s → N.of_nat (length (rg_sent s)) < 2 ^ 62 →
  ∃ b' pc', send_next (rg_buffer s) (rg_sender s) = Ret (b', pc') ∧
    ring_inv (mkRing b' pc' (rg_sent s) (rg_clients s)).
Proof.
  destruct s as [b [|x pos|x pos i] sent clients]; cbn [rg_buffer rg_sender rg_sent rg_clients];
    intros Hinv Hn.
  - by exists b, S_Idle.
  - destruct (claimed_inv _ _ _ _ _ Hn Hinv) as (b' & ? & ?). eauto.
  - destruct (decide (i < WORDS)%nat).
    + destruct (writing_inv _ _ _ _ _ _ Hinv) as (b' & ? & ?); eauto.
    + destruct (written_inv _ _ _ _ _ _ Hn Hinv) as (b' & ? & ?); [lia|eauto].
Qed.

Lemma ring_step_sent s s' : ring_step s s' → (length (rg_sent s) ≤ length (rg_sent s'))%nat.
Proof. destruct 1; cbn; rewrite ?length_app; lia. Qed.

Lemma ring_step_inv s s' :
  ring_step s s' → N.of_nat (length (rg_sent s')) < 2 ^ 62 → ring_inv s → ring_inv s'.
Proof.
  intros Hstep Hn Hinv. pose proof (ring_step_sent _ _ Hstep) as Hlen.
  destruct Hstep as [value b sent clients|b pc b' pc' sent clients E|b pc sent clients|
    b pc sent clients i c c' Hc E]; cbn in *.
  - apply begin_inv; [lia|done].
  - destruct (send_inv _ Hinv) as (b2 & pc2 & E2 & Hinv2); [cbn; lia|]. cbn in *.
    rewrite E in E2. by simplify_eq.
  - destruct Hinv as [Hb Hprod Hpc Hslots Hcl]. split; cbn in *; try done. intros i c Hc.
    apply lookup_app_Some in Hc as [Hc|[_ Hc]]; [by eapply Hcl|].
    apply list_lookup_singleton_Some in Hc as [_ <-]. split; cbn; try done; [lia|lia| |constructor].
    by intros p x ?%elem_of_nil.
  - destruct (client_inv _ i c Hinv) as (c2 & E2 & Hok); [cbn; lia|done|]. cbn in *.
    rewrite E in E2. simplify_eq.
    destruct Hinv as [Hb Hprod Hpc Hslots Hcl]. split; cbn in *; try done. intros j d Hd.
    destruct (decide (j = i)) as [->|].
    + rewrite list_lookup_insert_eq in Hd by (by eapply lookup_lt_Some). by simplify_eq.
    + rewrite list_lookup_insert_ne in Hd by done. by eapply Hcl.
Qed.

Lemma ring_rtc_sent s s' : rtc ring_step s s' → (length (rg_sent s) ≤ length (rg_sent s'))%nat.
Proof. induction 1 as [|s1 s2 s3 Hs _ IH]; [done|]. apply ring_step_sent in Hs. lia. Qed.

Lemma ring_rtc_inv s s' :
  rtc ring_step s s' → N.of_nat (length (rg_sent s')) < 2 ^ 62 → ring_inv s → ring_inv s'.
Proof.
  induction 1 as [|s1 s2 s3 Hs Hr IH]; [done|]. intros Hn Hinv.
  apply IH; [done|]. eapply ring_step_inv; [done| |done].
  apply ring_rtc_sent in Hr. lia.
Qed.

Lemma channel_wf n b : channel n = Ret b → buffer_wf b.
Proof.
  unfold channel. case_decide as Hw; [|done]. intros [= <-].
  set (c := next_power_of_two n `max` 2).
  assert (∃ k, c = 2 ^ k) as Hpow.
  { unfold c, next_power_of_two. set (k := N.log2_up n).
    destruct (decide (k = 0)) as [->|]; [by exists 1|]. exists k.
    assert (2 ^ 1 ≤ 2 ^ k) by (apply N.pow_le_mono_r; lia). lia. }
  assert (2 ≤ c) by lia.
  assert (∀ x, (x * 64) `div` 8 = 8 * x) as H8.
  { intros x. replace (x * 64) with (8 * x * 8) by lia. by rewrite N.div_mul. }
  split; unfold capacity; cbn [rb_mask rb_versions rb_words rb_stride]; try done.
  - destruct Hpow as [k Hk]. exists k. lia.
  - lia.
  - rewrite length_fmap, length_seq. lia.
  - rewrite length_replicate. f_equal. f_equal. lia.
  - unfold next_multiple_of. rewrite H8.
    pose proof (N.div_mod' (N.of_nat WORDS * 8 + 64 - 1) 64).
    pose proof (N.mod_lt (N.of_nat WORDS * 8 + 64 - 1) 64). lia.
Qed.

Lemma channel_inv n b : channel n = Ret b → ring_inv (ring_start b).
Proof.
  intros Hc. pose proof (channel_wf _ _ Hc) as Hb. unfold channel in Hc.
  case_decide; [|done]. injection Hc as <-. split; cbn [ring_start rg_buffer rg_sender rg_sent rg_clients]; try done.
  - intros i v Hv. cbn in Hv. apply list_lookup_fmap_Some in Hv as (j & -> & [-> _]%lookup_seq). left.
    cbn. split; lia.
Qed.

Lemma ring_reachable_inv n b s :
  channel n = Ret b → rtc ring_step (ring_start b) s → N.of_nat (length (rg_sent s)) < 2 ^ 62 →
  ring_inv s.
Proof. intros Hc Hr Hn. eapply ring_rtc_inv; [done|done|by eapply channel_inv]. Qed.

(** ** Whole calls, while nobody else runs *)

(** The receiver's loop copies the words of the slot. *)
Lemma read_words b pos k (staged : list N) :
  buffer_wf b → (k ≤ WORDS)%nat → length staged = MAX_STAGING_WORDS →
  ∃ staged',
    foldM (λ staged i, w ← index (rb_words b) (rb_word b pos i); index_mut staged i (λ _, Ret w))
      staged (seq 0 k) = Ret staged' ∧
    length staged' = MAX_STAGING_WORDS ∧
    ∀ j, (j < k)%nat → staged' !! j = rb_words b !! rb_word b pos j.
Proof.
  intros Hb. induction k as [|k IH]; intros Hk Hl.
  { exists staged. split_and!; [done|done|lia]. }
  destruct IH as (st & E & Hlen & Hst); [lia|done|].
  destruct (lookup_lt_is_Some_2 (rb_words b) (rb_word b pos k)) as [w Hw].
  { apply (word_of_lt b (rb_slot b pos)); [done|by apply rb_slot_lt|lia]. }
  rewrite seq_S, foldM_app, E. cbn [foldM mbind exec_bind plus]. rewrite (index_Some _ _ _ Hw). cbn.
  destruct Hb. rewrite index_set by lia. cbn. eexists. split; [done|].
  rewrite length_insert. split; [done|]. intros j Hj.
  destruct (decide (j = k)) as [->|].
  - by rewrite list_lookup_insert_eq, Hw by lia.
  - rewrite list_lookup_insert_ne by done. apply Hst. lia.
Qed.

(** The three outcomes of a [try_recv] with the producer idle. *)
Lemma try_recv_quiet b sent clients r :
  ring_inv (mkRing b S_Idle sent clients) → N.of_nat (length sent) < 2 ^ 62 →
  rc_pos r ≤ N.of_nat (length sent) → rc_laps r ≤ rc_pos r →
  try_recv b r =
    if N.of_nat (length sent) <=? rc_pos r then Ret (r, None)
    else if N.of_nat (length sent) <=? rc_pos r + capacity b then
      Ret (mkReceiver (rc_pos r + 1) (rc_laps r), sent_at sent (rc_pos r))
    else Ret (mkReceiver (N.of_nat (length sent) - capacity b `div` 2) (rc_laps r + 1), None).
Proof.
  intros [Hb Hprod _ Hslots _] Hn Hpos Hlaps. cbn in *. destruct r as [pos laps]. cbn in *.
  unfold try_recv. cbn. rewrite version_Ret by lia. cbn.
  destruct (version_at b pos Hb) as [v Hv]. rewrite (load_version_Ret _ _ _ Hv). cbn.
  specialize (Hslots _ _ Hv). rewrite N2Nat.id in Hslots.
  destruct (N.leb_spec (N.of_nat (length sent)) pos) as [Hle|Hlt].
  - pose proof (settled_below _ _ _ _ _ Hb Hslots Hle).
    by rewrite (proj2 (N.ltb_lt v (2 * pos + 2))) by lia.
  - destruct Hslots as [[Hm Hs]|(q & x & Hq & Hm & Hs & -> & Hx & Hh)].
    { exfalso. rewrite rb_slot_mod in Hm by done. destruct Hb.
      pose proof (N.Div0.mod_le pos (capacity b)). lia. }
    rewrite rb_slot_mod in Hs by done. pose proof (bw_two _ Hb) as Htwo.
    destruct (N.leb_spec (N.of_nat (length sent)) (pos + capacity b)) as [Hnear|Hfar].
    + assert (q = pos) as ->.
      { destruct (N.lt_trichotomy q pos) as [?|[?|?]]; [|done|].
        - pose proof (mod_gap (capacity b) q pos). lia.
        - pose proof (mod_gap (capacity b) pos q). lia. }
      rewrite N.ltb_irrefl. cbn.
      destruct (read_words b pos WORDS (replicate MAX_STAGING_WORDS 0)) as (st & -> & Hl & Hst);
        [done|done|done|]. cbn.
      rewrite decide_True by done.
      unfold checked_add, u64_max. rewrite decide_True by lia. cbn. rewrite Hx.
      assert (take WORDS st = to_words x) as ->; [|by rewrite of_to_words].
      destruct Hb. apply list_eq_same_length with (n := WORDS); [apply to_words_length| |].
      * rewrite length_take. lia.
      * intros k y y' Hk Hy Hy'. rewrite lookup_take_lt in Hy by done. rewrite Hst in Hy by done.
        specialize (Hh k y' Hk Hy'). unfold rb_word, word_of in *. congruence.
    + assert (pos < q) as Hpq.
      { destruct (N.lt_trichotomy q pos) as [?|[?|?]]; [lia|lia|done]. }
      rewrite (proj2 (N.ltb_ge (2 * q + 2) (2 * pos + 2))) by lia.
      rewrite (proj2 (N.ltb_lt (2 * pos + 2) (2 * q + 2))) by lia.
      by rewrite (catch_up_Ret b _ _ Hprod) by (cbn; lia).
Qed.

(** A whole [send]. *)
Lemma send_quiet b sent clients value :
  ring_inv (mkRing b S_Idle sent clients) → N.of_nat (length sent) + 1 < 2 ^ 62 →
  ∃ b', send value b = Ret b' ∧ ring_inv (mkRing b' S_Idle (sent ++ [value]) clients) ∧
    rb_mask b' = rb_mask b.
Proof.
  intros Hinv Hn. pose proof (ri_producer _ Hinv) as Hprod. cbn in Hprod.
  apply (begin_inv _ _ _ value) in Hinv; [|lia].
  assert (N.of_nat (length (sent ++ [value])) < 2 ^ 62) as Hn' by (rewrite length_app; cbn; lia).
  unfold send. cbn [send_begin fst snd] in Hinv.
  destruct (claimed_inv _ _ _ _ _ Hn' Hinv) as (b1 & E1 & Hinv1). cbn in E1.
  apply bind_Ret_inv in E1 as (odd & Eo & E1). apply bind_Ret_inv in E1 as (b1' & E1 & [= ->]).
  rewrite Eo. cbn. rewrite E1. cbn.
  assert (rb_mask b1 = rb_mask b) as Hmask1.
  { apply bind_Ret_inv in E1 as (vs & _ & [= <-]). done. }
  assert (∀ k, (k ≤ WORDS)%nat → ∃ b2,
    foldM (λ b' i, w ← index (staged_words value) i; store_word (rb_producer b) i w b')
      b1 (seq 0 k) = Ret b2 ∧
    ring_inv (mkRing b2 (S_Writing value (rb_producer b) k) (sent ++ [value]) clients) ∧
    rb_mask b2 = rb_mask b) as Hloop.
  { induction k as [|k IH]; intros Hk; [by exists b1|].
    destruct IH as (b2 & E2 & Hinv2 & Hmask2); [lia|].
    destruct (writing_inv _ _ _ _ _ _ Hinv2) as (b3 & E3 & Hinv3); [lia|]. cbn in E3.
    rewrite (proj2 (Nat.ltb_lt k WORDS)) in E3 by lia.
    apply bind_Ret_inv in E3 as (w & Ew & E3). apply bind_Ret_inv in E3 as (b3' & E3 & [= ->]).
    exists b3. rewrite seq_S, foldM_app, E2. cbn. rewrite Ew. cbn. rewrite E3.
    split_and!; [done|done|]. apply bind_Ret_inv in E3 as (ws & _ & [= <-]). done. }
  destruct (Hloop WORDS) as (b2 & -> & Hinv2 & Hmask2); [done|]. cbn.
  destruct (written_inv _ _ _ _ _ _ Hn' Hinv2) as (b3 & E3 & Hinv3); [done|]. cbn in E3.
  rewrite (proj2 (Nat.ltb_ge WORDS WORDS)) in E3 by done.
  apply bind_Ret_inv in E3 as (even & Ee & E3). apply bind_Ret_inv in E3 as (b3' & E3 & [= ->]).
  rewrite Ee. cbn. rewrite E3. exists b3. split_and!; [done|done|].
  apply bind_Ret_inv in E3 as (vs & _ & [= <-]). done.
Qed.

(** ** Properties *)

(** Events are never torn, reordered or repeated, and the ring never
    panics: while the producer and any number of consumers take their atomic
    accesses in any interleaving, whatever a consumer is handed for a position
    is exactly the value sent at that position, each consumer's positions
    strictly increase, and every access of every thread is in range (for fewer
    than 2^62 events). *)
Theorem events_never_torn n b s :
  channel n = Ret b → rtc ring_step (ring_start b) s → N.of_nat (length (rg_sent s)) < 2 ^ 62 →
  (∀ i c, rg_clients s !! i = Some c →
     (∀ p x, (p, x) ∈ cl_got c → sent_at (rg_sent s) p = Some x) ∧
     StronglySorted N.lt (cl_got c).*1 ∧
     ∃ c', client_next (rg_buffer s) c = Ret c') ∧
  ∃ bp, send_next (rg_buffer s) (rg_sender s) = Ret bp.
Proof.
  intros Hc Hr Hn. pose proof (ring_reachable_inv _ _ _ Hc Hr Hn) as Hinv. split.
  - intros i c Hi. destruct (client_inv _ _ _ Hinv Hn Hi) as (c' & E & _).
    destruct (ri_clients _ Hinv _ _ Hi) as [_ _ _ Hgot Hord].
    split_and!; [intros p x Hin; by apply Hgot|done|by exists c'].
  - destruct (send_inv _ Hinv Hn) as (b' & pc' & E & _). by exists (b', pc').
Qed.

(** [n] calls of [try_recv] in a row. *)
Fixpoint drain (n : nat) (b : RingBuffer) (r : Receiver) : exec (Receiver * list (option T)) :=
  match n with
  | O => Ret (r, [])
  | S n' =>
      out ← try_recv b r;
      rest ← drain n' b out.1;
      Ret (rest.1, out.2 :: rest.2)
  end.

Lemma sends_quiet xs b sent clients :
  ring_inv (mkRing b S_Idle sent clients) → N.of_nat (length sent + length xs) < 2 ^ 62 →
  ∃ b', foldM (λ b x, send x b) b xs = Ret b' ∧
    ring_inv (mkRing b' S_Idle (sent ++ xs) clients) ∧ rb_mask b' = rb_mask b.
Proof.
  revert b sent. induction xs as [|x xs IH]; intros b sent Hinv Hn; cbn in *.
  { exists b. rewrite app_nil_r. by split_and!. }
  destruct (send_quiet _ _ _ x Hinv) as (b1 & -> & Hinv1 & Hmask); [lia|]. cbn.
  destruct (IH _ _ Hinv1) as (b2 & -> & Hinv2 & Hmask2); [rewrite length_app; cbn; lia|].
  exists b2. rewrite <-app_assoc in Hinv2. split_and!; [done|done|congruence].
Qed.

Lemma drain_quiet xs pre b clients r :
  ring_inv (mkRing b S_Idle (pre ++ xs) clients) → N.of_nat (length (pre ++ xs)) < 2 ^ 62 →
  N.of_nat (length xs) ≤ capacity b →
  rc_pos r = N.of_nat (length pre) → rc_laps r ≤ rc_pos r →
  drain (length xs) b r
  = Ret (mkReceiver (N.of_nat (length (pre ++ xs))) (rc_laps r), Some <$> xs).
Proof.
  revert pre r. induction xs as [|x xs IH]; intros pre r Hinv Hn Hcap Hpos Hlaps; cbn [drain length].
  { rewrite app_nil_r, <-Hpos. by destruct r. }
  pose proof Hn as Hn'. rewrite length_app in Hn'. cbn in Hcap, Hn'.
  rewrite (try_recv_quiet _ _ _ _ Hinv Hn) by (rewrite ?length_app; cbn; lia).
  rewrite (proj2 (N.leb_gt _ _)) by (rewrite length_app; cbn; lia).
  rewrite (proj2 (N.leb_le _ _)) by (rewrite length_app; cbn; lia). cbn [mbind exec_bind fst snd].
  change (x :: xs) with ([x] ++ xs) in *. rewrite app_assoc in *.
  rewrite (IH (pre ++ [x])); cbn [rc_pos rc_laps]; try done.
  - cbn. f_equal. f_equal. f_equal. unfold sent_at. rewrite Hpos, Nat2N.id, <-app_assoc.
    by apply list_lookup_middle.
  - lia.
  - rewrite length_app. cbn. lia.
  - lia.
Qed.

(** Nothing is lost within the capacity: a consumer that subscribes while
    the producer is between events and then lets it send at most as many events
    as the ring has slots receives exactly these events, in order. *)
Theorem nothing_lost_within_capacity n b s xs :
  channel n = Ret b → rtc ring_step (ring_start b) s → rg_sender s = S_Idle →
  N.of_nat (length (rg_sent s) + length xs) < 2 ^ 62 →
  N.of_nat (length xs) ≤ capacity (rg_buffer s) →
  ∃ b' r', foldM (λ b x, send x b) (rg_buffer s) xs = Ret b' ∧
    drain (length xs) b' (subscribe (rg_buffer s)) = Ret (r', Some <$> xs).
Proof.
  intros Hc Hr Hidle Hn Hcap.
  assert (ring_inv s) as Hinv by (eapply ring_reachable_inv; [done|done|lia]).
  destruct s as [b0 pc sent clients]. cbn in *. subst pc. pose proof (ri_producer _ Hinv) as Hprod.
  destruct (sends_quiet xs _ _ _ Hinv Hn) as (b' & E & Hinv' & Hmask).
  exists b'. eexists. split; [done|]. eapply drain_quiet; [done| | | |].
  - by rewrite length_app.
  - unfold capacity in *. lia.
  - done.
  - cbn. lia.
Qed.

(** A consumer the producer lapped is told so once and recovers: with the
    producer between events, its next [try_recv] hands out nothing, counts one
    lap and moves half a ring back from the producer, and the one after that
    hands out the event sent there. *)
Theorem lapped_receiver_resyncs n b s i c :
  channel n = Ret b → rtc ring_step (ring_start b) s → N.of_nat (length (rg_sent s)) < 2 ^ 62 →
  rg_sender s = S_Idle → rg_clients s !! i = Some c →
  rc_pos (cl_receiver c) + capacity (rg_buffer s) < N.of_nat (length (rg_sent s)) →
  ∃ r' r'' x, try_recv (rg_buffer s) (cl_receiver c) = Ret (r', None) ∧
    rc_laps r' = rc_laps (cl_receiver c) + 1 ∧
    rc_pos r' + capacity (rg_buffer s) `div` 2 = N.of_nat (length (rg_sent s)) ∧
    try_recv (rg_buffer s) r' = Ret (r'', Some x) ∧ sent_at (rg_sent s) (rc_pos r') = Some x.
Proof.
  intros Hc Hr Hn Hidle Hi Hlap. pose proof (ring_reachable_inv _ _ _ Hc Hr Hn) as Hinv.
  destruct (ri_clients _ Hinv _ _ Hi) as [Hpos Hlaps _ _ _].
  destruct s as [b0 pc sent clients]. cbn in *. subst pc.
  pose proof (bw_two _ (ri_wf _ Hinv)) as Htwo. cbn in Htwo.
  rewrite (try_recv_quiet _ _ _ _ Hinv Hn Hpos Hlaps).
  rewrite (proj2 (N.leb_gt _ _)) by lia. rewrite (proj2 (N.leb_gt _ _)) by lia.
  assert (1 ≤ capacity b0 `div` 2 ∧ capacity b0 `div` 2 ≤ capacity b0) as [Hh1 Hh2].
  { split; [apply N.div_le_lower_bound; lia|apply N.Div0.div_le_upper_bound; lia]. }
  generalize dependent (capacity b0 `div` 2). intros half Hh1 Hh2.
  set (r' := mkReceiver (N.of_nat (length sent) - half) (rc_laps (cl_receiver c) + 1)).
  destruct (lookup_lt_is_Some_2 sent (N.to_nat (rc_pos r'))) as [x Hx]; [cbn; lia|].
  exists r', (mkReceiver (rc_pos r' + 1) (rc_laps r')), x. split_and!; [done|done|cbn; lia| |done].
  rewrite (try_recv_quiet _ _ _ _ Hinv Hn) by (cbn; lia).
  rewrite (proj2 (N.leb_gt _ _)) by (cbn; lia). rewrite (proj2 (N.leb_le _ _)) by (cbn; lia).
  unfold sent_at. by rewrite Hx.
Qed.

End ring.

(** ** Job events on the ring *)

#[export] Instance JobEvent_words : WordSafe JobEvent.
Proof.
  refine {|
    WORDS := JobEvent.WORDS;
    to_words := λ e, [je_run_seq e; je_job_seq e; je_state_code e; je_emitted_at e];
    of_words := λ l, match l with
                     | [a; b; c; d] => mkJobEvent a b c d
                     | _ => mkJobEvent 0 0 0 0
                     end;
  |}.
  - done.
  - by intros [].
Defined.

(** ** Witnesses: the daemon's ring, with four slots *)

Definition demo_event (i : N) : JobEvent := JobEvent.new 1 i JobState.Running (100 * i).

Definition demo_ring : RingBuffer := default (mkRingBuffer 0 [] [] 0 0) (returned (channel (T := JobEvent) 4)).

Definition demo_events : list JobEvent := demo_event <$> [0; 1; 2; 3; 4; 5].

(** A schedule, run. *)
Inductive ring_action :=
  | A_Begin (e : JobEvent)
  | A_Send
  | A_Subscribe
  | A_Recv (i : nat).

Definition ring_act (s : Ring (T := JobEvent)) (a : ring_action) : exec (Ring (T := JobEvent)) :=
  let '(mkRing b pc sent clients) := s in
  match a with
  | A_Begin e =>
      match pc with
      | S_Idle => Ret (mkRing (send_begin e b).1 (send_begin e b).2 (sent ++ [e]) clients)
      | _ => Panic
      end
  | A_Send => r ← send_next b pc; Ret (mkRing r.1 r.2 sent clients)
  | A_Subscribe => Ret (mkRing b pc sent (clients ++ [mkClient (subscribe b) R_Idle []]))
  | A_Recv i => c ← index clients i; c' ← client_next b c; Ret (mkRing b pc sent (<[i := c']> clients))
  end.

Lemma ring_act_step s a s' : ring_act s a = Ret s' → ring_step s s'.
Proof.
  destruct s as [b pc sent clients], a; cbn.
  - destruct pc; [|done|done]. intros [= <-]. constructor.
  - intros ([b' pc'] & E & [= <-])%bind_Ret_inv. by constructor.
  - intros [= <-]. constructor.
  - intros (c & Hc%index_Ret & E)%bind_Ret_inv. apply bind_Ret_inv in E as (c' & E & [= <-]).
    by econstructor.
Qed.

Lemma ring_acts_rtc l s s' : foldM ring_act s l = Ret s' → rtc ring_step s s'.
Proof.
  revert s. induction l as [|a l IH]; cbn; intros s.
  - by intros [= ->].
  - intros (s1 & E%ring_act_step & ?%IH)%bind_Ret_inv. by eapply rtc_l.
Qed.

(** A consumer reads the first event while the second is being written. *)
Definition demo_schedule : list ring_action :=
  [A_Subscribe; A_Begin (demo_event 0)] ++ replicate 6 A_Send ++
  [A_Recv 0; A_Begin (demo_event 1)] ++ concat (replicate 6 [A_Recv 0; A_Send]).

Definition demo_torn : Ring :=
  default (ring_start demo_ring) (returned (foldM ring_act (ring_start demo_ring) demo_schedule)).

(** A consumer that slept while six events went through four slots. *)
Definition demo_lapped : Ring :=
  default (ring_start demo_ring) (returned (foldM ring_act (ring_start demo_ring)
    (A_Subscribe :: demo_events ≫= λ e, A_Begin e :: replicate 6 A_Send))).

Lemma demo_channel : channel 4 = Ret demo_ring.
Proof. vm_compute. reflexivity. Qed.

Lemma demo_torn_rtc : rtc ring_step (ring_start demo_ring) demo_torn.
Proof. apply (ring_acts_rtc demo_schedule). vm_compute. reflexivity. Qed.

Lemma demo_lapped_rtc : rtc ring_step (ring_start demo_ring) demo_lapped.
Proof.
  apply (ring_acts_rtc (A_Subscribe :: demo_events ≫= λ e, A_Begin e :: replicate 6 A_Send)).
  vm_compute. reflexivity.
Qed.

Lemma events_never_torn_witness :
  cl_got <$> rg_clients demo_torn = [[(0, demo_event 0)]] ∧
  sent_at (rg_sent demo_torn) 0 = Some (demo_event 0).
Proof.
  split; [vm_compute; reflexivity|].
  destruct (events_never_torn 4 demo_ring demo_torn demo_channel demo_torn_rtc) as [H _];
    [vm_compute; reflexivity|].
  destruct (rg_clients demo_torn) as [|c l] eqn:E; [exfalso; vm_compute in E; discriminate|].
  destruct (H 0%nat c eq_refl) as [Hgot _]. apply Hgot. vm_compute in E.
  injection E as <- <-. left.
Defined.

Lemma nothing_lost_within_capacity_witness :
  ∃ b' r', foldM (λ b x, send x b) (rg_buffer demo_lapped) (take 4 demo_events) = Ret b' ∧
    drain 4 b' (subscribe (rg_buffer demo_lapped)) = Ret (r', Some <$> take 4 demo_events).
Proof.
  apply (nothing_lost_within_capacity 4 demo_ring demo_lapped (take 4 demo_events) demo_channel
    demo_lapped_rtc); vm_compute; (reflexivity || discriminate).
Defined.

Lemma lapped_receiver_resyncs_witness :
  ∃ r' r'' x, try_recv (rg_buffer demo_lapped) (mkReceiver 0 0) = Ret (r', None) ∧
    try_recv (rg_buffer demo_lapped) r' = Ret (r'', Some x) ∧ x = demo_event 4.
Proof.
  destruct (lapped_receiver_resyncs 4 demo_ring demo_lapped 0 (mkClient (mkReceiver 0 0) R_Idle [])
    demo_channel demo_lapped_rtc) as (r' & r'' & x & E & Hlaps & Hpos & E' & Hx);
    [vm_compute; reflexivity..|].
  exists r', r'', x. split; [exact E|]. split; [exact E'|].
  vm_compute in E. injection E as <-. vm_compute in Hx. injection Hx as <-. vm_compute. reflexivity.
Defined.
