(* ===== verification/Weak.v ===== *)
(** * Relaxed memory with one writing thread

    The atomics of Rust and C++ (relaxed, release and acquire accesses and the
    two fences), for memory that one thread writes and any number of threads
    read, which is how [broadcast.rs] uses them.  With a single writer the
    order of its stores is the modification order of every location at once, so
    what a thread knows about that thread's past is a prefix of one history.

    A load may return any store the reader is not forbidden to go back behind:
    the last one of that location among the stores it knows, or the one it read
    there before.  A store publishes the prefix that a reader knows after it
    synchronises with it: itself and all before it when it is a release store,
    what preceded the writer's last release fence when it is relaxed.  An
    acquire load synchronises at once, a relaxed one at the next acquire fence.
    The writer reads no location but its own last stores and readers store
    nothing, so no load can depend on a store after it: executions with
    cycles through such dependences do not arise. *)

From S2P Require Import Prelude.

Section memory.
Context {L : Type} `{EqDecision L}.

(** ** The writer *)

Record message := mkMessage { ms_loc : L; ms_value : N; ms_publishes : nat }.

(** Its stores, oldest first, and how many preceded its last release fence. *)
Record Writer := mkWriter { wr_history : list message; wr_fence : nat }.

Definition store_relaxed (l : L) (v : N) (w : Writer) : Writer :=
  mkWriter (wr_history w ++ [mkMessage l v (wr_fence w)]) (wr_fence w).

Definition store_release (l : L) (v : N) (w : Writer) : Writer :=
  mkWriter (wr_history w ++ [mkMessage l v (S (length (wr_history w)))]) (wr_fence w).

Definition release_fence (w : Writer) : Writer := mkWriter (wr_history w) (length (wr_history w)).

(** ** Readers

    Time 0 is a location's initial value, time [S k] the history's store [k]. *)

Record View := mkView {
  vw_known : nat;          (* the stores before it happened before *)
  vw_seen : L → nat;       (* per location, the time last read *)
  vw_pending : nat;        (* known after the next acquire fence *)
}.

(** A thread that knows nothing yet. *)
Definition blank : View := mkView 0 (λ _, 0%nat) 0.

(** The time of the last store to [l] among the first [n]. *)
Fixpoint floor (history : list message) (l : L) (n : nat) : nat :=
  match n with
  | O => 0
  | S n' =>
      match history !! n' with
      | Some m => if decide (ms_loc m = l) then S n' else floor history l n'
      | None => floor history l n'
      end
  end.

Variable init : L → N.

(** The value at a time, and what reading it publishes. *)
Definition at_time (history : list message) (l : L) (t : nat) : option (N * nat) :=
  match t with
  | O => Some (init l, 0%nat)
  | S k => m ← history !! k; if decide (ms_loc m = l) then Some (ms_value m, ms_publishes m) else None
  end.

(** A load that returns what [l] held at time [t], if the reader may. *)
Definition load_relaxed (history : list message) (l : L) (t : nat) (w : View) : option (N * View) :=
  if decide (vw_seen w l ≤ t ∧ floor history l (vw_known w) ≤ t)%nat then
    vp ← at_time history l t;
    Some (vp.1, mkView (vw_known w) (λ l', if decide (l' = l) then t else vw_seen w l')
                  (vw_pending w `max` vp.2))
  else None.

Definition load_acquire (history : list message) (l : L) (t : nat) (w : View) : option (N * View) :=
  vp ← at_time history l t;
  r ← load_relaxed history l t w;
  Some (r.1, mkView (vw_known r.2 `max` vp.2) (vw_seen r.2) (vw_pending r.2)).

Definition acquire_fence (w : View) : View := mkView (vw_known w `max` vw_pending w) (vw_seen w) (vw_pending w).

(** ** Facts *)

Lemma floor_ge history l n k m :
  (k < n)%nat → history !! k = Some m → ms_loc m = l → (S k ≤ floor history l n)%nat.
Proof.
  intros Hk Hm Hl. induction n as [|n IH]; [lia|]. cbn.
  destruct (decide (k = n)) as [->|Hne]; [rewrite Hm, decide_True by done; lia|].
  destruct (history !! n) as [m'|]; [case_decide|]; [lia | apply IH; lia..].
Qed.

(** What a successful load says: the value is of a time the reader may see. *)
Lemma load_relaxed_Some history l t w v w' :
  load_relaxed history l t w = Some (v, w') →
  ∃ p, at_time history l t = Some (v, p) ∧ (floor history l (vw_known w) ≤ t)%nat ∧
    vw_known w' = vw_known w ∧ vw_pending w' = (vw_pending w `max` p)%nat.
Proof.
  unfold load_relaxed. case_decide as Hd; [|done]. destruct (at_time history l t) as [[v' p]|]; [|done].
  cbn. intros [= <- <-]. exists p. by split_and!; [| apply Hd | |].
Qed.

Lemma load_acquire_Some history l t w v w' :
  load_acquire history l t w = Some (v, w') →
  ∃ p, at_time history l t = Some (v, p) ∧ (floor history l (vw_known w) ≤ t)%nat ∧
    vw_known w' = (vw_known w `max` p)%nat ∧ vw_pending w' = (vw_pending w `max` p)%nat.
Proof.
  unfold load_acquire. destruct (at_time history l t) as [[v' p]|] eqn:E; [|done]. cbn.
  destruct (load_relaxed history l t w) as [[u w1]|] eqn:El; [|done]. cbn. intros [= <- <-].
  destruct (load_relaxed_Some _ _ _ _ _ _ El) as (q & Eq & ? & Hk & Hp). rewrite E in Eq. injection Eq as -> ->.
  exists q. cbn. by rewrite Hk, Hp.
Qed.

(** A store at or after the floor is later than every known one. *)
Lemma at_time_S history l t v p :
  at_time history l t = Some (v, p) →
  (t = 0%nat ∧ v = init l ∧ p = 0%nat) ∨
  ∃ k m, t = S k ∧ history !! k = Some m ∧ ms_loc m = l ∧ v = ms_value m ∧ p = ms_publishes m.
Proof.
  destruct t as [|k]; cbn; [intros [= <- <-]; by left|]. destruct (history !! k) as [m|] eqn:E; [|done].
  cbn. case_decide as Hl; [|done]. intros [= <- <-]. right. eauto 10.
Qed.

Lemma at_time_floor history l n : is_Some (at_time history l (floor history l n)).
Proof.
  induction n as [|n IH]; cbn; [by eexists|].
  destruct (history !! n) as [m|] eqn:E; [|done]. case_decide as Hl; [|done]. cbn. rewrite E. cbn.
  rewrite decide_True by done. by eexists.
Qed.

Lemma floor_mono history l a b : (a ≤ b)%nat → (floor history l a ≤ floor history l b)%nat.
Proof.
  intros Hab. induction Hab as [|b Hab IH]; [done|]. cbn.
  assert (floor history l b ≤ b)%nat as Hle.
  { clear. induction b as [|b IH]; cbn; [done|]. destruct (history !! b); [case_decide|]; lia. }
  destruct (history !! b); [case_decide|]; lia.
Qed.

Lemma floor_app history history' l n :
  (n ≤ length history)%nat → floor (history ++ history') l n = floor history l n.
Proof.
  induction n as [|n IH]; intros Hn; [done|]. cbn. rewrite lookup_app_l by lia. rewrite IH by lia. done.
Qed.

(** No store is later than the last one. *)
Lemma at_time_le_floor history l t vp :
  at_time history l t = Some vp → (t ≤ floor history l (length history))%nat.
Proof.
  destruct vp as [v p]. intros [(-> & _)|(k & m & -> & Hm & Hl & _)]%at_time_S; [lia|].
  apply (floor_ge _ _ _ _ m); [by eapply lookup_lt_Some | done..].
Qed.

(** A view of stores that are there. *)
Record view_ok (history : list message) (w : View) : Prop := {
  vo_known : (vw_known w ≤ length history)%nat;
  vo_pending : (vw_pending w ≤ length history)%nat;
  vo_seen : ∀ l, (vw_seen w l ≤ floor history l (length history))%nat;
}.

Definition published (history : list message) : Prop :=
  ∀ k m, history !! k = Some m → (ms_publishes m ≤ S k)%nat.

Lemma at_time_published history l t v p :
  published history → at_time history l t = Some (v, p) → (p ≤ length history)%nat.
Proof.
  intros Hp [(_ & _ & ->)|(k & m & _ & Hm & _ & _ & ->)]%at_time_S; [lia|].
  pose proof (Hp _ _ Hm). apply lookup_lt_Some in Hm. lia.
Qed.

Lemma view_ok_blank history : view_ok history blank.
Proof. split; cbn; lia. Qed.

Lemma view_ok_grow history history' w : history `prefix_of` history' → view_ok history w → view_ok history' w.
Proof.
  intros [more ->] [Hk Hp Hs]. split; rewrite ?length_app; [lia | lia |]. intros l.
  etrans; [apply Hs|]. rewrite <-(floor_app history more l (length history)) by done. apply floor_mono. lia.
Qed.

Lemma load_relaxed_ok history l t w v w' :
  published history → view_ok history w → load_relaxed history l t w = Some (v, w') → view_ok history w'.
Proof.
  intros Hpub [Hk Hp Hs]. unfold load_relaxed. case_decide; [|done].
  destruct (at_time history l t) as [[u p]|] eqn:E; [|done]. cbn. intros [= _ <-].
  pose proof (at_time_published _ _ _ _ _ Hpub E). split; cbn; [done | lia |].
  intros l'. case_decide as Hl; [subst l'; by eapply at_time_le_floor | done].
Qed.

Lemma load_acquire_ok history l t w v w' :
  published history → view_ok history w → load_acquire history l t w = Some (v, w') → view_ok history w'.
Proof.
  intros Hpub Hw. unfold load_acquire. destruct (at_time history l t) as [[u p]|] eqn:E; [|done]. cbn.
  destruct (load_relaxed history l t w) as [[u' w1]|] eqn:El; [|done]. cbn. intros [= _ <-].
  pose proof (at_time_published _ _ _ _ _ Hpub E). destruct (load_relaxed_ok _ _ _ _ _ _ Hpub Hw El).
  split; cbn; [lia | done | done].
Qed.

Lemma acquire_fence_ok history w : view_ok history w → view_ok history (acquire_fence w).
Proof. intros [Hk Hp Hs]. split; cbn; [lia | done | done]. Qed.

(** There is always something to read: the latest store. *)
Lemma load_latest history l w :
  view_ok history w → is_Some (load_relaxed history l (floor history l (length history)) w).
Proof.
  intros [Hk Hp Hs]. pose proof (floor_mono history l _ _ Hk). specialize (Hs l).
  unfold load_relaxed. rewrite decide_True by done.
  destruct (at_time_floor history l (length history)) as [vp ->]. by eexists.
Qed.

Lemma acquire_latest history l w :
  view_ok history w → is_Some (load_acquire history l (floor history l (length history)) w).
Proof.
  intros Hw. destruct (load_latest history l w Hw) as [r Hr]. unfold load_acquire. rewrite Hr.
  destruct (at_time_floor history l (length history)) as [vp ->]. by eexists.
Qed.

End memory.
Arguments message : clear implicits.
Arguments Writer : clear implicits.
Arguments View : clear implicits.
