(* ===== verification/Seqlock.v ===== *)
(** * The event ring on relaxed memory: [src/broadcast.rs]

    The same [send] and [try_recv] as in [Broadcast.v], every access with the
    ordering the source gives it and both fences, on the memory of [Weak.v]: a
    receiver may read stale words, stale versions and a stale cursor.  What a
    receiver is handed is nevertheless an event as it was sent. *)

From S2P Require Import Prelude Spec Pool Handle Model Broadcast Weak.

#[local] Arguments Nat.ltb : simpl never.
#[local] Arguments replicate : simpl never.

Section seqlock.
Context {T : Type} `{WordSafe T}.

(** The ring as [channel] made it: its geometry, and its initial contents. *)
Variable b : RingBuffer.

Inductive place : Type := Version (slot : nat) | Word (n : nat) | Cursor.

#[export] Instance place_eq_dec : EqDecision place.
Proof. solve_decision. Defined.

Definition initial (l : place) : N :=
  match l with
  | Version slot => default 0 (rb_versions b !! slot)
  | Word n => default 0 (rb_words b !! n)
  | Cursor => rb_producer b
  end.

(** [versions[slot]] and [words[word_base + i]]: out of range, a panic. *)
Definition version_place (pos : N) : exec place :=
  _ ← index (rb_versions b) (N.to_nat (rb_slot b pos)); Ret (Version (N.to_nat (rb_slot b pos))).
Definition word_place (pos : N) (i : nat) : exec place :=
  _ ← index (rb_words b) (rb_word b pos i); Ret (Word (rb_word b pos i)).

(** ** [send] *)

Inductive sending :=
  | SIdle
  | SClaimed (value : T) (pos : N)       (* the cursor is past [pos] *)
  | SOdd (value : T) (pos : N)           (* the odd version is stored *)
  | SWriting (value : T) (pos : N) (i : nat).

(** The writer's own view of the cursor is its latest value. *)
Definition cursor (w : Writer place) : N :=
  match at_time initial (wr_history w) Cursor (floor (wr_history w) Cursor (length (wr_history w))) with
  | Some (v, _) => v
  | None => 0
  end.

(** [fetch_add(1, Relaxed)] *)
Definition weak_begin (value : T) (w : Writer place) : Writer place * sending :=
  (store_relaxed Cursor (fetch_add (cursor w) 1) w, SClaimed value (cursor w)).

Definition weak_send (w : Writer place) (pc : sending) : exec (Writer place * sending) :=
  match pc with
  | SIdle => Ret (w, SIdle)
  | SClaimed value pos =>
      odd ← version pos 1;
      l ← version_place pos;
      Ret (store_relaxed l odd w, SOdd value pos)
  | SOdd value pos => Ret (release_fence w, SWriting value pos 0)
  | SWriting value pos i =>
      if (i <? WORDS)%nat then
        x ← index (staged_words value) i;
        l ← word_place pos i;
        Ret (store_relaxed l x w, SWriting value pos (S i))
      else
        even ← version pos 2;
        l ← version_place pos;
        Ret (store_release l even w, SIdle)
  end.

(** ** [try_recv] *)

Inductive receiving :=
  | RIdle
  | RReading (v1 : N) (i : nat) (staged : list N)
  | RFenced (v1 : N) (staged : list N)   (* after the acquire fence *)
  | RLapped.

(** A receiver, where its [try_recv] stands, its thread's view, and, for the
    statements, what it was handed for which position. *)
Record Reader := mkReader {
  rd_receiver : Receiver;
  rd_pc : receiving;
  rd_view : View place;
  rd_got : list (N * T);
}.

Definition hand (r : Receiver) (pc : receiving) (view : View place) (out : option T) (c : Reader) : Reader :=
  mkReader r pc view (rd_got c ++ match out with Some x => [(rc_pos (rd_receiver c), x)] | None => [] end).

(** The next access of a reader, a load returning what its place held at time
    [t]; [None] when it may not. *)
Definition weak_recv (history : list (message place)) (t : nat) (c : Reader) : exec (option Reader) :=
  let r := rd_receiver c in
  let view := rd_view c in
  match rd_pc c with
  | RIdle =>
      want ← version (rc_pos r) 2;
      l ← version_place (rc_pos r);
      match load_acquire initial history l t view with
      | None => Ret None
      | Some (v1, view') =>
          if v1 <? want then Ret (Some (hand r RIdle view' None c))
          else if want <? v1 then Ret (Some (hand r RLapped view' None c))
          else Ret (Some (hand r (RReading v1 0 (replicate MAX_STAGING_WORDS 0)) view' None c))
      end
  | RReading v1 i staged =>
      if (i <? WORDS)%nat then
        l ← word_place (rc_pos r) i;
        match load_relaxed initial history l t view with
        | None => Ret None
        | Some (x, view') =>
            staged' ← index_mut staged i (λ _, Ret x);
            Ret (Some (hand r (RReading v1 (S i) staged') view' None c))
        end
      else Ret (Some (hand r (RFenced v1 staged) (acquire_fence view) None c))
  | RFenced v1 staged =>
      l ← version_place (rc_pos r);
      match load_relaxed initial history l t view with
      | None => Ret None
      | Some (v2, view') =>
          if decide (v1 = v2) then
            pos ← checked_add u64_max (rc_pos r) 1;
            Ret (Some (hand (mkReceiver pos (rc_laps r)) RIdle view' (Some (of_words (take WORDS staged))) c))
          else Ret (Some (hand r RIdle view' None c))
      end
  | RLapped =>
      laps ← checked_add u64_max (rc_laps r) 1;
      match load_relaxed initial history Cursor t view with
      | None => Ret None
      | Some (producer_pos, view') =>
          let capacity := rb_mask b + 1 in
          Ret (Some (hand (mkReceiver (saturating_sub producer_pos (capacity `div` 2)) laps) RIdle view' None c))
      end
  end.

(** [subscribe], on any thread: the cursor at a time that thread may see. *)
Definition weak_subscribe (history : list (message place)) (t : nat) (view : View place) : option Reader :=
  r ← load_relaxed initial history Cursor t view;
  Some (mkReader (mkReceiver r.1 0) RIdle r.2 []).

(** ** The ring at work *)

Record WeakRing := mkWeakRing {
  wk_writer : Writer place;
  wk_sender : sending;
  wk_sent : list T;            (* for the statements: the values sent, by position *)
  wk_readers : list Reader;
}.

(** A reader's thread synchronises with the sender's by other means (a lock, a
    join, a flag): it knows the first [n] stores from then on. *)
Definition synchronise (n : nat) (c : Reader) : Reader :=
  mkReader (rd_receiver c) (rd_pc c)
    (mkView (vw_known (rd_view c) `max` n) (vw_seen (rd_view c)) (vw_pending (rd_view c))) (rd_got c).

Inductive weak_step : WeakRing → WeakRing → Prop :=
  | weak_step_begin value w sent readers :
      weak_step (mkWeakRing w SIdle sent readers)
        (mkWeakRing (weak_begin value w).1 (weak_begin value w).2 (sent ++ [value]) readers)
  | weak_step_send w pc w' pc' sent readers :
      weak_send w pc = Ret (w', pc') →
      weak_step (mkWeakRing w pc sent readers) (mkWeakRing w' pc' sent readers)
  | weak_step_subscribe w pc sent readers t c :
      weak_subscribe (wr_history w) t blank = Some c →
      weak_step (mkWeakRing w pc sent readers) (mkWeakRing w pc sent (readers ++ [c]))
  | weak_step_recv w pc sent readers t i c c' :
      readers !! i = Some c → weak_recv (wr_history w) t c = Ret (Some c') →
      weak_step (mkWeakRing w pc sent readers) (mkWeakRing w pc sent (<[i := c']> readers))
  | weak_step_synchronise w pc sent readers n i c :
      readers !! i = Some c → (n ≤ length (wr_history w))%nat →
      weak_step (mkWeakRing w pc sent readers) (mkWeakRing w pc sent (<[i := synchronise n c]> readers)).

Definition weak_start : WeakRing := mkWeakRing (mkWriter [] 0) SIdle [] [].

(** ** The history a course of sends leaves

    A send stores its cursor, its odd version, its words and its even version:
    a block of [block] stores, so that store [p * block + j] is number [j] of
    the send of position [p]. *)

Definition block : nat := WORDS + 3.

(** The writer's last release fence when the send of [p] begins. *)
Definition fence_before (p : nat) : nat := match p with O => 0 | S p' => p' * block + 2 end.

Definition slot_at (p : nat) : nat := N.to_nat (rb_slot b (N.of_nat p)).

(** Store [j] of the send of [x] at position [p]. *)
Definition entry (x : T) (p j : nat) : message place :=
  if decide (j = 0)%nat then mkMessage Cursor (N.of_nat p + 1) (fence_before p)
  else if decide (j = 1)%nat then mkMessage (Version (slot_at p)) (2 * N.of_nat p + 1) (fence_before p)
  else if decide (j < WORDS + 2)%nat then
    mkMessage (Word (rb_word b (N.of_nat p) (j - 2))) (default 0 (to_words x !! (j - 2)%nat)) (p * block + 2)
  else mkMessage (Version (slot_at p)) (2 * N.of_nat p + 2) (p * block + block).

Definition history_ok (sent : list T) (history : list (message place)) : Prop :=
  ∀ k m, history !! k = Some m →
    ∃ p j x, k = (p * block + j)%nat ∧ (j < block)%nat ∧ sent !! p = Some x ∧ m = entry x p j.

(** How far the writer has come. *)
Definition sender_at (pc : sending) (sent : list T) (w : Writer place) : Prop :=
  match pc with
  | SIdle => length (wr_history w) = (length sent * block)%nat ∧ wr_fence w = fence_before (length sent)
  | SClaimed x pos =>
      ∃ p, pos = N.of_nat p ∧ length sent = S p ∧ sent !! p = Some x ∧
        length (wr_history w) = (p * block + 1)%nat ∧ wr_fence w = fence_before p
  | SOdd x pos =>
      ∃ p, pos = N.of_nat p ∧ length sent = S p ∧ sent !! p = Some x ∧
        length (wr_history w) = (p * block + 2)%nat ∧ wr_fence w = fence_before p
  | SWriting x pos i =>
      ∃ p, pos = N.of_nat p ∧ length sent = S p ∧ sent !! p = Some x ∧ (i ≤ WORDS)%nat ∧
        length (wr_history w) = (p * block + 2 + i)%nat ∧ wr_fence w = (p * block + 2)%nat
  end.

(** The words staged are those of the event sent at [pos], so far. *)
Definition staged_ok (sent : list T) (pos : N) (n : nat) (staged : list N) : Prop :=
  ∃ x, sent !! N.to_nat pos = Some x ∧ ∀ j v, (j < n)%nat → to_words x !! j = Some v → staged !! j = Some v.

(** The store that opens the slot of [pos] for the next lap is known from here on. *)
Definition next_lap (pos : N) : nat := (N.to_nat (pos + capacity b)) * block + 2.

Record reader_ok (sent : list T) (history : list (message place)) (c : Reader) : Prop := {
  ro_pos : rc_pos (rd_receiver c) ≤ N.of_nat (length sent);
  ro_laps : rc_laps (rd_receiver c) ≤ rc_pos (rd_receiver c);
  ro_view : view_ok history (rd_view c);
  ro_pc :
    let pos := rc_pos (rd_receiver c) in
    match rd_pc c with
    | RIdle => True
    | RReading v1 i staged =>
        v1 = 2 * pos + 2 ∧ (i ≤ WORDS)%nat ∧ length staged = MAX_STAGING_WORDS ∧
        (N.to_nat pos * block + block ≤ vw_known (rd_view c))%nat ∧
        is_Some (sent !! N.to_nat pos) ∧
        ((next_lap pos ≤ vw_pending (rd_view c))%nat ∨ staged_ok sent pos i staged)
    | RFenced v1 staged =>
        v1 = 2 * pos + 2 ∧ length staged = MAX_STAGING_WORDS ∧
        (N.to_nat pos * block + block ≤ vw_known (rd_view c))%nat ∧
        is_Some (sent !! N.to_nat pos) ∧
        ((next_lap pos ≤ vw_known (rd_view c))%nat ∨ staged_ok sent pos WORDS staged)
    | RLapped => (N.to_nat (pos + capacity b - 1) * block + 1 ≤ vw_known (rd_view c))%nat
    end;
  ro_got : ∀ p x, (p, x) ∈ rd_got c → sent !! N.to_nat p = Some x ∧ p < rc_pos (rd_receiver c);
  ro_order : StronglySorted N.lt (rd_got c).*1;
}.

Record weak_inv (s : WeakRing) : Prop := {
  wi_history : history_ok (wk_sent s) (wr_history (wk_writer s));
  wi_sender : sender_at (wk_sender s) (wk_sent s) (wk_writer s);
  wi_readers : ∀ i c, wk_readers s !! i = Some c → reader_ok (wk_sent s) (wr_history (wk_writer s)) c;
}.

(** ** What the places held *)

(** A ring nobody has used. *)
Record fresh : Prop := {
  fr_wf : buffer_wf b;
  fr_producer : rb_producer b = 0;
  fr_versions : ∀ s v, rb_versions b !! s = Some v → v = 2 * N.of_nat s;
}.
Hypothesis Hfresh : fresh.

Lemma block_unique p j p' j' :
  (j < block)%nat → (j' < block)%nat → (p * block + j = p' * block + j')%nat → p = p' ∧ j = j'.
Proof using. intros Hj Hj' E. assert (p < p' ∨ p = p' ∨ p' < p)%nat as [?|[->|?]] by lia; [nia | lia | nia]. Qed.

Lemma entry_at sent history p j x :
  history_ok sent history → (p * block + j < length history)%nat → (j < block)%nat → sent !! p = Some x →
  history !! (p * block + j)%nat = Some (entry x p j).
Proof using.
  intros Hh [m Hm]%lookup_lt_is_Some Hj Hx. destruct (Hh _ _ Hm) as (p' & j' & x' & E & Hj' & Hx' & ->).
  apply block_unique in E as [<- <-]; [|done..]. congruence.
Qed.

(** A store of the history happened to a known send. *)
Lemma sent_before sent history p j :
  history_ok sent history → (p * block + j < length history)%nat → (j < block)%nat → is_Some (sent !! p).
Proof using.
  intros Hh [m Hm]%lookup_lt_is_Some Hj. destruct (Hh _ _ Hm) as (p' & j' & x' & E & Hj' & Hx' & _).
  apply block_unique in E as [<- _]; [|done..]. eauto.
Qed.

Lemma slot_mod q pos :
  slot_at q = N.to_nat (rb_slot b pos) → N.of_nat q `mod` capacity b = pos `mod` capacity b.
Proof using Hfresh.
  destruct Hfresh as [Hwf _ _]. unfold slot_at. rewrite !rb_slot_mod by done. lia.
Qed.

(** Two positions of one slot are a lap apart. *)
Lemma same_slot q pos :
  slot_at q = N.to_nat (rb_slot b pos) → pos < N.of_nat q → pos + capacity b ≤ N.of_nat q.
Proof using Hfresh.
  intros E%slot_mod Hlt. apply mod_gap; [|by symmetry|done]. destruct Hfresh as [[] _ _]. lia.
Qed.

Lemma version_read sent history pos t v p :
  history_ok sent history → at_time initial history (Version (N.to_nat (rb_slot b pos))) t = Some (v, p) →
  (t = 0%nat ∧ v ≤ 2 * pos) ∨
  ∃ q x, sent !! q = Some x ∧ slot_at q = N.to_nat (rb_slot b pos) ∧
    ((t = S (q * block + 1) ∧ v = 2 * N.of_nat q + 1 ∧ p = fence_before q) ∨
     (t = S (q * block + (WORDS + 2)) ∧ v = 2 * N.of_nat q + 2 ∧ p = (q * block + block)%nat)).
Proof using Hfresh.
  intros Hh [(-> & -> & ->)|(k & m & -> & Hm & Hl & -> & ->)]%at_time_S.
  - left. split; [done|]. cbn. destruct Hfresh as [Hwf _ Hv].
    destruct (rb_versions b !! N.to_nat (rb_slot b pos)) as [v|] eqn:E; cbn; [|lia].
    rewrite (Hv _ _ E), N2Nat.id, rb_slot_mod by done. destruct Hwf. pose proof (N.Div0.mod_le pos (capacity b)). lia.
  - right. destruct (Hh _ _ Hm) as (q & j & x & -> & Hj & Hx & ->). exists q, x. split; [done|].
    unfold entry, block in *. repeat case_decide; cbn in Hl; simplify_eq; cbn.
    + split; [done|]. left. by split_and!.
    + split; [done|]. right. split_and!; [|done..]. f_equal. lia.
Qed.

Lemma word_read sent history pos i t v p :
  history_ok sent history → (i < WORDS)%nat → at_time initial history (Word (rb_word b pos i)) t = Some (v, p) →
  t = 0%nat ∨
  ∃ q x, sent !! q = Some x ∧ slot_at q = N.to_nat (rb_slot b pos) ∧ t = S (q * block + 2 + i) ∧
    v = default 0 (to_words x !! i) ∧ p = (q * block + 2)%nat.
Proof using Hfresh.
  intros Hh Hi [(-> & _ & _)|(k & m & -> & Hm & Hl & -> & ->)]%at_time_S; [by left|].
  right. destruct (Hh _ _ Hm) as (q & j & x & -> & Hj & Hx & ->). exists q, x. split; [done|].
  unfold entry in *. repeat case_decide; cbn in Hl; try done. injection Hl as Hl. cbn.
  destruct (word_of_inj b (rb_slot b (N.of_nat q)) (j - 2) (rb_slot b pos) i) as [Es Ei]; [apply Hfresh | lia | done | done |].
  unfold slot_at. rewrite Es. split_and!; [done | lia | by rewrite Ei | done].
Qed.

Lemma cursor_read sent history t v p :
  history_ok sent history → at_time initial history Cursor t = Some (v, p) →
  (t = 0%nat ∧ v = 0) ∨
  ∃ q x, sent !! q = Some x ∧ t = S (q * block) ∧ v = N.of_nat q + 1 ∧ p = fence_before q.
Proof using Hfresh.
  intros Hh [(-> & -> & _)|(k & m & -> & Hm & Hl & -> & ->)]%at_time_S; [left; by split; [|apply Hfresh]|].
  right. destruct (Hh _ _ Hm) as (q & j & x & -> & Hj & Hx & ->). exists q, x. split; [done|].
  unfold entry in *. repeat case_decide; cbn in Hl; try done. subst j. cbn. by rewrite Nat.add_0_r.
Qed.

(** A version, or the cursor, known to be stored hides all before it. *)
Lemma floor_entry sent history l n p j x :
  history_ok sent history → (p * block + j < n)%nat → (n ≤ length history)%nat → (j < block)%nat →
  sent !! p = Some x → ms_loc (entry x p j) = l → (S (p * block + j) ≤ floor history l n)%nat.
Proof using.
  intros Hh Hn Hlen Hj Hx Hl. apply (floor_ge _ _ _ _ (entry x p j)); [done | | done].
  apply (entry_at sent); [done | lia | done | done].
Qed.

(** What a message publishes, is there. *)
Lemma history_published sent history : history_ok sent history → published history.
Proof using.
  intros Hh k m Hm. destruct (Hh _ _ Hm) as (q & j & x & -> & Hj & Hx & ->). unfold entry.
  assert (fence_before q ≤ q * block)%nat as Hf by (unfold fence_before, block; destruct q; cbn; lia).
  unfold block in *. repeat case_decide; cbn; lia.
Qed.

(** ** The sender *)

Lemma history_stored sent history p j x m :
  history_ok sent history → length history = (p * block + j)%nat → (j < block)%nat → sent !! p = Some x →
  m = entry x p j → history_ok sent (history ++ [m]).
Proof using.
  intros Hh Hlen Hj Hx Em k m' [Hm|[Hk Hm]]%lookup_app_Some; [by apply Hh|].
  destruct (k - length history)%nat as [|n] eqn:E; [|by destruct n]. injection Hm as <-. subst m. exists p, j, x.
  split_and!; [lia | done..].
Qed.

Lemma history_sent sent history x : history_ok sent history → history_ok (sent ++ [x]) history.
Proof using.
  intros Hh k m Hm. destruct (Hh _ _ Hm) as (p & j & y & ? & ? & ? & ?). exists p, j, y.
  split_and!; try done. by apply lookup_app_l_Some.
Qed.

Lemma cursor_at sent w :
  history_ok sent (wr_history w) → length (wr_history w) = (length sent * block)%nat → cursor w = N.of_nat (length sent).
Proof using Hfresh.
  intros Hh Hlen. unfold cursor.
  destruct (at_time_floor initial (wr_history w) Cursor (length (wr_history w))) as [[v p] E]. rewrite E.
  assert (∀ n, length sent = S n → (S (n * block + 0) ≤ floor (wr_history w) Cursor (length (wr_history w)))%nat) as Hfl.
  { intros n Hn. destruct (lookup_lt_is_Some_2 sent n) as [x Hx]; [lia|].
    apply (floor_entry sent _ _ _ _ _ x); [done | rewrite Hlen, Hn; unfold block; lia | done | unfold block; lia | done | done]. }
  destruct (cursor_read _ _ _ _ _ Hh E) as [[Et ->]|(q & x & Hq%lookup_lt_Some & Et & -> & _)].
  - destruct (length sent) as [|n]; [done|]. specialize (Hfl n eq_refl). lia.
  - destruct (length sent) as [|n] eqn:En; [lia|]. specialize (Hfl n eq_refl).
    assert (n ≤ q)%nat by (unfold block in *; nia). lia.
Qed.

Lemma weak_begin_inv sent w x :
  N.of_nat (length sent) < 2 ^ 62 → history_ok sent (wr_history w) → sender_at SIdle sent w →
  let '(w', pc) := weak_begin x w in
  history_ok (sent ++ [x]) (wr_history w') ∧ sender_at pc (sent ++ [x]) w' ∧ wr_history w `prefix_of` wr_history w'.
Proof using Hfresh.
  intros Hn Hh [Hlen Hf]. unfold weak_begin. rewrite (cursor_at sent) by done. cbn.
  split_and!.
  - apply (history_stored _ _ (length sent) 0 x); [by apply history_sent | lia | unfold block; lia | by apply list_lookup_middle |].
    unfold entry, fetch_add. cbn. rewrite Hf, N.mod_small by lia. done.
  - exists (length sent). rewrite !length_app. cbn.
    split_and!; [done | lia | by apply list_lookup_middle | lia | done].
  - by apply prefix_app_r.
Qed.

Lemma version_place_Ret pos : version_place pos = Ret (Version (N.to_nat (rb_slot b pos))).
Proof using Hfresh.
  unfold version_place. destruct (version_at b pos) as [v Hv]; [apply Hfresh|]. by rewrite (index_Some _ _ _ Hv).
Qed.

Lemma word_place_Ret pos i : (i < WORDS)%nat → word_place pos i = Ret (Word (rb_word b pos i)).
Proof using Hfresh.
  intros Hi. unfold word_place. destruct (lookup_lt_is_Some_2 (rb_words b) (rb_word b pos i)) as [v Hv].
  { apply (word_of_lt b (rb_slot b pos)); [apply Hfresh | apply rb_slot_lt, Hfresh | done]. }
  by rewrite (index_Some _ _ _ Hv).
Qed.

Lemma staged_index x i v : to_words x !! i = Some v → index (staged_words x) i = Ret v.
Proof using. intros Hv. apply index_Some. unfold staged_words. by apply lookup_app_l_Some. Qed.

Lemma weak_send_inv sent w pc :
  N.of_nat (length sent) < 2 ^ 62 → history_ok sent (wr_history w) → sender_at pc sent w →
  ∃ w' pc', weak_send w pc = Ret (w', pc') ∧
    history_ok sent (wr_history w') ∧ sender_at pc' sent w' ∧ wr_history w `prefix_of` wr_history w'.
Proof using Hfresh.
  intros Hn Hh Hpc. destruct pc as [|x pos|x pos|x pos i]; cbn [weak_send].
  - by exists w, SIdle.
  - destruct Hpc as (p & -> & Hlen & Hx & Hw & Hf). rewrite version_Ret, version_place_Ret by lia.
    eexists _, _. split; [done|]. cbn. split_and!; [| |by apply prefix_app_r].
    + apply (history_stored _ _ p 1 x); [done | done | unfold block; lia | done |]. unfold entry. cbn. by rewrite Hf.
    + exists p. rewrite length_app. cbn. split_and!; [done.. | lia | done].
  - destruct Hpc as (p & -> & Hlen & Hx & Hw & Hf). eexists _, _. split; [done|]. cbn. split_and!; [done | |done].
    exists p. split_and!; [done.. | lia | lia | done].
  - destruct Hpc as (p & -> & Hlen & Hx & Hi & Hw & Hf). destruct (Nat.ltb_spec i WORDS) as [Hlt|Hge].
    + destruct (lookup_lt_is_Some_2 (to_words x) i) as [v Hv]; [by rewrite to_words_length|].
      rewrite (staged_index _ _ _ Hv), word_place_Ret by done. eexists _, _. split; [done|]. cbn.
      split_and!; [| |by apply prefix_app_r].
      * apply (history_stored _ _ p (2 + i) x); [done | lia | unfold block; lia | done |]. unfold entry.
        rewrite !decide_False, decide_True by lia. replace (2 + i - 2)%nat with i by lia. by rewrite Hv, Hf.
      * exists p. rewrite length_app. cbn. split_and!; [done.. | lia | lia | done].
    + assert (i = WORDS) as -> by lia. rewrite version_Ret, version_place_Ret by lia.
      eexists _, _. split; [done|]. cbn. split; [|split; [|by apply prefix_app_r]].
      * apply (history_stored _ _ p (WORDS + 2) x); [done | lia | unfold block; lia | done |]. unfold entry.
        rewrite !decide_False by lia. f_equal. unfold block in *. lia.
      * rewrite length_app, Hlen. cbn. unfold block in *. split; [lia | done].
Qed.

(** ** The receivers *)

Section reader.
Variable sent : list T.
Variable history : list (message place).
Hypothesis Hhistory : history_ok sent history.

(** A reader that knows the send of [pos] is done reads no older word of its slot. *)
Lemma fresh_word pos i t v p known :
  (i < WORDS)%nat → is_Some (sent !! N.to_nat pos) →
  (N.to_nat pos * block + block ≤ known)%nat → (known ≤ length history)%nat →
  at_time initial history (Word (rb_word b pos i)) t = Some (v, p) →
  (floor history (Word (rb_word b pos i)) known ≤ t)%nat →
  (next_lap pos ≤ p)%nat ∨ ∃ x, sent !! N.to_nat pos = Some x ∧ to_words x !! i = Some v.
Proof using Hhistory Hfresh.
  intros Hi [x Hx] Hk Hlen Hat Hfl.
  assert (S (N.to_nat pos * block + (2 + i)) ≤ floor history (Word (rb_word b pos i)) known)%nat as Hfloor.
  { apply (floor_entry sent _ _ _ _ _ x); [done | unfold block in *; lia | done | unfold block; lia | done |].
    unfold entry. rewrite !decide_False, decide_True by lia. cbn. rewrite N2Nat.id. do 2 f_equal. lia. }
  destruct (word_read _ _ _ _ _ _ _ Hhistory Hi Hat) as [->|(q & y & Hy & Hslot & -> & -> & ->)]; [lia|].
  assert (N.to_nat pos ≤ q)%nat as Hq by (unfold block in *; nia).
  destruct (decide (q = N.to_nat pos)) as [->|Hne].
  - right. exists x. split; [done|]. simplify_eq.
    destruct (lookup_lt_is_Some_2 (to_words x) i) as [w Hw]; [by rewrite to_words_length|]. by rewrite Hw.
  - left. pose proof (same_slot _ _ Hslot). unfold next_lap. assert (N.to_nat (pos + capacity b) ≤ q)%nat by lia. nia.
Qed.

(** Once the next lap's odd version is known, the slot's version is another one. *)
Lemma fresh_version pos t v p known :
  (next_lap pos ≤ known)%nat → (known ≤ length history)%nat →
  at_time initial history (Version (N.to_nat (rb_slot b pos))) t = Some (v, p) →
  (floor history (Version (N.to_nat (rb_slot b pos))) known ≤ t)%nat → v ≠ 2 * pos + 2.
Proof using Hhistory Hfresh.
  intros Hk Hlen Hat Hfl ->. set (q := N.to_nat (pos + capacity b)) in *.
  change (next_lap pos) with (q * block + 2)%nat in Hk.
  destruct (sent_before sent history q 1) as [x Hx]; [done | lia | unfold block; lia |].
  assert (slot_at q = N.to_nat (rb_slot b pos)) as Hslot.
  { destruct Hfresh as [Hwf _ _]. unfold slot_at, q. rewrite N2Nat.id, !rb_slot_mod by done. f_equal.
    destruct Hwf. rewrite N.Div0.add_mod, N.Div0.mod_same, N.add_0_r, N.Div0.mod_mod. done. }
  assert (S (q * block + 1) ≤ floor history (Version (N.to_nat (rb_slot b pos))) known)%nat as Hfloor.
  { apply (floor_entry sent _ _ _ _ _ x); [done | lia | done | unfold block; lia | done |].
    unfold entry. rewrite decide_False, decide_True by lia. cbn [ms_loc]. by rewrite Hslot. }
  destruct (version_read _ _ _ _ _ _ Hhistory Hat) as [[_ ?]|(q' & y & _ & _ & [(-> & E & _)|(-> & E & _)])]; [lia|lia|].
  assert (N.of_nat q' = pos) by lia. assert (q' < q)%nat by (destruct Hfresh as [[] _ _]; lia).
  unfold block in *. nia.
Qed.

(** After the version was seen a lap ahead, so is every cursor. *)
Lemma fresh_cursor pos t v p known :
  (N.to_nat (pos + capacity b - 1) * block + 1 ≤ known)%nat → (known ≤ length history)%nat →
  at_time initial history Cursor t = Some (v, p) → (floor history Cursor known ≤ t)%nat →
  pos + capacity b ≤ v ∧ v ≤ N.of_nat (length sent).
Proof using Hhistory Hfresh.
  intros Hk Hlen Hat Hfl. set (q := N.to_nat (pos + capacity b - 1)) in *.
  destruct (sent_before sent history q 0) as [x Hx]; [done | lia | unfold block; lia |].
  assert (S (q * block + 0) ≤ floor history Cursor known)%nat as Hfloor.
  { apply (floor_entry sent _ _ _ _ _ x); [done | lia | done | unfold block; lia | done | done]. }
  destruct (cursor_read _ _ _ _ _ Hhistory Hat) as [[-> _]|(q' & y & Hy%lookup_lt_Some & -> & -> & _)]; [lia|].
  assert (q ≤ q')%nat by (unfold block in *; nia). lia.
Qed.

Lemma staged_whole pos staged :
  length staged = MAX_STAGING_WORDS → staged_ok sent pos WORDS staged →
  ∃ x, sent !! N.to_nat pos = Some x ∧ of_words (take WORDS staged) = x.
Proof using Hfresh.
  intros Hlen (x & Hx & Hpre). exists x. split; [done|].
  assert (take WORDS staged = to_words x) as ->; [|apply of_to_words].
  destruct Hfresh as [[] _ _]. apply list_eq_same_length with (n := WORDS); [apply to_words_length| |].
  - rewrite length_take. lia.
  - intros k y y' Hk Hy Hy'. rewrite lookup_take_lt in Hy by done.
    rewrite (Hpre k y') in Hy; [congruence|lia|done].
Qed.

(** The first load of the version. *)
Lemma version_seen pos t v p known :
  at_time initial history (Version (N.to_nat (rb_slot b pos))) t = Some (v, p) →
  (2 * pos + 2 < v → (N.to_nat (pos + capacity b - 1) * block + 1 ≤ known `max` p)%nat) ∧
  (v = 2 * pos + 2 → (N.to_nat pos * block + block ≤ known `max` p)%nat ∧ is_Some (sent !! N.to_nat pos)).
Proof using Hhistory Hfresh.
  intros Hat. destruct (version_read _ _ _ _ _ _ Hhistory Hat) as [[_ ?]|(q & x & Hx & Hslot & Hq)]; [split; lia|].
  split.
  - intros Hlt. assert (pos < N.of_nat q) as Hpos by (destruct Hq as [(_ & -> & _)|(_ & -> & _)]; lia).
    pose proof (same_slot _ _ Hslot Hpos). assert (N.to_nat (pos + capacity b - 1) ≤ q - 1)%nat by lia.
    assert ((q - 1) * block + 1 ≤ p)%nat; [|unfold block in *; nia].
    destruct Hq as [(_ & _ & ->)|(_ & _ & ->)].
    + unfold fence_before. destruct q; [lia|]. unfold block. cbn. lia.
    + unfold block in *. nia.
  - intros E. destruct Hq as [(_ & -> & _)|(_ & -> & ->)]; [lia|].
    assert (q = N.to_nat pos) as -> by lia. split; [lia | by eexists].
Qed.
End reader.

Lemma reader_same sent history c r pc view :
  r = rd_receiver c → pc = RIdle → reader_ok sent history c →
  view_ok history view → reader_ok sent history (hand r pc view None c).
Proof using. intros -> -> [] Hv. split; cbn; rewrite ?app_nil_r; done. Qed.

(** An access keeps the reader right, and does not panic. *)
Definition keeps_reader (sent : list T) (history : list (message place)) (t : nat) (c : Reader) : Prop :=
  ∃ oc, weak_recv history t c = Ret oc ∧ ∀ c', oc = Some c' → reader_ok sent history c'.

(** Open a reader at one place of its call. *)
Ltac open_reader Hh Hok c Hat :=
  pose proof Hok as [Hpos Hlaps Hview Hpc Hgot Hord];
  pose proof (history_published _ _ Hh) as Hpub; pose proof (vo_known _ _ Hview) as Hknown;
  destruct c as [[pos laps] pc view got];
  cbn in Hpos, Hlaps, Hview, Hknown, Hpc, Hgot, Hord, Hat; subst pc;
  unfold keeps_reader, weak_recv; cbn [rd_receiver rd_pc rd_view rc_pos rc_laps].

(** The first load of the version. *)
Lemma weak_recv_begins sent history c t :
  history_ok sent history → N.of_nat (length sent) < 2 ^ 62 → reader_ok sent history c →
  rd_pc c = RIdle → keeps_reader sent history t c.
Proof using Hfresh.
  intros Hh Hn Hok Hat. open_reader Hh Hok c Hat.
  rewrite version_Ret, version_place_Ret by lia. cbn [mbind exec_bind].
  destruct (load_acquire _ _ _ _ _) as [[v view']|] eqn:El; [|by eexists].
  destruct (load_acquire_Some _ _ _ _ _ _ _ El) as (p & Hat & _ & Hk & Hp).
  pose proof (load_acquire_ok _ _ _ _ _ _ _ Hpub Hview El) as Hview'.
  destruct (version_seen _ _ Hh _ _ _ _ (vw_known view) Hat) as [Hlap Hsent].
  destruct (N.ltb_spec v (2 * pos + 2)); [|destruct (N.ltb_spec (2 * pos + 2) v)];
    (eexists; split; [done|]; intros c' [= <-]).
  - by apply reader_same.
  - split; cbn; rewrite ?app_nil_r; try done; rewrite ?Hk. by apply Hlap.
  - assert (v = 2 * pos + 2) as -> by lia. destruct (Hsent eq_refl) as [Hdone [x Hx]].
    split; cbn; rewrite ?app_nil_r; try done; rewrite ?Hk, ?Hp.
    split_and!; [done | lia | by rewrite length_replicate | done | by eexists |].
    right. exists x. split; [done|]. intros. lia.
Qed.

(** A word staged, or the fence behind the last. *)
Lemma weak_recv_copies sent history c t v1 i staged :
  history_ok sent history → N.of_nat (length sent) < 2 ^ 62 → reader_ok sent history c →
  rd_pc c = RReading v1 i staged → keeps_reader sent history t c.
Proof using Hfresh.
  intros Hh Hn Hok Hat. open_reader Hh Hok c Hat.
  destruct Hpc as (-> & Hi & Hlen & Hdone & Hsent & Hst). destruct (Nat.ltb_spec i WORDS) as [Hlt|Hge].
  - rewrite word_place_Ret by done. cbn [mbind exec_bind].
    destruct (load_relaxed _ _ _ _ _) as [[v view']|] eqn:El; [|by eexists].
    destruct (load_relaxed_Some _ _ _ _ _ _ _ El) as (p & Hat & Hfl & Hk & Hp).
    pose proof (load_relaxed_ok _ _ _ _ _ _ _ Hpub Hview El) as Hview'.
    assert (i < length staged)%nat as Hil by (destruct Hfresh as [[] _ _]; lia).
    rewrite index_set by done. cbn [mbind exec_bind]. eexists. split; [done|]. intros c' [= <-].
    split; cbn; rewrite ?app_nil_r; try done; rewrite ?Hk, ?Hp.
    split_and!; [done | lia | by rewrite length_insert | done | done |].
    destruct (fresh_word _ _ Hh _ _ _ _ _ _ Hlt Hsent Hdone Hknown Hat Hfl) as [Hnext|(x & Hx & Hv)]; [left; lia|].
    destruct Hst as [Hnext|(x' & Hx' & Hpre)]; [left; lia|]. right. simplify_eq. exists x'. split; [done|].
    intros j w Hj Hw. destruct (decide (j = i)) as [->|Hne].
    + rewrite list_lookup_insert_eq by done. congruence.
    + rewrite list_lookup_insert_ne by done. apply Hpre; [lia | done].
  - assert (i = WORDS) as -> by lia. eexists. split; [done|]. intros c' [= <-].
    split; cbn; rewrite ?app_nil_r; try done; [by apply acquire_fence_ok|].
    split_and!; [done | done | lia | done |]. destruct Hst as [?|?]; [left; lia | by right].
Qed.

(** The version again: what was staged is whole, or is dropped. *)
Lemma weak_recv_checks sent history c t v1 staged :
  history_ok sent history → N.of_nat (length sent) < 2 ^ 62 → reader_ok sent history c →
  rd_pc c = RFenced v1 staged → keeps_reader sent history t c.
Proof using Hfresh.
  intros Hh Hn Hok Hat. open_reader Hh Hok c Hat.
  destruct Hpc as (-> & Hlen & _ & Hsent & Hst). rewrite version_place_Ret. cbn [mbind exec_bind].
  destruct (load_relaxed _ _ _ _ _) as [[v view']|] eqn:El; [|by eexists].
  destruct (load_relaxed_Some _ _ _ _ _ _ _ El) as (p & Hat & Hfl & Hk & Hp).
  pose proof (load_relaxed_ok _ _ _ _ _ _ _ Hpub Hview El) as Hview'. case_decide as E.
  - destruct Hst as [Hnext|Hst]; [by destruct (fresh_version _ _ Hh _ _ _ _ _ Hnext Hknown Hat Hfl)|].
    destruct (staged_whole _ _ _ Hlen Hst) as (x & Hx & ->). pose proof (lookup_lt_Some _ _ _ Hx).
    unfold checked_add, u64_max. rewrite decide_True by lia. cbn [mbind exec_bind].
    eexists. split; [done|]. intros c' [= <-]. split; cbn; try done; rewrite ?Hk, ?Hp; [lia.. | |].
    + intros q y [Hin|Hin]%elem_of_app; [destruct (Hgot _ _ Hin); split; [done|lia]|].
      apply list_elem_of_singleton in Hin as [= -> ->]. split; [done|lia].
    + rewrite fmap_app. apply sorted_snoc; [done|]. intros q ([? y] & -> & Hin)%list_elem_of_fmap. by apply (Hgot _ y).
  - eexists. split; [done|]. intros c' [= <-]. by apply reader_same.
Qed.

(** The cursor, behind which a lapped reader starts over. *)
Lemma weak_recv_catches_up sent history c t :
  history_ok sent history → N.of_nat (length sent) < 2 ^ 62 → reader_ok sent history c →
  rd_pc c = RLapped → keeps_reader sent history t c.
Proof using Hfresh.
  intros Hh Hn Hok Hat. open_reader Hh Hok c Hat.
  unfold checked_add, u64_max. rewrite decide_True by lia. cbn [mbind exec_bind].
  destruct (load_relaxed _ _ _ _ _) as [[v view']|] eqn:El; [|by eexists].
  destruct (load_relaxed_Some _ _ _ _ _ _ _ El) as (p & Hat & Hfl & Hk & Hp).
  pose proof (load_relaxed_ok _ _ _ _ _ _ _ Hpub Hview El) as Hview'.
  destruct (fresh_cursor _ _ Hh _ _ _ _ _ Hpc Hknown Hat Hfl) as [Hlow Hhigh].
  eexists. split; [done|]. intros c' [= <-]. destruct Hfresh as [[] _ _]. unfold saturating_sub.
  change (rb_mask b + 1) with (capacity b).
  assert (capacity b `div` 2 + capacity b `div` 2 ≤ capacity b).
  { pose proof (N.Div0.mul_div_le (capacity b) 2). lia. }
  assert (capacity b `div` 2 ≤ capacity b) by (apply N.Div0.div_le_upper_bound; lia).
  generalize dependent (capacity b `div` 2). intros half Hhalf Hhalf'.
  split; cbn; rewrite ?app_nil_r; try done; rewrite ?Hk, ?Hp; [lia.. |].
  intros q y Hin. destruct (Hgot _ _ Hin). split; [done | lia].
Qed.

(** Whatever time an access reads at, it does not panic and keeps the reader right. *)
Lemma weak_recv_inv sent history c t :
  history_ok sent history → N.of_nat (length sent) < 2 ^ 62 → reader_ok sent history c →
  ∃ oc, weak_recv history t c = Ret oc ∧ ∀ c', oc = Some c' → reader_ok sent history c'.
Proof using Hfresh.
  intros Hh Hn Hok. destruct (rd_pc c) eqn:Hat.
  - by apply weak_recv_begins.
  - by eapply weak_recv_copies.
  - by eapply weak_recv_checks.
  - by apply weak_recv_catches_up.
Qed.

(** A reader can always go on: every place has a latest store. *)
Lemma weak_recv_ready sent history c :
  history_ok sent history → N.of_nat (length sent) < 2 ^ 62 → reader_ok sent history c →
  ∃ t c', weak_recv history t c = Ret (Some c').
Proof using Hfresh.
  intros Hh Hn Hok. pose proof (ro_view _ _ _ Hok) as Hview.
  assert (∀ t, weak_recv history t c ≠ Ret None → ∃ t c', weak_recv history t c = Ret (Some c')) as Hany.
  { intros t Ht. exists t. destruct (weak_recv_inv _ _ _ t Hh Hn Hok) as ([c'|] & E & _); [eauto | done]. }
  destruct c as [[pos laps] pc view got]. unfold weak_recv in *. cbn in Hview.
  assert (∀ l, is_Some (load_relaxed initial history l (floor history l (length history)) view)) as Hload
    by (intros l; by apply load_latest).
  destruct pc as [|v1 i staged|v1 staged|]; cbn [rd_receiver rd_pc rd_view rc_pos rc_laps] in *.
  - apply (Hany (floor history (Version (N.to_nat (rb_slot b pos))) (length history))).
    destruct (version pos 2); [|done]. rewrite version_place_Ret. cbn [mbind exec_bind].
    destruct (acquire_latest initial history (Version (N.to_nat (rb_slot b pos))) view Hview) as [[v w] ->].
    by repeat case_match.
  - destruct (Nat.ltb_spec i WORDS) as [Hlt|Hge]; [|apply (Hany 0%nat); done].
    apply (Hany (floor history (Word (rb_word b pos i)) (length history))).
    rewrite word_place_Ret by done. cbn [mbind exec_bind]. destruct (Hload (Word (rb_word b pos i))) as [[v w] ->].
    cbn. by destruct (index_mut staged i _).
  - apply (Hany (floor history (Version (N.to_nat (rb_slot b pos))) (length history))).
    rewrite version_place_Ret. cbn [mbind exec_bind]. destruct (Hload (Version (N.to_nat (rb_slot b pos)))) as [[v w] ->].
    case_decide; [|done]. by destruct (checked_add _ pos 1).
  - apply (Hany (floor history Cursor (length history))).
    destruct (checked_add _ laps 1); [|done]. cbn [mbind exec_bind]. by destruct (Hload Cursor) as [[v w] ->].
Qed.

(** ** The invariant *)

Lemma staged_ok_grow sent sent' pos n staged :
  sent `prefix_of` sent' → staged_ok sent pos n staged → staged_ok sent' pos n staged.
Proof using. intros [l ->] (x & Hx & Hs). exists x. split; [by apply lookup_app_l_Some | done]. Qed.

Lemma reader_ok_grow sent sent' history history' c :
  sent `prefix_of` sent' → history `prefix_of` history' → reader_ok sent history c → reader_ok sent' history' c.
Proof using.
  intros Hs Hh [Hpos Hlaps Hview Hpc Hgot Hord]. pose proof (prefix_length _ _ Hs).
  assert (∀ p x, sent !! p = Some x → sent' !! p = Some x) as Hsent
    by (destruct Hs as [l ->]; intros; by apply lookup_app_l_Some).
  split; [lia | done | by eapply view_ok_grow | | | done].
  - destruct (rd_pc c); [done | | | done]; cbn in *.
    + destruct Hpc as (? & ? & ? & ? & [x Hx] & Hst). split_and!; [done..|eauto|].
      destruct Hst; [by left | right; by eapply staged_ok_grow].
    + destruct Hpc as (? & ? & ? & [x Hx] & Hst). split_and!; [done..|eauto|].
      destruct Hst; [by left | right; by eapply staged_ok_grow].
  - intros p x Hin. destruct (Hgot _ _ Hin). eauto.
Qed.

Lemma subscribe_ok sent history t c :
  history_ok sent history → weak_subscribe history t blank = Some c → reader_ok sent history c.
Proof using Hfresh.
  intros Hh. unfold weak_subscribe. destruct (load_relaxed _ _ _ _ _) as [[v view]|] eqn:E; [|done].
  cbn. intros [= <-]. pose proof (history_published _ _ Hh) as Hpub.
  pose proof (load_relaxed_ok _ _ _ _ _ _ _ Hpub (view_ok_blank history) E) as Hview.
  destruct (load_relaxed_Some _ _ _ _ _ _ _ E) as (p & Hat & _).
  split; cbn; [ | lia | done | done | by intros ? ? ?%elem_of_nil | constructor].
  destruct (cursor_read _ _ _ _ _ Hh Hat) as [[_ ->]|(q & x & Hq%lookup_lt_Some & _ & -> & _)]; lia.
Qed.

Lemma synchronise_ok sent history n c :
  (n ≤ length history)%nat → reader_ok sent history c → reader_ok sent history (synchronise n c).
Proof using.
  intros Hn [Hpos Hlaps [Hk Hp Hs] Hpc Hgot Hord]. split; cbn; try done; [split; cbn; [lia|done..]|].
  destruct (rd_pc c); [done | | |]; cbn in *.
  - destruct Hpc as (? & ? & ? & ? & ? & ?). split_and!; [done..|lia|done|done].
  - destruct Hpc as (? & ? & ? & ? & [?|?]); split_and!; try done; [lia|left; lia|lia|by right].
  - lia.
Qed.

Lemma weak_step_inv s s' :
  weak_step s s' → N.of_nat (length (wk_sent s')) < 2 ^ 62 → weak_inv s → weak_inv s'.
Proof using Hfresh.
  intros Hstep Hn [Hh Hpc Hr]. destruct Hstep as [x w sent readers|w pc w' pc' sent readers Hsend|w pc sent readers t c Hc|w pc sent readers t i c c' Hi Hc
    |w pc sent readers n i c Hi Hn']; cbn in *.
  - rewrite length_app in Hn. cbn in Hn.
    pose proof (weak_begin_inv sent w x ltac:(lia) Hh Hpc) as (Hh' & Hpc' & Hpre). split; cbn; [done..|].
    intros i c Hi. eapply reader_ok_grow; [by apply prefix_app_r | exact Hpre | by eapply Hr].
  - destruct (weak_send_inv _ _ _ Hn Hh Hpc) as (w1 & pc1 & E & Hh' & Hpc' & Hpre). rewrite Hsend in E.
    injection E as <- <-. split; cbn; [done..|]. intros i c Hi. eapply reader_ok_grow; [done | exact Hpre | by eapply Hr].
  - split; cbn; [done..|]. intros i c' [Hi|[_ Hi]]%lookup_app_Some; [by eapply Hr|].
    destruct (i - length readers)%nat as [|k]; [|by destruct k]. injection Hi as <-. by eapply subscribe_ok.
  - split; cbn; [done..|]. intros j d Hj.
    destruct (weak_recv_inv _ _ _ t Hh Hn (Hr _ _ Hi)) as (oc & E & Hok). rewrite Hc in E. injection E as <-.
    apply list_lookup_insert_Some in Hj as [(-> & -> & _)|[_ Hj]]; [by apply Hok | by eapply Hr].
  - split; cbn; [done..|]. intros j d Hj.
    apply list_lookup_insert_Some in Hj as [(-> & <- & _)|[_ Hj]]; [|by eapply Hr].
    apply synchronise_ok; [done | by eapply Hr].
Qed.

(** ** What a reader knows of, it gets *)

(** The accesses of [try_recv] before the next one. *)
Definition accesses (c : Reader) : nat :=
  match rd_pc c with RIdle => 0 | RReading _ i _ => S i | RFenced _ _ => WORDS + 2 | RLapped => 0 end.

(** A call on position [pos] that is under way, or about to begin by a reader
    that knows the send of [pos] is done. *)
Definition on_its_way (pos : N) (c : Reader) : Prop :=
  rc_pos (rd_receiver c) = pos ∧
  match rd_pc c with
  | RIdle => (N.to_nat pos * block + block ≤ vw_known (rd_view c))%nat
  | RLapped => False
  | _ => True
  end.

(** The slot of [pos] is not opened for the next lap yet. *)
Lemma no_next_lap sent history pos n :
  history_ok sent history → N.of_nat (length sent) ≤ pos + capacity b → (n ≤ length history)%nat →
  (n < next_lap pos)%nat.
Proof using.
  intros Hh Hroom Hn. destruct (decide (next_lap pos ≤ n)%nat) as [Hle|]; [|lia]. unfold next_lap in Hle.
  destruct (sent_before sent history (N.to_nat (pos + capacity b)) 1) as [x Hx%lookup_lt_Some];
    [done | lia | unfold block; lia | lia].
Qed.

(** A version read by one who knows the send of [pos] is of that send or a later one. *)
Lemma known_version sent history pos x t v p known :
  history_ok sent history → sent !! N.to_nat pos = Some x →
  (N.to_nat pos * block + block ≤ known)%nat → (known ≤ length history)%nat →
  at_time initial history (Version (N.to_nat (rb_slot b pos))) t = Some (v, p) →
  (floor history (Version (N.to_nat (rb_slot b pos))) known ≤ t)%nat →
  ∃ q, (N.to_nat pos ≤ q < length sent)%nat ∧ slot_at q = N.to_nat (rb_slot b pos) ∧
    (v = 2 * N.of_nat q + 2 ∨ v = 2 * N.of_nat q + 1 ∧ (N.to_nat pos < q)%nat).
Proof using Hfresh.
  intros Hh Hx Hk Hlen Hat Hfl.
  assert (S (N.to_nat pos * block + (WORDS + 2)) ≤ floor history (Version (N.to_nat (rb_slot b pos))) known)%nat as Hfloor.
  { apply (floor_entry sent _ _ _ _ _ x); [done | unfold block in *; lia | done | unfold block; lia | done |].
    unfold entry. rewrite !decide_False by lia. cbn. unfold slot_at. by rewrite N2Nat.id. }
  destruct (version_read _ _ _ _ _ _ Hh Hat) as [[-> _]|(q & y & Hy%lookup_lt_Some & Hslot & Hq)]; [lia|].
  assert (N.to_nat pos ≤ q)%nat as Hle by (destruct Hq as [(-> & _)|(-> & _)]; unfold block in *; nia).
  exists q. split; [done|]. split; [done|]. destruct Hq as [(-> & -> & _)|(_ & -> & _)]; [right | by left].
  split; [done|]. unfold block in *. nia.
Qed.

(** Then its version is the one its event was sent with. *)
Lemma settled_version sent history pos x t v p known :
  history_ok sent history → sent !! N.to_nat pos = Some x → N.of_nat (length sent) ≤ pos + capacity b →
  (N.to_nat pos * block + block ≤ known)%nat → (known ≤ length history)%nat →
  at_time initial history (Version (N.to_nat (rb_slot b pos))) t = Some (v, p) →
  (floor history (Version (N.to_nat (rb_slot b pos))) known ≤ t)%nat → v = 2 * pos + 2.
Proof using Hfresh.
  intros Hh Hx Hroom Hk Hlen Hat Hfl.
  destruct (known_version _ _ _ _ _ _ _ _ Hh Hx Hk Hlen Hat Hfl) as (q & Hq & Hslot & Hv).
  assert (q = N.to_nat pos) as ->.
  { destruct (decide (q = N.to_nat pos)) as [|Hne]; [done|]. pose proof (same_slot _ _ Hslot). lia. }
  lia.
Qed.

Lemma on_its_way_step sent history pos x t c c' :
  history_ok sent history → N.of_nat (length sent) < 2 ^ 62 → reader_ok sent history c →
  sent !! N.to_nat pos = Some x → N.of_nat (length sent) ≤ pos + capacity b →
  on_its_way pos c → weak_recv history t c = Ret (Some c') →
  (on_its_way pos c' ∧ accesses c' = S (accesses c) ∧ rd_got c' = rd_got c) ∨
  (accesses c = (WORDS + 2)%nat ∧ rd_pc c' = RIdle ∧ rd_got c' = rd_got c ++ [(pos, x)]).
Proof using Hfresh.
  intros Hh Hn [Hpos Hlaps Hview Hpc Hgot Hord] Hx Hroom [Hp Hway] E.
  pose proof (λ n, no_next_lap _ _ _ n Hh Hroom) as Hlap. destruct Hview as [Hk Hpend _].
  destruct c as [[pos' laps] pc view got]. cbn in *. subst pos'. unfold weak_recv in E.
  destruct pc as [|v1 i staged|v1 staged|]; [| | |done]; cbn [rd_receiver rd_pc rd_view rc_pos rc_laps] in *.
  - rewrite version_Ret, version_place_Ret in E by lia. cbn [mbind exec_bind] in E.
    destruct (load_acquire _ _ _ _ _) as [[v view']|] eqn:El; [|done].
    destruct (load_acquire_Some _ _ _ _ _ _ _ El) as (p & Hat & Hfl & _).
    assert (v = 2 * pos + 2) as -> by (by eapply settled_version).
    rewrite !N.ltb_irrefl in E. injection E as <-. left. unfold on_its_way, accesses. cbn.
    by rewrite app_nil_r.
  - destruct (Nat.ltb_spec i WORDS) as [Hlt|Hge].
    + rewrite word_place_Ret in E by done. cbn [mbind exec_bind] in E.
      destruct (load_relaxed _ _ _ _ _) as [[v view']|]; [|done].
      destruct (index_mut _ _ _) as [staged'|]; [|done]. injection E as <-. left.
      unfold on_its_way, accesses. cbn. by rewrite app_nil_r.
    + injection E as <-. left. unfold on_its_way, accesses. cbn. rewrite app_nil_r.
      destruct Hpc as (_ & Hi & _). split_and!; [done..|lia|done].
  - destruct Hpc as (-> & Hlen & Hdone & Hsent & Hst). rewrite version_place_Ret in E. cbn [mbind exec_bind] in E.
    destruct (load_relaxed _ _ _ _ _) as [[v view']|] eqn:El; [|done].
    destruct (load_relaxed_Some _ _ _ _ _ _ _ El) as (p & Hat & Hfl & _).
    assert (v = 2 * pos + 2) as -> by (by eapply settled_version). rewrite decide_True in E by done.
    destruct (checked_add _ _ _) as [pos'|]; [|done]. cbn in E. injection E as <-. right.
    destruct Hst as [Hnext|Hst]; [specialize (Hlap _ Hk); lia|].
    destruct (staged_whole _ _ _ Hlen Hst) as (y & Hy & ->). rewrite Hx in Hy. injection Hy as <-. done.
Qed.

(** The access of a call either leaves the receiver alone, or hands out the
    event and moves on, or counts a lap. *)
Lemma weak_recv_effect history t c c' :
  weak_recv history t c = Ret (Some c') →
  (rd_receiver c' = rd_receiver c ∧ rd_got c' = rd_got c) ∨
  (rd_pc c' = RIdle ∧ ∃ x, rd_receiver c' = mkReceiver (rc_pos (rd_receiver c) + 1) (rc_laps (rd_receiver c)) ∧
     rd_got c' = rd_got c ++ [(rc_pos (rd_receiver c), x)]) ∨
  (rd_pc c' = RIdle ∧ rc_laps (rd_receiver c') = rc_laps (rd_receiver c) + 1 ∧ rd_got c' = rd_got c).
Proof using.
  intros E. destruct c as [[pos laps] pc view got]. unfold weak_recv in E.
  destruct pc as [|v1 i staged|v1 staged|]; cbn [rd_receiver rd_pc rd_view rc_pos rc_laps] in *.
  - apply bind_Ret_inv in E as (want & _ & (l & _ & E)%bind_Ret_inv).
    destruct (load_acquire _ _ _ _ _) as [[v view']|]; [|done]. left.
    repeat case_match; injection E as <-; cbn; by rewrite app_nil_r.
  - left. case_match.
    + apply bind_Ret_inv in E as (l & _ & E). destruct (load_relaxed _ _ _ _ _) as [[v view']|]; [|done].
      apply bind_Ret_inv in E as (staged' & _ & [= <-]). cbn. by rewrite app_nil_r.
    + injection E as <-. cbn. by rewrite app_nil_r.
  - apply bind_Ret_inv in E as (l & _ & E). destruct (load_relaxed _ _ _ _ _) as [[v view']|]; [|done].
    case_decide; [|injection E as <-; left; cbn; by rewrite app_nil_r].
    apply bind_Ret_inv in E as (pos' & [_ ->]%checked_add_Ret & [= <-]). right. left. split; [done|]. by eexists.
  - apply bind_Ret_inv in E as (laps' & [_ ->]%checked_add_Ret & E).
    destruct (load_relaxed _ _ _ _ _) as [[v view']|]; [|done]. injection E as <-. right. right.
    cbn. by rewrite app_nil_r.
Qed.

(** What a thread knows only grows. *)
Lemma weak_recv_known history t c c' :
  weak_recv history t c = Ret (Some c') → (vw_known (rd_view c) ≤ vw_known (rd_view c'))%nat.
Proof using.
  intros E. destruct c as [[pos laps] pc view got]. unfold weak_recv in E.
  destruct pc as [|v1 i staged|v1 staged|]; cbn [rd_receiver rd_pc rd_view rc_pos rc_laps] in *.
  - apply bind_Ret_inv in E as (want & _ & (l & _ & E)%bind_Ret_inv).
    destruct (load_acquire _ _ _ _ _) as [[v view']|] eqn:El; [|done].
    apply load_acquire_Some in El as (p & _ & _ & Hk & _).
    repeat case_match; injection E as <-; cbn; lia.
  - case_match.
    + apply bind_Ret_inv in E as (l & _ & E). destruct (load_relaxed _ _ _ _ _) as [[v view']|] eqn:El; [|done].
      apply load_relaxed_Some in El as (p & _ & _ & Hk & _).
      apply bind_Ret_inv in E as (staged' & _ & [= <-]). cbn. lia.
    + injection E as <-. cbn. lia.
  - apply bind_Ret_inv in E as (l & _ & E). destruct (load_relaxed _ _ _ _ _) as [[v view']|] eqn:El; [|done].
    apply load_relaxed_Some in El as (p & _ & _ & Hk & _).
    case_decide; [apply bind_Ret_inv in E as (pos' & _ & [= <-])|injection E as <-]; cbn; lia.
  - apply bind_Ret_inv in E as (laps' & _ & E).
    destruct (load_relaxed _ _ _ _ _) as [[v view']|] eqn:El; [|done].
    apply load_relaxed_Some in El as (p & _ & _ & Hk & _). injection E as <-. cbn. lia.
Qed.

(** ** The end of a course of sends *)

Definition reading (c : Reader) : Prop :=
  match rd_pc c with RReading _ _ _ | RFenced _ _ => True | _ => False end.

Lemma reading_call sent history t c c' :
  history_ok sent history → N.of_nat (length sent) < 2 ^ 62 → reader_ok sent history c →
  (reading c → N.of_nat (length sent) ≤ rc_pos (rd_receiver c) + capacity b) →
  weak_recv history t c = Ret (Some c') → reading c →
  (reading c' → N.of_nat (length sent) ≤ rc_pos (rd_receiver c') + capacity b) ∧
  (rd_pc c' = RIdle → rd_receiver c' = rd_receiver c → rc_pos (rd_receiver c) = N.of_nat (length sent)).
Proof using Hfresh.
  intros Hh Hn Hok Hroom E Hreading. specialize (Hroom Hreading).
  assert (on_its_way (rc_pos (rd_receiver c)) c ∧ is_Some (sent !! N.to_nat (rc_pos (rd_receiver c)))) as [Hway [x Hx]].
  { pose proof (ro_pc _ _ _ Hok) as Hpc. unfold reading, on_its_way in *. destruct (rd_pc c); [done| | |done]; (split; [done|apply Hpc]). }
  destruct (on_its_way_step _ _ _ _ _ _ _ Hh Hn Hok Hx Hroom Hway E) as [([-> _] & Hacc & _)|(_ & Ei & Hgot)].
  - split; [done|]. intros Eidle. unfold accesses in Hacc. by rewrite Eidle in Hacc.
  - unfold reading. rewrite Ei. split; [done|]. intros _ Er.
    destruct (weak_recv_effect _ _ _ _ E) as [[_ Hg]|[(_ & y & Hr & _)|(_ & _ & Hg)]].
    + rewrite Hg in Hgot. by apply (f_equal length) in Hgot; rewrite length_app in Hgot; cbn in Hgot; lia.
    + rewrite Hr in Er. apply (f_equal rc_pos) in Er. cbn in Er. lia.
    + rewrite Hg in Hgot. by apply (f_equal length) in Hgot; rewrite length_app in Hgot; cbn in Hgot; lia.
Qed.

Lemma weak_recv_lapped history t c c' :
  rd_pc c = RLapped → weak_recv history t c = Ret (Some c') →
  rd_pc c' = RIdle ∧ rc_laps (rd_receiver c') = rc_laps (rd_receiver c) + 1.
Proof using.
  unfold weak_recv. intros ->. intros (laps' & [_ ->]%checked_add_Ret & E)%bind_Ret_inv.
  destruct (load_relaxed _ _ _ _ _) as [[v view']|]; [|done]. by injection E as <-.
Qed.

(** A thread that knows all there is: its calls hand it event after event, and
    one that returns nothing has been lapped or has nothing left to return. *)
Lemma informed_call sent history t c c' :
  history_ok sent history → N.of_nat (length sent) < 2 ^ 62 → reader_ok sent history c →
  (length sent * block ≤ vw_known (rd_view c))%nat →
  (reading c → N.of_nat (length sent) ≤ rc_pos (rd_receiver c) + capacity b) →
  weak_recv history t c = Ret (Some c') →
  (reading c' → N.of_nat (length sent) ≤ rc_pos (rd_receiver c') + capacity b) ∧
  (rd_pc c' = RIdle → rd_receiver c' = rd_receiver c → rc_pos (rd_receiver c) = N.of_nat (length sent)).
Proof using Hfresh.
  intros Hh Hn Hok Hall Hroom E. pose proof Hok as [Hpos _ [Hknown _ _] Hpc _ _].
  destruct (rd_pc c) as [|v1 i staged|v1 staged|] eqn:Epc.
  - clear Hroom. destruct c as [[pos laps] pc view got]. cbn in *. subst pc. unfold weak_recv in E.
    cbn [rd_receiver rd_pc rd_view rc_pos rc_laps] in E. rewrite version_Ret, version_place_Ret in E by lia.
    cbn [mbind exec_bind] in E. destruct (load_acquire _ _ _ _ _) as [[v view']|] eqn:El; [|done].
    destruct (load_acquire_Some _ _ _ _ _ _ _ El) as (p & Hat & Hfl & _).
    destruct (version_seen _ _ Hh _ _ _ _ 0 Hat) as [_ Hsent].
    assert (pos = N.of_nat (length sent) ∨ 2 * pos + 2 ≤ v ∧ (pos + capacity b < N.of_nat (length sent) → v ≠ 2 * pos + 2)) as Hv.
    { destruct (decide (pos = N.of_nat (length sent))) as [|Hlt]; [by left | right].
      destruct (lookup_lt_is_Some_2 sent (N.to_nat pos)) as [x Hx]; [lia|]. split.
      - destruct (known_version sent history pos x t v p (vw_known view)) as (q & Hq & _ & Hv); try done; [|lia].
        assert (N.to_nat pos < length sent)%nat by lia. unfold block in *. nia.
      - intros Hlap. apply (fresh_version sent history Hh pos t v p (vw_known view)); try done.
        unfold next_lap. assert (N.to_nat (pos + capacity b) < length sent)%nat by lia. unfold block in *. nia. }
    unfold reading. destruct (N.ltb_spec v (2 * pos + 2)); [|destruct (N.ltb_spec (2 * pos + 2) v)];
      injection E as <-; cbn; (split; [|try done; lia]); try done.
    intros _. assert (v = 2 * pos + 2) as -> by lia.
    destruct (Hsent eq_refl) as [_ [x Hx%lookup_lt_Some]]. lia.
  - apply (reading_call sent history t); [done.. | by unfold reading; rewrite Epc].
  - apply (reading_call sent history t); [done.. | by unfold reading; rewrite Epc].
  - destruct (weak_recv_lapped _ _ _ _ Epc E) as [Ei El]. unfold reading. rewrite Ei. split; [done|].
    intros _ Er. apply (f_equal rc_laps) in Er. lia.
Qed.

Lemma weak_start_inv : weak_inv weak_start.
Proof using. split; cbn; [by intros k m Hm | by split | done]. Qed.

Lemma weak_step_sent s s' : rtc weak_step s s' → (length (wk_sent s) ≤ length (wk_sent s'))%nat.
Proof using.
  induction 1 as [|s1 s2 s3 Hs _ IH]; [done|]. enough (length (wk_sent s1) ≤ length (wk_sent s2))%nat by lia.
  destruct Hs; cbn; rewrite ?length_app; cbn; lia.
Qed.

Lemma weak_rtc_inv s s' :
  rtc weak_step s s' → N.of_nat (length (wk_sent s')) < 2 ^ 62 → weak_inv s → weak_inv s'.
Proof using Hfresh.
  induction 1 as [|s1 s2 s3 Hs Hr IH]; [done|]. intros Hn Hinv. apply IH; [done|].
  eapply weak_step_inv; [done | | done]. apply weak_step_sent in Hr. lia.
Qed.
End seqlock.

Section statement.
Context {T : Type} `{WordSafe T}.

Lemma channel_fresh n b : channel (T := T) n = Ret b → fresh b.
Proof.
  intros Hc. pose proof (channel_wf _ _ Hc) as Hb. unfold channel in Hc. case_decide; [|done]. injection Hc as <-.
  split; [done | done |]. intros s v Hv. cbn in Hv. by apply list_lookup_fmap_Some in Hv as (j & -> & [-> _]%lookup_seq).
Qed.

(** C14: events are never torn on weak memory either: with the orderings and the
    two fences of the code, and loads that may return any store the memory
    model lets them, a receiver is handed, for increasing positions, exactly
    the event sent at that position; no access of any thread panics, and each
    receiver can always make its next one. *)
Theorem events_never_torn_weakly n b s :
  channel (T := T) n = Ret b → rtc (weak_step b) weak_start s → N.of_nat (length (wk_sent s)) < 2 ^ 62 →
  (∀ i c, wk_readers s !! i = Some c →
     (∀ p x, (p, x) ∈ rd_got c → wk_sent s !! N.to_nat p = Some x) ∧
     StronglySorted N.lt (rd_got c).*1 ∧
     (∀ t, weak_recv b (wr_history (wk_writer s)) t c ≠ Panic) ∧
     ∃ t c', weak_recv b (wr_history (wk_writer s)) t c = Ret (Some c')) ∧
  ∃ wp, weak_send b (wk_writer s) (wk_sender s) = Ret wp.
Proof.
  intros Hc Hr Hn. pose proof (channel_fresh _ _ Hc) as Hb.
  pose proof (weak_rtc_inv b Hb _ _ Hr Hn (weak_start_inv b)) as [Hh Hpc Hrd]. split.
  - intros i c Hi. pose proof (Hrd _ _ Hi) as Hok. split_and!.
    + intros p x Hin. by apply (ro_got b _ _ _ Hok).
    + apply (ro_order b _ _ _ Hok).
    + intros t E. destruct (weak_recv_inv b Hb _ _ _ t Hh Hn Hok) as (oc & E' & _). congruence.
    + by apply (weak_recv_ready b Hb _ _ _ Hh Hn).
  - destruct (weak_send_inv b Hb _ _ _ Hn Hh Hpc) as (w' & pc' & E & _). by exists (w', pc').
Qed.

(** C15: nothing a receiver knows of is lost, on weak memory either: when its
    thread has synchronised with the sender's after the send of its next
    position, and the sender has not come back to that slot, every call of
    [try_recv] hands it that event: no access on the way returns [None] or goes
    elsewhere, and it takes as many accesses as there are words and three,
    whatever the loads return. *)
Theorem known_event_is_delivered n b s i c pos x :
  channel (T := T) n = Ret b → rtc (weak_step b) weak_start s → N.of_nat (length (wk_sent s)) < 2 ^ 62 →
  wk_readers s !! i = Some c → on_its_way pos c →
  wk_sent s !! N.to_nat pos = Some x → N.of_nat (length (wk_sent s)) ≤ pos + capacity b →
  (∃ t c', weak_recv b (wr_history (wk_writer s)) t c = Ret (Some c')) ∧
  ∀ t c', weak_recv b (wr_history (wk_writer s)) t c = Ret (Some c') →
    (on_its_way pos c' ∧ accesses c' = S (accesses c) ∧ rd_got c' = rd_got c) ∨
    (accesses c = (WORDS + 2)%nat ∧ rd_pc c' = RIdle ∧ rd_got c' = rd_got c ++ [(pos, x)]).
Proof.
  intros Hc Hr Hn Hi Hway Hx Hroom. pose proof (channel_fresh _ _ Hc) as Hb.
  pose proof (weak_rtc_inv b Hb _ _ Hr Hn (weak_start_inv b)) as [Hh _ Hrd]. pose proof (Hrd _ _ Hi) as Hok. split.
  - by eapply weak_recv_ready.
  - intros t c' E. by eapply on_its_way_step.
Qed.
End statement.

(** ** Schedules, run *)

Inductive weak_action :=
  | WBegin (e : JobEvent)
  | WSend
  | WSubscribe (t : nat)
  | WRecv (i t : nat)     (* the load returns what its place held at time [t] *)
  | WSynchronise (i n : nat).

Section schedule.
Variable b : RingBuffer.

Definition weak_act (s : WeakRing (T := JobEvent)) (a : weak_action) : option (WeakRing (T := JobEvent)) :=
  let '(mkWeakRing w pc sent readers) := s in
  match a with
  | WBegin e =>
      match pc with
      | SIdle => Some (mkWeakRing (weak_begin b e w).1 (weak_begin b e w).2 (sent ++ [e]) readers)
      | _ => None
      end
  | WSend => match weak_send b w pc with Ret (w', pc') => Some (mkWeakRing w' pc' sent readers) | Panic => None end
  | WSubscribe t => c ← weak_subscribe b (wr_history w) t blank; Some (mkWeakRing w pc sent (readers ++ [c]))
  | WRecv i t =>
      c ← readers !! i;
      match weak_recv b (wr_history w) t c with
      | Ret (Some c') => Some (mkWeakRing w pc sent (<[i := c']> readers))
      | _ => None
      end
  | WSynchronise i n =>
      c ← readers !! i;
      if decide (n ≤ length (wr_history w))%nat then Some (mkWeakRing w pc sent (<[i := synchronise n c]> readers))
      else None
  end.

Fixpoint weak_acts (l : list weak_action) (s : WeakRing (T := JobEvent)) : option (WeakRing (T := JobEvent)) :=
  match l with [] => Some s | a :: l => s' ← weak_act s a; weak_acts l s' end.

Lemma weak_act_step s a s' : weak_act s a = Some s' → weak_step b s s'.
Proof.
  destruct s as [w pc sent readers], a as [e| |t|i t|i n]; cbn.
  - destruct pc; [|done..]. intros [= <-]. constructor.
  - destruct (weak_send b w pc) as [[w' pc']|] eqn:E; [|done]. intros [= <-]. by constructor.
  - destruct (weak_subscribe b _ t blank) as [c|] eqn:E; [|done]. intros [= <-]. by econstructor.
  - destruct (readers !! i) as [c|] eqn:Ec; [|done]. cbn.
    destruct (weak_recv b _ t c) as [[c'|]|] eqn:E; [|done..]. intros [= <-]. by econstructor.
  - destruct (readers !! i) as [c|] eqn:Ec; [|done]. cbn. case_decide; [|done]. intros [= <-]. by constructor.
Qed.

Lemma weak_acts_rtc l s s' : weak_acts l s = Some s' → rtc (weak_step b) s s'.
Proof.
  revert s. induction l as [|a l IH]; cbn; intros s; [by intros [= ->]|].
  destruct (weak_act s a) as [s1|] eqn:E; [|done]. intros Hr%IH. eapply rtc_l; [by apply (weak_act_step _ a) | exact Hr].
Qed.
End schedule.

Definition demo_pair : RingBuffer := default (mkRingBuffer 0 [] [] 0 0) (returned (channel (T := JobEvent) 2)).

Definition whole_send (e : JobEvent) : list weak_action := WBegin e :: replicate 7 WSend.

(** Three events through two slots, the first overwritten; the receiver
    subscribed to a stale cursor and read nothing but stale versions and words. *)
Definition stale_reads : list weak_action :=
  concat (whole_send <$> take 3 demo_events) ++
  [WSubscribe 0] ++ (WRecv 0 <$> [7; 3; 4; 5; 6; 0; 7]%nat).

(** The same, but for one word of the later event. *)
Definition mixed_reads : list weak_action :=
  concat (whole_send <$> take 3 demo_events) ++
  [WSubscribe 0] ++ (WRecv 0 <$> [7; 17; 4; 5; 6; 0]%nat).

Definition demo_stale : WeakRing (T := JobEvent) := default weak_start (weak_acts demo_pair stale_reads weak_start).
Definition demo_mixed : WeakRing (T := JobEvent) := default weak_start (weak_acts demo_pair mixed_reads weak_start).

Lemma demo_stale_rtc : rtc (weak_step demo_pair) weak_start demo_stale.
Proof. apply (weak_acts_rtc demo_pair stale_reads). vm_compute. reflexivity. Qed.

(** With the mix staged, the old version is out of reach and the new one differs. *)
Example mixed_discarded :
  weak_act demo_pair demo_mixed (WRecv 0 7) = None ∧
  (λ s, rd_got <$> wk_readers s) <$> weak_act demo_pair demo_mixed (WRecv 0 21) = Some [[]].
Proof. split; vm_compute; reflexivity. Qed.

Lemma events_never_torn_weakly_witness :
  rd_got <$> wk_readers demo_stale = [[(0, demo_event 0)]] ∧ wk_sent demo_stale !! 0%nat = Some (demo_event 0).
Proof.
  split; [vm_compute; reflexivity|].
  destruct (events_never_torn_weakly 2 demo_pair demo_stale) as [Hr _];
    [vm_compute; reflexivity | exact demo_stale_rtc | vm_compute; reflexivity|].
  destruct (wk_readers demo_stale) as [|c l] eqn:E; [exfalso; vm_compute in E; discriminate|].
  destruct (Hr 0%nat c eq_refl) as [Hgot _]. apply (Hgot 0). vm_compute in E. injection E as <- <-. left.
Defined.

(** Two events are sent; a receiver subscribed to the stale cursor is told. *)
Definition told : list weak_action :=
  concat (whole_send <$> take 2 demo_events) ++ [WSubscribe 0; WSynchronise 0 14].

Definition demo_told : WeakRing (T := JobEvent) := default weak_start (weak_acts demo_pair told weak_start).

Lemma demo_told_rtc : rtc (weak_step demo_pair) weak_start demo_told.
Proof. apply (weak_acts_rtc demo_pair told). vm_compute. reflexivity. Qed.

Lemma known_event_is_delivered_witness :
  ∃ c t c', wk_readers demo_told !! 0%nat = Some c ∧
    weak_recv demo_pair (wr_history (wk_writer demo_told)) t c = Ret (Some c') ∧ on_its_way 0 c' ∧
    weak_recv demo_pair (wr_history (wk_writer demo_told)) 0 c = Ret None.
Proof.
  destruct (wk_readers demo_told !! 0%nat) as [c|] eqn:Ec; [|exfalso; vm_compute in Ec; discriminate].
  assert (on_its_way 0 c) as Hway.
  { vm_compute in Ec. injection Ec as <-. split; [reflexivity|]. apply Nat.leb_le. vm_compute. reflexivity. }
  destruct (known_event_is_delivered 2 demo_pair demo_told 0 c 0 (demo_event 0)) as [(t & c' & E) Hstep];
    [vm_compute; reflexivity | exact demo_told_rtc | vm_compute; reflexivity | exact Ec | exact Hway
    | vm_compute; reflexivity | apply N.leb_le; vm_compute; reflexivity |].
  exists c, t, c'. split; [reflexivity|]. split; [exact E|]. split.
  - destruct (Hstep t c' E) as [[H _]|[H _]]; [exact H|]. exfalso. vm_compute in Ec. injection Ec as <-.
    vm_compute in H. discriminate.
  - vm_compute in Ec. injection Ec as <-. vm_compute. reflexivity.
Defined.
