(* ===== verification/Store.v ===== *)
(** * The run store: [src/store/mod.rs]

    The two SQLite tables as finite maps keyed by their primary keys, and each
    SQL statement of the source as what it does to them: [INSERT OR REPLACE]
    replaces the row of its key, [ORDER BY] sorts, and a [SELECT] without an
    order lists the rows in an order nobody may rely on ([HashOrder]).  The
    code around the statements is translated as it is.  A statement SQLite
    fails changes nothing and is not modelled here; callers that look at the
    error take it as an input ([Server.v]). *)

From S2P Require Import Prelude Spec Pool Handle Model.

(** chrono's text form of a time. *)
Class Rfc3339 : Type := {
  to_rfc3339 : DateTime → string;
  parse_from_rfc3339 : string → option DateTime;
}.

Definition rfc3339_roundtrip `{Rfc3339} : Prop :=
  ∀ t, parse_from_rfc3339 (to_rfc3339 t) = Some t.

(** ** Tables *)

(** A row of [runs], but for its key [run_id]. *)
Record RunRecord := mkRunRecord {
  rt_workflow_name : string;
  rt_created_at : string;
  rt_spec_json : option string;  (* NULL when stored by an earlier release *)
}.

(** A row of [jobs], but for its key [(run_id, job_id)]. *)
Record JobRecord := mkJobRecord {
  jt_state : string;
  jt_exit_code : option Z;
  jt_started_at : option string;
  jt_ended_at : option string;
  jt_log_path : option string;
  jt_node : option string;
  jt_allocation : option string;
  jt_reason : option string;
}.

Record RunStore := mkRunStore {
  db_runs : gmap string RunRecord;
  db_jobs : gmap (string * string) JobRecord;
}.

(** A run row of a [SELECT]; [status] is computed at read time. *)
Record RunRow := mkRunRow {
  rr_run_id : string;
  rr_workflow_name : string;
  rr_status : string;
  rr_created_at : string;
}.

Record JobRow := mkJobRow {
  jr_run_id : string;
  jr_job_id : string;
  jr_state : string;
  jr_exit_code : option Z;
  jr_started_at : option string;
  jr_ended_at : option string;
  jr_log_path : option string;
  jr_reason : option string;
}.

(** A job's last stored state, and where it ran. *)
Record SavedJob := mkSavedJob {
  sj_row : JobRow;
  sj_node : option string;
  sj_allocation : option string;
}.

(** A run whose jobs hadn't all ended when the daemon stopped. *)
Record SavedRun := mkSavedRun {
  sv_run_id : string;
  sv_created_at : string;
  sv_spec_json : option string;
  sv_jobs : list SavedJob;
}.

#[export] Instance JobRow_eq_dec : EqDecision JobRow.
Proof. solve_decision. Defined.
#[export] Instance RunRow_eq_dec : EqDecision RunRow.
Proof. solve_decision. Defined.

(** ** Writing *)

Definition set_db_jobs (jobs : gmap (string * string) JobRecord) (db : RunStore) : RunStore :=
  mkRunStore (db_runs db) jobs.

(** Write or overwrite the run's identity columns and its spec. *)
Definition run_record `{Rfc3339} `{Serde WorkflowSpec} (run : WorkflowRun) : RunRecord :=
  mkRunRecord (wr_workflow_name run) (to_rfc3339 (wr_created_at run)) (Some (to_json (wr_spec run))).

Definition upsert_run_row `{Rfc3339} `{Serde WorkflowSpec} (run : WorkflowRun) (db : RunStore)
    : RunStore :=
  mkRunStore (<[wr_run_id run := run_record run]> (db_runs db)) (db_jobs db).

(** Write or overwrite a job's current state; its first allocation is kept
    with the node's name. *)
Definition job_record `{Rfc3339} `{Serde Allocation} (job : JobInstance) (node : option string)
    : JobRecord := {|
  jt_state := JobState.as_str (ji_state job);
  jt_exit_code := ji_exit_code job;
  jt_started_at := to_rfc3339 <$> ji_started_at job;
  jt_ended_at := to_rfc3339 <$> ji_ended_at job;
  jt_log_path := ji_log_path job;
  jt_node := node;
  jt_allocation := (λ e, to_json (ex_allocation e)) <$> head (ji_executions job);
  jt_reason := ji_reason job;
|}.

Definition upsert_job_row `{Rfc3339} `{Serde Allocation} (run_id : string) (job : JobInstance)
    (node : option string) (db : RunStore) : RunStore :=
  set_db_jobs (<[(run_id, ji_job_id job) := job_record job node]> (db_jobs db)) db.

(** A job that can't be taken back after a restart ends as Interrupted. *)
Definition interrupt_record (now : string) (r : JobRecord) : JobRecord :=
  mkJobRecord (JobState.as_str JobState.Interrupted) (jt_exit_code r) (jt_started_at r) (Some now)
    (jt_log_path r) None None (jt_reason r).

(** What a row may be of a job's record: the same, but for the end of an
    interrupted job, for which memory and the row each read the clock. *)
Definition end_record (now : string) (r : JobRecord) : JobRecord :=
  mkJobRecord (jt_state r) (jt_exit_code r) (jt_started_at r) (Some now) (jt_log_path r) (jt_node r)
    (jt_allocation r) (jt_reason r).

Definition shows `{Rfc3339} (row r : JobRecord) : Prop :=
  row = r ∨ (jt_state r = JobState.as_str JobState.Interrupted ∧ ∃ t, row = end_record (to_rfc3339 t) r).

Definition interrupt `{Rfc3339} (run_id job_id : string) (now : DateTime) (db : RunStore) : RunStore :=
  set_db_jobs (alter (interrupt_record (to_rfc3339 now)) (run_id, job_id) (db_jobs db)) db.

(** ** Reading *)

Definition job_row (k : string * string) (r : JobRecord) : JobRow :=
  mkJobRow k.1 k.2 (jt_state r) (jt_exit_code r) (jt_started_at r) (jt_ended_at r) (jt_log_path r)
    (jt_reason r).

Definition saved_job (k : string * string) (r : JobRecord) : SavedJob :=
  mkSavedJob (job_row k r) (jt_node r) (jt_allocation r).

(** [j.state IN ('Pending', 'Queued', 'Running')] *)
Definition unfinished (r : JobRecord) : bool :=
  existsb (String.eqb (jt_state r)) ["Pending"; "Queued"; "Running"].

(** Accumulates one run's identity plus its jobs' states. *)
Record RunAccumulator := mkRunAccumulator {
  ra_run_id : string;
  ra_workflow_name : string;
  ra_created_at : string;
  ra_job_states : list JobState.t;
}.

(** A state nothing else wrote counts as Failed. *)
Definition parse_state (state_str : string) : JobState.t :=
  match JobState.from_str state_str with Some state => state | None => JobState.Failed end.

Definition push_state (state_str : string) (acc : RunAccumulator) : RunAccumulator :=
  mkRunAccumulator (ra_run_id acc) (ra_workflow_name acc) (ra_created_at acc)
    (ra_job_states acc ++ [parse_state state_str]).

Definition into_run_row (acc : RunAccumulator) : RunRow :=
  mkRunRow (ra_run_id acc) (ra_workflow_name acc)
    (RunState.as_str (derive_run_state (ra_job_states acc))) (ra_created_at acc).

(** A row of [runs LEFT JOIN jobs]: the job's state is NULL for a run without
    jobs. *)
Record JoinRow := mkJoinRow {
  jn_run_id : string;
  jn_workflow_name : string;
  jn_created_at : string;
  jn_job_state : option string;
}.

(** [ORDER BY created_at DESC, run_id], on these two columns. *)
Definition newer (a b : string * string) : Prop :=
  if decide (a.1 = b.1) then String.le a.2 b.2 else String.le b.1 a.1.

#[export] Instance newer_dec : RelDecision newer.
Proof. intros a b. unfold newer. case_decide; apply _. Defined.

Definition created_id (row : JoinRow) : string * string := (jn_created_at row, jn_run_id row).

Definition newest_first (a b : JoinRow) : Prop := newer (created_id a) (created_id b).

#[export] Instance newest_first_dec : RelDecision newest_first.
Proof. intros a b. apply newer_dec. Defined.

(** The loop of [list_runs]: rows of one run follow each other. *)
Definition list_row (acc : list RunRow * option RunAccumulator) (row : JoinRow)
    : list RunRow * option RunAccumulator :=
  let '(result, current) := acc in
  let is_new_run := match current with
    | Some c => negb (String.eqb (ra_run_id c) (jn_run_id row))
    | None => true
    end in
  let '(result, current) :=
    if is_new_run then
      (result ++ match current with Some finished => [into_run_row finished] | None => [] end,
       Some (mkRunAccumulator (jn_run_id row) (jn_workflow_name row) (jn_created_at row) []))
    else (result, current) in
  (result, match jn_job_state row with
           | Some state_str => push_state state_str <$> current
           | None => current
           end).

Section with_order.
Context `{HashOrder}.

(** The jobs of a run, in the order SQLite happens to list them. *)
Definition jobs_of_run (run_id : string) (db : RunStore) : list ((string * string) * JobRecord) :=
  List.filter (λ kr, String.eqb kr.1.1 run_id) (hm_iter (db_jobs db)).

Definition join_run (db : RunStore) (kr : string * RunRecord) : list JoinRow :=
  let row := mkJoinRow kr.1 (rt_workflow_name kr.2) (rt_created_at kr.2) in
  match jobs_of_run kr.1 db with
  | [] => [row None]
  | jobs => (λ j, row (Some (jt_state j.2))) <$> jobs
  end.

(** All runs, newest first, each with the status its jobs give it. *)
Definition list_runs (db : RunStore) : list RunRow :=
  let rows := merge_sort newest_first (hm_iter (db_runs db) ≫= join_run db) in
  let '(result, current) := foldl list_row ([], None) rows in
  result ++ match current with Some finished => [into_run_row finished] | None => [] end.

(** A single run; none when it isn't stored. *)
Definition get_run (run_id : string) (db : RunStore) : option RunRow :=
  let rows := match db_runs db !! run_id with Some r => join_run db (run_id, r) | None => [] end in
  match rows with
  | [] => None
  | first :: _ =>
      Some (into_run_row (foldl (λ acc row, match jn_job_state row with
                                            | Some state_str => push_state state_str acc
                                            | None => acc
                                            end)
        (mkRunAccumulator run_id (jn_workflow_name first) (jn_created_at first) []) rows))
  end.

(** The jobs of a run, [ORDER BY job_id]. *)
Definition list_jobs (run_id : string) (db : RunStore) : list JobRow :=
  merge_sort (λ a b, String.le (jr_job_id a) (jr_job_id b))
    ((λ kr, job_row kr.1 kr.2) <$> jobs_of_run run_id db).

(** Runs with a job that hasn't ended, oldest first, with all their jobs. *)
Definition saved_run (db : RunStore) (kr : string * RunRecord) : SavedRun :=
  mkSavedRun kr.1 (rt_created_at kr.2) (rt_spec_json kr.2)
    ((λ j, saved_job j.1 j.2) <$> jobs_of_run kr.1 db).

Definition unfinished_runs (db : RunStore) : list SavedRun :=
  saved_run db <$>
  merge_sort (λ a b, String.le (rt_created_at a.2) (rt_created_at b.2))
    (List.filter (λ kr, existsb (λ j, unfinished j.2) (jobs_of_run kr.1 db)) (hm_iter (db_runs db))).

End with_order.

(** ** Grouping sorted rows by run *)

Definition states_in (rows : list JoinRow) (run_id : string) : list JobState.t :=
  omap (λ row, if decide (jn_run_id row = run_id) then parse_state <$> jn_job_state row else None) rows.

Definition names (a : RunAccumulator) (row : JoinRow) : Prop :=
  ra_run_id a = jn_run_id row ∧ ra_workflow_name a = jn_workflow_name row ∧
  ra_created_at a = jn_created_at row.

(** What the loop of [list_runs] has built from the rows so far. *)
Record listed (pre : list JoinRow) (result : list RunRow) (current : option RunAccumulator)
    (accs : list RunAccumulator) : Prop := {
  li_result : result = into_run_row <$> accs;
  li_NoDup : NoDup (ra_run_id <$> accs ++ option_list current);
  li_ids : ∀ id, id ∈ ra_run_id <$> accs ++ option_list current ↔ id ∈ jn_run_id <$> pre;
  li_accs : ∀ a, a ∈ accs ++ option_list current →
    (∃ row, row ∈ pre ∧ names a row) ∧ ra_job_states a = states_in pre (ra_run_id a);
  li_last : jn_run_id <$> last pre = ra_run_id <$> current;
  li_order : (λ a, (ra_created_at a, ra_run_id a)) <$> accs ++ option_list current
    `sublist_of` created_id <$> pre;
}.

(** Rows of one run follow each other. *)
Definition contiguous (rows : list JoinRow) : Prop :=
  ∀ pre row suf, rows = pre ++ row :: suf → jn_run_id row ∈ jn_run_id <$> pre →
    jn_run_id <$> last pre = Some (jn_run_id row).

Lemma states_in_snoc pre row id :
  states_in (pre ++ [row]) id =
    states_in pre id ++
    (if decide (jn_run_id row = id) then option_list (parse_state <$> jn_job_state row) else []).
Proof.
  unfold states_in. rewrite omap_app. f_equal. cbn. case_decide; [|done].
  by destruct (jn_job_state row).
Qed.

Lemma states_in_absent pre id : id ∉ jn_run_id <$> pre → states_in pre id = [].
Proof.
  induction pre as [|row pre IH]; [done|]. cbn. rewrite not_elem_of_cons. intros [Hne Hni].
  rewrite decide_False by done. by apply IH.
Qed.

Definition with_row (row : JoinRow) (a : RunAccumulator) : RunAccumulator :=
  match jn_job_state row with Some s => push_state s a | None => a end.

Lemma with_row_names row a row' : names a row' → names (with_row row a) row'.
Proof. unfold with_row. by destruct (jn_job_state row). Qed.

Lemma with_row_id row a : ra_run_id (with_row row a) = ra_run_id a.
Proof. unfold with_row. by destruct (jn_job_state row). Qed.

Lemma with_row_created row a : ra_created_at (with_row row a) = ra_created_at a.
Proof. unfold with_row. by destruct (jn_job_state row). Qed.

Lemma with_row_states row a :
  ra_job_states (with_row row a) = ra_job_states a ++ option_list (parse_state <$> jn_job_state row).
Proof.
  unfold with_row. destruct (jn_job_state row); cbn; [done|by rewrite app_nil_r].
Qed.

Lemma list_row_same result c row :
  ra_run_id c = jn_run_id row → list_row (result, Some c) row = (result, Some (with_row row c)).
Proof.
  intros E. unfold list_row, with_row. rewrite E, String.eqb_refl. cbn. by destruct (jn_job_state row).
Qed.

Lemma list_row_new result current row :
  ra_run_id <$> current ≠ Some (jn_run_id row) →
  list_row (result, current) row =
    (result ++ (into_run_row <$> option_list current),
     Some (with_row row (mkRunAccumulator (jn_run_id row) (jn_workflow_name row) (jn_created_at row) []))).
Proof.
  intros Hne. unfold list_row, with_row. destruct current as [c|]; cbn in *.
  - destruct (String.eqb_spec (ra_run_id c) (jn_run_id row)); [congruence|].
    by destruct (jn_job_state row).
  - rewrite app_nil_r. by destruct (jn_job_state row).
Qed.

(** One more row of the run being listed. *)
Lemma listed_same pre row result c accs :
  listed pre result (Some c) accs → ra_run_id c = jn_run_id row →
  listed (pre ++ [row]) (list_row (result, Some c) row).1 (list_row (result, Some c) row).2 accs.
Proof.
  intros [Hres Hnd Hids Haccs Hlast Hord] E.
  rewrite list_row_same by done. cbn [fst snd].
  assert (ra_run_id <$> accs ++ option_list (Some (with_row row c)) =
          ra_run_id <$> accs ++ option_list (Some c)) as Hsame.
  { rewrite !fmap_app. cbn. by rewrite with_row_id. }
  split; [done|by rewrite Hsame| | | |].
  - intros id. rewrite Hsame, Hids, fmap_app, elem_of_app. cbn.
    rewrite list_elem_of_singleton. split; [by left|]. intros [?| ->]; [done|].
    rewrite <-E. apply Hids, list_elem_of_fmap_2, elem_of_app. right. by left.
  - cbn in *. intros a [Ha|Ha%list_elem_of_singleton]%elem_of_app.
    + destruct (Haccs a) as [(r & Hr & Hn) Hs]; [apply elem_of_app; by left|].
      split; [exists r; split; [apply elem_of_app; by left|done]|].
      rewrite states_in_snoc, decide_False, app_nil_r; [done|].
      intros Heq. rewrite fmap_app, NoDup_app in Hnd. destruct Hnd as (_ & Hnd & _).
      apply (Hnd (ra_run_id a)); [by apply list_elem_of_fmap_2|]. cbn.
      rewrite <-Heq, E. by left.
    + subst a. destruct (Haccs c) as [(r & Hr & Hn) Hs]; [apply elem_of_app; right; by left|].
      split; [exists r; split; [apply elem_of_app; by left|by apply with_row_names]|].
      by rewrite with_row_states, with_row_id, states_in_snoc, decide_True, Hs.
  - rewrite last_snoc. cbn. by rewrite with_row_id, E.
  - rewrite (fmap_app _ pre). apply sublist_inserts_r. rewrite fmap_app in *. cbn in *.
    by rewrite with_row_created, with_row_id.
Qed.

(** The first row of another run. *)
Lemma listed_next pre row result current accs :
  listed pre result current accs → ra_run_id <$> current ≠ Some (jn_run_id row) →
  (jn_run_id row ∈ jn_run_id <$> pre → jn_run_id <$> last pre = Some (jn_run_id row)) →
  listed (pre ++ [row]) (list_row (result, current) row).1 (list_row (result, current) row).2
    (accs ++ option_list current).
Proof.
  intros [Hres Hnd Hids Haccs Hlast Hord] E Hcont.
  rewrite list_row_new by done. cbn [fst snd option_list].
  set (c := mkRunAccumulator _ _ _ _).
  assert (jn_run_id row ∉ jn_run_id <$> pre) as Hnew.
  { intros Hin. apply E. by rewrite <-Hlast, Hcont. }
  split.
  - by rewrite Hres, fmap_app.
  - rewrite fmap_app, NoDup_app. split_and!; [done| |apply NoDup_singleton].
    intros id Hid%Hids. cbn. rewrite with_row_id, list_elem_of_singleton. by intros ->.
  - intros id. rewrite fmap_app, elem_of_app, Hids, (fmap_app _ pre), elem_of_app. cbn.
    by rewrite with_row_id.
  - intros a [Ha|Ha%list_elem_of_singleton]%elem_of_app.
    + destruct (Haccs a Ha) as [(r & Hr & Hn) Hs].
      split; [exists r; split; [apply elem_of_app; by left|done]|].
      rewrite states_in_snoc, decide_False, app_nil_r; [done|].
      intros Heq. apply Hnew. rewrite Heq. by apply Hids, list_elem_of_fmap_2.
    + subst a. split.
      * exists row. split; [apply elem_of_app; right; by left|]. by apply with_row_names.
      * rewrite with_row_states, with_row_id, states_in_snoc, decide_True by done.
         by rewrite states_in_absent.
  - rewrite last_snoc. cbn. by rewrite with_row_id.
  - rewrite (fmap_app _ pre), fmap_app. apply sublist_app; [done|]. cbn.
    by rewrite with_row_created, with_row_id.
Qed.

(** One more row. *)
Lemma listed_snoc pre row result current accs :
  listed pre result current accs →
  (jn_run_id row ∈ jn_run_id <$> pre → jn_run_id <$> last pre = Some (jn_run_id row)) →
  ∃ accs', listed (pre ++ [row]) (list_row (result, current) row).1
             (list_row (result, current) row).2 accs'.
Proof.
  intros Hl Hcont. destruct (decide (ra_run_id <$> current = Some (jn_run_id row))) as [E|E].
  - destruct current as [c|]; [|done]. injection E as E. exists accs. by apply listed_same.
  - eexists. by apply listed_next.
Qed.

Lemma listed_rows rows :
  contiguous rows →
  ∃ accs, listed rows (foldl list_row ([], None) rows).1 (foldl list_row ([], None) rows).2 accs.
Proof.
  induction rows as [|row pre IH] using rev_ind; intros Hc.
  { exists []. split; cbn; try done; [constructor|]. by intros a ?%elem_of_nil. }
  destruct IH as [accs IH].
  { intros pre' row' suf ->. apply (Hc pre' row' (suf ++ [row])). by rewrite <-app_assoc. }
  rewrite foldl_app. cbn. destruct (foldl list_row ([], None) pre) as [result current].
  eapply listed_snoc; [done|]. by apply (Hc pre row []).
Qed.

(** ** Sorted rows are contiguous *)

#[export] Instance newer_total : Total newer.
Proof.
  intros a b. unfold newer. destruct (decide (a.1 = b.1)) as [E|E].
  - rewrite decide_True by done. apply (total String.le).
  - rewrite decide_False by done. destruct (total String.le b.1 a.1); auto.
Qed.

#[export] Instance newer_trans : Transitive newer.
Proof.
  intros a b c. unfold newer. intros H1 H2.
  destruct (decide (a.1 = b.1)) as [E|E]; destruct (decide (b.1 = c.1)) as [F|F].
  - rewrite decide_True by congruence. by etrans.
  - rewrite decide_False by congruence. by rewrite E.
  - rewrite decide_False by congruence. by rewrite <-F.
  - rewrite decide_False; [by etrans|]. intros G. rewrite G in *.
    by apply E, (anti_symm String.le).
Qed.

#[export] Instance newest_first_total : Total newest_first.
Proof. intros a b. apply (total newer). Qed.

#[export] Instance newest_first_trans : Transitive newest_first.
Proof. intros a b c. apply (transitivity (R := newer)). Qed.

Lemma StronglySorted_sublist {A} (R : relation A) (l l' : list A) :
  l `sublist_of` l' → StronglySorted R l' → StronglySorted R l.
Proof.
  induction 1 as [|x l l' Hsub IH|x l l' Hsub IH]; [done| |]; rewrite !StronglySorted_cons.
  - intros [Hx Hs]. split; [|by apply IH]. rewrite Forall_forall in *. intros y Hy.
    apply Hx. by eapply elem_of_sublist.
  - intros [_ Hs]. by apply IH.
Qed.

Lemma sorted_contiguous rows :
  StronglySorted newest_first rows →
  (∀ r r', r ∈ rows → r' ∈ rows → jn_run_id r = jn_run_id r' → jn_created_at r = jn_created_at r') →
  contiguous rows.
Proof.
  intros Hs Hc pre row suf -> (r & E & Hr)%list_elem_of_fmap.
  destruct pre as [|l pre _] using rev_ind; [by apply elem_of_nil in Hr|]. rewrite last_snoc. cbn.
  f_equal. apply elem_of_app in Hr as [Hr| ->%list_elem_of_singleton]; [|done].
  assert (jn_created_at r = jn_created_at row) as Hcr.
  { apply Hc; [..|done]; rewrite !elem_of_app; [left; by left|right; by left]. }
  rewrite <-app_assoc in Hs. cbn in Hs.
  assert (newest_first r l) as H1 by (eapply StronglySorted_app_1_elem_of; [done|done|by left]).
  apply StronglySorted_app_1_r, StronglySorted_cons in Hs as [Hs _].
  rewrite Forall_forall in Hs. assert (newest_first l row) as H2 by (apply Hs; by left).
  unfold newest_first, newer, created_id in H1, H2. cbn in H1, H2. rewrite <-Hcr in H2.
  destruct (decide (jn_created_at r = jn_created_at l)) as [Hrl|Hne].
  - rewrite decide_True in H2 by done. apply (anti_symm String.le); [done|by rewrite E].
  - rewrite decide_False in H2 by done. destruct Hne. by apply (anti_symm String.le).
Qed.

(** ** Reading the tables *)

Section reading.
Context `{HashOrder}.
Implicit Types db : RunStore.

(** The states of a run's jobs, and the row a [SELECT] owes the run. *)
Definition run_states (id : string) db : list JobState.t :=
  (λ j, parse_state (jt_state j.2)) <$> jobs_of_run id db.

Definition run_row db (kr : string * RunRecord) : RunRow :=
  mkRunRow kr.1 (rt_workflow_name kr.2) (RunState.as_str (derive_run_state (run_states kr.1 db)))
    (rt_created_at kr.2).

Lemma elem_of_jobs_of_run id db k r :
  (k, r) ∈ jobs_of_run id db ↔ db_jobs db !! k = Some r ∧ k.1 = id.
Proof.
  unfold jobs_of_run. rewrite list_elem_of_In, filter_In, <-list_elem_of_In, elem_of_hm_iter. cbn.
  by rewrite String.eqb_eq.
Qed.

Lemma join_run_row db kr row :
  row ∈ join_run db kr →
  jn_run_id row = kr.1 ∧ jn_workflow_name row = rt_workflow_name kr.2 ∧
  jn_created_at row = rt_created_at kr.2.
Proof.
  unfold join_run. destruct (jobs_of_run kr.1 db) as [|j l].
  - by intros ->%list_elem_of_singleton.
  - by intros (? & -> & _)%list_elem_of_fmap.
Qed.

Lemma join_run_nonempty db kr : ∃ row, row ∈ join_run db kr.
Proof.
  unfold join_run. destruct (jobs_of_run kr.1 db) as [|j l]; eexists; cbn; by left.
Qed.

Lemma states_in_join db kr id :
  states_in (join_run db kr) id = if decide (kr.1 = id) then run_states kr.1 db else [].
Proof.
  unfold join_run, run_states. destruct (jobs_of_run kr.1 db) as [|j l].
  - cbn. by case_decide.
  - generalize (j :: l). clear j l. intros l. unfold states_in. induction l as [|j l IH]; cbn.
    + by case_decide.
    + rewrite IH. by case_decide.
Qed.

Lemma states_in_joins db l id r :
  NoDup l.*1 → (id, r) ∈ l → states_in (l ≫= join_run db) id = run_states id db.
Proof.
  unfold states_in. induction l as [|kr l IH]; cbn; intros Hnd Hin; [by apply elem_of_nil in Hin|].
  apply NoDup_cons in Hnd as [Hni Hnd]. rewrite omap_app.
  change (omap _ (join_run db kr)) with (states_in (join_run db kr) id). rewrite states_in_join.
  apply elem_of_cons in Hin as [<-|Hin].
  - rewrite decide_True by done. cbn. rewrite <-(app_nil_r (run_states id db)) at 2. f_equal.
    apply states_in_absent. intros (row & -> & (kr & Hrow & Hkr)%list_elem_of_bind)%list_elem_of_fmap.
    apply join_run_row in Hrow as [E _]. apply Hni. cbn. rewrite E. by apply list_elem_of_fmap_2.
  - rewrite decide_False; [by apply IH|]. intros <-. apply Hni.
    by apply (list_elem_of_fmap_2 fst _ _ Hin).
Qed.

#[local] Instance states_in_perm : Proper ((≡ₚ) ==> (=) ==> (≡ₚ)) states_in.
Proof. intros l l' E id _ <-. unfold states_in. by rewrite E. Qed.

(** The accumulators of [list_runs] are the runs of the store. *)
Lemma listed_store db rows result current accs :
  rows ≡ₚ hm_iter (db_runs db) ≫= join_run db →
  listed rows result current accs →
  into_run_row <$> accs ++ option_list current ≡ₚ run_row db <$> map_to_list (db_runs db).
Proof.
  intros Hrows [_ Hnd Hids Haccs _ _]. rewrite <-(hm_iter_perm (db_runs db)).
  assert (∀ l : list (string * RunRecord), NoDup l.*1 → NoDup (run_row db <$> l)) as Hnd'.
  { intros l Hl. apply (NoDup_fmap_1 rr_run_id). by rewrite <-list_fmap_compose. }
  apply NoDup_Permutation.
  - apply (NoDup_fmap_1 rr_run_id). by rewrite <-list_fmap_compose.
  - apply Hnd', NoDup_hm_keys.
  - assert (∀ a id r, a ∈ accs ++ option_list current → (id, r) ∈ hm_iter (db_runs db) →
      ra_run_id a = id → into_run_row a = run_row db (id, r)) as Hrow.
    { intros a id r Ha Hr E. destruct (Haccs a Ha) as [(row & Hrow & Hid & Hname & Hcreated) Hs].
      rewrite Hrows in Hrow. apply list_elem_of_bind in Hrow as ([id' r'] & Hrow & Hkr).
      apply join_run_row in Hrow as (E1 & E2 & E3). cbn in *.
      assert (id' = id) as -> by congruence.
      apply elem_of_hm_iter in Hr, Hkr. assert (r' = r) as -> by congruence.
      unfold into_run_row, run_row. cbn. f_equal; [done|congruence| |congruence].
      f_equal. apply derive_run_state_perm. rewrite Hs, E, Hrows.
      erewrite states_in_joins; [done|apply NoDup_hm_keys|by apply elem_of_hm_iter]. }
    intros row. rewrite !list_elem_of_fmap. split.
    + intros (a & -> & Ha). destruct (Haccs a Ha) as [(x & Hx & Hid & _) _].
      rewrite Hrows in Hx. apply list_elem_of_bind in Hx as ([id r] & Hx & Hkr).
      apply join_run_row in Hx as (E & _). cbn in E. exists (id, r). split; [|done].
      apply Hrow; [done|done|congruence].
    + intros ([id r] & -> & Hkr).
      assert (id ∈ ra_run_id <$> accs ++ option_list current) as Hid.
      { apply Hids. destruct (join_run_nonempty db (id, r)) as [x Hx].
        pose proof (join_run_row _ _ _ Hx) as (E & _). cbn in E. rewrite <-E.
        apply list_elem_of_fmap_2. rewrite Hrows. apply list_elem_of_bind. by exists (id, r). }
      apply list_elem_of_fmap in Hid as (a & E & Ha). exists a. split; [|done]. symmetry.
      by apply Hrow.
Qed.

Lemma list_runs_spec db :
  list_runs db ≡ₚ run_row db <$> map_to_list (db_runs db) ∧
  StronglySorted newer ((λ row, (rr_created_at row, rr_run_id row)) <$> list_runs db).
Proof.
  unfold list_runs. set (rows := merge_sort _ _).
  assert (rows ≡ₚ hm_iter (db_runs db) ≫= join_run db) as Hp by apply merge_sort_Permutation.
  assert (StronglySorted newest_first rows) as Hsorted by apply (StronglySorted_merge_sort newest_first).
  destruct (listed_rows rows) as [accs Hl].
  - apply sorted_contiguous; [done|]. intros r r'. rewrite Hp.
    intros ([k x] & Hr & Hk)%list_elem_of_bind ([k' x'] & Hr' & Hk')%list_elem_of_bind E.
    apply join_run_row in Hr as (E1 & _ & ->), Hr' as (E2 & _ & ->). cbn in *.
    apply elem_of_hm_iter in Hk, Hk'. congruence.
  - pose proof (listed_store _ _ _ _ _ Hp Hl) as Hperm. destruct Hl as [Hres _ _ _ _ Hord].
    destruct (foldl list_row ([], None) rows) as [result current]. cbn in *.
    assert (result ++ match current with Some finished => [into_run_row finished] | None => [] end
            = into_run_row <$> accs ++ option_list current) as ->.
    { rewrite Hres, fmap_app. by destruct current. }
    split; [done|]. rewrite <-list_fmap_compose. eapply StronglySorted_sublist; [done|].
    by apply (StronglySorted_fmap created_id newest_first newer).
Qed.

Lemma fold_states rows acc :
  foldl (λ acc row, match jn_job_state row with
                    | Some state_str => push_state state_str acc
                    | None => acc
                    end) acc rows
  = mkRunAccumulator (ra_run_id acc) (ra_workflow_name acc) (ra_created_at acc)
      (ra_job_states acc ++ omap (λ row, parse_state <$> jn_job_state row) rows).
Proof.
  revert acc. induction rows as [|row rows IH]; intros acc; cbn.
  - rewrite app_nil_r. by destruct acc.
  - rewrite IH. destruct (jn_job_state row); cbn; [|done]. by rewrite <-app_assoc.
Qed.

Lemma get_run_spec id db : get_run id db = (λ r, run_row db (id, r)) <$> db_runs db !! id.
Proof.
  unfold get_run. destruct (db_runs db !! id) as [r|]; [|done]. cbn.
  assert (omap (λ row, parse_state <$> jn_job_state row) (join_run db (id, r)) = run_states id db) as Hs.
  { pose proof (states_in_join db (id, r) id) as Hs. cbn in Hs. rewrite decide_True in Hs by done.
    rewrite <-Hs. unfold states_in. apply list_omap_ext, Forall2_same_length_lookup_2; [done|].
    intros i row row' Hi Hi'. simplify_eq. apply list_elem_of_lookup_2, join_run_row in Hi as (E & _).
    cbn in E. by rewrite decide_True. }
  destruct (join_run db (id, r)) as [|first rows] eqn:E.
  { destruct (join_run_nonempty db (id, r)) as [row Hrow]. rewrite E in Hrow. by apply elem_of_nil in Hrow. }
  rewrite fold_states. cbn [ra_run_id ra_workflow_name ra_created_at ra_job_states app]. rewrite Hs.
  destruct (join_run_row db (id, r) first) as (_ & -> & ->); [rewrite E; by left|]. done.
Qed.

Lemma elem_of_list_jobs id db row :
  row ∈ list_jobs id db ↔
  ∃ r, db_jobs db !! (id, jr_job_id row) = Some r ∧ row = job_row (id, jr_job_id row) r.
Proof.
  unfold list_jobs. rewrite merge_sort_Permutation, list_elem_of_fmap. split.
  - intros ([[run job] r] & -> & [Hk <-]%elem_of_jobs_of_run). by exists r.
  - intros (r & Hk & E). exists ((id, jr_job_id row), r). split; [done|]. by apply elem_of_jobs_of_run.
Qed.

(** ** Unfinished runs *)

Lemma elem_of_unfinished_runs db sv :
  sv ∈ unfinished_runs db ↔
  ∃ r, db_runs db !! sv_run_id sv = Some r ∧ sv = saved_run db (sv_run_id sv, r) ∧
    ∃ j rec, db_jobs db !! (sv_run_id sv, j) = Some rec ∧ unfinished rec = true.
Proof.
  unfold unfinished_runs. rewrite list_elem_of_fmap. setoid_rewrite merge_sort_Permutation.
  setoid_rewrite list_elem_of_In. setoid_rewrite filter_In. setoid_rewrite <-list_elem_of_In.
  split.
  - intros ([id r] & -> & Hr%elem_of_hm_iter & ([[run j] rec] & Hj & Hu)%existsb_elem).
    apply elem_of_jobs_of_run in Hj as [Hj Hid]. cbn in Hid. subst run. exists r.
    split_and!; [done|done|]. by exists j, rec.
  - intros (r & Hr & E & j & rec & Hj & Hu). exists (sv_run_id sv, r).
    split_and!; [done|by apply elem_of_hm_iter|]. apply existsb_elem.
    exists ((sv_run_id sv, j), rec). split; [by apply elem_of_jobs_of_run|done].
Qed.

Lemma NoDup_unfinished_runs db : NoDup (sv_run_id <$> unfinished_runs db).
Proof.
  unfold unfinished_runs. rewrite <-list_fmap_compose.
  change (sv_run_id ∘ saved_run db) with (fst : string * RunRecord → string).
  rewrite merge_sort_Permutation. eapply sublist_NoDup; [apply (NoDup_hm_keys (db_runs db))|].
  unfold hm_keys. apply fmap_sublist, list_filter_sublist.
Qed.

Lemma NoDup_saved_jobs db kr : NoDup ((λ sj, jr_job_id (sj_row sj)) <$> sv_jobs (saved_run db kr)).
Proof.
  cbn. rewrite <-list_fmap_compose.
  assert (NoDup (jobs_of_run kr.1 db).*1) as Hnd.
  { eapply sublist_NoDup; [apply (NoDup_hm_keys (db_jobs db))|].
    apply fmap_sublist, list_filter_sublist. }
  assert (∀ k r, (k, r) ∈ jobs_of_run kr.1 db → k.1 = kr.1) as Hrun.
  { by intros k r [_ ?]%elem_of_jobs_of_run. }
  induction (jobs_of_run kr.1 db) as [|[[run j] r] l IH]; cbn in *; [constructor|].
  apply NoDup_cons in Hnd as [Hni Hnd]. constructor.
  - intros ([[run' j'] r'] & E & Hin)%list_elem_of_fmap. cbn in E. subst j'.
    apply Hni. assert (run' = run) as ->.
    { assert (run = kr.1) as -> by (apply (Hrun (run, j) r); left).
      apply (Hrun (run', j) r'). by right. }
    by apply (list_elem_of_fmap_2 fst _ _ Hin).
  - apply IH; [done|]. intros k r' Hin. apply (Hrun k r'). by right.
Qed.

Lemma elem_of_saved_jobs db kr sj :
  sj ∈ sv_jobs (saved_run db kr) ↔
  ∃ rec, db_jobs db !! (kr.1, jr_job_id (sj_row sj)) = Some rec ∧
    sj = saved_job (kr.1, jr_job_id (sj_row sj)) rec.
Proof.
  cbn. rewrite list_elem_of_fmap. split.
  - intros ([[run j] rec] & -> & [Hj E]%elem_of_jobs_of_run). cbn in E. subst run. by exists rec.
  - intros (rec & Hj & E). exists ((kr.1, jr_job_id (sj_row sj)), rec). split; [done|].
    by apply elem_of_jobs_of_run.
Qed.

(** ** Properties *)

(** [list_runs] lists every stored run exactly once, newest first and by
    id among runs of the same moment, each with the status derived from all of
    its jobs (a state nothing wrote counts as Failed), whatever order SQLite
    returns tied rows in; and [get_run] answers with the same row. *)
Theorem list_runs_exact db :
  list_runs db ≡ₚ run_row db <$> map_to_list (db_runs db) ∧
  StronglySorted newer ((λ row, (rr_created_at row, rr_run_id row)) <$> list_runs db) ∧
  ∀ id row, get_run id db = Some row ↔ row ∈ list_runs db ∧ rr_run_id row = id.
Proof.
  destruct (list_runs_spec db) as [Hp Hs]. split_and!; [done|done|]. intros id row.
  rewrite get_run_spec, fmap_Some, Hp, list_elem_of_fmap. split.
  - intros (r & Hr & ->). split; [|done]. exists (id, r). by rewrite elem_of_map_to_list.
  - intros [([k r] & -> & Hr%elem_of_map_to_list) <-]. by exists r.
Qed.

End reading.

(** ** What is stored of a run *)

Section persisted.
Context `{HashOrder} `{Rfc3339} `{Serde WorkflowSpec} `{Serde Allocation}.
Implicit Types db : RunStore.

(** The store holds a run as the scheduler last wrote it; [node_of] is the node
    name each job was written with. *)
Record persisted (node_of : JobInstance → option string) (run : WorkflowRun) (db : RunStore) : Prop := {
  ps_run : db_runs db !! wr_run_id run = Some (run_record run);
  ps_jobs : ∀ j, db_jobs db !! (wr_run_id run, j) =
    (λ job, job_record job (node_of job)) <$> wr_jobs run !! j;
}.

Lemma state_code_text s : parse_state (JobState.as_str s) = s.
Proof. by destruct s. Qed.

Lemma persisted_rows node_of run db :
  persisted node_of run db →
  jobs_of_run (wr_run_id run) db ≡ₚ
    (λ kj, ((wr_run_id run, kj.1), job_record kj.2 (node_of kj.2))) <$> map_to_list (wr_jobs run).
Proof.
  intros [_ Hjobs]. apply NoDup_Permutation.
  - apply NoDup_fmap_1 with fst. eapply sublist_NoDup; [apply (NoDup_hm_keys (db_jobs db))|].
    apply fmap_sublist, list_filter_sublist.
  - apply NoDup_fmap_1 with fst. rewrite <-list_fmap_compose.
    change (fst ∘ _) with (pair (wr_run_id run) ∘ (fst : string * JobInstance → string)).
    rewrite list_fmap_compose.
    apply NoDup_fmap_2; [by intros ?? [= ->]|apply NoDup_fst_map_to_list].
  - intros [[r j] rec]. rewrite elem_of_jobs_of_run, list_elem_of_fmap. cbn. split.
    + intros [Hj ->]. rewrite Hjobs in Hj. apply fmap_Some in Hj as (job & Hj & ->).
      exists (j, job). by rewrite elem_of_map_to_list.
    + intros ([j' job] & [= -> -> ->] & Hj%elem_of_map_to_list). by rewrite Hjobs, Hj.
Qed.

(** A stored run shows the status its jobs have in memory. *)
Lemma persisted_status node_of run db :
  persisted node_of run db → derive_run_state (run_states (wr_run_id run) db) = WorkflowRun.status run.
Proof.
  intros Hp. unfold run_states, WorkflowRun.status. rewrite (persisted_rows _ _ _ Hp).
  unfold hm_values. rewrite hm_iter_perm, <-!list_fmap_compose. f_equal.
  apply list_fmap_ext. intros i [k job] _. cbn. apply state_code_text.
Qed.

Lemma persisted_list_jobs node_of run db row :
  persisted node_of run db →
  row ∈ list_jobs (wr_run_id run) db ↔
  ∃ j job, wr_jobs run !! j = Some job ∧ row = job_row (wr_run_id run, j) (job_record job (node_of job)).
Proof.
  intros [_ Hjobs]. rewrite elem_of_list_jobs. setoid_rewrite Hjobs. split.
  - intros (r & (job & Hj & ->)%fmap_Some & E). eauto.
  - intros (j & job & Hj & ->). exists (job_record job (node_of job)). cbn. by rewrite Hj.
Qed.

(** One line per job, in the order of their ids. *)
Lemma list_jobs_lines db id :
  StronglySorted String.le (jr_job_id <$> list_jobs id db) ∧ NoDup (jr_job_id <$> list_jobs id db).
Proof.
  set (by_id := λ a b, String.le (jr_job_id a) (jr_job_id b)).
  assert (StronglySorted by_id (list_jobs id db)) as Hs.
  { assert (Transitive by_id) by (intros a b c; unfold by_id; apply transitivity).
    assert (Total by_id) by (intros a b; apply (total String.le)).
    by apply (StronglySorted_merge_sort by_id). }
  split.
  - induction Hs as [|row l Hs IH Hf]; cbn; constructor; [done|]. by apply Forall_fmap.
  - unfold list_jobs. rewrite merge_sort_Permutation, <-list_fmap_compose.
    assert (NoDup (fst <$> jobs_of_run id db)) as Hnd.
    { eapply sublist_NoDup; [apply (NoDup_hm_keys (db_jobs db))|]. apply fmap_sublist, list_filter_sublist. }
    assert (∀ kr, kr ∈ jobs_of_run id db → kr.1.1 = id) as Hid.
    { intros [[k j] r] [_ E]%elem_of_jobs_of_run. done. }
    clear Hs. induction (jobs_of_run id db) as [|[[k j] r] l IH]; [constructor|]. cbn in *.
    apply NoDup_cons in Hnd as [Hni Hnd]. apply NoDup_cons. split.
    + intros ([[k' j'] r'] & Ej & Hin)%list_elem_of_fmap. cbn in Ej. subst j'. apply Hni.
      apply list_elem_of_fmap. exists (k', j, r'). split; [|done].
      pose proof (Hid (k, j, r) ltac:(by left)). pose proof (Hid (k', j, r') ltac:(by right)). cbn in *. by subst.
    + apply IH; [done|]. intros kr Hin. apply Hid. by right.
Qed.

(** Writing a run's row and then each of its jobs stores the run. *)
Lemma persisted_upserts node_of run db :
  (∀ j job, wr_jobs run !! j = Some job → ji_job_id job = j) →
  (∀ j, db_jobs db !! (wr_run_id run, j) = None) →
  persisted node_of run (foldl (λ db job, upsert_job_row (wr_run_id run) job (node_of job) db)
    (upsert_run_row run db) (hm_values (wr_jobs run))).
Proof.
  intros Hids Hnone.
  assert (∀ l db0, db_runs (foldl (λ db job, upsert_job_row (wr_run_id run) job (node_of job) db) db0 l)
    = db_runs db0) as Hruns.
  { intros l. induction l as [|job l IH]; intros db0; [done|]. cbn. by rewrite IH. }
  assert (∀ l db0 j, db_jobs (foldl (λ db job, upsert_job_row (wr_run_id run) job (node_of job) db) db0 l)
      !! (wr_run_id run, j) =
    match last (List.filter (λ job, String.eqb (ji_job_id job) j) l) with
    | Some job => Some (job_record job (node_of job))
    | None => db_jobs db0 !! (wr_run_id run, j)
    end) as Hfold.
  { intros l. induction l as [|job l IH] using rev_ind; intros db0 j; [done|].
    rewrite foldl_app, List.filter_app. cbn. destruct (String.eqb_spec (ji_job_id job) j) as [<-|Hne].
    - by rewrite lookup_insert_eq, last_snoc.
    - rewrite lookup_insert_ne by congruence. by rewrite app_nil_r, IH. }
  split; [rewrite Hruns; apply lookup_insert_eq|]. intros j. rewrite Hfold.
  destruct (wr_jobs run !! j) as [job|] eqn:Hj; cbn [fmap option_fmap option_map].
  - assert (List.filter (λ job, String.eqb (ji_job_id job) j) (hm_values (wr_jobs run)) ≠ []) as Hne.
    { intros E. assert (job ∈ List.filter (λ job, String.eqb (ji_job_id job) j) (hm_values (wr_jobs run))) as Hin.
      { apply list_elem_of_In, filter_In. rewrite <-list_elem_of_In, elem_of_hm_values, (Hids _ _ Hj).
        split; [by exists j|apply String.eqb_refl]. }
      rewrite E in Hin. by apply elem_of_nil in Hin. }
    destruct (last _) as [job'|] eqn:El; [|by apply last_None in El].
    apply last_Some_elem_of, list_elem_of_In, filter_In in El as [Hin Hid%String.eqb_eq].
    apply list_elem_of_In, elem_of_hm_values in Hin as [k Hk].
    pose proof (Hids _ _ Hk) as Hk'. rewrite Hid in Hk'. by simplify_eq.
  - destruct (last _) as [job'|] eqn:El; [|apply Hnone].
    apply last_Some_elem_of, list_elem_of_In, filter_In in El as [Hin Hid%String.eqb_eq].
    apply list_elem_of_In, elem_of_hm_values in Hin as [k Hk].
    pose proof (Hids _ _ Hk) as Hk'. rewrite Hid in Hk'. by simplify_eq.
Qed.

End persisted.

(** ** Concrete encodings, for the witnesses *)

Definition demo_rfc3339 : Rfc3339 := {|
  to_rfc3339 := λ t, positive_to_text (encode t);
  parse_from_rfc3339 := λ s, decode (positive_of_text s);
|}.

Lemma demo_rfc3339_roundtrip : @rfc3339_roundtrip demo_rfc3339.
Proof. intros t. apply (demo_serde_roundtrip (A := DateTime)). Qed.

Definition demo_spec_serde : Serde WorkflowSpec := demo_serde.
Definition demo_allocation_serde : Serde Allocation := demo_serde.
