(* ===== verification/Dag.v ===== *)
(** * Workflow validation: [src/workflow/dag.rs]

    The three checks a submitted workflow passes: unique ids, known
    dependencies, and Kahn's algorithm.  Kahn's loop runs on fuel, with a
    measure on its own state that shows the fuel given always suffices; the
    initial queue and the job named by a [Cycle] error follow the iteration
    order of a hash map, so both are read through [hm_iter]. *)

From S2P Require Import Prelude Spec.

(** ** Operations *)

Inductive DagError :=
  | EmptyWorkflow
  | DuplicateJobId (job_id : string)
  | UnknownDependency (job_id dep_id : string)
  | Cycle (job_id : string).

Definition DagError_to_string (e : DagError) : string :=
  match e with
  | EmptyWorkflow => "workflow must have at least one job"
  | DuplicateJobId job_id => "duplicate job id: " +:+ job_id
  | UnknownDependency job_id dep_id =>
      "job '" +:+ job_id +:+ "' depends on unknown job '" +:+ dep_id +:+ "'"
  | Cycle job_id => "cycle detected involving job '" +:+ job_id +:+ "'"
  end.

(** Reject any workflow where two jobs share the same ID. *)
Fixpoint check_duplicate_ids_from (seen : gset string) (jobs : list JobSpec) : result unit DagError :=
  match jobs with
  | [] => Ok tt
  | job :: jobs' =>
      if bool_decide (js_id job ∈ seen) then Err (DuplicateJobId (js_id job))
      else check_duplicate_ids_from ({[js_id job]} ∪ seen) jobs'
  end.

Definition check_duplicate_ids (spec : WorkflowSpec) : result unit DagError :=
  check_duplicate_ids_from ∅ (ws_jobs spec).

(** Reject any job whose depends_on references a non-existent job ID. *)
Fixpoint check_deps_of (known : gset string) (job : JobSpec) (deps : list string)
    : result unit DagError :=
  match deps with
  | [] => Ok tt
  | dep_id :: deps' =>
      if bool_decide (dep_id ∈ known) then check_deps_of known job deps'
      else Err (UnknownDependency (js_id job) dep_id)
  end.

Fixpoint check_jobs_deps (known : gset string) (jobs : list JobSpec) : result unit DagError :=
  match jobs with
  | [] => Ok tt
  | job :: jobs' =>
      match check_deps_of known job (js_depends_on job) with
      | Err e => Err e
      | Ok _ => check_jobs_deps known jobs'
      end
  end.

Definition check_unknown_deps (spec : WorkflowSpec) : result unit DagError :=
  check_jobs_deps (list_to_set (js_id <$> ws_jobs spec)) (ws_jobs spec).

(** [in_degree]: the number of dependencies of each job. *)
Definition initial_in_degree (jobs : list JobSpec) : gmap string nat :=
  foldl (λ m job, <[js_id job := length (js_depends_on job)]> m) ∅ jobs.

(** [dependents.entry(dep).or_default().push(id)] *)
Definition push_dependent (id : string) (m : gmap string (list string)) (dep : string)
    : gmap string (list string) :=
  <[dep := default [] (m !! dep) ++ [id]]> m.

Definition initial_dependents (jobs : list JobSpec) : gmap string (list string) :=
  foldl (λ m job, foldl (push_dependent (js_id job)) m (js_depends_on job))
    (foldl (λ m job, <[js_id job := []]> m) ∅ jobs) jobs.

(** [*degree -= 1; if *degree == 0 { queue.push_back(dependent) }] *)
Definition relax (acc : gmap string nat * list string) (dependent : string)
    : exec (gmap string nat * list string) :=
  let '(in_degree, queue) := acc in
  match default 0%nat (in_degree !! dependent) with
  | O => Panic
  | S degree =>
      Ret (<[dependent := degree]> in_degree,
           if (degree =? 0)%nat then queue ++ [dependent] else queue)
  end.

(** [while let Some(job_id) = queue.pop_front() { .. }]; [None] is out of fuel. *)
Fixpoint topo_loop (fuel : nat) (dependents : gmap string (list string))
    (in_degree : gmap string nat) (queue order : list string)
    : option (exec (gmap string nat * list string)) :=
  match fuel with
  | O => None
  | S fuel' =>
      match queue with
      | [] => Some (Ret (in_degree, order))
      | job_id :: queue' =>
          match foldM relax (in_degree, queue') (default [] (dependents !! job_id)) with
          | Panic => Some Panic
          | Ret (in_degree', queue'') =>
              topo_loop fuel' dependents in_degree' queue'' (order ++ [job_id])
          end
      end
  end.

(** Each turn pops one entry and each decrement adds at most one. *)
Definition degree_sum (m : gmap string nat) : nat := sum_list (map_to_list m).*2.
Definition topo_fuel (in_degree : gmap string nat) (queue : list string) : nat :=
  S (2 * degree_sum in_degree + length queue).

Section with_order.
Context `{HashOrder}.

Definition initial_queue (in_degree : gmap string nat) : list string :=
  (List.filter (λ kd, kd.2 =? 0)%nat (hm_iter in_degree)).*1.

(** [in_degree.into_iter().find(|(_, degree)| *degree > 0)] *)
Definition cycled_job (in_degree : gmap string nat) : string :=
  match List.find (λ kd, 0 <? kd.2)%nat (hm_iter in_degree) with
  | Some kd => kd.1
  | None => "unknown"
  end.

(** Kahn's algorithm: job IDs in topological order, or [Cycle]. *)
Definition topo_sort (spec : WorkflowSpec) : option (exec (result (list string) DagError)) :=
  let in_degree := initial_in_degree (ws_jobs spec) in
  let dependents := initial_dependents (ws_jobs spec) in
  let queue := initial_queue in_degree in
  match topo_loop (topo_fuel in_degree queue) dependents in_degree queue [] with
  | None => None
  | Some Panic => Some Panic
  | Some (Ret (in_degree', order)) =>
      Some (Ret (if (length order =? length (ws_jobs spec))%nat then Ok order
                 else Err (Cycle (cycled_job in_degree'))))
  end.

(** Validate a workflow spec. *)
Definition validate (spec : WorkflowSpec) : option (exec (result unit DagError)) :=
  match ws_jobs spec with
  | [] => Some (Ret (Err EmptyWorkflow))
  | _ :: _ =>
      match check_duplicate_ids spec with
      | Err e => Some (Ret (Err e))
      | Ok _ =>
          match check_unknown_deps spec with
          | Err e => Some (Ret (Err e))
          | Ok _ =>
              match topo_sort spec with
              | None => None
              | Some Panic => Some Panic
              | Some (Ret (Err e)) => Some (Ret (Err e))
              | Some (Ret (Ok _)) => Some (Ret (Ok tt))
              end
          end
      end
  end.

End with_order.

(** ** Termination *)

Lemma degree_sum_decrement m k d :
  m !! k = Some (S d) → degree_sum m = S (degree_sum (<[k := d]> m)).
Proof.
  intros Hk. unfold degree_sum.
  assert (∀ x, sum_list (map_to_list (<[k := x]> (delete k m))).*2
    = (x + sum_list (map_to_list (delete k m)).*2)%nat) as Hins.
  { intros x. rewrite map_to_list_insert by apply lookup_delete_eq. done. }
  rewrite <-(insert_id m k (S d) Hk) at 1.
  rewrite <-(insert_delete_eq m k (S d)), <-(insert_delete_eq m k d), !Hins. done.
Qed.

Lemma relax_measure acc acc' y :
  relax acc y = Ret acc' →
  (2 * degree_sum acc'.1 + length acc'.2 ≤ 2 * degree_sum acc.1 + length acc.2)%nat.
Proof.
  destruct acc as [m q]. unfold relax. destruct (m !! y) as [[|d]|] eqn:Hy; cbn; [done| |done].
  intros [= <-]. cbn. rewrite (degree_sum_decrement _ _ _ Hy).
  destruct (d =? 0)%nat; rewrite ?length_app; cbn; lia.
Qed.

Lemma foldM_relax_measure ys acc acc' :
  foldM relax acc ys = Ret acc' →
  (2 * degree_sum acc'.1 + length acc'.2 ≤ 2 * degree_sum acc.1 + length acc.2)%nat.
Proof.
  intros Hf. eapply (foldM_inv_ret (λ b : gmap string nat * list string,
    2 * degree_sum b.1 + length b.2 ≤ 2 * degree_sum acc.1 + length acc.2)%nat); [exact Hf|done|].
  intros b b' y _ Hr Hle. apply relax_measure in Hr. lia.
Qed.

Lemma topo_loop_fuel fuel dependents m q o :
  (2 * degree_sum m + length q < fuel)%nat → topo_loop fuel dependents m q o ≠ None.
Proof.
  revert m q o. induction fuel as [|fuel IH]; intros m q o Hlt; [lia|]. cbn.
  destruct q as [|x q]; [done|]. destruct (foldM _ _ _) as [[m' q']|] eqn:Hf; [|done].
  apply foldM_relax_measure in Hf. apply IH. cbn in *. lia.
Qed.

(** ** Occurrences *)

Definition occ (x : string) (l : list string) : nat := length (filter (λ y, y = x) l).
Arguments occ : simpl never.

Lemma occ_cons x y l : occ x (y :: l) = ((if decide (y = x) then 1 else 0) + occ x l)%nat.
Proof. unfold occ. rewrite filter_cons. by destruct (decide (y = x)). Qed.

Lemma occ_app x l1 l2 : occ x (l1 ++ l2) = (occ x l1 + occ x l2)%nat.
Proof. unfold occ. by rewrite filter_app, length_app. Qed.

Lemma occ_pos x l : x ∈ l ↔ (0 < occ x l)%nat.
Proof.
  induction l as [|y l IH].
  - rewrite elem_of_nil. unfold occ. cbn. lia.
  - rewrite elem_of_cons, IH, occ_cons. destruct (decide (y = x)) as [->|Hne]; split.
    + lia.
    + by left.
    + intros [->|?]; [done|lia].
    + intros ?. right. lia.
Qed.

Lemma occ_zero x l : x ∉ l → occ x l = 0%nat.
Proof. rewrite occ_pos. lia. Qed.

Lemma occ_replicate x y n : occ x (replicate n y) = if decide (y = x) then n else 0%nat.
Proof.
  induction n as [|n IH]; [by destruct (decide _)|]. rewrite replicate_S, occ_cons, IH.
  destruct (decide (y = x)); lia.
Qed.

(** ** One relaxation pass *)

Lemma foldM_relax ys m q :
  (∀ y, y ∈ ys → ∃ n, m !! y = Some n ∧ (occ y ys ≤ n)%nat) →
  ∃ m' pushes, foldM relax (m, q) ys = Ret (m', q ++ pushes) ∧
    (∀ y, m' !! y = (λ n, n - occ y ys)%nat <$> m !! y) ∧
    NoDup pushes ∧ (∀ y, y ∈ pushes ↔ y ∈ ys ∧ m' !! y = Some 0%nat).
Proof.
  revert m q. induction ys as [|y ys IH]; intros m q Hle.
  { exists m, []. rewrite app_nil_r. split_and!; [done| |by constructor|].
    - intros y. unfold occ. cbn. destruct (m !! y); cbn; [|done]. by rewrite Nat.sub_0_r.
    - intros y. rewrite elem_of_nil. tauto. }
  destruct (Hle y) as (n & Hy & Hn); [by left|].
  rewrite occ_cons, decide_True in Hn by done. destruct n as [|d]; [lia|].
  destruct (IH (<[y := d]> m) (if (d =? 0)%nat then q ++ [y] else q)) as (m' & ps & Hf & Hm' & Hnd & Hps).
  { intros z Hz. destruct (decide (y = z)) as [<-|Hne].
    - exists d. rewrite lookup_insert_eq. split; [done|lia].
    - destruct (Hle z) as (k & Hk & Hlk); [by right|]. exists k.
      rewrite lookup_insert_ne by done. rewrite occ_cons, decide_False in Hlk by done. by split. }
  assert (Hlook : ∀ z, m' !! z = (λ n, n - occ z (y :: ys))%nat <$> m !! z).
  { intros z. rewrite Hm', occ_cons. destruct (decide (y = z)) as [<-|Hne].
    - rewrite lookup_insert_eq, Hy. cbn. f_equal.
    - by rewrite lookup_insert_ne. }
  exists m', ((if (d =? 0)%nat then [y] else []) ++ ps). split_and!.
  - cbn. rewrite Hy. cbn. rewrite Hf. destruct (d =? 0)%nat; by rewrite <-?app_assoc.
  - done.
  - destruct (Nat.eqb_spec d 0) as [->|]; [|done]. cbn. constructor; [|done].
    rewrite Hps. intros [Hin _]. apply occ_pos in Hin. clear -Hin Hn. lia.
  - intros z. rewrite elem_of_app, Hps, elem_of_cons.
    destruct (Nat.eqb_spec d 0) as [->|Hd].
    + rewrite list_elem_of_singleton. split; [|naive_solver].
      intros [->|?]; [|naive_solver]. split; [by left|].
      rewrite Hlook, Hy, occ_cons, decide_True by done. done.
    + rewrite elem_of_nil. split; [naive_solver|]. intros [[->|?] Hz]; [|by right; split]. right.
      split; [|done]. rewrite Hlook, Hy, occ_cons, decide_True in Hz by done.
      cbn in Hz. injection Hz as Hz. apply occ_pos. lia.
Qed.

(** ** The initial maps *)

Section jobs.
Context (jobs : list JobSpec).
Hypothesis ids_unique : NoDup (js_id <$> jobs).

(** [j] names [d] as a dependency. *)
Definition depends (j d : string) : Prop :=
  ∃ job, job ∈ jobs ∧ js_id job = j ∧ d ∈ js_depends_on job.

Lemma job_unique job job' : job ∈ jobs → job' ∈ jobs → js_id job = js_id job' → job = job'.
Proof using ids_unique.
  intros [i Hi]%list_elem_of_lookup [j Hj]%list_elem_of_lookup Heq.
  assert (i = j) as ->; [|by simplify_eq].
  apply (NoDup_lookup (js_id <$> jobs) i j (js_id job)); [exact ids_unique| |].
  - by rewrite list_lookup_fmap, Hi.
  - by rewrite list_lookup_fmap, Hj, Heq.
Qed.

Lemma foldl_insert_jobs {A} (f : JobSpec → A) (l : list JobSpec) (m : gmap string A) k a :
  foldl (λ m job, <[js_id job := f job]> m) m l !! k = Some a →
  m !! k = Some a ∨ ∃ job, job ∈ l ∧ js_id job = k ∧ a = f job.
Proof using Type.
  revert m. induction l as [|job l IH]; intros m H; cbn in *; [by left|].
  apply IH in H as [H|(job' & ? & ? & ?)]; [|by right; exists job'; split_and!; [right|..]].
  apply lookup_insert_Some in H as [[<- <-]|[_ H]]; [|by left].
  right. exists job. by split_and!; [left|..].
Qed.

Lemma foldl_insert_jobs_other {A} (f : JobSpec → A) (l : list JobSpec) (m : gmap string A) k :
  k ∉ js_id <$> l → foldl (λ m job, <[js_id job := f job]> m) m l !! k = m !! k.
Proof using Type.
  revert m. induction l as [|job l IH]; intros m Hk; [done|]. cbn in *.
  apply not_elem_of_cons in Hk as [Hne Hk]. by rewrite IH, lookup_insert_ne.
Qed.

Lemma foldl_insert_jobs_elem {A} (f : JobSpec → A) (l : list JobSpec) (m : gmap string A) job :
  NoDup (js_id <$> l) → job ∈ l →
  foldl (λ m job, <[js_id job := f job]> m) m l !! js_id job = Some (f job).
Proof using Type.
  revert m. induction l as [|job' l IH]; intros m Hnd Hin; [by apply elem_of_nil in Hin|].
  apply NoDup_cons in Hnd as [Hni Hnd]. cbn in *.
  apply elem_of_cons in Hin as [->|Hin]; [|by apply IH].
  by rewrite foldl_insert_jobs_other, lookup_insert_eq.
Qed.

Lemma initial_in_degree_elem job :
  job ∈ jobs → initial_in_degree jobs !! js_id job = Some (length (js_depends_on job)).
Proof using ids_unique. intros Hin. by apply (foldl_insert_jobs_elem (λ job, length (js_depends_on job))). Qed.

Lemma initial_in_degree_dom k n :
  initial_in_degree jobs !! k = Some n → k ∈ js_id <$> jobs.
Proof using Type.
  intros [H|(job & Hin & <- & _)]%foldl_insert_jobs; [done|].
  apply list_elem_of_fmap. by exists job.
Qed.

Lemma push_dependents_lookup id deps (m : gmap string (list string)) d :
  default [] (foldl (push_dependent id) m deps !! d)
  = default [] (m !! d) ++ replicate (occ d deps) id.
Proof using Type.
  revert m. induction deps as [|e deps IH]; intros m; cbn; [by rewrite app_nil_r|].
  rewrite IH, occ_cons. unfold push_dependent. destruct (decide (e = d)) as [<-|Hne].
  - rewrite lookup_insert_eq. cbn. by rewrite <-app_assoc.
  - by rewrite lookup_insert_ne.
Qed.

Lemma initial_dependents_lookup d :
  default [] (initial_dependents jobs !! d)
  = concat ((λ job, replicate (occ d (js_depends_on job)) (js_id job)) <$> jobs).
Proof using Type.
  unfold initial_dependents.
  assert (∀ l m, default [] (foldl (λ m job, foldl (push_dependent (js_id job)) m
      (js_depends_on job)) m l !! d)
    = default [] (m !! d)
      ++ concat ((λ job, replicate (occ d (js_depends_on job)) (js_id job)) <$> l)) as Hfold.
  { induction l as [|job l IH]; intros m; cbn; [by rewrite app_nil_r|].
    by rewrite IH, push_dependents_lookup, <-app_assoc. }
  rewrite Hfold. destruct (foldl _ ∅ jobs !! d) as [l|] eqn:E; cbn; [|done].
  by apply foldl_insert_jobs in E as [E|(? & _ & _ & ->)].
Qed.

Lemma occ_concat_other (n : JobSpec → nat) (l : list JobSpec) k :
  k ∉ js_id <$> l → occ k (concat ((λ job, replicate (n job) (js_id job)) <$> l)) = 0%nat.
Proof using Type.
  induction l as [|job l IH]; intros Hk; [done|]. cbn in *.
  apply not_elem_of_cons in Hk as [Hne Hk].
  by rewrite occ_app, occ_replicate, decide_False, IH.
Qed.

Lemma occ_concat (n : JobSpec → nat) (l : list JobSpec) job :
  NoDup (js_id <$> l) → job ∈ l →
  occ (js_id job) (concat ((λ job, replicate (n job) (js_id job)) <$> l)) = n job.
Proof using Type.
  induction l as [|job' l IH]; intros Hnd Hin; [by apply elem_of_nil in Hin|]. cbn in *.
  apply NoDup_cons in Hnd as [Hni Hnd]. rewrite occ_app, occ_replicate.
  apply elem_of_cons in Hin as [->|Hin].
  - rewrite decide_True, occ_concat_other by done. lia.
  - rewrite decide_False, IH; [done..|]. intros Heq. apply Hni. rewrite Heq.
    by apply list_elem_of_fmap_2.
Qed.

Lemma occ_dependents job d :
  job ∈ jobs →
  occ (js_id job) (default [] (initial_dependents jobs !! d)) = occ d (js_depends_on job).
Proof using ids_unique.
  intros Hin. rewrite initial_dependents_lookup.
  by apply (occ_concat (λ job, occ d (js_depends_on job))).
Qed.

Lemma elem_of_dependents k d :
  k ∈ default [] (initial_dependents jobs !! d) → k ∈ js_id <$> jobs.
Proof using Type.
  rewrite initial_dependents_lookup, list_elem_of_In, in_concat. intros (l & Hl & Hk).
  apply list_elem_of_In, list_elem_of_fmap in Hl as (job & -> & Hin).
  apply list_elem_of_In, elem_of_replicate in Hk as [-> _]. by apply list_elem_of_fmap_2.
Qed.

(** *** The invariant of Kahn's loop *)

Hypothesis deps_known : ∀ job d, job ∈ jobs → d ∈ js_depends_on job → d ∈ js_id <$> jobs.

(** The dependencies of [job] the order has not reached. *)
Definition open_deps (order : list string) (job : JobSpec) : nat :=
  length (filter (λ d, d ∉ order) (js_depends_on job)).

(** Every dependency of a job comes before it. *)
Definition deps_first (order : list string) : Prop :=
  ∀ o1 k o2 d, order = o1 ++ k :: o2 → depends k d → d ∈ o1.

Record topo_inv (m : gmap string nat) (q o : list string) : Prop := {
  ti_degree : ∀ job, job ∈ jobs → m !! js_id job = Some (open_deps o job);
  ti_dom : ∀ k n, m !! k = Some n → k ∈ js_id <$> jobs;
  ti_nodup : NoDup (o ++ q);
  ti_zero : ∀ k, k ∈ o ++ q ↔ m !! k = Some 0%nat;
  ti_first : deps_first o;
}.

Lemma open_deps_snoc o x job :
  x ∉ o → open_deps (o ++ [x]) job = (open_deps o job - occ x (js_depends_on job))%nat.
Proof using Type.
  intros Hx. unfold open_deps, occ.
  enough (∀ l, length (filter (λ d, d ∉ o) l)
    = (length (filter (λ d, d ∉ o ++ [x]) l) + length (filter (λ y, y = x) l))%nat) as E.
  { rewrite E. lia. }
  intros l. induction l as [|d l IH]; [done|]. rewrite !filter_cons.
  destruct (decide (d = x)) as [->|Hne].
  - rewrite decide_True, decide_False by (rewrite ?elem_of_app, ?list_elem_of_singleton; tauto).
    cbn. lia.
  - destruct (decide (d ∉ o)) as [Hd|Hd].
    + rewrite decide_True; [cbn; lia|]. rewrite elem_of_app, list_elem_of_singleton. tauto.
    + rewrite decide_False; [lia|]. rewrite elem_of_app. tauto.
Qed.

Lemma open_deps_occ o x job :
  x ∉ o → (occ x (js_depends_on job) ≤ open_deps o job)%nat.
Proof using Type.
  intros Hx. unfold open_deps, occ. apply sublist_length.
  induction (js_depends_on job) as [|d l IH]; [done|]. rewrite !filter_cons.
  destruct (decide (d = x)) as [->|Hne].
  - rewrite decide_True by done. by constructor.
  - destruct (decide (d ∉ o)); [by constructor|done].
Qed.

Lemma open_deps_zero o job d :
  open_deps o job = 0%nat → d ∈ js_depends_on job → d ∈ o.
Proof using Type.
  unfold open_deps. intros Hz Hd. destruct (decide (d ∈ o)) as [|Hn]; [done|].
  apply nil_length_inv in Hz. assert (d ∈ filter (λ d, d ∉ o) (js_depends_on job)) as Hin.
  { by apply list_elem_of_filter. }
  rewrite Hz in Hin. by apply elem_of_nil in Hin.
Qed.

Lemma deps_first_snoc o x :
  deps_first o → (∀ d, depends x d → d ∈ o) → deps_first (o ++ [x]).
Proof using Type.
  intros Ho Hx o1 k o2 d E Hd. induction o2 as [|y o2 _] using rev_ind.
  - apply app_inj_tail in E as [-> ->]. by apply Hx.
  - rewrite app_comm_cons, app_assoc in E. apply app_inj_tail in E as [-> _]. by eapply Ho.
Qed.

Lemma topo_inv_step m x q o :
  topo_inv m (x :: q) o →
  ∃ m' q', foldM relax (m, q) (default [] (initial_dependents jobs !! x)) = Ret (m', q') ∧
    topo_inv m' q' (o ++ [x]).
Proof using ids_unique.
  intros [Hdeg Hdom Hnd Hz Hfirst].
  set (ys := default [] (initial_dependents jobs !! x)).
  assert (x ∉ o) as Hxo.
  { apply NoDup_app in Hnd as (_ & Hd & _). intros Hx. apply (Hd x Hx). by left. }
  destruct (foldM_relax ys m q) as (m' & ps & Hf & Hm' & Hps & Hpush).
  { intros y Hy. pose proof (elem_of_dependents _ _ Hy) as (job & -> & Hin)%list_elem_of_fmap.
    exists (open_deps o job). split; [by apply Hdeg|]. unfold ys.
    rewrite occ_dependents by done. by apply open_deps_occ. }
  exists m', (q ++ ps). split; [done|]. split.
  - intros job Hin. rewrite Hm', Hdeg by done. cbn. f_equal. unfold ys.
    by rewrite occ_dependents, <-open_deps_snoc.
  - intros k n Hk. rewrite Hm' in Hk. destruct (m !! k) as [n'|] eqn:E; [|done].
    by eapply Hdom.
  - rewrite <-app_assoc. cbn. rewrite app_comm_cons, app_assoc. apply NoDup_app.
    split_and!; [done| |done]. intros k Hk [Hy _]%Hpush. apply Hz in Hk.
    pose proof (elem_of_dependents _ _ Hy) as (job & -> & Hin)%list_elem_of_fmap.
    apply occ_pos in Hy. unfold ys in Hy. rewrite occ_dependents in Hy by done.
    rewrite Hdeg in Hk by done. injection Hk as Hk.
    pose proof (open_deps_occ o x job Hxo). lia.
  - intros k. rewrite <-app_assoc. cbn. rewrite app_comm_cons, app_assoc, elem_of_app, Hz, Hpush.
    rewrite Hm'. destruct (m !! k) as [n|] eqn:E; cbn; [|naive_solver].
    destruct (decide (k ∈ ys)) as [Hy|Hy].
    + split; [intros [[= ->]|[_ ?]]; done|]. by right.
    + rewrite occ_zero, Nat.sub_0_r by done. naive_solver.
  - apply deps_first_snoc; [done|]. intros d (job & Hin & <- & Hd).
    eapply open_deps_zero; [|done]. assert (m !! js_id job = Some 0%nat) as E.
    { apply Hz, elem_of_app. right. by left. }
    rewrite Hdeg in E by done. by injection E.
Qed.

Lemma topo_loop_inv fuel m q o r :
  topo_inv m q o →
  topo_loop fuel (initial_dependents jobs) m q o = Some r →
  ∃ m' o', r = Ret (m', o') ∧ topo_inv m' [] o'.
Proof using ids_unique.
  revert m q o. induction fuel as [|fuel IH]; intros m q o Hinv; [done|]. cbn.
  destruct q as [|x q]; [intros [= <-]; eauto|].
  destruct (topo_inv_step _ _ _ _ Hinv) as (m' & q' & -> & Hinv'). by apply IH.
Qed.

(** *** What the final state says *)

Definition acyclic : Prop := ∀ j, ¬ tc depends j j.

(** A predicate whose members each depend on a member leads to a cycle. *)
Lemma stuck_reaches_cycle (P : string → Prop) k :
  (∀ k, P k → k ∈ js_id <$> jobs ∧ ∃ d, depends k d ∧ P d) → P k →
  ∃ c, rtc depends k c ∧ tc depends c c.
Proof using Type.
  clear ids_unique deps_known. intros HP. set (ids := list_to_set (C := gset string) (js_id <$> jobs)).
  enough (∀ n (visited : gset string) k, size (ids ∖ visited) = n →
    (∀ u, u ∈ visited → tc depends u k) → P k → ∃ c, rtc depends k c ∧ tc depends c c) as Hgo.
  { intros Hk. apply (Hgo _ ∅ k eq_refl); [|done]. intros u Hu. by apply elem_of_empty in Hu. }
  clear k. intros n. induction n as [n IH] using lt_wf_ind. intros visited k Hn Hv Hk.
  destruct (decide (k ∈ visited)) as [Hkv|Hkv]; [exists k; split; [apply rtc_refl|by apply Hv]|].
  destruct (HP k Hk) as (Hid & d & Hd & HPd).
  destruct (IH (size (ids ∖ ({[k]} ∪ visited)))%nat) with (visited := {[k]} ∪ visited) (k := d)
    as (c & Hc & Hcc); [|done| |done|].
  - subst n. apply subset_size. assert (k ∈ ids) by (by apply elem_of_list_to_set). set_solver.
  - intros u [->%elem_of_singleton|Hu]%elem_of_union; [by apply tc_once|].
    eapply tc_r; [by apply Hv|done].
  - exists c. split; [|done]. by eapply rtc_l.
Qed.

Lemma deps_first_tc o a j b d :
  deps_first o → o = a ++ j :: b → tc depends j d → d ∈ a.
Proof using Type.
  intros Ho E Htc. revert a b E.
  induction Htc as [j d Hd|j k d Hjk Htc IH]; intros a b E; [by eapply Ho|].
  pose proof (Ho _ _ _ _ E Hjk) as (a1 & a2 & ->)%list_elem_of_split.
  rewrite <-app_assoc in E. apply elem_of_app. left. by eapply IH.
Qed.

Lemma deps_first_acyclic o : NoDup o → o ≡ₚ js_id <$> jobs → deps_first o → acyclic.
Proof using Type.
  intros Hnd Hperm Ho j Hj. assert (j ∈ o) as (a & b & E)%list_elem_of_split.
  { rewrite Hperm. clear -Hj. assert (∃ d, depends j d) as (d & job & Hin & <- & _).
    { inversion Hj; eauto. }
    by apply list_elem_of_fmap_2. }
  pose proof (deps_first_tc _ _ _ _ _ Ho E Hj) as Ha. subst o.
  apply NoDup_app in Hnd as (_ & Hd & _). apply (Hd j Ha). by left.
Qed.

(** When the loop has run dry, a job of positive degree waits for another. *)
Lemma topo_inv_stuck m o k n :
  topo_inv m [] o → m !! k = Some (S n) → ∃ c, rtc depends k c ∧ tc depends c c.
Proof using ids_unique deps_known.
  intros Hinv Hk. apply (stuck_reaches_cycle (λ k, ∃ n, m !! k = Some (S n))); [|by exists n].
  clear k n Hk. intros k [n Hk]. destruct Hinv as [Hdeg Hdom _ Hz _].
  split; [by eapply Hdom|].
  apply Hdom in Hk as Hid. apply list_elem_of_fmap in Hid as (job & -> & Hin).
  rewrite Hdeg in Hk by done. injection Hk as Hk. unfold open_deps in Hk.
  destruct (filter _ _) as [|d l] eqn:E; [done|].
  assert (d ∈ filter (λ d, d ∉ o) (js_depends_on job)) as [Hdo Hd]%list_elem_of_filter.
  { rewrite E. by left. }
  exists d. split; [by exists job|].
  pose proof (deps_known _ _ Hin Hd) as (job' & -> & Hin')%list_elem_of_fmap.
  pose proof (Hdeg _ Hin') as Hd'. destruct (open_deps o job') as [|n']; [|by exists n'].
  destruct Hdo. rewrite <-(app_nil_r o). by apply Hz.
Qed.

Lemma topo_inv_final m o :
  topo_inv m [] o →
  if (length o =? length jobs)%nat then o ≡ₚ js_id <$> jobs
  else ∃ k n, m !! k = Some (S n).
Proof using ids_unique.
  intros [Hdeg Hdom Hnd Hz _]. rewrite app_nil_r in *.
  assert (∀ k, k ∈ o → k ∈ js_id <$> jobs) as Hsub.
  { intros k Hk. apply Hz in Hk. by eapply Hdom. }
  destruct (Nat.eqb_spec (length o) (length jobs)) as [Hlen|Hlen].
  - apply submseteq_length_Permutation; [|rewrite length_fmap; lia].
    by apply NoDup_submseteq.
  - destruct (decide (Forall (λ k, k ∈ o) (js_id <$> jobs))) as [Hall|Hex].
    + exfalso. apply Hlen. rewrite <-(length_fmap js_id jobs). apply Permutation_length.
      apply NoDup_Permutation; [done..|]. rewrite Forall_forall in Hall. naive_solver.
    + apply not_Forall_Exists in Hex; [|apply _].
      apply Exists_exists in Hex as (k & Hk & Hko).
      apply list_elem_of_fmap in Hk as (job & -> & Hin).
      pose proof (Hdeg _ Hin) as Hd. cbn in Hko.
      destruct (open_deps o job) as [|n]; [|by exists (js_id job), n].
      by apply Hz in Hd.
Qed.
End jobs.

(** ** Correctness *)

Definition ids (spec : WorkflowSpec) : list string := js_id <$> ws_jobs spec.
Definition deps_are_known (jobs : list JobSpec) : Prop :=
  ∀ job d, job ∈ jobs → d ∈ js_depends_on job → d ∈ js_id <$> jobs.

Lemma check_duplicate_ids_from_spec seen jobs :
  match check_duplicate_ids_from seen jobs with
  | Ok _ => NoDup (js_id <$> jobs) ∧ ∀ k, k ∈ js_id <$> jobs → k ∉ seen
  | Err e => ∃ l1 job l2, jobs = l1 ++ job :: l2 ∧ e = DuplicateJobId (js_id job) ∧
      NoDup (js_id <$> l1) ∧ (∀ k, k ∈ js_id <$> l1 → k ∉ seen) ∧
      (js_id job ∈ seen ∨ js_id job ∈ js_id <$> l1)
  end.
Proof.
  revert seen. induction jobs as [|job jobs IH]; intros seen; cbn.
  { split; [by constructor|]. intros k Hk. by apply elem_of_nil in Hk. }
  case_bool_decide as Hs.
  { exists [], job, jobs. split_and!; [done|done|by constructor| |by left].
    intros k Hk. by apply elem_of_nil in Hk. }
  specialize (IH ({[js_id job]} ∪ seen)). destruct (check_duplicate_ids_from _ _) as [|e].
  - destruct IH as [Hnd Hk]. split.
    + constructor; [|done]. intros Hin. apply (Hk _ Hin). set_solver.
    + intros k [->|Hin]%elem_of_cons; [done|]. specialize (Hk _ Hin). set_solver.
  - destruct IH as (l1 & job' & l2 & -> & -> & Hnd & Hl1 & Hin).
    exists (job :: l1), job', l2. split_and!; [done|done| | |].
    + constructor; [|done]. intros Hk. apply (Hl1 _ Hk). set_solver.
    + intros k [->|Hk]%elem_of_cons; [done|]. specialize (Hl1 _ Hk). set_solver.
    + rewrite fmap_cons, elem_of_cons. set_solver.
Qed.

Lemma check_duplicate_ids_spec spec :
  match check_duplicate_ids spec with
  | Ok _ => NoDup (ids spec)
  | Err e => ∃ l1 job l2, ws_jobs spec = l1 ++ job :: l2 ∧ e = DuplicateJobId (js_id job) ∧
      NoDup (js_id <$> l1) ∧ js_id job ∈ js_id <$> l1
  end.
Proof.
  unfold check_duplicate_ids, ids.
  pose proof (check_duplicate_ids_from_spec ∅ (ws_jobs spec)) as H.
  destruct (check_duplicate_ids_from _ _) as [|e]; [by destruct H|].
  destruct H as (l1 & job & l2 & ? & ? & ? & _ & [Hin|?]); [set_solver|]. by exists l1, job, l2.
Qed.

Lemma check_deps_of_spec known job deps :
  match check_deps_of known job deps with
  | Ok _ => ∀ d, d ∈ deps → d ∈ known
  | Err e => ∃ d1 d d2, deps = d1 ++ d :: d2 ∧ e = UnknownDependency (js_id job) d ∧
      (∀ d, d ∈ d1 → d ∈ known) ∧ d ∉ known
  end.
Proof.
  induction deps as [|d deps IH]; cbn; [intros d Hd; by apply elem_of_nil in Hd|].
  case_bool_decide as Hk.
  - destruct (check_deps_of known job deps); [set_solver|].
    destruct IH as (d1 & d' & d2 & -> & -> & Hd1 & Hd'). exists (d :: d1), d', d2.
    split_and!; [done|done|set_solver|done].
  - exists [], d, deps. split_and!; [done|done|set_solver|done].
Qed.

(** The first dependency, in file order, that no job declares. *)
Definition first_unknown (jobs : list JobSpec) (j d : string) : Prop :=
  ∃ l1 job l2 d1 d2, jobs = l1 ++ job :: l2 ∧ js_id job = j ∧
    js_depends_on job = d1 ++ d :: d2 ∧ d ∉ js_id <$> jobs ∧
    (∀ d', d' ∈ d1 → d' ∈ js_id <$> jobs) ∧
    (∀ job' d', job' ∈ l1 → d' ∈ js_depends_on job' → d' ∈ js_id <$> jobs).

Lemma check_jobs_deps_spec known jobs :
  match check_jobs_deps known jobs with
  | Ok _ => ∀ job d, job ∈ jobs → d ∈ js_depends_on job → d ∈ known
  | Err e => ∃ l1 job l2 d1 d d2, jobs = l1 ++ job :: l2 ∧ js_depends_on job = d1 ++ d :: d2 ∧
      e = UnknownDependency (js_id job) d ∧ d ∉ known ∧ (∀ d', d' ∈ d1 → d' ∈ known) ∧
      (∀ job' d', job' ∈ l1 → d' ∈ js_depends_on job' → d' ∈ known)
  end.
Proof.
  induction jobs as [|job jobs IH]; cbn; [intros job d Hj; by apply elem_of_nil in Hj|].
  pose proof (check_deps_of_spec known job (js_depends_on job)) as Hd.
  destruct (check_deps_of _ _ _) as [|e].
  - destruct (check_jobs_deps known jobs).
    + intros job' d [->|Hin]%elem_of_cons; [by apply Hd|by apply IH].
    + destruct IH as (l1 & job' & l2 & d1 & d & d2 & -> & ? & ? & ? & ? & Hl1).
      exists (job :: l1), job', l2, d1, d, d2. split_and!; try done.
      intros job2 d' [->|Hin]%elem_of_cons; [by apply Hd|by apply Hl1].
  - destruct Hd as (d1 & d & d2 & ? & ? & ? & ?).
    exists [], job, jobs, d1, d, d2. split_and!; try done.
    intros job' d' Hj. by apply elem_of_nil in Hj.
Qed.

Lemma check_unknown_deps_spec spec :
  match check_unknown_deps spec with
  | Ok _ => deps_are_known (ws_jobs spec)
  | Err e => ∃ j d, e = UnknownDependency j d ∧ first_unknown (ws_jobs spec) j d
  end.
Proof.
  unfold check_unknown_deps, deps_are_known, first_unknown.
  set (known := list_to_set (C := gset string) (js_id <$> ws_jobs spec)).
  assert (∀ d, d ∈ known ↔ d ∈ js_id <$> ws_jobs spec) as Hknown.
  { intros d. apply elem_of_list_to_set. }
  pose proof (check_jobs_deps_spec known (ws_jobs spec)) as H.
  destruct (check_jobs_deps _ _) as [|e].
  - intros job d Hj Hd. apply Hknown. by eapply H.
  - destruct H as (l1 & job & l2 & d1 & d & d2 & ? & ? & -> & ? & ? & ?).
    exists (js_id job), d. split; [done|]. exists l1, job, l2, d1, d2. naive_solver.
Qed.

Lemma check_unknown_deps_Ok spec :
  check_unknown_deps spec = Ok tt → deps_are_known (ws_jobs spec).
Proof. intros E. pose proof (check_unknown_deps_spec spec) as Hk. by rewrite E in Hk. Qed.

Section with_order.
Context `{HashOrder}.

Lemma topo_inv_init jobs :
  NoDup (js_id <$> jobs) →
  topo_inv jobs (initial_in_degree jobs) (initial_queue (initial_in_degree jobs)) [].
Proof.
  intros Hnd. split.
  - intros job Hin. rewrite initial_in_degree_elem by done. f_equal. unfold open_deps.
    induction (js_depends_on job) as [|d l IH]; [done|].
    rewrite filter_cons, decide_True by (apply not_elem_of_nil). cbn. by f_equal.
  - intros k n. apply initial_in_degree_dom.
  - cbn. apply (sublist_NoDup _ (hm_keys (initial_in_degree jobs))); [apply NoDup_hm_keys|].
    apply fmap_sublist, list_filter_sublist.
  - intros k. cbn. unfold initial_queue. rewrite list_elem_of_fmap. split.
    + intros ([k' n] & -> & Hin). apply list_elem_of_In, filter_In in Hin as [Hin Hz].
      apply list_elem_of_In, elem_of_hm_iter in Hin. cbn in *. apply Nat.eqb_eq in Hz. by subst.
    + intros Hk. exists (k, 0%nat). split; [done|]. apply list_elem_of_In, filter_In.
      split; [|done]. by apply list_elem_of_In, elem_of_hm_iter.
  - intros o1 k o2 d E. by destruct o1.
Qed.

Lemma cycled_job_spec m k n :
  m !! k = Some (S n) → ∃ n', m !! cycled_job m = Some (S n').
Proof.
  intros Hk. unfold cycled_job. destruct (List.find _ _) as [[k' n']|] eqn:E.
  - apply List.find_some in E as [Hin Hlt].
    apply list_elem_of_In, elem_of_hm_iter in Hin. destruct n' as [|n']; [done|]. by exists n'.
  - apply elem_of_hm_iter, list_elem_of_In in Hk.
    by apply (List.find_none _ _ E) in Hk.
Qed.

Lemma topo_sort_cases spec :
  NoDup (ids spec) → deps_are_known (ws_jobs spec) →
  (∃ o, topo_sort spec = Some (Ret (Ok o)) ∧ o ≡ₚ ids spec ∧ deps_first (ws_jobs spec) o ∧
    acyclic (ws_jobs spec)) ∨
  (∃ j c, topo_sort spec = Some (Ret (Err (Cycle j))) ∧
    rtc (depends (ws_jobs spec)) j c ∧ tc (depends (ws_jobs spec)) c c).
Proof.
  intros Hnd Hdeps. unfold topo_sort.
  set (m := initial_in_degree _). set (q := initial_queue m).
  destruct (topo_loop _ _ m q []) as [r|] eqn:E.
  2: { exfalso. revert E. apply topo_loop_fuel. unfold topo_fuel. lia. }
  apply topo_loop_inv in E as (m' & o & -> & Hinv); [|done|by apply topo_inv_init].
  pose proof (topo_inv_final _ Hnd _ _ Hinv) as Hfin.
  destruct (length o =? _)%nat.
  - left. exists o. destruct Hinv as [_ _ Hnd' _ Hfirst]. rewrite app_nil_r in Hnd'.
    split_and!; [done|done|done|]. by eapply deps_first_acyclic.
  - right. destruct Hfin as (k & n & Hk). apply cycled_job_spec in Hk as [n' Hk].
    eapply topo_inv_stuck in Hk as (c & Hc & Hcc); [|done..].
    by exists (cycled_job m'), c.
Qed.
End with_order.

(** A job on a dependency cycle. *)
Definition on_cycle (jobs : list JobSpec) (j : string) : Prop := tc (depends jobs) j j.

(** A workflow that can be run: it has jobs, with distinct ids, known
    dependencies and no cycle. *)
Record valid_workflow (spec : WorkflowSpec) : Prop := {
  vw_jobs : ws_jobs spec ≠ [];
  vw_ids : NoDup (ids spec);
  vw_deps : deps_are_known (ws_jobs spec);
  vw_acyclic : acyclic (ws_jobs spec);
}.

(** The reason a rejected workflow is rejected for. *)
Definition rejected_for (spec : WorkflowSpec) (e : DagError) : Prop :=
  match e with
  | EmptyWorkflow => ws_jobs spec = []
  | DuplicateJobId j => ∃ l1 job l2, ws_jobs spec = l1 ++ job :: l2 ∧ js_id job = j ∧
      NoDup (js_id <$> l1) ∧ j ∈ js_id <$> l1
  | UnknownDependency j d => NoDup (ids spec) ∧ first_unknown (ws_jobs spec) j d
  | Cycle j => NoDup (ids spec) ∧ deps_are_known (ws_jobs spec) ∧
      ∃ c, rtc (depends (ws_jobs spec)) j c ∧ on_cycle (ws_jobs spec) c
  end.

Section theorems.
Context `{HashOrder}.

Lemma validate_cases spec :
  (validate spec = Some (Ret (Ok tt)) ∧ valid_workflow spec) ∨
  (∃ e, validate spec = Some (Ret (Err e)) ∧ rejected_for spec e).
Proof.
  unfold validate. destruct (ws_jobs spec) as [|job0 jobs0] eqn:Hjobs.
  { right. by exists EmptyWorkflow. }
  assert (ws_jobs spec ≠ []) as Hne by (by rewrite Hjobs). clear job0 jobs0 Hjobs.
  pose proof (check_duplicate_ids_spec spec) as Hdup.
  destruct (check_duplicate_ids spec) as [|e].
  2: { destruct Hdup as (l1 & job & l2 & Hl & -> & ? & ?). right. eexists. split; [done|].
       by exists l1, job, l2. }
  pose proof (check_unknown_deps_spec spec) as Hdeps.
  destruct (check_unknown_deps spec) as [|e].
  2: { destruct Hdeps as (j & d & -> & ?). right. by eexists. }
  destruct (topo_sort_cases spec Hdup Hdeps) as [(o & -> & _ & _ & ?)|(j & c & -> & ? & ?)].
  - left. by split.
  - right. exists (Cycle j). split; [done|]. split_and!; [done|done|]. by exists c.
Qed.

Lemma rejected_not_valid spec e :
  rejected_for spec e → ¬ valid_workflow spec.
Proof.
  intros He [Hne Hnd Hdeps Hac]. destruct e as [|j|j d|j]; cbn in He.
  - done.
  - destruct He as (l1 & job & l2 & E & <- & _ & Hin). unfold ids in Hnd.
    rewrite E, fmap_app, fmap_cons in Hnd. apply NoDup_app in Hnd as (_ & Hd & _).
    apply (Hd _ Hin). by left.
  - destruct He as (_ & l1 & job & l2 & d1 & d2 & E & <- & Ed & Hni & _). apply Hni.
    apply (Hdeps job); [rewrite E|rewrite Ed]; set_solver.
  - destruct He as (_ & _ & c & _ & Hc). by apply (Hac c).
Qed.

(** C18: Validation always returns (Kahn's loop ends within its fuel, and no
    in-degree underflows), and accepts exactly the workflows that have a job,
    whose ids are distinct, whose dependencies are all declared and whose
    dependency relation has no cycle. *)
Theorem validate_decides spec :
  ∃ r, validate spec = Some (Ret r) ∧ (r = Ok tt ↔ valid_workflow spec).
Proof.
  destruct (validate_cases spec) as [[-> Hok]|(e & -> & He)].
  - by exists (Ok tt).
  - exists (Err e). split; [done|]. split; [done|]. intros Hok.
    by destruct (rejected_not_valid _ _ He).
Qed.

(** The error names what is wrong: the first id, in file order, that an
    earlier job already has; the first dependency no job declares; or a job
    from which a dependency cycle can be reached.  Each later check runs only
    when the earlier ones pass. *)
Theorem validate_reports spec e :
  validate spec = Some (Ret (Err e)) → rejected_for spec e.
Proof.
  intros He. destruct (validate_cases spec) as [[E _]|(e' & E & Hrej)]; rewrite He in E; [done|].
  by injection E as <-.
Qed.

(** For a workflow with distinct ids and known dependencies, an order
    returned by Kahn's algorithm lists every job once, each one after all the
    jobs it depends on. *)
Theorem topo_sort_orders spec o :
  NoDup (ids spec) → deps_are_known (ws_jobs spec) →
  topo_sort spec = Some (Ret (Ok o)) →
  o ≡ₚ ids spec ∧ deps_first (ws_jobs spec) o.
Proof.
  intros Hnd Hdeps E. destruct (topo_sort_cases spec Hnd Hdeps) as [(o' & E' & ? & ? & _)|
    (j & c & E' & _)]; rewrite E in E'; [|done]. by injection E' as <-.
Qed.

End theorems.

(** ** Concrete workflows *)

Definition demo_diamond : WorkflowSpec := demo_spec
  [demo_job "d" ["b"; "c"]; demo_job "b" ["a"]; demo_job "c" ["a"; "a"]; demo_job "a" []].

Lemma demo_diamond_ok : @validate canonical_order demo_diamond = Some (Ret (Ok tt)).
Proof. vm_compute. reflexivity. Qed.

Lemma validate_reports_witness :
  ∃ e, @validate canonical_order (demo_spec [demo_job "a" ["b"]; demo_job "b" ["a"]])
    = Some (Ret (Err e)) ∧
    rejected_for (demo_spec [demo_job "a" ["b"]; demo_job "b" ["a"]]) e.
Proof.
  eexists. split; [vm_compute; reflexivity|].
  apply (@validate_reports canonical_order). vm_compute. reflexivity.
Defined.

Lemma topo_sort_orders_witness :
  @topo_sort canonical_order demo_diamond = Some (Ret (Ok ["a"; "b"; "c"; "d"])) ∧
  ["a"; "b"; "c"; "d"] ≡ₚ ids demo_diamond ∧
  deps_first (ws_jobs demo_diamond) ["a"; "b"; "c"; "d"].
Proof.
  split; [vm_compute; reflexivity|].
  apply (@topo_sort_orders canonical_order).
  - apply (bool_decide_unpack _). vm_compute. exact I.
  - apply check_unknown_deps_Ok. reflexivity.
  - vm_compute. reflexivity.
Defined.

(** [x] and [z] wait for each other; [y] only waits for [z]. *)
Definition demo_bystander : WorkflowSpec :=
  demo_spec [demo_job "x" ["z"]; demo_job "z" ["x"]; demo_job "y" ["z"]].

(** The job a cycle error calls "involved" need not lie on any cycle: with
    [x] and [z] waiting for each other and [y] waiting for [z], an iteration
    order of the hash map exists for which the error names [y], which no
    job depends on. *)
Theorem cycle_error_names_bystander :
  @validate canonical_order demo_bystander = Some (Ret (Err (Cycle "y"))) ∧
  ¬ on_cycle (ws_jobs demo_bystander) "y".
Proof.
  split; [vm_compute; reflexivity|].
  assert (∀ k, ¬ depends (ws_jobs demo_bystander) k "y") as Hno.
  { intros k (job & Hin & _ & Hd). cbn in Hin. rewrite !elem_of_cons in Hin.
    destruct Hin as [->|[->|[->|Hin]]]; [..|by apply elem_of_nil in Hin];
      cbn in Hd; apply list_elem_of_singleton in Hd; discriminate. }
  enough (∀ j d, tc (depends (ws_jobs demo_bystander)) j d → d ≠ "y") as Htc.
  { intros Hc. by apply (Htc _ _ Hc). }
  induction 1 as [j d Hd|j k d _ _ IH]; [|done]. intros ->. by apply Hno in Hd.
Qed.
