(* ===== verification/Text.v ===== *)
(** * Text and paths: what the program uses of [str] and [Path], [src/paths.rs]

    Rust strings are UTF-8; here a string is its bytes, which is what [split],
    [trim] and [join] need: a separator below 128 never occurs inside a longer
    character, and a white-space character is recognised by its encoding.  The
    end of the file has the paths the daemon uses. *)

From S2P Require Import Prelude Handle.

(** ** Characters of a string *)

Fixpoint chars (s : string) : list ascii :=
  match s with "" => [] | String c s' => c :: chars s' end.

Fixpoint of_chars (l : list ascii) : string :=
  match l with [] => "" | c :: l' => String c (of_chars l') end.

Definition bytes_to_string (bytes : list N) : string := of_chars (ascii_of_N <$> bytes).

(** [s.split(sep)] for a predicate on one-byte characters. *)
Fixpoint split_on (sep : ascii → bool) (s : string) : list string :=
  match s with
  | "" => [""]
  | String c s' =>
      let pieces := split_on sep s' in
      if sep c then "" :: pieces
      else match pieces with
           | [] => [String c ""]
           | piece :: rest => String c piece :: rest
           end
  end.

(** [s.strip_prefix(pre)] *)
Fixpoint strip_prefix (pre s : string) : option string :=
  match pre, s with
  | "", _ => Some s
  | String c pre', String d s' => if Ascii.eqb c d then strip_prefix pre' s' else None
  | String _ _, "" => None
  end.

Fixpoint strip_any (pres : list string) (s : string) : option string :=
  match pres with
  | [] => None
  | pre :: pres' => match strip_prefix pre s with Some s' => Some s' | None => strip_any pres' s end
  end.

(** Unicode's [White_Space] characters, encoded. *)
Definition WHITE_SPACE : list string := bytes_to_string <$>
  [[9]; [10]; [11]; [12]; [13]; [32]; [0xC2; 0x85]; [0xC2; 0xA0]; [0xE1; 0x9A; 0x80];
   [0xE2; 0x80; 0x80]; [0xE2; 0x80; 0x81]; [0xE2; 0x80; 0x82]; [0xE2; 0x80; 0x83];
   [0xE2; 0x80; 0x84]; [0xE2; 0x80; 0x85]; [0xE2; 0x80; 0x86]; [0xE2; 0x80; 0x87];
   [0xE2; 0x80; 0x88]; [0xE2; 0x80; 0x89]; [0xE2; 0x80; 0x8A]; [0xE2; 0x80; 0xA8];
   [0xE2; 0x80; 0xA9]; [0xE2; 0x80; 0xAF]; [0xE2; 0x81; 0x9F]; [0xE3; 0x80; 0x80]].

Fixpoint strip_all (fuel : nat) (pres : list string) (s : string) : string :=
  match fuel with
  | O => s
  | S fuel' => match strip_any pres s with Some s' => strip_all fuel' pres s' | None => s end
  end.

Definition string_rev (s : string) : string := of_chars (rev (chars s)).

Definition trim_start (s : string) : string := strip_all (String.length s) WHITE_SPACE s.
Definition trim_end (s : string) : string :=
  string_rev (strip_all (String.length s) (string_rev <$> WHITE_SPACE) (string_rev s)).

(** [s.trim()] *)
Definition trim (s : string) : string := trim_end (trim_start s).

(** [pieces.join(sep)] *)
Definition join (sep : string) (pieces : list string) : string := String.concat sep pieces.

Definition is_empty (s : string) : bool := match s with "" => true | _ => false end.

Definition newline : string := bytes_to_string [10].

(** *** [String::from_utf8_lossy]

    Bytes that are not UTF-8, a character cut short included, become U+FFFD,
    one for each longest part that could begin a character. *)

Definition REPLACEMENT : list ascii := ascii_of_N <$> [0xEF; 0xBF; 0xBD].

Definition between (lo hi : N) (c : ascii) : bool := (lo <=? N_of_ascii c) && (N_of_ascii c <=? hi).

#[global] Arguments between : simpl never.

(** How many of the [n] continuation bytes are there, and whether all are. *)
Fixpoint continuation (n : nat) (l : list ascii) : nat * bool :=
  match n, l with
  | O, _ => (O, true)
  | S n, c :: l => if between 0x80 0xBF c then let '(k, whole) := continuation n l in (S k, whole) else (O, false)
  | S _, [] => (O, false)
  end.

(** Which second bytes may follow the first of a three- or four-byte character. *)
Definition second_byte (first : ascii) : ascii → bool :=
  let x := N_of_ascii first in
  if x =? 0xE0 then between 0xA0 0xBF
  else if x =? 0xED then between 0x80 0x9F
  else if x =? 0xF0 then between 0x90 0xBF
  else if x =? 0xF4 then between 0x80 0x8F
  else between 0x80 0xBF.

(** The length of the first character, or of the part of one there is. *)
Definition first_char (l : list ascii) : nat * bool :=
  match l with
  | [] => (O, true)
  | a :: l =>
      if between 0 0x7F a then (1%nat, true)
      else if between 0xC2 0xDF a then let '(k, whole) := continuation 1 l in (S k, whole)
      else if between 0xE0 0xF4 a then
        match l with
        | b :: l => if second_byte a b then
                      let '(k, whole) := continuation (if between 0xE0 0xEF a then 1 else 2) l in (S (S k), whole)
                    else (1%nat, false)
        | [] => (1%nat, false)
        end
      else (1%nat, false)
  end.

Fixpoint lossy (fuel : nat) (l : list ascii) : list ascii :=
  match fuel, l with
  | O, _ | _, [] => []
  | S fuel, _ =>
      let '(n, whole) := first_char l in
      (if whole then take n l else REPLACEMENT) ++ lossy fuel (drop n l)
  end.

Definition from_utf8_lossy (s : string) : string := of_chars (lossy (String.length s) (chars s)).

(** ** Paths *)

Definition is_absolute (p : PathBuf) : bool := if strip_prefix "/" p then true else false.

(** [Path::new(base).join(p)]: an absolute [p] replaces [base]. *)
Definition path_join (base p : PathBuf) : PathBuf :=
  if is_absolute p then p
  else if is_empty base then p
  else match strip_prefix "/" (string_rev base) with
       | Some _ => base +:+ p
       | None => base +:+ "/" +:+ p
       end.

(** [path.with_extension(ext)] of a path that ends in a file name: what
    follows the name's last dot is replaced, unless that dot is its first
    character. *)
Definition file_name (p : PathBuf) : string :=
  List.last (split_on (Ascii.eqb "/") p) "".

Definition file_stem (name : string) : string :=
  match List.removelast (split_on (Ascii.eqb ".") name) with
  | [] | [""] => name
  | pieces => join "." pieces
  end.

Definition with_extension (p : PathBuf) (ext : string) : PathBuf :=
  let name := file_name p in
  String.substring 0 (String.length p - String.length name) p +:+ file_stem name +:+ "." +:+ ext.

(** [job_log_relpath]: a job's log relative to HOME, the same on every node. *)
Definition job_log_relpath (run_id job_id : string) : PathBuf :=
  path_join (path_join (path_join (path_join (path_join ".local" "share") "roster") "runs") run_id)
    (job_id +:+ ".log").

(** A path under HOME; without it the program panics. *)
Definition under_home (home : option string) (pieces : list string) : exec PathBuf :=
  match home with
  | Some home => Ret (foldl path_join home pieces)
  | None => Panic
  end.

Definition job_log_path (home : option string) (run_id job_id : string) : exec PathBuf :=
  under_home home [job_log_relpath run_id job_id].

(** The paths of [paths.rs], from HOME and XDG_RUNTIME_DIR. *)
Record Vars := mkVars { var_home : option string; var_runtime_dir : option string }.

(** The runtime dir for the socket and the pid file. *)
Definition runtime_dir (v : Vars) : exec PathBuf :=
  match var_runtime_dir v with
  | Some dir => Ret dir
  | None => under_home (var_home v) [".local"; "run"]
  end.

Definition socket_path (v : Vars) : exec PathBuf := dir ← runtime_dir v; Ret (path_join dir "roster.socket").
Definition pid_path (v : Vars) : exec PathBuf := dir ← runtime_dir v; Ret (path_join dir "roster.pid").
Definition db_path (v : Vars) : exec PathBuf :=
  under_home (var_home v) [".local"; "share"; "roster"; "roster.db"].
Definition daemon_log_path (v : Vars) : exec PathBuf :=
  under_home (var_home v) [".local"; "share"; "roster"; "daemon.log"].
Definition nodes_path (v : Vars) : exec PathBuf :=
  under_home (var_home v) [".config"; "roster"; "nodes.yaml"].
Definition quarantine_path (v : Vars) : exec PathBuf :=
  under_home (var_home v) [".local"; "share"; "roster"; "quarantine.json"].
Definition unit_path (v : Vars) : exec PathBuf :=
  under_home (var_home v) [".config"; "systemd"; "user"; "roster.service"].

(** ** Lemmas *)

Lemma string_app_assoc (s1 s2 s3 : string) : (s1 +:+ s2) +:+ s3 = s1 +:+ (s2 +:+ s3).
Proof.
  induction s1 as [|c s1 IH]; [done|].
  change (String c ((s1 +:+ s2) +:+ s3) = String c (s1 +:+ (s2 +:+ s3))). by rewrite IH.
Qed.

Lemma string_app_nil_r (s : string) : s +:+ "" = s.
Proof.
  induction s as [|c s IH]; [done|]. change (String c (s +:+ "") = String c s). by rewrite IH.
Qed.

Lemma chars_app s1 s2 : chars (s1 +:+ s2) = chars s1 ++ chars s2.
Proof. induction s1 as [|c s1 IH]; cbn; [done|]. by rewrite <-IH. Qed.

Lemma chars_of_chars l : chars (of_chars l) = l.
Proof. induction l as [|c l IH]; cbn; [done|]. by f_equal. Qed.

Lemma elem_of_rev {A} (l : list A) c : c ∈ l ↔ c ∈ rev l.
Proof. rewrite !list_elem_of_In. apply in_rev. Qed.

Lemma chars_rev s : chars (string_rev s) = rev (chars s).
Proof. unfold string_rev. by rewrite chars_of_chars. Qed.

Lemma chars_join sep pieces c :
  c ∈ chars (join sep pieces) → c ∈ chars sep ∨ ∃ piece, piece ∈ pieces ∧ c ∈ chars piece.
Proof.
  induction pieces as [|p [|q pieces] IH]; intros Hc.
  - by apply elem_of_nil in Hc.
  - right. exists p. split; [by left|done].
  - unfold join in *. cbn [String.concat] in Hc. rewrite !chars_app, !elem_of_app in Hc.
    destruct Hc as [Hc|[Hc|Hc]]; [|by left|].
    + right. exists p. split; [by left|done].
    + destruct (IH Hc) as [?|(r & ? & ?)]; [by left|]. right. exists r. split; [by right|done].
Qed.

Lemma split_on_chars sep s piece c :
  piece ∈ split_on sep s → c ∈ chars piece → sep c = false ∧ c ∈ chars s.
Proof.
  revert piece. induction s as [|d s IH]; intros piece Hp Hc.
  { apply list_elem_of_singleton in Hp as ->. by apply elem_of_nil in Hc. }
  cbn [split_on] in Hp. destruct (sep d) eqn:E.
  - apply elem_of_cons in Hp as [->|Hp]; [by apply elem_of_nil in Hc|].
    destruct (IH _ Hp Hc). split; [done|by right].
  - destruct (split_on sep s) as [|q rest] eqn:Es.
    + apply list_elem_of_singleton in Hp as ->. apply list_elem_of_singleton in Hc as ->.
      split; [done|by left].
    + apply elem_of_cons in Hp as [->|Hp].
      * apply elem_of_cons in Hc as [->|Hc]; [split; [done|by left]|].
        destruct (IH q) as [??]; [by left|done|]. split; [done|by right].
      * destruct (IH piece) as [??]; [by right|done|]. split; [done|by right].
Qed.

Lemma strip_prefix_chars pre s s' c :
  strip_prefix pre s = Some s' → c ∈ chars s' → c ∈ chars s.
Proof.
  revert s. induction pre as [|d pre IH]; intros s H Hc; [by injection H as ->|].
  destruct s as [|e s]; [done|]. cbn in H. destruct (Ascii.eqb d e); [|done]. right. by eapply IH.
Qed.

Lemma strip_all_chars fuel pres s c : c ∈ chars (strip_all fuel pres s) → c ∈ chars s.
Proof.
  revert s. induction fuel as [|fuel IH]; intros s Hc; [done|]. cbn in Hc.
  destruct (strip_any pres s) as [s'|] eqn:E; [|done]. apply IH in Hc. clear IH.
  induction pres as [|pre pres IHp]; [done|]. cbn in E.
  destruct (strip_prefix pre s) eqn:Ep; [injection E as <-; by eapply strip_prefix_chars|by apply IHp].
Qed.

Lemma trim_chars s c : c ∈ chars (trim s) → c ∈ chars s.
Proof.
  unfold trim, trim_end, trim_start. rewrite chars_rev, <-elem_of_rev.
  intros Hc%strip_all_chars. rewrite chars_rev, <-elem_of_rev in Hc.
  by apply strip_all_chars in Hc.
Qed.

(** ** Lossy decoding, line by line *)

(** Text that is UTF-8. *)
Inductive utf8 : list ascii → Prop :=
  | utf8_nil : utf8 []
  | utf8_char l : l ≠ [] → (first_char l).2 = true → utf8 (drop (first_char l).1 l) → utf8 l.

Lemma between_line_end lo hi : 10 < lo → between lo hi "010" = false.
Proof. intros Hlo. unfold between. apply andb_false_iff. left. by apply N.leb_gt. Qed.

Lemma second_byte_line_end a : second_byte a "010" = false.
Proof. unfold second_byte. repeat case_match; by apply between_line_end. Qed.

Lemma second_byte_high a c : second_byte a c = true → c ≠ "010"%char.
Proof. intros Hc ->. by rewrite second_byte_line_end in Hc. Qed.

(** A line end is no part of a longer character. *)
Lemma continuation_line n l rest : continuation n (l ++ "010"%char :: rest) = continuation n l.
Proof.
  revert l. induction n as [|n IH]; intros [|c l]; cbn; try done. by rewrite IH.
Qed.

Lemma first_char_line l rest : l ≠ [] → first_char (l ++ "010"%char :: rest) = first_char l.
Proof.
  destruct l as [|a l]; [done|]. intros _. cbn -[continuation]. rewrite continuation_line.
  destruct l as [|b l]; cbn -[continuation]; [by rewrite second_byte_line_end|]. by rewrite continuation_line.
Qed.

Lemma continuation_length n l : ((continuation n l).1 ≤ length l)%nat.
Proof.
  revert l. induction n as [|n IH]; intros [|c l]; cbn; try lia.
  specialize (IH l). destruct (between _ _ c), (continuation n l); cbn in *; lia.
Qed.

Lemma first_char_length l : l ≠ [] → (0 < (first_char l).1 ≤ length l)%nat.
Proof.
  destruct l as [|a l]; [done|]. intros _. cbn -[continuation].
  pose proof (continuation_length 1 l) as H1. destruct (continuation 1 l) as [k1 whole].
  destruct (between 0 0x7F a), (between 0xC2 0xDF a), (between 0xE0 0xF4 a); cbn -[continuation] in *; try lia.
  destruct l as [|b l]; cbn -[continuation] in *; try lia. destruct (second_byte a b); cbn -[continuation]; [|lia].
  match goal with |- context [continuation ?n l] => pose proof (continuation_length n l) as H2;
    destruct (continuation n l) end. cbn in *. lia.
Qed.

(** With enough fuel, the fuel makes no difference. *)
Lemma lossy_fuel n m l : (length l ≤ n)%nat → (length l ≤ m)%nat → lossy n l = lossy m l.
Proof.
  revert m l. induction n as [|n IH]; intros [|m] [|a l] Hn Hm; cbn [length] in *; try done; try lia.
  pose proof (first_char_length (a :: l) ltac:(done)) as Hl. cbn [lossy].
  destruct (first_char (a :: l)) as [k whole]. cbn [fst length] in Hl. f_equal. apply IH; rewrite length_drop; cbn; lia.
Qed.

Lemma lossy_line n l rest :
  (length l + S (length rest) ≤ n)%nat →
  lossy n (l ++ "010"%char :: rest) = lossy n l ++ "010"%char :: lossy n rest.
Proof.
  revert l. induction n as [|n IH]; intros l Hn; [lia|]. destruct l as [|a l].
  - change ("010"%char :: lossy n rest = "010"%char :: lossy (S n) rest). f_equal. apply lossy_fuel; cbn in *; lia.
  - rewrite (lossy_fuel (S n) n rest) by (cbn in *; lia).
    pose proof (first_char_length (a :: l) ltac:(done)) as Hl. pose proof (first_char_line (a :: l) rest ltac:(done)) as E.
    change ((a :: l) ++ "010"%char :: rest) with (a :: (l ++ "010"%char :: rest)) in *. cbn [lossy]. rewrite E.
    destruct (first_char (a :: l)) as [k whole]. cbn [fst] in Hl.
    change (a :: (l ++ "010"%char :: rest)) with ((a :: l) ++ "010"%char :: rest).
    rewrite take_app_le, drop_app_le by lia. rewrite IH by (rewrite length_drop; cbn in *; lia).
    by rewrite app_assoc.
Qed.

Lemma of_chars_app l k : of_chars (l ++ k) = of_chars l +:+ of_chars k.
Proof. induction l as [|c l IH]; [done|]. cbn. by rewrite IH. Qed.

Lemma of_chars_chars s : of_chars (chars s) = s.
Proof. induction s as [|c s IH]; cbn; congruence. Qed.

Lemma length_chars s : length (chars s) = String.length s.
Proof. induction s as [|c s IH]; [done|]. cbn. by rewrite IH. Qed.

(** Decoding a text decodes its lines. *)
Lemma from_utf8_lossy_line a b :
  from_utf8_lossy (a +:+ String "010" b) = from_utf8_lossy a +:+ String "010" (from_utf8_lossy b).
Proof.
  unfold from_utf8_lossy. rewrite <-!length_chars, chars_app. cbn [chars].
  rewrite lossy_line by (rewrite length_app; cbn; lia). rewrite of_chars_app. cbn [of_chars].
  f_equal; [|f_equal]; f_equal; apply lossy_fuel; rewrite ?length_app; cbn; lia.
Qed.

(** It makes no new ones. *)
Lemma lossy_no_line n l : "010"%char ∉ l → "010"%char ∉ lossy n l.
Proof.
  revert l. induction n as [|n IH]; intros l Hl; [apply not_elem_of_nil|].
  destruct l as [|a l]; [done|]. cbn [lossy]. destruct (first_char (a :: l)) as [k whole].
  apply not_elem_of_app. split.
  - destruct whole; [|by apply (bool_decide_unpack _)]. intros Hc. apply Hl. by eapply elem_of_take in Hc as (i & Hc%list_elem_of_lookup_2 & _).
  - apply IH. intros Hc. apply Hl. rewrite <-(take_drop k (a :: l)). apply elem_of_app. by right.
Qed.

Lemma from_utf8_lossy_no_line s : "010"%char ∉ chars s → "010"%char ∉ chars (from_utf8_lossy s).
Proof. intros Hs. unfold from_utf8_lossy. rewrite chars_of_chars. by apply lossy_no_line. Qed.

(** It leaves UTF-8 alone. *)
Lemma lossy_utf8 n l : utf8 l → (length l ≤ n)%nat → lossy n l = l.
Proof.
  intros Hu. revert n. induction Hu as [|l Hne Hw _ IH]; intros n Hn; [by destruct n|].
  pose proof (first_char_length l Hne) as Hl. destruct l as [|a l]; [done|]. destruct n as [|n]; [cbn in Hn; lia|].
  cbn [lossy]. destruct (first_char (a :: l)) as [k whole]. cbn [fst snd] in *. subst whole.
  rewrite IH; [apply take_drop|]. rewrite length_drop. cbn in *. lia.
Qed.

Lemma from_utf8_lossy_utf8 s : utf8 (chars s) → from_utf8_lossy s = s.
Proof.
  intros Hs. unfold from_utf8_lossy. rewrite lossy_utf8; [apply of_chars_chars|done|by rewrite length_chars].
Qed.

(** What follows a line end in UTF-8 is UTF-8. *)
Lemma utf8_after_line l rest : utf8 (l ++ "010"%char :: rest) → utf8 rest.
Proof.
  remember (l ++ "010"%char :: rest) as text eqn:E. intros Hu. revert l E.
  induction Hu as [|text Hne Hw Hd IH]; intros l E; [by destruct l|subst text].
  destruct l as [|a l]; [exact Hd|]. apply (IH (drop (first_char (a :: l)).1 (a :: l))).
  rewrite first_char_line by done. apply drop_app_le. by apply first_char_length.
Qed.

Example lossy_cut : from_utf8_lossy (bytes_to_string [0x82; 0xAC; 10; 0xE2; 0x82; 0xAC; 0xE2; 0x82]) =
  bytes_to_string [0xEF; 0xBF; 0xBD; 0xEF; 0xBF; 0xBD; 10; 0xE2; 0x82; 0xAC; 0xEF; 0xBF; 0xBD].
Proof. by vm_compute. Qed.

(** The characters of a number. *)
Lemma pretty_N_go_chars (n : N) (s : string) (c : ascii) :
  c ∈ chars (pretty_N_go n s) → c ∈ chars s ∨ ∃ d, d < 10 ∧ c = pretty_N_char d.
Proof.
  revert s. induction (N.lt_wf_0 n) as [n _ IH]. intros s Hc.
  destruct (decide (0 < n)) as [Hn|Hn].
  - rewrite pretty_N_go_step in Hc by done. apply IH in Hc; [|apply N.div_lt; lia].
    destruct Hc as [Hs|?]; [|by right]. apply elem_of_cons in Hs as [->|?]; [|by left].
    right. exists (n `mod` 10). split; [apply N.mod_lt; lia|done].
  - assert (n = 0) as -> by lia. rewrite pretty_N_go_0 in Hc. by left.
Qed.

Lemma pretty_N_chars (n : N) (c : ascii) : c ∈ chars (pretty n) → ∃ d, d < 10 ∧ c = pretty_N_char d.
Proof.
  unfold pretty, pretty_N. case_decide; intros Hc.
  - apply list_elem_of_singleton in Hc as ->. by exists 0.
  - apply pretty_N_go_chars in Hc as [Hc|?]; [by apply elem_of_nil in Hc|done].
Qed.

Lemma pretty_Z_chars (z : Z) (c : ascii) :
  c ∈ chars (pretty z) → c = "-"%char ∨ ∃ d, d < 10 ∧ c = pretty_N_char d.
Proof.
  destruct z as [|p|p]; cbn; intros Hc.
  - right. apply list_elem_of_singleton in Hc as ->. by exists 0.
  - right. by apply (pretty_N_chars (N.pos p)).
  - apply elem_of_cons in Hc as [->|Hc]; [by left|]. right. by apply (pretty_N_chars (N.pos p)).
Qed.

(** ** Text that [trim] leaves alone *)

(** A printable ASCII character. *)
Definition solid (c : ascii) : bool := (32 <? N_of_ascii c) && (N_of_ascii c <? 128).

Lemma strip_solid pre c s : head (chars pre) ≠ None → head (chars pre) ≠ Some c → strip_prefix pre (String c s) = None.
Proof.
  destruct pre as [|d pre]; [done|]. cbn. intros _ Hne. destruct (Ascii.eqb_spec d c) as [->|]; done.
Qed.

Lemma strip_any_solid pres c s :
  Forall (λ pre, head (chars pre) ≠ None ∧ head (chars pre) ≠ Some c) pres →
  strip_any pres (String c s) = None.
Proof.
  induction 1 as [|pre pres [H1 H2] _ IH]; [done|]. cbn. by rewrite strip_solid.
Qed.

(** No white space starts, or ends, with a printable character. *)
Definition white_edges : list (option ascii) :=
  (head ∘ chars <$> WHITE_SPACE) ++ (head ∘ chars ∘ string_rev <$> WHITE_SPACE).

Lemma white_edges_spec : Forall (λ e, ∃ c, e = Some c ∧ solid c = false) white_edges.
Proof.
  assert (forallb (λ e : option ascii, match e with Some c => negb (solid c) | None => false end) white_edges = true)
    as H by (vm_compute; reflexivity).
  rewrite forallb_forall in H. apply Forall_forall. intros e He%list_elem_of_In.
  specialize (H e He). destruct e as [c|]; [|done]. exists c. split; [done|]. by apply negb_true_iff.
Qed.

Lemma strip_white_solid (rev : bool) c s :
  solid c = true →
  strip_any (if rev then string_rev <$> WHITE_SPACE else WHITE_SPACE) (String c s) = None.
Proof.
  intros Hc. apply strip_any_solid. apply Forall_forall. intros pre Hpre.
  assert (head (chars pre) ∈ white_edges) as He.
  { unfold white_edges. apply elem_of_app. destruct rev; [right|left].
    - apply list_elem_of_fmap in Hpre as (ws & -> & Hws). by apply (list_elem_of_fmap_2 (head ∘ chars ∘ string_rev)).
    - by apply (list_elem_of_fmap_2 (head ∘ chars)). }
  pose proof white_edges_spec as Hall. rewrite Forall_forall in Hall.
  destruct (Hall _ He) as (d & -> & Hd). split; [done|]. intros [= ->]. congruence.
Qed.

Lemma strip_all_solid (rev : bool) fuel c s :
  solid c = true →
  strip_all fuel (if rev then string_rev <$> WHITE_SPACE else WHITE_SPACE) (String c s) = String c s.
Proof. intros Hc. destruct fuel; [done|]. cbn [strip_all]. by rewrite strip_white_solid. Qed.

Lemma last_rev s z : last (chars s) = Some z → ∃ r, string_rev s = String z r.
Proof.
  intros [l Hl]%last_Some. exists (of_chars (rev l)). unfold string_rev. by rewrite Hl, rev_app_distr.
Qed.

Lemma rev_rev s : string_rev (string_rev s) = s.
Proof. unfold string_rev. by rewrite chars_of_chars, rev_involutive, of_chars_chars. Qed.

(** Text that starts and ends with a printable character is trimmed already. *)
Lemma trim_solid s a z :
  head (chars s) = Some a → last (chars s) = Some z → solid a = true → solid z = true → trim s = s.
Proof.
  intros Ha [r Hr]%last_rev Hsa Hsz. destruct s as [|a' s']; [done|]. injection Ha as ->.
  unfold trim, trim_start. rewrite (strip_all_solid false) by done. unfold trim_end.
  by rewrite Hr, (strip_all_solid true), <-Hr, rev_rev.
Qed.

(** A line whose text starts and ends with a printable character reads as
    that text once trimmed. *)
Lemma trim_solid_line s a z :
  head (chars s) = Some a → last (chars s) = Some z → solid a = true → solid z = true →
  trim (s +:+ newline) = s.
Proof.
  intros Ha Hz Hsa Hsz. destruct s as [|a' s']; [done|]. injection Ha as ->.
  unfold trim, trim_start. change (String a s' +:+ newline) with (String a (s' +:+ newline)).
  rewrite (strip_all_solid false) by done. unfold trim_end.
  change (String a (s' +:+ newline)) with (String a s' +:+ newline).
  generalize dependent (String a s'). intros s Hz.
  assert (string_rev (s +:+ newline) = String "010" (string_rev s)) as ->.
  { unfold string_rev at 1. by rewrite chars_app, rev_app_distr. }
  destruct (String.length (s +:+ newline)) as [|n] eqn:El.
  { by destruct s. }
  cbn [strip_all]. change (strip_any (string_rev <$> WHITE_SPACE) (String "010" (string_rev s)))
    with (Some (string_rev s)).
  apply last_rev in Hz as [r E]. by rewrite E, (strip_all_solid true), <-E, rev_rev.
Qed.
