(* ===== verification/Quarantine.v ===== *)
(** * Cards out of service: [src/resource/quarantine.rs]

    The events of a card and the quarantine they lead to, the table of
    quarantined cards, and the file it is saved to through a temporary one. *)

From S2P Require Import Prelude Pool Handle Model Text.

(** ** Operations *)

(** Xids that point at the card rather than the job. *)
Definition HARDWARE_XIDS : list N := [48; 63; 64; 74; 79; 92; 94; 95; 119; 120].

(** Why and since when a card is out of service. *)
Record Quarantine := mkQuarantine { q_reason : string; q_since : DateTime }.

#[export] Instance Quarantine_eq_dec : EqDecision Quarantine.
Proof. solve_decision. Defined.

#[export] Instance Quarantine_countable : Countable Quarantine.
Proof.
  by refine (inj_countable' (λ q, (q_reason q, q_since q)) (λ r, mkQuarantine r.1 r.2) _); intros [].
Defined.

Inductive CardEvent :=
  | Xid (code : N)
  | PagesPendingRetirement
  | TestFailed (reason : string)
  | Cleared.

(** The card's quarantine after this event; one in place keeps its reason. *)
Definition apply (e : CardEvent) (now : DateTime) (current : option Quarantine) : option Quarantine :=
  let quarantined reason :=
    match current with Some q => Some q | None => Some (mkQuarantine reason now) end in
  match e with
  | Cleared => None
  | Xid code =>
      if bool_decide (code ∈ HARDWARE_XIDS) then quarantined ("Xid " +:+ pretty code) else current
  | PagesPendingRetirement => quarantined "memory pages pending retirement"
  | TestFailed reason => quarantined ("qualification failed: " +:+ reason)
  end.

(** A card's identity: its UUID, or its index when the inventory has none. *)
Definition key (gpu : GpuInfo) : string :=
  if is_empty (gi_uuid gpu) then "index-" +:+ pretty (gi_index gpu) else gi_uuid gpu.

(** How far a save gets: the parent directory, the temporary file (perhaps
    only part of it), or the rename. *)
Inductive SaveOutcome := DirFailed | WriteFailed (partial : string) | RenameFailed | Saved.

Notation FileSystem := (gmap string string).

Module Quarantines.

Record t := mk {
  path : PathBuf;
  cards : gmap string Quarantine;  (* by card key, saved *)
  tested : gmap string DateTime;   (* in memory only *)
}.

Section with_serde.
Context `{Serde (gmap string Quarantine)}.

(** Read the saved quarantines; a missing or unreadable file means none. *)
Definition load (path : PathBuf) (fs : FileSystem) : t :=
  mk path
    match fs !! path with
    | Some json => default ∅ (from_json json)
    | None => ∅
    end
    ∅.

(** Through a temp file, so a crash never leaves half a file. *)
Definition save (outcome : SaveOutcome) (path : PathBuf) (cards : gmap string Quarantine)
    (fs : FileSystem) : FileSystem :=
  let temp := with_extension path "json.tmp" in
  match outcome with
  | DirFailed => fs
  | WriteFailed partial => <[temp := partial]> fs
  | RenameFailed => <[temp := to_json cards]> fs
  | Saved => <[path := to_json cards]> (delete temp fs)
  end.

(** Apply an event to a card; save when its quarantine starts or ends. *)
Definition handle (outcome : SaveOutcome) (gpu : GpuInfo) (event : CardEvent) (now : DateTime)
    (s : t) (fs : FileSystem) : t * FileSystem :=
  let before := cards s !! key gpu in
  let after := apply event now before in
  if bool_decide (after = before) then (s, fs)
  else
    let s' := match after with
      | Some quarantine =>
          mk (path s) (<[key gpu := quarantine]> (cards s)) (delete (key gpu) (tested s))
      | None => mk (path s) (delete (key gpu) (cards s)) (tested s)
      end in
    (s', save outcome (path s) (cards s') fs).

Definition get (gpu : GpuInfo) (s : t) : option Quarantine := cards s !! key gpu.

(** A qualification's result: a pass ends a quarantine, a failure starts one;
    the clock is read once more for when the card was tested. *)
Definition record_test (outcome : SaveOutcome) (gpu : GpuInfo) (passed : bool) (reason : string)
    (now later : DateTime) (s : t) (fs : FileSystem) : t * FileSystem :=
  let '(s', fs') :=
    if passed then handle outcome gpu Cleared now s fs
    else handle outcome gpu (TestFailed reason) now s fs in
  (mk (path s') (cards s') (<[key gpu := later]> (tested s')), fs').

Definition tested_at (gpu : GpuInfo) (s : t) : option DateTime := tested s !! key gpu.

End with_serde.
End Quarantines.

(** ** The life of a quarantine *)

(** The reason an event gives for taking a card out of service. *)
Definition fault (e : CardEvent) : option string :=
  match e with
  | Cleared => None
  | Xid code => if bool_decide (code ∈ HARDWARE_XIDS) then Some ("Xid " +:+ pretty code) else None
  | PagesPendingRetirement => Some "memory pages pending retirement"
  | TestFailed reason => Some ("qualification failed: " +:+ reason)
  end.

Definition is_cleared (e : CardEvent) : bool := match e with Cleared => true | _ => false end.

(** A card's quarantine after a history of timed events. *)
Definition history (events : list (CardEvent * DateTime)) : option Quarantine :=
  foldl (λ q et, apply et.1 et.2 q) None events.

Lemma apply_spec e now q :
  apply e now q =
    if is_cleared e then None
    else match q, fault e with
         | Some q, _ => Some q
         | None, Some reason => Some (mkQuarantine reason now)
         | None, None => None
         end.
Proof. destruct e as [code| |reason|], q; cbn; by repeat case_bool_decide. Qed.

Lemma history_snoc events e t :
  history (events ++ [(e, t)]) = apply e t (history events).
Proof. unfold history. by rewrite foldl_app. Qed.

Definition harmless (et : CardEvent * DateTime) : Prop :=
  fault et.1 = None ∧ is_cleared et.1 = false.

Lemma foldl_harmless h :
  Forall harmless h → foldl (λ q et, apply et.1 et.2 q) None h = None.
Proof.
  induction 1 as [|[e t] h [Hf Hc] _ IH]; cbn in *; [done|]. by rewrite apply_spec, Hf, Hc.
Qed.

Lemma foldl_kept q a :
  Forall (λ et, is_cleared et.1 = false) a → foldl (λ q et, apply et.1 et.2 q) (Some q) a = Some q.
Proof. induction 1 as [|[e t] a Hc _ IH]; cbn in *; [done|]. by rewrite apply_spec, Hc. Qed.

(** The part of a history up to the last clear. *)
Definition ends_cleared (events : list (CardEvent * DateTime)) : Prop :=
  events = [] ∨ ∃ b t, events = b ++ [(Cleared, t)].

Lemma history_ends_cleared events : ends_cleared events → history events = None.
Proof. intros [->|(b & t & ->)]; [done|]. by rewrite history_snoc. Qed.

Lemma history_None events :
  history events = None → ∃ b h, events = b ++ h ∧ ends_cleared b ∧ Forall harmless h.
Proof.
  induction events as [|[e t] events IH] using rev_ind; intros Hn.
  { exists [], []. by split_and!; [|left|]. }
  rewrite history_snoc, apply_spec in Hn. destruct (is_cleared e) eqn:Ec.
  - destruct e; try done. exists (events ++ [(Cleared, t)]), [].
    rewrite app_nil_r. split_and!; [done|right; eauto|done].
  - destruct (history events); [done|]. destruct (fault e) eqn:Ef; [done|].
    destruct IH as (b & h & -> & Hb & Hh); [done|].
    exists b, (h ++ [(e, t)]). rewrite app_assoc. split_and!; [done|done|].
    apply Forall_app. by split; [|apply Forall_singleton].
Qed.

(** A card is out of service exactly while a fault follows the last clear,
    with the reason and time of the first such fault: an Xid that points at
    the job never starts a quarantine, and no later fault replaces one. *)
Theorem quarantine_history (events : list (CardEvent * DateTime)) (q : Quarantine) :
  history events = Some q ↔
    ∃ before quiet e after,
      events = before ++ quiet ++ (e, q_since q) :: after ∧
      ends_cleared before ∧ Forall harmless quiet ∧ fault e = Some (q_reason q) ∧
      Forall (λ et, is_cleared et.1 = false) after.
Proof.
  split.
  - revert q. induction events as [|[e t] events IH] using rev_ind; intros q; [done|].
    rewrite history_snoc, apply_spec. destruct (is_cleared e) eqn:Ec; [done|].
    destruct (history events) as [q'|] eqn:Eh.
    + intros [= ->]. destruct (IH q eq_refl) as (b & h & e' & a & -> & Hb & Hh & Hf & Ha).
      exists b, h, e', (a ++ [(e, t)]). rewrite <-!app_assoc. split_and!; try done.
      apply Forall_app. by split; [|apply Forall_singleton].
    + destruct (fault e) as [reason|] eqn:Ef; [|done]. intros [= <-].
      apply history_None in Eh as (b & h & -> & Hb & Hh).
      exists b, h, e, []. rewrite app_assoc. by split_and!.
  - intros (b & h & e & a & -> & Hb%history_ends_cleared & Hh & Hf & Ha).
    unfold history in *. rewrite !foldl_app, Hb, foldl_harmless by done. cbn.
    rewrite apply_spec, Hf. destruct (is_cleared e) eqn:Ec; [by destruct e|].
    rewrite foldl_kept by done. by destruct q.
Qed.

(** ** What the file holds *)

Section with_serde.
Context `{Serde (gmap string Quarantine)}.

(** The file holds the table (or nothing was ever saved). *)
Definition in_sync (s : Quarantines.t) (fs : FileSystem) : Prop :=
  Quarantines.cards (Quarantines.load (Quarantines.path s) fs) = Quarantines.cards s.

Lemma load_save outcome path cards fs :
  serde_roundtrip (gmap string Quarantine) → with_extension path "json.tmp" ≠ path →
  Quarantines.cards (Quarantines.load path (Quarantines.save outcome path cards fs))
  = match outcome with
    | Saved => cards
    | _ => Quarantines.cards (Quarantines.load path fs)
    end.
Proof.
  intros Hserde. unfold Quarantines.load, Quarantines.save.
  generalize (with_extension path "json.tmp"). intros temp Hne.
  destruct outcome; cbn; [done|by rewrite lookup_insert_ne..|].
  by rewrite lookup_insert_eq; cbn; rewrite Hserde.
Qed.

(** Wherever a save stops, a restart finds whole tables only: the table as
    it was before the event or as it is after it, and the latter when the save
    went through; so a quarantine that was saved survives a restart. *)
Theorem quarantine_save_atomic (outcome : SaveOutcome) (gpu : GpuInfo) (event : CardEvent)
    (now : DateTime) (s s' : Quarantines.t) (fs fs' : FileSystem) :
  serde_roundtrip (gmap string Quarantine) →
  with_extension (Quarantines.path s) "json.tmp" ≠ Quarantines.path s →
  in_sync s fs →
  Quarantines.handle outcome gpu event now s fs = (s', fs') →
  (in_sync s' fs' ∨
    (outcome ≠ Saved ∧ Quarantines.cards (Quarantines.load (Quarantines.path s) fs')
       = Quarantines.cards s)) ∧
  Quarantines.get gpu s' = apply event now (Quarantines.get gpu s) ∧
  (∀ gpu', key gpu' ≠ key gpu → Quarantines.get gpu' s' = Quarantines.get gpu' s).
Proof.
  intros Hserde Hne Hsync. unfold Quarantines.handle, Quarantines.get.
  set (after := apply event now _). case_bool_decide as Ha; intros [= <- <-].
  { by split_and!; [left|..]. }
  split_and!.
  - unfold in_sync in *. destruct after; cbn [Quarantines.path Quarantines.cards];
      rewrite load_save by done;
      destruct outcome; by (left + right).
  - destruct after; cbn; by rewrite ?lookup_insert_eq, ?lookup_delete_eq.
  - intros gpu' Hk. destruct after; cbn; by rewrite ?lookup_insert_ne, ?lookup_delete_ne.
Qed.

End with_serde.

(** ** Witness *)

Definition demo_card : GpuInfo := mkGpuInfo 0 "card" 24000 "GPU-aaaa".

Lemma quarantine_save_atomic_witness :
  let fs := (∅ : FileSystem) in
  let serde := demo_serde (A := gmap string Quarantine) in
  let s := @Quarantines.load serde "/q/quarantine.json" fs in
  ∃ s' fs', @Quarantines.handle serde Saved demo_card (Xid 79) 5%Z s fs = (s', fs') ∧
    Quarantines.get demo_card s' = Some (mkQuarantine "Xid 79" 5%Z).
Proof.
  intros fs serde s. eexists _, _. split; [reflexivity|].
  refine (eq_trans (proj1 (proj2 (@quarantine_save_atomic serde Saved demo_card (Xid 79) 5%Z s _ fs _
    demo_serde_roundtrip _ _ eq_refl))) _); [by vm_compute|done|done].
Defined.
