(* ===== verification/Health.v ===== *)
(** * Live GPU readings: [src/resource/health.rs]

    One card's readings, when they keep a job off it, and the monitor that
    combines NVML's answers with the node's quarantines.  NVML is a parameter:
    what each query of each device returned, if anything. *)

From S2P Require Import Prelude Pool Handle Model Text Quarantine.

(** ** Operations *)

Record GpuHealth := mkGpuHealth {
  gh_index : N;
  gh_temperature_c : option N;
  gh_power_w : option N;
  gh_power_limit_w : option N;
  gh_used_vram_mb : option N;
  gh_busy_percent : option N;
  gh_throttled : list string;
  gh_processes : option N;
  gh_process_vram_mb : option N;
  gh_quarantined : option string;
  gh_tested_at : option DateTime;
}.

Definition BUSY_VRAM_MB : N := 1024.

Module GpuHealth.

(** Whether processes on the card hold enough VRAM to keep a job off it. *)
Definition busy (h : GpuHealth) : bool := BUSY_VRAM_MB <=? default 0 (gh_process_vram_mb h).

(** Why a job may not get this card now. *)
Definition blocked (unbooked : bool) (h : GpuHealth) : option string :=
  match gh_quarantined h with
  | Some reason => Some ("quarantined: " +:+ reason)
  | None =>
      if unbooked && busy h then
        Some ("busy outside roster (" +:+ pretty (default 0 (gh_process_vram_mb h)) +:+ " MB)")
      else if unbooked && negb (match gh_throttled h with [] => true | _ => false end) then
        Some ("throttled while idle: " +:+ join ", " (gh_throttled h))
      else if unbooked && negb (bool_decide (is_Some (gh_tested_at h))) then
        Some "not qualified yet"
      else None
  end.

(** Appended to a GPU's line in [roster info]. *)
Definition to_string (h : GpuHealth) : string :=
  match gh_temperature_c h with Some t => ", " +:+ pretty t +:+ " C" | None => "" end +:+
  match gh_power_w h, gh_power_limit_w h with
  | Some power, Some limit => ", " +:+ pretty power +:+ "/" +:+ pretty limit +:+ " W"
  | Some power, None => ", " +:+ pretty power +:+ " W"
  | None, _ => ""
  end +:+
  match gh_busy_percent h with Some b => ", " +:+ pretty b +:+ "% busy" | None => "" end +:+
  match gh_used_vram_mb h with Some u => ", " +:+ pretty u +:+ " MB used" | None => "" end +:+
  match gh_throttled h with [] => "" | l => ", throttled: " +:+ join ", " l end +:+
  let vram := default 0 (gh_process_vram_mb h) in
  match gh_processes h with
  | Some 1 => ", 1 process (" +:+ pretty vram +:+ " MB)"
  | Some count =>
      if 1 <? count then ", " +:+ pretty count +:+ " processes (" +:+ pretty vram +:+ " MB)" else ""
  | None => ""
  end.

End GpuHealth.

(** NVML's throttle reasons the program names; the others are left out. *)
Inductive ThrottleReason :=
  | SW_THERMAL_SLOWDOWN | HW_THERMAL_SLOWDOWN | SW_POWER_CAP | HW_POWER_BRAKE_SLOWDOWN
  | HW_SLOWDOWN | OTHER_REASON (bit : N).

#[export] Instance ThrottleReason_eq_dec : EqDecision ThrottleReason.
Proof. solve_decision. Defined.

Definition throttle_names (reasons : list ThrottleReason) : list string :=
  (if bool_decide (SW_THERMAL_SLOWDOWN ∈ reasons) || bool_decide (HW_THERMAL_SLOWDOWN ∈ reasons)
   then ["thermal"] else []) ++
  (if bool_decide (SW_POWER_CAP ∈ reasons) || bool_decide (HW_POWER_BRAKE_SLOWDOWN ∈ reasons)
   then ["power"] else []) ++
  (if bool_decide (HW_SLOWDOWN ∈ reasons) then ["hardware"] else []).

(** What NVML answers for one device; a query that failed is [None]. *)
Record Device := mkDevice {
  dv_temperature : option N;
  dv_power_usage : option N;             (* milliwatts *)
  dv_enforced_power_limit : option N;    (* milliwatts *)
  dv_memory_used : option N;             (* bytes *)
  dv_utilization_gpu : option N;         (* percent *)
  dv_throttle_reasons : option (list ThrottleReason);
  dv_compute_processes : option (list (option N));  (* bytes each; None is Unavailable *)
}.

Definition mebibytes (bytes : N) : N := bytes `div` 1024 `div` 1024.

Module GpuMonitor.

(** The readings of one card of the inventory. *)
Definition read_one (device_by_index : N → option Device) (quarantines : Quarantines.t)
    (gpu : GpuInfo) : GpuHealth :=
  let quarantined := q_reason <$> Quarantines.get gpu quarantines in
  let tested_at := Quarantines.tested_at gpu quarantines in
  match device_by_index (gi_index gpu) with
  | None =>
      mkGpuHealth (gi_index gpu) None None None None None [] None None quarantined tested_at
  | Some device =>
      mkGpuHealth (gi_index gpu)
        (dv_temperature device)
        ((λ milliwatts, milliwatts `div` 1000) <$> dv_power_usage device)
        ((λ milliwatts, milliwatts `div` 1000) <$> dv_enforced_power_limit device)
        (mebibytes <$> dv_memory_used device)
        (dv_utilization_gpu device)
        (default [] (throttle_names <$> dv_throttle_reasons device))
        ((λ l, N.of_nat (length l)) <$> dv_compute_processes device)
        ((λ l, Nsum (λ p, default 0 (mebibytes <$> p)) l) <$> dv_compute_processes device)
        quarantined tested_at
  end.

Definition read (device_by_index : N → option Device) (quarantines : Quarantines.t)
    (gpus : list GpuInfo) : list GpuHealth :=
  read_one device_by_index quarantines <$> gpus.

(** [roster gpu clear]: put a quarantined card back in service. *)
Definition clear `{Serde (gmap string Quarantine)} (outcome : SaveOutcome) (gpu : GpuInfo)
    (now : DateTime) (quarantines : Quarantines.t) (fs : FileSystem) :=
  Quarantines.handle outcome gpu Cleared now quarantines fs.

(** What [roster qualify] reports for one of this machine's cards. *)
Definition record_test `{Serde (gmap string Quarantine)} (outcome : SaveOutcome) (gpu : GpuInfo)
    (passed : bool) (reason : string) (now later : DateTime) (quarantines : Quarantines.t)
    (fs : FileSystem) :=
  Quarantines.record_test outcome gpu passed reason now later quarantines fs.

End GpuMonitor.

(** ** Properties *)

(** A card is fit for an idle-card placement. *)
Definition fit_when_idle (h : GpuHealth) : Prop :=
  default 0 (gh_process_vram_mb h) < BUSY_VRAM_MB ∧ gh_throttled h = [] ∧ is_Some (gh_tested_at h).

Lemma blocked_None unbooked h :
  GpuHealth.blocked unbooked h = None ↔
    gh_quarantined h = None ∧ (unbooked = true → fit_when_idle h).
Proof.
  unfold GpuHealth.blocked, fit_when_idle, GpuHealth.busy.
  destruct (gh_quarantined h); [naive_solver|].
  destruct unbooked; cbn [andb]; [|naive_solver].
  destruct (N.leb_spec BUSY_VRAM_MB (default 0 (gh_process_vram_mb h))); [naive_solver lia|].
  destruct (gh_throttled h); cbn [negb]; [|naive_solver].
  case_bool_decide; cbn [negb]; naive_solver.
Qed.

(** What the monitor reports for a card decides whether placement may use
    it: a quarantined card never, booked or not; an unbooked card only when
    its processes hold under 1 GB, it is not throttled, and it was tested
    since its node's daemon started; a booked card keeps its jobs whatever
    it measures. *)
Theorem monitor_blocks (device_by_index : N → option Device) (s : Quarantines.t) (gpu : GpuInfo)
    (unbooked : bool) :
  let h := GpuMonitor.read_one device_by_index s gpu in
  GpuHealth.blocked unbooked h = None ↔
    Quarantines.get gpu s = None ∧
    (unbooked = true →
      is_Some (Quarantines.tested_at gpu s) ∧
      ∀ device, device_by_index (gi_index gpu) = Some device →
        (∀ l, dv_throttle_reasons device = Some l → throttle_names l = []) ∧
        (∀ l, dv_compute_processes device = Some l →
           Nsum (λ p, default 0 (mebibytes <$> p)) l < BUSY_VRAM_MB)).
Proof.
  cbn zeta. rewrite blocked_None. unfold fit_when_idle, GpuMonitor.read_one.
  destruct (device_by_index (gi_index gpu)) as [dev|] eqn:Hd; cbn.
  - destruct (Quarantines.get gpu s); cbn; [naive_solver|].
    split; intros [Hq Hf]; (split; [done|]); intros Hu; specialize (Hf Hu).
    + destruct Hf as (Hp & Ht & Htest). split; [done|]. intros ? [= <-].
      split; intros l Hl; rewrite Hl in *; done.
    + destruct Hf as (Htest & Hdev). destruct (Hdev _ eq_refl) as [Ht Hp].
      destruct (dv_throttle_reasons dev), (dv_compute_processes dev); cbn; naive_solver.
  - destruct (Quarantines.get gpu s); cbn; naive_solver.
Qed.
