(* ===== verification/Protocol.v ===== *)
(** * The wire protocol: [src/ipc/protocol.rs]

    Requests and responses between a client, a controller and a node's daemon.
    Their JSON form is serde's and stays a parameter. *)

From S2P Require Import Prelude Spec Pool Handle Model Health.

Inductive Request :=
  | Request_Ping
  | Request_Submit (spec_yaml : string)
  | Request_Ps
  | Request_Status (run_id : string)
  | Request_Logs (run_id job_id : string)
  | Request_Cancel (run_id : string)
  | Request_Info
  | Request_Nodes
  | Request_ClearGpu (node : option string) (gpu : N)
  | Request_GpuQualified (gpu_index : N) (passed : bool) (reason : string)
  | Request_Launch (run_id : string) (job : JobSpec) (allocation : Allocation)
  | Request_Poll (run_id job_id : string)
  | Request_Kill (run_id job_id : string)
  | Request_LogTail (run_id job_id : string) (bytes : N).

(** What a machine's daemon reports about itself. *)
Record NodeInfo := mkNodeInfo {
  ni_version : string;
  ni_pid : N;
  ni_socket : string;
  ni_running_jobs : nat;
  ni_jobs_survive_restart : bool;
  ni_resources : SystemResources;
  ni_gpu_health : list GpuHealth;
}.

(** One node as this daemon sees it. *)
Record NodeStatus := mkNodeStatus {
  ns_name : string;
  ns_ssh : option string;
  ns_online : bool;
  ns_state : string;
  ns_since : DateTime;
  ns_running_jobs : nat;
  ns_total : SystemResources;
  ns_free_cpu : N;
  ns_free_memory_mb : N;
  ns_free_vram_mb : list N;
  ns_gpu_health : list GpuHealth;
}.

Record RunSummary := mkRunSummary {
  sum_run_id : string;
  sum_workflow_name : string;
  sum_status : string;
}.

Record JobDetail := mkJobDetail {
  jd_job_id : string;
  jd_state : string;
  jd_exit_code : option Z;
  jd_started_at : option string;
  jd_ended_at : option string;
  jd_log_path : option string;
  jd_reason : option string;
}.

Record RunDetail := mkRunDetail {
  rd_run_id : string;
  rd_workflow_name : string;
  rd_status : string;
  rd_created_at : string;
  rd_jobs : list JobDetail;
}.

Inductive Response :=
  | Response_Pong
  | Response_Submitted (run_id : string)
  | Response_PsResult (runs : list RunSummary)
  | Response_StatusResult (run : RunDetail)
  | Response_Log (text : string)
  | Response_Cancelled (run_id : string)
  | Response_Error (message : string)
  | Response_Info (info : NodeInfo)
  | Response_Nodes (nodes : list NodeStatus)
  | Response_GpuCleared
  | Response_Recorded
  | Response_Launched (host_pid : N)
  | Response_Rejected (reason : string)
  | Response_Polled (exit_code : option Z)
  | Response_Killed.
