(* ===== verification/Executor.v ===== *)
(** * The executor interface and the nodes: [src/executor/mod.rs], [src/node.rs]

    The scheduler reaches everything outside its own memory through the
    operations here: each node's executor, the daemon's store and the event
    ring.  They act on a state of the outside world, [W]; an operation the
    program awaits takes the world to a new one. *)

From S2P Require Import Prelude Pool Handle Model Health Protocol.

(** The trait [Executor]. *)
Record Executor (W : Type) := mkExecutor {
  launch : string → JobInstance → Allocation → W → result JobHandle ExecutorError * W;
  poll : JobHandle → W → result PollResult ExecutorError * W;
  cancel : JobHandle → W → result unit ExecutorError * W;
  tail : string → string → N → W → result string ExecutorError * W;
}.
Arguments launch {W}.
Arguments poll {W}.
Arguments cancel {W}.
Arguments tail {W}.

(** A node the scheduler can place on.  [nd_online] and [nd_info] read what
    the node's tunnel task wrote; [nd_request] is [Node::request]. *)
Record Node (W : Type) := mkNode {
  nd_name : string;
  nd_ssh : option string;
  nd_executor : Executor W;
  nd_socket : option PathBuf;
  nd_online : W → bool;
  nd_info : W → option NodeInfo;
  nd_request : Request → W → result Response string * W;
}.
Arguments nd_name {W}.
Arguments nd_ssh {W}.
Arguments nd_executor {W}.
Arguments nd_socket {W}.
Arguments nd_online {W}.
Arguments nd_info {W}.
Arguments nd_request {W}.

(** What the daemon's tasks share besides the locked state. *)
Class DaemonEnv (W : Type) : Type := {
  env_nodes : list (Node W);
  env_home : option string;  (* $HOME *)
  env_resources : SystemResources;  (* this machine's inventory *)
  (* [store.upsert_run], [store.upsert_job]; the scheduler ignores their result *)
  upsert_run : WorkflowRun → W → W;
  upsert_job : string → JobInstance → option string → W → W;
  send : JobEvent → W → W;   (* the single writer of the event ring *)
  read_gpus : W → list GpuHealth;  (* [gpu_monitor.read(&resources.gpus)] *)
}.

(** [state.nodes[node]] *)
Definition node_at `{DaemonEnv W} (node : nat) : exec (Node W) := index env_nodes node.

(** ** A concrete environment, for the witnesses

    One node whose executor starts every job and reports it ended, with exit
    code 0, once it was asked often enough: the world counts the polls. *)

Definition demo_executor : Executor N := mkExecutor N
  (λ _ _ _ w, (Ok (JobHandle.process 42 None None), w))
  (λ _ w, (Ok (if w <? 2 then PollRunning else PollExited 0), w + 1))
  (λ _ w, (Ok tt, w))
  (λ _ _ _ w, (Ok "", w)).

Definition demo_node_env : Node N := mkNode N "local" None demo_executor None
  (λ _, true) (λ _, None) (λ _ w, (Ok Response_Recorded, w)).

Definition demo_resources : SystemResources :=
  mkSystemResources 4 8000 [mkGpuInfo 0 "card" 24000 "GPU-aaaa"; mkGpuInfo 1 "card" 24000 "GPU-bbbb"].

Definition demo_env : DaemonEnv N := {|
  env_nodes := [demo_node_env];
  env_home := Some "/home/user";
  env_resources := demo_resources;
  upsert_run := λ _ w, w;
  upsert_job := λ _ _ _ w, w;
  send := λ _ w, w;
  read_gpus := λ _, [];
|}.
