(* ===== verification/Ledger.v ===== *)
(** * What the daemon's writes promise its readers

    The interface between the tasks that write the store (the scheduler's
    flushes and a submission, through [DaemonEnv]) and those that read it (the
    request handlers, a restart): the database in a world is the tables of
    [Store.v], one upsert at a time, and nothing but these writes changes
    it.  A write may fail, which leaves the tables as they were; its writers
    ignore that, so a client that needs every write to land says so
    ([WritesLand]). *)

From S2P Require Import Prelude Spec Pool Handle Model Store Health Protocol Executor.

Class StoreBacked (W : Type) `{DaemonEnv W} `{Rfc3339} `{Serde WorkflowSpec} `{Serde Allocation}
    : Type := {
  sb_db : W → RunStore;
  (* whether the write goes through *)
  sb_run_lands : WorkflowRun → W → bool;
  sb_job_lands : string → JobInstance → option string → W → bool;
  sb_write_run : ∀ run w,
    sb_db (upsert_run run w) = if sb_run_lands run w then upsert_run_row run (sb_db w) else sb_db w;
  sb_write_job : ∀ run_id job node w,
    sb_db (upsert_job run_id job node w) =
      if sb_job_lands run_id job node w then upsert_job_row run_id job node (sb_db w) else sb_db w;
  sb_send : ∀ event w, sb_db (send event w) = sb_db w;
  sb_launch : ∀ node run_id job allocation w, node ∈ env_nodes →
    sb_db (launch (nd_executor node) run_id job allocation w).2 = sb_db w;
  sb_poll : ∀ node handle w, node ∈ env_nodes →
    sb_db (poll (nd_executor node) handle w).2 = sb_db w;
  sb_cancel : ∀ node handle w, node ∈ env_nodes →
    sb_db (cancel (nd_executor node) handle w).2 = sb_db w;
  sb_tail : ∀ node run_id job_id bytes w, node ∈ env_nodes →
    sb_db (tail (nd_executor node) run_id job_id bytes w).2 = sb_db w;
  sb_request : ∀ node request w, node ∈ env_nodes →
    sb_db (nd_request node request w).2 = sb_db w;
}.

(** No write fails. *)
Class WritesLand (W : Type) `{StoreBacked W} : Prop := {
  wl_run : ∀ run w, sb_run_lands run w = true;
  wl_job : ∀ run_id job node w, sb_job_lands run_id job node w = true;
}.

Section landing.
Context {W : Type} `{StoreBacked W} `{!WritesLand W}.

Lemma sb_upsert_run run w : sb_db (upsert_run run w) = upsert_run_row run (sb_db w).
Proof. by rewrite sb_write_run, wl_run. Qed.

Lemma sb_upsert_job run_id job node w :
  sb_db (upsert_job run_id job node w) = upsert_job_row run_id job node (sb_db w).
Proof. by rewrite sb_write_job, wl_job. Qed.
End landing.

(** ** One such world, for the witnesses: the tables and a poll counter *)

Definition demo_stored_executor : Executor (RunStore * N) := mkExecutor _
  (λ _ _ _ w, (Ok (JobHandle.process 42 None None), w))
  (λ _ w, (Ok (if w.2 <? 2 then PollRunning else PollExited 0), (w.1, w.2 + 1)))
  (λ _ w, (Ok tt, w))
  (λ _ _ _ w, (Ok "", w)).

Definition demo_stored_node : Node (RunStore * N) :=
  mkNode _ "local" None demo_stored_executor None (λ _, true) (λ _, None)
    (λ _ w, (Ok Response_Recorded, w)).

#[local] Existing Instance demo_rfc3339.
#[local] Existing Instance demo_spec_serde.
#[local] Existing Instance demo_allocation_serde.

Definition demo_stored_env : DaemonEnv (RunStore * N) := {|
  env_nodes := [demo_stored_node];
  env_home := Some "/home/user";
  env_resources := demo_resources;
  upsert_run := λ run w, (upsert_run_row run w.1, w.2);
  upsert_job := λ run_id job node w, (upsert_job_row run_id job node w.1, w.2);
  send := λ _ w, w;
  read_gpus := λ _, [];
|}.

#[local] Existing Instance demo_stored_env.

Definition demo_stored_backed : StoreBacked (RunStore * N).
Proof.
  refine {| sb_db := fst; sb_run_lands := λ _ _, true; sb_job_lands := λ _ _ _ _, true |}; try done; by intros node * ->%list_elem_of_singleton.
Defined.

#[local] Existing Instance demo_stored_backed.

Lemma demo_writes_land : WritesLand (RunStore * N).
Proof. done. Qed.
