(* ===== verification/Shell.v ===== *)
(** * Running jobs on this machine: [src/executor/shell.rs]

    [ShellExecutor] starts a job as a process of its own, inside a systemd
    scope where there is one, and later finds, polls, stops and reads it by
    names that are the same on every call.  The operating system is the
    class [ShellOS]: files, processes, signals and systemd as operations on a
    world [W].  Text is bytes. *)

From S2P Require Import Prelude Spec Pool Handle Model Text Health Protocol Executor.

(** ** Numbers in text *)

Definition digit (c : ascii) : option N :=
  let n := N_of_ascii c in if (48 <=? n) && (n <=? 57) then Some (n - 48) else None.

Fixpoint parse_digits (acc : N) (s : string) : option N :=
  match s with
  | "" => Some acc
  | String c s' => d ← digit c; parse_digits (10 * acc + d) s'
  end.

(** A non-empty run of decimal digits. *)
Definition parse_nat (s : string) : option N :=
  match s with "" => None | _ => parse_digits 0 s end.

(** [text.parse::<u32>()]: a leading [+] is allowed. *)
Definition parse_u32 (s : string) : option N :=
  n ← parse_nat (default s (strip_prefix "+" s));
  if n <=? u32_max then Some n else None.

(** [text.parse::<i32>()] *)
Definition parse_i32 (s : string) : option Z :=
  match strip_prefix "-" s with
  | Some s' => n ← parse_nat s'; if n <=? 2 ^ 31 then Some (- Z.of_N n)%Z else None
  | None =>
      n ← parse_nat (default s (strip_prefix "+" s));
      if n <? 2 ^ 31 then Some (Z.of_N n) else None
  end.

(** ** Text *)

(** [s.contains(sub)] *)
Fixpoint contains (sub s : string) : bool :=
  match strip_prefix sub s with
  | Some _ => true
  | None => match s with "" => false | String _ s' => contains sub s' end
  end.

(** [s.split_once(sep)] for a one-byte [sep]. *)
Fixpoint split_once (sep : ascii) (s : string) : option (string * string) :=
  match s with
  | "" => None
  | String c s' =>
      if Ascii.eqb c sep then Some ("", s')
      else p ← split_once sep s'; Some (String c p.1, p.2)
  end.

(** [s.lines()]: pieces between line feeds, a last empty piece dropped, a
    carriage return before a line feed too. *)
Definition strip_cr (line : string) : string :=
  match strip_prefix (bytes_to_string [13]) (string_rev line) with
  | Some rest => string_rev rest
  | None => line
  end.

Definition lines (s : string) : list string :=
  let pieces := split_on (Ascii.eqb (ascii_of_N 10)) s in
  (strip_cr <$> List.removelast pieces) ++
  match List.last pieces "" with "" => [] | l => [l] end.

(** [s.split_whitespace()] *)
Fixpoint split_ws (fuel : nat) (word s : string) : list string :=
  let flush rest := if is_empty word then rest else string_rev word :: rest in
  match fuel with
  | O => flush []
  | S fuel' =>
      match strip_any WHITE_SPACE s with
      | Some s' => flush (split_ws fuel' "" s')
      | None =>
          match s with
          | "" => flush []
          | String c s' => split_ws fuel' (String c word) s'
          end
      end
  end.

Definition split_whitespace (s : string) : list string := split_ws (S (String.length s)) "" s.

Definition in_range (lo hi : N) (c : ascii) : bool :=
  let n := N_of_ascii c in (lo <=? n) && (n <=? hi).

Definition is_ascii_alphabetic (c : ascii) : bool := in_range 65 90 c || in_range 97 122 c.
Definition is_ascii_alphanumeric (c : ascii) : bool := is_ascii_alphabetic c || in_range 48 57 c.

(** What a reader finds after seeking to byte [n]. *)
Fixpoint seek (n : nat) (s : string) : string :=
  match n, s with
  | S n', String _ s' => seek n' s'
  | _, _ => s
  end.

(** ** Unit names *)

Definition hex_digit (n : N) : ascii :=
  default "0"%char (String.get (N.to_nat n) "0123456789abcdef").

(** A byte a unit name can't hold becomes [_XX]. *)
Definition escape_byte (c : ascii) : string :=
  if is_ascii_alphanumeric c || Ascii.eqb c "-" then String c ""
  else String "_" (String (hex_digit (N_of_ascii c `div` 16))
                    (String (hex_digit (N_of_ascii c `mod` 16)) "")).

Fixpoint escape (id : string) : string :=
  match id with "" => "" | String c id' => escape_byte c +:+ escape id' end.

(** The same name for the same job on every call. *)
Definition unit_name (run_id job_id : string) : string :=
  "roster-" +:+ escape run_id +:+ "-" +:+ escape job_id.

Definition SLICE : string := "roster.slice".

Definition quote (s : string) : string := String "034" (s +:+ String "034" "").

(** Runs the job, then writes its exit code through a temp file. *)
Definition EXIT_WRAPPER : string :=
  "sh -c " +:+ quote "$1" +:+ "; code=$?; echo $code > " +:+ quote "$2.tmp" +:+ " && mv "
  +:+ quote "$2.tmp" +:+ " " +:+ quote "$2" +:+ "; exit $code".

Definition CUT_NOTICE : string := "[earlier output cut]".

(** Words sh runs itself. *)
Definition SHELL_WORDS : list string :=
  ["."; ":"; "["; "alias"; "break"; "case"; "cd"; "command"; "continue"; "eval"; "exec"; "exit";
   "export"; "for"; "if"; "read"; "readonly"; "return"; "set"; "shift"; "source"; "test"; "time";
   "trap"; "ulimit"; "umask"; "unset"; "until"; "wait"; "while"].

(** Characters that make sh expand a word. *)
Definition shell_special (c : ascii) : bool :=
  existsb (Ascii.eqb c) (chars ("$`'" +:+ String "034" "\(){}[]*?~;&|<>!#=")).

(** [NAME=value] before a command sets a variable for it. *)
Definition is_assignment (word : string) : bool :=
  match split_once "=" word with
  | Some (name, _) =>
      match name with
      | "" => false
      | String c _ => is_ascii_alphabetic c || Ascii.eqb c "_"
      end && forallb (λ c, is_ascii_alphanumeric c || Ascii.eqb c "_") (chars name)
  | None => false
  end.

(** ** The operating system *)

Inductive Signal := SIGTERM | SIGKILL.

(** [waitpid(pid, WNOHANG)] *)
Inductive WaitStatus :=
  | WaitStillAlive
  | WaitExited (exit_code : Z)
  | WaitSignaled
  | WaitOther           (* stopped, continued, .. *)
  | WaitECHILD
  | WaitError (error : string).

(** What [Command] is given before it is spawned. *)
Record Command := mkCommand {
  cm_program : string;
  cm_args : list string;
  cm_env : list (string * string);
  cm_log : PathBuf;  (* stdout and stderr *)
}.

Class ShellOS (W : Type) : Type := {
  os_home : string;            (* set: without HOME the daemon does not start *)
  os_scopes : bool;            (* what [scopes_available] answers, the same every time ([probed_once]) *)
  os_current_exe : string;
  os_cwd : string;
  os_path : string;            (* $PATH, and its directories *)
  os_split_paths : list string;
  os_read : PathBuf → W → result string string;  (* a file's bytes *)
  os_exists : PathBuf → W → bool;
  os_metadata : PathBuf → W → option (bool * N);   (* a regular file or not, and its mode *)
  os_status : string → list string → W → result bool string * W;  (* a command run to its end: success *)
  os_create_parent : PathBuf → W → result unit string * W;
  os_create_log : PathBuf → W → result unit string * W;  (* open, truncate and clone *)
  os_spawn : Command → W → result N string * W;
  os_waitpid : N → W → WaitStatus * W;
  os_killpg : N → Signal → W → result unit string * W;
  os_sleep : W → W;            (* the 5 s between the signals *)
  os_control_group : string → W → option string;  (* [systemctl show]'s output *)
  os_stop_scope : string → W → W;                 (* [systemctl stop] *)
}.

Section shell.
Context {W : Type} `{ShellOS W}.

(** ** Asking *)

(** The code the wrapper wrote; 128 + N, a death by signal N, becomes -1. *)
Definition read_exit_code (exit_file : PathBuf) (w : W) : option Z :=
  text ← result_ok (os_read exit_file w);
  code ← parse_i32 (trim text);
  Some (if (129 <=? code)%Z && (code <=? 192)%Z then (-1)%Z else code).

(** The process still lives in the job's scope. *)
Definition in_scope (pid : N) (unit : string) (w : W) : bool :=
  (0 <? pid) &&
  match os_read ("/proc/" +:+ pretty pid +:+ "/cgroup") w with
  | Ok text => contains ("/" +:+ unit +:+ ".scope") text
  | Err _ => false
  end.

(** The processes in a job's scope; empty once the scope is gone. *)
Definition scope_pids (unit : string) (w : W) : list N :=
  match os_control_group (unit +:+ ".scope") w with
  | None => []
  | Some output =>
      let group := trim (from_utf8_lossy output) in
      if is_empty group then []
      else omap parse_u32
             (lines (default "" (result_ok (os_read ("/sys/fs/cgroup" +:+ group +:+ "/cgroup.procs") w))))
  end.

Definition stop_scope (unit : string) (w : W) : W := os_stop_scope (unit +:+ ".scope") w.

(** Without systemd: our child, by [waitpid]. *)
Definition poll_child (host_pid : N) (w : W) : result PollResult ExecutorError * W :=
  let '(status, w') := os_waitpid host_pid w in
  (match status with
   | WaitStillAlive | WaitOther => Ok PollRunning
   | WaitExited exit_code => Ok (PollExited exit_code)
   | WaitSignaled => Ok (PollExited (-1))
   | WaitECHILD => Ok (PollExited 0)  (* already reaped *)
   | WaitError error => Err (WaitFailed error)
   end, w').

(** Running while our own child is alive; done once the wrapper wrote the
    code, and then the scope is stopped; running while any process of the
    scope is alive; otherwise ended without a code. *)
Definition poll_scope (host_pid : N) (unit : string) (exit_file : PathBuf) (w : W) : PollResult * W :=
  let '(alive, w1) :=
    if 0 <? host_pid then
      let '(status, w1) := os_waitpid host_pid w in
      (match status with WaitStillAlive => true | _ => false end, w1)
    else (false, w) in
  if alive then (PollRunning, w1)
  else match read_exit_code exit_file w1 with
       | Some exit_code => (PollExited exit_code, stop_scope unit w1)
       | None =>
           if in_scope host_pid unit w1 || negb (match scope_pids unit w1 with [] => true | _ => false end)
           then (PollRunning, w1)
           else (PollExited (-1), w1)
       end.

(** The oldest of the processes. *)
Definition min_pid (pids : list N) : option N :=
  match pids with [] => None | p :: pids' => Some (foldl N.min p pids') end.

(** A job started earlier: its scope while it runs, or its exit file once it
    ended; nothing without systemd. *)
Definition local_log (run_id job_id : string) : PathBuf :=
  path_join os_home (job_log_relpath run_id job_id).

Definition shell_find (run_id job_id : string) (w : W) : option JobHandle :=
  if os_scopes then
    let unit := unit_name run_id job_id in
    let exit_file := with_extension (local_log run_id job_id) "exit" in
    let pid := min_pid (scope_pids unit w) in
    if negb (bool_decide (is_Some pid)) && negb (os_exists exit_file w) then None
    else Some (JobHandle.process (default 0 pid) (Some unit) (Some exit_file))
  else None.

(** A file with an x bit (0o111) for anyone. *)
Definition is_executable (path : PathBuf) (w : W) : bool :=
  match os_metadata path w with
  | Some (is_file, mode) => is_file && negb (N.land mode 73 =? 0)
  | None => false
  end.

Fixpoint take_while {A} (f : A → bool) (l : list A) : list A :=
  match l with [] => [] | x :: l' => if f x then x :: take_while f l' else [] end.

(** Whether the program a job's command starts with is on this machine; a
    first word sh expands or runs itself is left for sh to judge. *)
Definition check_program (command : string) (w : W) : result unit string :=
  let words := split_whitespace command in
  let assigned := take_while is_assignment words in
  if existsb (λ word, bool_decide (is_Some (strip_prefix "PATH=" word))) assigned then Ok tt
  else match words !! length assigned with
       | None => Ok tt
       | Some program =>
           if existsb (String.eqb program) SHELL_WORDS || existsb shell_special (chars program)
           then Ok tt
           else if contains "/" program then
             if is_executable (path_join os_cwd program) w then Ok tt
             else Err ("'" +:+ program +:+ "' is not an executable file (working directory "
                         +:+ os_cwd +:+ ")")
           else
             if existsb (λ dir, is_executable (path_join dir program) w) os_split_paths then Ok tt
             else Err ("'" +:+ program +:+ "' not found on PATH " +:+ os_path
                         +:+ " (jobs don't read .bashrc; give the program's full path)")
       end.

(** The end of a file, at most [bytes] long; when the file is longer, it
    starts at the next whole line after [CUT_NOTICE]. *)
Definition read_tail (path : PathBuf) (bytes : N) (w : W) : result string string :=
  match os_read path w with
  | Err error => Err error
  | Ok file =>
      let len := N.of_nat (String.length file) in
      let start := saturating_sub len bytes in
      let text := from_utf8_lossy (seek (N.to_nat start) file) in
      if start =? 0 then Ok text
      else
        let whole_lines := match split_once (ascii_of_N 10) text with
                           | Some (_, rest) => rest
                           | None => ""
                           end in
        Ok (CUT_NOTICE +:+ newline +:+ whole_lines)
  end.

(** ** The user manager *)

(** Whether jobs can run in scopes: probed by running [true] in one, and the
    answer kept ([cell] is the [OnceLock]). *)
Definition scopes_available (cell : option bool) (w : W) : bool * option bool * W :=
  match cell with
  | Some available => (available, cell, w)
  | None =>
      let '(status, w') := os_status "systemd-run" ["--user"; "--scope"; "--quiet"; "true"] w in
      let available := match status with Ok success => success | Err _ => false end in
      (available, Some available, w')
  end.

(** Cap the RAM all jobs on this machine may use together; a failure is only
    logged. *)
Definition limit_jobs (memory_mb : N) (cell : option bool) (w : W) : option bool * W :=
  let '(available, cell', w1) := scopes_available cell w in
  if available then
    (cell', (os_status "systemctl"
       ["--user"; "set-property"; "--runtime"; SLICE; "MemoryMax=" +:+ pretty memory_mb +:+ "M"; "MemorySwapMax=0"] w1).2)
  else (cell', w1).

(** ** Starting and stopping *)

(** The cards of an allocation as CUDA_VISIBLE_DEVICES lists them. *)
Definition gpu_indices (placement : Allocation) : string :=
  join "," ((λ g, pretty (ga_index g)) <$> al_gpus placement).

(** The command line: the job in its scope, under the wrapper, or bare. *)
Definition job_command (scope : option string) (exit_file : option PathBuf) (command : string)
    (placement : Allocation) (log : PathBuf) : Command :=
  let '(program, args) :=
    match scope, exit_file with
    | Some unit, Some exit_file =>
        ("systemd-run",
         ["--user"; "--scope"; "--quiet"; "--collect"; "--slice"; SLICE; "--unit"; unit;
          "-p"; "TimeoutStopSec=5"; "sh"; "-c"; EXIT_WRAPPER; "roster"; command; exit_file])
    | _, _ => ("sh", ["-c"; command])
    end in
  mkCommand program args
    [("CUDA_DEVICE_ORDER", "PCI_BUS_ID");
     ("CUDA_VISIBLE_DEVICES", gpu_indices placement);
     ("ROSTER_GPUS", pretty (N.of_nat (length (al_gpus placement))));
     ("ROSTER_BIN", os_current_exe);
     ("PYTHONUNBUFFERED", "1")]
    log.

Definition shell_launch (run_id : string) (job : JobInstance) (placement : Allocation) (w : W)
    : result JobHandle ExecutorError * W :=
  match shell_find run_id (ji_job_id job) w with
  | Some handle => (Ok handle, w)  (* started earlier: taken over *)
  | None =>
      match check_program (js_command (ji_spec job)) w with
      | Err why => (Err (Rejected why), w)
      | Ok _ =>
          let log := local_log run_id (ji_job_id job) in
          let '(made, w1) := os_create_parent log w in
          match made with
          | Err error => (Err (LogSetupFailed error), w1)
          | Ok _ =>
              let '(opened, w2) := os_create_log log w1 in
              match opened with
              | Err error => (Err (LogSetupFailed error), w2)
              | Ok _ =>
                  let scope := if os_scopes then Some (unit_name run_id (ji_job_id job)) else None in
                  let exit_file := (λ _, with_extension log "exit") <$> scope in
                  let '(child, w3) :=
                    os_spawn (job_command scope exit_file (js_command (ji_spec job)) placement log) w2 in
                  match child with
                  | Err error => (Err (SpawnFailed error), w3)
                  | Ok host_pid => (Ok (JobHandle.process host_pid scope exit_file), w3)
                  end
              end
          end
      end
  end.

Definition shell_poll (handle : JobHandle) (w : W) : result PollResult ExecutorError * W :=
  match JobHandle.scope handle, JobHandle.exit_file handle with
  | Some unit, Some exit_file =>
      let '(r, w') := poll_scope (jh_host_pid handle) unit exit_file w in (Ok r, w')
  | _, _ => poll_child (jh_host_pid handle) w
  end.

(** A scope is stopped by systemd; without one, SIGTERM to the process group
    and SIGKILL after 5 s. *)
Definition shell_cancel (handle : JobHandle) (w : W) : result unit ExecutorError * W :=
  match JobHandle.scope handle with
  | Some unit => (Ok tt, stop_scope unit w)
  | None =>
      let '(r, w1) := os_killpg (jh_host_pid handle) SIGTERM w in
      match r with
      | Err error => (Err (KillFailed error), w1)
      | Ok _ => (Ok tt, (os_killpg (jh_host_pid handle) SIGKILL (os_sleep w1)).2)
      end
  end.

Definition shell_tail (run_id job_id : string) (bytes : N) (w : W) : result string ExecutorError * W :=
  (match read_tail (local_log run_id job_id) bytes w with
   | Ok text => Ok text
   | Err error => Err (LogReadFailed error)
   end, w).

Definition ShellExecutor : Executor W := mkExecutor W shell_launch shell_poll shell_cancel shell_tail.

End shell.

(** ** The probe *)

(** Once probed, the answer stays and nothing is run again. *)
Lemma probed_once {W} `{ShellOS W} cell w available cell' w' :
  scopes_available cell w = (available, cell', w') →
  cell' = Some available ∧ ∀ w2, scopes_available cell' w2 = (available, cell', w2).
Proof.
  unfold scopes_available. destruct cell as [a|]; [by intros [= <- <- _]|].
  destruct (os_status _ _ _) as [status w1]. by intros [= <- <- _].
Qed.

(** ** Numbers, there and back *)

(** The ten digits, each checked. *)
Lemma digit_cases (P : N → Prop) :
  P 0 → P 1 → P 2 → P 3 → P 4 → P 5 → P 6 → P 7 → P 8 → P 9 → ∀ d, d < 10 → P d.
Proof.
  intros. assert (d = 0 ∨ d = 1 ∨ d = 2 ∨ d = 3 ∨ d = 4 ∨ d = 5 ∨ d = 6 ∨ d = 7 ∨ d = 8 ∨ d = 9)
    as Hd by lia.
  by repeat destruct Hd as [->|Hd]; [..|subst d].
Qed.

Lemma digit_char d : d < 10 → digit (pretty_N_char d) = Some d.
Proof. revert d. by apply digit_cases. Qed.

Lemma pretty_N_go_snoc (n : N) s :
  pretty_N_go n s = if n =? 0 then s else pretty_N_go (n `div` 10) (String (pretty_N_char (n `mod` 10)) s).
Proof.
  destruct (N.eqb_spec n 0) as [->|Hn]; [apply pretty_N_go_0|]. apply pretty_N_go_step. lia.
Qed.

Lemma parse_pretty_go (n : N) s : parse_digits 0 (pretty_N_go n s) = parse_digits n s.
Proof.
  revert s. induction (N.lt_wf_0 n) as [n _ IH]. intros s. rewrite pretty_N_go_snoc.
  destruct (N.eqb_spec n 0) as [->|Hn]; [done|]. rewrite IH by (apply N.div_lt; lia). cbn.
  rewrite digit_char by (apply N.mod_lt; lia). cbn. f_equal.
  pose proof (N.div_mod' n 10). lia.
Qed.

(** A number's text starts with a digit. *)
Lemma pretty_head (n : N) : ∃ d s, d < 10 ∧ pretty n = String (pretty_N_char d) s.
Proof.
  destruct (pretty n) as [|c s] eqn:E.
  - exfalso. assert (parse_nat (pretty n) = None) as Hp by (by rewrite E).
    unfold pretty, pretty_N in E. case_decide; [done|].
    pose proof (parse_pretty_go n "") as Hgo. rewrite E in Hgo. cbn in Hgo. congruence.
  - destruct (pretty_N_chars n c) as (d & Hd & ->); [rewrite E; by left|]. by exists d, s.
Qed.

Lemma parse_nat_pretty (n : N) : parse_nat (pretty n) = Some n.
Proof.
  destruct (pretty_head n) as (d & s & Hd & E). unfold parse_nat. rewrite E, <-E.
  unfold pretty, pretty_N. case_decide as Hn; [by subst n|]. apply parse_pretty_go.
Qed.

Lemma no_sign (n : N) sign : sign = "+" ∨ sign = "-" → strip_prefix sign (pretty n) = None.
Proof.
  destruct (pretty_head n) as (d & s & Hd & ->).
  intros [-> | ->]; revert d Hd; by apply digit_cases.
Qed.

Lemma parse_u32_pretty (n : N) : n ≤ u32_max → parse_u32 (pretty n) = Some n.
Proof.
  intros Hn. unfold parse_u32. rewrite no_sign by auto. cbn. rewrite parse_nat_pretty. cbn.
  by rewrite (proj2 (N.leb_le _ _)).
Qed.

Lemma parse_i32_pretty (n : N) : n < 2 ^ 31 → parse_i32 (pretty n) = Some (Z.of_N n).
Proof.
  intros Hn. unfold parse_i32. rewrite !no_sign by auto. cbn. rewrite parse_nat_pretty. cbn.
  by rewrite (proj2 (N.ltb_lt _ _)).
Qed.

(** ** Pieces, there and back *)

Lemma split_on_piece sep piece :
  (∀ c, c ∈ chars piece → sep c = false) → split_on sep piece = [piece].
Proof.
  induction piece as [|c piece IH]; intros Hc; [done|]. cbn.
  rewrite IH by (intros d Hd; apply Hc; by right). by rewrite Hc by (by left).
Qed.

Lemma split_on_app sep piece c rest :
  (∀ c, c ∈ chars piece → sep c = false) → sep c = true →
  split_on sep (piece +:+ String c rest) = piece :: split_on sep rest.
Proof.
  intros Hp Hc. induction piece as [|d piece IH].
  - change ("" +:+ String c rest) with (String c rest). cbn [split_on]. by rewrite Hc.
  - change (String d piece +:+ String c rest) with (String d (piece +:+ String c rest)).
    cbn [split_on]. rewrite IH by (intros e He; apply Hp; by right). by rewrite Hp by (by left).
Qed.

Lemma split_join sep pieces :
  pieces ≠ [] → (∀ p c, p ∈ pieces → c ∈ chars p → Ascii.eqb sep c = false) →
  split_on (Ascii.eqb sep) (join (String sep "") pieces) = pieces.
Proof.
  induction pieces as [|p [|q pieces] IH]; intros Hne Hc; [done| |].
  - apply split_on_piece. intros c. apply Hc. by left.
  - change (join (String sep "") (p :: q :: pieces))
      with (p +:+ String sep (join (String sep "") (q :: pieces))).
    rewrite split_on_app.
    + rewrite IH; [done|done|]. intros r c Hr. apply Hc. by right.
    + intros c. apply Hc. by left.
    + apply Ascii.eqb_refl.
Qed.

(** ** Unit names, there and back *)

Definition hex_value (c : ascii) : N :=
  let n := N_of_ascii c in if n <=? 57 then n - 48 else n - 87.

(** The character an escaped id starts with, and the rest. *)
Definition unescape_byte (s : string) : option (ascii * string) :=
  match s with
  | "" => None
  | String c s' =>
      if Ascii.eqb c "_" then
        match s' with
        | String a (String b s'') => Some (ascii_of_N (16 * hex_value a + hex_value b), s'')
        | _ => None
        end
      else Some (c, s')
  end.

Lemma unescape_escape_byte c s : unescape_byte (escape_byte c +:+ s) = Some (c, s).
Proof. by destruct c as [[] [] [] [] [] [] [] []]. Qed.

Lemma escape_byte_nonempty c s : escape_byte c +:+ s ≠ "".
Proof. by destruct c as [[] [] [] [] [] [] [] []]. Qed.

Lemma escape_inj id1 id2 : escape id1 = escape id2 → id1 = id2.
Proof.
  revert id2. induction id1 as [|c id1 IH]; intros [|d id2] E; cbn [escape] in E; [done| | |].
  - by destruct (escape_byte_nonempty d (escape id2)).
  - by destruct (escape_byte_nonempty c (escape id1)).
  - pose proof (unescape_escape_byte c (escape id1)) as Hc.
    rewrite E, unescape_escape_byte in Hc. injection Hc as -> ->%eq_sym%IH. done.
Qed.

Lemma app_inj_length (a b a' b' : string) :
  String.length a = String.length a' → a +:+ b = a' +:+ b' → a = a' ∧ b = b'.
Proof.
  revert a'. induction a as [|c a IH]; intros [|d a'] Hl E; try done.
  change (String c (a +:+ b) = String d (a' +:+ b')) in E. injection E as -> E.
  injection Hl as Hl. destruct (IH _ Hl E) as [-> ->]. done.
Qed.

(** Two jobs never share a systemd unit: among runs whose ids have one
    length and only letters, digits and dashes (a run id is a UUID), the unit
    name determines the run and the job, whatever bytes the job ids hold. *)
Theorem unit_names_apart run1 job1 run2 job2 :
  String.length run1 = String.length run2 → escape run1 = run1 → escape run2 = run2 →
  unit_name run1 job1 = unit_name run2 job2 → run1 = run2 ∧ job1 = job2.
Proof.
  intros Hl H1 H2 E. unfold unit_name in E. rewrite H1, H2 in E.
  apply (app_inj_length "roster-" _ "roster-") in E as [_ E]; [|done].
  apply app_inj_length in E as [-> E]; [|done].
  apply (app_inj_length "-" _ "-") in E as [_ E%escape_inj]; [|done]. done.
Qed.

(** For ids of any shape they can: the escape keeps each id apart, but the
    dash between the two ids is also a character of ids. *)
Lemma unit_names_collide : unit_name "a-b" "c" = unit_name "a" "b-c".
Proof. vm_compute. reflexivity. Qed.

(** ** The end of a log *)

Lemma seek_suffix n s : ∃ pre, s = pre +:+ seek n s ∧ String.length pre = Nat.min n (String.length s).
Proof.
  revert s. induction n as [|n IH]; intros s; [by exists ""|].
  destruct s as [|c s]; [by exists ""|]. destruct (IH s) as (pre & E & Hl).
  exists (String c pre). cbn [seek]. split; [|cbn; lia].
  change (String c s = String c (pre +:+ seek n s)). by rewrite <-E.
Qed.

Lemma split_once_spec sep s a b :
  split_once sep s = Some (a, b) → s = a +:+ String sep b ∧ sep ∉ chars a.
Proof.
  revert a. induction s as [|c s IH]; intros a E; cbn in E; [done|].
  destruct (Ascii.eqb_spec c sep) as [->|Hne].
  - injection E as <- <-. split; [done|]. by intros ?%elem_of_nil.
  - destruct (split_once sep s) as [[a' b']|] eqn:F; [|done]. cbn in E. injection E as <- <-.
    destruct (IH a' eq_refl) as [-> Hni]. split; [done|]. cbn. rewrite not_elem_of_cons. done.
Qed.

Lemma split_once_first sep a b : sep ∉ chars a → split_once sep (a +:+ String sep b) = Some (a, b).
Proof.
  induction a as [|c a IH]; intros Ha.
  { change (split_once sep (String sep b) = Some ("", b)). cbn [split_once]. by rewrite Ascii.eqb_refl. }
  apply not_elem_of_cons in Ha as [Hc Ha]. change (String c a +:+ String sep b) with (String c (a +:+ String sep b)).
  cbn [split_once]. destruct (Ascii.eqb_spec c sep); [by subst|]. by rewrite IH.
Qed.

Lemma split_once_none sep s : split_once sep s = None → sep ∉ chars s.
Proof.
  induction s as [|c s IH]; cbn; [intros _; apply not_elem_of_nil|].
  destruct (Ascii.eqb_spec c sep); [done|]. destruct (split_once sep s); [done|]. intros _.
  apply not_elem_of_cons. split; [congruence|by apply IH].
Qed.

Lemma split_once_absent sep s : sep ∉ chars s → split_once sep s = None.
Proof.
  intros Hs. destruct (split_once sep s) as [[a b]|] eqn:E; [|done]. apply split_once_spec in E as [-> _].
  destruct Hs. rewrite chars_app. apply elem_of_app. right. by left.
Qed.

Lemma length_string_app a b : String.length (a +:+ b) = (String.length a + String.length b)%nat.
Proof. induction a as [|c a IH]; [done|]. change (S (String.length (a +:+ b)) = S (String.length a) + String.length b)%nat. lia. Qed.

Section shell_properties.
Context {W : Type} `{ShellOS W}.

(** C26: The end of a log is whole lines, whatever bytes the log holds: a log of
    at most [bytes] bytes is answered in full; of a longer one the answer is
    the notice and then what follows the first line end in its last [bytes]
    bytes - so it starts at a line's beginning - or nothing more when they hold
    none.  Bytes that are not UTF-8 are answered as U+FFFD, line by line, which
    moves no line end; a log that is UTF-8 is answered byte for byte, also when
    its last [bytes] bytes begin inside a character. *)
Theorem tail_is_whole_lines path bytes w file :
  os_read path w = Ok file →
  (N.of_nat (String.length file) ≤ bytes → read_tail path bytes w = Ok (from_utf8_lossy file)) ∧
  (bytes < N.of_nat (String.length file) →
   ∃ before last_bytes rest, file = before +:+ last_bytes ∧ N.of_nat (String.length last_bytes) = bytes ∧
     read_tail path bytes w = Ok (CUT_NOTICE +:+ newline +:+ from_utf8_lossy rest) ∧
     ((∃ cut, last_bytes = cut +:+ newline +:+ rest ∧ "010"%char ∉ chars cut) ∨
      "010"%char ∉ chars last_bytes ∧ rest = "") ∧
     (utf8 (chars file) → from_utf8_lossy rest = rest)) ∧
  (utf8 (chars file) → from_utf8_lossy file = file).
Proof.
  intros Hfile. unfold read_tail, saturating_sub. rewrite Hfile.
  split; [intros Hlen; by replace (N.of_nat (String.length file) - bytes) with 0 by lia|].
  split; [|apply from_utf8_lossy_utf8]. intros Hlen.
  destruct (N.eqb_spec (N.of_nat (String.length file) - bytes) 0); [lia|].
  set (skip := N.to_nat (N.of_nat (String.length file) - bytes)).
  destruct (seek_suffix skip file) as (pre & E & Hpre).
  assert (N.of_nat (String.length (seek skip file)) = bytes) as Hbytes.
  { assert (String.length file = String.length pre + String.length (seek skip file))%nat as Hl
      by by rewrite <-length_string_app, <-E. subst skip. lia. }
  change (ascii_of_N 10) with "010"%char. set (last := seek skip file) in *.
  destruct (split_once "010" last) as [[cut rest]|] eqn:F.
  - apply split_once_spec in F as [F Hcut]. rewrite F, from_utf8_lossy_line.
    rewrite split_once_first by by apply from_utf8_lossy_no_line.
    exists pre, last, rest. split_and!; [done|done|done|left; by exists cut|].
    intros Hu. apply from_utf8_lossy_utf8. apply (utf8_after_line (chars (pre +:+ cut))).
    by rewrite E, F, !chars_app in Hu; rewrite chars_app, <-app_assoc.
  - apply split_once_none in F. exists pre, last, "".
    rewrite split_once_absent by by apply from_utf8_lossy_no_line.
    split_and!; [done|done|done|by right|done].
Qed.

(** ** Exit codes *)

Lemma digit_solid d : d < 10 → solid (pretty_N_char d) = true.
Proof. revert d. by apply digit_cases. Qed.

Lemma pretty_solid (n : N) :
  ∃ a z, head (chars (pretty n)) = Some a ∧ last (chars (pretty n)) = Some z ∧ solid a = true ∧ solid z = true.
Proof.
  assert (∀ c, c ∈ chars (pretty n) → solid c = true) as Hdigit.
  { intros c (d & Hd & ->)%pretty_N_chars. by apply digit_solid. }
  destruct (pretty_head n) as (d & s & Hd & E).
  destruct (last (chars (pretty n))) as [z|] eqn:El.
  - exists (pretty_N_char d), z. split_and!; [by rewrite E|done|by apply digit_solid|].
    by apply Hdigit, last_Some_elem_of.
  - apply last_None in El. by rewrite E in El.
Qed.

Lemma trim_line (n : N) : trim (pretty n +:+ newline) = pretty n.
Proof. destruct (pretty_solid n) as (a & z & ? & ? & ? & ?). by apply (trim_solid_line _ a z). Qed.

Lemma trim_number (n : N) : trim (pretty n) = pretty n.
Proof. destruct (pretty_solid n) as (a & z & ? & ? & ? & ?). by apply (trim_solid _ a z). Qed.

(** The wrapper's exit code survives the file: what [echo] wrote of a code
    a shell reports (0 to 255) is read back as that code, a death by signal
    (129 to 192) as -1. *)
Theorem exit_code_roundtrip exit_file w (code : N) :
  code ≤ 255 → os_read exit_file w = Ok (pretty code +:+ newline) →
  read_exit_code exit_file w =
    Some (if (129 <=? code) && (code <=? 192) then (-1)%Z else Z.of_N code).
Proof.
  intros Hc E. unfold read_exit_code. rewrite E. cbn. rewrite trim_line, parse_i32_pretty by lia. cbn.
  f_equal. destruct (N.leb_spec 129 code), (Z.leb_spec 129 (Z.of_N code)); cbn; try lia.
  destruct (N.leb_spec code 192), (Z.leb_spec (Z.of_N code) 192); lia.
Qed.

(** ** What a started job gets *)

Lemma pretty_no_comma (n : N) c : c ∈ chars (pretty n) → Ascii.eqb "," c = false.
Proof. intros (d & Hd & ->)%pretty_N_chars. revert d Hd. by apply digit_cases. Qed.

Lemma gpu_indices_parse (gpus : list GpuAllocation) :
  Forall (λ g, ga_index g ≤ u32_max) gpus → gpus ≠ [] →
  omap parse_u32 (split_on (Ascii.eqb ",") (join "," ((λ g, pretty (ga_index g)) <$> gpus)))
  = ga_index <$> gpus.
Proof.
  intros Hall Hne. rewrite split_join.
  - induction Hall as [|g gpus Hg Hall IH]; [done|]. cbn. rewrite parse_u32_pretty by done.
    f_equal. destruct gpus; [done|]. by apply IH.
  - by destruct gpus.
  - intros p c (g & -> & _)%list_elem_of_fmap. apply pretty_no_comma.
Qed.

(** Launching is idempotent and gives a job exactly its cards: a launch
    that succeeds either takes over the job found running or ended here,
    touching nothing, or starts one process whose CUDA_VISIBLE_DEVICES lists
    precisely the cards of its allocation, in order (none: an empty list), and
    ROSTER_GPUS their number. *)
Theorem launch_gives_cards run_id job placement w handle w' :
  Forall (λ g, ga_index g ≤ u32_max) (al_gpus placement) →
  shell_launch run_id job placement w = (Ok handle, w') →
  (shell_find run_id (ji_job_id job) w = Some handle ∧ w' = w) ∨
  (shell_find run_id (ji_job_id job) w = None ∧
   ∃ cmd w2 cards count, os_spawn cmd w2 = (Ok (jh_host_pid handle), w') ∧
     ("CUDA_VISIBLE_DEVICES", cards) ∈ cm_env cmd ∧ ("ROSTER_GPUS", count) ∈ cm_env cmd ∧
     js_command (ji_spec job) ∈ cm_args cmd ∧
     (al_gpus placement = [] → cards = "") ∧
     (al_gpus placement ≠ [] →
        omap parse_u32 (split_on (Ascii.eqb ",") cards) = ga_index <$> al_gpus placement) ∧
     parse_nat count = Some (N.of_nat (length (al_gpus placement)))).
Proof.
  intros Hall E. unfold shell_launch in E.
  destruct (shell_find run_id (ji_job_id job) w) as [found|]; [left; by simplify_eq|]. right.
  split; [done|]. destruct (check_program _ w); [|done].
  destruct (os_create_parent _ w) as [[] w1]; [|done].
  destruct (os_create_log _ w1) as [[] w2]; [|done].
  destruct (os_spawn _ w2) as [[pid|] w3] eqn:F; [|done]. injection E as <- <-.
  eexists _, w2, (gpu_indices placement), (pretty (N.of_nat (length (al_gpus placement)))).
  split; [exact F|]. unfold job_command.
  destruct os_scopes; cbn; (split_and!;
    [set_solver|set_solver|set_solver|intros E; unfold gpu_indices; by rewrite E|
     by intros; apply gpu_indices_parse|apply parse_nat_pretty]).
Qed.

(** After a successful launch in a scope, the job's handle names its unit and
    its exit file, the ones [shell_find] looks for. *)
Lemma launch_handle run_id job placement w handle w' :
  shell_launch run_id job placement w = (Ok handle, w') → os_scopes = true →
  JobHandle.scope handle = Some (unit_name run_id (ji_job_id job)) ∧
  JobHandle.exit_file handle = Some (with_extension (local_log run_id (ji_job_id job)) "exit").
Proof.
  intros E Hs. unfold shell_launch, shell_find in E. rewrite Hs in E.
  destruct (_ && _) in E.
  - destruct (check_program _ w); [|done].
    destruct (os_create_parent _ w) as [[] w1]; [|done].
    destruct (os_create_log _ w1) as [[] w2]; [|done].
    destruct (os_spawn _ w2) as [[pid|] w3]; [|done]. by injection E as <- <-.
  - by injection E as <- <-.
Qed.

End shell_properties.

(** ** Witnesses: a machine with systemd that starts everything *)

Definition demo_log : string := "epoch 1" +:+ newline +:+ "epoch 2" +:+ newline +:+ "done".

(** The world counts the processes started. *)
Definition demo_os : ShellOS N := {|
  os_home := "/home/user";
  os_scopes := true;
  os_current_exe := "/usr/bin/roster";
  os_cwd := "/home/user";
  os_path := "/usr/bin";
  os_split_paths := ["/usr/bin"];
  os_read := λ path _, if String.eqb path "job.log" then Ok demo_log
                       else if String.eqb path "job.exit" then Ok (pretty 137 +:+ newline)
                       else Err "No such file or directory";
  os_exists := λ _ _, false;
  os_metadata := λ path _, if String.eqb path "/usr/bin/python3" then Some (true, 493) else None;
  os_status := λ _ _ w, (Ok true, w);
  os_create_parent := λ _ w, (Ok tt, w);
  os_create_log := λ _ w, (Ok tt, w);
  os_spawn := λ _ w, (Ok (1000 + w), w + 1);
  os_waitpid := λ _ w, (WaitStillAlive, w);
  os_killpg := λ _ _ w, (Ok tt, w);
  os_sleep := λ w, w;
  os_control_group := λ _ _, None;
  os_stop_scope := λ _ w, w;
|}.

Lemma unit_names_apart_witness : "train" = "train" ∧ "a/b" = "a/b".
Proof.
  apply (unit_names_apart "train" "a/b" "train" "a/b"); vm_compute; reflexivity.
Defined.

Lemma tail_is_whole_lines_witness :
  @read_tail N demo_os "job.log" 8 0 = Ok (CUT_NOTICE +:+ newline +:+ "done").
Proof.
  destruct (proj1 (proj2 (@tail_is_whole_lines N demo_os "job.log" 8 0 demo_log eq_refl)))
    as (before & last & rest & _ & _ & Hr & _); [vm_compute; reflexivity|].
  etransitivity; [exact Hr|]. rewrite <-Hr. vm_compute. reflexivity.
Defined.

Lemma exit_code_roundtrip_witness : @read_exit_code N demo_os "job.exit" 0 = Some (-1)%Z.
Proof.
  apply (@exit_code_roundtrip N demo_os "job.exit" 0 137); [vm_compute; discriminate|reflexivity].
Defined.

Definition demo_shell_job : JobInstance :=
  JobInstance.new (mkJobSpec "train" "python3 train.py" [] ResourceSpec_default) 0.

Lemma launch_gives_cards_witness :
  ∃ cmd w2 cards, @os_spawn N demo_os cmd w2 = (Ok 1000, 1) ∧
    ("CUDA_VISIBLE_DEVICES", cards) ∈ cm_env cmd ∧
    omap parse_u32 (split_on (Ascii.eqb ",") cards) = [0; 3].
Proof.
  destruct (@launch_gives_cards N demo_os "run" demo_shell_job
    (mkAllocation 1 512 [mkGpuAllocation 0 8000; mkGpuAllocation 3 8000]) 0
    (JobHandle.process 1000 (Some (unit_name "run" "train"))
       (Some "/home/user/.local/share/roster/runs/run/train.exit")) 1)
    as [[H _]|(_ & cmd & w2 & cards & count & Hs & Hc & _ & _ & _ & Hp & _)].
  - repeat constructor; vm_compute; discriminate.
  - vm_compute. reflexivity.
  - vm_compute in H. discriminate H.
  - exists cmd, w2, cards. split; [exact Hs|]. split; [exact Hc|]. apply Hp. discriminate.
Defined.
