(* ===== verification/Worker.v ===== *)
(** * Running jobs for controllers: [src/worker.rs]

    A node remembers the processes it started by (run_id, job_id), finds those
    an earlier daemon started through their scope or exit file, and keeps an
    exit code once it learned it.  Each operation holds the lock on the table
    (but for the cancel of [kill], which changes nothing in it), so it is one
    step on the table and the world. *)

From S2P Require Import Prelude Spec Pool Handle Model Text Health Protocol Executor Shell.

(** The job this node started, and its exit code once known. *)
Record JobProcess := mkJobProcess {
  jp_handle : JobHandle;
  jp_exit_code : option Z;
}.

#[export] Instance JobProcess_eq_dec : EqDecision JobProcess.
Proof. solve_decision. Defined.

Notation Processes := (gmap (string * string) JobProcess).

Section worker.
Context {W : Type} `{ShellOS W}.

(** Check the process unless its exit is already known; None while it runs. *)
Definition exit_code (p : JobProcess) (w : W) : result (option Z) ExecutorError * JobProcess * W :=
  match jp_exit_code p with
  | Some _ => (Ok (jp_exit_code p), p, w)
  | None =>
      let '(r, w') := shell_poll (jp_handle p) w in
      match r with
      | Err error => (Err error, p, w')
      | Ok (PollExited code) => (Ok (Some code), mkJobProcess (jp_handle p) (Some code), w')
      | Ok PollRunning => (Ok None, p, w')
      end
  end.

(** The job's process: one this daemon started, or one found by its scope or
    exit file. *)
Definition known (ps : Processes) (run_id job_id : string) (w : W) : option (Processes * JobProcess) :=
  match ps !! (run_id, job_id) with
  | Some p => Some (ps, p)
  | None =>
      handle ← shell_find run_id job_id w;
      let p := mkJobProcess handle None in
      Some (<[(run_id, job_id) := p]> ps, p)
  end.

(** Start the job once; a repeated Launch returns the process already started. *)
Definition worker_launch (run_id : string) (job : JobSpec) (allocation : Allocation) (ps : Processes)
    (w : W) : Response * Processes * W :=
  let key := (run_id, js_id job) in
  match ps !! key with
  | Some existing => (Response_Launched (jh_host_pid (jp_handle existing)), ps, w)
  | None =>
      let '(r, w') := shell_launch run_id (JobInstance.new job 0) allocation w in
      match r with
      | Ok handle =>
          (Response_Launched (jh_host_pid handle), <[key := mkJobProcess handle None]> ps, w')
      | Err (Rejected reason) => (Response_Rejected reason, ps, w')
      | Err error => (Response_Error ("launch failed: " +:+ ExecutorError_to_string error), ps, w')
      end
  end.

Definition worker_poll (run_id job_id : string) (ps : Processes) (w : W) : Response * Processes * W :=
  match known ps run_id job_id w with
  | None => (Response_Error "unknown execution", ps, w)
  | Some (ps1, p) =>
      let '(r, p', w') := exit_code p w in
      (match r with
       | Ok code => Response_Polled code
       | Err error => Response_Error ("poll failed: " +:+ ExecutorError_to_string error)
       end, <[(run_id, job_id) := p']> ps1, w')
  end.

(** The exit shows up in the next Poll. *)
Definition worker_kill (run_id job_id : string) (ps : Processes) (w : W) : Response * Processes * W :=
  match known ps run_id job_id w with
  | None => (Response_Error "unknown execution", ps, w)
  | Some (ps1, p) =>
      match jp_exit_code p with
      | Some _ => (Response_Killed, ps1, w)
      | None =>
          let '(r, w') := shell_cancel (jp_handle p) w in
          (match r with
           | Ok _ => Response_Killed
           | Err error => Response_Error ("kill failed: " +:+ ExecutorError_to_string error)
           end, ps1, w')
      end
  end.

(** The end of a job's log here, whether or not this daemon started the job. *)
Definition worker_tail (run_id job_id : string) (bytes : N) (w : W) : Response * W :=
  let '(r, w') := shell_tail run_id job_id bytes w in
  (match r with
   | Ok text => Response_Log text
   | Err error => Response_Error (ExecutorError_to_string error)
   end, w').

(** Processes that have not exited; one that can't be checked counts as
    running. *)
Definition worker_running `{HashOrder} (ps : Processes) (w : W) : nat * Processes * W :=
  foldl (λ acc kp,
    let '(running, ps, w) := acc in
    let '(r, p', w') := exit_code kp.2 w in
    (match r with Ok (Some _) => running | _ => S running end, <[kp.1 := p']> ps, w'))
    (0%nat, ps, w) (hm_iter ps).

(** The worker operations of [dispatch]. *)
Definition worker_dispatch (request : Request) (ps : Processes) (w : W)
    : option (Response * Processes * W) :=
  match request with
  | Request_Launch run_id job allocation => Some (worker_launch run_id job allocation ps w)
  | Request_Poll run_id job_id => Some (worker_poll run_id job_id ps w)
  | Request_Kill run_id job_id => Some (worker_kill run_id job_id ps w)
  | Request_LogTail run_id job_id bytes =>
      let '(r, w') := worker_tail run_id job_id bytes w in Some (r, ps, w')
  | _ => None
  end.

(** ** What a node remembers *)

(** A node at work: requests, and a world that changes by itself. *)
Inductive worker_step : Processes * W → Processes * W → Prop :=
  | worker_request request response ps w ps' w' :
      worker_dispatch request ps w = Some (response, ps', w') → worker_step (ps, w) (ps', w')
  | worker_info ord n ps w ps' w' :
      @worker_running ord ps w = (n, ps', w') → worker_step (ps, w) (ps', w')
  | worker_world ps w w' : worker_step (ps, w) (ps, w').

(** From one table to a later one: processes stay, and so do their handles and
    known exit codes. *)
Definition remembers (ps ps' : Processes) : Prop :=
  ∀ k p, ps !! k = Some p → ∃ p', ps' !! k = Some p' ∧ jp_handle p' = jp_handle p ∧
    ∀ c, jp_exit_code p = Some c → jp_exit_code p' = Some c.

Lemma remembers_refl ps : remembers ps ps.
Proof. intros k p Hk. by exists p. Qed.

Lemma remembers_trans ps1 ps2 ps3 : remembers ps1 ps2 → remembers ps2 ps3 → remembers ps1 ps3.
Proof.
  intros H1 H2 k p (p2 & Hk2 & Hh2 & Hc2)%H1. destruct (H2 _ _ Hk2) as (p3 & Hk3 & Hh3 & Hc3).
  exists p3. split_and!; [done|congruence|]. intros c Hc. by apply Hc3, Hc2.
Qed.

Lemma remembers_new ps k p : ps !! k = None → remembers ps (<[k := p]> ps).
Proof.
  intros Hn k' p' Hk'. exists p'. split_and!; [|done|done]. by rewrite lookup_insert_ne by congruence.
Qed.

Lemma remembers_update ps k p p' :
  ps !! k = Some p → jp_handle p' = jp_handle p →
  (∀ c, jp_exit_code p = Some c → jp_exit_code p' = Some c) → remembers ps (<[k := p']> ps).
Proof.
  intros Hk Hh Hc k2 p2 Hk2. destruct (decide (k2 = k)) as [->|].
  - simplify_eq. exists p'. by rewrite lookup_insert_eq.
  - exists p2. split_and!; [|done|done]. by rewrite lookup_insert_ne by congruence.
Qed.

Lemma exit_code_keeps p w r p' w' :
  exit_code p w = (r, p', w') →
  jp_handle p' = jp_handle p ∧ ∀ c, jp_exit_code p = Some c → jp_exit_code p' = Some c.
Proof.
  unfold exit_code. destruct (jp_exit_code p) as [c|] eqn:E.
  - intros [= <- <- <-]. split; [done|]. congruence.
  - destruct (shell_poll _ _) as [[[|]|] ?]; intros [= <- <- <-]; (split; [done|congruence]).
Qed.

Lemma known_remembers ps run_id job_id w ps1 p :
  known ps run_id job_id w = Some (ps1, p) → remembers ps ps1 ∧ ps1 !! (run_id, job_id) = Some p.
Proof.
  unfold known. destruct (ps !! _) as [q|] eqn:E.
  - intros [= <- <-]. split; [apply remembers_refl|done].
  - destruct (shell_find _ _ _); [|done]. cbn. intros [= <- <-].
    split; [by apply remembers_new|by rewrite lookup_insert_eq].
Qed.

Lemma running_remembers `{HashOrder} ps w n ps' w' :
  worker_running ps w = (n, ps', w') → remembers ps ps'.
Proof.
  unfold worker_running. intros E.
  enough (∀ (l : list ((string * string) * JobProcess)) acc,
    (∀ k p, (k, p) ∈ l → ps !! k = Some p) → remembers ps acc.1.2 →
    remembers ps (foldl (λ acc kp,
      let '(running, ps, w) := acc in
      let '(r, p', w') := exit_code kp.2 w in
      (match r with Ok (Some _) => running | _ => S running end, <[kp.1 := p']> ps, w')) acc l).1.2)
    as Hall.
  { specialize (Hall (hm_iter ps) (0%nat, ps, w)). rewrite E in Hall. apply Hall.
    - by intros k p ?%elem_of_hm_iter.
    - apply remembers_refl. }
  clear E. induction l as [|[k p] l IH]; intros [[m ps1] w1] Hl Hacc; [done|]. cbn.
  destruct (exit_code p w1) as [[r p'] w2] eqn:F. apply IH; [intros; apply Hl; by right|]. cbn in *.
  apply exit_code_keeps in F as [Hh Hc].
  assert (ps !! k = Some p) as Hk by (apply Hl; by left).
  intros k2 p2 Hk2. destruct (decide (k2 = k)) as [->|].
  - simplify_eq. exists p'. by rewrite lookup_insert_eq.
  - rewrite lookup_insert_ne by congruence. by apply Hacc.
Qed.

Lemma dispatch_remembers request response ps w ps' w' :
  worker_dispatch request ps w = Some (response, ps', w') → remembers ps ps'.
Proof.
  destruct request; try done; cbn.
  - unfold worker_launch. destruct (ps !! _) as [p|] eqn:E.
    { intros [= <- <- <-]. apply remembers_refl. }
    destruct (shell_launch _ _ _ _) as [[handle|error] w1].
    + intros [= <- <- <-]. by apply remembers_new.
    + destruct error; intros [= <- <- <-]; apply remembers_refl.
  - unfold worker_poll. destruct (known _ _ _ _) as [[ps1 p]|] eqn:E.
    2: { intros [= <- <- <-]. apply remembers_refl. }
    destruct (exit_code p w) as [[r p'] w1] eqn:F. intros [= <- <- <-].
    apply known_remembers in E as [Hps Hk]. apply exit_code_keeps in F as [Hh Hc].
    eapply remembers_trans; [done|]. by eapply remembers_update.
  - unfold worker_kill. destruct (known _ _ _ _) as [[ps1 p]|] eqn:E.
    2: { intros [= <- <- <-]. apply remembers_refl. }
    apply known_remembers in E as [Hps Hk]. destruct (jp_exit_code p).
    + by intros [= <- <- <-].
    + destruct (shell_cancel _ _) as [r w1]. by intros [= <- <- <-].
  - intros [= <- <- <-]. apply remembers_refl.
Qed.

Lemma worker_rtc_remembers s s' : rtc worker_step s s' → remembers s.1 s'.1.
Proof.
  induction 1 as [s|s1 s2 s3 Hs _ IH]; [apply remembers_refl|].
  eapply remembers_trans; [|done]. destruct Hs; cbn.
  - by eapply dispatch_remembers.
  - by eapply running_remembers.
  - apply remembers_refl.
Qed.

(** ** Properties *)

(** C24: A node starts a job once and remembers how it ended: after any further
    requests, a process it knows is still known under the same handle; another
    Launch of the job answers with that process and touches neither table nor
    machine; and once its exit code was learned every Poll answers it, again
    touching nothing. *)
Theorem worker_starts_once ps w ps' w' run_id job_id p :
  rtc worker_step (ps, w) (ps', w') → ps !! (run_id, job_id) = Some p →
  (∀ job allocation, js_id job = job_id →
     worker_launch run_id job allocation ps' w'
     = (Response_Launched (jh_host_pid (jp_handle p)), ps', w')) ∧
  (∀ code, jp_exit_code p = Some code →
     worker_poll run_id job_id ps' w' = (Response_Polled (Some code), ps', w')).
Proof.
  intros Hr Hp. destruct (worker_rtc_remembers _ _ Hr _ _ Hp) as (p' & Hp' & Hh & Hc). cbn in Hp'.
  split.
  - intros job allocation <-. unfold worker_launch. by rewrite Hp', Hh.
  - intros code Hcode. unfold worker_poll, known, exit_code. rewrite Hp', (Hc _ Hcode). cbn.
    by rewrite insert_id.
Qed.

End worker.

(** ** Witness *)

Definition demo_worker_job : JobSpec := mkJobSpec "train" "python3 train.py" [] ResourceSpec_default.
Definition demo_process : JobProcess := mkJobProcess (JobHandle.process 42 None None) (Some 3%Z).

Lemma worker_starts_once_witness :
  @worker_launch N demo_os "run" demo_worker_job (mkAllocation 1 512 [])
    {[("run", "train") := demo_process]} 7
  = (Response_Launched 42, {[("run", "train") := demo_process]}, 7).
Proof.
  apply (@worker_starts_once N demo_os {[("run", "train") := demo_process]} 0
    {[("run", "train") := demo_process]} 7 "run" "train" demo_process).
  - apply rtc_once, worker_world.
  - reflexivity.
  - reflexivity.
Defined.
