(* ===== verification/Remote.v ===== *)
(** * Running jobs on another node: [src/executor/remote.rs]

    The executor a controller uses for a node behind an ssh tunnel, first
    against any tunnel (class [Tunnel]), then against a node that runs
    [Worker.v] behind a link that may lose a request or a reply. *)

From S2P Require Import Prelude Spec Pool Handle Model Text Health Protocol Executor Shell Worker.

(** The local end of a tunnel: the shared [online] flag, connecting to the
    socket, and [client::exchange] under a time limit in seconds (None: the
    limit passed). *)
Class Tunnel (W : Type) : Type := {
  tn_online : W → bool;
  tn_set_offline : W → W;
  tn_connect : W → result unit string * W;
  tn_exchange : Request → N → W → option (result Response string) * W;
  Response_debug : Response → string;  (* derived [Debug] *)
}.

Section remote.
Context {W : Type} `{Tunnel W}.

Definition lost {A} (reason : string) (w : W) : result A ExecutorError * W :=
  (Err (Unreachable reason), tn_set_offline w).

(** Connect to the tunnel; failing here means nothing was sent. *)
Definition connect (w : W) : result unit ExecutorError * W :=
  if tn_online w then
    let '(r, w') := tn_connect w in
    match r with
    | Ok _ => (Ok tt, w')
    | Err error => lost error w'
    end
  else (Err (Unreachable "node offline"), w).

(** Send one request on a connected stream; an error reply becomes
    [Remote]. *)
Definition exchange (request : Request) (limit : N) (w : W) : result Response ExecutorError * W :=
  let '(r, w') := tn_exchange request limit w in
  match r with
  | Some (Ok (Response_Error message)) => (Err (Remote message), w')
  | Some (Ok response) => (Ok response, w')
  | Some (Err error) => lost error w'
  | None => lost "no reply" w'
  end.

(** The node's name for an execution, taken from a handle this executor made. *)
Definition key (handle : JobHandle) : result (string * string) ExecutorError :=
  match jh_backend handle with
  | Backend_Remote run_id job_id => Ok (run_id, job_id)
  | _ => Err (Remote "not a remote handle")
  end.

Definition unexpected {A} (other : Response) : result A ExecutorError :=
  Err (Remote ("unexpected reply: " +:+ Response_debug other)).

(** If the request went out but no reply came back, the job may be running, so
    a handle is returned anyway. *)
Definition remote_launch (run_id : string) (job : JobInstance) (placement : Allocation) (w : W)
    : result JobHandle ExecutorError * W :=
  let '(c, w1) := connect w in
  match c with
  | Err error => (Err error, w1)
  | Ok _ =>
      let '(r, w2) := exchange (Request_Launch run_id (ji_spec job) placement) 10 w1 in
      let handle host_pid := JobHandle.remote host_pid run_id (ji_job_id job) in
      (match r with
       | Ok (Response_Launched host_pid) => Ok (handle host_pid)
       | Ok (Response_Rejected reason) => Err (Rejected reason)
       | Ok other => unexpected other
       | Err (Unreachable _) => Ok (handle 0)
       | Err error => Err error
       end, w2)
  end.

Definition remote_poll (handle : JobHandle) (w : W) : result PollResult ExecutorError * W :=
  match key handle with
  | Err error => (Err error, w)
  | Ok (run_id, job_id) =>
      let '(c, w1) := connect w in
      match c with
      | Err error => (Err error, w1)
      | Ok _ =>
          let '(r, w2) := exchange (Request_Poll run_id job_id) 5 w1 in
          (match r with
           | Ok (Response_Polled None) => Ok PollRunning
           | Ok (Response_Polled (Some exit_code)) => Ok (PollExited exit_code)
           | Ok other => unexpected other
           | Err error => Err error
           end, w2)
      end
  end.

(** The node waits 5 s between SIGTERM and SIGKILL before it replies. *)
Definition remote_cancel (handle : JobHandle) (w : W) : result unit ExecutorError * W :=
  match key handle with
  | Err error => (Err error, w)
  | Ok (run_id, job_id) =>
      let '(c, w1) := connect w in
      match c with
      | Err error => (Err error, w1)
      | Ok _ =>
          let '(r, w2) := exchange (Request_Kill run_id job_id) 15 w1 in
          (match r with
           | Ok Response_Killed => Ok tt
           | Ok other => unexpected other
           | Err error => Err error
           end, w2)
      end
  end.

Definition remote_tail (run_id job_id : string) (bytes : N) (w : W) : result string ExecutorError * W :=
  let '(c, w1) := connect w in
  match c with
  | Err error => (Err error, w1)
  | Ok _ =>
      let '(r, w2) := exchange (Request_LogTail run_id job_id bytes) 10 w1 in
      (match r with
       | Ok (Response_Log text) => Ok text
       | Ok other => unexpected other
       | Err error => Err error
       end, w2)
  end.

Definition RemoteExecutor : Executor W :=
  mkExecutor W remote_launch remote_poll remote_cancel remote_tail.

(** ** Any tunnel *)

(** What a failed connect leaves behind. *)
Definition not_sent (w w' : W) : Prop :=
  w' = w ∨ ∃ error w1, tn_connect w = (Err error, w1) ∧ w' = tn_set_offline w1.

Lemma connect_cases w :
  (∃ w1, connect w = (Ok tt, w1)) ∨ (∃ reason w1, connect w = (Err (Unreachable reason), w1) ∧ not_sent w w1).
Proof.
  unfold connect. destruct (tn_online w); [|right; eexists _, w; split; [done|by left]].
  destruct (tn_connect w) as [[[]|error] w1] eqn:E; [left; by exists w1|right].
  eexists _, _. split; [done|]. right. by exists error, w1.
Qed.

(** A launch reported unreachable never left this machine: the request was
    not sent, so the job can be placed elsewhere; once the request may have
    gone out, a launch without a reply yields a handle, and the node is taken
    offline. *)
Theorem unreachable_launch_not_sent run_id job placement w r w' :
  remote_launch run_id job placement w = (r, w') →
  (∀ reason, r = Err (Unreachable reason) → not_sent w w') ∧
  (∀ w1 w2, connect w = (Ok tt, w1) →
     tn_exchange (Request_Launch run_id (ji_spec job) placement) 10 w1 = (None, w2) →
     r = Ok (JobHandle.remote 0 run_id (ji_job_id job)) ∧ w' = tn_set_offline w2).
Proof.
  unfold remote_launch. destruct (connect_cases w) as [(w1 & E)|(why & w1 & E & Hns)]; rewrite E.
  - destruct (exchange _ 10 w1) as [x w2] eqn:F. intros [= <- <-]. split.
    + intros reason Hr. exfalso. unfold unexpected in Hr. destruct x as [resp|[]]; [destruct resp|..]; done.
    + intros w1' w2' [= <-] G. unfold exchange in F. rewrite G in F. unfold lost in F. by simplify_eq.
  - intros [= <- <-]. split; [by intros ? _|]. intros w1' w2' E2. congruence.
Qed.

End remote.

(** ** A node behind a link that loses messages *)

(** What becomes of one exchange: the reply arrives, the reply is lost after
    the node acted, or the request is lost before it did. *)
Inductive fate := Answered | ReplyLost | RequestLost.

Section far.
Context {W : Type} `{ShellOS W}.

(** The node, its world, and what the link will do. *)
Record Far := mkFar {
  far_processes : Processes;
  far_world : W;
  far_online : bool;
  far_connects : list bool;
  far_fates : list fate;
}.

(** The node answers a request ([dispatch]); the operations here are the
    worker's. *)
Definition far_answer (request : Request) (s : Far) : option (Response * Far) :=
  '(response, ps, w) ← worker_dispatch request (far_processes s) (far_world s);
  Some (response, mkFar ps w (far_online s) (far_connects s) (far_fates s)).

Definition far_exchange (request : Request) (s : Far) : option (result Response string) * Far :=
  let next fates := mkFar (far_processes s) (far_world s) (far_online s) (far_connects s) fates in
  match far_fates s with
  | [] => (None, s)
  | RequestLost :: fates => (Some (Err "connection reset"), next fates)
  | ReplyLost :: fates =>
      match far_answer request (next fates) with
      | Some (_, s') => (None, s')
      | None => (None, next fates)
      end
  | Answered :: fates =>
      match far_answer request (next fates) with
      | Some (response, s') => (Some (Ok response), s')
      | None => (None, next fates)
      end
  end.

Definition far_tunnel (debug : Response → string) : Tunnel Far := {|
  tn_online := far_online;
  tn_set_offline s :=
    mkFar (far_processes s) (far_world s) false (far_connects s) (far_fates s);
  tn_connect s :=
    match far_connects s with
    | true :: l => (Ok tt, mkFar (far_processes s) (far_world s) (far_online s) l (far_fates s))
    | _ :: l => (Err "connection refused",
                 mkFar (far_processes s) (far_world s) (far_online s) l (far_fates s))
    | [] => (Err "connection refused", s)
    end;
  tn_exchange request _ s := far_exchange request s;
  Response_debug := debug;
|}.

(** What a client of the node sees of an exchange: nothing, or the node's
    answer. *)
Lemma exchange_far debug request limit s r s' :
  @exchange Far (far_tunnel debug) request limit s = (r, s') →
  (∃ why, r = Err (Unreachable why) ∧
     (far_processes s' = far_processes s ∧ far_world s' = far_world s ∨
      ∃ response, worker_dispatch request (far_processes s) (far_world s)
        = Some (response, far_processes s', far_world s'))) ∨
  (∃ response, worker_dispatch request (far_processes s) (far_world s)
     = Some (response, far_processes s', far_world s') ∧
   r = match response with Response_Error message => Err (Remote message) | _ => Ok response end).
Proof.
  unfold exchange. cbn. unfold far_exchange, far_answer. cbn.
  destruct (far_fates s) as [|[] fates]; cbn.
  - intros [= <- <-]. left. eexists. split; [done|]. by left.
  - destruct (worker_dispatch request (far_processes s) (far_world s)) as [[[response ps] w]|] eqn:E; cbn.
    + destruct response; intros [= <- <-]; right; eexists; (split; [done|done]).
    + intros [= <- <-]. left. eexists. split; [done|]. by left.
  - destruct (worker_dispatch request (far_processes s) (far_world s)) as [[[response ps] w]|] eqn:E; cbn;
      intros [= <- <-]; left; eexists; (split; [done|]); [right; by exists response|by left].
  - intros [= <- <-]. left. eexists. split; [done|]. by left.
Qed.

Lemma connect_far debug s r s' :
  @connect Far (far_tunnel debug) s = (r, s') →
  far_processes s' = far_processes s ∧ far_world s' = far_world s ∧
  (r = Ok tt ∨ ∃ why, r = Err (Unreachable why)).
Proof.
  unfold connect. cbn. destruct (far_online s); cbn.
  - destruct (far_connects s) as [|[] l]; cbn; intros [= <- <-]; cbn; eauto.
  - intros [= <- <-]. eauto.
Qed.

End far.

(** ** Witnesses *)

Definition demo_far (connects : list bool) (fates : list fate) : Far (W := N) :=
  mkFar {[("run", "train") := demo_process]} 7 true connects fates.

Definition demo_tunnel : Tunnel (Far (W := N)) := @far_tunnel N demo_os (λ _, "reply").

Definition demo_remote_job : JobInstance := JobInstance.new demo_worker_job 0.

Lemma unreachable_launch_not_sent_witness :
  @not_sent Far demo_tunnel (demo_far [false] []) (mkFar {[("run", "train") := demo_process]} 7 false [] []).
Proof.
  apply (proj1 (@unreachable_launch_not_sent Far demo_tunnel "run" demo_remote_job
    (mkAllocation 1 512 []) (demo_far [false] []) (Err (Unreachable "connection refused"))
    (mkFar {[("run", "train") := demo_process]} 7 false [] []) eq_refl) "connection refused").
  reflexivity.
Defined.
