(* ===== verification/Node.v ===== *)
(** * The node list and the tunnels: [src/node.rs]

    The controller's side of every other machine: [nodes.yaml], read and
    edited as a whole file; each node's state as its tunnel task sees it; and
    the task itself, one event of its [select!] at a time. *)

From S2P Require Import Prelude Spec Pool Handle Model Text Quarantine Health Protocol Executor.
From S2P Require Import Shell Worker Remote.

(** [env!("CARGO_PKG_VERSION")], from Cargo.toml. *)
Definition VERSION : string := "0.1.0".

(** An [anyhow::Error]: its messages, the outermost context first. *)
Notation AnyError := (list string).

Definition bail {A} (message : string) : result A AnyError := Err [message].

Definition with_context {A} (context : string) (r : result A AnyError) : result A AnyError :=
  match r with Ok a => Ok a | Err e => Err (context :: e) end.

(** ** Where a node stands *)

Inductive NodeState :=
  | Online
  | TunnelDown (reason : string)
  | DaemonDown
  | NoReply
  | VersionMismatch (reason : string).

Definition is_online (s : NodeState) : bool := match s with Online => true | _ => false end.

Definition NodeState_to_string (s : NodeState) : string :=
  match s with
  | Online => "online"
  | TunnelDown reason => "ssh tunnel down: " +:+ reason
  | DaemonDown => "node reachable, roster daemon not running"
  | NoReply => "no reply in 3 s (network stalled or daemon hung)"
  | VersionMismatch reason => "version mismatch: " +:+ reason
  end.

(** [std::mem::discriminant] *)
Definition discriminant (s : NodeState) : nat :=
  match s with
  | Online => 0 | TunnelDown _ => 1 | DaemonDown => 2 | NoReply => 3 | VersionMismatch _ => 4
  end%nat.

Record Health := mkHealth {
  h_state : NodeState;
  h_since : DateTime;
  h_info : option NodeInfo;
}.

(** Take the next state; [since] moves only when the kind of state changes. *)
Definition enter (state : NodeState) (info : option NodeInfo) (now : DateTime) (h : Health)
    : Health * bool :=
  let info' := match info with Some _ => info | None => h_info h end in
  let changed := negb (Nat.eqb (discriminant (h_state h)) (discriminant state)) in
  (mkHealth state (if changed then now else h_since h) info', changed).

(** The protocol has no version number yet, so both ends must run the same
    build version. *)
Definition check_version (info : NodeInfo) : result unit AnyError :=
  if String.eqb (ni_version info) VERSION then Ok tt
  else bail ("node runs roster " +:+ ni_version info +:+ ", this machine runs " +:+ VERSION).

(** ** nodes.yaml *)

Record NodeConfig := mkNodeConfig {
  nc_name : string;
  nc_ssh : option string;     (* None: this machine *)
  nc_socket : option string;  (* the node daemon's socket *)
}.

#[export] Instance NodeConfig_eq_dec : EqDecision NodeConfig.
Proof. solve_decision. Defined.
#[export] Instance NodeConfig_countable : Countable NodeConfig.
Proof.
  by refine (inj_countable' (λ c, (nc_name c, nc_ssh c, nc_socket c))
    (λ '(n, s, k), mkNodeConfig n s k) _); intros [].
Defined.

Definition local : NodeConfig := mkNodeConfig "local" None None.

(** What [read_to_string] answers. *)
Inductive ReadResult := ReadOk (text : string) | NotFound | ReadError (error : string).

Definition read_to_string (path : PathBuf) (fs : FileSystem) : ReadResult :=
  match fs !! path with Some text => ReadOk text | None => NotFound end.

(** [serde_yaml] for the list of nodes, with its error message. *)
Class Yaml : Type := {
  to_yaml : list NodeConfig → result string string;
  from_yaml : string → result (list NodeConfig) string;
  io_message : SaveOutcome → string;  (* the error of a save that stopped there *)
}.

Definition yaml_roundtrip `{Yaml} : Prop :=
  ∀ configs, ∃ text, to_yaml configs = Ok text ∧ from_yaml text = Ok configs.

Section nodes_file.
Context `{Yaml}.

(** The first node whose name an earlier one has. *)
Fixpoint duplicate (names : gset string) (configs : list NodeConfig) : option NodeConfig :=
  match configs with
  | [] => None
  | config :: configs' =>
      if bool_decide (nc_name config ∈ names) then Some config
      else duplicate ({[nc_name config]} ∪ names) configs'
  end.

(** Read nodes.yaml; without the file, this machine is the only node. *)
Definition load (path : PathBuf) (read : ReadResult) : result (list NodeConfig) AnyError :=
  match read with
  | NotFound => Ok [local]
  | ReadError error => with_context ("failed to read " +:+ path) (bail error)
  | ReadOk yaml =>
      match from_yaml yaml with
      | Err error => with_context ("invalid nodes file " +:+ path) (bail error)
      | Ok [] => bail (path +:+ " lists no nodes")
      | Ok configs =>
          match duplicate ∅ configs with
          | Some config => bail (path +:+ " lists node '" +:+ nc_name config +:+ "' twice")
          | None => Ok configs
          end
      end
  end.

(** Write nodes.yaml through a temp file so a crash never leaves half a file. *)
Definition save (outcome : SaveOutcome) (path : PathBuf) (configs : list NodeConfig)
    (fs : FileSystem) : result unit AnyError * FileSystem :=
  let temp := with_extension path "yaml.tmp" in
  match outcome with
  | DirFailed => (bail (io_message outcome), fs)
  | _ =>
      match to_yaml configs with
      | Err error => (bail error, fs)
      | Ok text =>
          match outcome with
          | WriteFailed partial => (bail (io_message outcome), <[temp := partial]> fs)
          | RenameFailed => (bail (io_message outcome), <[temp := text]> fs)
          | _ => (Ok tt, <[path := text]> (delete temp fs))
          end
      end
  end.

Definition name_char (c : ascii) : bool :=
  is_ascii_alphanumeric c || bool_decide (c ∈ chars "-_.").

(** [roster node add]: the file is read before the node is asked over ssh and
    written after; [info_over_ssh] is what the node answers and what the files
    are by then, since nothing keeps others from editing them meanwhile. *)
Definition add (outcome : SaveOutcome) (path : PathBuf) (target : string) (name : option string)
    (info_over_ssh : string → FileSystem → result NodeInfo AnyError * FileSystem) (fs : FileSystem)
    : result NodeInfo AnyError * FileSystem :=
  match load path (read_to_string path fs) with
  | Err error => (Err error, fs)
  | Ok configs =>
      let name := default target name in
      if negb (forallb name_char (chars name)) then
        (bail ("node name '" +:+ name +:+ "' may only use letters, digits, '-', '_' and '.'"), fs)
      else if existsb (λ config, String.eqb (nc_name config) name
                || bool_decide (nc_ssh config = Some target)) configs then
        (bail ("node '" +:+ name +:+ "' (" +:+ target +:+ ") is already in " +:+ path), fs)
      else match info_over_ssh target fs with
           | (Err error, fs1) => (Err error, fs1)
           | (Ok info, fs1) =>
               let '(saved, fs') := save outcome path
                 (configs ++ [mkNodeConfig name (Some target) (Some (ni_socket info))]) fs1 in
               (match saved with Ok _ => Ok info | Err error => Err error end, fs')
           end
  end.

(** [roster node rm]; [meanwhile] is what others do to the files between its
    reading and its writing. *)
Definition remove (outcome : SaveOutcome) (path : PathBuf) (name : string)
    (meanwhile : FileSystem → FileSystem) (fs : FileSystem) : result unit AnyError * FileSystem :=
  match load path (read_to_string path fs) with
  | Err error => (Err error, fs)
  | Ok configs =>
      let kept := List.filter (λ config, negb (String.eqb (nc_name config) name)) configs in
      if Nat.eqb (length kept) (length configs) then
        (bail ("no node '" +:+ name +:+ "' in " +:+ path), fs)
      else match kept with
           | [] => (bail ("'" +:+ name +:+ "' is the last node"), fs)
           | _ => save outcome path kept (meanwhile fs)
           end
  end.

End nodes_file.

(** What [ssh TARGET 'roster enable > /dev/null && roster info --json']
    answers: failed to run, or its exit status, stdout and stderr. *)
Record SshOutput := mkSshOutput {
  so_success : bool;
  so_status : string;
  so_stdout : string;
  so_stderr : string;
}.

Definition REMOTE_COMMAND : string := "roster enable > /dev/null && roster info --json".

Definition info_over_ssh `{Serde NodeInfo}
    (ssh : string → string → FileSystem → result SshOutput string * FileSystem)
    (parse_error : string → string) (target : string) (fs : FileSystem)
    : result NodeInfo AnyError * FileSystem :=
  let '(ran, fs') := ssh target REMOTE_COMMAND fs in
  (match ran with
   | Err error => with_context "failed to run ssh" (bail error)
   | Ok output =>
       if negb (so_success output) then
         bail ("`ssh " +:+ target +:+ " '" +:+ REMOTE_COMMAND +:+ "'` failed (" +:+ so_status output
               +:+ "): " +:+ trim (from_utf8_lossy (so_stderr output)))
       else match from_json (so_stdout output) with
            | None => with_context "unreadable `roster info --json` output"
                        (bail (parse_error (so_stdout output)))
            | Some info =>
                match check_version info with Ok _ => Ok info | Err error => Err error end
            end
   end, fs').

(** ** The tunnel *)

(** [ssh -N -L local:remote] to one node. *)
Record SshTunnel := mkSshTunnel {
  st_name : string;
  st_target : string;
  st_remote : string;  (* the node daemon's socket *)
  st_local : PathBuf;  (* this end *)
}.

(** Processes, sockets and clocks; times in milliseconds. *)
Class TunnelOS (W : Type) : Type := {
  tos_create_parent : PathBuf → W → result unit string * W;
  tos_spawn : string → list string → W → result N string * W;
  tos_connect : PathBuf → W → result unit string * W;
  tos_exchange : N → Request → W → option (result Response string) * W;  (* None: timed out *)
  tos_try_wait : N → W → result (option string) string * W;
  tos_instant : W → N;
  tos_utc : W → DateTime;
  tos_sleep : N → W → W;
}.

(** How the child ended, or why waiting failed: [child.wait()]. *)
Definition ssh_exited (status : result string string) : NodeState :=
  match status with
  | Ok status => TunnelDown ("ssh exited (" +:+ status +:+ ")")
  | Err error => TunnelDown ("ssh wait failed: " +:+ error)
  end.

Definition ssh_args (t : SshTunnel) : list string :=
  ["-N"; "-o"; "LogLevel=ERROR"; "-o"; "BatchMode=yes"; "-o"; "ConnectTimeout=10";
   "-o"; "ExitOnForwardFailure=yes"; "-o"; "StreamLocalBindUnlink=yes";
   "-o"; "ServerAliveInterval=10"; "-o"; "ServerAliveCountMax=3";
   "-L"; st_local t +:+ ":" +:+ st_remote t; st_target t].

Section tunnel.
Context {W : Type} `{TunnelOS W}.
Variable t : SshTunnel.

Definition spawn (w : W) : result N AnyError * W :=
  let '(made, w1) := tos_create_parent (st_local t) w in
  match made with
  | Err error => (bail error, w1)
  | Ok _ =>
      let '(child, w2) := tos_spawn "ssh" (ssh_args t) w1 in
      (match child with Ok pid => Ok pid | Err error => bail error end, w2)
  end.

(** The health check; the daemon's answer comes back even when its version
    does not match. *)
Definition check (w : W) : (NodeState * option NodeInfo) * W :=
  let '(stream, w1) := tos_connect (st_local t) w in
  match stream with
  | Err error => ((TunnelDown error, None), w1)
  | Ok _ =>
      let '(reply, w2) := tos_exchange 3000 Request_Info w1 in
      (match reply with
       | Some (Ok (Response_Info info)) =>
           match check_version info with
           | Ok _ => (Online, Some info)
           | Err error => (VersionMismatch (default "" (head error)), Some info)
           end
       | Some (Ok _) | Some (Err _) => (DaemonDown, None)
       | None => (NoReply, None)
       end, w2)
  end.

(** The loop of [open], each turn costing one unit of fuel. *)
Fixpoint open_loop (fuel : nat) (child deadline : N) (w : W) : option (result (N * NodeInfo) AnyError * W) :=
  match fuel with
  | O => None
  | S fuel' =>
      let '((state, info), w1) := check w in
      match state, info with
      | Online, Some info => Some (Ok (child, info), w1)
      | VersionMismatch _, _ => Some (bail (NodeState_to_string state), w1)
      | _, _ =>
          if deadline <=? tos_instant w1 then
            Some (bail ("no answer through the ssh tunnel to " +:+ st_target t +:+ ": "
                        +:+ NodeState_to_string state), w1)
          else
            let '(exited, w2) := tos_try_wait child w1 in
            match exited with
            | Err error => Some (bail error, w2)
            | Ok (Some status) =>
                Some (bail ("ssh to " +:+ st_target t +:+ " exited: " +:+ status), w2)
            | Ok None => open_loop fuel' child deadline (tos_sleep 200 w2)
            end
      end
  end.

(** 10 s of turns that sleep 200 ms each, and the last. *)
Definition open_fuel : nat := 51.

(** Start ssh and wait up to 10 s for the node daemon to answer through it. *)
Definition open (w : W) : option (result (N * NodeInfo) AnyError * W) :=
  let '(child, w1) := spawn w in
  match child with
  | Err error => Some (Err error, w1)
  | Ok child => open_loop open_fuel child (tos_instant w1 + 10000) w1
  end.

(** ** The task that keeps the tunnel up *)

(** What it owns or shares: the flag the scheduler reads, the health record,
    the ssh process and the next delay before a restart. *)
Record Supervisor := mkSupervisor {
  su_online : bool;
  su_health : Health;
  su_child : N;
  su_backoff : N;
}.

Definition set_state (state : NodeState) (info : option NodeInfo) (now : DateTime) (s : Supervisor)
    : Supervisor :=
  mkSupervisor (is_online state) (enter state info now (su_health s)).1 (su_child s) (su_backoff s).

(** One turn of the loop: ssh exited, or 2 s passed; between turns a request
    lost by the node's executor clears the flag ([remote.rs], [lost]). *)
Inductive Event := Exited (status : result string string) | Tick | RequestLost.

Definition supervise_event (e : Event) (s : Supervisor) (w : W) : Supervisor * W :=
  match e with
  | Exited status =>
      let s1 := set_state (ssh_exited status) None (tos_utc w) s in
      let w1 := tos_sleep (su_backoff s1) w in
      let backoff := N.min (su_backoff s1 * 2) 30000 in
      let '(restarted, w2) := spawn w1 in
      let child := match restarted with Ok pid => pid | Err _ => su_child s1 end in
      (mkSupervisor (su_online s1) (su_health s1) child backoff, w2)
  | Tick =>
      let '((state, info), w1) := check w in
      let backoff := if is_online state then 1000 else su_backoff s in
      (set_state state info (tos_utc w1)
         (mkSupervisor (su_online s) (su_health s) (su_child s) backoff), w1)
  | RequestLost => (mkSupervisor false (su_health s) (su_child s) (su_backoff s), w)
  end.

Definition supervise (events : list Event) (s : Supervisor) (w : W) : Supervisor * W :=
  foldl (λ sw e, supervise_event e sw.1 sw.2) (s, w) events.

(** What the task starts with, after [open] answered. *)
Definition supervisor (child : N) (info : NodeInfo) (since : DateTime) : Supervisor :=
  mkSupervisor true (mkHealth Online since (Some info)) child 1000.

End tunnel.

(** ** Opening every node *)

(** A node as [connect] makes it, with its pool beside it. *)
Record Opened (W : Type) := mkOpened {
  op_name : string;
  op_ssh : option string;
  op_executor : Executor W;
  op_socket : option PathBuf;
  op_task : option (SshTunnel * Supervisor);  (* the task spawned for it *)
  op_health : Health;
}.
Arguments mkOpened {W}.
Arguments op_name {W}.
Arguments op_ssh {W}.
Arguments op_executor {W}.
Arguments op_socket {W}.
Arguments op_task {W}.
Arguments op_health {W}.

(** [node_socket_path]: this end of a node's tunnel, in the runtime dir. *)
Definition node_socket_path (runtime_dir : PathBuf) (name : string) : PathBuf :=
  path_join (path_join runtime_dir "roster-nodes") (name +:+ ".socket").

Section connect.
Context {W : Type} `{ShellOS W} `{TunnelOS W}.
(** The executor's view of the tunnel behind a socket, and the runtime dir. *)
Variable tunnel_at : PathBuf → Tunnel W.
Variable runtime_dir : PathBuf.

(** One entry of nodes.yaml; [None] is [open] out of fuel. *)
Definition connect_one (local : SystemResources) (config : NodeConfig) (w : W)
    : option (result (Opened W * ResourcePool) AnyError * W) :=
  let health := mkHealth Online (tos_utc w) None in
  match nc_ssh config, nc_socket config with
  | None, _ =>
      Some (Ok (mkOpened (nc_name config) None ShellExecutor None None health,
                ResourcePool.new local), w)
  | Some target, Some remote =>
      let tunnel := mkSshTunnel (nc_name config) target remote
                      (node_socket_path runtime_dir (nc_name config)) in
      '(opened, w1) ← open tunnel w;
      match opened with
      | Err error => Some (with_context ("node '" +:+ nc_name config +:+ "'") (Err error), w1)
      | Ok (child, info) =>
          let task := supervisor child info (h_since health) in
          Some (Ok (mkOpened (nc_name config) (Some target)
                      (@RemoteExecutor W (tunnel_at (st_local tunnel)))
                      (Some (st_local tunnel)) (Some (tunnel, task)) (su_health task),
                    ResourcePool.new (ni_resources info)), w1)
      end
  | Some _, None =>
      Some (bail ("node '" +:+ nc_name config +:+ "' has no socket, add it with `roster node add`"), w)
  end.

(** Open every node in file order; a node that can't be reached aborts
    startup. *)
Fixpoint connect_nodes (local : SystemResources) (configs : list NodeConfig) (w : W)
    : option (result (list (Opened W) * list ResourcePool) AnyError * W) :=
  match configs with
  | [] => Some (Ok ([], []), w)
  | config :: configs' =>
      '(one, w1) ← connect_one local config w;
      match one with
      | Err error => Some (Err error, w1)
      | Ok (node, pool) =>
          '(rest, w2) ← connect_nodes local configs' w1;
          match rest with
          | Err error => Some (Err error, w2)
          | Ok (nodes, pools) => Some (Ok (node :: nodes, pool :: pools), w2)
          end
      end
  end.

End connect.

(** ** The file: one load, one save *)

Section nodes_file_properties.
Context `{Yaml}.

Lemma duplicate_None names configs :
  duplicate names configs = None ↔
  NoDup (nc_name <$> configs) ∧ ∀ c, c ∈ configs → nc_name c ∉ names.
Proof.
  revert names. induction configs as [|c configs IH]; intros names; cbn.
  { split; [|done]. intros _. split; [constructor|]. by intros c ?%elem_of_nil. }
  case_bool_decide as Hc.
  - split; [done|]. intros [_ Hn]. by destruct (Hn c); [left|].
  - rewrite IH, NoDup_cons. split.
    + intros [Hnd Hn]. split_and!; [|done|].
      * intros (d & E & Hd)%list_elem_of_fmap. specialize (Hn d Hd). set_solver.
      * intros d [->|Hd]%elem_of_cons; [done|]. specialize (Hn d Hd). set_solver.
    + intros [[Hni Hnd] Hn]. split; [done|]. intros d Hd. specialize (Hn d).
      assert (nc_name d ≠ nc_name c); [|set_solver].
      intros E. apply Hni. rewrite <-E. by apply list_elem_of_fmap_2.
Qed.

Definition nodes_ok (configs : list NodeConfig) : Prop :=
  configs ≠ [] ∧ NoDup (nc_name <$> configs).

Lemma load_nodes_ok path read configs : load path read = Ok configs → nodes_ok configs.
Proof.
  unfold load. destruct read as [yaml| |]; [|by intros [= <-]; split; [|repeat constructor; set_solver]|done].
  destruct (from_yaml yaml) as [[|c configs']|]; [done| |done].
  destruct (duplicate ∅ (c :: configs')) eqn:E; [done|]. intros [= <-].
  by apply duplicate_None in E as [? _].
Qed.

Lemma load_saved path text configs :
  from_yaml text = Ok configs → nodes_ok configs → load path (ReadOk text) = Ok configs.
Proof.
  unfold load. intros -> [Hne Hnd]. destruct configs as [|c configs]; [done|].
  assert (duplicate ∅ (c :: configs) = None) as ->; [|done].
  apply duplicate_None. split; [done|]. set_solver.
Qed.

(** A save ends well exactly when it went all the way, and the file then holds
    what was given; otherwise the file is as it was. *)
Lemma save_load outcome path configs fs r fs' :
  yaml_roundtrip → with_extension path "yaml.tmp" ≠ path → nodes_ok configs →
  save outcome path configs fs = (r, fs') →
  match r with
  | Ok _ => load path (read_to_string path fs') = Ok configs
  | Err _ => read_to_string path fs' = read_to_string path fs
  end.
Proof.
  intros Hyaml Hne Hok. unfold save. destruct (Hyaml configs) as (text & -> & Hfrom).
  generalize dependent (with_extension path "yaml.tmp"). intros temp Hne.
  unfold read_to_string. destruct outcome; intros [= <- <-];
    [done|by rewrite lookup_insert_ne..|]. rewrite lookup_insert_eq. by apply load_saved.
Qed.

(** Dropping a name from a list without duplicates drops one entry. *)
Lemma drop_named name configs :
  NoDup (nc_name <$> configs) →
  let kept := List.filter (λ config, negb (String.eqb (nc_name config) name)) configs in
  kept = configs ∨
  ∃ before gone after, configs = before ++ gone :: after ∧ nc_name gone = name ∧ kept = before ++ after.
Proof.
  intros Hnd. induction configs as [|c configs IH]; [by left|].
  apply NoDup_cons in Hnd as [Hni Hnd]. cbn [List.filter].
  destruct (String.eqb_spec (nc_name c) name) as [Hc|Hc]; cbn [negb].
  - right. exists [], c, configs. split_and!; [done|done|]. cbn.
    clear -Hni Hc. induction configs as [|d configs IH]; [done|]. cbn in *.
    apply not_elem_of_cons in Hni as [Hd Hni]. destruct (String.eqb_spec (nc_name d) name); [congruence|].
    cbn. by rewrite IH.
  - destruct (IH Hnd) as [E|(before & gone & after & -> & Hg & E)]; rewrite E; [by left|].
    right. by exists (c :: before), gone, after.
Qed.

(** [node add] is turned down before it asks the node. *)
Definition turned_down (path : PathBuf) (target name : string) (fs : FileSystem) : Prop :=
  match load path (read_to_string path fs) with
  | Err _ => True
  | Ok configs => forallb name_char (chars name) = false ∨
      ∃ config, config ∈ configs ∧ (nc_name config = name ∨ nc_ssh config = Some target)
  end.

Lemma entry_fresh configs name target :
  existsb (λ config, String.eqb (nc_name config) name || bool_decide (nc_ssh config = Some target)) configs = false ↔
  ∀ config, config ∈ configs → nc_name config ≠ name ∧ nc_ssh config ≠ Some target.
Proof.
  rewrite <-not_true_iff_false, existsb_exists. split.
  - intros Hn config Hc. split; intros E; apply Hn; exists config;
      (split; [by apply list_elem_of_In|]); apply orb_true_iff.
    + left. by apply String.eqb_eq.
    + right. by apply bool_decide_eq_true.
  - intros Hall (config & Hc%list_elem_of_In & E). destruct (Hall config Hc) as [Hn Ht].
    apply orb_true_iff in E as [E%String.eqb_eq|E%bool_decide_eq_true]; congruence.
Qed.

(** C30: What an edit of the node list leaves in the file, given that serde_yaml
    reads back what it wrote.  [node add] writes the list it read before it
    asked the node over ssh, with one entry appended, whose name is of letters,
    digits, '-', '_' and '.' and, like its ssh target, in no other entry;
    [node rm] writes the list it read without the named entry, and never an
    empty one; every other outcome, a full disk or a crash in the middle of a
    save included, leaves the file as others had it.  So when nobody else edits
    the file between the reading and the writing no node is lost or listed
    twice, and a list that loads keeps loading; an edit in between is written
    over ([concurrent_add_lost]). *)
Theorem nodes_file_edits (outcome : SaveOutcome) (path : PathBuf) (fs : FileSystem) :
  yaml_roundtrip → with_extension path "yaml.tmp" ≠ path →
  (∀ target name info r fs', add outcome path target name info fs = (r, fs') →
    match r with
    | Ok i => ∃ configs, load path (read_to_string path fs) = Ok configs ∧
        (info target fs).1 = Ok i ∧ forallb name_char (chars (default target name)) = true ∧
        (∀ config, config ∈ configs → nc_name config ≠ default target name ∧ nc_ssh config ≠ Some target) ∧
        load path (read_to_string path fs') =
          Ok (configs ++ [mkNodeConfig (default target name) (Some target) (Some (ni_socket i))])
    | Err _ => turned_down path target (default target name) fs ∧ fs' = fs ∨
        read_to_string path fs' = read_to_string path (info target fs).2
    end) ∧
  (∀ name meanwhile r fs', remove outcome path name meanwhile fs = (r, fs') →
    match r with
    | Ok _ => ∃ configs before gone after, load path (read_to_string path fs) = Ok configs ∧
        configs = before ++ gone :: after ∧ nc_name gone = name ∧ before ++ after ≠ [] ∧
        load path (read_to_string path fs') = Ok (before ++ after)
    | Err _ => fs' = fs ∨ read_to_string path fs' = read_to_string path (meanwhile fs)
    end).
Proof.
  intros Hyaml Hne. split.
  - intros target name info r fs'. unfold add, turned_down.
    destruct (load path _) as [configs|] eqn:El; [|intros [= <- <-]; by left].
    destruct (forallb _ _) eqn:Echars; cbn [negb]; [|intros [= <- <-]; left; split; [by left|done]].
    destruct (existsb _ configs) eqn:Edup.
    { intros [= <- <-]. left. split; [|done]. right.
      apply existsb_exists in Edup as (c & Hc%list_elem_of_In & E). exists c. split; [done|].
      by apply orb_true_iff in E as [E%String.eqb_eq|E%bool_decide_eq_true]; auto. }
    pose proof (proj1 (entry_fresh _ _ _) Edup) as Hfresh.
    destruct (info target fs) as [[i|] fs1] eqn:Ei; [|intros [= <- <-]; by right].
    destruct (save _ _ _ _) as [saved fs2] eqn:Es. intros [= <- <-].
    eapply save_load in Es; [|done|done|].
    + destruct saved; [|by right]. exists configs. by split_and!.
    + destruct (load_nodes_ok _ _ _ El) as [_ Hnd]. split; [by destruct configs|].
      rewrite fmap_app. apply NoDup_app. split_and!; [done| |apply NoDup_singleton].
      intros n (c & -> & Hc)%list_elem_of_fmap E%list_elem_of_singleton. by destruct (Hfresh c Hc).
  - intros name meanwhile r fs'. unfold remove.
    destruct (load path _) as [configs|] eqn:El; [|intros [= <- <-]; by left].
    destruct (load_nodes_ok _ _ _ El) as [_ Hnd].
    destruct (Nat.eqb_spec (length (List.filter (λ config, negb (String.eqb (nc_name config) name)) configs))
      (length configs)) as [|Hlen]; [intros [= <- <-]; by left|].
    destruct (drop_named name configs Hnd) as [E|(before & gone & after & -> & Hg & E)].
    { by rewrite E in Hlen. }
    rewrite E. destruct (before ++ after) as [|c l] eqn:Ek; [intros [= <- <-]; by left|].
    intros Es. eapply save_load in Es; [|done|done|].
    + destruct r; [|by right]. exists (before ++ gone :: after), before, gone, after.
      rewrite Ek. by split_and!.
    + split; [done|]. rewrite <-Ek. eapply sublist_NoDup; [exact Hnd|].
      apply fmap_sublist, sublist_app; [done|]. by constructor.
Qed.

End nodes_file_properties.

(** ** Where a node stands *)

Definition enter_all (history : list (NodeState * option NodeInfo * DateTime)) (h : Health) : Health :=
  foldl (λ h sit, (enter sit.1.1 sit.1.2 sit.2 h).1) h history.

Definition same_kind (s s' : NodeState) : Prop := discriminant s = discriminant s'.

(** The state a history ends in. *)
Definition state_after (s : NodeState) (history : list (NodeState * option NodeInfo * DateTime)) : NodeState :=
  default s ((λ sit, sit.1.1) <$> last history).

Lemma enter_all_snoc history s i now h :
  enter_all (history ++ [(s, i, now)]) h = (enter s i now (enter_all history h)).1.
Proof. unfold enter_all. by rewrite foldl_app. Qed.

Lemma enter_all_state history h : h_state (enter_all history h) = state_after (h_state h) history.
Proof.
  induction history as [|[[s i] now] history IH] using rev_ind; [done|].
  unfold state_after in *. by rewrite enter_all_snoc, last_snoc.
Qed.

(** The time shown for a node is when it last entered its kind of state:
    after any history of health checks and ssh exits, either every state was
    of the kind it began with and the time is unchanged, or the time is that
    of the one event after which all states are of one kind and before which
    the kind was another; changes of the reason alone never move it. *)
Theorem since_is_last_change (history : list (NodeState * option NodeInfo * DateTime)) (h : Health) :
  (h_since (enter_all history h) = h_since h ∧
     Forall (λ sit, same_kind (h_state h) sit.1.1) history) ∨
  ∃ before s info now after, history = before ++ (s, info, now) :: after ∧
    h_since (enter_all history h) = now ∧
    Forall (λ sit, same_kind s sit.1.1) after ∧
    ¬ same_kind (state_after (h_state h) before) s.
Proof.
  induction history as [|[[s i] now] history IH] using rev_ind; [left; by split|].
  rewrite enter_all_snoc. unfold enter. cbn [fst h_since]. rewrite enter_all_state.
  destruct (Nat.eqb_spec (discriminant (state_after (h_state h) history)) (discriminant s))
    as [E|E]; cbn [negb].
  - destruct IH as [[-> Hall]|(before & s0 & i0 & now0 & after & -> & -> & Hall & Hk)].
    + left. split; [done|]. apply Forall_app. split; [done|]. apply Forall_singleton. cbn.
      unfold same_kind. rewrite <-E. unfold state_after. destruct (last history) as [x|] eqn:El; [|done].
      rewrite Forall_forall in Hall. apply (Hall x). by apply last_Some_elem_of.
    + right. exists before, s0, i0, now0, (after ++ [(s, i, now)]). rewrite <-app_assoc.
      split_and!; [done|done| |done]. apply Forall_app. split; [done|]. apply Forall_singleton. cbn.
      unfold same_kind. rewrite <-E. unfold state_after. rewrite last_app, last_cons.
      destruct (last after) as [x|] eqn:El; [|done]. cbn. rewrite Forall_forall in Hall.
      apply (Hall x). by apply last_Some_elem_of.
  - right. exists history, s, i, now, []. by split_and!.
Qed.

Section tunnel_properties.
Context {W : Type} `{TunnelOS W}.
Variable t : SshTunnel.

Lemma check_online w info w' :
  check t w = ((Online, info), w') → ∃ i, info = Some i ∧ ni_version i = VERSION.
Proof.
  unfold check. destruct (tos_connect _ _) as [[] w1]; [|done].
  destruct (tos_exchange _ _ _) as [[[[]|]|] w2]; try done.
  unfold check_version. destruct (String.eqb_spec (ni_version info0) VERSION); [|done].
  intros [= <- <-]. eauto.
Qed.

(** The node's daemon answers a health check begun in [w] within its 3 s, as
    [i] and with our version. *)
Definition answers_as (i : NodeInfo) (w : W) : Prop := ∃ w1 w2,
  tos_connect (st_local t) w = (Ok tt, w1) ∧
  tos_exchange 3000 Request_Info w1 = (Some (Ok (Response_Info i)), w2) ∧ ni_version i = VERSION.

Lemma check_answers w : is_online (check t w).1.1 = true ↔ ∃ i, answers_as i w.
Proof.
  unfold check, answers_as. destruct (tos_connect _ _) as [[[]|error] w1] eqn:E1.
  2: { split; [done|]. by intros (i & w2 & w3 & [=] & _). }
  destruct (tos_exchange _ _ _) as [reply w2] eqn:E2. cbn. split.
  - destruct reply as [[[]|]|]; try done. unfold check_version.
    destruct (String.eqb_spec (ni_version info) VERSION); [|done]. eauto 8.
  - intros (i & w3 & w4 & [= <-] & E3 & Hi). rewrite E2 in E3. injection E3 as -> _.
    unfold check_version. by rewrite Hi, String.eqb_refl.
Qed.

Lemma check_info w : is_online (check t w).1.1 = true → ∃ i, (check t w).1.2 = Some i ∧ answers_as i w.
Proof.
  intros Hon. destruct (proj1 (check_answers w) Hon) as (i & w1 & w2 & E1 & E2 & Hi).
  exists i. split; [|by exists w1, w2]. unfold check. rewrite E1, E2. cbn.
  unfold check_version. by rewrite Hi, String.eqb_refl.
Qed.

Section history.
Variables (child : N) (opened : NodeInfo) (since : DateTime) (w : W).

(** The task and the world after a course of events. *)
Definition after (events : list Event) : Supervisor * W := supervise t events (supervisor child opened since) w.

(** The last of the events is a health check that the daemon passed as [i]; or
    there was none since [open], which is such a check. *)
Definition found (events : list Event) (i : NodeInfo) : Prop :=
  events = [] ∧ i = opened ∨ ∃ before, events = before ++ [Tick] ∧ answers_as i (after before).2.

Definition is_exit (e : Event) : bool := match e with Exited _ => true | _ => false end.

Lemma after_snoc events e : after (events ++ [e]) = supervise_event t e (after events).1 (after events).2.
Proof. unfold after, supervise. by rewrite foldl_app. Qed.

Lemma found_snoc events e i : found (events ++ [e]) i ↔ e = Tick ∧ answers_as i (after events).2.
Proof.
  split.
  - intros [[[]%app_nil _]|(before & [-> [= ->]]%app_inj_tail & Ha)]; done.
  - intros [-> Ha]. right. by exists events.
Qed.

Lemma answers_unique i j w0 : answers_as i w0 → answers_as j w0 → i = j.
Proof. intros (w1 & w2 & E1 & E2 & _) (w3 & w4 & E3 & E4 & _). congruence. Qed.

(** Where a health check leaves the task. *)
Lemma after_tick events :
  su_online (after (events ++ [Tick])).1 = is_online (check t (after events).2).1.1 ∧
  h_state (su_health (after (events ++ [Tick])).1) = (check t (after events).2).1.1 ∧
  su_backoff (after (events ++ [Tick])).1 =
    (if is_online (check t (after events).2).1.1 then 1000 else su_backoff (after events).1) ∧
  ∀ i, (check t (after events).2).1.2 = Some i → h_info (su_health (after (events ++ [Tick])).1) = Some i.
Proof.
  rewrite after_snoc. cbn. destruct (check t _) as [[state info] w1]. cbn.
  split_and!; [done..|]. by intros i ->.
Qed.

Lemma after_exit events status :
  su_online (after (events ++ [Exited status])).1 = false ∧
  is_online (h_state (su_health (after (events ++ [Exited status])).1)) = false ∧
  su_backoff (after (events ++ [Exited status])).1 = N.min (su_backoff (after events).1 * 2) 30000.
Proof. rewrite after_snoc. cbn. destruct (spawn t _). cbn. by destruct status. Qed.

Lemma online_found events :
  su_online (after events).1 = true ↔ ∃ i, found events i ∧ h_info (su_health (after events).1) = Some i.
Proof.
  destruct events as [|e events _] using rev_ind.
  { split; [|done]. intros _. exists opened. split; [by left|done]. }
  setoid_rewrite found_snoc. destruct e as [status| |].
  - rewrite (proj1 (after_exit events status)). split; [done|]. by intros (i & [[=] _] & _).
  - destruct (after_tick events) as (-> & _ & _ & Hi). split.
    + intros (i & Ei & Ha)%check_info. exists i. split; [done|]. by apply Hi.
    + intros (i & [_ Ha] & _). apply check_answers. eauto.
  - rewrite after_snoc. split; [done|]. by intros (i & [[=] _] & _).
Qed.

Lemma record_found events :
  is_online (h_state (su_health (after events).1)) = true ↔
  ∃ checked lost i, events = checked ++ lost ∧ Forall (eq RequestLost) lost ∧ found checked i.
Proof.
  induction events as [|e events IH] using rev_ind.
  { split; [|done]. intros _. exists [], [], opened. split_and!; [done..|by left]. }
  assert ((∃ checked lost i, events ++ [e] = checked ++ lost ∧ Forall (eq RequestLost) lost ∧ found checked i) ↔
    (∃ i, found (events ++ [e]) i) ∨
    e = RequestLost ∧ ∃ checked lost i, events = checked ++ lost ∧ Forall (eq RequestLost) lost ∧ found checked i) as ->.
  { split.
    - intros (checked & lost & i & E & Hl & Hf). destruct lost as [|l lost _] using rev_ind.
      + rewrite app_nil_r in E. left. exists i. by rewrite E.
      + rewrite app_assoc in E. apply app_inj_tail in E as [-> ->]. apply Forall_app in Hl as [Hl He].
        apply (Forall_inv) in He. right. split; [done|]. by exists checked, lost, i.
    - intros [[i Hf]|(-> & checked & lost & i & -> & Hl & Hf)].
      + exists (events ++ [e]), [], i. by rewrite app_nil_r.
      + exists checked, (lost ++ [RequestLost]), i. rewrite app_assoc. split_and!; [done| |done].
        apply Forall_app. split; [done|]. by constructor. }
  setoid_rewrite found_snoc. destruct e as [status| |].
  - rewrite (proj1 (proj2 (after_exit events status))). split; [done|]. by intros [(i & [=] & _)|[[=] _]].
  - destruct (after_tick events) as (_ & -> & _). rewrite check_answers. naive_solver.
  - rewrite after_snoc. cbn. rewrite IH. naive_solver.
Qed.

Lemma backoff_doubles before rest :
  (∃ i, found before i) → (∀ some i, some ≠ [] → some `prefix_of` rest → ¬ found (before ++ some) i) →
  su_backoff (after (before ++ rest)).1 = N.min 30000 (1000 * 2 ^ N.of_nat (length (List.filter is_exit rest))).
Proof.
  intros [i Hf]. induction rest as [|e rest IH] using rev_ind; intros Hnone.
  { rewrite app_nil_r. destruct Hf as [[-> _]|(before' & -> & Ha)]; [done|].
    destruct (after_tick before') as (_ & _ & -> & _). by rewrite (proj2 (check_answers _) (ex_intro _ i Ha)). }
  rewrite app_assoc, List.filter_app, length_app.
  assert (∀ some j, some ≠ [] → some `prefix_of` rest → ¬ found (before ++ some) j) as Hrest.
  { intros some j Hs Hp. apply Hnone; [done|]. by apply prefix_app_r. }
  specialize (IH Hrest). destruct e as [status| |].
  - destruct (after_exit (before ++ rest) status) as (_ & _ & ->). rewrite IH. cbn [List.filter is_exit length].
    rewrite Nat.add_1_r, Nat2N.inj_succ, N.pow_succ_r'. lia.
  - destruct (after_tick (before ++ rest)) as (_ & _ & -> & _). rewrite Nat.add_0_r.
    destruct (is_online _) eqn:Eo; [|done]. apply check_answers in Eo as [j Hj]. exfalso.
    apply (Hnone (rest ++ [Tick]) j); [by intros []%app_nil|done|]. rewrite app_assoc. by apply found_snoc.
  - rewrite after_snoc. cbn [supervise_event fst su_backoff]. by rewrite IH, Nat.add_0_r.
Qed.

(** C38: The flag the scheduler reads is sound and up to date: after any ssh
    exits, health checks and lost requests, in any order and with any answers,
    it is on exactly when the last of them is a health check that the node's
    daemon answered, in time and with this very version (or nothing happened
    since [open]), and the record then holds that answer; so a failed check, an
    exit and a lost request each turn it off until a check passes.  The record
    says Online exactly when only lost requests came since such a check.  And
    the delay before ssh is restarted is 1 s doubled for every exit since the
    last check that passed, 30 s at most. *)
Theorem online_means_checked (events : list Event) :
  (su_online (after events).1 = true ↔
     ∃ i, found events i ∧ h_info (su_health (after events).1) = Some i) ∧
  (is_online (h_state (su_health (after events).1)) = true ↔
     ∃ checked lost i, events = checked ++ lost ∧ Forall (eq RequestLost) lost ∧ found checked i) ∧
  ∀ before rest, events = before ++ rest → (∃ i, found before i) →
    (∀ some i, some ≠ [] → some `prefix_of` rest → ¬ found (before ++ some) i) →
    su_backoff (after events).1 = N.min 30000 (1000 * 2 ^ N.of_nat (length (List.filter is_exit rest))).
Proof.
  split; [apply online_found|]. split; [apply record_found|]. intros before rest ->. apply backoff_doubles.
Qed.
End history.

(** ** Opening a tunnel *)

(** Clocks do not run backwards, and a sleep lasts at least as long as asked. *)
Record clock_runs : Prop := {
  ck_connect : ∀ p w, tos_instant w ≤ tos_instant (tos_connect p w).2;
  ck_exchange : ∀ limit r w, tos_instant w ≤ tos_instant (tos_exchange limit r w).2;
  ck_wait : ∀ pid w, tos_instant w ≤ tos_instant (tos_try_wait pid w).2;
  ck_sleep : ∀ ms w, tos_instant w + ms ≤ tos_instant (tos_sleep ms w);
}.

Lemma check_instant w r w' : clock_runs → check t w = (r, w') → tos_instant w ≤ tos_instant w'.
Proof.
  intros [Hc He _ _]. unfold check. specialize (Hc (st_local t) w).
  destruct (tos_connect _ _) as [[] w1]; [|by intros [= _ <-]].
  specialize (He 3000 Request_Info w1). destruct (tos_exchange _ _ _) as [reply w2].
  intros [= _ <-]. cbn in *. lia.
Qed.

(** The loop returned, and with a node only if its version is ours. *)
Definition ends (child : N) (turn : option (result (N * NodeInfo) AnyError * W)) : Prop :=
  ∃ r w', turn = Some (r, w') ∧ ∀ c i, r = Ok (c, i) → c = child ∧ ni_version i = VERSION.

Lemma ends_err child e w : ends child (Some (Err e, w)).
Proof. exists (Err e), w. by split. Qed.

(** A turn of the loop ends it or takes 200 ms. *)
Lemma open_loop_ends child deadline w fuel :
  clock_runs → (0 < fuel)%nat → deadline ≤ tos_instant w + 200 * N.of_nat (fuel - 1) →
  ends child (open_loop t fuel child deadline w).
Proof.
  intros Hck. revert w. induction fuel as [|fuel IH]; intros w Hpos Hw; [lia|].
  cbn [open_loop]. destruct (check t w) as [[state info] w1] eqn:E.
  pose proof (check_instant _ _ _ Hck E) as Hw1.
  assert (∀ message, ends child (if deadline <=? tos_instant w1 then Some (bail message, w1) else
      let '(exited, w2) := tos_try_wait child w1 in
      match exited with
      | Err error => Some (bail error, w2)
      | Ok (Some status) => Some (bail ("ssh to " +:+ st_target t +:+ " exited: " +:+ status), w2)
      | Ok None => open_loop t fuel child deadline (tos_sleep 200 w2)
      end)) as Hwait.
  { intros message. destruct (N.leb_spec deadline (tos_instant w1)); [apply ends_err|].
    pose proof (ck_wait Hck child w1) as Hw2. destruct (tos_try_wait child w1) as [exited w2].
    destruct exited as [[status|]|error]; [apply ends_err| |apply ends_err].
    pose proof (ck_sleep Hck 200 w2). cbn in *. apply IH; lia. }
  destruct state; [|apply Hwait..|apply ends_err].
  destruct (check_online _ _ _ E) as (i & -> & Hi). eexists _, w1. split; [done|].
  by intros c i' [= <- <-].
Qed.

(** C31: Starting a tunnel always comes to an end: within fifty-one health
    checks, the 10 s the code allows at 200 ms a turn, it returns the ssh
    process with the node's info, of this very version, or an error. *)
Theorem open_terminates (w : W) :
  clock_runs → ∃ r w', open t w = Some (r, w') ∧
    ∀ c i, r = Ok (c, i) → ni_version i = VERSION ∧ ∃ w1, spawn t w = (Ok c, w1).
Proof.
  intros Hck. unfold open. destruct (spawn t w) as [child w1]. destruct child as [child|error].
  - destruct (open_loop_ends child (tos_instant w1 + 10000) w1 open_fuel Hck) as (r & w' & -> & Hr);
      [unfold open_fuel; lia..|].
    exists r, w'. split; [done|]. intros c i ->. destruct (Hr c i eq_refl) as [-> Hi]. eauto.
  - exists (Err error), w1. by split.
Qed.

End tunnel_properties.

(** ** Opening every node *)

Section connect_properties.
Context {W : Type} `{ShellOS W} `{TunnelOS W}.
Variable tunnel_at : PathBuf → Tunnel W.
Variable runtime_dir : PathBuf.

(** A node opened for an entry, with the pool of the machine behind it. *)
Definition opened_for (local : SystemResources) (config : NodeConfig) (node : Opened W)
    (pool : ResourcePool) : Prop :=
  op_name node = nc_name config ∧ op_ssh node = nc_ssh config ∧
  match nc_ssh config with
  | None => op_executor node = ShellExecutor ∧ op_task node = None ∧ op_socket node = None ∧
            pool = ResourcePool.new local
  | Some target => ∃ socket remote child info since,
      op_socket node = Some socket ∧ op_executor node = @RemoteExecutor W (tunnel_at socket) ∧
      op_task node = Some (mkSshTunnel (nc_name config) target remote socket,
                           supervisor child info since) ∧
      nc_socket config = Some remote ∧ ni_version info = VERSION ∧
      pool = ResourcePool.new (ni_resources info)
  end.

Lemma connect_one_ends local config w :
  clock_runs → ∃ r w', connect_one tunnel_at runtime_dir local config w = Some (r, w') ∧
    ∀ node pool, r = Ok (node, pool) → opened_for local config node pool.
Proof.
  intros Hck. unfold connect_one, opened_for.
  destruct (nc_ssh config) as [target|] eqn:Es.
  2: { eexists _, w. split; [done|]. intros node pool [= <- <-]. done. }
  destruct (nc_socket config) as [remote|] eqn:Ek.
  2: { eexists _, w. split; [done|]. done. }
  set (tunnel := mkSshTunnel _ _ _ _).
  destruct (open_terminates tunnel w Hck) as (r & w1 & -> & Hr). cbn [mbind option_bind].
  destruct r as [[child info]|error]; cbn.
  - eexists _, w1. split; [done|]. intros node pool [= <- <-]. cbn. split_and!; [done|done|].
    destruct (Hr _ _ eq_refl) as [Hi _]. eexists _, remote, child, info, _. by split_and!.
  - eexists _, w1. by split.
Qed.

(** The daemon's start either fails or opens every entry of the node list:
    the nodes and their pools come in file order, so that index [i] is the
    same machine in both; a remote node's pool has what its daemon reported,
    over a tunnel that was answered by our own version, and this machine's
    pool its own inventory. *)
Theorem connect_in_file_order (local : SystemResources) (configs : list NodeConfig) (w : W) :
  clock_runs → ∃ r w', connect_nodes tunnel_at runtime_dir local configs w = Some (r, w') ∧
    ∀ nodes pools, r = Ok (nodes, pools) →
      length nodes = length configs ∧ length pools = length configs ∧
      ∀ i config, configs !! i = Some config → ∃ node pool,
        nodes !! i = Some node ∧ pools !! i = Some pool ∧ opened_for local config node pool.
Proof.
  intros Hck. revert w. induction configs as [|config configs IH]; intros w.
  { eexists _, w. split; [done|]. intros nodes pools [= <- <-]. done. }
  cbn [connect_nodes]. destruct (connect_one_ends local config w Hck) as (r & w1 & -> & Hr).
  cbn [mbind option_bind]. destruct r as [[node pool]|error]; [|eexists _, w1; by split].
  destruct (IH w1) as (rest & w2 & -> & Hrest). cbn.
  destruct rest as [[nodes pools]|error]; [|eexists _, w2; by split].
  eexists _, w2. split; [done|]. intros nodes' pools' [= <- <-].
  destruct (Hrest _ _ eq_refl) as (Hn & Hp & Hall). cbn. split_and!; [lia|lia|].
  intros [|i] c Hi; [|by apply Hall]. injection Hi as <-. exists node, pool. split_and!; [done..|]. by apply Hr.
Qed.

End connect_properties.

(** ** Witnesses: a node that answers the third check *)

Definition demo_yaml : Yaml := {|
  to_yaml := λ configs, Ok (@to_json _ demo_serde configs);
  from_yaml := λ text, match @from_json _ demo_serde text with
                       | Some configs => Ok configs | None => Err "invalid" end;
  io_message := λ _, "No space left on device (os error 28)";
|}.

Lemma demo_yaml_roundtrip : @yaml_roundtrip demo_yaml.
Proof.
  intros configs. exists (@to_json _ demo_serde configs). split; [done|]. cbn [from_yaml demo_yaml].
  by rewrite demo_serde_roundtrip.
Qed.

Definition demo_info : NodeInfo :=
  mkNodeInfo VERSION 42 "/run/user/1000/roster.socket" 0 true demo_resources [].

(** A node that answers while nobody edits the file. *)
Definition quiet_ssh (target : string) (fs : FileSystem) : result NodeInfo AnyError * FileSystem := (Ok demo_info, fs).

Definition listed (r : result NodeInfo AnyError * FileSystem) : result (list NodeConfig) AnyError :=
  @load demo_yaml "/c/nodes.yaml" (read_to_string "/c/nodes.yaml" r.2).

Lemma nodes_file_edits_witness :
  let yaml := demo_yaml in
  let fs := (@add yaml Saved "/c/nodes.yaml" "gpu1" None quiet_ssh ∅).2 in
  load "/c/nodes.yaml" (read_to_string "/c/nodes.yaml" fs) =
    Ok [local; mkNodeConfig "gpu1" (Some "gpu1") (Some "/run/user/1000/roster.socket")].
Proof.
  intros yaml fs.
  destruct (proj1 (@nodes_file_edits yaml Saved "/c/nodes.yaml" ∅ demo_yaml_roundtrip
    ltac:(vm_compute; discriminate)) "gpu1" None quiet_ssh (Ok demo_info) fs)
    as (configs & E & _ & _ & _ & E').
  - unfold fs. vm_compute. reflexivity.
  - vm_compute in E. injection E as <-. exact E'.
Defined.

(** Two [node add]s at once: the second, done while the first waits for its
    node, answers as if its node was added, and is gone once the first saves. *)
Definition other_add (fs : FileSystem) : FileSystem :=
  (@add demo_yaml Saved "/c/nodes.yaml" "gpu2" None quiet_ssh fs).2.

Example concurrent_add_lost :
  let first := @add demo_yaml Saved "/c/nodes.yaml" "gpu1" None (λ target fs, quiet_ssh target (other_add fs)) ∅ in
  match listed first with Ok configs => nc_name <$> configs | Err _ => [] end = ["local"; "gpu1"].
Proof. by vm_compute. Qed.

(** The world is a clock; the daemon answers from 600 ms on. *)
Definition demo_tunnel_os : TunnelOS N := {|
  tos_create_parent := λ _ w, (Ok tt, w);
  tos_spawn := λ _ _ w, (Ok 77, w);
  tos_connect := λ _ w, (Ok tt, w);
  tos_exchange := λ _ _ w, (Some (if w <? 600 then Err "connection reset" else Ok (Response_Info demo_info)), w);
  tos_try_wait := λ _ w, (Ok None, w);
  tos_instant := λ w, w;
  tos_utc := λ w, Z.of_N w;
  tos_sleep := λ ms w, w + ms;
|}.

Lemma demo_clock_runs : @clock_runs N demo_tunnel_os.
Proof. split; intros; cbn; lia. Qed.

Definition demo_ssh_tunnel : SshTunnel := mkSshTunnel "gpu1" "gpu1" "/r.socket" "/l.socket".

(** ssh exits twice; the check that follows comes before the node is up, the
    one after the next exit finds it. *)
Definition demo_events : list Event := [Exited (Ok "exit status: 255"); Tick; Exited (Ok "exit status: 255"); Tick].
Definition demo_after (events : list Event) : Supervisor * N :=
  @after N demo_tunnel_os demo_ssh_tunnel 7 demo_info 0%Z 0 events.

Lemma online_means_checked_witness :
  su_online (demo_after demo_events).1 = true ∧
  su_backoff (demo_after [Exited (Ok "exit status: 255"); Exited (Ok "exit status: 255")]).1 = 4000.
Proof.
  split.
  - apply (proj1 (@online_means_checked N demo_tunnel_os demo_ssh_tunnel 7 demo_info 0%Z 0 demo_events)).
    exists demo_info. split; [|vm_compute; reflexivity]. right.
    exists [Exited (Ok "exit status: 255"); Tick; Exited (Ok "exit status: 255")]. split; [reflexivity|].
    eexists _, _. split; [reflexivity|]. split; vm_compute; reflexivity.
  - refine (proj2 (proj2 (@online_means_checked N demo_tunnel_os demo_ssh_tunnel 7 demo_info 0%Z 0 _)) [] _ eq_refl _ _).
    + exists demo_info. left. split; reflexivity.
    + intros some i Hs Hp [[E _]|(before & E & _)]; [exact (Hs E)|]. cbn in E. subst some.
      destruct Hp as [k E]. rewrite <-app_assoc in E. destruct before as [|? [|? before]]; [discriminate E..|].
      injection E as _ _ E. destruct before; discriminate E.
Defined.

Lemma open_terminates_witness :
  ∃ r w', @open N demo_tunnel_os demo_ssh_tunnel 0 = Some (r, w') ∧ w' = 600.
Proof.
  destruct (@open_terminates N demo_tunnel_os demo_ssh_tunnel 0 demo_clock_runs) as (r & w' & E & _).
  exists r, w'. split; [exact E|]. vm_compute in E. injection E as _ <-. reflexivity.
Defined.

Definition demo_flat_tunnel : Tunnel N := {|
  tn_online := λ _, true;
  tn_set_offline := λ w, w;
  tn_connect := λ w, (Ok tt, w);
  tn_exchange := λ _ _ w, (Some (Ok Response_Pong), w);
  Response_debug := λ _, "reply";
|}.

Lemma connect_in_file_order_witness :
  ∃ r w', @connect_nodes N demo_os demo_tunnel_os (λ _, demo_flat_tunnel) "/run" demo_resources
    [local; mkNodeConfig "gpu1" (Some "gpu1") (Some "/r.socket")] 0 = Some (r, w').
Proof.
  destruct (@connect_in_file_order N demo_os demo_tunnel_os (λ _, demo_flat_tunnel) "/run" demo_resources
    [local; mkNodeConfig "gpu1" (Some "gpu1") (Some "/r.socket")] 0 demo_clock_runs) as (r & w' & E & _).
  exists r, w'. exact E.
Defined.
