(* ===== verification/Scheduler.v ===== *)
(** * The scheduler: [src/scheduler/mod.rs]

    One tick moves every job through its four phases.  A phase collects under
    the locks, awaits executors without them, and applies what came back under
    the locks again; each such stretch is one definition here, so that other
    tasks can be interleaved between them ([System.v]).  [tick] composes the
    stretches with nothing in between.  The clock readings of a stretch are a
    function of the job they are taken for. *)

From S2P Require Import Prelude Spec Pool Placement Handle Model Text Health Protocol Executor.
From S2P Require Import Shell.

(** ** Shared helpers *)

Definition REASON_TAIL_BYTES : N := 4096.
Definition REASON_LINES : nat := 3.

(** Return each execution's allocation to its own node's pool. *)
Definition release (pools : list ResourcePool) (executions : list Execution)
    : exec (list ResourcePool) :=
  foldM (λ pools e, index_mut pools (ex_node e) (ResourcePool.release (ex_allocation e)))
    pools executions.

(** The lines of a log's end that say something. *)
Definition is_break (c : ascii) : bool :=
  Ascii.eqb c (ascii_of_N 10) || Ascii.eqb c (ascii_of_N 13).
Definition is_marker (c : ascii) : bool := Ascii.eqb c "^" || Ascii.eqb c "~".

Definition telling (line : string) : bool :=
  negb (is_empty line) && negb (line =? CUT_NOTICE)%string && negb (forallb is_marker (chars line)).

Definition reason_lines (tail : option string) : list string :=
  List.filter telling (trim <$> split_on is_break (default "" tail)).

(** Why a job ended badly, from the last lines of its log. *)
Definition exit_reason (exit_code : Z) (tail : option string) : string :=
  let ended := if (exit_code =? -1)%Z then "killed by a signal" else "exit " +:+ pretty exit_code in
  let lines := reason_lines tail in
  match lines with
  | [] => ended
  | _ => ended +:+ ": " +:+ join " | " (drop (length lines - REASON_LINES) lines)
  end.

(** A job keeps every reason it collected. *)
Definition add_reason (reason : string) (job : JobInstance) : JobInstance :=
  JobInstance.set_reason
    (Some match ji_reason job with
          | Some earlier => earlier +:+ "; " +:+ reason
          | None => reason
          end) job.

(** What the locks guard. *)
Record DaemonState := mkDaemonState {
  ds_runs : gmap string WorkflowRun;
  ds_pools : list ResourcePool;
  ds_requalify : gset (nat * N);
}.

(** (run_id, job_id) of the jobs a phase changed. *)
Notation transitions := (list (string * string)).

(** [for job_id in ids { if let Some(job) = run.jobs.get_mut(&job_id) { .. } }] *)
Definition mark_jobs (f : string → JobInstance → JobInstance) (ids : list string) (run : WorkflowRun)
    : WorkflowRun * transitions :=
  foldl (λ acc job_id,
    match wr_jobs acc.1 !! job_id with
    | Some job =>
        (WorkflowRun.set_jobs (<[job_id := f job_id job]> (wr_jobs acc.1)) acc.1,
         acc.2 ++ [(wr_run_id acc.1, job_id)])
    | None => acc
    end) (run, []) ids.

Definition job_in (jobs : gmap string JobInstance) (in_state : JobState.t → bool) (dep_id : string) : bool :=
  match jobs !! dep_id with Some j => in_state (ji_state j) | None => false end.

Definition is_succeeded (s : JobState.t) : bool :=
  match s with JobState.Succeeded => true | _ => false end.
Definition is_waiting (s : JobState.t) : bool :=
  match s with JobState.Pending | JobState.Queued => true | _ => false end.
Definition is_dead (s : JobState.t) : bool :=
  match s with
  | JobState.Failed | JobState.Skipped | JobState.Cancelled | JobState.TimedOut
  | JobState.Interrupted => true
  | _ => false
  end.
Definition is_pending (s : JobState.t) : bool :=
  match s with JobState.Pending => true | _ => false end.
Definition is_queued (s : JobState.t) : bool :=
  match s with JobState.Queued => true | _ => false end.
Definition is_running (s : JobState.t) : bool :=
  match s with JobState.Running => true | _ => false end.

(** The filters of the first two phases. *)
Definition ready (jobs : gmap string JobInstance) (job : JobInstance) : bool :=
  is_pending (ji_state job) && forallb (job_in jobs is_succeeded) (js_depends_on (ji_spec job)).
Definition doomed (jobs : gmap string JobInstance) (job : JobInstance) : bool :=
  is_waiting (ji_state job) && existsb (job_in jobs is_dead) (js_depends_on (ji_spec job)).

Section with_order.
Context `{HashOrder}.

(** ** Pending to Queued *)

Definition to_queue (run : WorkflowRun) : list string :=
  ji_job_id <$> List.filter (ready (wr_jobs run)) (hm_values (wr_jobs run)).

Definition queue_ready (runs : gmap string WorkflowRun) : gmap string WorkflowRun * transitions :=
  values_mut (λ run, mark_jobs (λ _, JobInstance.set_state JobState.Queued) (to_queue run) run) runs.

(** ** Pending or Queued to Skipped *)

Definition to_skip (run : WorkflowRun) : list string :=
  ji_job_id <$> List.filter (doomed (wr_jobs run)) (hm_values (wr_jobs run)).

Definition skip_job (now : DateTime) (job : JobInstance) : JobInstance :=
  JobInstance.set_ended_at (Some now) (JobInstance.set_state JobState.Skipped job).

Definition skip_doomed (clock : string → string → DateTime) (runs : gmap string WorkflowRun)
    : gmap string WorkflowRun * transitions :=
  values_mut (λ run, mark_jobs (λ job_id, skip_job (clock (wr_run_id run) job_id)) (to_skip run) run) runs.

(** ** Queued to Running *)

(** Phase 1: reserve under the locks, collect launch tasks. *)
Record AdmitTask := mkAdmitTask {
  at_run_id : string;
  at_job_instance : JobInstance;
  at_placement : list (nat * Allocation);  (* (node index, allocation) per member *)
}.

Definition reserve_job (online : list bool) (run_id : string)
    (acc : list ResourcePool * list AdmitTask) (job : JobInstance)
    : exec (list ResourcePool * list AdmitTask) :=
  let '(pools, tasks) := acc in
  if is_queued (ji_state job) then
    let usable := imap (λ node (up : bool), up && negb (JobInstance.rejected_by node job)) online in
    r ← place pools usable [js_resources (ji_spec job)];
    match r with
    | (Some placement, pools') => Ret (pools', tasks ++ [mkAdmitTask run_id job placement])
    | (None, pools') => Ret (pools', tasks)
    end
  else Ret acc.

Definition reserve_queued (runs : gmap string WorkflowRun) (online : list bool)
    (pools : list ResourcePool) : exec (list ResourcePool * list AdmitTask) :=
  foldM (λ acc run, foldM (reserve_job online (wr_run_id run)) acc (hm_values (wr_jobs run)))
    (pools, []) (hm_values runs).

(** Phase 2: launch, no lock held. *)
Record LaunchOutcome := mkLaunchOutcome {
  lo_run_id : string;
  lo_job_id : string;
  lo_executions : list Execution;
  lo_result : result unit ExecutorError;
}.

Section with_env.
Context {W : Type} `{DaemonEnv W}.

Definition launch_member (task : AdmitTask) (acc : (list Execution * result unit ExecutorError) * W)
    (na : nat * Allocation) : exec ((list Execution * result unit ExecutorError) * W) :=
  let '((executions, result), w) := acc in
  node ← node_at na.1;
  match launch (nd_executor node) (at_run_id task) (at_job_instance task) na.2 w with
  | (Ok handle, w') => Ret ((executions ++ [mkExecution na.1 na.2 (Some handle)], result), w')
  | (Err error, w') => Ret ((executions ++ [mkExecution na.1 na.2 None], Err error), w')
  end.

Definition launch_task (task : AdmitTask) (w : W) : exec (LaunchOutcome * W) :=
  r ← foldM (launch_member task) (([], Ok tt), w) (at_placement task);
  let '((executions, result), w') := r in
  Ret (mkLaunchOutcome (at_run_id task) (ji_job_id (at_job_instance task)) executions result, w').

(** Where a job's log lives. *)
Definition log_path (node : Node W) (run_id job_id : string) : exec PathBuf :=
  match nd_ssh node with
  | None => job_log_path env_home run_id job_id
  | Some target => Ret (target +:+ ":" +:+ job_log_relpath run_id job_id)
  end.

(** The job's record after its launch came back: also whether the executions
    are released and whether the job is written. *)
Definition launched_job (log : PathBuf) (executions : list Execution) (now : DateTime)
    (job : JobInstance) : JobInstance :=
  JobInstance.set_log_path (Some log) (JobInstance.set_started_at (Some now)
    (JobInstance.set_executions executions (JobInstance.set_state JobState.Running job))).

Definition failed_job (now : DateTime) (job : JobInstance) : JobInstance :=
  JobInstance.set_ended_at (Some now) (JobInstance.set_state JobState.Failed job).

(** "turned down by NODE: why; NODE: why" *)
Definition turned_down (job : JobInstance) : exec string :=
  reasons ← foldM (λ acc r, node ← node_at r.1; Ret (acc ++ [nd_name node +:+ ": " +:+ r.2]))
    [] (ji_rejected job);
  Ret ("turned down by " +:+ join "; " reasons).

Definition could_go_elsewhere (pools : list ResourcePool) (job : JobInstance) : bool :=
  existsb (λ b : bool, b) (imap (λ node pool, negb (JobInstance.rejected_by node job) &&
    existsb (λ option, ResourcePool.could_fit option pool)
      (gpu_options (js_resources (ji_spec job)))) pools).

(** Phase 3: apply one result under the locks. *)
Definition apply_launch (now : DateTime) (outcome : LaunchOutcome) (pools : list ResourcePool)
    (job : JobInstance) : exec (list ResourcePool * JobInstance * bool) :=
  match lo_result outcome with
  | Ok _ =>
      first ← index (lo_executions outcome) 0;
      node ← node_at (ex_node first);
      log ← log_path node (lo_run_id outcome) (lo_job_id outcome);
      Ret (pools, launched_job log (lo_executions outcome) now job, true)
  | Err (Unreachable _) =>
      pools' ← release pools (lo_executions outcome);
      Ret (pools', job, false)
  | Err (Rejected reason) =>
      first ← index (lo_executions outcome) 0;
      _ ← node_at (ex_node first);
      pools' ← release pools (lo_executions outcome);
      let job1 := JobInstance.set_rejected (ji_rejected job ++ [(ex_node first, reason)]) job in
      why ← turned_down job1;
      let job2 := JobInstance.set_reason (Some why) job1 in
      Ret (pools', if could_go_elsewhere pools' job2 then job2 else failed_job now job2, true)
  | Err error =>
      pools' ← release pools (lo_executions outcome);
      Ret (pools', add_reason (ExecutorError_to_string error) (failed_job now job), true)
  end.

Definition update_job (run_id job_id : string) (run : WorkflowRun) (job : JobInstance)
    (runs : gmap string WorkflowRun) : gmap string WorkflowRun :=
  <[run_id := WorkflowRun.set_jobs (<[job_id := job]> (wr_jobs run)) run]> runs.

Definition apply_outcome (clock : string → string → DateTime) (acc : DaemonState * transitions)
    (outcome : LaunchOutcome) : exec (DaemonState * transitions) :=
  let '(ds, to_write) := acc in
  let dropped :=
    pools' ← release (ds_pools ds) (lo_executions outcome);
    Ret (mkDaemonState (ds_runs ds) pools' (ds_requalify ds), to_write) in
  match ds_runs ds !! lo_run_id outcome with
  | None => dropped
  | Some run =>
      match wr_jobs run !! lo_job_id outcome with
      | None => dropped
      | Some job =>
          r ← apply_launch (clock (lo_run_id outcome) (lo_job_id outcome)) outcome (ds_pools ds) job;
          let '(pools', job', written) := r in
          Ret (mkDaemonState
                 (update_job (lo_run_id outcome) (lo_job_id outcome) run job' (ds_runs ds))
                 pools' (ds_requalify ds),
               if (written : bool) then to_write ++ [(lo_run_id outcome, lo_job_id outcome)]
               else to_write)
      end
  end.

Definition apply_outcomes (clock : string → string → DateTime) (outcomes : list LaunchOutcome)
    (ds : DaemonState) : exec (DaemonState * transitions) :=
  foldM (apply_outcome clock) (ds, []) outcomes.

(** ** Running to an end *)

(** Phase 1: the running jobs' first executions. *)
Record RunningJob := mkRunningJob {
  rj_run_id : string;
  rj_job_id : string;
  rj_node : nat;
  rj_handle : JobHandle;
  rj_cancelling : bool;
}.

Definition running_job (run : WorkflowRun) (job : JobInstance) : option RunningJob :=
  execution ← head (ji_executions job);
  handle ← ex_handle execution;
  Some (mkRunningJob (wr_run_id run) (ji_job_id job) (ex_node execution) handle
          (ji_cancelling job)).

Definition collect_running (runs : gmap string WorkflowRun) : list RunningJob :=
  run ← hm_values runs;
  omap (running_job run)
    (List.filter (λ job, is_running (ji_state job)) (hm_values (wr_jobs run))).

(** Phase 2: poll, no lock held. *)
Record PollEntry := mkPollEntry {
  pe_run_id : string;
  pe_job_id : string;
  pe_cancelling : bool;
  pe_result : result PollResult ExecutorError;
  pe_tail : option string;  (* end of the log of a job that failed on its own *)
}.

Definition poll_job (job : RunningJob) (w : W) : exec (PollEntry * W) :=
  node ← node_at (rj_node job);
  let executor := nd_executor node in
  let '(result, w1) := poll executor (rj_handle job) w in
  let '(tail, w2) :=
    match result with
    | Ok (PollExited exit_code) =>
        if negb (exit_code =? 0)%Z && negb (rj_cancelling job) then
          let '(text, w2) := tail executor (rj_run_id job) (rj_job_id job) REASON_TAIL_BYTES w1 in
          (result_ok text, w2)
        else (None, w1)
    | _ => (None, w1)
    end in
  Ret (mkPollEntry (rj_run_id job) (rj_job_id job) (rj_cancelling job) result tail, w2).

(** Phase 3: apply one result under the locks. *)
Definition ended_state (cancelling : bool) (exit_code : Z) : JobState.t :=
  if cancelling then JobState.Cancelled
  else if (exit_code =? 0)%Z then JobState.Succeeded
  else JobState.Failed.

Definition ended_job (now : DateTime) (cancelling : bool) (exit_code : Z) (tail : option string)
    (job : JobInstance) : JobInstance :=
  let job1 := JobInstance.set_ended_at (Some now)
    (JobInstance.set_exit_code (Some exit_code) (JobInstance.set_executions [] job)) in
  let job2 :=
    if negb cancelling && negb (exit_code =? 0)%Z then add_reason (exit_reason exit_code tail) job1
    else job1 in
  JobInstance.set_state (ended_state cancelling exit_code) job2.

(** Cards of a job that was killed by a signal no cancel sent. *)
Definition cards_of (executions : list Execution) : list (nat * N) :=
  e ← executions;
  (λ gpu, (ex_node e, ga_index gpu)) <$> al_gpus (ex_allocation e).

Definition apply_poll (now : DateTime) (entry : PollEntry) (ds : DaemonState) (job : JobInstance)
    : exec (list ResourcePool * gset (nat * N) * JobInstance * bool) :=
  match pe_result entry with
  | Err (Unreachable _) => Ret (ds_pools ds, ds_requalify ds, job, false)
  | Err error =>
      pools' ← release (ds_pools ds) (ji_executions job);
      Ret (pools', ds_requalify ds,
           add_reason ("poll failed: " +:+ ExecutorError_to_string error)
             (failed_job now (JobInstance.set_executions [] job)), true)
  | Ok PollRunning => Ret (ds_pools ds, ds_requalify ds, job, false)
  | Ok (PollExited exit_code) =>
      let requalify' :=
        if (exit_code =? -1)%Z && negb (pe_cancelling entry)
        then ds_requalify ds ∪ list_to_set (cards_of (ji_executions job))
        else ds_requalify ds in
      pools' ← release (ds_pools ds) (ji_executions job);
      Ret (pools', requalify',
           ended_job now (pe_cancelling entry) exit_code (pe_tail entry) job, true)
  end.

Definition apply_entry (clock : string → string → DateTime) (acc : DaemonState * transitions)
    (entry : PollEntry) : exec (DaemonState * transitions) :=
  let '(ds, to_write) := acc in
  match ds_runs ds !! pe_run_id entry with
  | None => Ret acc
  | Some run =>
      match wr_jobs run !! pe_job_id entry with
      | None => Ret acc
      | Some job =>
          r ← apply_poll (clock (pe_run_id entry) (pe_job_id entry)) entry ds job;
          let '(pools', requalify', job', written) := r in
          Ret (mkDaemonState
                 (update_job (pe_run_id entry) (pe_job_id entry) run job' (ds_runs ds))
                 pools' requalify',
               if (written : bool) then to_write ++ [(pe_run_id entry, pe_job_id entry)]
               else to_write)
      end
  end.

Definition apply_entries (clock : string → string → DateTime) (entries : list PollEntry)
    (ds : DaemonState) : exec (DaemonState * transitions) :=
  foldM (apply_entry clock) (ds, []) entries.

(** ** Persisting and announcing a transition *)

(** One entry of [flush_transitions]: the job's state as it is by now. *)
Definition flush_one (monotonic_raw_ns : string → string → N) (runs : gmap string WorkflowRun)
    (w : W) (rj : string * string) : exec W :=
  match runs !! rj.1 with
  | None => Ret w
  | Some run =>
      match wr_jobs run !! rj.2 with
      | None => Ret w
      | Some job =>
          node ← match head (ji_executions job) with
                 | None => Ret None
                 | Some execution => node ← node_at (ex_node execution); Ret (Some (nd_name node))
                 end;
          Ret (send (JobEvent.new (wr_run_seq run) (ji_job_seq job) (ji_state job)
                       (monotonic_raw_ns rj.1 rj.2))
                 (upsert_job rj.1 job node w))
      end
  end.

Definition flush_transitions (monotonic_raw_ns : string → string → N)
    (runs : gmap string WorkflowRun) (to_write : transitions) (w : W) : exec W :=
  foldM (flush_one monotonic_raw_ns runs) w to_write.

(** ** One iteration *)

(** The clock readings of a tick, by phase and job. *)
Record Clocks := mkClocks {
  ck_utc : nat → string → string → DateTime;
  ck_raw : nat → string → string → N;
}.

Definition set_runs (runs : gmap string WorkflowRun) (ds : DaemonState) : DaemonState :=
  mkDaemonState runs (ds_pools ds) (ds_requalify ds).

(** [map_m] with the world threaded through. *)
Fixpoint each {A B} (f : A → W → exec (B * W)) (l : list A) (w : W) : exec (list B * W) :=
  match l with
  | [] => Ret ([], w)
  | a :: l' =>
      r ← f a w;
      rs ← each f l' r.2;
      Ret (r.1 :: rs.1, rs.2)
  end.

Definition advance_pending (ck : Clocks) (ds : DaemonState) (w : W) : exec (DaemonState * W) :=
  let '(runs, to_write) := queue_ready (ds_runs ds) in
  w' ← flush_transitions (ck_raw ck 0) runs to_write w;
  Ret (set_runs runs ds, w').

Definition cascade_skipped (ck : Clocks) (ds : DaemonState) (w : W) : exec (DaemonState * W) :=
  let '(runs, to_write) := skip_doomed (ck_utc ck 1) (ds_runs ds) in
  w' ← flush_transitions (ck_raw ck 1) runs to_write w;
  Ret (set_runs runs ds, w').

Definition online_nodes (w : W) : list bool := (λ node, nd_online node w) <$> env_nodes.

Definition advance_queued (ck : Clocks) (ds : DaemonState) (w : W) : exec (DaemonState * W) :=
  r ← reserve_queued (ds_runs ds) (online_nodes w) (ds_pools ds);
  let '(pools, tasks) := r in
  o ← each launch_task tasks w;
  let '(outcomes, w1) := o in
  d ← apply_outcomes (ck_utc ck 2) outcomes (mkDaemonState (ds_runs ds) pools (ds_requalify ds));
  let '(ds', to_write) := d in
  w2 ← flush_transitions (ck_raw ck 2) (ds_runs ds') to_write w1;
  Ret (ds', w2).

Definition advance_running (ck : Clocks) (ds : DaemonState) (w : W) : exec (DaemonState * W) :=
  o ← each poll_job (collect_running (ds_runs ds)) w;
  let '(entries, w1) := o in
  d ← apply_entries (ck_utc ck 3) entries ds;
  let '(ds', to_write) := d in
  w2 ← flush_transitions (ck_raw ck 3) (ds_runs ds') to_write w1;
  Ret (ds', w2).

(** One scheduler iteration, four phases in order. *)
Definition tick (ck : Clocks) (ds : DaemonState) (w : W) : exec (DaemonState * W) :=
  s1 ← advance_pending ck ds w;
  s2 ← cascade_skipped ck s1.1 s1.2;
  s3 ← advance_queued ck s2.1 s2.2;
  advance_running ck s3.1 s3.2.

End with_env.
End with_order.

(** ** Marking jobs *)

(** Jobs and runs are filed under their own ids. *)
Definition run_wf (run : WorkflowRun) : Prop :=
  ∀ k job, wr_jobs run !! k = Some job → ji_job_id job = k.
Definition runs_wf (runs : gmap string WorkflowRun) : Prop :=
  ∀ k run, runs !! k = Some run → wr_run_id run = k ∧ run_wf run.

Lemma set_jobs_set_jobs J J' run :
  WorkflowRun.set_jobs J (WorkflowRun.set_jobs J' run) = WorkflowRun.set_jobs J run.
Proof. done. Qed.

Lemma mark_jobs_snoc f ids k run :
  mark_jobs f (ids ++ [k]) run =
    let acc := mark_jobs f ids run in
    match wr_jobs acc.1 !! k with
    | Some job => (WorkflowRun.set_jobs (<[k := f k job]> (wr_jobs acc.1)) acc.1,
                   acc.2 ++ [(wr_run_id acc.1, k)])
    | None => acc
    end.
Proof. unfold mark_jobs. by rewrite foldl_app. Qed.

Lemma mark_jobs_spec f ids run :
  NoDup ids → (∀ k, k ∈ ids → is_Some (wr_jobs run !! k)) →
  ∃ J, mark_jobs f ids run = (WorkflowRun.set_jobs J run, (λ k, (wr_run_id run, k)) <$> ids) ∧
    ∀ k, J !! k = if decide (k ∈ ids) then f k <$> wr_jobs run !! k else wr_jobs run !! k.
Proof.
  induction ids as [|x ids IH] using rev_ind; intros Hnd Hin.
  { exists (wr_jobs run). split; [by destruct run|done]. }
  apply NoDup_app in Hnd as (Hnd & Hx & _).
  destruct IH as (J & E & HJ); [done|intros k Hk; apply Hin, elem_of_app; by left|].
  destruct (Hin x) as [job Hjob]; [apply elem_of_app; right; by left|].
  assert (x ∉ ids) as Hni by (intros Hxi; apply (Hx x Hxi); by left).
  exists (<[x := f x job]> J). rewrite mark_jobs_snoc, E. cbn.
  rewrite HJ, decide_False, Hjob, fmap_app by done. split; [done|].
  intros k. destruct (decide (k = x)) as [->|Hne].
  - rewrite lookup_insert_eq, decide_True by (apply elem_of_app; right; by left). by rewrite Hjob.
  - rewrite lookup_insert_ne, HJ by done. destruct (decide (k ∈ ids)) as [Hk|Hk].
    + rewrite decide_True; [done|]. apply elem_of_app. by left.
    + rewrite decide_False; [done|]. rewrite elem_of_app, list_elem_of_singleton. naive_solver.
Qed.

Section with_order.
Context `{HashOrder}.

(** The ids of the jobs that satisfy a test. *)
Definition job_ids (test : JobInstance → bool) (run : WorkflowRun) : list string :=
  ji_job_id <$> List.filter test (hm_values (wr_jobs run)).

Lemma elem_of_job_ids test run k :
  run_wf run → k ∈ job_ids test run ↔ ∃ job, wr_jobs run !! k = Some job ∧ test job = true.
Proof.
  intros Hwf. unfold job_ids. rewrite list_elem_of_fmap. split.
  - intros (job & -> & Hin). apply list_elem_of_In, filter_In in Hin as [Hin Ht].
    apply list_elem_of_In, elem_of_hm_values in Hin as [k Hk]. exists job.
    by rewrite (Hwf _ _ Hk).
  - intros (job & Hk & Ht). exists job. split; [by rewrite (Hwf _ _ Hk)|].
    apply list_elem_of_In, filter_In. split; [|done].
    apply list_elem_of_In, elem_of_hm_values. by exists k.
Qed.

Lemma NoDup_job_ids test run : run_wf run → NoDup (job_ids test run).
Proof.
  intros Hwf. unfold job_ids. eapply (sublist_NoDup _ (hm_keys (wr_jobs run))); [apply NoDup_hm_keys|].
  assert (hm_keys (wr_jobs run) = ji_job_id <$> hm_values (wr_jobs run)) as ->.
  { unfold hm_keys, hm_values. rewrite <-list_fmap_compose. apply list_fmap_ext.
    intros i [k job] Hi. apply list_elem_of_lookup_2, elem_of_hm_iter in Hi. cbn.
    by rewrite (Hwf _ _ Hi). }
  apply fmap_sublist, list_filter_sublist.
Qed.

(** Marking the jobs that satisfy a test. *)
Lemma mark_tested f test run :
  run_wf run →
  ∃ J, mark_jobs f (job_ids test run) run
      = (WorkflowRun.set_jobs J run, (λ k, (wr_run_id run, k)) <$> job_ids test run) ∧
    ∀ k, J !! k = (λ job, if test job then f k job else job) <$> wr_jobs run !! k.
Proof.
  intros Hwf. destruct (mark_jobs_spec f (job_ids test run) run) as (J & E & HJ).
  - by apply NoDup_job_ids.
  - intros k Hk. apply elem_of_job_ids in Hk as (job & ? & _); [by exists job|done].
  - exists J. split; [done|]. intros k. rewrite HJ.
    destruct (decide (k ∈ job_ids test run)) as [Hk|Hk]; rewrite elem_of_job_ids in Hk by done.
    + destruct Hk as (job & -> & Ht). cbn. by rewrite Ht.
    + destruct (wr_jobs run !! k) as [job|] eqn:Ej; [|done]. cbn.
      destruct (test job) eqn:Et; [|done]. destruct Hk. eauto.
Qed.

(** A phase that marks the jobs of every run that satisfy a test. *)
Lemma mark_runs (f : WorkflowRun → string → JobInstance → JobInstance)
    (test : gmap string JobInstance → JobInstance → bool) (runs : gmap string WorkflowRun) :
  runs_wf runs →
  let r := values_mut (λ run, mark_jobs (f run) (job_ids (test (wr_jobs run)) run) run) runs in
  (∀ k, r.1 !! k = (λ run, WorkflowRun.set_jobs
     (map_imap (λ j job, Some (if test (wr_jobs run) job then f run j job else job)) (wr_jobs run))
     run) <$> runs !! k) ∧
  (∀ k j, (k, j) ∈ r.2 ↔ ∃ run job, runs !! k = Some run ∧ wr_jobs run !! j = Some job ∧
     test (wr_jobs run) job = true).
Proof.
  intros Hwf r. unfold r. split.
  - intros k. rewrite values_mut_fst, lookup_fmap. destruct (runs !! k) as [run|] eqn:Hk; [|done].
    cbn. f_equal. destruct (Hwf _ _ Hk) as [_ Hrun].
    destruct (mark_tested (f run) (test (wr_jobs run)) run Hrun) as (J & -> & HJ). cbn. f_equal.
    apply map_eq. intros j. rewrite HJ, map_lookup_imap. by destruct (wr_jobs run !! j).
  - intros k j. rewrite values_mut_snd, list_elem_of_In, in_concat. split.
    + intros (l & Hl & Hin). apply list_elem_of_In, list_elem_of_fmap in Hl as ([k' run] & -> & Hk).
      apply elem_of_hm_iter in Hk. destruct (Hwf _ _ Hk) as [Hid Hrun]. cbn in Hin.
      destruct (mark_tested (f run) (test (wr_jobs run)) run Hrun) as (J & E & _). rewrite E in Hin.
      apply list_elem_of_In, list_elem_of_fmap in Hin as (j' & [= -> ->] & Hj').
      apply elem_of_job_ids in Hj' as (job & ? & ?); [|done]. exists run, job. by rewrite Hid.
    + intros (run & job & Hk & Hj & Ht). destruct (Hwf _ _ Hk) as [Hid Hrun].
      destruct (mark_tested (f run) (test (wr_jobs run)) run Hrun) as (J & E & _).
      eexists. split.
      * apply list_elem_of_In, list_elem_of_fmap. exists (k, run).
        split; [reflexivity|]. by apply elem_of_hm_iter.
      * cbn. rewrite E. cbn. apply list_elem_of_In, list_elem_of_fmap. exists j. rewrite Hid.
        split; [done|]. apply elem_of_job_ids; [done|]. by exists job.
Qed.

(** ** Properties of the first two phases *)

Lemma queue_ready_mark runs :
  queue_ready runs = values_mut (λ run, mark_jobs
    (λ _, JobInstance.set_state JobState.Queued) (job_ids (ready (wr_jobs run)) run) run) runs.
Proof. done. Qed.

Lemma skip_doomed_mark clock runs :
  skip_doomed clock runs = values_mut (λ run, mark_jobs
    (λ j, skip_job (clock (wr_run_id run) j)) (job_ids (doomed (wr_jobs run)) run) run) runs.
Proof. done. Qed.

(** A dependency whose job is in a state. *)
Definition dep_in (jobs : gmap string JobInstance) (P : JobState.t → Prop) (d : string) : Prop :=
  ∃ job, jobs !! d = Some job ∧ P (ji_state job).

Definition dead (s : JobState.t) : Prop := JobState.is_terminal s = true ∧ s ≠ JobState.Succeeded.

Lemma job_in_spec jobs in_state (P : JobState.t → Prop) d :
  (∀ s, in_state s = true ↔ P s) → job_in jobs in_state d = true ↔ dep_in jobs P d.
Proof.
  intros Hs. unfold job_in, dep_in. destruct (jobs !! d) as [job|]; [|naive_solver].
  rewrite Hs. naive_solver.
Qed.

Lemma ready_spec jobs job :
  ready jobs job = true ↔ ji_state job = JobState.Pending ∧
    ∀ d, d ∈ js_depends_on (ji_spec job) → dep_in jobs (λ s, s = JobState.Succeeded) d.
Proof.
  unfold ready. rewrite andb_true_iff, forallb_forall. setoid_rewrite <-list_elem_of_In.
  assert (is_pending (ji_state job) = true ↔ ji_state job = JobState.Pending) as ->.
  { by destruct (ji_state job). }
  assert (∀ d, job_in jobs is_succeeded d = true ↔ dep_in jobs (λ s, s = JobState.Succeeded) d) as Hd.
  { intros d. apply job_in_spec. by intros []. }
  by setoid_rewrite Hd.
Qed.

Lemma doomed_spec jobs job :
  doomed jobs job = true ↔ (ji_state job = JobState.Pending ∨ ji_state job = JobState.Queued) ∧
    ∃ d, d ∈ js_depends_on (ji_spec job) ∧ dep_in jobs dead d.
Proof.
  unfold doomed. rewrite andb_true_iff, existsb_exists. setoid_rewrite <-list_elem_of_In.
  assert (is_waiting (ji_state job) = true ↔
    ji_state job = JobState.Pending ∨ ji_state job = JobState.Queued) as ->.
  { destruct (ji_state job); cbn; intuition congruence. }
  assert (∀ d, job_in jobs is_dead d = true ↔ dep_in jobs dead d) as Hd.
  { intros d. apply job_in_spec. unfold dead. by intros []; cbn; intuition congruence. }
  by setoid_rewrite Hd.
Qed.

Lemma mark_runs_lookup f test runs k run j job :
  runs_wf runs → runs !! k = Some run → wr_jobs run !! j = Some job →
  let r := values_mut (λ run, mark_jobs (f run) (job_ids (test (wr_jobs run)) run) run) runs in
  ∃ run', r.1 !! k = Some run' ∧
    wr_jobs run' !! j = Some (if test (wr_jobs run) job then f run j job else job) ∧
    ((k, j) ∈ r.2 ↔ test (wr_jobs run) job = true).
Proof.
  intros Hwf Hk Hj r. destruct (mark_runs f test runs Hwf) as [H1 H2]. fold r in H1, H2.
  eexists. split; [by rewrite H1, Hk|]. cbn. rewrite map_lookup_imap, Hj, H2. split; [done|].
  split; [naive_solver|]. intros ?. by exists run, job.
Qed.

(** Pending becomes Queued exactly when every dependency has succeeded:
    the phase changes nothing else of any job, and reports exactly the jobs
    it moved. *)
Theorem queue_ready_exact runs k run j job :
  runs_wf runs → runs !! k = Some run → wr_jobs run !! j = Some job →
  ∃ run' job', (queue_ready runs).1 !! k = Some run' ∧ wr_jobs run' !! j = Some job' ∧
    ((ji_state job = JobState.Pending ∧
      (∀ d, d ∈ js_depends_on (ji_spec job) →
         dep_in (wr_jobs run) (λ s, s = JobState.Succeeded) d) ∧
      job' = JobInstance.set_state JobState.Queued job ∧ (k, j) ∈ (queue_ready runs).2) ∨
     (¬ (ji_state job = JobState.Pending ∧
         ∀ d, d ∈ js_depends_on (ji_spec job) →
           dep_in (wr_jobs run) (λ s, s = JobState.Succeeded) d) ∧
      job' = job ∧ (k, j) ∉ (queue_ready runs).2)).
Proof.
  intros Hwf Hk Hj. rewrite queue_ready_mark.
  destruct (mark_runs_lookup (λ _ _, JobInstance.set_state JobState.Queued) ready _ _ _ _ _ Hwf Hk Hj)
    as (run' & Hk' & Hj' & Hin).
  exists run'. eexists. split; [exact Hk'|]. split; [exact Hj'|]. rewrite Hin, <-ready_spec.
  destruct (ready (wr_jobs run) job) eqn:E; [left|by right].
  apply ready_spec in E as [? ?]. by split_and!.
Qed.

(** A job that has not started is skipped exactly when a dependency ended
    without succeeding; it gets its end time, nothing else changes, and
    exactly the skipped jobs are reported. *)
Theorem skip_doomed_exact clock runs k run j job :
  runs_wf runs → runs !! k = Some run → wr_jobs run !! j = Some job →
  ∃ run' job', (skip_doomed clock runs).1 !! k = Some run' ∧ wr_jobs run' !! j = Some job' ∧
    (((ji_state job = JobState.Pending ∨ ji_state job = JobState.Queued) ∧
      (∃ d, d ∈ js_depends_on (ji_spec job) ∧ dep_in (wr_jobs run) dead d) ∧
      job' = skip_job (clock k j) job ∧ (k, j) ∈ (skip_doomed clock runs).2) ∨
     (¬ ((ji_state job = JobState.Pending ∨ ji_state job = JobState.Queued) ∧
         ∃ d, d ∈ js_depends_on (ji_spec job) ∧ dep_in (wr_jobs run) dead d) ∧
      job' = job ∧ (k, j) ∉ (skip_doomed clock runs).2)).
Proof.
  intros Hwf Hk Hj. rewrite skip_doomed_mark. destruct (Hwf _ _ Hk) as [Hid _].
  destruct (mark_runs_lookup (λ run j, skip_job (clock (wr_run_id run) j)) doomed _ _ _ _ _ Hwf Hk Hj)
    as (run' & Hk' & Hj' & Hin).
  exists run'. eexists. split; [exact Hk'|]. split; [exact Hj'|]. rewrite Hin, <-doomed_spec.
  destruct (doomed (wr_jobs run) job) eqn:E; [left|by right].
  apply doomed_spec in E as [? ?]. rewrite Hid. by split_and!.
Qed.

End with_order.

(** ** The reason of a failure *)

Lemma telling_no_break tail line c : line ∈ reason_lines tail → c ∈ chars line → is_break c = false.
Proof.
  unfold reason_lines. intros Hl Hc. apply list_elem_of_In, filter_In in Hl as [Hl _].
  apply list_elem_of_In, list_elem_of_fmap in Hl as (piece & -> & Hp).
  apply trim_chars in Hc. by apply (split_on_chars _ _ _ _ Hp).
Qed.

Lemma digit_no_break d : d < 10 → is_break (pretty_N_char d) = false.
Proof. intros Hd. destruct d as [|p]; [done|]. by do 4 (destruct p as [p|p|]; try done). Qed.

(** The part of [exit_reason] before the log's lines. *)
Lemma ended_no_break (exit_code : Z) c :
  c ∈ chars (if (exit_code =? -1)%Z then "killed by a signal" else "exit " +:+ pretty exit_code) →
  is_break c = false.
Proof.
  destruct (exit_code =? -1)%Z.
  - revert c. apply Forall_forall. apply (bool_decide_unpack _). vm_compute. exact I.
  - rewrite chars_app, elem_of_app. intros [Hc|Hc].
    + revert c Hc. apply Forall_forall. apply (bool_decide_unpack _). vm_compute. exact I.
    + apply pretty_Z_chars in Hc as [->|(d & Hd & ->)]; [done|by apply digit_no_break].
Qed.

Lemma last_drop {A} (l : list A) n d : (n < length l)%nat → List.last (drop n l) d = List.last l d.
Proof.
  revert n. induction l as [|x l IH]; intros [|n] Hn; cbn in *; [lia..|done|].
  rewrite IH by lia. destruct l; [cbn in *; lia|done].
Qed.

Lemma join_last sep l : l ≠ [] → ∃ front, join sep l = front +:+ List.last l "".
Proof.
  induction l as [|x l IH]; intros Hne; [done|]. destruct l as [|y l]; [by exists ""|].
  destruct IH as [front Hf]; [done|]. exists (x +:+ sep +:+ front).
  change (join sep (x :: y :: l)) with (x +:+ sep +:+ join sep (y :: l)).
  change (List.last (x :: y :: l) "") with (List.last (y :: l) "").
  by rewrite Hf, !string_app_assoc.
Qed.

(** The reason recorded for a failed job is a single line whatever its log
    holds, and when the log says anything, it ends with the last telling
    line: the one that usually names the error. *)
Theorem exit_reason_line exit_code tail :
  Forall (λ c, is_break c = false) (chars (exit_reason exit_code tail)) ∧
  ∃ front, exit_reason exit_code tail = front +:+ List.last (reason_lines tail) "".
Proof.
  unfold exit_reason. set (ended := if (_ =? _)%Z then _ else _).
  assert (∀ c, c ∈ chars ended → is_break c = false) as Hended by apply ended_no_break.
  pose proof (telling_no_break tail) as Htell. destruct (reason_lines tail) as [|l0 ls] eqn:E.
  { split; [by apply Forall_forall|]. exists ended. cbn. by rewrite string_app_nil_r. }
  set (lines := l0 :: ls) in *. split.
  - apply Forall_forall. intros c. rewrite !chars_app, !elem_of_app. intros [Hc|[Hc|Hc]].
    + by apply Hended.
    + revert c Hc. apply Forall_forall. apply (bool_decide_unpack _). vm_compute. exact I.
    + apply chars_join in Hc as [Hc|(piece & Hp & Hc)].
      * revert c Hc. apply Forall_forall. apply (bool_decide_unpack _). vm_compute. exact I.
      * eapply Htell; [|exact Hc]. eapply elem_of_sublist; [exact Hp|]. apply sublist_drop.
  - destruct (join_last " | " (drop (length lines - REASON_LINES) lines)) as [front Hf].
    + intros Hnil. apply (f_equal length) in Hnil. rewrite length_drop in Hnil.
      unfold lines, REASON_LINES in Hnil. cbn [length] in Hnil. lia.
    + rewrite Hf, last_drop by (unfold lines, REASON_LINES; cbn [length]; lia).
      exists (ended +:+ ": " +:+ front). by rewrite !string_app_assoc.
Qed.

(** ** What jobs hold *)

Definition ex_held (e : Execution) : nat * Allocation := (ex_node e, ex_allocation e).
Definition job_held (job : JobInstance) : list (nat * Allocation) := ex_held <$> ji_executions job.
Definition jobs_held (jobs : gmap string JobInstance) : list (nat * Allocation) :=
  kj ← map_to_list jobs; job_held kj.2.
Definition runs_held (runs : gmap string WorkflowRun) : list (nat * Allocation) :=
  kr ← map_to_list runs; jobs_held (wr_jobs kr.2).

Lemma release_release_all pools executions :
  release pools executions = release_all (ex_held <$> executions) pools.
Proof.
  unfold release, release_all. revert pools. induction executions as [|e l IH]; intros pools; [done|].
  cbn. destruct (index_mut pools (ex_node e) _); cbn; [apply IH|done].
Qed.

Lemma release_held pools executions held :
  cluster_accounts pools ((ex_held <$> executions) ++ held) →
  ∃ pools', release pools executions = Ret pools' ∧ cluster_accounts pools' held ∧
    length pools' = length pools.
Proof.
  intros Hacc. rewrite release_release_all.
  destruct (cluster_release_all _ _ _ Hacc) as (pools' & E & A & S).
  exists pools'. split_and!; [done|done|]. symmetry. by eapply Forall2_length.
Qed.

Section held_maps.
Context {A : Type} (held : A → list (nat * Allocation)).

(** What the values of a map hold together, with one value singled out. *)
Definition map_held (m : gmap string A) : list (nat * Allocation) :=
  ka ← map_to_list m; held ka.2.

Lemma map_held_insert m k a :
  m !! k = None → map_held (<[k := a]> m) ≡ₚ held a ++ map_held m.
Proof. intros Hk. unfold map_held. by rewrite map_to_list_insert. Qed.

Lemma map_held_update m k a a' :
  m !! k = Some a →
  ∃ rest, map_held m ≡ₚ held a ++ rest ∧ map_held (<[k := a']> m) ≡ₚ held a' ++ rest.
Proof.
  intros Hk. exists (map_held (delete k m)). split.
  - rewrite <-(insert_id m k a Hk) at 1. rewrite <-insert_delete_eq.
    by rewrite map_held_insert by apply lookup_delete_eq.
  - rewrite <-insert_delete_eq. by rewrite map_held_insert by apply lookup_delete_eq.
Qed.

Lemma map_held_ext (m m' : gmap string A) :
  (∀ k, option_Forall2 (λ a a', held a ≡ₚ held a') (m !! k) (m' !! k)) →
  map_held m ≡ₚ map_held m'.
Proof.
  revert m'. induction m as [|k a m Hk IH] using map_ind; intros m' Hm.
  - assert (m' = ∅) as ->; [|done]. apply map_empty. intros k. specialize (Hm k).
    rewrite lookup_empty in Hm. by inversion Hm.
  - pose proof (Hm k) as Hk'. rewrite lookup_insert_eq in Hk'.
    inversion Hk' as [x a' Ha Ex Ea'|]; subst x. symmetry in Ea'.
    rewrite map_held_insert by done. rewrite <-(insert_id m' k a' Ea'), <-insert_delete_eq.
    rewrite map_held_insert by apply lookup_delete_eq. rewrite Ha, IH; [done|].
    intros j. destruct (decide (j = k)) as [->|Hne].
    + rewrite Hk, lookup_delete_eq. constructor.
    + rewrite lookup_delete_ne by done. specialize (Hm j). by rewrite lookup_insert_ne in Hm.
Qed.

Lemma map_held_elem m x : x ∈ map_held m ↔ ∃ k a, m !! k = Some a ∧ x ∈ held a.
Proof.
  unfold map_held. rewrite list_elem_of_bind. split.
  - intros ([k a] & Hx & Hka). apply elem_of_map_to_list in Hka. by exists k, a.
  - intros (k & a & Hka & Hx). exists (k, a). split; [done|]. by apply elem_of_map_to_list.
Qed.
End held_maps.

Lemma update_job_held runs k run j job job' :
  runs !! k = Some run → wr_jobs run !! j = Some job →
  ∃ rest, runs_held runs ≡ₚ job_held job ++ rest ∧
    runs_held (update_job k j run job' runs) ≡ₚ job_held job' ++ rest.
Proof.
  intros Hk Hj.
  destruct (map_held_update job_held _ _ _ job' Hj) as (r1 & E1 & E1').
  destruct (map_held_update (λ run, jobs_held (wr_jobs run)) _ _ _
    (WorkflowRun.set_jobs (<[j := job']> (wr_jobs run)) run) Hk) as (r2 & E2 & E2').
  exists (r1 ++ r2). split.
  - etrans; [exact E2|]. rewrite app_assoc. by apply Permutation_app; [exact E1|].
  - etrans; [exact E2'|]. rewrite app_assoc. by apply Permutation_app; [exact E1'|].
Qed.

(** ** Applying launch and poll results *)

Definition lo_held (o : LaunchOutcome) : list (nat * Allocation) := ex_held <$> lo_executions o.

Lemma existsb_imap {A} (f : nat → A → bool) (l : list A) :
  existsb (λ b : bool, b) (imap f l) = true ↔ ∃ i a, l !! i = Some a ∧ f i a = true.
Proof.
  rewrite existsb_exists. setoid_rewrite <-list_elem_of_In. setoid_rewrite list_elem_of_lookup.
  setoid_rewrite list_lookup_imap_Some. naive_solver.
Qed.

(** Another node, not yet asked or not yet refusing, could run the job once
    idle. *)
Definition has_elsewhere (pools : list ResourcePool) (job : JobInstance) : Prop :=
  ∃ node pool, pools !! node = Some pool ∧ JobInstance.rejected_by node job = false ∧
    ∃ option, option ∈ gpu_options (js_resources (ji_spec job)) ∧
      ResourcePool.could_fit option pool = true.

Lemma could_go_elsewhere_spec pools job :
  could_go_elsewhere pools job = true ↔ has_elsewhere pools job.
Proof.
  unfold could_go_elsewhere, has_elsewhere. rewrite existsb_imap.
  split; intros (node & pool & Hp & Hx); exists node, pool.
  - apply andb_true_iff in Hx as [Hr Hx]. apply negb_true_iff in Hr.
    apply existsb_exists in Hx as (o & Ho & Hf). split_and!; [done|done|].
    exists o. split; [by apply list_elem_of_In|done].
  - destruct Hx as (Hr & o & Ho & Hf). split; [done|]. rewrite Hr. cbn.
    apply existsb_exists. exists o. split; [by apply list_elem_of_In|done].
Qed.

Lemma rejected_by_spec node job :
  JobInstance.rejected_by node job = true ↔ ∃ why, (node, why) ∈ ji_rejected job.
Proof.
  unfold JobInstance.rejected_by. rewrite existsb_exists. setoid_rewrite <-list_elem_of_In. split.
  - intros ([n why] & Hin & E%Nat.eqb_eq). cbn in E. subst n. by exists why.
  - intros [why Hin]. exists (node, why). split; [done|apply Nat.eqb_refl].
Qed.

Section with_env.
Context {W : Type} `{DaemonEnv W}.

(** The nodes a job names exist. *)
Definition rejections_known (job : JobInstance) : Prop :=
  ∀ n why, (n, why) ∈ ji_rejected job → (n < length env_nodes)%nat.

Lemma node_at_lt n : (n < length env_nodes)%nat → ∃ node, node_at n = Ret node.
Proof.
  intros [node Hn]%lookup_lt_is_Some_2. exists node. unfold node_at, index. by rewrite Hn.
Qed.

Lemma log_path_Ret (node : Node W) run_id job_id :
  is_Some env_home → ∃ log, log_path node run_id job_id = Ret log.
Proof.
  intros [home Hh]. unfold log_path, job_log_path. destruct (nd_ssh node); [eauto|].
  rewrite Hh. eauto.
Qed.

Lemma turned_down_Ret job : rejections_known job → ∃ why, turned_down job = Ret why.
Proof.
  intros Hk. unfold turned_down.
  destruct (foldM_inv (λ _, True) (λ (acc : list string) (r : nat * string),
      node ← node_at r.1; Ret (acc ++ [nd_name node +:+ ": " +:+ r.2])) [] (ji_rejected job))
    as (reasons & -> & _); [done| |by eexists].
  intros b [n why] Hin _. destruct (node_at_lt n) as [node Hn]; [by eapply Hk|].
  cbn [fst]. rewrite Hn. cbn. eauto.
Qed.

(** What an applied launch leaves of the job. *)
Definition launch_applied (now : DateTime) (o : LaunchOutcome) (e : Execution)
    (pools' : list ResourcePool) (job job' : JobInstance) : Prop :=
  match lo_result o with
  | Ok _ => ∃ log, job' = launched_job log [e] now job
  | Err (Unreachable _) => job' = job
  | Err (Rejected reason) => ∃ why,
      let job1 := JobInstance.set_reason (Some ("turned down by " +:+ why))
        (JobInstance.set_rejected (ji_rejected job ++ [(ex_node e, reason)]) job) in
      (has_elsewhere pools' job1 ∧ job' = job1) ∨
      (¬ has_elsewhere pools' job1 ∧ job' = failed_job now job1)
  | Err error => job' = add_reason (ExecutorError_to_string error) (failed_job now job)
  end.

Lemma apply_launch_inv now o e pools job held :
  lo_executions o = [e] → (ex_node e < length env_nodes)%nat → is_Some env_home →
  rejections_known job → cluster_accounts pools (ex_held e :: held) →
  ∃ pools' job' written, apply_launch now o pools job = Ret (pools', job', written) ∧
    length pools' = length pools ∧ launch_applied now o e pools' job job' ∧
    cluster_accounts pools' (match lo_result o with Ok _ => [ex_held e] | _ => [] end ++ held) ∧
    (written = false → job' = job).
Proof.
  intros He Hn Hhome Hrej Hacc. unfold apply_launch, launch_applied. rewrite He.
  destruct (node_at_lt _ Hn) as [node Hnode].
  destruct (release_held pools [e] held Hacc) as (pools' & Hrel & Hacc' & Hlen).
  destruct (lo_result o) as [u|error] eqn:Hres.
  - destruct (log_path_Ret node (lo_run_id o) (lo_job_id o) Hhome) as [log Hlog].
    cbn. rewrite Hnode. cbn. rewrite Hlog. cbn. eexists _, _, _. split_and!; [done|done|eauto|done|done].
  - destruct error as [?|?|?|?|?|?|?|reason]; rewrite ?Hrel; cbn;
      try (eexists _, _, _; split_and!; [done|done|done|done|done]).
    rewrite Hnode. cbn.
    set (job1 := JobInstance.set_rejected _ job).
    destruct (turned_down_Ret job1) as [why Hwhy].
    { intros n w [?|Hin]%elem_of_app; [by eapply Hrej|].
      apply list_elem_of_singleton in Hin as [= -> _]. done. }
    unfold turned_down in *. destruct (foldM _ _ _) as [reasons|]; [|done]. cbn in *.
    eexists _, _, _. split_and!; [done|done| |done|done]. exists (join "; " reasons).
    destruct (could_go_elsewhere pools' _) eqn:E.
    + left. split; [by apply could_go_elsewhere_spec|done].
    + right. split; [|done]. rewrite <-could_go_elsewhere_spec. cbn in *. by rewrite E.
Qed.

(** One launch result, on books that balance with its execution held:
    applying it never panics; a started job is Running and keeps its
    execution; in every other case the execution's resources are back in the
    pool.  An unreachable node leaves the job Queued as it was; a node that
    turns the job down is remembered, and the job fails only when no node it
    has not yet been turned down by could run it, even idle; any other error
    fails it at once. *)
Theorem launch_result_applied now o e pools job held :
  lo_executions o = [e] → (ex_node e < length env_nodes)%nat → is_Some env_home →
  rejections_known job → cluster_accounts pools (ex_held e :: held) →
  ∃ pools' job' written, apply_launch now o pools job = Ret (pools', job', written) ∧
    length pools' = length pools ∧ launch_applied now o e pools' job job' ∧
    cluster_accounts pools' (match lo_result o with Ok _ => [ex_held e] | _ => [] end ++ held) ∧
    (written = false → job' = job).
Proof. apply apply_launch_inv. Qed.

(** What an applied poll leaves of the job and of the cards to test again. *)
Definition poll_applied (now : DateTime) (entry : PollEntry) (requalify requalify' : gset (nat * N))
    (job job' : JobInstance) : Prop :=
  match pe_result entry with
  | Ok PollRunning | Err (Unreachable _) => job' = job ∧ requalify' = requalify
  | Err error =>
      requalify' = requalify ∧
      job' = add_reason ("poll failed: " +:+ ExecutorError_to_string error)
        (failed_job now (JobInstance.set_executions [] job))
  | Ok (PollExited exit_code) =>
      job' = ended_job now (pe_cancelling entry) exit_code (pe_tail entry) job ∧
      ∀ n i, (n, i) ∈ requalify' ↔ (n, i) ∈ requalify ∨
        (exit_code = (-1)%Z ∧ pe_cancelling entry = false ∧
         ∃ e gpu, e ∈ ji_executions job ∧ ex_node e = n ∧ gpu ∈ al_gpus (ex_allocation e) ∧
           ga_index gpu = i)
  end.

Definition still_running (entry : PollEntry) : bool :=
  match pe_result entry with Ok PollRunning | Err (Unreachable _) => true | _ => false end.

Lemma elem_of_cards_of executions n i :
  (n, i) ∈ cards_of executions ↔
  ∃ e gpu, e ∈ executions ∧ ex_node e = n ∧ gpu ∈ al_gpus (ex_allocation e) ∧ ga_index gpu = i.
Proof.
  unfold cards_of. rewrite list_elem_of_bind. setoid_rewrite list_elem_of_fmap. naive_solver.
Qed.

Lemma apply_poll_inv now entry ds job held :
  cluster_accounts (ds_pools ds) (job_held job ++ held) →
  ∃ pools' requalify' job' written,
    apply_poll now entry ds job = Ret (pools', requalify', job', written) ∧
    length pools' = length (ds_pools ds) ∧
    poll_applied now entry (ds_requalify ds) requalify' job job' ∧
    cluster_accounts pools' ((if still_running entry then job_held job else []) ++ held) ∧
    (written = negb (still_running entry)) ∧
    (still_running entry = false → JobState.is_terminal (ji_state job') = true).
Proof.
  intros Hacc. unfold apply_poll, poll_applied, still_running.
  destruct (release_held _ _ _ Hacc) as (pools' & Hrel & Hacc' & Hlen).
  destruct (pe_result entry) as [[|exit_code]|error].
  - eexists _, _, _, _. by split_and!.
  - rewrite Hrel. cbn. eexists _, _, _, _. split_and!; [done|done|done| |done|done|].
    + intros n i. destruct (Z.eqb_spec exit_code (-1)) as [->|Hne]; cbn.
      * destruct (pe_cancelling entry); cbn; [naive_solver|].
        rewrite elem_of_union, elem_of_list_to_set, elem_of_cards_of. naive_solver.
      * naive_solver.
    + intros _. unfold ended_job, ended_state. cbn.
      destruct (pe_cancelling entry); [done|]. by destruct (exit_code =? 0)%Z.
  - destruct error; rewrite ?Hrel; cbn; eexists _, _, _, _; by split_and!.
Qed.

(** One poll result, on books that balance: applying it never panics.  A
    job that runs, or whose node cannot be asked, keeps its state and its
    resources; an ended job's resources are all back in the pools, and it is
    Cancelled when a cancel was under way, Succeeded on exit code 0 and Failed
    otherwise; the cards of a job killed by a signal no cancel sent, and no
    others, are marked for another test. *)
Theorem poll_result_applied now entry ds job held :
  cluster_accounts (ds_pools ds) (job_held job ++ held) →
  ∃ pools' requalify' job' written,
    apply_poll now entry ds job = Ret (pools', requalify', job', written) ∧
    length pools' = length (ds_pools ds) ∧
    poll_applied now entry (ds_requalify ds) requalify' job job' ∧
    cluster_accounts pools' ((if still_running entry then job_held job else []) ++ held) ∧
    (written = negb (still_running entry)) ∧
    (still_running entry = false → JobState.is_terminal (ji_state job') = true).
Proof. apply apply_poll_inv. Qed.

End with_env.

(** ** Cancelling between the snapshot and the poll *)

(** The scheduler judges an exit by the cancelling flag it copied before
    polling: a job killed by a cancel that came between the two ends as
    Failed, not Cancelled, and its cards are sent to another test, although
    the job itself is marked as being cancelled. *)
Theorem late_cancel_fails_job `{DaemonEnv W} now entry ds job pools' :
  ji_cancelling job = true → pe_cancelling entry = false →
  pe_result entry = Ok (PollExited (-1)) →
  release (ds_pools ds) (ji_executions job) = Ret pools' →
  ∃ job', apply_poll now entry ds job
      = Ret (pools', ds_requalify ds ∪ list_to_set (cards_of (ji_executions job)), job', true) ∧
    ji_state job' = JobState.Failed ∧ ji_cancelling job' = true.
Proof.
  intros Hc He Hr Hrel. unfold apply_poll. rewrite Hr, Hrel, He. cbn.
  eexists. split; [done|]. unfold ended_job. cbn. by destruct (ji_reason job).
Qed.

(** ** Witnesses *)

Section demo.
#[local] Existing Instance canonical_order.
#[local] Existing Instance demo_env.

Definition demo_run : WorkflowRun :=
  WorkflowRun.new "run" 0 (demo_spec [demo_job "a" []; demo_job "b" ["a"]]) 0 0%Z.
Definition demo_runs : gmap string WorkflowRun := {["run" := demo_run]}.

Lemma demo_runs_wf : runs_wf demo_runs.
Proof.
  unfold demo_runs. intros k run [<- <-]%lookup_singleton_Some. split; [done|].
  intros j job (i & js & _ & -> & ->)%jobs_of_lookup. done.
Qed.

(** [a] failed. *)
Definition demo_run_failed : WorkflowRun :=
  WorkflowRun.set_jobs (alter (JobInstance.set_state JobState.Failed) "a" (wr_jobs demo_run)) demo_run.
Definition demo_runs_failed : gmap string WorkflowRun := {["run" := demo_run_failed]}.

Lemma demo_runs_failed_wf : runs_wf demo_runs_failed.
Proof.
  unfold demo_runs_failed. intros k run [<- <-]%lookup_singleton_Some. split; [done|]. intros j job.
  change (wr_jobs demo_run_failed) with
    (alter (JobInstance.set_state JobState.Failed) "a" (wr_jobs demo_run)).
  intros [(_ & job0 & H0 & ->)|[_ H0]]%lookup_alter_Some;
    by apply jobs_of_lookup in H0 as (i & js & _ & ? & ->).
Qed.

Lemma queue_ready_exact_witness :
  ∃ run' job', (queue_ready demo_runs).1 !! "run" = Some run' ∧ wr_jobs run' !! "a" = Some job' ∧
    ji_state job' = JobState.Queued.
Proof.
  destruct (queue_ready_exact demo_runs "run" demo_run "a"
    (JobInstance.new (demo_job "a" []) 0) demo_runs_wf eq_refl eq_refl)
    as (run' & job' & Hk & Hj & [(_ & _ & -> & _)|(Hno & _)]).
  - exact (ex_intro _ run' (ex_intro _ _ (conj Hk (conj Hj eq_refl)))).
  - destruct Hno. split; [reflexivity|]. intros d Hd. clear Hk Hj. cbn in Hd.
    destruct (proj1 (elem_of_nil d) Hd).
Defined.

Lemma skip_doomed_exact_witness :
  ∃ run' job', (skip_doomed (λ _ _, 7%Z) demo_runs_failed).1 !! "run" = Some run' ∧
    wr_jobs run' !! "b" = Some job' ∧ ji_state job' = JobState.Skipped.
Proof.
  destruct (skip_doomed_exact (λ _ _, 7%Z) demo_runs_failed "run" demo_run_failed "b"
    (JobInstance.new (demo_job "b" ["a"]) 1) demo_runs_failed_wf eq_refl eq_refl)
    as (run' & job' & Hk & Hj & [(_ & _ & -> & _)|(Hno & _)]).
  - exact (ex_intro _ run' (ex_intro _ _ (conj Hk (conj Hj eq_refl)))).
  - destruct Hno. split; [by left|]. exists "a". split; [by left|].
    eexists. split; [reflexivity|]. by split.
Defined.

(** One CPU of the node is held by an execution. *)
Definition demo_alloc : Allocation := mkAllocation 1 512 [].
Definition demo_execution (handle : option JobHandle) : Execution := mkExecution 0 demo_alloc handle.
Definition demo_pools : list ResourcePool := [ResourcePool.new demo_resources].
Definition demo_held_pools : list ResourcePool :=
  match place demo_pools [true] [ResourceSpec_default] with Ret (_, pools) => pools | Panic => [] end.

Lemma demo_held_accounts : cluster_accounts demo_held_pools [(0%nat, demo_alloc)].
Proof.
  assert (cluster_accounts demo_pools []) as Hacc.
  { split; [|by intros n a ?%elem_of_nil]. intros [|n] p Hn; cbn in Hn; simplify_eq.
    apply accounts_new, (bool_decide_unpack _). vm_compute. exact I. }
  destruct (place_inv demo_pools [true] [ResourceSpec_default] [] Hacc (le_n 1))
    as (r & pools' & E & _ & Hr). vm_compute in E. injection E as <- <-. apply Hr.
Qed.

Definition demo_outcome : LaunchOutcome :=
  mkLaunchOutcome "run" "a" [demo_execution None] (Err (Rejected "no such program")).
Definition demo_queued : JobInstance :=
  JobInstance.set_state JobState.Queued (JobInstance.new (demo_job "a" []) 0).

Lemma launch_result_applied_witness :
  ∃ pools' job' written, apply_launch 9%Z demo_outcome demo_held_pools demo_queued
      = Ret (pools', job', written) ∧ ji_state job' = JobState.Failed ∧ cluster_accounts pools' [].
Proof.
  destruct (launch_result_applied 9%Z demo_outcome (demo_execution None) demo_held_pools demo_queued [])
    as (pools' & job' & written & E & _ & _ & Hacc & _).
  - reflexivity.
  - cbn. lia.
  - by eexists.
  - intros n why Hn. by apply elem_of_nil in Hn.
  - apply demo_held_accounts.
  - exists pools', job', written. split; [exact E|]. split; [|exact Hacc].
    vm_compute in E. injection E as _ <- _. reflexivity.
Defined.

Definition demo_running : JobInstance :=
  JobInstance.set_executions [demo_execution (Some (JobHandle.process 42 None None))]
    (JobInstance.set_state JobState.Running (JobInstance.new (demo_job "a" []) 0)).
Definition demo_entry : PollEntry := mkPollEntry "run" "a" false (Ok (PollExited 0)) None.

Lemma poll_result_applied_witness :
  ∃ pools' requalify' job' written,
    apply_poll 9%Z demo_entry (mkDaemonState demo_runs demo_held_pools ∅) demo_running
      = Ret (pools', requalify', job', written) ∧
    ji_state job' = JobState.Succeeded ∧ cluster_accounts pools' [].
Proof.
  destruct (poll_result_applied 9%Z demo_entry (mkDaemonState demo_runs demo_held_pools ∅)
    demo_running [] demo_held_accounts)
    as (pools' & requalify' & job' & written & E & _ & Hjob & Hacc & _).
  exists pools', requalify', job', written. split; [exact E|]. split; [|exact Hacc].
  destruct Hjob as [-> _]. reflexivity.
Defined.

Definition demo_entry_killed : PollEntry := mkPollEntry "run" "a" false (Ok (PollExited (-1))) None.

Lemma late_cancel_fails_job_witness :
  ∃ pools' requalify' job',
    apply_poll 9%Z demo_entry_killed (mkDaemonState demo_runs demo_held_pools ∅)
      (JobInstance.set_cancelling true demo_running) = Ret (pools', requalify', job', true) ∧
    ji_state job' = JobState.Failed.
Proof.
  destruct (release_held demo_held_pools [demo_execution None] [] demo_held_accounts)
    as (pools' & Hrel & _).
  destruct (late_cancel_fails_job 9%Z demo_entry_killed (mkDaemonState demo_runs demo_held_pools ∅)
    (JobInstance.set_cancelling true demo_running) pools' eq_refl eq_refl eq_refl Hrel)
    as (job' & E & Hs & _).
  by eexists _, _, job'.
Defined.

End demo.
