(* ===== verification/Link.v ===== *)
(** * A job on another node, as the scheduler sees it

    The scheduler's launches and polls ([Scheduler.v]) of a job that runs behind
    a link which loses messages ([Remote.v]): what the link does is never taken
    for something the job did. *)

From S2P Require Import Prelude Spec Pool Placement Handle Model Store Dag Text Health Protocol Executor.
From S2P Require Import Shell Worker Remote Scheduler.

Section link.
Context {W : Type} `{ShellOS W} (debug : Response → string).

Implicit Types (s : Far (W := W)) (p : JobProcess).

Notation launch_over := (@remote_launch Far (far_tunnel debug)).
Notation poll_over := (@remote_poll Far (far_tunnel debug)).

(** The next request gets through and its reply comes back. *)
Definition link_up s : bool :=
  far_online s && match far_connects s with true :: _ => true | _ => false end &&
  match far_fates s with Answered :: _ => true | _ => false end.

(** What the node itself finds when it looks at the process. *)
Definition seen p (w : W) : result (option Z) ExecutorError := (exit_code p w).1.1.

(** What a poll of the node's process is answered, link permitting. *)
Definition told p (w : W) : result PollResult ExecutorError :=
  match seen p w with
  | Ok None => Ok PollRunning
  | Ok (Some code) => Ok (PollExited code)
  | Err error => Err (Remote ("poll failed: " +:+ ExecutorError_to_string error))
  end.

Lemma worker_poll_known run_id job_id ps w p :
  ps !! (run_id, job_id) = Some p →
  worker_poll run_id job_id ps w =
    (match seen p w with
     | Ok code => Response_Polled code
     | Err error => Response_Error ("poll failed: " +:+ ExecutorError_to_string error)
     end, <[(run_id, job_id) := (exit_code p w).1.2]> ps, (exit_code p w).2).
Proof.
  intros Hp. unfold worker_poll, known, seen. rewrite Hp. by destruct (exit_code p w) as [[[?|?] ?] ?].
Qed.

Lemma poll_over_cases s run_id job_id p host_pid r s' :
  far_processes s !! (run_id, job_id) = Some p →
  poll_over (JobHandle.remote host_pid run_id job_id) s = (r, s') →
  (∃ why, r = Err (Unreachable why)) ∨ link_up s = true ∧ r = told p (far_world s).
Proof.
  intros Hp. unfold remote_poll. cbn [key jh_backend JobHandle.remote].
  unfold connect. cbn. destruct s as [ps w [] [|[] connects] fates]; cbn in *; try (intros [= <- <-]; left; by eexists).
  unfold exchange. cbn. unfold far_exchange, far_answer, worker_dispatch. cbn.
  destruct fates as [|[] fates]; cbn; try (intros [= <- <-]; left; by eexists).
  - rewrite (worker_poll_known _ _ _ _ _ Hp). cbn. unfold told.
    destruct (seen p w) as [[code|]|error]; cbn; intros [= <- <-]; by right.
  - destruct (worker_poll _ _ _ _) as [[? ?] ?]. cbn. intros [= <- <-]. left. by eexists.
Qed.

(** ** The scheduler's side *)

Lemma apply_unreachable now entry ds job why :
  pe_result entry = Err (Unreachable why) →
  apply_poll now entry ds job = Ret (ds_pools ds, ds_requalify ds, job, false).
Proof. intros E. unfold apply_poll. by rewrite E. Qed.

Lemma apply_running now entry ds job :
  pe_result entry = Ok PollRunning →
  apply_poll now entry ds job = Ret (ds_pools ds, ds_requalify ds, job, false).
Proof. intros E. unfold apply_poll. by rewrite E. Qed.

(** A launch repeated for a job the node knows. *)
Lemma launch_again s run_id job_id p job placement r s' :
  far_processes s !! (run_id, job_id) = Some p →
  js_id (ji_spec job) = job_id → ji_job_id job = job_id →
  launch_over run_id job placement s = (r, s') →
  far_processes s' = far_processes s ∧ far_world s' = far_world s ∧
  ((∃ pid, r = Ok (JobHandle.remote pid run_id job_id) ∧ (pid = jh_host_pid (jp_handle p) ∨ pid = 0)) ∨
   ∃ why, r = Err (Unreachable why)).
Proof.
  intros Hp Hid Hjob. unfold remote_launch. destruct (@connect _ (far_tunnel debug) s) as [c s1] eqn:E.
  apply connect_far in E as (Eps & Ew & [->|[why ->]]).
  2: { intros [= <- <-]. split_and!; [done|done|]. right. eauto. }
  assert (worker_launch run_id (ji_spec job) placement (far_processes s1) (far_world s1)
          = (Response_Launched (jh_host_pid (jp_handle p)), far_processes s1, far_world s1)) as Hw.
  { unfold worker_launch. by rewrite Eps, Hid, Hp. }
  destruct (@exchange _ _ _ 10 s1) as [x s2] eqn:F. intros [= <- <-].
  apply exchange_far in F as [(why & -> & [[E1 E2]|[resp E1]])|(resp & E1 & ->)]; cbn in E1.
  - rewrite E1, E2. split_and!; [done|done|]. left. exists 0. rewrite Hjob. auto.
  - rewrite Hw in E1. injection E1 as <- <- <-. split_and!; [done|done|]. left. exists 0.
    rewrite Hjob. auto.
  - rewrite Hw in E1. injection E1 as <- <- <-. split_and!; [done|done|]. left.
    eexists. rewrite Hjob. auto.
Qed.

(** C25: Trouble on the link never ends a job its node has, starts it twice or
    changes how it ended.  For a process in the node's table, running or
    ended: whatever is lost, another launch is answered with that process or
    as unreachable and does nothing at the node.  A poll that meets trouble
    (the node marked offline, a refused connection, a lost request or reply) is
    answered as unreachable, and the scheduler that folds it in leaves the job,
    the pools and the cards to test again as they are.  A poll that gets through
    is answered with what the node finds: still running, which the scheduler
    leaves as it is too, or the exit code, once learned always the same, or an
    error of the node's own look at the process.  So the scheduler ends the job
    only on one of these last two.  (A job whose Launch request was lost is not in
    the table; [lost_launch_fails] says what becomes of it.) *)
Theorem link_trouble_is_harmless s run_id job_id p :
  far_processes s !! (run_id, job_id) = Some p →
  (∀ job placement r s', js_id (ji_spec job) = job_id → ji_job_id job = job_id →
     launch_over run_id job placement s = (r, s') →
     far_processes s' = far_processes s ∧ far_world s' = far_world s ∧
     ((∃ pid, r = Ok (JobHandle.remote pid run_id job_id) ∧ (pid = jh_host_pid (jp_handle p) ∨ pid = 0)) ∨
      ∃ why, r = Err (Unreachable why))) ∧
  (∀ host_pid r s', poll_over (JobHandle.remote host_pid run_id job_id) s = (r, s') →
     (if link_up s then r = told p (far_world s) else ∃ why, r = Err (Unreachable why)) ∧
     (∀ code, jp_exit_code p = Some code → r = Ok (PollExited code) ∨ ∃ why, r = Err (Unreachable why)) ∧
     ∀ now entry ds job, pe_result entry = r →
       apply_poll now entry ds job = Ret (ds_pools ds, ds_requalify ds, job, false) ∨
       link_up s = true ∧ ((∃ code, seen p (far_world s) = Ok (Some code)) ∨ ∃ error, seen p (far_world s) = Err error)).
Proof.
  intros Hp. split; [intros job placement r s' Hid Hjob; by apply launch_again|].
  intros host_pid r s' Hpoll.
  assert (if link_up s then r = told p (far_world s) else ∃ why, r = Err (Unreachable why)) as Hr.
  { destruct (poll_over_cases _ _ _ _ _ _ _ Hp Hpoll) as [[why ->]|[-> ->]]; [|done].
    destruct (link_up s) eqn:Hup; [exfalso|by eexists].
    revert Hpoll. destruct s as [ps w [] [|[] connects] [|[] fates]]; try discriminate Hup.
    unfold remote_poll, connect, exchange. cbn. unfold far_exchange, far_answer, worker_dispatch. cbn.
    rewrite (worker_poll_known _ _ _ _ _ Hp). cbn. by destruct (seen p w) as [[code|]|error]. }
  split_and!; [done| |].
  - intros code Hcode. destruct (link_up s); [|by right]. left. rewrite Hr. unfold told, seen, exit_code. by rewrite Hcode.
  - intros now entry ds job Hentry. destruct (link_up s).
    + rewrite Hr in Hentry. unfold told in Hentry. destruct (seen p (far_world s)) as [[code|]|error] eqn:Hs.
      * right. eauto.
      * left. by apply apply_running.
      * right. eauto.
    + left. destruct Hr as [why ->]. by eapply apply_unreachable.
Qed.

(** A job whose Launch request was lost got a handle; the node has nothing of it,
    and the first poll that gets through ends it as Failed. *)
Lemma lost_launch_fails s run_id job_id host_pid r s' :
  far_processes s !! (run_id, job_id) = None → shell_find run_id job_id (far_world s) = None → link_up s = true →
  poll_over (JobHandle.remote host_pid run_id job_id) s = (r, s') →
  r = Err (Remote "unknown execution") ∧
  ∀ now entry ds job pools, pe_result entry = r → release (ds_pools ds) (ji_executions job) = Ret pools →
    ∃ job', apply_poll now entry ds job = Ret (pools, ds_requalify ds, job', true) ∧ ji_state job' = JobState.Failed.
Proof.
  intros Hp Hfind Hup. destruct s as [ps w [] [|[] connects] [|[] fates]]; try discriminate Hup.
  unfold remote_poll, connect, exchange. cbn in *. unfold far_exchange, far_answer, worker_dispatch, worker_poll, known. cbn.
  rewrite Hp, Hfind. cbn. intros [= <- <-]. split; [done|]. intros now entry ds job pools Hentry Hrel.
  unfold apply_poll. rewrite Hentry, Hrel. eexists. split; [done|]. done.
Qed.

End link.

(** ** Witnesses *)

(** A process the node still runs. *)
Definition demo_running : JobProcess := mkJobProcess (JobHandle.process 42 None None) None.

Definition demo_link (connects : list bool) (fates : list fate) : Far (W := N) :=
  mkFar {[("run", "train") := demo_running]} 7 true connects fates.

Definition demo_state : DaemonState := mkDaemonState ∅ [] ∅.

Definition demo_entry (r : result PollResult ExecutorError) : PollEntry := mkPollEntry "run" "train" false r None.

(** Its poll's reply is lost: the scheduler keeps the job as it is. *)
Lemma link_trouble_is_harmless_witness :
  let r := (@remote_poll _ demo_tunnel (JobHandle.remote 42 "run" "train") (demo_link [true] [ReplyLost])).1 in
  r = Err (Unreachable "no reply") ∧
  apply_poll 0%Z (demo_entry r) demo_state demo_remote_job = Ret ([], ∅, demo_remote_job, false).
Proof.
  destruct (@link_trouble_is_harmless N demo_os (λ _, "reply") (demo_link [true] [ReplyLost]) "run" "train" demo_running
    ltac:(reflexivity)) as [_ Hpoll].
  destruct (Hpoll 42 _ _ (surjective_pairing _)) as (_ & _ & Happly). split; [vm_compute; reflexivity|].
  destruct (Happly 0%Z (demo_entry _) demo_state demo_remote_job eq_refl) as [E|[Hup _]]; [exact E|discriminate Hup].
Defined.

(** A poll that gets through finds it running. *)
Example running_is_told :
  (@remote_poll _ demo_tunnel (JobHandle.remote 42 "run" "train") (demo_link [true] [Answered])).1 = Ok PollRunning.
Proof. vm_compute. reflexivity. Qed.

(** Its Launch lost on the way, the job fails at the next poll. *)
Example lost_launch :
  let s := mkFar ∅ 7 true [true] [RequestLost] : Far (W := N) in
  let launched := @remote_launch _ demo_tunnel "run" demo_remote_job (mkAllocation 1 512 []) s in
  let back := mkFar ∅ 7 true [true] [Answered] : Far (W := N) in
  launched.1 = Ok (JobHandle.remote 0 "run" "train") ∧ far_processes launched.2 = ∅ ∧
  (@remote_poll _ demo_tunnel (JobHandle.remote 0 "run" "train") back).1 = Err (Remote "unknown execution").
Proof. vm_compute. done. Qed.
