(* ===== verification/Qualify.v ===== *)
(** * Checking and qualifying cards: [check_gpus] of [src/scheduler/mod.rs]

    Every two seconds the scheduler decides which cards placement may use and
    launches [roster qualify] on idle cards that need a test, holding the
    whole card while it runs.  Like the phases of a tick, each stretch between
    two awaits is one definition.  A monotonic instant is in milliseconds. *)

From S2P Require Import Prelude Spec Pool Placement Handle Model Text Quarantine Health Protocol.
From S2P Require Import Executor Shell Scheduler.

Definition Instant : Type := N.

Definition GPU_BLOCKED_WARN : N := 30 * 1000.
Definition QUALIFY_EVERY : Z := 24 * 60 * 60 * 1000000000.
Definition QUALIFY_TIMEOUT : N := 20 * 60 * 1000.
Definition QUALIFY_SETTLE : N := 60 * 1000.

(** [roster qualify] running as an internal job that holds a whole card. *)
Record Qualification := mkQualification {
  qf_node : nat;
  qf_gpu : N;
  qf_allocation : Allocation;
  qf_handle : JobHandle;
  qf_started : Instant;
}.

(** What one check carries to the next. *)
Record GpuChecks := mkGpuChecks {
  gc_blocked_since : gmap (nat * N) (Instant * bool);
  gc_qualifying : list Qualification;
  gc_last_qualified : gmap (nat * N) Instant;
}.

Definition elapsed (since now : Instant) : N := now - since.

Section with_env.
Context {W : Type} `{DaemonEnv W}.

(** ** Ending qualifications *)

(** Whether one qualification ended; one past its timeout is stopped and
    reported to its node as a failure. *)
Definition finish_one (now : Instant) (q : Qualification) (w : W) : exec ((Qualification * bool) * W) :=
  node ← node_at (qf_node q);
  let '(result, w1) := poll (nd_executor node) (qf_handle q) w in
  match result with
  | Ok PollRunning =>
      if QUALIFY_TIMEOUT <? elapsed (qf_started q) now then
        let '(_, w2) := cancel (nd_executor node) (qf_handle q) w1 in
        let reason := "no result within " +:+ pretty (QUALIFY_TIMEOUT `div` 1000 `div` 60)
          +:+ " minutes" in
        let '(_, w3) := nd_request node (Request_GpuQualified (qf_gpu q) false reason) w2 in
        Ret ((q, true), w3)
      else Ret ((q, false), w1)
  | Err (Unreachable _) => Ret ((q, false), w1)
  | Ok (PollExited _) | Err _ => Ret ((q, true), w1)
  end.

(** Give back the cards of the qualifications that ended. *)
Definition release_ended (ended : list Qualification) (pools : list ResourcePool)
    : exec (list ResourcePool) :=
  foldM (λ pools q, index_mut pools (qf_node q) (ResourcePool.release (qf_allocation q)))
    pools ended.

Definition set_qualifying (l : list Qualification) (checks : GpuChecks) : GpuChecks :=
  mkGpuChecks (gc_blocked_since checks) l (gc_last_qualified checks).

Definition finish_qualifications (now : Instant) (pools : list ResourcePool) (checks : GpuChecks)
    (w : W) : exec ((list ResourcePool * GpuChecks) * W) :=
  r ← each (finish_one now) (gc_qualifying checks) w;
  let '(polled, w') := r in
  let ended := (List.filter snd polled).*1 in
  let kept := (List.filter (λ qb, negb qb.2) polled).*1 in
  pools' ← release_ended ended pools;
  Ret ((pools', set_qualifying kept checks), w').

(** ** Deciding which cards are out of placement *)

(** A node's readings: this machine's now, another's from its last health
    check. *)
Definition node_reading (w : W) (node : Node W) : option (list GpuHealth) :=
  match nd_ssh node with
  | None => Some (read_gpus w)
  | Some _ => ni_gpu_health <$> nd_info node w
  end.

(** A qualification to launch: node, card, whether the card is quarantined
    (a retest), and what was reserved. *)
Record ToQualify := mkToQualify {
  tq_node : nat;
  tq_gpu : GpuInfo;
  tq_retest : bool;
  tq_allocation : Allocation;
}.

(** The instants and times read while the pools are locked, by card, and
    whether the node is still online when the card's turn comes. *)
Record CheckClock := mkCheckClock {
  cc_now : nat → N → Instant;
  cc_utc : nat → N → DateTime;
  cc_online : nat → bool;
  cc_still_online : nat → N → bool;
}.

(** Since when a card is blocked, and whether that was warned about. *)
Definition note_blocked (now : Instant) (k : nat * N) (reason : option string)
    (since : gmap (nat * N) (Instant * bool)) : gmap (nat * N) (Instant * bool) :=
  match reason with
  | Some _ =>
      let '(at_, warned) := default (now, false) (since !! k) in
      <[k := (at_, warned || (GPU_BLOCKED_WARN <=? elapsed at_ now))]> since
  | None => delete k since
  end.

(** An idle card is tested when it is untested since its node started, was
    tested a day ago, or a job on it was killed. *)
Definition due (utc : DateTime) (requalify : gset (nat * N)) (k : nat * N) (h : GpuHealth) : bool :=
  bool_decide (k ∈ requalify) ||
  match gh_tested_at h with None => true | Some tested => (QUALIFY_EVERY <? utc - tested)%Z end.

Definition recent (now : Instant) (last : gmap (nat * N) Instant) (k : nat * N) : bool :=
  match last !! k with Some at_ => elapsed at_ now <? QUALIFY_SETTLE | None => false end.

Definition idle (h : GpuHealth) : bool :=
  negb (GpuHealth.busy h) && match gh_throttled h with [] => true | _ => false end.

(** The state the loop over one node's cards threads through. *)
Record CheckState := mkCheckState {
  cs_pool : ResourcePool;
  cs_blocked_since : gmap (nat * N) (Instant * bool);
  cs_requalify : gset (nat * N);
  cs_to_qualify : list ToQualify;
}.

(** One card: block or unblock it, and reserve it for a test that is due. *)
Definition check_card (cc : CheckClock) (last : gmap (nat * N) Instant) (node : nat)
    (reading : list GpuHealth) (s : CheckState) (gpu : GpuInfo) : exec CheckState :=
  let pool := cs_pool s in
  let health := List.find (λ h, gh_index h =? gi_index gpu) reading in
  free ← index (rp_available_vram_mb pool) (gi_slot gpu);
  let unbooked := free =? gi_vram_mb gpu in
  let reason := health ≫= GpuHealth.blocked unbooked in
  blocked ← index_mut (rp_blocked pool) (gi_slot gpu)
              (λ _, Ret (bool_decide (is_Some reason)));
  let k := (node, gi_index gpu) in
  let pool1 := ResourcePool.set_blocked blocked pool in
  let since := note_blocked (cc_now cc node (gi_index gpu)) k reason (cs_blocked_since s) in
  match health with
  | None => Ret (mkCheckState pool1 since (cs_requalify s) (cs_to_qualify s))
  | Some h =>
      if due (cc_utc cc node (gi_index gpu)) (cs_requalify s) k h
         && negb (recent (cc_now cc node (gi_index gpu)) last k)
         && idle h && cc_still_online cc node (gi_index gpu)
      then
        r ← ResourcePool.reserve_card (gi_index gpu) pool1;
        match r with
        | (Some allocation, pool2) =>
            Ret (mkCheckState pool2 since (cs_requalify s ∖ {[k]})
                   (cs_to_qualify s ++
                      [mkToQualify node gpu (bool_decide (is_Some (gh_quarantined h))) allocation]))
        | (None, pool2) => Ret (mkCheckState pool2 since (cs_requalify s) (cs_to_qualify s))
        end
      else Ret (mkCheckState pool1 since (cs_requalify s) (cs_to_qualify s))
  end.

(** The cluster-wide state of the locked stretch. *)
Record LockedState := mkLockedState {
  ls_pools : list ResourcePool;
  ls_blocked_since : gmap (nat * N) (Instant * bool);
  ls_requalify : gset (nat * N);
  ls_to_qualify : list ToQualify;
}.

(** One node: without a reading, or offline, all its cards wait. *)
Definition check_node (cc : CheckClock) (last : gmap (nat * N) Instant) (s : LockedState)
    (ir : nat * option (list GpuHealth)) : exec LockedState :=
  let '(node, reading) := ir in
  pool ← index (ls_pools s) node;
  match (if cc_online cc node then reading else None) with
  | None =>
      let pool' := ResourcePool.set_blocked (replicate (length (rp_blocked pool)) true) pool in
      Ret (mkLockedState (<[node := pool']> (ls_pools s)) (ls_blocked_since s) (ls_requalify s)
             (ls_to_qualify s))
  | Some reading =>
      c ← foldM (check_card cc last node reading)
            (mkCheckState pool (ls_blocked_since s) (ls_requalify s) (ls_to_qualify s))
            (sr_gpus (rp_total pool));
      Ret (mkLockedState (<[node := cs_pool c]> (ls_pools s)) (cs_blocked_since c)
             (cs_requalify c) (cs_to_qualify c))
  end.

Definition check_pools (cc : CheckClock) (readings : list (option (list GpuHealth)))
    (ds : DaemonState) (checks : GpuChecks) : exec (DaemonState * GpuChecks * list ToQualify) :=
  s ← foldM (check_node cc (gc_last_qualified checks))
        (mkLockedState (ds_pools ds) (gc_blocked_since checks) (ds_requalify ds) [])
        (imap pair readings);
  Ret (mkDaemonState (ds_runs ds) (ls_pools s) (ls_requalify s),
       mkGpuChecks (ls_blocked_since s) (gc_qualifying checks) (gc_last_qualified checks),
       ls_to_qualify s).

(** ** Launching a qualification *)

Definition quoted (s : string) : string := String "034" (s +:+ String "034" "").

(** The command line and the internal job. *)
Definition qualify_command (gpu : GpuInfo) (retest : bool) : string :=
  quoted "$ROSTER_BIN" +:+ " qualify --index " +:+ pretty (gi_index gpu)
  +:+ (if is_empty (gi_uuid gpu) then "" else " --uuid " +:+ gi_uuid gpu)
  +:+ (if retest then " --retest" else "").

Definition start_qualification (uuid : string) (tq : ToQualify) (w : W)
    : exec (option JobHandle * W) :=
  let job := JobInstance.new
    (mkJobSpec ("gpu" +:+ pretty (gi_index (tq_gpu tq)))
       (qualify_command (tq_gpu tq) (tq_retest tq)) [] ResourceSpec_default) 0 in
  node ← node_at (tq_node tq);
  let '(r, w') := launch (nd_executor node) ("qualify-" +:+ uuid) job (tq_allocation tq) w in
  Ret (result_ok r, w').

(** One launch: the qualification is remembered, or its card given back; the
    clock is read before the launch, and again once it returned. *)
Definition qualify_one (now started : Instant) (uuid : string) (tq : ToQualify)
    (pools : list ResourcePool) (checks : GpuChecks) (w : W)
    : exec ((list ResourcePool * GpuChecks) * W) :=
  let last := <[(tq_node tq, gi_index (tq_gpu tq)) := now]> (gc_last_qualified checks) in
  r ← start_qualification uuid tq w;
  match r with
  | (Some handle, w') =>
      let q := mkQualification (tq_node tq) (gi_index (tq_gpu tq)) (tq_allocation tq) handle started in
      Ret ((pools, mkGpuChecks (gc_blocked_since checks) (gc_qualifying checks ++ [q]) last), w')
  | (None, w') =>
      pools' ← index_mut pools (tq_node tq) (ResourcePool.release (tq_allocation tq));
      Ret ((pools', mkGpuChecks (gc_blocked_since checks) (gc_qualifying checks) last), w')
  end.

End with_env.

(** ** The books through a check *)

Definition tq_held (tq : ToQualify) : nat * Allocation := (tq_node tq, tq_allocation tq).
Definition qf_held (q : Qualification) : nat * Allocation := (qf_node q, qf_allocation q).

Lemma set_blocked_alter_length {A} (l l' : list A) i f :
  index_mut l i f = Ret l' → length l' = length l.
Proof. intros (a & a' & _ & _ & ->)%index_mut_Ret. apply length_insert. Qed.

(** One card: never a panic on a well-formed pool; at most a reservation of
    the whole card. *)
Lemma check_card_inv cc last node reading s gpu held :
  accounts (cs_pool s) held → gpu ∈ sr_gpus (rp_total (cs_pool s)) →
  ∃ s' new, check_card cc last node reading s gpu = Ret s' ∧
    cs_to_qualify s' = cs_to_qualify s ++ new ∧
    Forall (λ tq, tq_node tq = node ∧ whole_alloc (rp_total (cs_pool s)) (tq_allocation tq)) new ∧
    rp_total (cs_pool s') = rp_total (cs_pool s) ∧
    accounts (cs_pool s') ((tq_allocation <$> new) ++ held).
Proof.
  intros Hacc Hg. pose proof (acc_wf _ _ Hacc) as Hwf.
  pose proof (inventory_slot _ _ (wf_inventory _ Hwf) Hg) as [Hslot _].
  unfold check_card.
  destruct (lookup_lt_is_Some_2 (rp_available_vram_mb (cs_pool s)) (gi_slot gpu)) as [free Hf].
  { by rewrite (wf_vram_length _ Hwf). }
  destruct (lookup_lt_is_Some_2 (rp_blocked (cs_pool s)) (gi_slot gpu)) as [b Hb].
  { by rewrite (wf_blocked_length _ Hwf). }
  unfold index_mut, index. rewrite Hf. cbn [mbind exec_bind]. rewrite Hb. cbn [mbind exec_bind].
  set (blocked := <[gi_slot gpu := _]> (rp_blocked (cs_pool s))).
  assert (accounts (ResourcePool.set_blocked blocked (cs_pool s)) held) as Hacc1.
  { apply accounts_set_blocked; [done|]. apply length_insert. }
  destruct (List.find _ reading) as [h|].
  2: { eexists _, []. rewrite app_nil_r. by split_and!. }
  destruct (_ && cc_still_online cc node (gi_index gpu)).
  2: { eexists _, []. rewrite app_nil_r. by split_and!. }
  destruct (reserve_card_total (ResourcePool.set_blocked blocked (cs_pool s)) (gi_index gpu)
    (acc_wf _ _ Hacc1)) as (r & p' & Hr). rewrite Hr. cbn [mbind exec_bind].
  destruct r as [a|].
  - eexists _, [_]. split_and!; [done|done| | |].
    + apply Forall_singleton. split; [done|]. apply (accounts_reserve_card _ _ _ _ _ Hacc1 Hr).
    + apply reserve_card_Ret in Hr as [[? _]|(g & _ & _ & _ & _ & _ & ->)]; done.
    + apply (accounts_reserve_card _ _ _ _ _ Hacc1 Hr).
  - eexists _, []. rewrite app_nil_r.
    apply reserve_card_Ret in Hr as [[_ ->]|(g & _ & _ & _ & _ & ? & _)]; [|done].
    by split_and!.
Qed.

Lemma check_cards_inv cc last node reading s gpus held :
  accounts (cs_pool s) held → (∀ g, g ∈ gpus → g ∈ sr_gpus (rp_total (cs_pool s))) →
  ∃ s' new, foldM (check_card cc last node reading) s gpus = Ret s' ∧
    cs_to_qualify s' = cs_to_qualify s ++ new ∧
    Forall (λ tq, tq_node tq = node ∧ whole_alloc (rp_total (cs_pool s)) (tq_allocation tq)) new ∧
    rp_total (cs_pool s') = rp_total (cs_pool s) ∧
    accounts (cs_pool s') ((tq_allocation <$> new) ++ held).
Proof.
  revert s held. induction gpus as [|g gpus IH]; intros s held Hacc Hg.
  { exists s, []. rewrite app_nil_r. by split_and!. }
  destruct (check_card_inv cc last node reading s g held Hacc) as (s1 & new1 & E1 & Q1 & N1 & T1 & A1).
  { apply Hg. by left. }
  destruct (IH s1 _ A1) as (s2 & new2 & E2 & Q2 & N2 & T2 & A2).
  { intros g' Hg'. rewrite T1. apply Hg. by right. }
  exists s2, (new1 ++ new2). cbn. rewrite E1. cbn. split_and!.
  - done.
  - by rewrite Q2, Q1, app_assoc.
  - rewrite T1 in N2. by apply Forall_app.
  - by rewrite T2.
  - rewrite fmap_app, <-app_assoc. by rewrite (Permutation_app_swap_app (tq_allocation <$> new1)).
Qed.

Lemma on_node_new (P : ToQualify → Prop) node new held m :
  Forall (λ tq, tq_node tq = node ∧ P tq) new →
  on_node m ((tq_held <$> new) ++ held)
  = (if decide (m = node) then tq_allocation <$> new else []) ++ on_node m held.
Proof.
  induction 1 as [|tq new [Hn _] _ IH]; cbn [fmap list_fmap app].
  - by destruct (decide (m = node)).
  - unfold tq_held at 1. rewrite on_node_cons, IH, Hn.
    destruct (decide (m = node)) as [->|Hm]; [by rewrite decide_True|by rewrite decide_False].
Qed.

Lemma check_node_inv cc last s node reading held :
  cluster_accounts (ls_pools s) held → (node < length (ls_pools s))%nat →
  ∃ s' new, check_node cc last s (node, reading) = Ret s' ∧
    ls_to_qualify s' = ls_to_qualify s ++ new ∧
    length (ls_pools s') = length (ls_pools s) ∧
    cluster_accounts (ls_pools s') ((tq_held <$> new) ++ held).
Proof.
  intros Hacc [p Hp]%lookup_lt_is_Some_2. unfold check_node, index. rewrite Hp. cbn [mbind exec_bind].
  pose proof (ca_pool _ _ Hacc _ _ Hp) as Hpool.
  destruct (if cc_online cc node then reading else None) as [readings|].
  - destruct (check_cards_inv cc last node readings
      (mkCheckState p (ls_blocked_since s) (ls_requalify s) (ls_to_qualify s))
      (sr_gpus (rp_total p)) _ Hpool) as (s' & new & -> & Q & N & T & A); [done|].
    eexists _, new. cbn. split_and!; [done|done|apply length_insert|].
    eapply cluster_update; [exact Hacc|exact Hp| |exact T| |].
    + by rewrite (on_node_new _ _ _ _ _ N), decide_True.
    + intros m Hm. by rewrite (on_node_new _ _ _ _ _ N), decide_False.
    + intros m a [(tq & [= -> ->] & Hin)%list_elem_of_fmap|Hin]%elem_of_app.
      * rewrite Forall_forall in N. right. by apply N.
      * by left.
  - eexists _, []. cbn. rewrite app_nil_r. split_and!; [done|done|apply length_insert|].
    eapply cluster_update; [exact Hacc|exact Hp| |done|done|by left].
    apply accounts_set_blocked; [done|by rewrite length_replicate].
Qed.

Lemma check_nodes_inv cc last irs s held :
  cluster_accounts (ls_pools s) held → (∀ ir, ir ∈ irs → (ir.1 < length (ls_pools s))%nat) →
  ∃ s' new, foldM (check_node cc last) s irs = Ret s' ∧
    ls_to_qualify s' = ls_to_qualify s ++ new ∧
    length (ls_pools s') = length (ls_pools s) ∧
    cluster_accounts (ls_pools s') ((tq_held <$> new) ++ held).
Proof.
  revert s held. induction irs as [|[node reading] irs IH]; intros s held Hacc Hlt.
  { exists s, []. rewrite app_nil_r. by split_and!. }
  destruct (check_node_inv cc last s node reading held Hacc) as (s1 & new1 & E1 & Q1 & L1 & A1).
  { apply (Hlt (node, reading)). by left. }
  destruct (IH s1 _ A1) as (s2 & new2 & E2 & Q2 & L2 & A2).
  { intros ir Hir. rewrite L1. apply Hlt. by right. }
  exists s2, (new1 ++ new2). cbn [foldM]. rewrite E1. cbn [mbind exec_bind]. split_and!.
  - done.
  - by rewrite Q2, Q1, app_assoc.
  - by rewrite L2.
  - rewrite fmap_app, <-app_assoc. by rewrite (Permutation_app_swap_app (tq_held <$> new1)).
Qed.

Lemma check_pools_inv cc readings ds checks held :
  cluster_accounts (ds_pools ds) held → (length readings ≤ length (ds_pools ds))%nat →
  ∃ ds' checks' new, check_pools cc readings ds checks = Ret (ds', checks', new) ∧
    ds_runs ds' = ds_runs ds ∧ gc_qualifying checks' = gc_qualifying checks ∧
    length (ds_pools ds') = length (ds_pools ds) ∧
    cluster_accounts (ds_pools ds') ((tq_held <$> new) ++ held).
Proof.
  intros Hacc Hlen. unfold check_pools.
  destruct (check_nodes_inv cc (gc_last_qualified checks) (imap pair readings)
    (mkLockedState (ds_pools ds) (gc_blocked_since checks) (ds_requalify ds) []) held Hacc)
    as (s & new & -> & Q & L & A).
  { intros [i r] Hin. apply elem_of_lookup_imap in Hin as (j & x & [= -> ->] & Hj).
    apply lookup_lt_Some in Hj. cbn. lia. }
  eexists _, _, new. cbn. by rewrite Q.
Qed.

Lemma release_ended_inv ended pools held :
  cluster_accounts pools ((qf_held <$> ended) ++ held) →
  ∃ pools', release_ended ended pools = Ret pools' ∧ cluster_accounts pools' held ∧
    length pools' = length pools.
Proof.
  intros Hacc. destruct (cluster_release_all pools (qf_held <$> ended) held Hacc)
    as (pools' & E & A & S). exists pools'. split_and!; [|done|].
  - rewrite <-E. unfold release_ended, release_all. clear.
    revert pools. induction ended as [|q l IH]; intros pools; [done|]. cbn.
    destruct (index_mut pools (qf_node q) _); cbn; [apply IH|done].
  - symmetry. by eapply Forall2_length.
Qed.
