(* ===== verification/Tasks.v ===== *)
(** * The work a scheduler phase has in flight

    What the collecting stretches of [Scheduler.v] hand to the awaiting ones:
    each job at most once, in a state the scheduler alone can move it out of,
    with the resources reserved for it on the books. *)

From S2P Require Import Prelude Spec Pool Placement Handle Model Text Health Protocol Executor.
From S2P Require Import Scheduler.

(** A job's name among all runs. *)
Notation job_name := (string * string)%type.

Section with_order.
Context `{HashOrder}.

(** ** Every job, in the order the phases visit them *)

Definition all_jobs (runs : gmap string WorkflowRun) : list (WorkflowRun * JobInstance) :=
  run ← hm_values runs; pair run <$> hm_values (wr_jobs run).

Definition name_of (rj : WorkflowRun * JobInstance) : job_name :=
  (wr_run_id rj.1, ji_job_id rj.2).

Lemma elem_of_all_jobs runs run job :
  (run, job) ∈ all_jobs runs ↔ ∃ k j, runs !! k = Some run ∧ wr_jobs run !! j = Some job.
Proof.
  unfold all_jobs. rewrite list_elem_of_bind. split.
  - intros (run' & Hin & Hrun). apply elem_of_hm_values in Hrun as [k Hk].
    apply list_elem_of_fmap in Hin as (job' & [= -> ->] & Hj).
    apply elem_of_hm_values in Hj as [j Hj]. by exists k, j.
  - intros (k & j & Hk & Hj). exists run. split.
    + apply list_elem_of_fmap. exists job. split; [done|]. apply elem_of_hm_values. by exists j.
    + apply elem_of_hm_values. by exists k.
Qed.

Lemma all_jobs_lookup runs run job :
  runs_wf runs → (run, job) ∈ all_jobs runs →
  runs !! wr_run_id run = Some run ∧ wr_jobs run !! ji_job_id job = Some job.
Proof.
  intros Hwf (k & j & Hk & Hj)%elem_of_all_jobs. destruct (Hwf _ _ Hk) as [-> Hrun].
  by rewrite (Hrun _ _ Hj).
Qed.

Lemma NoDup_hm_values_by {A} (f : A → string) (m : gmap string A) :
  (∀ k a, m !! k = Some a → f a = k) → NoDup (f <$> hm_values m).
Proof.
  intros Hf. assert (f <$> hm_values m = hm_keys m) as ->; [|apply NoDup_hm_keys].
  unfold hm_keys, hm_values. rewrite <-list_fmap_compose. apply list_fmap_ext.
  intros i [k a] Hi. apply list_elem_of_lookup_2, elem_of_hm_iter in Hi. by apply Hf.
Qed.

Lemma NoDup_names runs : runs_wf runs → NoDup (name_of <$> all_jobs runs).
Proof.
  intros Hwf. unfold all_jobs. rewrite fmap_bind. apply NoDup_bind.
  - intros r1 r2 [k j] [k1 Hr1]%elem_of_hm_values [k2 Hr2]%elem_of_hm_values.
    cbn. rewrite <-!list_fmap_compose. intros (j1 & [= -> ->] & _)%list_elem_of_fmap.
    intros (j2 & [= Hk _] & _)%list_elem_of_fmap.
    rewrite (proj1 (Hwf _ _ Hr1)), (proj1 (Hwf _ _ Hr2)) in Hk. congruence.
  - intros run [k Hk]%elem_of_hm_values. cbn. rewrite <-list_fmap_compose.
    apply (NoDup_fmap_1 snd). rewrite <-list_fmap_compose.
    apply (NoDup_hm_values_by ji_job_id). by apply (Hwf _ _ Hk).
  - apply (NoDup_fmap_1 wr_run_id), NoDup_hm_values_by. intros k run Hk. by apply (Hwf _ _ Hk).
Qed.

(** ** Reserving *)

Definition task_held (t : AdmitTask) : list (nat * Allocation) := at_placement t.
Definition task_name (t : AdmitTask) : job_name := (at_run_id t, ji_job_id (at_job_instance t)).
Definition tasks_held (tasks : list AdmitTask) : list (nat * Allocation) := tasks ≫= task_held.

Lemma reserve_queued_flat runs online pools :
  reserve_queued runs online pools
  = foldM (λ acc rj, reserve_job online (wr_run_id rj.1) acc rj.2) (pools, []) (all_jobs runs).
Proof.
  unfold reserve_queued, all_jobs. generalize (pools, @nil AdmitTask).
  induction (hm_values runs) as [|run l IH]; intros acc; [done|].
  cbn. rewrite foldM_app.
  assert (∀ l acc, foldM (λ acc rj, reserve_job online (wr_run_id rj.1) acc rj.2) acc (pair run <$> l)
    = foldM (reserve_job online (wr_run_id run)) acc l) as ->.
  { clear. induction l as [|job l IH]; intros acc; [done|]. cbn.
    destruct (reserve_job _ _ _ _); cbn; [apply IH|done]. }
  destruct (foldM _ acc _); cbn; [apply IH|done].
Qed.

(** A task is the launch of a queued job on one online node that has not
    turned it down. *)
Definition task_ok (online : list bool) (rj : WorkflowRun * JobInstance) (t : AdmitTask) : Prop :=
  at_run_id t = wr_run_id rj.1 ∧ at_job_instance t = rj.2 ∧ ji_state rj.2 = JobState.Queued ∧
  ∃ n a, at_placement t = [(n, a)] ∧ online !! n = Some true ∧
    JobInstance.rejected_by n rj.2 = false.

Lemma reserve_job_inv online rj pools tasks held :
  cluster_accounts pools (tasks_held tasks ++ held) → (length pools ≤ length online)%nat →
  ∃ pools' new, reserve_job online (wr_run_id rj.1) (pools, tasks) rj.2 = Ret (pools', tasks ++ new) ∧
    length pools' = length pools ∧ cluster_accounts pools' (tasks_held (tasks ++ new) ++ held) ∧
    (new = [] ∨ ∃ t, new = [t] ∧ task_ok online rj t).
Proof.
  intros Hacc Hlen. destruct rj as [run job]. unfold reserve_job. cbn [fst snd].
  destruct (is_queued (ji_state job)) eqn:Hq.
  2: { exists pools, []. rewrite app_nil_r. split_and!; try done. by left. }
  set (usable := imap _ online).
  destruct (place_inv pools usable [js_resources (ji_spec job)] _ Hacc) as (r & pools' & -> & Hs & Hr).
  { unfold usable. by rewrite length_imap. }
  cbn. destruct r as [placed|].
  - destruct Hr as (Hacc' & Hl & Hok). destruct placed as [|[n a] [|]]; [done| |done].
    exists pools', [mkAdmitTask (wr_run_id run) job [(n, a)]]. split_and!; [done| | |].
    + symmetry. by eapply Forall2_length.
    + unfold tasks_held. rewrite bind_app. cbn. rewrite <-app_assoc. cbn.
      by rewrite <-Permutation_middle.
    + right. eexists. split; [done|]. split_and!; [done|done|cbn; by destruct (ji_state job)|].
      exists n, a. split; [done|]. apply Forall_singleton in Hok as [Hon _]. cbn in Hon.
      unfold usable in Hon. rewrite list_lookup_imap in Hon.
      destruct (online !! n) as [up|]; cbn in Hon; [|done]. injection Hon as Hon.
      apply andb_true_iff in Hon as [-> Hrej]. split; [done|]. by apply negb_true_iff.
  - subst pools'. exists pools, []. rewrite app_nil_r. split_and!; try done. by left.
Qed.

Lemma reserve_jobs_inv online rjs pools tasks held :
  cluster_accounts pools (tasks_held tasks ++ held) → (length pools ≤ length online)%nat →
  ∃ pools' new, foldM (λ acc rj, reserve_job online (wr_run_id rj.1) acc rj.2) (pools, tasks) rjs
      = Ret (pools', tasks ++ new) ∧
    length pools' = length pools ∧ cluster_accounts pools' (tasks_held (tasks ++ new) ++ held) ∧
    ∃ served, served `sublist_of` rjs ∧ Forall2 (task_ok online) served new.
Proof.
  revert pools tasks. induction rjs as [|rj rjs IH]; intros pools tasks Hacc Hlen.
  { exists pools, []. rewrite app_nil_r. split_and!; [done..|]. exists []. by split; constructor. }
  destruct (reserve_job_inv online rj pools tasks held Hacc Hlen) as (p1 & n1 & E1 & L1 & A1 & N1).
  destruct (IH p1 (tasks ++ n1) A1) as (p2 & n2 & E2 & L2 & A2 & served & S2 & F2); [by rewrite L1|].
  exists p2, (n1 ++ n2). cbn [foldM]. rewrite E1. cbn [mbind exec_bind]. rewrite app_assoc.
  split_and!; [done|by rewrite L2|done|].
  destruct N1 as [->|(t & -> & Ht)].
  - exists served. split; [by constructor|done].
  - exists (rj :: served). split; by constructor.
Qed.

(** What the tasks of one reservation are. *)
Lemma tasks_queued runs online tasks :
  runs_wf runs →
  (∃ served, served `sublist_of` all_jobs runs ∧ Forall2 (task_ok online) served tasks) →
  NoDup (task_name <$> tasks) ∧
  ∀ t, t ∈ tasks → ∃ run job n a,
    runs !! at_run_id t = Some run ∧ wr_jobs run !! ji_job_id job = Some job ∧
    at_job_instance t = job ∧ ji_state job = JobState.Queued ∧
    at_placement t = [(n, a)] ∧ online !! n = Some true ∧
    JobInstance.rejected_by n job = false.
Proof.
  intros Hwf (served & Hsub & Hok). split.
  - assert (task_name <$> tasks = name_of <$> served) as ->.
    { clear -Hok. induction Hok as [|rj t rjs ts (Hr & Hj & _) _ IH]; [done|]. rewrite !fmap_cons, IH.
      unfold task_name, name_of. by rewrite Hr, Hj. }
    eapply sublist_NoDup; [by apply NoDup_names|by apply fmap_sublist].
  - intros t Ht. apply list_elem_of_lookup in Ht as [i Ht].
    destruct (Forall2_lookup_r _ _ _ _ _ Hok Ht) as ([run job] & Hi & Hr & Hj & Hq & n & a & ? & ? & ?).
    apply list_elem_of_lookup_2 in Hi. pose proof (elem_of_sublist _ _ _ Hi Hsub) as Hin.
    destruct (all_jobs_lookup _ _ _ Hwf Hin) as [Hrun Hjob].
    exists run, job, n, a. rewrite Hr. by split_and!.
Qed.

(** Reserving for the queued jobs never panics, keeps the books balanced
    with the tasks' reservations added, and hands out at most one task per
    job: each for a job that is Queued, on one online node that has not
    turned the job down. *)
Theorem reserve_queued_tasks runs online pools held :
  runs_wf runs → cluster_accounts pools held → (length pools ≤ length online)%nat →
  ∃ pools' tasks, reserve_queued runs online pools = Ret (pools', tasks) ∧
    length pools' = length pools ∧ cluster_accounts pools' (tasks_held tasks ++ held) ∧
    NoDup (task_name <$> tasks) ∧
    ∀ t, t ∈ tasks → ∃ run job n a,
      runs !! at_run_id t = Some run ∧ wr_jobs run !! ji_job_id job = Some job ∧
      at_job_instance t = job ∧ ji_state job = JobState.Queued ∧
      at_placement t = [(n, a)] ∧ online !! n = Some true ∧
      JobInstance.rejected_by n job = false.
Proof.
  intros Hwf Hacc Hlen. rewrite reserve_queued_flat.
  destruct (reserve_jobs_inv online (all_jobs runs) pools [] held Hacc Hlen)
    as (pools' & tasks & -> & L & A & Htasks).
  destruct (tasks_queued _ _ _ Hwf Htasks). by exists pools', tasks.
Qed.

(** ** Launching *)

Section with_env.
Context {W : Type} `{DaemonEnv W}.

Lemma launch_task_inv t n a (w : W) :
  at_placement t = [(n, a)] → (n < length env_nodes)%nat →
  ∃ o w' handle, launch_task t w = Ret (o, w') ∧
    lo_run_id o = at_run_id t ∧ lo_job_id o = ji_job_id (at_job_instance t) ∧
    lo_executions o = [mkExecution n a handle] ∧
    (lo_result o = Ok tt ∧ is_Some handle ∨ (∃ e, lo_result o = Err e) ∧ handle = None).
Proof.
  intros Hp Hn. unfold launch_task. rewrite Hp. cbn.
  destruct (node_at_lt n Hn) as [node ->]. cbn.
  destruct (launch (nd_executor node) _ _ _ _) as [[handle|error] w']; cbn.
  - eexists _, _, (Some handle). split_and!; [done..|]. by left.
  - eexists _, _, None. split_and!; [done..|]. right. eauto.
Qed.

End with_env.

(** ** Collecting the running jobs *)

Definition rj_name (r : RunningJob) : job_name := (rj_run_id r, rj_job_id r).

Lemma collect_running_spec runs :
  runs_wf runs →
  NoDup (rj_name <$> collect_running runs) ∧
  ∀ r, r ∈ collect_running runs ↔ ∃ run job e,
    runs !! rj_run_id r = Some run ∧ wr_jobs run !! rj_job_id r = Some job ∧
    ji_state job = JobState.Running ∧ head (ji_executions job) = Some e ∧
    ex_node e = rj_node r ∧ ex_handle e = Some (rj_handle r) ∧
    rj_cancelling r = ji_cancelling job.
Proof.
  intros Hwf. split.
  - eapply sublist_NoDup; [by apply (NoDup_names runs)|].
    unfold collect_running, all_jobs. rewrite !fmap_bind.
    induction (hm_values runs) as [|run l IH]; [constructor|]. cbn. apply sublist_app; [|done].
    clear. induction (hm_values (wr_jobs run)) as [|job l IH]; [constructor|]. cbn.
    destruct (is_running (ji_state job)); [|by constructor]. cbn.
    destruct (running_job run job) as [r|] eqn:E; cbn; [|by constructor].
    assert (rj_name r = name_of (run, job)) as ->; [|by constructor].
    unfold running_job in E. destruct (head _) as [e|]; [|done]. cbn in E.
    destruct (ex_handle e); [|done]. cbn in E. by simplify_eq.
  - intros r. unfold collect_running. rewrite list_elem_of_bind. split.
    + intros (run & Hr & [k Hk]%elem_of_hm_values). destruct (Hwf _ _ Hk) as [Hid Hrun].
      apply list_elem_of_omap in Hr as (job & Hj & Hr).
      apply list_elem_of_In, filter_In in Hj as [Hj Hrunning].
      apply list_elem_of_In, elem_of_hm_values in Hj as [j Hj].
      unfold running_job in Hr. destruct (head _) as [e|] eqn:Ee; [|done]. cbn in Hr.
      destruct (ex_handle e) as [h|] eqn:Eh; [|done]. cbn in Hr. injection Hr as <-. cbn.
      exists run, job, e. rewrite Hid, (Hrun _ _ Hj). split_and!; try done.
      by destruct (ji_state job).
    + intros (run & job & e & Hk & Hj & Hs & He & Hn & Hh & Hc).
      destruct (Hwf _ _ Hk) as [Hid Hrun]. exists run. split.
      * apply list_elem_of_omap. exists job. split.
        -- apply list_elem_of_In, filter_In. rewrite Hs. split; [|done].
           apply list_elem_of_In, elem_of_hm_values. eauto.
        -- unfold running_job. rewrite He. cbn. rewrite Hh. cbn.
           rewrite Hid, (Hrun _ _ Hj), Hn, <-Hc. by destruct r.
      * apply elem_of_hm_values. eauto.
Qed.

End with_order.

(** ** Witness *)

Definition demo_queued_runs : gmap string WorkflowRun :=
  (@queue_ready canonical_order demo_runs).1.

Lemma demo_pools_accounts : cluster_accounts demo_pools [].
Proof.
  split; [|by intros n a ?%elem_of_nil]. intros [|n] p Hn; cbn in Hn; simplify_eq.
  apply accounts_new, (bool_decide_unpack _). vm_compute. exact I.
Qed.

Lemma demo_queued_runs_wf : runs_wf demo_queued_runs.
Proof.
  unfold demo_queued_runs. rewrite queue_ready_mark.
  destruct (@mark_runs canonical_order (λ _ _, JobInstance.set_state JobState.Queued) ready demo_runs
    demo_runs_wf) as [Hlook _].
  intros k run. rewrite Hlook. destruct (demo_runs !! k) as [run0|] eqn:Hk; [|done]. intros [= <-].
  destruct (demo_runs_wf _ _ Hk) as [Hid Hrun]. split; [done|].
  intros j job. cbn. rewrite map_lookup_imap.
  destruct (wr_jobs run0 !! j) as [job0|] eqn:Hj; [|done]. intros [= <-].
  destruct (ready _ job0); by apply Hrun in Hj.
Qed.

Lemma reserve_queued_tasks_witness :
  ∃ pools' tasks, @reserve_queued canonical_order demo_queued_runs [true] demo_pools
      = Ret (pools', tasks) ∧
    length tasks = 1%nat ∧ cluster_accounts pools' (tasks_held tasks).
Proof.
  destruct (@reserve_queued_tasks canonical_order demo_queued_runs [true] demo_pools []
    demo_queued_runs_wf demo_pools_accounts (le_n 1))
    as (pools' & tasks & E & _ & Hacc & _). rewrite app_nil_r in Hacc.
  exists pools', tasks. split; [exact E|]. split; [|exact Hacc].
  vm_compute in E. injection E as _ <-. reflexivity.
Defined.
