(* ===== verification/Server.v ===== *)
(** * Submitting and cancelling: [src/ipc/server.rs]

    The request handlers that change the daemon's state.  Parsing the YAML
    and drawing the run id are parameters: [serde_yaml] and [uuid]. *)

From S2P Require Import Prelude Spec Pool Placement Handle Model Dag Text Health Protocol Executor.
From S2P Require Import Shell Scheduler.

(** [state.run_counter] and [state.job_counter]. *)
Record Counters := mkCounters { ct_run : N; ct_job : N }.

(** [{:?}] of a [ResourceSpec]. *)
Definition ResourceSpec_debug (r : ResourceSpec) : string :=
  "ResourceSpec { cpu: " +:+ pretty (rs_cpu r) +:+ ", memory_mb: " +:+ pretty (rs_memory_mb r)
  +:+ ", gpu: " +:+ pretty (rs_gpu r) +:+ ", vram_mb: " +:+ pretty (rs_vram_mb r) +:+ " }".

(** The first job that could never fit on any node. *)
Definition fits_somewhere (pools : list ResourcePool) (job : JobSpec) : bool :=
  existsb (λ pool, existsb (λ option, ResourcePool.could_fit option pool)
    (gpu_options (js_resources job))) pools.

Definition first_unfit (pools : list ResourcePool) (jobs : list JobSpec) : option JobSpec :=
  List.find (λ job, negb (fits_somewhere pools job)) jobs.

Section with_order.
Context `{HashOrder}.
Context {W : Type} `{DaemonEnv W}.

(** What a submission reads besides its text: the parser, a fresh id, the
    time. *)
Record SubmitEnv := mkSubmitEnv {
  se_parse : string → result WorkflowSpec string;
  se_run_id : string;
  se_now : DateTime;
}.

Definition handle_submit (env : SubmitEnv) (spec_yaml : string) (counters : Counters)
    (ds : DaemonState) (w : W) : option (exec (Response * Counters * DaemonState * W)) :=
  match se_parse env spec_yaml with
  | Err error => Some (Ret (Response_Error ("yaml parse error: " +:+ error), counters, ds, w))
  | Ok spec =>
      match validate spec with
      | None => None
      | Some Panic => Some Panic
      | Some (Ret (Err error)) =>
          Some (Ret (Response_Error ("dag validate error: " +:+ DagError_to_string error),
                     counters, ds, w))
      | Some (Ret (Ok _)) =>
          match first_unfit (ds_pools ds) (ws_jobs spec) with
          | Some job =>
              Some (Ret (Response_Error ("job '" +:+ js_id job +:+ "' does not fit on any node: "
                           +:+ ResourceSpec_debug (js_resources job)), counters, ds, w))
          | None =>
              let run_id := se_run_id env in
              let run := WorkflowRun.new run_id (ct_run counters) spec (ct_job counters)
                           (se_now env) in
              let w1 := upsert_run run w in
              let w2 := foldl (λ w job, upsert_job run_id job None w) w1
                          (hm_values (wr_jobs run)) in
              Some (Ret (Response_Submitted run_id,
                         mkCounters (fetch_add (ct_run counters) 1)
                           (fetch_add (ct_job counters) (N.of_nat (length (ws_jobs spec)))),
                         set_runs (<[run_id := run]> (ds_runs ds)) ds, w2))
          end
      end
  end.

(** [Cancel], under the lock: every running job is marked, and its handles
    collected. *)
Definition cancel_job (job : JobInstance) : JobInstance * list (nat * JobHandle) :=
  if is_running (ji_state job) then
    (JobInstance.set_cancelling true job,
     omap (λ e, pair (ex_node e) <$> ex_handle e) (ji_executions job))
  else (job, []).

Definition mark_cancelling (run : WorkflowRun) : WorkflowRun * list (nat * JobHandle) :=
  let r := values_mut cancel_job (wr_jobs run) in
  (WorkflowRun.set_jobs r.1 run, r.2).

(** ... and, outside the lock, each execution is cancelled through its node. *)
Definition cancel_one (w : W) (nh : nat * JobHandle) : exec W :=
  node ← node_at nh.1;
  Ret (cancel (nd_executor node) nh.2 w).2.

Definition handle_cancel (run_id : string) (ds : DaemonState) (w : W)
    : exec (Response * DaemonState * W) :=
  match ds_runs ds !! run_id with
  | None =>
      Ret (Response_Error ("run '" +:+ run_id +:+ "' not found or not active"), ds, w)
  | Some run =>
      let '(run', handles) := mark_cancelling run in
      w' ← foldM cancel_one w handles;
      Ret (Response_Cancelled run_id, set_runs (<[run_id := run']> (ds_runs ds)) ds, w')
  end.

(** ** What an accepted submission is *)

Lemma first_unfit_None pools jobs :
  first_unfit pools jobs = None ↔ ∀ job, job ∈ jobs → fits_somewhere pools job = true.
Proof.
  unfold first_unfit. split.
  - intros Hf job Hin. apply list_elem_of_In in Hin.
    pose proof (List.find_none _ _ Hf _ Hin) as Hn. by apply negb_false_iff in Hn.
  - intros Hall. destruct (List.find _ jobs) as [job|] eqn:E; [|done].
    apply List.find_some in E as [Hin Hn]. apply list_elem_of_In in Hin.
    by rewrite (Hall _ Hin) in Hn.
Qed.

Lemma fits_somewhere_spec pools job :
  fits_somewhere pools job = true ↔
  ∃ node pool option, pools !! node = Some pool ∧ option ∈ gpu_options (js_resources job) ∧
    ResourcePool.could_fit option pool = true.
Proof.
  unfold fits_somewhere. rewrite existsb_exists. split.
  - intros (pool & Hp & Ho). apply existsb_exists in Ho as (o & Ho & Hf).
    apply list_elem_of_In, list_elem_of_lookup in Hp as [node Hp].
    exists node, pool, o. by rewrite list_elem_of_In.
  - intros (node & pool & o & Hp & Ho & Hf). exists pool. split.
    + by eapply list_elem_of_In, list_elem_of_lookup_2.
    + apply existsb_exists. exists o. by rewrite <-list_elem_of_In.
Qed.

(** The parsed workflow of a submission that is accepted. *)
Definition acceptable (pools : list ResourcePool) (parsed : result WorkflowSpec string)
    (spec : WorkflowSpec) : Prop :=
  parsed = Ok spec ∧ valid_workflow spec ∧
  ∀ job, job ∈ ws_jobs spec → ∃ node pool option,
    pools !! node = Some pool ∧ option ∈ gpu_options (js_resources job) ∧
    ResourcePool.could_fit option pool = true.

(** A run as submitted: one pending job per declared job, under its id. *)
Definition fresh_run (env : SubmitEnv) (counters : Counters) (spec : WorkflowSpec)
    (run : WorkflowRun) : Prop :=
  wr_run_id run = se_run_id env ∧ wr_spec run = spec ∧ wr_created_at run = se_now env ∧
  (∀ i job, ws_jobs spec !! i = Some job →
     wr_jobs run !! js_id job = Some (JobInstance.new job (ct_job counters + N.of_nat i))) ∧
  (∀ k job, wr_jobs run !! k = Some job →
     k ∈ ids spec ∧ ji_state job = JobState.Pending ∧ ji_executions job = []).

Lemma fresh_run_new env counters spec :
  NoDup (ids spec) →
  fresh_run env counters spec
    (WorkflowRun.new (se_run_id env) (ct_run counters) spec (ct_job counters) (se_now env)).
Proof.
  intros Hnd. split_and!; [done..| |].
  - intros i job Hi. by apply jobs_of_lookup_unique.
  - intros k job (i & js & Hi & -> & ->)%jobs_of_lookup. split_and!; [|done..].
    apply list_elem_of_fmap_2. by eapply list_elem_of_lookup_2.
Qed.

(** A submission is answered and leaves the pools and checks alone. *)
Lemma submit_accepts_cases env spec_yaml counters ds (w : W) :
  ∃ response counters' ds' w',
    handle_submit env spec_yaml counters ds w = Some (Ret (response, counters', ds', w')) ∧
    ds_pools ds' = ds_pools ds ∧ ds_requalify ds' = ds_requalify ds.
Proof.
  unfold handle_submit. destruct (se_parse env spec_yaml) as [spec|error].
  2: { by eexists _, _, _, _. }
  destruct (validate_cases spec) as [[-> _]|(e & -> & _)].
  2: { by eexists _, _, _, _. }
  destruct (first_unfit (ds_pools ds) (ws_jobs spec)); by eexists _, _, _, _.
Qed.

(** C19: A submission is always answered.  It is accepted exactly when its text
    parses to a valid workflow each of whose jobs could run on some node once
    idle; the daemon then has the new run, every job Pending under its own id
    and nothing else changed.  A rejected one leaves the daemon, its counters
    and its store untouched. *)
Theorem submit_accepts_exactly env spec_yaml counters ds (w : W) :
  ∃ response counters' ds' w',
    handle_submit env spec_yaml counters ds w = Some (Ret (response, counters', ds', w')) ∧
    ((∃ spec run, acceptable (ds_pools ds) (se_parse env spec_yaml) spec ∧
        response = Response_Submitted (se_run_id env) ∧ fresh_run env counters spec run ∧
        ds' = mkDaemonState (<[se_run_id env := run]> (ds_runs ds)) (ds_pools ds)
                (ds_requalify ds)) ∨
     (∃ message, response = Response_Error message ∧ counters' = counters ∧ ds' = ds ∧ w' = w ∧
        ¬ ∃ spec, acceptable (ds_pools ds) (se_parse env spec_yaml) spec)).
Proof.
  unfold handle_submit, acceptable.
  destruct (se_parse env spec_yaml) as [spec|error].
  2: { eexists _, _, _, _. split; [reflexivity|]. right. eexists. split_and!; [done..|].
       by intros (? & ? & _). }
  destruct (validate_cases spec) as [[-> Hvalid]|(e & -> & Hrej)].
  2: { eexists _, _, _, _. split; [reflexivity|]. right. eexists. split_and!; [done..|].
       intros (? & [= <-] & Hv & _). by apply (rejected_not_valid _ _ Hrej). }
  destruct (first_unfit (ds_pools ds) (ws_jobs spec)) as [job|] eqn:Hfit.
  - eexists _, _, _, _. split; [reflexivity|]. right. eexists. split_and!; [done..|].
    intros (? & [= <-] & _ & Hall). apply List.find_some in Hfit as [Hin Hn].
    apply list_elem_of_In, Hall, fits_somewhere_spec in Hin. by rewrite Hin in Hn.
  - eexists _, _, _, _. split; [reflexivity|]. left. eexists spec, _. split_and!.
    + done.
    + done.
    + intros job Hin. apply fits_somewhere_spec. by apply (proj1 (first_unfit_None _ _) Hfit).
    + done.
    + apply fresh_run_new, Hvalid.
    + done.
Qed.

(** A cancel marks exactly the run's Running jobs and stops each of their
    executions through the node it runs on, once; it touches no job that is
    still Pending or Queued. *)
Theorem cancel_marks_running (run : WorkflowRun) :
  let '(run', handles) := mark_cancelling run in
  (∀ j job, wr_jobs run !! j = Some job →
     wr_jobs run' !! j = Some (if decide (ji_state job = JobState.Running)
                               then JobInstance.set_cancelling true job else job)) ∧
  (∀ j, is_Some (wr_jobs run' !! j) → is_Some (wr_jobs run !! j)) ∧
  handles ≡ₚ (kj ← map_to_list (wr_jobs run);
    if decide (ji_state kj.2 = JobState.Running)
    then omap (λ e, pair (ex_node e) <$> ex_handle e) (ji_executions kj.2) else []).
Proof.
  unfold mark_cancelling. rewrite values_mut_fst, values_mut_snd. cbn. split_and!.
  - intros j job Hj. rewrite lookup_fmap, Hj. cbn. unfold cancel_job. by destruct (ji_state job).
  - intros j. rewrite lookup_fmap. by destruct (wr_jobs run !! j).
  - rewrite <-flat_map_concat_map, hm_iter_perm.
    apply reflexive_eq. generalize (map_to_list (wr_jobs run)). intros l.
    induction l as [|[k job] l IH]; [done|]. cbn. rewrite IH. f_equal.
    unfold cancel_job. by destruct (ji_state job).
Qed.

End with_order.
