(* ===== verification/Requests.v ===== *)
(** * Connections and the read-only requests: [src/ipc/server.rs], [src/ipc/client.rs]

    One request travels as one line of JSON each way.  [dispatch] is the whole
    of a daemon's behaviour towards its clients: the handlers of [Server.v]
    and [Worker.v], and the ones here that answer from the store, the nodes'
    records and the GPU monitor. *)

From S2P Require Import Prelude Spec Pool Placement Handle Model Store Dag Text Quarantine Health.
From S2P Require Import Protocol Executor Ledger Shell Worker Remote Node Scheduler Server.

(** ** Lines *)

(** What [exchange] writes, and what [write_response] writes. *)
Definition request_line `{Serde Request} (request : Request) : string := to_json request +:+ newline.
Definition response_line `{Serde Response} (response : Response) : string := to_json response +:+ newline.

(** [read_line]: up to the next newline, which is part of the line. *)
Fixpoint read_line (stream : string) : string :=
  match stream with
  | "" => ""
  | String c rest => if Ascii.eqb c "010" then String c "" else String c (read_line rest)
  end.

(** The outcome of reading a line within 5 s. *)
Inductive LineRead := Elapsed | IoError (error : string) | Line (line : string).

(** [json_error] is serde's message. *)
Definition read_request `{Serde Request} (json_error : string → string) (r : LineRead)
    : result Request string :=
  match r with
  | Elapsed => Err "read timeout"
  | IoError error => Err ("io error: " +:+ error)
  | Line "" => Err "client disconnected"
  | Line line =>
      match from_json (trim line) with
      | Some request => Ok request
      | None => Err ("deserialization error: " +:+ json_error (trim line))
      end
  end.

(** The answer to [exchange]'s request line, once written and flushed. *)
Definition read_response `{Serde Response} (json_error : string → string) (r : result string string)
    : result Response string :=
  match r with
  | Err error => Err error
  | Ok line =>
      match from_json (trim line) with
      | Some response => Ok response
      | None => Err (json_error (trim line))
      end
  end.

(** ** The daemon *)

(** What the handlers share besides the scheduler's state. *)
Record Daemon := mkDaemon {
  dm_ds : DaemonState;
  dm_counters : Counters;
  dm_processes : Processes;         (* the worker's *)
  dm_quarantines : Quarantines.t;   (* the GPU monitor's *)
  dm_fs : FileSystem;               (* where quarantines are saved *)
}.

Definition set_ds (ds : DaemonState) (d : Daemon) : Daemon :=
  mkDaemon ds (dm_counters d) (dm_processes d) (dm_quarantines d) (dm_fs d).
Definition set_counters (c : Counters) (d : Daemon) : Daemon :=
  mkDaemon (dm_ds d) c (dm_processes d) (dm_quarantines d) (dm_fs d).
Definition set_processes (ps : Processes) (d : Daemon) : Daemon :=
  mkDaemon (dm_ds d) (dm_counters d) ps (dm_quarantines d) (dm_fs d).
Definition set_quarantines (q : Quarantines.t) (fs : FileSystem) (d : Daemon) : Daemon :=
  mkDaemon (dm_ds d) (dm_counters d) (dm_processes d) q fs.

(** What a handler reads from outside: the store (a query may fail), each
    node's health record, NVML, and the process itself. *)
Class ServerEnv (W : Type) : Type := {
  srv_db : W → result RunStore string;
  srv_db_later : W → result RunStore string;  (* at a second query *)
  srv_health : nat → W → Node.Health;
  srv_device : W → N → option Device;
  srv_pid : N;
  srv_socket : string;
  srv_now : W → DateTime;
  srv_later : W → DateTime;    (* the clock, read once more *)
  srv_save : W → SaveOutcome;  (* how far saving the quarantines gets *)
}.

(** How much of a log [roster logs] prints. *)
Definition LOG_BYTES : N := 2 ^ 20.

Section requests.
Context `{HashOrder} {W : Type} `{DaemonEnv W} `{ShellOS W} `{ServerEnv W}.
Context `{Serde (gmap string Quarantine)}.

Definition db_error (error : string) : Response := Response_Error ("db error: " +:+ error).

(** The stored path names the node that ran the job. *)
Fixpoint log_node (nodes : list (Node W)) (run_id job_id path : string) : exec (option (Node W)) :=
  match nodes with
  | [] => Ret None
  | node :: nodes' =>
      log ← log_path node run_id job_id;
      if String.eqb log path then Ret (Some node) else log_node nodes' run_id job_id path
  end.

(** A job's log, read by the node that ran it. *)
Definition handle_logs (run_id job_id : string) (w : W) : exec (Response * W) :=
  match srv_db w with
  | Err error => Ret (db_error error, w)
  | Ok db =>
      match List.find (λ j, String.eqb (jr_job_id j) job_id) (list_jobs run_id db) with
      | None => Ret (Response_Error ("job '" +:+ job_id +:+ "' not found in run '" +:+ run_id +:+ "'"), w)
      | Some job =>
          match jr_log_path job with
          | None => Ret (Response_Error "log not available yet", w)
          | Some path =>
              node ← log_node env_nodes run_id job_id path;
              match node with
              | None => Ret (Response_Error ("the node that ran it is no longer in nodes.yaml; its log was " +:+ path), w)
              | Some node =>
                  let '(r, w') := tail (nd_executor node) run_id job_id LOG_BYTES w in
                  Ret (match r with
                       | Ok text => Response_Log text
                       | Err error => Response_Error ("can't read the log on " +:+ nd_name node +:+ ": "
                                        +:+ ExecutorError_to_string error)
                       end, w')
              end
          end
      end
  end.

(** The running jobs of every run. *)
Definition running_jobs (runs : gmap string WorkflowRun) : list JobInstance :=
  List.filter (λ job, is_running (ji_state job)) (hm_values runs ≫= λ run, hm_values (wr_jobs run)).

Definition gpu_health (d : Daemon) (w : W) : list GpuHealth :=
  GpuMonitor.read (srv_device w) (dm_quarantines d) (sr_gpus env_resources).

Definition handle_info (d : Daemon) (w : W) : Response * Daemon * W :=
  let controlled := length (running_jobs (ds_runs (dm_ds d))) in
  let '(running, ps, w') := worker_running (dm_processes d) w in
  (Response_Info (mkNodeInfo VERSION srv_pid srv_socket (controlled + running)%nat os_scopes
     env_resources (gpu_health d w')), set_processes ps d, w').

(** One node as this daemon sees it: its last health check, the jobs placed
    there, what is free there. *)
Definition node_status (d : Daemon) (w : W) (index : nat) (node : Node W) : exec NodeStatus :=
  let health := srv_health index w in
  let readings := match nd_ssh node with
                  | None => gpu_health d w
                  | Some _ => default [] (ni_gpu_health <$> h_info health)
                  end in
  let placed := List.filter (λ job, existsb (λ e, Nat.eqb (ex_node e) index) (ji_executions job))
                  (running_jobs (ds_runs (dm_ds d))) in
  pool ← Prelude.index (ds_pools (dm_ds d)) index;
  Ret (mkNodeStatus (nd_name node) (nd_ssh node) (is_online (h_state health))
    (NodeState_to_string (h_state health)) (h_since health) (length placed) (rp_total pool)
    (rp_available_cpu pool) (rp_available_memory_mb pool) (rp_available_vram_mb pool) readings).

Fixpoint node_statuses (d : Daemon) (w : W) (index : nat) (nodes : list (Node W)) : exec (list NodeStatus) :=
  match nodes with
  | [] => Ret []
  | node :: nodes' =>
      status ← node_status d w index node;
      rest ← node_statuses d w (S index) nodes';
      Ret (status :: rest)
  end.

Definition handle_nodes (d : Daemon) (w : W) : exec Response :=
  statuses ← node_statuses d w 0 env_nodes; Ret (Response_Nodes statuses).

Definition no_gpu (gpu : N) : Response := Response_Error ("no GPU " +:+ pretty gpu +:+ " on this machine").

Definition card (gpu : N) : option GpuInfo :=
  List.find (λ card, gi_index card =? gpu) (sr_gpus env_resources).

(** A card of this machine put back in service. *)
Definition clear_local (gpu : N) (d : Daemon) (w : W) : Response * Daemon :=
  match card gpu with
  | Some card =>
      let '(q, fs) := GpuMonitor.clear (srv_save w) card (srv_now w) (dm_quarantines d) (dm_fs d) in
      (Response_GpuCleared, set_quarantines q fs d)
  | None => (no_gpu gpu, d)
  end.

(** [roster gpu clear NODE GPU]: a card of this machine, or passed on. *)
Definition handle_clear_gpu (node : option string) (gpu : N) (d : Daemon) (w : W) : Response * Daemon * W :=
  match node with
  | None => (clear_local gpu d w, w)
  | Some name =>
      match List.find (λ candidate, String.eqb (nd_name candidate) name) env_nodes with
      | None => (Response_Error ("no node '" +:+ name +:+ "', see `roster node ls`"), d, w)
      | Some target =>
          match nd_socket target with
          | None => (clear_local gpu d w, w)
          | Some _ =>
              let '(r, w') := nd_request target (Request_ClearGpu None gpu) w in
              (match r with
               | Ok response => response
               | Err error => Response_Error ("node '" +:+ name +:+ "': " +:+ error)
               end, d, w')
          end
      end
  end.

Definition handle_gpu_qualified (gpu : N) (passed : bool) (reason : string) (d : Daemon) (w : W)
    : Response * Daemon :=
  match card gpu with
  | Some card =>
      let '(q, fs) := GpuMonitor.record_test (srv_save w) card passed reason (srv_now w) (srv_later w)
                        (dm_quarantines d) (dm_fs d) in
      (Response_Recorded, set_quarantines q fs d)
  | None => (no_gpu gpu, d)
  end.

Definition summary (row : RunRow) : RunSummary :=
  mkRunSummary (rr_run_id row) (rr_workflow_name row) (rr_status row).

Definition handle_ps (w : W) : Response :=
  match srv_db w with
  | Err error => db_error error
  | Ok db => Response_PsResult (summary <$> list_runs db)
  end.

Definition job_detail (j : JobRow) : JobDetail :=
  mkJobDetail (jr_job_id j) (jr_state j) (jr_exit_code j) (jr_started_at j) (jr_ended_at j)
    (jr_log_path j) (jr_reason j).

(** Two queries; the second may fail on its own, or see what was written since. *)
Definition handle_status (run_id : string) (w : W) : Response :=
  match srv_db w with
  | Err error => db_error error
  | Ok db =>
      match get_run run_id db with
      | None => Response_Error ("run '" +:+ run_id +:+ "' not found")
      | Some row =>
          match srv_db_later w with
          | Err error => db_error error
          | Ok db =>
              Response_StatusResult (mkRunDetail (rr_run_id row) (rr_workflow_name row) (rr_status row)
                (rr_created_at row) (job_detail <$> list_jobs run_id db))
          end
      end
  end.

(** Dispatch a parsed request to its handler; [env] is what a submission
    reads.  [None] is the validation's fuel. *)
Definition dispatch (env : SubmitEnv) (request : Request) (d : Daemon) (w : W)
    : option (exec (Response * Daemon * W)) :=
  match request with
  | Request_Ping => Some (Ret (Response_Pong, d, w))
  | Request_Submit spec_yaml =>
      r ← handle_submit env spec_yaml (dm_counters d) (dm_ds d) w;
      Some ('(response, counters, ds, w') ← r; Ret (response, set_ds ds (set_counters counters d), w'))
  | Request_Ps => Some (Ret (handle_ps w, d, w))
  | Request_Status run_id => Some (Ret (handle_status run_id w, d, w))
  | Request_Logs run_id job_id => Some ('(response, w') ← handle_logs run_id job_id w; Ret (response, d, w'))
  | Request_Info => Some (Ret (handle_info d w))
  | Request_Nodes => Some (response ← handle_nodes d w; Ret (response, d, w))
  | Request_ClearGpu node gpu => Some (Ret (handle_clear_gpu node gpu d w))
  | Request_GpuQualified gpu passed reason => Some (Ret (handle_gpu_qualified gpu passed reason d w, w))
  | Request_Launch run_id job allocation =>
      let '(response, ps, w') := worker_launch run_id job allocation (dm_processes d) w in
      Some (Ret (response, set_processes ps d, w'))
  | Request_Poll run_id job_id =>
      let '(response, ps, w') := worker_poll run_id job_id (dm_processes d) w in
      Some (Ret (response, set_processes ps d, w'))
  | Request_Kill run_id job_id =>
      let '(response, ps, w') := worker_kill run_id job_id (dm_processes d) w in
      Some (Ret (response, set_processes ps d, w'))
  | Request_LogTail run_id job_id bytes =>
      let '(response, w') := worker_tail run_id job_id bytes w in Some (Ret (response, d, w'))
  | Request_Cancel run_id =>
      Some ('(response, ds, w') ← handle_cancel run_id (dm_ds d) w; Ret (response, set_ds ds d, w'))
  end.

(** One connection: the response line, if it serialises. *)
Definition handle_connection `{Serde Request} `{Serde Response} (json_error : string → string)
    (env : SubmitEnv) (r : LineRead) (d : Daemon) (w : W) : option (exec (string * Daemon * W)) :=
  match read_request json_error r with
  | Ok request =>
      answer ← dispatch env request d w;
      Some ('(response, d', w') ← answer; Ret (response_line response, d', w'))
  | Err message => Some (Ret (response_line (Response_Error message), d, w))
  end.

End requests.

(** ** One line each way *)

(** JSON text as serde writes it: no line break, and a bracket or a quote at
    each end. *)
Definition compact (text : string) : Prop :=
  "010"%char ∉ chars text ∧
  ∃ a z, head (chars text) = Some a ∧ last (chars text) = Some z ∧ solid a = true ∧ solid z = true.

Lemma read_line_written text rest :
  "010"%char ∉ chars text → read_line (text +:+ (newline +:+ rest)) = text +:+ newline.
Proof.
  induction text as [|c text IH]; intros Hn; [done|]. cbn in Hn. apply not_elem_of_cons in Hn as [Hc Hn].
  change (String c text +:+ newline +:+ rest) with (String c (text +:+ newline +:+ rest)).
  change (String c text +:+ newline) with (String c (text +:+ newline)). cbn [read_line].
  destruct (Ascii.eqb_spec c "010"); [done|]. by rewrite IH.
Qed.

(** C29: What a client sends is what the daemon reads, and its answer is what the
    client reads: one line carries the value's JSON whole, whatever its size and
    whatever follows it on the stream, given that serde's text is compact and
    parses back.  (protocol.rs says messages are limited to 1 MB and that the
    server enforces it; neither end does, see [oversized_request_read].) *)
Theorem wire_roundtrip `{Serde Request} `{Serde Response} (json_error : string → string)
    (request : Request) (response : Response) (rest : string) :
  compact (to_json request) → from_json (to_json request) = Some request →
  compact (to_json response) → from_json (to_json response) = Some response →
  read_request json_error (Line (read_line (request_line request +:+ rest))) = Ok request ∧
  read_response json_error (Ok (read_line (response_line response +:+ rest))) = Ok response.
Proof.
  intros (Hn & a & z & Ha & Hz & Hsa & Hsz) Hq (Hn' & a' & z' & Ha' & Hz' & Hsa' & Hsz') Hr.
  unfold request_line, response_line. rewrite !string_app_assoc.
  rewrite !read_line_written by done. split.
  - unfold read_request. destruct (to_json request +:+ newline) as [|c s] eqn:E.
    { destruct (to_json request); done. }
    rewrite <-E, (trim_solid_line _ a z) by done. by rewrite Hq.
  - unfold read_response. rewrite (trim_solid_line _ a' z') by done. by rewrite Hr.
Qed.

(** A request of any size is read: nothing on the daemon's side looks at its
    length. *)
Theorem oversized_request_read `{Serde Request} (json_error : string → string) (request : Request) (n : N) :
  n < N.of_nat (String.length (to_json request)) →
  compact (to_json request) → from_json (to_json request) = Some request →
  n < N.of_nat (String.length (request_line request)) ∧
  read_request json_error (Line (request_line request)) = Ok request.
Proof.
  intros Hn (_ & a & z & Ha & Hz & Hsa & Hsz) Hq. unfold request_line. split.
  - rewrite length_string_app. lia.
  - unfold read_request. destruct (to_json request +:+ newline) as [|c s] eqn:E; [by destruct (to_json request)|].
    by rewrite <-E, (trim_solid_line _ a z), Hq by done.
Qed.

(** ** The store behind the scheduler's writes *)

Section properties.
Context `{HashOrder} {W : Type} `{DaemonEnv W} `{ShellOS W} `{ServerEnv W}.
Context `{Serde (gmap string Quarantine)}.

Lemma clear_local_frame gpu d w :
  let d' := (clear_local gpu d w).2 in
  dm_ds d' = dm_ds d ∧ dm_counters d' = dm_counters d ∧ dm_processes d' = dm_processes d.
Proof.
  unfold clear_local. destruct (card gpu) as [c|]; [|done].
  by destruct (GpuMonitor.clear (srv_save w) c (srv_now w) (dm_quarantines d) (dm_fs d)).
Qed.

Lemma handle_clear_gpu_frame node gpu d w :
  let d' := (handle_clear_gpu node gpu d w).1.2 in
  dm_ds d' = dm_ds d ∧ dm_counters d' = dm_counters d ∧ dm_processes d' = dm_processes d.
Proof.
  unfold handle_clear_gpu. destruct node as [name|]; [|apply clear_local_frame].
  destruct (List.find _ env_nodes) as [target|]; [|done].
  destruct (nd_socket target); [|apply clear_local_frame]. by destruct (nd_request _ _ _).
Qed.

Lemma handle_gpu_qualified_frame gpu passed reason d w :
  let d' := (handle_gpu_qualified gpu passed reason d w).2 in
  dm_ds d' = dm_ds d ∧ dm_counters d' = dm_counters d ∧ dm_processes d' = dm_processes d.
Proof.
  unfold handle_gpu_qualified. destruct (card gpu) as [c|]; [|done].
  by destruct (GpuMonitor.record_test (srv_save w) c passed reason (srv_now w) (srv_later w) (dm_quarantines d) (dm_fs d)).
Qed.

(** A request changes no more than it is for.  Only Submit and Cancel touch
    the runs, only Submit the counters, none of them the pools; only the
    worker's own requests and Info's head count touch its processes, and only
    the GPU requests the quarantines. *)
Theorem requests_stay_in_their_part (env : SubmitEnv) (request : Request) (d d' : Daemon) (w w' : W)
    (response : Response) :
  dispatch env request d w = Some (Ret (response, d', w')) →
  ds_pools (dm_ds d') = ds_pools (dm_ds d) ∧ ds_requalify (dm_ds d') = ds_requalify (dm_ds d) ∧
  (match request with Request_Submit _ | Request_Cancel _ => True | _ => dm_ds d' = dm_ds d end) ∧
  (match request with Request_Submit _ => True | _ => dm_counters d' = dm_counters d end) ∧
  (match request with
   | Request_Launch _ _ _ | Request_Poll _ _ | Request_Kill _ _ | Request_Info => True
   | _ => dm_processes d' = dm_processes d
   end) ∧
  (match request with
   | Request_ClearGpu _ _ | Request_GpuQualified _ _ _ => True
   | _ => dm_quarantines d' = dm_quarantines d ∧ dm_fs d' = dm_fs d
   end).
Proof.
  destruct request; cbn [dispatch]; try (by intros [= _ <- _]).
  - destruct (submit_accepts_cases env spec_yaml (dm_counters d) (dm_ds d) w)
      as (r & c & ds & w1 & E & Hp & Hq). rewrite E. cbn. intros [= _ <- _]. cbn. by rewrite Hp, Hq.
  - intros [= E]. apply bind_Ret_inv in E as ([? ?] & _ & [= _ <- _]). done.
  - unfold handle_cancel. destruct (ds_runs (dm_ds d) !! run_id) as [run|]; cbn.
    + destruct (mark_cancelling run) as [run' handles]. intros [= E].
      apply bind_Ret_inv in E as ([[? ds] ?] & E & [= _ <- _]).
      apply bind_Ret_inv in E as (? & _ & [= _ <- _]). done.
    + intros [= _ <- _]. by destruct d as [[]].
  - intros [= E]. revert E. unfold handle_info. destruct (worker_running _ _) as [[? ?] ?].
    by intros [= _ <- _].
  - intros [= E]. apply bind_Ret_inv in E as (? & _ & [= _ <- _]). done.
  - intros [= E]. pose proof (handle_clear_gpu_frame node gpu d w) as (F & Fc & Fp).
    rewrite E in F, Fc, Fp. cbn in F, Fc, Fp. by rewrite F, Fc, Fp.
  - intros [= E <-]. pose proof (handle_gpu_qualified_frame gpu_index passed reason d w) as (F & Fc & Fp).
    rewrite E in F, Fc, Fp. cbn in F, Fc, Fp. by rewrite F, Fc, Fp.
  - destruct (worker_launch _ _ _ _ _) as [[? ?] ?]. by intros [= _ <- _].
  - destruct (worker_poll _ _ _ _) as [[? ?] ?]. by intros [= _ <- _].
  - destruct (worker_kill _ _ _ _) as [[? ?] ?]. by intros [= _ <- _].
Qed.

Context `{Rfc3339} `{Serde WorkflowSpec} `{Serde Allocation} `{!StoreBacked W}.

Lemma sb_upserts `{!WritesLand W} run l w :
  sb_db (foldl (λ w job, upsert_job (wr_run_id run) job None w) w l) =
  foldl (λ db job, upsert_job_row (wr_run_id run) job None db) (sb_db w) l.
Proof.
  revert w. induction l as [|job l IH]; intros w; [done|]. cbn. by rewrite IH, sb_upsert_job.
Qed.

(** Each of the writes may fail: a row is as it was, or one of the jobs'. *)
Lemma sb_upserts_some run l w :
  let db' := sb_db (foldl (λ w job, upsert_job (wr_run_id run) job None w) w l) in
  db_runs db' = db_runs (sb_db w) ∧
  (∀ id j, id ≠ wr_run_id run → db_jobs db' !! (id, j) = db_jobs (sb_db w) !! (id, j)) ∧
  ∀ j, db_jobs db' !! (wr_run_id run, j) = db_jobs (sb_db w) !! (wr_run_id run, j) ∨
    ∃ job, job ∈ l ∧ ji_job_id job = j ∧ db_jobs db' !! (wr_run_id run, j) = Some (job_record job None).
Proof.
  cbn zeta. revert w. induction l as [|job l IH]; intros w; [split_and!; [done..|by left]|]. cbn.
  destruct (IH (upsert_job (wr_run_id run) job None w)) as (Hr & Hother & Hj). rewrite Hr. clear IH.
  rewrite sb_write_job in *. destruct (sb_job_lands _ _ _ _).
  - split_and!; [done| |].
    + intros id j Hid. rewrite Hother by done. cbn. rewrite lookup_insert_ne; congruence.
    + intros j. destruct (Hj j) as [->|(job' & Hin & Hid & ->)]; [|right; exists job'; split_and!; [by right|done..]].
      cbn. destruct (decide (ji_job_id job = j)) as [<-|Hne].
      * right. exists job. rewrite lookup_insert_eq. split_and!; [by left|done..].
      * left. rewrite lookup_insert_ne; congruence.
  - split_and!; [done|done|]. intros j.
    destruct (Hj j) as [->|(job' & Hin & Hid & ->)]; [by left|right; exists job'; split_and!; [by right|done..]].
Qed.

(** Rows of another run. *)
Lemma upserts_other run l db :
  let db' := foldl (λ db job, upsert_job_row (wr_run_id run) job None db) db l in
  db_runs db' = db_runs db ∧
  ∀ id j, id ≠ wr_run_id run → db_jobs db' !! (id, j) = db_jobs db !! (id, j).
Proof.
  cbn zeta. revert db. induction l as [|job l IH]; intros db; [done|]. cbn.
  destruct (IH (upsert_job_row (wr_run_id run) job None db)) as [-> Hj]. split; [done|].
  intros id j Hid. rewrite Hj by done. cbn. rewrite lookup_insert_ne; congruence.
Qed.

(** What a submission does: nothing, or it writes a run's row and its jobs'
    one after the other and puts the run into memory. *)
Lemma submission_upserts env spec_yaml counters counters' ds ds' (w w' : W) response :
  handle_submit env spec_yaml counters ds w = Some (Ret (response, counters', ds', w')) →
  (ds' = ds ∧ w' = w ∧ ∃ message, response = Response_Error message) ∨
  ∃ spec, valid_workflow spec ∧ first_unfit (ds_pools ds) (ws_jobs spec) = None ∧
    response = Response_Submitted (se_run_id env) ∧
    let run := WorkflowRun.new (se_run_id env) (ct_run counters) spec (ct_job counters) (se_now env) in
    ds' = set_runs (<[se_run_id env := run]> (ds_runs ds)) ds ∧
    w' = foldl (λ w job, upsert_job (wr_run_id run) job None w) (upsert_run run w) (hm_values (wr_jobs run)).
Proof.
  unfold handle_submit. destruct (se_parse env spec_yaml) as [spec|error].
  2: { intros [= <- _ <- <-]. left. eauto. }
  destruct (validate_cases spec) as [[-> Hvalid]|(e & -> & _)].
  2: { intros [= <- _ <- <-]. left. eauto. }
  destruct (first_unfit _ _) eqn:Hfit; [intros [= <- _ <- <-]; left; eauto|].
  intros [= <- _ <- Hw]. right. exists spec. by split_and!.
Qed.

(** In the store, when every write lands. *)
Lemma submission_writes `{!WritesLand W} env spec_yaml counters counters' ds ds' w w' response :
  handle_submit env spec_yaml counters ds w = Some (Ret (response, counters', ds', w')) →
  (ds' = ds ∧ w' = w ∧ ∃ message, response = Response_Error message) ∨
  ∃ spec, valid_workflow spec ∧ response = Response_Submitted (se_run_id env) ∧
    let run := WorkflowRun.new (se_run_id env) (ct_run counters) spec (ct_job counters) (se_now env) in
    ds' = set_runs (<[se_run_id env := run]> (ds_runs ds)) ds ∧
    sb_db w' = foldl (λ db job, upsert_job_row (wr_run_id run) job None db)
      (upsert_run_row run (sb_db w)) (hm_values (wr_jobs run)).
Proof.
  intros [?|(spec & Hv & _ & Hr & Hds & ->)]%submission_upserts; [by left|]. right. exists spec.
  split_and!; [done..|]. by rewrite sb_upserts, sb_upsert_run.
Qed.

(** A fresh run's rows, once written to a store that had none of its id. *)
Lemma fresh_persisted run_id run_seq spec start now db :
  let run := WorkflowRun.new run_id run_seq spec start now in
  (∀ j, db_jobs db !! (run_id, j) = None) →
  persisted (λ _, None) run (foldl (λ db job, upsert_job_row (wr_run_id run) job None db)
    (upsert_run_row run db) (hm_values (wr_jobs run))).
Proof.
  intros run Hnone. apply (persisted_upserts (λ _, None)); [|done].
  by intros j job (i & js & _ & -> & ->)%jobs_of_lookup.
Qed.

(** C27: An accepted submission is stored before it is answered, as far as its
    writes go through.  The handler ignores their errors and answers Submitted
    all the same; whatever fails, each row of the run is missing or is what the
    run in memory says - its own row, or a job's with that job just Pending - no
    row of another run changes, and when every write lands the run is stored
    whole, so that [roster status] shows it and a restart takes it back. *)
Theorem submission_is_stored (env : SubmitEnv) (spec_yaml : string) (counters counters' : Counters)
    (ds ds' : DaemonState) (w w' : W) (run_id : string) :
  handle_submit env spec_yaml counters ds w = Some (Ret (Response_Submitted run_id, counters', ds', w')) →
  db_runs (sb_db w) !! run_id = None → (∀ j, db_jobs (sb_db w) !! (run_id, j) = None) →
  ∃ run, ds_runs ds' !! run_id = Some run ∧ wr_run_id run = run_id ∧
    (db_runs (sb_db w') !! run_id = None ∨ db_runs (sb_db w') !! run_id = Some (run_record run)) ∧
    (∀ j, db_jobs (sb_db w') !! (run_id, j) = None ∨
       ∃ job, wr_jobs run !! j = Some job ∧ ji_state job = JobState.Pending ∧
         db_jobs (sb_db w') !! (run_id, j) = Some (job_record job None)) ∧
    (∀ id, id ≠ run_id → db_runs (sb_db w') !! id = db_runs (sb_db w) !! id) ∧
    (∀ id j, id ≠ run_id → db_jobs (sb_db w') !! (id, j) = db_jobs (sb_db w) !! (id, j)) ∧
    (WritesLand W → persisted (λ _, None) run (sb_db w')).
Proof.
  intros E Hrow Hnone. pose proof E as [(_ & _ & m & [=])|(spec & _ & _ & [= ->] & -> & ->)]%submission_upserts.
  set (run := WorkflowRun.new _ _ _ _ _). exists run. split; [apply lookup_insert_eq|]. split; [done|].
  destruct (sb_upserts_some run (hm_values (wr_jobs run)) (upsert_run run w)) as (Hr & Hother & Hj).
  assert (∀ id, db_runs (sb_db (upsert_run run w)) !! id = db_runs (sb_db w) !! id ∨
    id = wr_run_id run ∧ db_runs (sb_db (upsert_run run w)) !! id = Some (run_record run)) as Hruns.
  { intros id. rewrite sb_write_run. destruct (sb_run_lands run w); [|by left]. cbn.
    destruct (decide (id = wr_run_id run)) as [->|Hne]; [right; by rewrite lookup_insert_eq|].
    left. by rewrite lookup_insert_ne. }
  assert (db_jobs (sb_db (upsert_run run w)) = db_jobs (sb_db w)) as Hjobs.
  { rewrite sb_write_run. by destruct (sb_run_lands run w). }
  rewrite Hr. split_and!.
  - destruct (Hruns (se_run_id env)) as [->|[_ ->]]; [by left|by right].
  - intros j. destruct (Hj j) as [Ej|(job & Hin & <- & Ej)].
    + left. etransitivity; [exact Ej|]. rewrite Hjobs. apply Hnone.
    + right. apply elem_of_hm_values in Hin as [k Hk].
      pose proof Hk as (i & js & _ & Eid & Enew)%jobs_of_lookup. exists job.
      assert (ji_job_id job = k) as Hid by by rewrite Enew, Eid.
      split_and!; [by rewrite Hid|by rewrite Enew|exact Ej].
  - intros id Hid. destruct (Hruns id) as [->|[-> _]]; [done|by destruct Hid].
  - intros id j Hid. rewrite Hother by done. by rewrite Hjobs.
  - intros Hland. rewrite sb_upserts, sb_upsert_run. by apply fresh_persisted.
Qed.

(** C28: [roster status] shows a stored run as it is in memory: its name, the
    status its jobs derive, and exactly one line per job, in the order of their
    ids, with that job's state, exit code, log and reason ([run'] is the run by
    the second query); and [roster ps] lists the run once, with the same
    status.  When a query fails the answer is the database's error. *)
Theorem status_shows_run (node_of : JobInstance → option string) (run run' : WorkflowRun) (w : W) :
  wr_run_id run' = wr_run_id run →
  match srv_db w with
  | Err error => handle_status (wr_run_id run) w = db_error error ∧ handle_ps w = db_error error
  | Ok db => persisted node_of run db →
      match srv_db_later w with
      | Err error => handle_status (wr_run_id run) w = db_error error
      | Ok db' => persisted node_of run' db' →
          ∃ detail, handle_status (wr_run_id run) w = Response_StatusResult detail ∧
            rd_run_id detail = wr_run_id run ∧ rd_workflow_name detail = wr_workflow_name run ∧
            rd_status detail = RunState.as_str (WorkflowRun.status run) ∧
            StronglySorted String.le (jd_job_id <$> rd_jobs detail) ∧ NoDup (jd_job_id <$> rd_jobs detail) ∧
            ∀ jd, jd ∈ rd_jobs detail ↔ ∃ j job, wr_jobs run' !! j = Some job ∧
              jd = mkJobDetail j (JobState.as_str (ji_state job)) (ji_exit_code job)
                     (to_rfc3339 <$> ji_started_at job) (to_rfc3339 <$> ji_ended_at job)
                     (ji_log_path job) (ji_reason job)
      end ∧
      ∃ before after, handle_ps w = Response_PsResult (before ++ mkRunSummary (wr_run_id run)
           (wr_workflow_name run) (RunState.as_str (WorkflowRun.status run)) :: after) ∧
         ∀ s, s ∈ before ++ after → sum_run_id s ≠ wr_run_id run
  end.
Proof.
  intros Hid. unfold handle_status, handle_ps. destruct (srv_db w) as [db|error]; [|done]. intros Hp.
  pose proof (persisted_status _ _ _ Hp) as Hstatus. split.
  - rewrite get_run_spec, (ps_run _ _ _ Hp). cbn. destruct (srv_db_later w) as [db'|error]; [|done].
    intros Hp'. eexists. split; [reflexivity|]. cbn. rewrite Hstatus, <-list_fmap_compose.
    change (jd_job_id ∘ job_detail) with jr_job_id. pose proof (list_jobs_lines db' (wr_run_id run)) as [Hs Hnd].
    split_and!; [done..|]. intros jd. rewrite list_elem_of_fmap, <-Hid. split.
    + intros (row & -> & Hrow). apply (persisted_list_jobs _ _ _ _ Hp') in Hrow as (j & job & Hj & ->).
      by exists j, job.
    + intros (j & job & Hj & ->). exists (job_row (wr_run_id run', j) (job_record job (node_of job))).
      split; [done|]. apply (persisted_list_jobs _ _ _ _ Hp'). eauto.
  - destruct (list_runs_spec db) as [Hperm _].
    assert (run_row db (wr_run_id run, run_record run) ∈ list_runs db) as Hin.
    { rewrite Hperm. apply list_elem_of_fmap_2, elem_of_map_to_list, Hp. }
    apply list_elem_of_split in Hin as (before & after & E). rewrite E, fmap_app, fmap_cons.
    unfold summary at 2. cbn. rewrite Hstatus. eexists _, _. split; [reflexivity|].
    assert (NoDup (rr_run_id <$> list_runs db)) as Hnd.
    { rewrite Hperm, <-list_fmap_compose. apply (NoDup_fst_map_to_list (db_runs db)). }
    rewrite E, fmap_app, fmap_cons in Hnd. apply NoDup_app in Hnd as (_ & Hb & [Ha _]%NoDup_cons).
    intros s [Hs|Hs]%elem_of_app; apply list_elem_of_fmap in Hs as (row & -> & Hrow).
    + intros Eid. apply (Hb (rr_run_id row)); [by apply list_elem_of_fmap_2|].
      cbn in Eid. rewrite Eid. by left.
    + intros Eid. apply Ha. cbn in Eid. cbn. rewrite <-Eid. by apply (list_elem_of_fmap_2 rr_run_id).
Qed.

End properties.

(** ** Witnesses *)

#[local] Existing Instance canonical_order.

Definition demo_ping : Serde Request := {|
  to_json := λ _, quote "Ping";
  from_json := λ s, if String.eqb s (quote "Ping") then Some Request_Ping else None;
|}.

Definition demo_pong : Serde Response := {|
  to_json := λ _, quote "Pong";
  from_json := λ s, if String.eqb s (quote "Pong") then Some Response_Pong else None;
|}.

Lemma demo_line_compact text : text = quote "Ping" ∨ text = quote "Pong" → compact text.
Proof.
  intros [-> | ->]; (split; [apply (bool_decide_unpack _); vm_compute; exact I|]);
    by exists "034"%char, "034"%char.
Qed.

Lemma wire_roundtrip_witness :
  let ping := demo_ping in let pong := demo_pong in
  read_request (λ _, "") (Line (read_line (request_line Request_Ping +:+ "left over"))) = Ok Request_Ping ∧
  read_response (λ _, "") (Ok (read_line (response_line Response_Pong +:+ "left over"))) = Ok Response_Pong.
Proof.
  intros ping pong. apply (@wire_roundtrip ping pong (λ _, "") Request_Ping Response_Pong "left over").
  - apply demo_line_compact. by left.
  - reflexivity.
  - apply demo_line_compact. by right.
  - reflexivity.
Defined.

#[local] Existing Instance demo_rfc3339.
#[local] Existing Instance demo_spec_serde.
#[local] Existing Instance demo_allocation_serde.

Definition demo_server : ServerEnv (RunStore * N) := {|
  srv_db := λ w, Ok w.1;
  srv_db_later := λ w, Ok w.1;
  srv_health := λ _ _, Node.mkHealth Online 0%Z None;
  srv_device := λ _ _, None;
  srv_pid := 42;
  srv_socket := "/run/user/1000/roster.socket";
  srv_now := λ _, 0%Z;
  srv_later := λ _, 1%Z;
  srv_save := λ _, Saved;
|}.

#[local] Existing Instance demo_stored_env.
#[local] Existing Instance demo_stored_backed.
#[local] Existing Instance demo_server.

Definition demo_two_jobs : SubmitEnv :=
  mkSubmitEnv (λ _, Ok (demo_spec [demo_job "a" []; demo_job "b" ["a"]])) "run" 0%Z.

Definition demo_idle : DaemonState := mkDaemonState ∅ [ResourcePool.new demo_resources] ∅.

Definition demo_after_submit : option (RunStore * N) :=
  match handle_submit demo_two_jobs "" (mkCounters 0 0) demo_idle (mkRunStore ∅ ∅, 0) with
  | Some (Ret (_, _, _, w')) => Some w'
  | _ => None
  end.

Lemma demo_submit_answer :
  ∃ counters' ds' w', handle_submit demo_two_jobs "" (mkCounters 0 0) demo_idle (mkRunStore ∅ ∅, 0) =
    Some (Ret (Response_Submitted "run", counters', ds', w')).
Proof. eexists _, _, _. vm_compute. reflexivity. Qed.

Lemma submission_is_stored_witness :
  ∃ w' run, demo_after_submit = Some w' ∧ wr_run_id run = "run" ∧ persisted (λ _, None) run (sb_db w').
Proof.
  destruct demo_submit_answer as (counters' & ds' & w' & E).
  destruct (submission_is_stored demo_two_jobs "" _ counters' _ ds' (mkRunStore ∅ ∅, 0) w' "run" E
    (lookup_empty _) (λ j, lookup_empty _)) as (run & _ & Hid & _ & _ & _ & _ & Hp).
  exists w', run. split; [unfold demo_after_submit; rewrite E; reflexivity|]. exact (conj Hid (Hp demo_writes_land)).
Defined.

(** A store whose disk is full: the submission is answered all the same, and
    nothing of it is stored. *)
Definition full_env : DaemonEnv (RunStore * N) := {|
  env_nodes := [demo_stored_node];
  env_home := Some "/home/user";
  env_resources := demo_resources;
  upsert_run := λ _ w, w;
  upsert_job := λ _ _ _ w, w;
  send := λ _ w, w;
  read_gpus := λ _, [];
|}.

Definition full_backed : @StoreBacked _ full_env demo_rfc3339 demo_spec_serde demo_allocation_serde.
Proof.
  refine {| sb_db := fst; sb_run_lands := λ _ _, false; sb_job_lands := λ _ _ _ _, false |}; try done;
    by intros node * ->%list_elem_of_singleton.
Defined.

Example submission_lost :
  ∃ counters' ds', @handle_submit _ _ full_env demo_two_jobs "" (mkCounters 0 0) demo_idle (mkRunStore ∅ ∅, 0) =
    Some (Ret (Response_Submitted "run", counters', ds', (mkRunStore ∅ ∅, 0))).
Proof. eexists _, _. vm_compute. reflexivity. Qed.

Definition demo_status_run : WorkflowRun :=
  WorkflowRun.new "run" 0 (demo_spec [demo_job "a" []; demo_job "b" ["a"]]) 0 5%Z.

Definition demo_status_db : RunStore * N :=
  (foldl (λ db job, upsert_job_row "run" job None db) (upsert_run_row demo_status_run (mkRunStore ∅ ∅))
    (hm_values (wr_jobs demo_status_run)), 0).

Lemma demo_status_stored : persisted (λ _, None) demo_status_run (sb_db demo_status_db).
Proof.
  apply (persisted_upserts (λ _, None) demo_status_run); [|intros j; apply lookup_empty].
  by intros j job (i & js & _ & -> & ->)%jobs_of_lookup.
Qed.

Lemma status_shows_run_witness :
  (∃ detail, handle_status "run" demo_status_db = Response_StatusResult detail ∧
    rd_status detail = "Pending") ∧
  ∃ before after, handle_ps demo_status_db =
    Response_PsResult (before ++ mkRunSummary "run" "demo" "Pending" :: after).
Proof.
  pose proof (status_shows_run (λ _, None) demo_status_run demo_status_run demo_status_db eq_refl) as T.
  change (srv_db demo_status_db) with (Ok demo_status_db.1 : result RunStore string) in T.
  change (srv_db_later demo_status_db) with (Ok demo_status_db.1 : result RunStore string) in T.
  cbv iota in T. destruct (T demo_status_stored) as [Hstatus (before & after & Eps & _)].
  destruct (Hstatus demo_status_stored) as (detail & E & _ & _ & Hs & _).
  assert (RunState.as_str (WorkflowRun.status demo_status_run) = "Pending") as Hp by (vm_compute; reflexivity).
  rewrite Hp in Hs, Eps. split.
  - exists detail. exact (conj E Hs).
  - exists before, after. exact Eps.
Defined.

Section gpu_witness.
#[local] Existing Instance demo_env.
#[local] Existing Instance demo_os.

Definition demo_gpu_server : ServerEnv N := {|
  srv_db := λ _, Err "closed";
  srv_db_later := λ _, Err "closed";
  srv_health := λ _ _, Node.mkHealth Online 0%Z None;
  srv_device := λ _ _, None;
  srv_pid := 42;
  srv_socket := "/run/user/1000/roster.socket";
  srv_now := λ _, 7%Z;
  srv_later := λ _, 8%Z;
  srv_save := λ _, Saved;
|}.
#[local] Existing Instance demo_gpu_server.
#[local] Instance demo_quarantine_serde : Serde (gmap string Quarantine) := demo_serde.

Definition demo_daemon : Daemon :=
  mkDaemon (mkDaemonState ∅ [ResourcePool.new demo_resources] ∅) (mkCounters 0 0) ∅
    (Quarantines.load "/q.json" ∅) ∅.

Lemma requests_stay_in_their_part_witness :
  ∃ d', dispatch demo_two_jobs (Request_GpuQualified 1 false "wrong sum") demo_daemon (0 : N) =
      Some (Ret (Response_Recorded, d', 0)) ∧
    Quarantines.get (mkGpuInfo 1 "card" 24000 "GPU-bbbb") (dm_quarantines d') =
      Some (mkQuarantine "qualification failed: wrong sum" 7%Z) ∧
    dm_ds d' = dm_ds demo_daemon.
Proof.
  destruct (handle_gpu_qualified 1 false "wrong sum" demo_daemon (0 : N)) as [r d'] eqn:E.
  assert (dispatch demo_two_jobs (Request_GpuQualified 1 false "wrong sum") demo_daemon (0 : N) =
      Some (Ret (r, d', 0))) as Hd by (cbn [dispatch]; rewrite E; reflexivity).
  destruct (requests_stay_in_their_part _ _ _ _ _ _ _ Hd) as (_ & _ & Hds & _).
  vm_compute in E. injection E as <- <-. eexists. split; [exact Hd|].
  split; [vm_compute; reflexivity|exact Hds].
Defined.

End gpu_witness.
