(* ===== verification/Recover.v ===== *)
(** * Taking runs back after a restart: [src/daemon/recover.rs]

    Before the daemon listens and schedules, it rebuilds the runs that hadn't
    ended from the store: each job's stored state over a fresh instance, and
    for a running job the node by name, what it held there, and a handle to
    poll it by; a job that can't be found again ends as Interrupted. *)

From S2P Require Import Prelude Spec Pool Placement Handle Model Store Dag Text Health Protocol.
From S2P Require Import Executor Shell Scheduler Server.

(** [code as i32] *)
Definition as_i32 (z : Z) : Z := ((z + 2 ^ 31) mod 2 ^ 32 - 2 ^ 31)%Z.

(** The times read: as a run is made again, as memory finds a job gone, and as
    its row says so. *)
Record RecoveryClock := mkRecoveryClock {
  rk_created : string → DateTime;
  rk_ended : string → string → DateTime;
  rk_stored : string → string → DateTime;
}.

Section recover.
Context `{HashOrder} `{Rfc3339} `{Serde WorkflowSpec} `{Serde Allocation}.
Context {W : Type} `{DaemonEnv W} `{ShellOS W}.

Definition parse_time (text : string) : option DateTime := parse_from_rfc3339 text.

(** The job's last stored state over the fresh instance built from the spec. *)
Definition restore (job : JobInstance) (row : JobRow) : JobInstance :=
  JobInstance.set_reason (jr_reason row)
    (JobInstance.set_log_path (jr_log_path row)
      (JobInstance.set_ended_at (jr_ended_at row ≫= parse_time)
        (JobInstance.set_started_at (jr_started_at row ≫= parse_time)
          (JobInstance.set_exit_code (as_i32 <$> jr_exit_code row)
            (JobInstance.set_state (default JobState.Pending (JobState.from_str (jr_state row))) job))))).

(** A running job's execution again: its node by name, what it held there, and
    a handle to poll it by. *)
Definition reattach (run_id : string) (saved : SavedJob) (w : W) : option Execution :=
  found ← list_find (λ node : Node W, Some (nd_name node) = sj_node saved) env_nodes;
  text ← sj_allocation saved;
  allocation ← from_json text;
  let job_id := jr_job_id (sj_row saved) in
  handle ← match nd_ssh found.2 with
           | None => shell_find run_id job_id w
           | Some _ => Some (JobHandle.remote 0 run_id job_id)
           end;
  Some (mkExecution found.1 allocation (Some handle)).

Definition interrupted_job (now : DateTime) (job : JobInstance) : JobInstance :=
  JobInstance.set_ended_at (Some now) (JobInstance.set_state JobState.Interrupted job).

(** One stored job of a run: the jobs, the pools and the store after it. *)
Definition take_back_job (run_id : string) (clock : RecoveryClock) (w : W)
    (acc : gmap string JobInstance * list ResourcePool * RunStore) (saved : SavedJob)
    : exec (gmap string JobInstance * list ResourcePool * RunStore) :=
  let '(jobs, pools, db) := acc in
  let job_id := jr_job_id (sj_row saved) in
  match jobs !! job_id with
  | None => Ret acc
  | Some job =>
      let job := restore job (sj_row saved) in
      if negb (is_running (ji_state job)) then Ret (<[job_id := job]> jobs, pools, db)
      else match reattach run_id saved w with
           | Some execution =>
               pools' ← index_mut pools (ex_node execution)
                          (λ p, Ret (ResourcePool.book (ex_allocation execution) p));
               Ret (<[job_id := JobInstance.set_executions [execution] job]> jobs, pools', db)
           | None =>
               Ret (<[job_id := interrupted_job (rk_ended clock run_id job_id) job]> jobs, pools,
                    interrupt run_id (ji_job_id job) (rk_stored clock run_id job_id) db)
           end
  end.

(** A run stored by an earlier release, without its spec: nothing to rebuild it
    from, so its unfinished jobs end. *)
Definition interrupt_all (clock : RecoveryClock) (saved : SavedRun) (db : RunStore) : RunStore :=
  foldl (λ db job,
    match JobState.from_str (jr_state (sj_row job)) with
    | Some s => if JobState.is_terminal s then db
                else interrupt (sv_run_id saved) (jr_job_id (sj_row job))
                       (rk_stored clock (sv_run_id saved) (jr_job_id (sj_row job))) db
    | None => db
    end) db (sv_jobs saved).

Record Recovery := mkRecovery {
  rv_runs : gmap string WorkflowRun;
  rv_pools : list ResourcePool;
  rv_counters : Counters;
  rv_db : RunStore;
}.

Definition saved_spec (saved : SavedRun) : option WorkflowSpec := sv_spec_json saved ≫= from_json.

Definition take_back_run (clock : RecoveryClock) (w : W) (s : Recovery) (saved : SavedRun) : exec Recovery :=
  match saved_spec saved with
  | None => Ret (mkRecovery (rv_runs s) (rv_pools s) (rv_counters s) (interrupt_all clock saved (rv_db s)))
  | Some spec =>
      let counters := mkCounters (fetch_add (ct_run (rv_counters s)) 1)
        (fetch_add (ct_job (rv_counters s)) (N.of_nat (length (ws_jobs spec)))) in
      let run0 := WorkflowRun.new (sv_run_id saved) (ct_run (rv_counters s)) spec
                    (ct_job (rv_counters s)) (rk_created clock (sv_run_id saved)) in
      let run := WorkflowRun.set_created_at
                   (default (wr_created_at run0) (parse_time (sv_created_at saved))) run0 in
      r ← foldM (take_back_job (sv_run_id saved) clock w) (wr_jobs run, rv_pools s, rv_db s)
            (sv_jobs saved);
      let '(jobs, pools, db) := r in
      Ret (mkRecovery (<[sv_run_id saved := WorkflowRun.set_jobs jobs run]> (rv_runs s)) pools
             counters db)
  end.

(** Runs before the listener and the scheduler start. *)
Definition take_back_runs (clock : RecoveryClock) (w : W) (s : Recovery) : exec Recovery :=
  foldM (take_back_run clock w) s (unfinished_runs (rv_db s)).

(** ** One run *)

(** What becomes of a stored job. *)
Definition recovered_job (run_id : string) (clock : RecoveryClock) (w : W) (saved : SavedJob)
    (job : JobInstance) : JobInstance :=
  let job := restore job (sj_row saved) in
  if is_running (ji_state job) then
    match reattach run_id saved w with
    | Some execution => JobInstance.set_executions [execution] job
    | None => interrupted_job (rk_ended clock run_id (jr_job_id (sj_row saved))) job
    end
  else job.

Definition saved_id (saved : SavedJob) : string := jr_job_id (sj_row saved).

Lemma reattach_node run_id saved w e : reattach run_id saved w = Some e → (ex_node e < length env_nodes)%nat.
Proof.
  unfold reattach. intros ([n node] & F & E)%bind_Some. apply bind_Some in E as (text & _ & E).
  apply bind_Some in E as (allocation & _ & E). apply bind_Some in E as (handle & _ & [= <-]).
  apply list_find_Some in F as (F & _). by eapply lookup_lt_Some.
Qed.

(** The stored jobs of a run, one after the other. *)
Lemma take_back_jobs run_id clock w saved jobs pools db :
  NoDup (saved_id <$> saved) → length pools = length env_nodes →
  ∃ jobs' pools' db',
    foldM (take_back_job run_id clock w) (jobs, pools, db) saved = Ret (jobs', pools', db') ∧
    length pools' = length pools ∧
    (∀ sv, sv ∈ saved → jobs' !! saved_id sv = recovered_job run_id clock w sv <$> jobs !! saved_id sv) ∧
    (∀ j, j ∉ saved_id <$> saved → jobs' !! j = jobs !! j).
Proof.
  revert jobs pools db. induction saved as [|sv saved IH]; intros jobs pools db Hnd Hlen.
  { exists jobs, pools, db. split_and!; try done. by intros ? ?%elem_of_nil. }
  apply NoDup_cons in Hnd as [Hni Hnd].
  assert (∃ jobs1 pools1 db1, take_back_job run_id clock w (jobs, pools, db) sv = Ret (jobs1, pools1, db1) ∧
    length pools1 = length pools ∧
    jobs1 !! saved_id sv = recovered_job run_id clock w sv <$> jobs !! saved_id sv ∧
    ∀ j, j ≠ saved_id sv → jobs1 !! j = jobs !! j) as (jobs1 & pools1 & db1 & E & Hlen1 & Hsv & Hother).
  { unfold take_back_job, recovered_job. change (jr_job_id (sj_row sv)) with (saved_id sv).
    destruct (jobs !! saved_id sv) as [job|] eqn:Hj; cbn [fmap option_fmap option_map].
    2: { by exists jobs, pools, db. }
    destruct (is_running _); cbn [negb].
    - destruct (reattach run_id sv w) as [e|] eqn:R.
      + destruct (lookup_lt_is_Some_2 pools (ex_node e)) as [p Hp].
        { rewrite Hlen. by eapply reattach_node. }
        unfold index_mut, index. rewrite Hp. cbn. eexists _, _, _. split; [done|].
        split_and!; [by rewrite length_insert|by rewrite lookup_insert_eq|].
        intros j Hne. by rewrite lookup_insert_ne.
      + eexists _, _, _. split; [done|]. split_and!; [done|by rewrite lookup_insert_eq|].
        intros j Hne. by rewrite lookup_insert_ne.
    - eexists _, _, _. split; [done|]. split_and!; [done|by rewrite lookup_insert_eq|].
      intros j Hne. by rewrite lookup_insert_ne. }
  destruct (IH jobs1 pools1 db1 Hnd) as (jobs2 & pools2 & db2 & E2 & Hlen2 & Hin & Hout); [lia|].
  exists jobs2, pools2, db2. cbn [foldM]. rewrite E. cbn. split_and!; [done|lia| |].
  - intros sv' [->|Hsv']%elem_of_cons; [by rewrite Hout|].
    rewrite Hin by done. f_equal. apply Hother. intros Eq. apply Hni. rewrite <-Eq.
    by apply list_elem_of_fmap_2.
  - cbn. intros j Hj. apply not_elem_of_cons in Hj as [Hj1 Hj2]. rewrite Hout by done. by apply Hother.
Qed.

(** ** The runs of the store *)

Lemma take_back_run_other clock w s saved s' id :
  take_back_run clock w s saved = Ret s' → id ≠ sv_run_id saved → rv_runs s' !! id = rv_runs s !! id.
Proof.
  unfold take_back_run. destruct (saved_spec saved) as [spec|]; [|by intros [= <-]].
  intros ([[jobs pools] db] & _ & [= <-])%bind_Ret_inv Hne. cbn. by rewrite lookup_insert_ne.
Qed.

Lemma take_back_run_pools clock w s saved s' :
  take_back_run clock w s saved = Ret s' → NoDup (saved_id <$> sv_jobs saved) →
  length (rv_pools s) = length env_nodes → length (rv_pools s') = length env_nodes.
Proof.
  unfold take_back_run. destruct (saved_spec saved) as [spec|]; [|by intros [= <-]].
  intros E Hnd Hlen. 
  destruct (take_back_jobs (sv_run_id saved) clock w (sv_jobs saved)
    (WorkflowRun.jobs_of (ws_jobs spec) (ct_job (rv_counters s))) (rv_pools s) (rv_db s) Hnd Hlen)
    as (jobs & pools & db & E2 & Hl & _). cbn in E. rewrite E2 in E. cbn in E. injection E as <-. cbn. lia.
Qed.

Lemma take_back_runs_fold clock w l s :
  NoDup (sv_run_id <$> l) → (∀ sv, sv ∈ l → NoDup (saved_id <$> sv_jobs sv)) →
  length (rv_pools s) = length env_nodes →
  ∃ s', foldM (take_back_run clock w) s l = Ret s' ∧ length (rv_pools s') = length env_nodes ∧
    (∀ id, id ∉ sv_run_id <$> l → rv_runs s' !! id = rv_runs s !! id) ∧
    ∀ sv, sv ∈ l → ∃ s1 s2, take_back_run clock w s1 sv = Ret s2 ∧
      length (rv_pools s1) = length env_nodes ∧
      rv_runs s' !! sv_run_id sv = rv_runs s2 !! sv_run_id sv.
Proof.
  revert s. induction l as [|sv l IH]; intros s Hnd Hjobs Hlen.
  { exists s. split_and!; try done. by intros ? ?%elem_of_nil. }
  apply NoDup_cons in Hnd as [Hni Hnd].
  assert (∃ s1, take_back_run clock w s sv = Ret s1) as [s1 E].
  { unfold take_back_run. destruct (saved_spec sv) as [spec|]; [|eauto].
    destruct (take_back_jobs (sv_run_id sv) clock w (sv_jobs sv)
      (WorkflowRun.jobs_of (ws_jobs spec) (ct_job (rv_counters s))) (rv_pools s) (rv_db s))
      as (jobs & pools & db & E2 & _); [apply Hjobs; by left|done|]. cbn. rewrite E2. cbn. eauto. }
  destruct (IH s1 Hnd) as (s' & E' & Hlen' & Hout & Hin).
  { intros sv' Hsv'. apply Hjobs. by right. }
  { eapply take_back_run_pools; [done|apply Hjobs; by left|done]. }
  exists s'. cbn [foldM]. rewrite E. cbn. split_and!; [done|done| |].
  - intros id [Hid1 Hid2]%not_elem_of_cons. rewrite Hout by done. by eapply take_back_run_other.
  - intros sv' [->|Hsv']%elem_of_cons; [|by apply Hin]. exists s, s1. split_and!; [done|done|].
    by apply Hout.
Qed.

(** Recovery returns, with a pool per node. *)
Lemma take_back_runs_total clock w s :
  length (rv_pools s) = length env_nodes →
  ∃ s', take_back_runs clock w s = Ret s' ∧ length (rv_pools s') = length env_nodes.
Proof.
  intros Hlen. destruct (take_back_runs_fold clock w (unfinished_runs (rv_db s)) s) as (s' & E & Hl & _).
  - apply NoDup_unfinished_runs.
  - intros sv (r & _ & -> & _)%elem_of_unfinished_runs. apply NoDup_saved_jobs.
  - done.
  - by exists s'.
Qed.

(** ** What a restart keeps *)

(** A run made from its workflow, whose exit codes are those of processes. *)
Record well_made (run : WorkflowRun) : Prop := {
  wm_name : wr_workflow_name run = ws_name (wr_spec run);
  wm_NoDup : NoDup (js_id <$> ws_jobs (wr_spec run));
  wm_jobs : ∀ j job, wr_jobs run !! j = Some job →
    ji_job_id job = j ∧ js_id (ji_spec job) = j ∧ ji_spec job ∈ ws_jobs (wr_spec run);
  wm_all : ∀ spec, spec ∈ ws_jobs (wr_spec run) → is_Some (wr_jobs run !! js_id spec);
  wm_running : ∀ j job, wr_jobs run !! j = Some job → ji_state job = JobState.Running →
    ji_executions job ≠ [];
  wm_codes : ∀ j job code, wr_jobs run !! j = Some job → ji_exit_code job = Some code →
    (- 2 ^ 31 ≤ code < 2 ^ 31)%Z;
}.

(** From a job before the restart to the same job after it. *)
Definition taken_back (node_of : JobInstance → option string) (clock : RecoveryClock) (w : W) (run_id : string)
    (job job' : JobInstance) : Prop :=
  ji_job_id job' = ji_job_id job ∧ ji_spec job' = ji_spec job ∧
  ji_exit_code job' = ji_exit_code job ∧ ji_started_at job' = ji_started_at job ∧
  ji_log_path job' = ji_log_path job ∧ ji_reason job' = ji_reason job ∧
  ji_rejected job' = [] ∧ ji_cancelling job' = false ∧
  ((ji_state job ≠ JobState.Running ∧ ji_state job' = ji_state job ∧ ji_executions job' = [] ∧
    ji_ended_at job' = ji_ended_at job) ∨
   (ji_state job = JobState.Running ∧ ji_state job' = JobState.Running ∧
    ji_ended_at job' = ji_ended_at job ∧
    ∃ e n node handle, head (ji_executions job) = Some e ∧
      ji_executions job' = [mkExecution n (ex_allocation e) (Some handle)] ∧
      env_nodes !! n = Some node ∧ Some (nd_name node) = node_of job ∧
      (nd_ssh node = None → shell_find run_id (ji_job_id job) w = Some handle) ∧
      (nd_ssh node ≠ None → jh_backend handle = Backend_Remote run_id (ji_job_id job))) ∨
   (ji_state job = JobState.Running ∧ ji_state job' = JobState.Interrupted ∧
    ji_executions job' = [] ∧ ji_ended_at job' = Some (rk_ended clock run_id (ji_job_id job)) ∧
    ∀ node, node ∈ env_nodes → Some (nd_name node) = node_of job →
      nd_ssh node = None ∧ shell_find run_id (ji_job_id job) w = None)).

Lemma as_i32_id z : (- 2 ^ 31 ≤ z < 2 ^ 31)%Z → as_i32 z = z.
Proof. intros Hz. unfold as_i32. rewrite Z.mod_small; lia. Qed.

Lemma parse_written (t : option DateTime) :
  rfc3339_roundtrip → (to_rfc3339 <$> t) ≫= parse_time = t.
Proof. intros Hr. destruct t; [apply Hr|done]. Qed.

Lemma restore_written node_of (start : N) job :
  rfc3339_roundtrip →
  (∀ code, ji_exit_code job = Some code → (- 2 ^ 31 ≤ code < 2 ^ 31)%Z) →
  restore (JobInstance.new (ji_spec job) start) (job_row ("", js_id (ji_spec job)) (job_record job node_of))
  = mkJobInstance (js_id (ji_spec job)) start (ji_spec job) (ji_state job) [] false
      (ji_started_at job) (ji_ended_at job) (ji_exit_code job) (ji_log_path job) [] (ji_reason job).
Proof.
  intros Hr Hcode. unfold restore, JobInstance.new. cbn. rewrite !parse_written by done.
  assert (JobState.from_str (JobState.as_str (ji_state job)) = Some (ji_state job)) as -> by by destruct (ji_state job).
  assert (as_i32 <$> ji_exit_code job = ji_exit_code job) as ->; [|done].
  destruct (ji_exit_code job) as [code|]; [|done]. cbn. by rewrite as_i32_id by by apply Hcode.
Qed.

(** One job through a restart. *)
Lemma recovered_taken_back node_of run_id clock w job start sv :
  rfc3339_roundtrip → serde_roundtrip Allocation → NoDup (nd_name <$> env_nodes) →
  ji_job_id job = js_id (ji_spec job) →
  (ji_state job = JobState.Running → ji_executions job ≠ []) →
  (∀ code, ji_exit_code job = Some code → (- 2 ^ 31 ≤ code < 2 ^ 31)%Z) →
  sv = saved_job (run_id, ji_job_id job) (job_record job (node_of job)) →
  taken_back node_of clock w run_id job
    (recovered_job run_id clock w sv (JobInstance.new (ji_spec job) start)).
Proof.
  intros Hr Hser Hnames Hid Hrun Hcode ->. unfold recovered_job.
  change (sj_row (saved_job (run_id, ji_job_id job) ?r)) with (job_row (run_id, ji_job_id job) r).
  pose proof (restore_written (node_of job) start job Hr Hcode) as E.
  change (restore ?i (job_row (run_id, ?j) ?r)) with (restore i (job_row ("", j) r)).
  rewrite Hid. rewrite E. cbn [ji_state].
  destruct (decide (ji_state job = JobState.Running)) as [Hs|Hs].
  - rewrite Hs. cbn [is_running]. destruct (reattach run_id _ w) as [execution|] eqn:F.
    + unfold reattach in F. apply bind_Some in F as ([n node] & Hn & F).
      apply list_find_Some in Hn as (Hn & Hname & _). cbn in Hname.
      apply bind_Some in F as (text & Ht & F). cbn in Ht.
      destruct (ji_executions job) as [|e l] eqn:Hex; [done|]. injection Ht as <-.
      apply bind_Some in F as (allocation & Ha & F). rewrite Hser in Ha. injection Ha as <-.
      apply bind_Some in F as (handle & Hh & [= <-]). cbn in Hh.
      unfold taken_back. cbn. split_and!; try done. right. left. split_and!; [done|done|done|].
      exists e, n, node, handle. split_and!; try done; rewrite ?Hex, ?Hid; try done.
      * intros Hssh. by rewrite Hssh in Hh.
      * intros Hssh. destruct (nd_ssh node); [|done]. by injection Hh as <-.
    + unfold taken_back. cbn. split_and!; try done. right. right. split_and!; try done; [by rewrite Hid|].
      intros node Hin Hname. rewrite Hid. unfold reattach in F. cbn in F.
      destruct (list_find _ env_nodes) as [[n node']|] eqn:G.
      2: { apply list_find_None in G. rewrite Forall_forall in G. by destruct (G node). }
      apply list_find_Some in G as (Hn & Hname' & _). cbn in Hname'.
      apply list_elem_of_lookup in Hin as [m Hm].
      assert (node' = node) as ->.
      { assert (n = m) as ->; [|congruence]. eapply NoDup_lookup; [exact Hnames|..];
          rewrite list_lookup_fmap; [by rewrite Hn|rewrite Hm; cbn; congruence]. }
      cbn in F. destruct (ji_executions job) as [|e l]; [by destruct (Hrun Hs)|]. cbn in F. rewrite Hser in F. cbn in F.
      destruct (nd_ssh node); [done|]. split; [done|].
      destruct (shell_find run_id (js_id (ji_spec job)) w); done.
  - assert (is_running (ji_state job) = false) as -> by by destruct (ji_state job).
    unfold taken_back. cbn. split_and!; try done. left. done.
Qed.

(** ** Properties *)

(** A restart takes every unfinished run back as it was last stored: same
    id, name, spec and creation time, exactly its jobs, each in its stored
    state with its times, exit code, log and reason; a running job is Running
    again on the node of its name, holding what it held, with a handle to poll
    it by, unless that node is no longer configured or, on this machine,
    nothing of the job is left: then it is Interrupted.  Recovery itself never
    panics. *)
Theorem restart_restores_run node_of clock w s run :
  rfc3339_roundtrip → serde_roundtrip WorkflowSpec → serde_roundtrip Allocation →
  NoDup (nd_name <$> env_nodes) → length (rv_pools s) = length env_nodes →
  persisted node_of run (rv_db s) → well_made run →
  (∃ j job, wr_jobs run !! j = Some job ∧ JobState.is_terminal (ji_state job) = false) →
  ∃ s' run', take_back_runs clock w s = Ret s' ∧ rv_runs s' !! wr_run_id run = Some run' ∧
    wr_run_id run' = wr_run_id run ∧ wr_workflow_name run' = wr_workflow_name run ∧
    wr_spec run' = wr_spec run ∧ wr_created_at run' = wr_created_at run ∧
    ∀ j, option_Forall2 (taken_back node_of clock w (wr_run_id run)) (wr_jobs run !! j) (wr_jobs run' !! j).
Proof.
  intros Htime Hspec Halloc Hnames Hlen [Hrun Hjobs] Hmade (j0 & job0 & Hj0 & Hlive).
  set (sv := saved_run (rv_db s) (wr_run_id run, run_record run)).
  assert (sv ∈ unfinished_runs (rv_db s)) as Hsv.
  { apply elem_of_unfinished_runs. exists (run_record run). split_and!; [done|done|].
    exists j0, (job_record job0 (node_of job0)). cbn [sv saved_run sv_run_id fst]. rewrite Hjobs, Hj0.
    split; [done|]. unfold unfinished. cbn. by destruct (ji_state job0). }
  destruct (take_back_runs_fold clock w (unfinished_runs (rv_db s)) s) as (s' & E & _ & _ & Hin).
  { apply NoDup_unfinished_runs. }
  { intros sv' (r & _ & -> & _)%elem_of_unfinished_runs. apply NoDup_saved_jobs. }
  { done. }
  destruct (Hin sv Hsv) as (s1 & s2 & E1 & Hlen1 & Hlook).
  unfold take_back_run in E1.
  assert (saved_spec sv = Some (wr_spec run)) as Hs.
  { unfold saved_spec. cbn. apply Hspec. }
  rewrite Hs in E1.
  destruct (take_back_jobs (sv_run_id sv) clock w (sv_jobs sv)
    (WorkflowRun.jobs_of (ws_jobs (wr_spec run)) (ct_job (rv_counters s1))) (rv_pools s1) (rv_db s1))
    as (jobs & pools & db & E2 & _ & Hsaved & Hother); [apply NoDup_saved_jobs|done|].
  cbn [WorkflowRun.new WorkflowRun.set_created_at wr_jobs] in E1. rewrite E2 in E1. cbn in E1.
  injection E1 as <-. cbn in Hlook. rewrite lookup_insert_eq in Hlook.
  exists s'. eexists. split; [done|]. split; [exact Hlook|]. cbn.
  split_and!; [done|by destruct Hmade|done| |].
  { unfold parse_time. by rewrite Htime. }
  intros j. destruct (wr_jobs run !! j) as [job|] eqn:Hj.
  - destruct (wm_jobs _ Hmade _ _ Hj) as (Hid & Hjs & Hspecin).
    set (sj := saved_job (wr_run_id run, j) (job_record job (node_of job))).
    assert (sj ∈ sv_jobs sv) as Hsj.
    { apply elem_of_saved_jobs. exists (job_record job (node_of job)). cbn. by rewrite Hjobs, Hj. }
    specialize (Hsaved _ Hsj). change (saved_id sj) with j in Hsaved.
    apply list_elem_of_lookup in Hspecin as [i Hi].
    pose proof (jobs_of_lookup_unique _ (ct_job (rv_counters s1)) _ _ (wm_NoDup _ Hmade) Hi) as Hnew.
    rewrite Hjs in Hnew. rewrite Hnew in Hsaved. cbn in Hsaved. rewrite Hsaved. constructor.
    apply recovered_taken_back; try done.
    + congruence.
    + by apply (wm_running _ Hmade _ _ Hj).
    + intros code. by apply (wm_codes _ Hmade _ _ _ Hj).
    + unfold sj. by rewrite Hid.
  - assert (jobs !! j = None) as ->; [|constructor].
    rewrite Hother.
    + destruct (WorkflowRun.jobs_of _ _ !! j) as [fresh|] eqn:F; [|done].
      apply jobs_of_lookup in F as (i & spec & Hi & -> & _).
      destruct (wm_all _ Hmade spec) as [x Hx]; [by eapply list_elem_of_lookup_2|]. congruence.
    + intros (sj & -> & (rec & Hrec & _)%elem_of_saved_jobs)%list_elem_of_fmap. cbn in Hrec.
      rewrite Hjobs in Hrec. unfold saved_id in Hj. by rewrite Hj in Hrec.
Qed.

End recover.

(** ** Witness: a run with a job on another machine *)

Definition demo_remote_node : Node N :=
  mkNode N "gpu1" (Some "user@gpu1") demo_executor None (λ _, true) (λ _, None)
    (λ _ w, (Ok Response_Recorded, w)).

Definition demo_two_nodes : DaemonEnv N := {|
  env_nodes := [demo_node_env; demo_remote_node];
  env_home := Some "/home/user";
  env_resources := demo_resources;
  upsert_run := λ _ w, w;
  upsert_job := λ _ _ _ w, w;
  send := λ _ w, w;
  read_gpus := λ _, [];
|}.

Definition demo_held_alloc : Allocation := mkAllocation 1 512 [mkGpuAllocation 0 24000].

Definition demo_stored_jobs : gmap string JobInstance :=
  {["prep" := JobInstance.set_exit_code (Some 0%Z) (JobInstance.set_ended_at (Some 20%Z)
      (JobInstance.set_state JobState.Succeeded (JobInstance.new (demo_job "prep" []) 0)));
    "train" := JobInstance.set_executions
      [mkExecution 1 demo_held_alloc (Some (JobHandle.remote 0 "run-1" "train"))]
      (JobInstance.set_started_at (Some 21%Z)
        (JobInstance.set_state JobState.Running (JobInstance.new (demo_job "train" ["prep"]) 1)))]}.

Definition demo_stored_run : WorkflowRun :=
  mkWorkflowRun "run-1" 0 "demo" (demo_spec [demo_job "prep" []; demo_job "train" ["prep"]])
    demo_stored_jobs 10%Z.

Definition demo_node_of (job : JobInstance) : option string :=
  if is_running (ji_state job) then Some "gpu1" else None.

(** The row of a job that is gone is written after memory has ended it. *)
Definition demo_clock : RecoveryClock := mkRecoveryClock (λ _, 98%Z) (λ _ _, 99%Z) (λ _ _, 100%Z).

Section demo.
#[local] Existing Instance canonical_order.
#[local] Existing Instance demo_rfc3339.
#[local] Existing Instance demo_two_nodes.
#[local] Existing Instance demo_os.
#[local] Existing Instance demo_spec_serde.
#[local] Existing Instance demo_allocation_serde.

Definition demo_saved : RunStore :=
  mkRunStore {["run-1" := run_record demo_stored_run]}
    (kmap (pair "run-1") ((λ job, job_record job (demo_node_of job)) <$> demo_stored_jobs)).

Definition demo_recovery : Recovery :=
  mkRecovery ∅ (ResourcePool.new <$> [demo_resources; demo_resources]) (mkCounters 0 0) demo_saved.

Definition demo_recovered : exec Recovery := take_back_runs demo_clock (0 : N) demo_recovery.

Lemma demo_persisted : persisted demo_node_of demo_stored_run demo_saved.
Proof.
  split.
  - exact (lookup_singleton_eq "run-1" _).
  - intros j. unfold demo_saved. cbn [db_jobs wr_run_id demo_stored_run wr_jobs].
    rewrite (lookup_kmap (pair "run-1")). apply lookup_fmap.
Qed.

Lemma demo_well_made : well_made demo_stored_run.
Proof.
  assert (∀ j job, wr_jobs demo_stored_run !! j = Some job →
    (j = "prep" ∧ ji_job_id job = "prep" ∧ ji_spec job = demo_job "prep" [] ∧
     ji_state job = JobState.Succeeded ∧ ji_exit_code job = Some 0%Z) ∨
    (j = "train" ∧ ji_job_id job = "train" ∧ ji_spec job = demo_job "train" ["prep"] ∧
     ji_executions job ≠ [] ∧ ji_exit_code job = None)) as Hcases.
  { intros j job Hj. cbn in Hj. unfold demo_stored_jobs in Hj.
    rewrite lookup_insert_Some, lookup_singleton_Some in Hj. naive_solver. }
  split.
  - done.
  - apply (bool_decide_unpack _). by vm_compute.
  - intros j job [(-> & -> & -> & _)|(-> & -> & -> & _)]%Hcases; (split_and!; [done|done|]); cbn.
    + by left.
    + by right; left.
  - intros spec Hin. cbn in Hin. apply elem_of_cons in Hin as [->|Hin]; [by eexists|].
    apply list_elem_of_singleton in Hin as ->. by eexists.
  - intros j job [(_ & _ & _ & Hstate & _)|(_ & _ & _ & ? & _)]%Hcases Hs; [|done].
    by rewrite Hstate in Hs.
  - intros j job code [(_ & _ & _ & _ & Hcode)|(_ & _ & _ & _ & Hcode)]%Hcases Hs;
      rewrite Hcode in Hs; by simplify_eq.
Qed.

Lemma restart_restores_run_witness :
  ∃ s' run', demo_recovered = Ret s' ∧ rv_runs s' !! "run-1" = Some run' ∧
    ∀ j, option_Forall2 (taken_back demo_node_of demo_clock (0 : N) "run-1")
           (demo_stored_jobs !! j) (wr_jobs run' !! j).
Proof.
  destruct (restart_restores_run demo_node_of demo_clock (0 : N) demo_recovery demo_stored_run)
    as (s' & run' & E & Hrun & _ & _ & _ & _ & Hjobs).
  - apply demo_rfc3339_roundtrip.
  - apply demo_serde_roundtrip.
  - apply demo_serde_roundtrip.
  - apply (bool_decide_unpack _). vm_compute. exact I.
  - reflexivity.
  - exact demo_persisted.
  - exact demo_well_made.
  - exists "train". eexists. split; vm_compute; reflexivity.
  - exists s', run'. exact (conj E (conj Hrun Hjobs)).
Defined.

End demo.
