(* ===== verification/Restart.v ===== *)
(** * The books after a restart

    What recovery ([Recover.v]) counts on the pools is what the jobs it took
    back hold, so the cluster's books balance from the first tick, as long as
    the machines still have what those jobs were given. *)

From S2P Require Import Prelude Spec Pool Placement Handle Model Store Dag Text Health Protocol.
From S2P Require Import Executor Shell Scheduler Server Recover.

(** What is held fits the machines. *)
Record fits (machines : list SystemResources) (held : list (nat * Allocation)) : Prop := {
  ft_whole : ∀ n a, (n, a) ∈ held → ∃ r, machines !! n = Some r ∧ whole_alloc r a;
  ft_cpu : ∀ n r, machines !! n = Some r → Nsum al_cpu (on_node n held) ≤ sr_cpu_cores r;
  ft_memory : ∀ n r, machines !! n = Some r → Nsum al_memory_mb (on_node n held) ≤ sr_memory_mb r;
  ft_vram : ∀ n r g, machines !! n = Some r → g ∈ sr_gpus r →
    Nsum (vram_on (gi_slot g)) (on_node n held) ≤ gi_vram_mb g;
}.

Lemma fits_weaken machines held held' :
  fits machines held' →
  (∀ na, na ∈ held → na ∈ held') →
  (∀ n (f : Allocation → N), Nsum f (on_node n held) ≤ Nsum f (on_node n held')) →
  fits machines held.
Proof.
  intros [Hw Hc Hm Hv] Hin Hle. split.
  - intros n a Ha. by apply Hw, Hin.
  - intros n r Hn. etrans; [apply Hle|by apply Hc].
  - intros n r Hn. etrans; [apply Hle|by apply Hm].
  - intros n r g Hn Hg. etrans; [apply Hle|by eapply Hv].
Qed.

#[export] Instance fits_perm machines : Proper ((≡ₚ) ==> iff) (fits machines).
Proof.
  assert (∀ h1 h2, h1 ≡ₚ h2 → fits machines h1 → fits machines h2) as Himp.
  { intros h1 h2 Hp Hf. eapply fits_weaken; [done| |].
    - intros na. by rewrite Hp.
    - intros n f. by rewrite Hp. }
  intros h1 h2 Hp. split; by apply Himp.
Qed.

Lemma fits_cons machines na held : fits machines (na :: held) → fits machines held.
Proof.
  intros Hf. eapply fits_weaken; [done|by right|]. intros n f. destruct na as [m a].
  rewrite on_node_cons. case_decide; rewrite ?Nsum_cons; lia.
Qed.

Lemma fits_app machines h1 h2 : fits machines (h1 ++ h2) → fits machines h2.
Proof. induction h1 as [|x h1 IH]; [done|]. intros Hf. by eapply IH, fits_cons. Qed.

(** Booking one execution that fits. *)
Lemma cluster_book pools held n p a :
  cluster_accounts pools held → pools !! n = Some p →
  fits (rp_total <$> pools) ((n, a) :: held) →
  cluster_accounts (<[n := ResourcePool.book a p]> pools) ((n, a) :: held).
Proof.
  intros Hacc Hn Hfit. pose proof (ca_pool _ _ Hacc _ _ Hn) as Hp.
  assert ((rp_total <$> pools) !! n = Some (rp_total p)) as Hr by by rewrite list_lookup_fmap, Hn.
  destruct (ft_whole _ _ Hfit n a) as (r & Hr' & Hwhole); [by left|].
  rewrite Hr in Hr'. injection Hr' as <-.
  pose proof (ft_cpu _ _ Hfit _ _ Hr) as Hcpu. pose proof (ft_memory _ _ Hfit _ _ Hr) as Hmem.
  pose proof (λ g, ft_vram _ _ Hfit _ _ g Hr) as Hvram.
  rewrite on_node_cons, decide_True in Hcpu, Hmem, Hvram by done. rewrite Nsum_cons in Hcpu, Hmem.
  destruct Hp as [Hwf Ac Am Av Ak].
  eapply (cluster_update _ held); [done|done| |done| |].
  - rewrite on_node_cons, decide_True by done. apply accounts_book; [by split|lia|lia| |].
    + intros ga (g & Hg & -> & _)%Hwhole. by exists g.
    + intros i v Hv. destruct (lookup_lt_is_Some_2 (sr_gpus (rp_total p)) i) as [g Hg].
      { apply lookup_lt_Some in Hv. destruct Hwf. lia. }
      pose proof (inventory_lookup _ _ _ (wf_inventory _ Hwf) Hg) as <-.
      apply list_elem_of_lookup_2 in Hg. destruct (Av g Hg) as (free & Hf & Hsum).
      specialize (Hvram g Hg). rewrite Nsum_cons in Hvram. simplify_eq. lia.
  - intros m Hm. by rewrite on_node_cons, decide_False.
  - intros m b [[= -> ->]|Hin]%elem_of_cons; [by right|by left].
Qed.

Section restart.
Context `{HashOrder} `{Rfc3339} `{Serde WorkflowSpec} `{Serde Allocation}.
Context {W : Type} `{DaemonEnv W} `{ShellOS W}.

Lemma restore_executions job row : ji_executions (restore job row) = ji_executions job.
Proof. done. Qed.

(** One stored job: what it turns out to hold is booked. *)
Lemma take_back_job_books run_id clock w jobs pools db sv jobs' pools' db' rest :
  take_back_job run_id clock w (jobs, pools, db) sv = Ret (jobs', pools', db') →
  (∀ job, jobs !! saved_id sv = Some job → ji_executions job = []) →
  rp_total <$> pools' = rp_total <$> pools ∧
  (fits (rp_total <$> pools) (jobs_held jobs' ++ rest) → fits (rp_total <$> pools) (jobs_held jobs ++ rest)) ∧
  (cluster_accounts pools (jobs_held jobs ++ rest) → fits (rp_total <$> pools) (jobs_held jobs' ++ rest) →
   cluster_accounts pools' (jobs_held jobs' ++ rest)).
Proof.
  unfold take_back_job. change (jr_job_id (sj_row sv)) with (saved_id sv). intros E Hidle.
  destruct (jobs !! saved_id sv) as [job|] eqn:Hj; [|by injection E as <- <- <-].
  specialize (Hidle _ eq_refl).
  assert (∀ job', ji_executions job' = [] →
    jobs_held (<[saved_id sv := job']> jobs) ≡ₚ jobs_held jobs) as Hsame.
  { intros job' He. destruct (map_held_update job_held jobs (saved_id sv) job job' Hj) as (l & E1 & E2).
    unfold job_held in E1, E2. rewrite Hidle in E1. rewrite He in E2. unfold jobs_held.
    by rewrite E1, E2. }
  destruct (negb _).
  { injection E as <- <- <-. by rewrite Hsame. }
  destruct (reattach run_id sv w) as [e|].
  2: { injection E as <- <- <-. by rewrite Hsame. }
  apply bind_Ret_inv in E as (pools1 & E & [= <- <- <-]).
  apply index_mut_Ret in E as (p & p' & Hp & [= <-] & ->).
  set (job' := JobInstance.set_executions [e] (restore job (sj_row sv))).
  assert (jobs_held (<[saved_id sv := job']> jobs) ≡ₚ (ex_node e, ex_allocation e) :: jobs_held jobs) as Hnew.
  { destruct (map_held_update job_held jobs (saved_id sv) job job' Hj) as (l & E1 & E2).
    unfold job_held in E1, E2. rewrite Hidle in E1. cbn in E1, E2. unfold jobs_held. by rewrite E1, E2. }
  rewrite Hnew. cbn. split_and!.
  - rewrite list_fmap_insert. apply list_insert_id. by rewrite list_lookup_fmap, Hp.
  - by intros ?%fits_cons.
  - intros Hacc Hfit. by apply cluster_book.
Qed.

Lemma take_back_jobs_books run_id clock w saved jobs pools db jobs' pools' db' rest :
  foldM (take_back_job run_id clock w) (jobs, pools, db) saved = Ret (jobs', pools', db') →
  NoDup (saved_id <$> saved) →
  (∀ sv job, sv ∈ saved → jobs !! saved_id sv = Some job → ji_executions job = []) →
  rp_total <$> pools' = rp_total <$> pools ∧
  (fits (rp_total <$> pools) (jobs_held jobs' ++ rest) → fits (rp_total <$> pools) (jobs_held jobs ++ rest)) ∧
  (cluster_accounts pools (jobs_held jobs ++ rest) → fits (rp_total <$> pools) (jobs_held jobs' ++ rest) →
   cluster_accounts pools' (jobs_held jobs' ++ rest)).
Proof.
  revert jobs pools db. induction saved as [|sv saved IH]; intros jobs pools db E Hnd Hidle.
  { cbn in E. by injection E as <- <- <-. }
  cbn [foldM] in E. apply bind_Ret_inv in E as ([[jobs1 pools1] db1] & E1 & E2).
  cbn in Hnd. apply NoDup_cons in Hnd as [Hni Hnd].
  destruct (take_back_job_books _ _ _ _ _ _ _ _ _ _ rest E1) as (Ht & Hf & Ha).
  { intros job. apply Hidle. by left. }
  destruct (IH jobs1 pools1 db1 E2 Hnd) as (Ht2 & Hf2 & Ha2).
  { intros sv' job Hsv' Hj. apply (Hidle sv'); [by right|].
    assert (saved_id sv' ≠ saved_id sv) as Hne.
    { intros Eq. apply Hni. rewrite <-Eq. by apply list_elem_of_fmap_2. }
    rewrite <-Hj. symmetry. clear -E1 Hne. unfold take_back_job in E1.
    change (jr_job_id (sj_row sv)) with (saved_id sv) in E1.
    destruct (jobs !! saved_id sv); [|by injection E1 as <- <- <-].
    destruct (negb _); [by injection E1 as <- <- <-; rewrite lookup_insert_ne|].
    destruct (reattach run_id sv w); [|by injection E1 as <- <- <-; rewrite lookup_insert_ne].
    apply bind_Ret_inv in E1 as (? & _ & [= <- <- <-]). by rewrite lookup_insert_ne. }
  rewrite Ht in *. split_and!; [done|naive_solver|]. intros Hacc Hfit. apply Ha2; [|done].
  apply Ha; [done|]. by apply Hf2.
Qed.

Lemma fresh_held spec start : jobs_held (WorkflowRun.jobs_of spec start) = [].
Proof.
  destruct (jobs_held _) as [|x l] eqn:E; [done|].
  assert (x ∈ jobs_held (WorkflowRun.jobs_of spec start)) as Hx by (rewrite E; by left).
  apply (map_held_elem job_held) in Hx as (k & job & Hk & Hx).
  apply jobs_of_lookup in Hk as (i & s & _ & _ & ->). by apply elem_of_nil in Hx.
Qed.

(** One stored run, new to the map of runs. *)
Lemma take_back_run_books clock w s saved s' :
  take_back_run clock w s saved = Ret s' → NoDup (saved_id <$> sv_jobs saved) →
  rv_runs s !! sv_run_id saved = None →
  rp_total <$> rv_pools s' = rp_total <$> rv_pools s ∧
  (fits (rp_total <$> rv_pools s) (runs_held (rv_runs s')) →
   fits (rp_total <$> rv_pools s) (runs_held (rv_runs s))) ∧
  (cluster_accounts (rv_pools s) (runs_held (rv_runs s)) →
   fits (rp_total <$> rv_pools s) (runs_held (rv_runs s')) →
   cluster_accounts (rv_pools s') (runs_held (rv_runs s'))).
Proof.
  unfold take_back_run. destruct (saved_spec saved) as [spec|]; [|by intros [= <-]].
  intros ([[jobs pools] db] & E & [= <-])%bind_Ret_inv Hnd Hnew. cbn.
  assert (∀ run, runs_held (<[sv_run_id saved := run]> (rv_runs s))
    ≡ₚ jobs_held (wr_jobs run) ++ runs_held (rv_runs s)) as Hins.
  { intros run. by apply (map_held_insert (λ run, jobs_held (wr_jobs run))). }
  rewrite Hins. cbn.
  destruct (take_back_jobs_books _ _ _ _ _ _ _ _ _ _ (runs_held (rv_runs s)) E Hnd) as (Ht & Hf & Ha).
  { intros sv job _ (i & sp & _ & _ & ->)%jobs_of_lookup. done. }
  cbn in Hf, Ha. rewrite fresh_held in Hf, Ha. done.
Qed.

Lemma take_back_runs_books clock w l s s' :
  foldM (take_back_run clock w) s l = Ret s' →
  NoDup (sv_run_id <$> l) → (∀ sv, sv ∈ l → NoDup (saved_id <$> sv_jobs sv)) →
  (∀ sv, sv ∈ l → rv_runs s !! sv_run_id sv = None) →
  (fits (rp_total <$> rv_pools s) (runs_held (rv_runs s')) →
   fits (rp_total <$> rv_pools s) (runs_held (rv_runs s))) ∧
  (cluster_accounts (rv_pools s) (runs_held (rv_runs s)) →
   fits (rp_total <$> rv_pools s) (runs_held (rv_runs s')) →
   cluster_accounts (rv_pools s') (runs_held (rv_runs s'))).
Proof.
  revert s. induction l as [|sv l IH]; intros s E Hnd Hjobs Hnew.
  { cbn in E. by injection E as <-. }
  cbn [foldM] in E. apply bind_Ret_inv in E as (s1 & E1 & E2). apply NoDup_cons in Hnd as [Hni Hnd].
  destruct (take_back_run_books _ _ _ _ _ E1) as (Ht & Hf & Ha); [apply Hjobs; by left|apply Hnew; by left|].
  destruct (IH s1 E2 Hnd) as (Hf2 & Ha2).
  { intros sv' Hsv'. apply Hjobs. by right. }
  { intros sv' Hsv'. rewrite (take_back_run_other _ _ _ _ _ _ E1); [apply Hnew; by right|].
    intros Eq. apply Hni. rewrite <-Eq. by apply list_elem_of_fmap_2. }
  rewrite Ht in Hf2, Ha2. naive_solver.
Qed.

(** ** The books *)

(** After a restart the books balance: on every node, what is free and
    what the jobs taken back hold add up to what the machine has, in CPU,
    memory and VRAM, and a card is marked held exactly when one of them holds
    it; so the scheduler starts from the same invariant its ticks keep.  This
    needs every machine to still have what its jobs were given. *)
Lemma recovery_books machines clock w s s' :
  rv_runs s = ∅ → rv_pools s = ResourcePool.new <$> machines → Forall inventory_wf machines →
  take_back_runs clock w s = Ret s' → fits machines (runs_held (rv_runs s')) →
  cluster_accounts (rv_pools s') (runs_held (rv_runs s')).
Proof.
  intros Hruns Hpools Hwf E Hfit.
  assert (rp_total <$> rv_pools s = machines) as Htot.
  { rewrite Hpools, <-list_fmap_compose. apply list_fmap_id. }
  destruct (take_back_runs_books clock w _ s s' E) as (_ & Ha).
  { apply NoDup_unfinished_runs. }
  { intros sv' (r & _ & -> & _)%elem_of_unfinished_runs. apply NoDup_saved_jobs. }
  { intros sv _. by rewrite Hruns. }
  rewrite Htot in Ha. apply Ha; [|done]. rewrite Hruns, Hpools. by apply cluster_accounts_new.
Qed.

End restart.

(** ** Witness *)

#[local] Existing Instance canonical_order.
#[local] Existing Instance demo_rfc3339.
#[local] Existing Instance demo_two_nodes.
#[local] Existing Instance demo_os.
#[local] Existing Instance demo_spec_serde.
#[local] Existing Instance demo_allocation_serde.

Lemma demo_held :
  (match demo_recovered with Ret s => runs_held (rv_runs s) | Panic => [] end) =
  [(1%nat, demo_held_alloc)].
Proof. vm_compute. reflexivity. Qed.

Lemma demo_fits : fits [demo_resources; demo_resources] [(1%nat, demo_held_alloc)].
Proof.
  split.
  - intros n a [= -> ->]%list_elem_of_singleton. exists demo_resources. split; [done|].
    intros ga ->%list_elem_of_singleton. eexists. split; [by left|]. by split.
  - intros [|[|n]] r; cbn; intros; by simplify_eq.
  - intros [|[|n]] r; cbn; intros; by simplify_eq.
  - intros [|[|n]] r g; cbn; intros Hr Hg; simplify_eq; (apply elem_of_cons in Hg as [->|Hg];
      [by vm_compute|apply list_elem_of_singleton in Hg as ->; by vm_compute]).
Qed.

Lemma recovery_books_witness :
  match demo_recovered with
  | Ret s => cluster_accounts (rv_pools s) (runs_held (rv_runs s))
  | Panic => False
  end.
Proof.
  pose proof demo_held as Hheld. destruct demo_recovered as [s|] eqn:E; [|discriminate Hheld].
  apply (recovery_books [demo_resources; demo_resources] demo_clock (0 : N) demo_recovery s).
  - reflexivity.
  - reflexivity.
  - by repeat (constructor; [apply (bool_decide_unpack _); vm_compute; exact I|]).
  - exact E.
  - rewrite Hheld. exact demo_fits.
Defined.
