(* ===== verification/System.v ===== *)
(** * The daemon as a whole: scheduler, submissions and cancels interleaved

    The scheduler task runs its stretches ([Scheduler.v], [Qualify.v]) one
    after the other; between any two of them the IPC tasks of [Server.v] may
    submit and cancel runs, and the outside world may change arbitrarily.  The
    scheduler's place between two awaits, with the work it has in flight, is
    its program counter.  [sys_inv] is the invariant of the whole. *)

From S2P Require Import Prelude Spec Pool Placement Handle Model Dag Text Health Protocol Executor.
From S2P Require Import Scheduler Qualify Tasks Server.

(** ** States and steps *)

(** Where the scheduler task stands. *)
Inductive pc :=
  | P_Finish (todo : list Qualification) (polled : list (Qualification * bool))
  | P_Check (readings : list (option (list GpuHealth)))  (* of the nodes read so far *)
  | P_Qualify (l : list ToQualify)
  | P_Pending
  | P_Skip
  | P_Reserve
  | P_Launch (tasks : list AdmitTask) (outcomes : list LaunchOutcome)
  | P_Collect
  | P_Poll (jobs : list RunningJob) (entries : list PollEntry)
  | P_Flush (phase : nat) (to_write : transitions).

Section system.
Context `{HashOrder}.
Context {W : Type} `{DaemonEnv W}.

Record Sys := mkSys {
  sy_ds : DaemonState;
  sy_checks : GpuChecks;
  sy_world : W;
  sy_pc : pc;
}.

(** What one stretch draws from outside: clocks, a fresh id, and whether this
    tick is one of the twentieth that check the cards. *)
Record Choices := mkChoices {
  ch_utc : string → string → DateTime;
  ch_raw : string → string → N;
  ch_now : Instant;
  ch_started : Instant;   (* once a test's launch returned *)
  ch_check : CheckClock;
  ch_uuid : string;
  ch_due : bool;
}.

Definition set_pools (pools : list ResourcePool) (ds : DaemonState) : DaemonState :=
  mkDaemonState (ds_runs ds) pools (ds_requalify ds).

(** [run] and [tick], one stretch at a time. *)
Definition sched_step (c : Choices) (s : Sys) : exec Sys :=
  let ds := sy_ds s in
  let checks := sy_checks s in
  let w := sy_world s in
  match sy_pc s with
  | P_Finish (q :: todo) polled =>
      r ← finish_one (ch_now c) q w;
      Ret (mkSys ds checks r.2 (P_Finish todo (polled ++ [r.1])))
  | P_Finish [] polled =>
      let ended := (List.filter snd polled).*1 in
      let kept := (List.filter (λ qb, negb qb.2) polled).*1 in
      pools ← release_ended ended (ds_pools ds);
      Ret (mkSys (set_pools pools ds) (set_qualifying (gc_qualifying checks ++ kept) checks)
             w (P_Check []))
  | P_Check readings =>
      match env_nodes !! length readings with
      | Some node => Ret (mkSys ds checks w (P_Check (readings ++ [node_reading w node])))
      | None =>
          r ← check_pools (ch_check c) readings ds checks;
          let '(ds', checks', l) := r in
          Ret (mkSys ds' checks' w (P_Qualify l))
      end
  | P_Qualify (tq :: l) =>
      r ← qualify_one (ch_now c) (ch_started c) (ch_uuid c) tq (ds_pools ds) checks w;
      let '((pools, checks'), w') := r in
      Ret (mkSys (set_pools pools ds) checks' w' (P_Qualify l))
  | P_Qualify [] => Ret (mkSys ds checks w P_Pending)
  | P_Pending =>
      let '(runs, to_write) := queue_ready (ds_runs ds) in
      Ret (mkSys (set_runs runs ds) checks w (P_Flush 0 to_write))
  | P_Skip =>
      let '(runs, to_write) := skip_doomed (ch_utc c) (ds_runs ds) in
      Ret (mkSys (set_runs runs ds) checks w (P_Flush 1 to_write))
  | P_Reserve =>
      r ← reserve_queued (ds_runs ds) (online_nodes w) (ds_pools ds);
      let '(pools, tasks) := r in
      Ret (mkSys (set_pools pools ds) checks w (P_Launch tasks []))
  | P_Launch (t :: tasks) outcomes =>
      r ← launch_task t w;
      Ret (mkSys ds checks r.2 (P_Launch tasks (outcomes ++ [r.1])))
  | P_Launch [] outcomes =>
      r ← apply_outcomes (ch_utc c) outcomes ds;
      Ret (mkSys r.1 checks w (P_Flush 2 r.2))
  | P_Collect => Ret (mkSys ds checks w (P_Poll (collect_running (ds_runs ds)) []))
  | P_Poll (j :: jobs) entries =>
      r ← poll_job j w;
      Ret (mkSys ds checks r.2 (P_Poll jobs (entries ++ [r.1])))
  | P_Poll [] entries =>
      r ← apply_entries (ch_utc c) entries ds;
      Ret (mkSys r.1 checks w (P_Flush 3 r.2))
  | P_Flush phase (rj :: to_write) =>
      w' ← flush_one (ch_raw c) (ds_runs ds) w rj;
      Ret (mkSys ds checks w' (P_Flush phase to_write))
  | P_Flush phase [] =>
      Ret match phase with
          | 0%nat => mkSys ds checks w P_Skip
          | 1%nat => mkSys ds checks w P_Reserve
          | 2%nat => mkSys ds checks w P_Collect
          | _ => if ch_due c
                 then mkSys ds (set_qualifying [] checks) w (P_Finish (gc_qualifying checks) [])
                 else mkSys ds checks w P_Pending
          end
  end.

(** One step of the daemon. *)
Inductive step : Sys → Sys → Prop :=
  | step_sched c s s' : sched_step c s = Ret s' → step s s'
  | step_submit env yaml counters s response counters' ds' w' :
      ds_runs (sy_ds s) !! se_run_id env = None →
      handle_submit env yaml counters (sy_ds s) (sy_world s)
        = Some (Ret (response, counters', ds', w')) →
      step s (mkSys ds' (sy_checks s) w' (sy_pc s))
  | step_cancel run_id run s :
      ds_runs (sy_ds s) !! run_id = Some run →
      step s (mkSys (set_runs (<[run_id := (mark_cancelling run).1]> (ds_runs (sy_ds s))) (sy_ds s))
                (sy_checks s) (sy_world s) (sy_pc s))
  | step_world w' s : step s (mkSys (sy_ds s) (sy_checks s) w' (sy_pc s)).

(** The daemon after a start with nothing to take back: idle pools, one per
    node, no run. *)
Definition initial (machines : list SystemResources) (w : W) : Sys :=
  mkSys (mkDaemonState ∅ (ResourcePool.new <$> machines) ∅) (mkGpuChecks ∅ [] ∅) w (P_Finish [] []).

Definition reachable (machines : list SystemResources) (s : Sys) : Prop :=
  ∃ w, rtc step (initial machines w) s.

(** What a daemon needs to start: HOME, and a node per inventory. *)
Definition can_start (machines : list SystemResources) : Prop :=
  is_Some env_home ∧ length machines = length env_nodes ∧ Forall inventory_wf machines.

(** ** Jobs by name *)

Definition job_at (runs : gmap string WorkflowRun) (k j : string) : option JobInstance :=
  run ← runs !! k; wr_jobs run !! j.

Lemma job_at_Some runs k j job :
  job_at runs k j = Some job ↔ ∃ run, runs !! k = Some run ∧ wr_jobs run !! j = Some job.
Proof. unfold job_at. rewrite bind_Some. naive_solver. Qed.

Lemma job_at_update runs k run j job k' j' :
  runs !! k = Some run →
  job_at (update_job k j run job runs) k' j'
  = if decide ((k', j') = (k, j)) then Some job else job_at runs k' j'.
Proof.
  intros Hk. unfold job_at, update_job. destruct (decide (k' = k)) as [->|Hne].
  - rewrite lookup_insert_eq, Hk. cbn. destruct (decide (j' = j)) as [->|Hj].
    + by rewrite lookup_insert_eq, decide_True.
    + rewrite lookup_insert_ne, decide_False; [done| |done]. naive_solver.
  - rewrite lookup_insert_ne, decide_False; [done| |done]. naive_solver.
Qed.

Lemma update_job_wf runs k run j job :
  runs_wf runs → runs !! k = Some run → ji_job_id job = j → runs_wf (update_job k j run job runs).
Proof.
  unfold update_job. intros Hwf Hk Hj k' run'.
  intros [[<- <-]|[Hne Hk']]%lookup_insert_Some; [|by apply Hwf].
  destruct (Hwf _ _ Hk) as [Hid Hrun]. split; [done|].
  intros j' job'. cbn. intros [[<- <-]|[Hne Hj']]%lookup_insert_Some; [done|by apply Hrun].
Qed.

(** ** How a job moves *)

(** The edges of the job state machine, self-loops for the updates that keep
    a live job where it is. *)
Definition edge (s s' : JobState.t) : bool :=
  match s, s' with
  | JobState.Pending, (JobState.Queued | JobState.Skipped)
  | JobState.Queued, (JobState.Queued | JobState.Skipped | JobState.Running | JobState.Failed)
  | JobState.Running,
      (JobState.Running | JobState.Succeeded | JobState.Failed | JobState.Cancelled) => true
  | _, _ => false
  end.

Definition same_job (job job' : JobInstance) : Prop :=
  ji_job_id job' = ji_job_id job ∧ ji_job_seq job' = ji_job_seq job ∧ ji_spec job' = ji_spec job.

Definition keeps_running (job job' : JobInstance) : Prop :=
  ji_state job = JobState.Running → ji_state job' = JobState.Running →
  ji_executions job' = ji_executions job.

Definition moves (job job' : JobInstance) : Prop :=
  job' = job ∨
  (same_job job job' ∧ edge (ji_state job) (ji_state job') = true ∧ keeps_running job job').

(** A run keeps its identity and its spec. *)
Definition same_run (run run' : WorkflowRun) : Prop :=
  wr_run_id run' = wr_run_id run ∧ wr_run_seq run' = wr_run_seq run ∧ wr_spec run' = wr_spec run ∧
  wr_created_at run' = wr_created_at run ∧ wr_workflow_name run' = wr_workflow_name run.

(** Every job moves along an edge or stays; none appears or disappears. *)
Record advances (runs runs' : gmap string WorkflowRun) : Prop := {
  adv_fwd : ∀ k j job, job_at runs k j = Some job → ∃ job', job_at runs' k j = Some job' ∧ moves job job';
  adv_bwd : ∀ k j job', job_at runs' k j = Some job' → is_Some (job_at runs k j);
  adv_run : ∀ k, option_Forall2 same_run (runs !! k) (runs' !! k);
}.

Lemma moves_terminal job job' :
  moves job job' → JobState.is_terminal (ji_state job) = true → job' = job.
Proof. intros [?|(_ & He & _)] Ht; [done|]. by destruct (ji_state job), (ji_state job'). Qed.

Lemma moves_edge job job' :
  same_job job job' → edge (ji_state job) (ji_state job') = true →
  ji_state job ≠ JobState.Running ∨ ji_state job' ≠ JobState.Running → moves job job'.
Proof. intros Hs He Hn. right. split_and!; [done|done|]. intros ? ?. by destruct Hn. Qed.

Lemma advances_refl runs : advances runs runs.
Proof.
  split; [|eauto|].
  - intros k j job Hj. exists job. split; [done|by left].
  - intros k. by destruct (runs !! k); constructor.
Qed.

Lemma same_run_update runs k run j job' k' :
  runs !! k = Some run →
  option_Forall2 same_run (runs !! k') (update_job k j run job' runs !! k').
Proof.
  intros Hk. unfold update_job. destruct (decide (k' = k)) as [->|Hne].
  - rewrite lookup_insert_eq, Hk. by constructor.
  - rewrite lookup_insert_ne by done. by destruct (runs !! k'); constructor.
Qed.

Lemma same_run_trans (o1 o2 o3 : option WorkflowRun) :
  option_Forall2 same_run o1 o2 → option_Forall2 same_run o2 o3 → option_Forall2 same_run o1 o3.
Proof.
  intros [r1 r2 (E1 & E2 & E3 & E4 & E5)|] H2; inversion H2 as [? r3 (F1 & F2 & F3 & F4 & F5)|]; subst;
    constructor. unfold same_run. by rewrite F1, F2, F3, F4, F5.
Qed.

(** ** The invariant *)

(** What a job's own record says of it. *)
Record job_ok (job : JobInstance) : Prop := {
  jo_rejected : rejections_known job;
  jo_running : ji_state job = JobState.Running →
    ∃ e, ji_executions job = [e] ∧ is_Some (ex_handle e);
  jo_idle : ji_state job ≠ JobState.Running → ji_executions job = [];
}.

(** Why a job may be in its state: it started only after its dependencies
    succeeded, and was skipped only because one did not. *)
Definition justified (runs : gmap string WorkflowRun) (k : string) (job : JobInstance) : Prop :=
  match ji_state job with
  | JobState.Pending => True
  | JobState.Skipped => ∃ d, d ∈ js_depends_on (ji_spec job) ∧
      ∃ jd, job_at runs k d = Some jd ∧ dead (ji_state jd)
  | _ => ∀ d, d ∈ js_depends_on (ji_spec job) →
      ∃ jd, job_at runs k d = Some jd ∧ ji_state jd = JobState.Succeeded
  end.

(** What the stretch in flight holds. *)
Definition pc_held (p : pc) : list (nat * Allocation) :=
  match p with
  | P_Finish todo polled => qf_held <$> (todo ++ polled.*1)
  | P_Qualify l => tq_held <$> l
  | P_Launch tasks outcomes => tasks_held tasks ++ (outcomes ≫= lo_held)
  | _ => []
  end.

Definition lo_name (o : LaunchOutcome) : job_name := (lo_run_id o, lo_job_id o).
Definition pe_name (e : PollEntry) : job_name := (pe_run_id e, pe_job_id e).

(** [names] are distinct jobs in a given state. *)
Definition all_in (runs : gmap string WorkflowRun) (st : JobState.t) (names : list job_name) : Prop :=
  NoDup names ∧
  ∀ k j, (k, j) ∈ names → ∃ job, job_at runs k j = Some job ∧ ji_state job = st.

Definition outcome_ok (o : LaunchOutcome) : Prop :=
  ∃ e, lo_executions o = [e] ∧ (lo_result o = Ok tt → is_Some (ex_handle e)).

Definition pc_ok (runs : gmap string WorkflowRun) (p : pc) : Prop :=
  match p with
  | P_Launch tasks outcomes =>
      all_in runs JobState.Queued ((task_name <$> tasks) ++ (lo_name <$> outcomes)) ∧
      Forall (λ t, ∃ n a, at_placement t = [(n, a)]) tasks ∧ Forall outcome_ok outcomes
  | P_Poll jobs entries =>
      all_in runs JobState.Running ((rj_name <$> jobs) ++ (pe_name <$> entries)) ∧
      Forall (λ j, (rj_node j < length env_nodes)%nat) jobs
  | P_Check readings => (length readings ≤ length env_nodes)%nat
  | _ => True
  end.

(** What a stretch makes of the jobs, the runs before it already justify. *)
Definition foreseen (runs runs' : gmap string WorkflowRun) : Prop :=
  ∀ k j job, job_at runs' k j = Some job → justified runs k job.

Definition jobs_ok (runs : gmap string WorkflowRun) : Prop :=
  ∀ k j job, job_at runs k j = Some job → job_ok job ∧ justified runs k job.

Record sys_inv (s : Sys) : Prop := {
  si_home : is_Some env_home;
  si_runs : runs_wf (ds_runs (sy_ds s));
  si_nodes : length (ds_pools (sy_ds s)) = length env_nodes;
  si_books : cluster_accounts (ds_pools (sy_ds s))
    (runs_held (ds_runs (sy_ds s)) ++ pc_held (sy_pc s)
     ++ (qf_held <$> gc_qualifying (sy_checks s)));
  si_jobs : jobs_ok (ds_runs (sy_ds s));
  si_pc : pc_ok (ds_runs (sy_ds s)) (sy_pc s);
}.

(** ** Preservation of the parts *)

Lemma justified_advances runs runs' k job :
  advances runs runs' → justified runs k job → justified runs' k job.
Proof.
  intros Hadv. assert (∀ d (P : JobState.t → Prop), (∀ s, P s → JobState.is_terminal s = true) →
    (∃ jd, job_at runs k d = Some jd ∧ P (ji_state jd)) →
    (∃ jd, job_at runs' k d = Some jd ∧ P (ji_state jd))) as Hkeep.
  { intros d P HP (jd & Hd & Hs). destruct (adv_fwd _ _ Hadv _ _ _ Hd) as (jd' & Hd' & Hm).
    exists jd'. split; [done|]. by rewrite (moves_terminal _ _ Hm) by auto. }
  unfold justified. intros Hj. destruct (ji_state job); try done;
    try (intros d Hd; apply (Hkeep d (λ s, s = JobState.Succeeded)); [by intros ? ->|by apply Hj]).
  destruct Hj as (d & Hd & Hdead). exists d. split; [done|].
  apply (Hkeep d dead); [by intros ? []|done].
Qed.

Lemma edge_justified runs k job job' :
  justified runs k job → same_job job job' → edge (ji_state job) (ji_state job') = true →
  ji_state job ≠ JobState.Pending → ji_state job' ≠ JobState.Skipped → justified runs k job'.
Proof.
  intros Hj (_ & _ & Hspec) He. unfold justified in *. rewrite Hspec.
  destruct (ji_state job), (ji_state job'); cbn in *; try done; by intros.
Qed.

(** A move that leaves every other job alone. *)
Lemma advances_update runs k run j job job' :
  runs !! k = Some run → wr_jobs run !! j = Some job → moves job job' →
  advances runs (update_job k j run job' runs).
Proof.
  intros Hk Hj Hm. assert (job_at runs k j = Some job) as Hkj by (apply job_at_Some; eauto).
  split.
  - intros k' j' job0 Hj0. rewrite (job_at_update _ _ _ _ _ _ _ Hk).
    destruct (decide _) as [[= -> ->]|_]; [|exists job0; split; [done|by left]].
    exists job'. by simplify_eq.
  - intros k' j' job0. rewrite (job_at_update _ _ _ _ _ _ _ Hk).
    destruct (decide _) as [[= -> ->]|_]; eauto.
  - intros k'. by apply same_run_update.
Qed.

Lemma jobs_ok_update runs k run j job job' :
  runs !! k = Some run → wr_jobs run !! j = Some job → jobs_ok runs → moves job job' →
  job_ok job' → justified runs k job' → jobs_ok (update_job k j run job' runs).
Proof.
  intros Hk Hj Hok Hm Hok' Hjust k' j' job0. pose proof (advances_update _ _ _ _ _ _ Hk Hj Hm) as Hadv.
  rewrite (job_at_update _ _ _ _ _ _ _ Hk). destruct (decide _) as [[= -> ->]|_].
  - intros [= <-]. split; [done|]. by eapply justified_advances.
  - intros Hj0. destruct (Hok _ _ _ Hj0). split; [done|]. by eapply justified_advances.
Qed.

Lemma all_in_update runs k run j job st names :
  runs !! k = Some run → (k, j) ∉ names → all_in runs st names →
  all_in (update_job k j run job runs) st names.
Proof.
  intros Hk Hni [Hnd Hin]. split; [done|]. intros k' j' Hkj.
  rewrite (job_at_update _ _ _ _ _ _ _ Hk), decide_False; [by apply Hin|].
  intros [= -> ->]. done.
Qed.

Lemma all_in_cons runs st k j names :
  all_in runs st ((k, j) :: names) →
  (∃ run job, runs !! k = Some run ∧ wr_jobs run !! j = Some job ∧ ji_state job = st) ∧
  (k, j) ∉ names ∧ all_in runs st names.
Proof.
  intros [[Hni Hnd]%NoDup_cons Hin]. split_and!; [|done|].
  - destruct (Hin k j) as (job & Hjob & Hs); [by left|].
    apply job_at_Some in Hjob as (run & ? & ?). by exists run, job.
  - split; [done|]. intros k' j' Hkj. apply Hin. by right.
Qed.

(** What a stretch does to the runs. *)
Definition progress (runs runs' : gmap string WorkflowRun) : Prop :=
  advances runs runs' ∧ foreseen runs runs'.

Lemma progress_refl runs : jobs_ok runs → progress runs runs.
Proof. intros Hok. split; [apply advances_refl|]. by intros k j job [_ ?]%Hok. Qed.

(** ** The marking phases *)

(** What a phase does to the runs: a legal transition of the whole table that
    keeps every job's holdings. *)
Record quiet_phase (runs runs' : gmap string WorkflowRun) : Prop := {
  qp_wf : runs_wf runs';
  qp_held : runs_held runs' ≡ₚ runs_held runs;
  qp_advances : advances runs runs';
  qp_jobs : jobs_ok runs';
  qp_foreseen : foreseen runs runs';
}.

Lemma marked_at f test runs :
  runs_wf runs → ∀ k j job',
  job_at (values_mut (λ run, mark_jobs (f run) (job_ids (test (wr_jobs run)) run) run) runs).1 k j = Some job' ↔
  ∃ run job, runs !! k = Some run ∧ wr_jobs run !! j = Some job ∧
    job' = if test (wr_jobs run) job then f run j job else job.
Proof.
  intros Hwf k j job'. destruct (mark_runs f test runs Hwf) as [Hlook _]. rewrite job_at_Some, Hlook. split.
  - intros (run' & Hk & Hj). destruct (runs !! k) as [run|]; [|done]. injection Hk as <-. cbn in Hj.
    rewrite map_lookup_imap in Hj. destruct (wr_jobs run !! j) as [job|] eqn:Ej; [|done].
    cbn in Hj. injection Hj as <-. by exists run, job.
  - intros (run & job & Hk & Hj & ->). eexists. rewrite Hk. cbn. split; [done|]. cbn.
    by rewrite map_lookup_imap, Hj.
Qed.

Lemma marked_phase f test runs :
  runs_wf runs → jobs_ok runs →
  (∀ k run j job, runs !! k = Some run → wr_jobs run !! j = Some job →
     test (wr_jobs run) job = true →
     same_job job (f run j job) ∧ edge (ji_state job) (ji_state (f run j job)) = true ∧
     ji_executions (f run j job) = ji_executions job ∧ job_ok (f run j job) ∧
     justified runs k (f run j job)) →
  quiet_phase runs
    (values_mut (λ run, mark_jobs (f run) (job_ids (test (wr_jobs run)) run) run) runs).1.
Proof.
  intros Hwf Hok Hf. destruct (mark_runs f test runs Hwf) as [Hlook _].
  set (runs' := (values_mut _ runs).1) in *.
  pose proof (marked_at f test runs Hwf) as Hat. fold runs' in Hat.
  assert (Hadv : advances runs runs').
  { split.
    - intros k j job (run & Hk & Hj)%job_at_Some.
      exists (if test (wr_jobs run) job then f run j job else job). split.
      + apply Hat. eauto.
      + destruct (test (wr_jobs run) job) eqn:Et; [|by left]. right.
        destruct (Hf _ _ _ _ Hk Hj Et) as (? & ? & ? & _). split_and!; [done|done|by intros _ _].
    - intros k j job' (run & job & Hk & Hj & _)%Hat. exists job. apply job_at_Some. eauto.
    - intros k. rewrite Hlook. by destruct (runs !! k); constructor. }
  assert (Hfore : foreseen runs runs').
  { intros k j job' (run & job & Hk & Hj & ->)%Hat.
    destruct (test (wr_jobs run) job) eqn:Et; [by eapply Hf|].
    apply (Hok k j job), job_at_Some. eauto. }
  split; [| |done| |done].
  - intros k run'. rewrite Hlook. destruct (runs !! k) as [run|] eqn:Hk; [|done].
    intros [= <-]. cbn. destruct (Hwf _ _ Hk) as [Hid Hrun]. split; [done|].
    intros j job'. cbn. rewrite map_lookup_imap. destruct (wr_jobs run !! j) as [job|] eqn:Hj; [|done].
    intros [= <-]. destruct (test (wr_jobs run) job) eqn:Et; [|by apply Hrun].
    destruct (Hf _ _ _ _ Hk Hj Et) as ((-> & _) & _). by apply Hrun.
  - symmetry. apply (map_held_ext (λ run, jobs_held (wr_jobs run))). intros k. rewrite Hlook.
    destruct (runs !! k) as [run|] eqn:Hk; constructor.
    apply (map_held_ext job_held). intros j. cbn. rewrite map_lookup_imap.
    destruct (wr_jobs run !! j) as [job|] eqn:Hj; constructor.
    destruct (test (wr_jobs run) job) eqn:Et; [|done].
    destruct (Hf _ _ _ _ Hk Hj Et) as (_ & _ & Hex & _). unfold job_held. by rewrite Hex.
  - intros k j job' Hj'. split; [|by eapply justified_advances; [|eapply Hfore]].
    apply Hat in Hj' as (run & job & Hk & Hj & ->).
    destruct (test (wr_jobs run) job) eqn:Et; [by eapply Hf|].
    apply (Hok k j job), job_at_Some. eauto.
Qed.

Lemma queue_ready_phase runs :
  runs_wf runs → jobs_ok runs → quiet_phase runs (queue_ready runs).1.
Proof.
  intros Hwf Hok. rewrite queue_ready_mark. apply (marked_phase (λ _ _, JobInstance.set_state _));
    [done..|]. intros k run j job Hk Hj [Hs Hdeps]%ready_spec.
  destruct (Hok k j job) as [[Hrej Hrun Hidle] _]; [apply job_at_Some; eauto|].
  split_and!; [done|by rewrite Hs|done| |].
  - split; [done|done|]. intros _. cbn. apply Hidle. by rewrite Hs.
  - intros d Hd. cbn in Hd. destruct (Hdeps d Hd) as (jd & ? & ?). exists jd.
    split; [apply job_at_Some; eauto|done].
Qed.

Lemma skip_doomed_phase clock runs :
  runs_wf runs → jobs_ok runs → quiet_phase runs (skip_doomed clock runs).1.
Proof.
  intros Hwf Hok. rewrite skip_doomed_mark.
  apply (marked_phase (λ run j, skip_job (clock (wr_run_id run) j))); [done..|].
  intros k run j job Hk Hj (Hs & d & Hd & jd & Hjd & Hdead)%doomed_spec.
  destruct (Hok k j job) as [[Hrej Hrun Hidle] _]; [apply job_at_Some; eauto|].
  split_and!; [done|by destruct Hs as [-> | ->]|done| |].
  - split; [done|done|]. intros _. cbn. apply Hidle. by destruct Hs as [-> | ->].
  - exists d. split; [done|]. exists jd. split; [apply job_at_Some; eauto|done].
Qed.

(** ** Applying the launches *)

(** What a fold over results preserves: [names] are still to be applied, and
    their resources are [pending]. *)
Record applying (st : JobState.t) (runs0 : gmap string WorkflowRun) (names : list job_name)
    (pending held : list (nat * Allocation)) (ds : DaemonState) : Prop := {
  ap_runs : runs_wf (ds_runs ds);
  ap_nodes : length (ds_pools ds) = length env_nodes;
  ap_books : cluster_accounts (ds_pools ds) (runs_held (ds_runs ds) ++ pending ++ held);
  ap_jobs : jobs_ok (ds_runs ds);
  ap_names : all_in (ds_runs ds) st names;
  ap_same : ∀ k j, (k, j) ∈ names → job_at (ds_runs ds) k j = job_at runs0 k j;
  ap_advances : advances runs0 (ds_runs ds);
  ap_foreseen : foreseen runs0 (ds_runs ds);
}.

(** A fold's effects, one element after the other. *)
Fixpoint chain {A} (R : A → DaemonState → DaemonState → Prop) (l : list A) (ds ds' : DaemonState) : Prop :=
  match l with
  | [] => ds' = ds
  | x :: l => ∃ ds1, R x ds ds1 ∧ chain R l ds1 ds'
  end.

(** What every effect keeps, the chain keeps. *)
Lemma chain_inv {A} (R : A → DaemonState → DaemonState → Prop) (I : DaemonState → Prop) l ds ds' :
  (∀ x ds ds', x ∈ l → R x ds ds' → I ds → I ds') → chain R l ds ds' → I ds → I ds'.
Proof.
  revert ds. induction l as [|x l IH]; intros ds HR; [by intros ->|].
  intros (ds1 & H1 & Hl) Hs. eapply IH; [|exact Hl|eapply HR; [by left|done..]].
  intros y ? ? Hy. apply HR. by right.
Qed.

(** What one launch result did to its job, and one poll result. *)
Definition outcome_applied (clock : string → string → DateTime) (o : LaunchOutcome) (ds ds' : DaemonState) : Prop :=
  (∃ tw tw', apply_outcome clock (ds, tw) o = Ret (ds', tw')) ∧
  ∃ run job job' e, ds_runs ds !! lo_run_id o = Some run ∧ wr_jobs run !! lo_job_id o = Some job ∧
    ji_state job = JobState.Queued ∧ lo_executions o = [e] ∧
    launch_applied (clock (lo_run_id o) (lo_job_id o)) o e (ds_pools ds') job job' ∧
    ds_runs ds' = update_job (lo_run_id o) (lo_job_id o) run job' (ds_runs ds).

Definition entry_applied (clock : string → string → DateTime) (entry : PollEntry) (ds ds' : DaemonState) : Prop :=
  (∃ tw tw', apply_entry clock (ds, tw) entry = Ret (ds', tw')) ∧
  ∃ run job job', ds_runs ds !! pe_run_id entry = Some run ∧ wr_jobs run !! pe_job_id entry = Some job ∧
    ji_state job = JobState.Running ∧
    poll_applied (clock (pe_run_id entry) (pe_job_id entry)) entry (ds_requalify ds) (ds_requalify ds') job job' ∧
    ds_runs ds' = update_job (pe_run_id entry) (pe_job_id entry) run job' (ds_runs ds).

(** One job's result applied, its resources included. *)
Lemma applying_update st runs0 k j names pending1 pending2 held ds run job job' pools' requalify' :
  applying st runs0 ((k, j) :: names) (pending1 ++ pending2) held ds →
  ds_runs ds !! k = Some run → wr_jobs run !! j = Some job →
  moves job job' → job_ok job' → justified runs0 k job' →
  length pools' = length (ds_pools ds) →
  (∀ rest, cluster_accounts (ds_pools ds) (job_held job ++ pending1 ++ rest) →
     cluster_accounts pools' (job_held job' ++ rest)) →
  applying st runs0 names pending2 held
    (mkDaemonState (update_job k j run job' (ds_runs ds)) pools' requalify').
Proof.
  intros [Hwf Hn Hb Hok Hnames Hsame Hadv Hfore] Hk Hj Hm Hok' Hjust Hl Hbooks.
  apply all_in_cons in Hnames as (_ & Hni & Hnames).
  destruct (update_job_held _ _ _ _ _ job' Hk Hj) as (rest & E & E').
  assert (ji_job_id job' = j) as Hid.
  { rewrite <-(proj2 (Hwf _ _ Hk) _ _ Hj). by destruct Hm as [->|((-> & _) & _)]. }
  split; cbn.
  - by apply update_job_wf.
  - by rewrite Hl.
  - rewrite E', <-!app_assoc. apply Hbooks. rewrite E in Hb.
    assert (job_held job ++ pending1 ++ rest ++ pending2 ++ held
      ≡ₚ (job_held job ++ rest) ++ (pending1 ++ pending2) ++ held) as ->; [|done].
    rewrite <-!app_assoc. f_equiv. apply Permutation_app_swap_app.
  - eapply jobs_ok_update; [done..|]. by eapply justified_advances.
  - by apply all_in_update.
  - intros k' j' Hkj. rewrite (job_at_update _ _ _ _ _ _ _ Hk), decide_False.
    + apply Hsame. by right.
    + intros [= -> ->]. done.
  - assert (job_at (ds_runs ds) k j = Some job) as Hat by (apply job_at_Some; eauto).
    split.
    + intros k' j' job0 Hj0. rewrite (job_at_update _ _ _ _ _ _ _ Hk).
      destruct (decide _) as [[= -> ->]|_]; [|by apply Hadv].
      exists job'. split; [done|]. rewrite <-(Hsame k j), Hat in Hj0 by (by left).
      by injection Hj0 as <-.
    + intros k' j' job0. rewrite (job_at_update _ _ _ _ _ _ _ Hk).
      destruct (decide _) as [[= -> ->]|_]; [|by apply Hadv].
      intros _. rewrite <-(Hsame k j) by (by left). eauto.
    + intros k'. eapply same_run_trans; [by apply Hadv|by apply same_run_update].
  - intros k' j' job0. rewrite (job_at_update _ _ _ _ _ _ _ Hk).
    destruct (decide _) as [[= -> ->]|_]; [by intros [= <-]|apply Hfore].
Qed.

Lemma launched_job_ok log e now job :
  job_ok job → is_Some (ex_handle e) → job_ok (launched_job log [e] now job).
Proof. intros [Hrej _ _] He. split; [done| |done]. intros _. by exists e. Qed.

Lemma queued_job_ok job :
  job_ok job → ji_state job ≠ JobState.Running → ji_executions job = [].
Proof. intros [_ _ Hidle]. apply Hidle. Qed.

(** A queued job's new record after its launch result. *)
Lemma launch_applied_moves now o e pools' runs k job job' :
  outcome_ok o → lo_executions o = [e] → (ex_node e < length env_nodes)%nat →
  job_ok job → ji_state job = JobState.Queued →
  justified runs k job → launch_applied now o e pools' job job' →
  moves job job' ∧ job_ok job' ∧ justified runs k job' ∧
  job_held job' = match lo_result o with Ok _ => [ex_held e] | Err _ => [] end.
Proof.
  intros (e' & He' & Hhandle) He Hn Hok Hs Hjust. rewrite He in He'. injection He' as <-.
  pose proof (queued_job_ok _ Hok ltac:(by rewrite Hs)) as Hex.
  assert (∀ job2, same_job job job2 → ji_state job2 = JobState.Failed → ji_executions job2 = [] →
    rejections_known job2 →
    moves job job2 ∧ job_ok job2 ∧ justified runs k job2 ∧ job_held job2 = []) as Hfailed.
  { intros job2 Hsame Hs2 Hex2 Hrej2.
    assert (edge (ji_state job) (ji_state job2) = true) as Hedge by (by rewrite Hs, Hs2).
    split_and!; [by apply moves_edge; [..|left; rewrite Hs]| | |by unfold job_held; rewrite Hex2].
    - split; [done| |done]. rewrite Hs2. done.
    - eapply edge_justified; [done..| |]; by rewrite ?Hs, ?Hs2. }
  assert (∀ reason, rejections_known
    (JobInstance.set_rejected (ji_rejected job ++ [(ex_node e, reason)]) job)) as Hrej'.
  { intros reason n why [?|Hin]%elem_of_app; [by eapply (jo_rejected _ Hok)|].
    apply list_elem_of_singleton in Hin as [= -> _]. done. }
  unfold launch_applied. destruct (lo_result o) as [[]|error].
  - intros [log ->]. split_and!; [by apply moves_edge; [done|rewrite Hs|left; rewrite Hs]| |by unfold justified in *; rewrite Hs in *|done].
    apply launched_job_ok; auto.
  - destruct error as [?|?|?|?|?|?|?|reason];
      try (intros ->; apply Hfailed; [done|done|done|apply Hok]).
    + intros ->. split_and!; [by left|done|done|]. unfold job_held. by rewrite Hex.
    + intros (why & [[_ ->]|[_ ->]]).
      * split_and!; [by apply moves_edge; [done|cbn; rewrite Hs|left; rewrite Hs]| | |by unfold job_held; cbn; rewrite Hex].
        -- split; cbn; [apply Hrej'|by rewrite Hs|done].
        -- unfold justified in *. cbn. by rewrite Hs in *.
      * apply Hfailed; [done|done|done|]. apply Hrej'.
Qed.

Lemma apply_outcome_inv clock runs0 o names pending held ds tw :
  is_Some env_home → outcome_ok o →
  applying JobState.Queued runs0 (lo_name o :: names) (lo_held o ++ pending) held ds →
  ∃ ds' tw', apply_outcome clock (ds, tw) o = Ret (ds', tw') ∧
    applying JobState.Queued runs0 names pending held ds' ∧ outcome_applied clock o ds ds'.
Proof.
  intros Hhome Hout Hap. pose proof (all_in_cons _ _ _ _ _ (ap_names _ _ _ _ _ _ Hap))
    as ((run & job & Hk & Hj & Hs) & _).
  destruct (ap_jobs _ _ _ _ _ _ Hap (lo_run_id o) (lo_job_id o) job) as [Hok _].
  { apply job_at_Some. eauto. }
  pose proof (ap_foreseen _ _ _ _ _ _ Hap (lo_run_id o) (lo_job_id o) job) as Hjust.
  rewrite job_at_Some in Hjust. specialize (Hjust ltac:(eauto)).
  pose proof Hout as (e & He & Hhandle).
  destruct (update_job_held _ _ _ _ _ job Hk Hj) as (rest & E & _).
  assert (job_held job = []) as Hnone.
  { unfold job_held. by rewrite (queued_job_ok _ Hok) by (by rewrite Hs). }
  assert (ex_node e < length env_nodes)%nat as Hn.
  { rewrite <-(ap_nodes _ _ _ _ _ _ Hap). eapply (ca_node _ _ _ _ (ap_books _ _ _ _ _ _ Hap)).
    apply elem_of_app. right. apply elem_of_app. left. apply elem_of_app. left.
    unfold lo_held. rewrite He. by left. }
  assert (∀ rest, cluster_accounts (ds_pools ds) (job_held job ++ lo_held o ++ rest) →
    cluster_accounts (ds_pools ds) (ex_held e :: rest)) as Hbooks.
  { intros r. unfold lo_held. by rewrite Hnone, He. }
  destruct (apply_launch_inv (clock (lo_run_id o) (lo_job_id o)) o e (ds_pools ds) job
    (rest ++ pending ++ held)) as (pools' & job' & wr & Happly & Hl & Hla & _ & _);
    [done..|apply Hok| |].
  { apply Hbooks. pose proof (ap_books _ _ _ _ _ _ Hap) as Hb. rewrite E in Hb.
    rewrite Hnone in *. cbn [app] in *. rewrite <-!app_assoc in Hb.
    by rewrite (Permutation_app_swap_app (lo_held o) rest). }
  destruct (launch_applied_moves _ _ _ _ runs0 _ _ _ Hout He Hn Hok Hs Hjust Hla)
    as (Hm & Hok' & Hjust' & Hheld').
  assert (∃ ds' tw', apply_outcome clock (ds, tw) o = Ret (ds', tw') ∧
    ds' = mkDaemonState (update_job (lo_run_id o) (lo_job_id o) run job' (ds_runs ds)) pools' (ds_requalify ds))
    as (ds' & tw' & Eo & ->) by (unfold apply_outcome; rewrite Hk, Hj, Happly; cbn; by eexists _, _).
  eexists _, _. split; [exact Eo|]. split; [|split; [by eexists _, _|by exists run, job, job', e]].
  eapply applying_update; [exact Hap|done..| ].
  intros r Hr%Hbooks.
  destruct (apply_launch_inv (clock (lo_run_id o) (lo_job_id o)) o e (ds_pools ds) job r)
    as (p2 & j2 & w2 & Happly2 & _ & _ & Hacc2 & _); [done..|apply Hok|done|].
  rewrite Happly in Happly2. injection Happly2 as <- <- <-. by rewrite Hheld'.
Qed.

Lemma apply_outcomes_inv clock runs0 os held ds tw :
  is_Some env_home → Forall outcome_ok os →
  applying JobState.Queued runs0 (lo_name <$> os) (os ≫= lo_held) held ds →
  ∃ ds' tw', foldM (apply_outcome clock) (ds, tw) os = Ret (ds', tw') ∧
    applying JobState.Queued runs0 [] [] held ds' ∧ chain (outcome_applied clock) os ds ds'.
Proof.
  intros Hhome Hos. revert ds tw. induction Hos as [|o os Ho Hos IH]; intros ds tw Hap.
  { by exists ds, tw. }
  destruct (apply_outcome_inv clock _ _ _ _ _ _ tw Hhome Ho Hap) as (ds1 & tw1 & E1 & Hap1 & H1).
  destruct (IH ds1 tw1 Hap1) as (ds2 & tw2 & E2 & Hap2 & H2).
  exists ds2, tw2. split_and!; [|done|by exists ds1]. cbn [foldM]. by rewrite E1.
Qed.

(** ** Applying the polls *)

Lemma poll_applied_moves now entry rq rq' runs k job job' :
  job_ok job → ji_state job = JobState.Running → justified runs k job →
  poll_applied now entry rq rq' job job' →
  moves job job' ∧ job_ok job' ∧ justified runs k job' ∧
  job_held job' = if still_running entry then job_held job else [].
Proof.
  intros Hok Hs Hjust.
  assert (∀ job2, same_job job job2 → edge JobState.Running (ji_state job2) = true →
    ji_state job2 ≠ JobState.Running → ji_executions job2 = [] → ji_rejected job2 = ji_rejected job →
    moves job job2 ∧ job_ok job2 ∧ justified runs k job2 ∧ job_held job2 = []) as Hended.
  { intros job2 Hsame Hedge Hns Hex2 Hrej2. split_and!.
    - apply moves_edge; [done|by rewrite Hs|by right].
    - split; [|done..]. unfold rejections_known. rewrite Hrej2. apply Hok.
    - eapply edge_justified; [done|done|by rewrite Hs|by rewrite Hs|].
      intros E. by rewrite E in Hedge.
    - unfold job_held. by rewrite Hex2. }
  unfold poll_applied, still_running. destruct (pe_result entry) as [[|exit_code]|error].
  - intros [-> _]. split_and!; [by left|done..].
  - intros [-> _]. unfold ended_job, ended_state.
    apply Hended; destruct (pe_cancelling entry), (exit_code =? 0)%Z; done.
  - destruct error; try (intros [_ ->]; by apply Hended).
    intros [-> _]. split_and!; [by left|done..].
Qed.

Lemma apply_entry_inv clock runs0 entry names held ds tw :
  applying JobState.Running runs0 (pe_name entry :: names) [] held ds →
  ∃ ds' tw', apply_entry clock (ds, tw) entry = Ret (ds', tw') ∧
    applying JobState.Running runs0 names [] held ds' ∧ entry_applied clock entry ds ds'.
Proof.
  intros Hap. pose proof (all_in_cons _ _ _ _ _ (ap_names _ _ _ _ _ _ Hap))
    as ((run & job & Hk & Hj & Hs) & _).
  destruct (ap_jobs _ _ _ _ _ _ Hap (pe_run_id entry) (pe_job_id entry) job) as [Hok _].
  { apply job_at_Some. eauto. }
  pose proof (ap_foreseen _ _ _ _ _ _ Hap (pe_run_id entry) (pe_job_id entry) job) as Hjust.
  rewrite job_at_Some in Hjust. specialize (Hjust ltac:(eauto)).
  destruct (update_job_held _ _ _ _ _ job Hk Hj) as (rest & E & _).
  destruct (apply_poll_inv (clock (pe_run_id entry) (pe_job_id entry)) entry ds job
    (rest ++ held)) as (pools' & rq' & job' & wr & Happly & Hl & Hpa & _ & _ & _).
  { pose proof (ap_books _ _ _ _ _ _ Hap) as Hb. rewrite E in Hb. by rewrite <-app_assoc in Hb. }
  destruct (poll_applied_moves _ _ _ _ runs0 _ _ _ Hok Hs Hjust Hpa)
    as (Hm & Hok' & Hjust' & Hheld').
  assert (∃ ds' tw', apply_entry clock (ds, tw) entry = Ret (ds', tw') ∧
    ds' = mkDaemonState (update_job (pe_run_id entry) (pe_job_id entry) run job' (ds_runs ds)) pools' rq')
    as (ds' & tw' & Ee & ->) by (unfold apply_entry; rewrite Hk, Hj, Happly; cbn; by eexists _, _).
  eexists _, _. split; [exact Ee|]. split; [|split; [by eexists _, _|by exists run, job, job']].
  eapply (applying_update _ _ _ _ _ [] []); [exact Hap|done..|].
  cbn. intros r Hr.
  destruct (apply_poll_inv (clock (pe_run_id entry) (pe_job_id entry)) entry ds job r Hr)
    as (p2 & rq2 & j2 & w2 & Happly2 & _ & _ & Hacc2 & _).
  rewrite Happly in Happly2. injection Happly2 as <- <- <- <-. by rewrite Hheld'.
Qed.

Lemma apply_entries_inv clock runs0 es held ds tw :
  applying JobState.Running runs0 (pe_name <$> es) [] held ds →
  ∃ ds' tw', foldM (apply_entry clock) (ds, tw) es = Ret (ds', tw') ∧
    applying JobState.Running runs0 [] [] held ds' ∧ chain (entry_applied clock) es ds ds'.
Proof.
  revert ds tw. induction es as [|en es IH]; intros ds tw Hap; [by exists ds, tw|].
  destruct (apply_entry_inv clock _ _ _ _ _ tw Hap) as (ds1 & tw1 & E1 & Hap1 & H1).
  destruct (IH ds1 tw1 Hap1) as (ds2 & tw2 & E2 & Hap2 & H2).
  exists ds2, tw2. split_and!; [|done|by exists ds1]. cbn [foldM]. by rewrite E1.
Qed.

(** ** The qualification stretches *)

Lemma finish_one_inv now q w :
  (qf_node q < length env_nodes)%nat → ∃ b w', finish_one now q w = Ret ((q, b), w').
Proof.
  intros [node Hn]%node_at_lt. unfold finish_one. rewrite Hn. cbn.
  destruct (poll (nd_executor node) (qf_handle q) w) as [result w1].
  destruct result as [[|]|[]]; try by eexists _, _.
  destruct (_ <? _); [|by eexists _, _].
  destruct (cancel _ _ _) as [? w2]. destruct (nd_request _ _ _) as [? w3]. by eexists _, _.
Qed.

Lemma qualify_one_inv now started uuid tq pools checks w held :
  (tq_node tq < length env_nodes)%nat → cluster_accounts pools (tq_held tq :: held) →
  ∃ pools' checks' w' new, qualify_one now started uuid tq pools checks w = Ret ((pools', checks'), w') ∧
    length pools' = length pools ∧ gc_qualifying checks' = gc_qualifying checks ++ new ∧
    cluster_accounts pools' ((qf_held <$> new) ++ held).
Proof.
  intros [node Hn]%node_at_lt Hacc. unfold qualify_one, start_qualification. rewrite Hn. cbn.
  destruct (launch _ _ _ _ _) as [[handle|error] w']; cbn.
  - eexists _, _, _, [_]. split_and!; done.
  - destruct (cluster_release _ _ _ _ Hacc) as (pools' & -> & Hacc' & Hs). cbn.
    eexists _, _, _, []. rewrite app_nil_r. split_and!; [done| |done|done].
    symmetry. by eapply Forall2_length.
Qed.

Lemma polled_split (polled : list (Qualification * bool)) :
  polled.*1 ≡ₚ (List.filter snd polled).*1 ++ (List.filter (λ qb, negb qb.2) polled).*1.
Proof.
  induction polled as [|[q [|]] l IH]; [done| |]; cbn; rewrite IH; [done|].
  by rewrite <-Permutation_middle.
Qed.

(** ** Every scheduler stretch keeps the invariant *)

Lemma sys_quiet s runs' p' :
  sys_inv s → quiet_phase (ds_runs (sy_ds s)) runs' → pc_held (sy_pc s) = [] →
  pc_held p' = [] → pc_ok runs' p' →
  sys_inv (mkSys (set_runs runs' (sy_ds s)) (sy_checks s) (sy_world s) p').
Proof.
  intros [Hh Hr Hn Hb Hj Hp] [Hwf Hheld Hadv Hok _] Hp0 Hp1 Hpc. split; cbn; try done.
  rewrite Hheld, Hp1. by rewrite Hp0 in Hb.
Qed.

(** A stretch that leaves the locked state alone. *)
Lemma sys_local s checks' w' p' :
  sys_inv s →
  pc_held p' ++ (qf_held <$> gc_qualifying checks')
    ≡ₚ pc_held (sy_pc s) ++ (qf_held <$> gc_qualifying (sy_checks s)) →
  pc_ok (ds_runs (sy_ds s)) p' → sys_inv (mkSys (sy_ds s) checks' w' p').
Proof.
  intros [Hh Hr Hn Hb Hj _] Hp Hpc. split; cbn; try done. by rewrite Hp.
Qed.

Lemma sys_applied st runs0 checks w p ds :
  is_Some env_home → applying st runs0 [] [] (qf_held <$> gc_qualifying checks) ds →
  pc_held p = [] → pc_ok (ds_runs ds) p → sys_inv (mkSys ds checks w p).
Proof.
  intros Hh [Hwf Hn Hb Hok _ _ _ _] Hp Hpc. split; cbn; try done. by rewrite Hp.
Qed.

Lemma held_node s n a :
  sys_inv s → (n, a) ∈ pc_held (sy_pc s) → (n < length env_nodes)%nat.
Proof.
  intros Hinv Hin. rewrite <-(si_nodes _ Hinv). eapply (ca_node _ _ _ _ (si_books _ Hinv)).
  apply elem_of_app. right. apply elem_of_app. by left.
Qed.

Lemma finish_step c s todo polled :
  sys_inv s → sy_pc s = P_Finish todo polled →
  ∃ s', sched_step c s = Ret s' ∧ sys_inv s' ∧ ds_runs (sy_ds s') = ds_runs (sy_ds s).
Proof.
  intros Hinv Hpc. unfold sched_step. rewrite Hpc. destruct todo as [|q todo].
  - destruct Hinv as [Hh Hr Hn Hb Hj Hp]. rewrite Hpc in Hb. cbn in Hb.
    set (ended := (List.filter snd polled).*1). set (kept := (List.filter _ polled).*1).
    destruct (release_ended_inv ended (ds_pools (sy_ds s)) (runs_held (ds_runs (sy_ds s)) ++
      (qf_held <$> (gc_qualifying (sy_checks s) ++ kept)))) as (pools & -> & Hacc & Hl).
    { rewrite (polled_split polled), !fmap_app in Hb. rewrite fmap_app.
      fold ended kept in Hb. rewrite Permutation_app_swap_app, (Permutation_app_comm _ (qf_held <$> kept)).
      by rewrite <-app_assoc in Hb. }
    cbn. eexists. split; [done|]. split; [|done]. split; cbn; try done; [by rewrite Hl|lia].
  - destruct (finish_one_inv (ch_now c) q (sy_world s)) as (b & w' & ->).
    { eapply (held_node s _ (qf_allocation q)); [done|]. rewrite Hpc. by left. }
    cbn. eexists. split; [done|]. split; [|done]. apply sys_local; [done| |done].
    rewrite Hpc. cbn. rewrite fmap_app. cbn. rewrite !fmap_app. cbn.
    by rewrite app_assoc, <-Permutation_cons_append.
Qed.

Lemma qualify_step c s :
  sys_inv s → ((∃ readings, sy_pc s = P_Check readings) ∨ ∃ l, sy_pc s = P_Qualify l) →
  ∃ s', sched_step c s = Ret s' ∧ sys_inv s' ∧ ds_runs (sy_ds s') = ds_runs (sy_ds s).
Proof.
  intros Hinv Hpc. unfold sched_step. destruct Hpc as [[readings Hpc]|[[|tq l] Hpc]]; rewrite Hpc.
  - destruct (env_nodes !! length readings) as [node|] eqn:Hread.
    { eexists. split; [done|]. split; [|done]. apply sys_local; [done|by rewrite Hpc|]. cbn.
      rewrite length_app. cbn. apply lookup_lt_Some in Hread. lia. }
    destruct Hinv as [Hh Hr Hn Hb Hj Hp]. rewrite Hpc in Hb, Hp. cbn in Hb, Hp.
    destruct (check_pools_inv (ch_check c) readings (sy_ds s)
      (sy_checks s) _ Hb) as (ds' & checks' & new & -> & Hruns & Hq & Hl & Hacc); [by rewrite Hn|].
    cbn. eexists. split; [done|]. split; [|done].
    split; cbn; rewrite ?Hruns; try done; [by rewrite Hl|].
    rewrite Hq. by rewrite Permutation_app_swap_app.
  - eexists. split; [done|]. split; [|done]. apply sys_local; [done| |done]. by rewrite Hpc.
  - pose proof (held_node s (tq_node tq) (tq_allocation tq) Hinv) as Hlt. rewrite Hpc in Hlt.
    destruct Hinv as [Hh Hr Hn Hb Hj Hp]. rewrite Hpc in Hb. cbn in Hb.
    rewrite <-Permutation_middle in Hb.
    destruct (qualify_one_inv (ch_now c) (ch_started c) (ch_uuid c) tq (ds_pools (sy_ds s)) (sy_checks s)
      (sy_world s) _ (Hlt ltac:(by left)) Hb) as (pools' & checks' & w' & new & -> & Hl & Hq & Hacc).
    cbn. eexists. split; [done|]. split; [|done].
    split; cbn; try done; [by rewrite Hl|]. rewrite Hq, fmap_app.
    rewrite Permutation_app_swap_app in Hacc.
    by rewrite (Permutation_app_comm (qf_held <$> gc_qualifying _)), (Permutation_app_swap_app (tq_held <$> l)).
Qed.

Lemma all_in_perm runs st names names' :
  names ≡ₚ names' → all_in runs st names → all_in runs st names'.
Proof. intros Hp [Hnd Hin]. split; [by rewrite <-Hp|]. intros k j Hkj. apply Hin. by rewrite Hp. Qed.

Lemma applying_start st names pending s :
  sys_inv s → all_in (ds_runs (sy_ds s)) st names → pc_held (sy_pc s) = pending →
  applying st (ds_runs (sy_ds s)) names pending (qf_held <$> gc_qualifying (sy_checks s)) (sy_ds s).
Proof. intros [Hh Hr Hn Hb Hj _] Hnames <-. split; try done; [apply advances_refl|].
  by intros k j job [_ ?]%Hj. Qed.

Lemma reserve_step c s :
  sys_inv s → sy_pc s = P_Reserve →
  ∃ s', sched_step c s = Ret s' ∧ sys_inv s' ∧ ds_runs (sy_ds s') = ds_runs (sy_ds s).
Proof.
  intros [Hh Hr Hn Hb Hj Hp] Hpc. unfold sched_step. rewrite Hpc in *. cbn in Hb.
  rewrite reserve_queued_flat.
  destruct (reserve_jobs_inv (online_nodes (sy_world s)) (all_jobs (ds_runs (sy_ds s)))
    (ds_pools (sy_ds s)) [] _ Hb) as (pools' & tasks & -> & Hl & Hacc & Htasks).
  { unfold online_nodes. by rewrite length_fmap, Hn. }
  cbn. eexists. split; [done|]. split; [|done]. split; cbn; try done; [by rewrite Hl| |].
  - rewrite app_nil_r. by rewrite Permutation_app_swap_app.
  - rewrite app_nil_r. destruct (tasks_queued _ _ _ Hr Htasks) as [Hnd Hall].
    split_and!; [split; [done|]| |done].
    + intros k j Hkj. apply list_elem_of_fmap in Hkj as (t & [= -> ->] & Ht).
      destruct (Hall t Ht) as (run & job & n & a & Hk & Hjob & <- & Hs & _).
      exists (at_job_instance t). split; [|done]. apply job_at_Some. eauto.
    + apply Forall_forall. intros t Ht.
      destruct (Hall t Ht) as (run & job & n & a & _ & _ & _ & _ & Hpl & _). eauto.
Qed.

Lemma launch_step c s tasks outcomes :
  sys_inv s → sy_pc s = P_Launch tasks outcomes →
  ∃ s', sched_step c s = Ret s' ∧ sys_inv s' ∧
    progress (ds_runs (sy_ds s)) (ds_runs (sy_ds s')).
Proof.
  intros Hinv Hpc. pose proof (si_pc _ Hinv) as Hp. rewrite Hpc in Hp.
  destruct Hp as (Hnames & Htasks & Hos). unfold sched_step. rewrite Hpc.
  destruct tasks as [|t tasks].
  - destruct (apply_outcomes_inv (ch_utc c) (ds_runs (sy_ds s)) outcomes
      (qf_held <$> gc_qualifying (sy_checks s)) (sy_ds s) []) as (ds' & tw & E & Hap & _);
      [by apply (si_home _ Hinv)|done| |].
    { apply applying_start; [done|done|]. by rewrite Hpc. }
    unfold apply_outcomes. rewrite E. cbn. eexists. split; [done|]. split; [|by split; apply Hap].
    eapply sys_applied; [by apply (si_home _ Hinv)|exact Hap|done|done].
  - apply Forall_cons in Htasks as [(n & a & Hpl) Htasks].
    destruct (launch_task_inv t n a (sy_world s) Hpl) as (o & w' & handle & -> & Hr & Hjb & He & Hres).
    { apply (held_node s n a Hinv). rewrite Hpc. cbn. apply elem_of_app. left.
      apply elem_of_app. left. unfold task_held. rewrite Hpl. by left. }
    cbn. eexists. split; [done|]. split; [|by apply progress_refl, Hinv]. apply sys_local; [done| |].
    + rewrite Hpc. cbn. f_equiv. unfold task_held. rewrite bind_app, Hpl. cbn.
      unfold lo_held. rewrite He. cbn. rewrite app_assoc, <-Permutation_cons_append. done.
    + cbn. split_and!; [|done|].
      * eapply all_in_perm; [|exact Hnames]. rewrite fmap_app. cbn.
        assert (lo_name o = task_name t) as -> by (unfold lo_name, task_name; by rewrite Hr, Hjb).
        by rewrite app_assoc, <-Permutation_cons_append.
      * apply Forall_app. split; [done|]. apply Forall_singleton. eexists. split; [exact He|].
        intros Hok. destruct Hres as [[_ ?]|[[e He'] _]]; [done|congruence].
Qed.

Lemma poll_job_inv j w :
  (rj_node j < length env_nodes)%nat →
  ∃ entry w', poll_job j w = Ret (entry, w') ∧ pe_name entry = rj_name j.
Proof.
  intros [node Hn]%node_at_lt. unfold poll_job. rewrite Hn. cbn.
  destruct (poll (nd_executor node) (rj_handle j) w) as [result w1].
  destruct result as [[|exit_code]|error]; [by eexists _, _| |by eexists _, _].
  destruct (_ && _); [|by eexists _, _]. destruct (tail _ _ _ _ _) as [text w2]. by eexists _, _.
Qed.

Lemma collect_step c s :
  sys_inv s → sy_pc s = P_Collect →
  ∃ s', sched_step c s = Ret s' ∧ sys_inv s' ∧ ds_runs (sy_ds s') = ds_runs (sy_ds s).
Proof.
  intros Hinv Hpc. unfold sched_step. rewrite Hpc. eexists. split; [done|]. split; [|done].
  destruct (collect_running_spec _ (si_runs _ Hinv)) as [Hnd Hall].
  apply sys_local; [done|by rewrite Hpc|]. cbn. rewrite app_nil_r. split; [split; [done|]|].
  - intros k j Hkj. apply list_elem_of_fmap in Hkj as (r & [= -> ->] & Hr).
    apply Hall in Hr as (run & job & e & Hk & Hj & Hs & _). exists job.
    split; [apply job_at_Some; eauto|done].
  - apply Forall_forall. intros r (run & job & e & Hk & Hj & Hs & He & <- & _)%Hall.
    rewrite <-(si_nodes _ Hinv). eapply (ca_node _ _ _ (ex_allocation e) (si_books _ Hinv)).
    apply elem_of_app. left. apply (map_held_elem (λ run, jobs_held (wr_jobs run))).
    exists (rj_run_id r), run. split; [done|]. apply (map_held_elem job_held).
    exists (rj_job_id r), job. split; [done|]. unfold job_held.
    destruct (ji_executions job) as [|e' l]; [done|]. injection He as ->. by left.
Qed.

Lemma poll_step c s jobs entries :
  sys_inv s → sy_pc s = P_Poll jobs entries →
  ∃ s', sched_step c s = Ret s' ∧ sys_inv s' ∧
    progress (ds_runs (sy_ds s)) (ds_runs (sy_ds s')).
Proof.
  intros Hinv Hpc. pose proof (si_pc _ Hinv) as Hp. rewrite Hpc in Hp.
  destruct Hp as (Hnames & Hnodes). unfold sched_step. rewrite Hpc.
  destruct jobs as [|j jobs].
  - destruct (apply_entries_inv (ch_utc c) (ds_runs (sy_ds s)) entries
      (qf_held <$> gc_qualifying (sy_checks s)) (sy_ds s) []) as (ds' & tw & E & Hap & _).
    { apply applying_start; [done|done|]. by rewrite Hpc. }
    unfold apply_entries. rewrite E. cbn. eexists. split; [done|]. split; [|by split; apply Hap].
    eapply sys_applied; [by apply (si_home _ Hinv)|exact Hap|done|done].
  - apply Forall_cons in Hnodes as [Hn Hnodes].
    destruct (poll_job_inv j (sy_world s) Hn) as (entry & w' & -> & Hname).
    cbn. eexists. split; [done|]. split; [|by apply progress_refl, Hinv].
    apply sys_local; [done|by rewrite Hpc|]. cbn. split; [|done].
    eapply all_in_perm; [|exact Hnames]. rewrite fmap_app. cbn.
    by rewrite Hname, app_assoc, <-Permutation_cons_append.
Qed.

Lemma running_node s k j job e :
  sys_inv s → job_at (ds_runs (sy_ds s)) k j = Some job → e ∈ ji_executions job →
  (ex_node e < length env_nodes)%nat.
Proof.
  intros Hinv (run & Hk & Hj)%job_at_Some He. rewrite <-(si_nodes _ Hinv).
  eapply (ca_node _ _ _ (ex_allocation e) (si_books _ Hinv)). apply elem_of_app. left.
  apply (map_held_elem (λ run, jobs_held (wr_jobs run))). exists k, run. split; [done|].
  apply (map_held_elem job_held). exists j, job. split; [done|].
  unfold job_held. apply list_elem_of_fmap. by exists e.
Qed.

Lemma flush_step c s phase to_write :
  sys_inv s → sy_pc s = P_Flush phase to_write →
  ∃ s', sched_step c s = Ret s' ∧ sys_inv s' ∧ ds_runs (sy_ds s') = ds_runs (sy_ds s).
Proof.
  intros Hinv Hpc. unfold sched_step. rewrite Hpc. destruct to_write as [|rj to_write].
  - assert (∀ p', pc_held p' = [] → pc_ok (ds_runs (sy_ds s)) p' →
      sys_inv (mkSys (sy_ds s) (sy_checks s) (sy_world s) p')) as Hgo.
    { intros p' Hp' Hok. apply sys_local; [done|by rewrite Hpc, Hp'|done]. }
    eexists. split; [done|]. destruct phase as [|[|[|phase]]]; [split; [by apply Hgo|done]..|].
    destruct (ch_due c); (split; [|done]); [|by apply Hgo].
    apply sys_local; [done| |done]. rewrite Hpc. cbn. by rewrite !app_nil_r.
  - assert (∃ w', flush_one (ch_raw c) (ds_runs (sy_ds s)) (sy_world s) rj = Ret w') as [w' ->].
    { unfold flush_one. destruct (ds_runs (sy_ds s) !! rj.1) as [run|] eqn:Hk; [|eauto].
      destruct (wr_jobs run !! rj.2) as [job|] eqn:Hj; [|eauto].
      destruct (head (ji_executions job)) as [e|] eqn:He; [|cbn; eauto].
      destruct (node_at_lt (ex_node e)) as [node ->]; [|cbn; eauto].
      eapply (running_node s rj.1 rj.2 job); [done|apply job_at_Some; eauto|].
      destruct (ji_executions job); [done|]. injection He as ->. by left. }
    cbn. eexists. split; [done|]. split; [|done]. apply sys_local; [done|by rewrite Hpc|done].
Qed.

Lemma sched_progress c s :
  sys_inv s → ∃ s', sched_step c s = Ret s' ∧ sys_inv s' ∧
    progress (ds_runs (sy_ds s)) (ds_runs (sy_ds s')).
Proof.
  intros Hinv.
  assert (∀ r, (∃ s', r = Ret s' ∧ sys_inv s' ∧ ds_runs (sy_ds s') = ds_runs (sy_ds s)) →
    ∃ s', r = Ret s' ∧ sys_inv s' ∧ progress (ds_runs (sy_ds s)) (ds_runs (sy_ds s'))) as Hsame.
  { intros r (s' & ? & ? & E). exists s'. split_and!; [done..|]. rewrite E. by apply progress_refl, Hinv. }
  destruct (sy_pc s) as [todo polled|readings|l| | | |tasks outcomes| |jobs entries|phase tw] eqn:Hpc.
  - by eapply Hsame, finish_step.
  - apply Hsame, qualify_step; [done|left; eauto].
  - apply Hsame, qualify_step; [done|right; eauto].
  - unfold sched_step. rewrite Hpc.
    pose proof (queue_ready_phase _ (si_runs _ Hinv) (si_jobs _ Hinv)) as Hq.
    destruct (queue_ready (ds_runs (sy_ds s))) as [runs' tw] eqn:E. cbn in Hq.
    eexists. split; [done|]. split; [|by split; apply Hq]. by eapply sys_quiet; [done|exact Hq|rewrite Hpc|..].
  - unfold sched_step. rewrite Hpc.
    pose proof (skip_doomed_phase (ch_utc c) _ (si_runs _ Hinv) (si_jobs _ Hinv)) as Hq.
    destruct (skip_doomed _ (ds_runs (sy_ds s))) as [runs' tw] eqn:E. cbn in Hq.
    eexists. split; [done|]. split; [|by split; apply Hq]. by eapply sys_quiet; [done|exact Hq|rewrite Hpc|..].
  - by apply Hsame, reserve_step.
  - by eapply launch_step.
  - by apply Hsame, collect_step.
  - by eapply poll_step.
  - by eapply Hsame, flush_step.
Qed.

Lemma sched_inv c s :
  sys_inv s → ∃ s', sched_step c s = Ret s' ∧ sys_inv s' ∧
    advances (ds_runs (sy_ds s)) (ds_runs (sy_ds s')).
Proof. intros (s' & ? & ? & [? _])%(sched_progress c). by exists s'. Qed.

(** ** The other tasks *)

(** Existing jobs keep their state; the rest of the invariant's view of the
    work in flight follows. *)
Lemma pc_ok_keep runs runs' p :
  (∀ k j job, job_at runs k j = Some job →
     ∃ job', job_at runs' k j = Some job' ∧ ji_state job' = ji_state job) →
  pc_ok runs p → pc_ok runs' p.
Proof.
  intros Hkeep. assert (∀ st names, all_in runs st names → all_in runs' st names) as Hall.
  { intros st names [Hnd Hin]. split; [done|]. intros k j Hkj.
    destruct (Hin k j Hkj) as (job & Hj & <-). by apply Hkeep. }
  destruct p; cbn; try done; intros (? & ?); split; auto.
Qed.

(** A run nothing has happened to. *)
Definition fresh_run (run : WorkflowRun) : Prop :=
  ∀ j job, wr_jobs run !! j = Some job →
    ji_job_id job = j ∧ ji_state job = JobState.Pending ∧ ji_executions job = [] ∧
    ji_rejected job = [].

Lemma job_at_insert runs k run k' j :
  job_at (<[k := run]> runs) k' j = if decide (k' = k) then wr_jobs run !! j else job_at runs k' j.
Proof.
  unfold job_at. destruct (decide (k' = k)) as [->|Hne]; [by rewrite lookup_insert_eq|by rewrite lookup_insert_ne].
Qed.

Lemma job_at_new runs k k' j job : runs !! k = None → job_at runs k' j = Some job → k' ≠ k.
Proof. intros Hk (run & Hk' & _)%job_at_Some ->. congruence. Qed.

(** A job's reasons are in its own run. *)
Lemma justified_insert runs k run k' job :
  k' ≠ k → justified runs k' job → justified (<[k := run]> runs) k' job.
Proof.
  intros Hne Hjust. assert (∀ d, job_at (<[k := run]> runs) k' d = job_at runs k' d) as Hat.
  { intros d. by rewrite job_at_insert, decide_False. }
  unfold justified in *. destruct (ji_state job); try done; try (intros d; rewrite Hat; apply Hjust).
  destruct Hjust as (d & ? & Hd). exists d. by rewrite Hat.
Qed.

Lemma jobs_ok_submit runs k run :
  runs !! k = None → fresh_run run → jobs_ok runs → jobs_ok (<[k := run]> runs).
Proof.
  intros Hk Hfresh Hok k' j job. rewrite job_at_insert. destruct (decide (k' = k)) as [->|Hne].
  - intros Hjob. destruct (Hfresh _ _ Hjob) as (_ & Hs & Hex & Hrej). split.
    + split; [|by rewrite Hs|done]. intros n why. rewrite Hrej. by intros ?%elem_of_nil.
    + unfold justified. by rewrite Hs.
  - intros Hjob. destruct (Hok _ _ _ Hjob). split; [done|]. by apply justified_insert.
Qed.

Lemma submit_inv s k run :
  sys_inv s → ds_runs (sy_ds s) !! k = None → wr_run_id run = k → fresh_run run →
  ∀ w', sys_inv (mkSys (set_runs (<[k := run]> (ds_runs (sy_ds s))) (sy_ds s)) (sy_checks s) w'
                  (sy_pc s)) ∧
  ∀ k' j, job_at (<[k := run]> (ds_runs (sy_ds s))) k' j
    = if decide (k' = k) then wr_jobs run !! j else job_at (ds_runs (sy_ds s)) k' j.
Proof.
  intros [Hh Hr Hn Hb Hj Hp] Hk Hid Hfresh w'.
  pose proof (job_at_insert (ds_runs (sy_ds s)) k run) as Hat.
  split; [|done]. split; cbn; try done.
  - intros k' run' [[<- <-]|[_ Hk']]%lookup_insert_Some; [|by apply Hr].
    split; [done|]. intros j job Hjob. by apply Hfresh.
  - assert (runs_held (<[k := run]> (ds_runs (sy_ds s))) ≡ₚ runs_held (ds_runs (sy_ds s))) as ->; [|done].
    etrans; [by apply (map_held_insert (λ run, jobs_held (wr_jobs run)))|].
    replace (jobs_held (wr_jobs run)) with (@nil (nat * Allocation)); [done|].
    symmetry. apply elem_of_nil_inv. intros x (j & job & Hjob & Hx)%(map_held_elem job_held).
    destruct (Hfresh _ _ Hjob) as (_ & _ & Hex & _). unfold job_held in Hx. rewrite Hex in Hx.
    by apply elem_of_nil in Hx.
  - by apply jobs_ok_submit.
  - eapply pc_ok_keep; [|exact Hp]. intros k' j job Hjob. exists job. split; [|done].
    rewrite Hat, decide_False; [done|]. by eapply job_at_new.
Qed.

Lemma mark_cancelling_jobs run :
  (mark_cancelling run).1 = WorkflowRun.set_jobs ((λ job, (cancel_job job).1) <$> wr_jobs run) run.
Proof. unfold mark_cancelling. cbn. by rewrite values_mut_fst. Qed.

Lemma cancel_job_moves job :
  moves job (cancel_job job).1 ∧ ji_state (cancel_job job).1 = ji_state job ∧
  ji_executions (cancel_job job).1 = ji_executions job ∧
  ji_rejected (cancel_job job).1 = ji_rejected job ∧ ji_spec (cancel_job job).1 = ji_spec job ∧
  ji_job_id (cancel_job job).1 = ji_job_id job.
Proof.
  unfold cancel_job. destruct (is_running (ji_state job)) eqn:E; cbn; [|by split; [left|]].
  split; [|done]. right. split_and!; [done| |done]. cbn. by destruct (ji_state job).
Qed.

(** The jobs of a cancelled run. *)
Lemma job_at_cancel runs k run k' j :
  runs !! k = Some run →
  job_at (<[k := (mark_cancelling run).1]> runs) k' j
  = if decide (k' = k) then (λ job, (cancel_job job).1) <$> job_at runs k' j else job_at runs k' j.
Proof.
  intros Hk. rewrite job_at_insert, mark_cancelling_jobs. destruct (decide (k' = k)) as [->|]; [|done].
  cbn. rewrite lookup_fmap. unfold job_at. by rewrite Hk.
Qed.

Lemma cancel_advances runs k run :
  runs !! k = Some run → advances runs (<[k := (mark_cancelling run).1]> runs).
Proof.
  intros Hk. pose proof (job_at_cancel runs k run) as Hat. split.
  - intros k' j job Hjob. rewrite (Hat _ _ Hk), Hjob.
    destruct (decide (k' = k)); eexists; (split; [done|]); [|by left]. apply cancel_job_moves.
  - intros k' j job. rewrite (Hat _ _ Hk). destruct (decide (k' = k)); [|eauto].
    destruct (job_at _ k' j); [eauto|done].
  - intros k'. rewrite mark_cancelling_jobs. destruct (decide (k' = k)) as [->|Hne].
    + rewrite lookup_insert_eq, Hk. by constructor.
    + rewrite lookup_insert_ne by done. by destruct (runs !! k'); constructor.
Qed.

Lemma cancel_wf runs k run :
  runs_wf runs → runs !! k = Some run → runs_wf (<[k := (mark_cancelling run).1]> runs).
Proof.
  intros Hwf Hk k' r. rewrite mark_cancelling_jobs. intros [[<- <-]|[_ Hk']]%lookup_insert_Some; [|by apply Hwf].
  destruct (Hwf _ _ Hk) as [Hid Hrun]. split; [done|]. intros j job. cbn. rewrite lookup_fmap.
  destruct (wr_jobs run !! j) as [job0|] eqn:Hjob; [|done]. intros [= <-].
  rewrite (proj2 (proj2 (proj2 (proj2 (proj2 (cancel_job_moves job0)))))). by apply Hrun.
Qed.

Lemma cancel_held runs k run :
  runs !! k = Some run → runs_held (<[k := (mark_cancelling run).1]> runs) ≡ₚ runs_held runs.
Proof.
  intros Hk. rewrite mark_cancelling_jobs. set (run' := WorkflowRun.set_jobs _ run).
  destruct (map_held_update (λ run, jobs_held (wr_jobs run)) _ _ _ run' Hk) as (rest & E & E').
  etrans; [exact E'|]. etrans; [|symmetry; exact E]. f_equiv.
  apply (map_held_ext job_held). intros j. cbn. rewrite lookup_fmap.
  destruct (wr_jobs run !! j) as [job|]; constructor.
  unfold job_held. by rewrite (proj1 (proj2 (proj2 (cancel_job_moves job)))).
Qed.

Lemma cancel_inv s k run :
  sys_inv s → ds_runs (sy_ds s) !! k = Some run →
  let runs' := <[k := (mark_cancelling run).1]> (ds_runs (sy_ds s)) in
  sys_inv (mkSys (set_runs runs' (sy_ds s)) (sy_checks s) (sy_world s) (sy_pc s)) ∧
  advances (ds_runs (sy_ds s)) runs'.
Proof.
  intros [Hh Hr Hn Hb Hj Hp] Hk runs'. pose proof (cancel_advances _ _ _ Hk) as Hadv.
  assert (∀ k' j, job_at runs' k' j = if decide (k' = k) then (λ job, (cancel_job job).1) <$> job_at (ds_runs (sy_ds s)) k' j
    else job_at (ds_runs (sy_ds s)) k' j) as Hat by (intros; by apply job_at_cancel).
  split; [|done]. split; cbn; try done; [by apply cancel_wf|by unfold runs'; rewrite cancel_held| |].
  - intros k' j job' Hjob'.
    assert (∃ job, job_at (ds_runs (sy_ds s)) k' j = Some job ∧ ji_state job' = ji_state job ∧
      ji_executions job' = ji_executions job ∧ ji_rejected job' = ji_rejected job ∧
      ji_spec job' = ji_spec job) as (job & Hjob & Es & Ee & Er & Esp).
    { rewrite Hat in Hjob'. destruct (decide (k' = k)); [|by exists job'].
      destruct (job_at _ k' j) as [job|]; [|done]. injection Hjob' as <-. exists job.
      split; [done|]. by destruct (cancel_job_moves job) as (_ & ? & ? & ? & ? & _). }
    destruct (Hj _ _ _ Hjob) as [[Hrej Hrun Hidle] Hjust]. split.
    + split; unfold rejections_known; by rewrite ?Es, ?Ee, ?Er.
    + apply (justified_advances _ runs') in Hjust; [|done]. unfold justified in *. by rewrite Es, Esp.
  - eapply pc_ok_keep; [|exact Hp]. intros k' j job Hjob. rewrite Hat, Hjob.
    destruct (decide (k' = k)); eexists; (split; [done|]); [|done].
    by destruct (cancel_job_moves job) as (_ & ? & _).
Qed.

End system.
