(* ===== verification/Guarantees.v ===== *)
(** * What the daemon guarantees

    The invariant of [System.v] holds in every reachable state; read off it,
    the properties of the whole: no panic, no resource lost or shared, the job
    life cycle, dependencies before dependents, no deadlock. *)

From S2P Require Import Prelude Spec Pool Placement Handle Model Dag Text Health Protocol Executor.
From S2P Require Import Shell Scheduler Qualify Tasks Server System.

Section guarantees.
Context `{HashOrder}.
Context {W : Type} `{DaemonEnv W}.

(** ** Reachable states *)

(** From one state to a later one: jobs move along the state machine, new
    runs come with pending jobs. *)
Record grows (runs runs' : gmap string WorkflowRun) : Prop := {
  gr_fwd : ∀ k j job, job_at runs k j = Some job → ∃ job', job_at runs' k j = Some job' ∧ moves job job';
  gr_new : ∀ k j job', job_at runs k j = None → job_at runs' k j = Some job' →
    ji_state job' = JobState.Pending;
  gr_run : ∀ k run, runs !! k = Some run → ∃ run', runs' !! k = Some run' ∧ same_run run run';
}.

Lemma advances_grows runs runs' : advances runs runs' → grows runs runs'.
Proof.
  intros [Hf Hb Hr]. split; [done| |].
  - intros k j job' Hn Hj. apply Hb in Hj as [? Hj]. congruence.
  - intros k run Hk. specialize (Hr k). rewrite Hk in Hr. inversion Hr; subst. eauto.
Qed.

(** Every run comes from a valid workflow and has exactly its jobs. *)
Definition run_of_spec (run : WorkflowRun) : Prop :=
  valid_workflow (wr_spec run) ∧ wr_workflow_name run = ws_name (wr_spec run) ∧
  (∀ j job, wr_jobs run !! j = Some job →
     ji_spec job ∈ ws_jobs (wr_spec run) ∧ js_id (ji_spec job) = j) ∧
  (∀ j, j ∈ ids (wr_spec run) → is_Some (wr_jobs run !! j)).

Definition runs_of_specs (runs : gmap string WorkflowRun) : Prop :=
  ∀ k run, runs !! k = Some run → run_of_spec run.

Lemma runs_of_specs_advances runs runs' :
  advances runs runs' → runs_of_specs runs → runs_of_specs runs'.
Proof.
  intros Hadv Hspecs k run' Hk'. pose proof (adv_run _ _ Hadv k) as Hr. rewrite Hk' in Hr.
  inversion Hr as [run x (_ & _ & Hspec & _ & Hname) Hk|]; subst x. symmetry in Hk.
  destruct (Hspecs _ _ Hk) as (Hv & Hn & Hjobs & Hids). rewrite <-Hspec, <-Hname in *. split_and!; [done|done| |].
  - intros j job' Hj'.
    destruct (adv_bwd _ _ Hadv k j job') as [job Hj]; [apply job_at_Some; eauto|].
    destruct (adv_fwd _ _ Hadv _ _ _ Hj) as (job2 & Hj2 & Hm).
    apply job_at_Some in Hj2 as (run2 & ? & ?). simplify_eq.
    apply job_at_Some in Hj as (run3 & ? & Hj). simplify_eq.
    destruct Hm as [->|((_ & _ & ->) & _)]; by apply Hjobs.
  - intros j Hj. destruct (Hids j Hj) as [job Hjob].
    destruct (adv_fwd _ _ Hadv k j job) as (job' & Hj' & _); [apply job_at_Some; eauto|].
    apply job_at_Some in Hj' as (run2 & ? & ?). simplify_eq. eauto.
Qed.

Definition daemon_inv (s : Sys) : Prop := sys_inv s ∧ runs_of_specs (ds_runs (sy_ds s)).

Lemma run_of_spec_new env counters spec :
  valid_workflow spec →
  run_of_spec (WorkflowRun.new (se_run_id env) (ct_run counters) spec (ct_job counters) (se_now env)).
Proof.
  intros Hv. split_and!; [done|done| |].
  - intros j job (i & js & Hi & -> & ->)%jobs_of_lookup. cbn. split; [|done].
    by eapply list_elem_of_lookup_2.
  - intros j Hj. apply list_elem_of_fmap in Hj as (js & -> & Hin).
    apply list_elem_of_lookup in Hin as [i Hi]. cbn.
    erewrite jobs_of_lookup_unique; [eauto|apply Hv|exact Hi].
Qed.

(** What a submission does to the runs. *)
Lemma submit_cases env yaml counters (s : Sys) response counters' ds' w' :
  handle_submit env yaml counters (sy_ds s) (sy_world s)
    = Some (Ret (response, counters', ds', w')) →
  ds' = sy_ds s ∨ ∃ spec, valid_workflow spec ∧
    first_unfit (ds_pools (sy_ds s)) (ws_jobs spec) = None ∧
    ds' = set_runs (<[se_run_id env := WorkflowRun.new (se_run_id env) (ct_run counters) spec
                       (ct_job counters) (se_now env)]> (ds_runs (sy_ds s))) (sy_ds s).
Proof.
  unfold handle_submit. destruct (se_parse env yaml) as [spec|error]; [|intros [= _ _ <- _]; by left].
  destruct (validate_cases spec) as [[-> Hv]|(e & -> & _)]; [|intros [= _ _ <- _]; by left].
  destruct (first_unfit _ _) eqn:Hfit; [intros [= _ _ <- _]; by left|].
  intros [= _ _ <- _]. right. by exists spec.
Qed.

Lemma step_inv s s' :
  step s s' → daemon_inv s → daemon_inv s' ∧ grows (ds_runs (sy_ds s)) (ds_runs (sy_ds s')).
Proof.
  intros Hstep [Hinv Hspecs].
  destruct Hstep as [c s s' E|env yaml counters s response counters' ds' w' Hfresh E
    |run_id run s Hk|w' s].
  - destruct (sched_inv c s Hinv) as (s2 & E2 & Hinv2 & Hadv). rewrite E in E2. injection E2 as <-.
    split; [split; [done|by eapply runs_of_specs_advances]|by apply advances_grows].
  - apply submit_cases in E as [->|(spec & Hv & _ & ->)]; cbn.
    + split; [|apply advances_grows, advances_refl]. split; [|done].
      by apply sys_local; [done|done|apply Hinv].
    + set (run := WorkflowRun.new _ _ _ _ _) in *.
      destruct (submit_inv s (se_run_id env) run Hinv Hfresh eq_refl) with (w' := w') as [Hinv' Hat].
      { intros j job (i & js & _ & -> & ->)%jobs_of_lookup. done. }
      split; [split; [done|]|].
      * intros k' run'. cbn. intros [[<- <-]|[_ Hk']]%lookup_insert_Some;
          [by apply run_of_spec_new|by apply (Hspecs k')].
      * split.
        -- intros k j job Hj. exists job. split; [|by left]. rewrite Hat, decide_False; [done|].
           intros ->. apply job_at_Some in Hj as (r & ? & _). congruence.
        -- intros k j job' Hn. rewrite Hat. destruct (decide (k = _)); [|congruence].
           by intros (i & js & _ & _ & ->)%jobs_of_lookup.
        -- intros k r Hk. exists r. rewrite lookup_insert_ne by congruence. done.
  - destruct (cancel_inv s run_id run Hinv Hk) as [Hinv' Hadv].
    split; [split; [done|by eapply runs_of_specs_advances]|by apply advances_grows].
  - split; [|apply advances_grows, advances_refl]. split; [|done].
    by apply sys_local; [done|done|apply Hinv].
Qed.

Lemma initial_inv machines w : can_start machines → daemon_inv (initial machines w).
Proof.
  intros (Hhome & Hlen & Hwf). split; [|by intros k run].
  assert (∀ k j, job_at ∅ k j = None) as Hnone by done.
  split; cbn; [done|by intros k run|by rewrite length_fmap| |by intros k j job|done].
  by apply cluster_accounts_new.
Qed.

Lemma rtc_inv s s' : rtc step s s' → daemon_inv s → daemon_inv s'.
Proof. induction 1 as [|s1 s2 s3 Hs _ IH]; [done|]. intros Hinv. by apply IH, (step_inv s1 s2). Qed.

Lemma reachable_inv machines s : can_start machines → reachable machines s → daemon_inv s.
Proof. intros Hstart (w & Hr). eapply rtc_inv; [done|by apply initial_inv]. Qed.

(** ** The properties *)

(** C1: The scheduler never panics within one daemon life that [can_start]:
    HOME is known, there is one inventory per node, and every inventory numbers
    its cards 0, 1, 2 and so on.  Then, whatever executors answer, nodes go
    down, users submit or cancel meanwhile, no index is out of range, no
    counter overflows, and every stretch of every tick and card check returns.
    An inventory with a gap is outside this: it does panic the scheduler
    ([sparse_inventory_panics] in Pool.v), and discovery can produce one. *)
Theorem scheduler_never_panics machines s :
  can_start machines → reachable machines s → ∀ c, ∃ s', sched_step c s = Ret s'.
Proof.
  intros Hstart Hr c. destruct (reachable_inv _ _ Hstart Hr) as [Hinv _].
  destruct (sched_inv c s Hinv) as (s' & E & _). by exists s'.
Qed.

(** Everything held at one moment: by jobs, by launches and card tests in
    flight, by running card tests. *)
Definition all_held (s : @Sys W) : list (nat * Allocation) :=
  runs_held (ds_runs (sy_ds s)) ++ pc_held (sy_pc s) ++ (qf_held <$> gc_qualifying (sy_checks s)).

(** C2: No resource is lost or counted twice: at every moment, on every node,
    what is free plus what jobs, launches in flight and card tests hold is
    exactly what the machine has, for CPUs, memory and the VRAM of each card;
    and a job holds something only while it is Running. *)
Theorem daemon_conserves_resources machines s :
  can_start machines → reachable machines s →
  cluster_accounts (ds_pools (sy_ds s)) (all_held s) ∧
  ∀ k j job, job_at (ds_runs (sy_ds s)) k j = Some job → ji_executions job ≠ [] →
    ji_state job = JobState.Running.
Proof.
  intros Hstart Hr. destruct (reachable_inv _ _ Hstart Hr) as [Hinv _]. split; [apply Hinv|].
  intros k j job Hj Hne. destruct (si_jobs _ Hinv _ _ _ Hj) as [[_ _ Hidle] _].
  destruct (decide (ji_state job = JobState.Running)) as [|Hs]; [done|].
  destruct Hne. by apply Hidle.
Qed.

(** Two holdings of different jobs, side by side. *)
Lemma two_jobs_held runs k1 j1 job1 k2 j2 job2 :
  job_at runs k1 j1 = Some job1 → job_at runs k2 j2 = Some job2 → (k1, j1) ≠ (k2, j2) →
  ∃ rest, runs_held runs ≡ₚ job_held job1 ++ job_held job2 ++ rest.
Proof.
  intros (run1 & Hk1 & Hj1)%job_at_Some H2 Hne.
  set (empty := JobInstance.set_executions [] job1).
  destruct (update_job_held _ _ _ _ _ empty Hk1 Hj1) as (rest & E & E'). cbn in E'.
  assert (job_at (update_job k1 j1 run1 empty runs) k2 j2 = Some job2) as (run2 & Hk2 & Hj2)%job_at_Some.
  { by rewrite (job_at_update _ _ _ _ _ _ _ Hk1), decide_False. }
  destruct (update_job_held _ _ _ _ _ job2 Hk2 Hj2) as (rest2 & F & _).
  exists rest2. by rewrite E, <-F, E'.
Qed.

(** C3: A GPU belongs to one job at a time: two different jobs that hold
    resources on the same node never hold the same card. *)
Theorem no_card_shared machines s k1 j1 job1 e1 g1 k2 j2 job2 e2 g2 :
  can_start machines → reachable machines s →
  job_at (ds_runs (sy_ds s)) k1 j1 = Some job1 → job_at (ds_runs (sy_ds s)) k2 j2 = Some job2 →
  (k1, j1) ≠ (k2, j2) → e1 ∈ ji_executions job1 → e2 ∈ ji_executions job2 →
  ex_node e1 = ex_node e2 → g1 ∈ al_gpus (ex_allocation e1) → g2 ∈ al_gpus (ex_allocation e2) →
  ga_index g1 ≠ ga_index g2.
Proof.
  intros Hstart Hr Hj1 Hj2 Hne He1 He2 Hn Hg1 Hg2.
  destruct (reachable_inv _ _ Hstart Hr) as [Hinv _].
  destruct (two_jobs_held _ _ _ _ _ _ _ Hj1 Hj2 Hne) as (rest & E).
  assert (∀ k j job e, job_at (ds_runs (sy_ds s)) k j = Some job → e ∈ ji_executions job →
    job_held job = [ex_held e]) as Hone.
  { intros k j job e Hj He. destruct (si_jobs _ Hinv _ _ _ Hj) as [[_ Hrun Hidle] _].
    unfold job_held. destruct (decide (ji_state job = JobState.Running)) as [Hs|Hs].
    - destruct (Hrun Hs) as (e' & Ee & _). rewrite Ee in He.
      by apply list_elem_of_singleton in He as ->; rewrite Ee.
    - rewrite (Hidle Hs) in He. by apply elem_of_nil in He. }
  pose proof (si_books _ Hinv) as Hb. rewrite E in Hb.
  rewrite (Hone _ _ _ _ Hj1 He1), (Hone _ _ _ _ Hj2 He2) in Hb. cbn [app] in Hb.
  destruct (ca_whole _ _ Hb (ex_node e1) (ex_allocation e1)) as (p & Hp & Hw1); [by left|].
  destruct (ca_whole _ _ Hb (ex_node e2) (ex_allocation e2)) as (p' & Hp' & Hw2); [right; by left|].
  rewrite <-Hn in Hp'. simplify_eq. pose proof (ca_pool _ _ Hb _ _ Hp) as Hacc.
  unfold ex_held in Hacc at 1 2. rewrite !on_node_cons, <-Hn, !decide_True in Hacc by done.
  by eapply (accounts_exclusive _ _ 0 1 _ _ g1 g2 Hacc).
Qed.

(** C11: The life cycle of a job: in one step of the daemon a job keeps its
    identity and its spec and stays in its state or moves along an edge of the
    state machine (Pending to Queued to Running to an end, or skipped, or
    failed at launch); a job that ended never changes again; jobs appear only
    as Pending, and never disappear. *)
Theorem job_life_cycle machines s s' :
  can_start machines → reachable machines s → step s s' →
  (∀ k j job, job_at (ds_runs (sy_ds s)) k j = Some job →
     ∃ job', job_at (ds_runs (sy_ds s')) k j = Some job' ∧ same_job job job' ∧
       (ji_state job' = ji_state job ∨ edge (ji_state job) (ji_state job') = true) ∧
       (JobState.is_terminal (ji_state job) = true → job' = job)) ∧
  (∀ k j job', job_at (ds_runs (sy_ds s)) k j = None → job_at (ds_runs (sy_ds s')) k j = Some job' →
     ji_state job' = JobState.Pending).
Proof.
  intros Hstart Hr Hstep.
  destruct (step_inv _ _ Hstep (reachable_inv _ _ Hstart Hr)) as [_ [Hfwd Hnew _]].
  split; [|done]. intros k j job Hj. destruct (Hfwd _ _ _ Hj) as (job' & Hj' & Hm).
  exists job'. split; [done|]. split; [by destruct Hm as [->|[? _]]|].
  split; [|by apply moves_terminal]. destruct Hm as [->|(_ & ? & _)]; [by left|by right].
Qed.

(** The states a job can come back from: none. *)
Definition rank (s : JobState.t) : nat :=
  match s with
  | JobState.Pending => 0
  | JobState.Queued => 1
  | JobState.Running => 2
  | _ => 3
  end.

Lemma edge_rank s s' : edge s s' = true → (rank s ≤ rank s')%nat ∧ (rank s = rank s' → s = s').
Proof. destruct s, s'; cbn; intros; split; intros; try done; lia. Qed.

Lemma run_stays s s' k j job job' :
  rtc step s s' → daemon_inv s →
  job_at (ds_runs (sy_ds s)) k j = Some job → job_at (ds_runs (sy_ds s')) k j = Some job' →
  (rank (ji_state job) ≤ rank (ji_state job'))%nat ∧
  (ji_state job = JobState.Running → ji_state job' = JobState.Running →
   ji_executions job' = ji_executions job).
Proof.
  intros Hrtc. revert job. induction Hrtc as [s|s1 s2 s3 Hstep _ IH]; intros job Hinv Hj Hj'.
  { by simplify_eq. }
  destruct (step_inv _ _ Hstep Hinv) as [Hinv2 [Hfwd _ _]].
  destruct (Hfwd _ _ _ Hj) as (job2 & Hj2 & Hm). destruct (IH _ Hinv2 Hj2 Hj') as [Hle Hkeep].
  destruct Hm as [->|(_ & He & Hk)]; [done|]. apply edge_rank in He as [Hle1 Heq]. split; [lia|].
  intros Hs Hs'. rewrite Hs, Hs' in *. cbn in *.
  assert (ji_state job2 = JobState.Running) as Hs2 by (symmetry; apply Heq; lia).
  rewrite Hkeep by done. by apply Hk.
Qed.

(** C12: Within one daemon's life a job is started at most once: between two
    moments at which it is Running, it never left that state, and it is the same launch, with the
    same handle, on the same node, holding the same resources. *)
Theorem job_runs_once machines s s1 s2 k j job job1 job2 :
  can_start machines → reachable machines s → rtc step s s1 → rtc step s1 s2 →
  job_at (ds_runs (sy_ds s)) k j = Some job → ji_state job = JobState.Running →
  job_at (ds_runs (sy_ds s1)) k j = Some job1 →
  job_at (ds_runs (sy_ds s2)) k j = Some job2 → ji_state job2 = JobState.Running →
  ji_state job1 = JobState.Running ∧ ji_executions job1 = ji_executions job ∧
  ji_executions job2 = ji_executions job.
Proof.
  intros Hstart Hr H1 H2 Hj Hs Hj1 Hj2 Hs2. pose proof (reachable_inv _ _ Hstart Hr) as Hinv.
  destruct (run_stays _ _ _ _ _ _ H1 Hinv Hj Hj1) as [Hle1 Hk1].
  pose proof (rtc_inv _ _ H1 Hinv) as Hinv1.
  destruct (run_stays _ _ _ _ _ _ H2 Hinv1 Hj1 Hj2) as [Hle2 Hk2].
  rewrite Hs, Hs2 in *. assert (ji_state job1 = JobState.Running) as Hs1.
  { cbn in *. destruct (ji_state job1); cbn in *; (done || lia). }
  rewrite Hs1 in *. rewrite Hk2, Hk1 by done. done.
Qed.

(** C4: Dependencies first: a job is queued, launched or ended only after
    every job it depends on, in the same run, has succeeded; and it is skipped
    only when one of them ended without succeeding. *)
Theorem dependencies_first machines s k j job :
  can_start machines → reachable machines s → job_at (ds_runs (sy_ds s)) k j = Some job →
  (ji_state job ≠ JobState.Pending → ji_state job ≠ JobState.Skipped →
   ∀ d, d ∈ js_depends_on (ji_spec job) → ∃ jd, job_at (ds_runs (sy_ds s)) k d = Some jd ∧
     ji_state jd = JobState.Succeeded) ∧
  (ji_state job = JobState.Skipped →
   ∃ d jd, d ∈ js_depends_on (ji_spec job) ∧ job_at (ds_runs (sy_ds s)) k d = Some jd ∧
     dead (ji_state jd)).
Proof.
  intros Hstart Hr Hj. destruct (reachable_inv _ _ Hstart Hr) as [Hinv _].
  destruct (si_jobs _ Hinv _ _ _ Hj) as [_ Hjust]. unfold justified in Hjust. split.
  - intros H1 H2. by destruct (ji_state job).
  - intros Hs. rewrite Hs in Hjust. naive_solver.
Qed.

(** In a run of an acyclic workflow, a Pending job always has one before it
    that moves. *)
Lemma pending_moves run j job :
  run_of_spec run → wr_jobs run !! j = Some job → ji_state job = JobState.Pending →
  ∃ j' job', wr_jobs run !! j' = Some job' ∧
    (ji_state job' = JobState.Queued ∨ ji_state job' = JobState.Running ∨
     ready (wr_jobs run) job' = true ∨ doomed (wr_jobs run) job' = true).
Proof.
  intros ([_ _ Hdeps Hac] & _ & Hjobs & Hids) Hj Hs.
  destruct (decide (map_Exists (λ _ job', ji_state job' = JobState.Queued ∨
    ji_state job' = JobState.Running ∨ ready (wr_jobs run) job' = true ∨
    doomed (wr_jobs run) job' = true) (wr_jobs run))) as [(j' & job' & ? & ?)|Hno]; [by exists j', job'|].
  exfalso. apply map_not_Exists in Hno.
  set (waits := λ i, ∃ job, wr_jobs run !! i = Some job ∧ ji_state job = JobState.Pending).
  destruct (stuck_reaches_cycle (ws_jobs (wr_spec run)) waits j) as (c & _ & Hc).
  - intros i (job' & Hi & Hs'). destruct (Hjobs _ _ Hi) as [Hin <-].
    split; [by apply list_elem_of_fmap_2|].
    pose proof (Hno _ _ Hi) as Hn. cbn in Hn.
    assert (∃ d, d ∈ js_depends_on (ji_spec job') ∧
      ¬ dep_in (wr_jobs run) (λ s, s = JobState.Succeeded) d) as (d & Hd & Hnd).
    { destruct (decide (Exists (λ d, job_in (wr_jobs run) is_succeeded d ≠ true)
        (js_depends_on (ji_spec job')))) as [Hex|Hall].
      - apply Exists_exists in Hex as (d & Hd & Hn'). exists d. split; [done|].
        intros Hdep. apply Hn'. eapply (job_in_spec _ _ (λ s, s = JobState.Succeeded)); [|done].
        by intros [].
      - destruct Hn. right. right. left. apply ready_spec. split; [done|].
        apply not_Exists_Forall in Hall; [|intros ?; apply _]. rewrite Forall_forall in Hall.
        intros d Hd. specialize (Hall d Hd). cbn in Hall.
        apply (job_in_spec _ is_succeeded (λ s, s = JobState.Succeeded)); [by intros []|].
        destruct (job_in _ _ d); [done|]. by destruct Hall. }
    exists d. split; [by exists (ji_spec job')|].
    destruct (Hids d) as [jd Hjd]; [by eapply Hdeps|]. exists jd. split; [done|].
    pose proof (Hno _ _ Hjd) as Hnd'. cbn in Hnd'.
    assert (ji_state jd ≠ JobState.Succeeded) as Hns by (intros E; apply Hnd; by exists jd).
    assert (¬ dead (ji_state jd)) as Hnot.
    { intros Hdead. apply Hn. right. right. right. apply doomed_spec. split; [by left|].
      exists d. split; [done|]. by exists jd. }
    unfold dead in Hnot. destruct (ji_state jd); naive_solver.
  - by exists job.
  - by apply (Hac c).
Qed.

(** No run deadlocks: while a job of a run is Pending, some job of the
    run is Queued or Running, or the next tick moves one (queues it because
    its dependencies have succeeded, or skips it because one did not). *)
Theorem run_never_stuck machines s k run j job :
  can_start machines → reachable machines s →
  ds_runs (sy_ds s) !! k = Some run → wr_jobs run !! j = Some job → ji_state job = JobState.Pending →
  ∃ j' job', wr_jobs run !! j' = Some job' ∧
    (ji_state job' = JobState.Queued ∨ ji_state job' = JobState.Running ∨
     ready (wr_jobs run) job' = true ∨ doomed (wr_jobs run) job' = true).
Proof.
  intros Hstart Hr Hk. destruct (reachable_inv _ _ Hstart Hr) as [_ Hspecs].
  by apply pending_moves, (Hspecs _ _ Hk).
Qed.

End guarantees.

(** ** Witnesses: a run of two jobs, submitted to a daemon with one node *)

Section run_steps.
Context `{HashOrder}.
Context {W : Type} `{DaemonEnv W}.

(** [n] scheduler stretches in a row. *)
Fixpoint sched_run (n : nat) (c : Choices) (s : @Sys W) : exec Sys :=
  match n with
  | O => Ret s
  | S n' => s' ← sched_step c s; sched_run n' c s'
  end.

Lemma sched_run_rtc n c s s' : sched_run n c s = Ret s' → rtc step s s'.
Proof.
  revert s. induction n as [|n IH]; intros s; [intros [= ->]; apply rtc_refl|].
  intros (s1 & E & Hr)%bind_Ret_inv. eapply rtc_l; [by eapply step_sched|by apply IH].
Qed.
End run_steps.

Section demo.
#[local] Existing Instance canonical_order.
#[local] Existing Instance demo_env.

Definition demo_choices : Choices := mkChoices (λ _ _, 1%Z) (λ _ _, 1) 0 0
  (mkCheckClock (λ _ _, 0) (λ _ _, 0%Z) (λ _, true) (λ _ _, true)) "0" false.
Definition demo_submit (jobs : list JobSpec) : SubmitEnv :=
  mkSubmitEnv (λ _, Ok (demo_spec jobs)) "run" 0%Z.

Definition demo_initial : @Sys N := initial [demo_resources] 0.
Definition demo_submitted (jobs : list JobSpec) : @Sys N :=
  match handle_submit (demo_submit jobs) "" (mkCounters 0 0) (sy_ds demo_initial)
          (sy_world demo_initial) with
  | Some (Ret (_, _, ds, w)) => mkSys ds (sy_checks demo_initial) w (sy_pc demo_initial)
  | _ => demo_initial
  end.

(** After [n] stretches. *)
Definition demo_at (jobs : list JobSpec) (n : nat) : @Sys N :=
  match sched_run n demo_choices (demo_submitted jobs) with
  | Ret s => s
  | Panic => demo_submitted jobs
  end.

Definition demo_job_at (s : @Sys N) (j : string) : option JobInstance :=
  job_at (ds_runs (sy_ds s)) "run" j.

(** [b] waits for [a]; two jobs with a card each. *)
Definition demo_chain : list JobSpec := [demo_job "a" []; demo_job "b" ["a"]].
Definition demo_cards : list JobSpec :=
  [mkJobSpec "x" "true" [] (mkResourceSpec 1 512 1 0);
   mkJobSpec "y" "true" [] (mkResourceSpec 1 512 1 0)].

Lemma demo_can_start : can_start [demo_resources].
Proof.
  split_and!; [by eexists|done|]. apply Forall_singleton, (bool_decide_unpack _). vm_compute. exact I.
Qed.

Lemma demo_submitted_rtc jobs : rtc step demo_initial (demo_submitted jobs).
Proof.
  unfold demo_submitted. destruct (handle_submit _ _ _ _ _) as [[[[[r c] ds] w]|]|] eqn:E;
    [|apply rtc_refl..]. by eapply rtc_once, (step_submit (demo_submit jobs)).
Qed.

Lemma demo_at_rtc jobs n : rtc step (demo_submitted jobs) (demo_at jobs n).
Proof.
  unfold demo_at. destruct (sched_run _ _ _) as [s|] eqn:E; [by eapply sched_run_rtc|apply rtc_refl].
Qed.

Lemma demo_reachable jobs n : reachable [demo_resources] (demo_at jobs n).
Proof. exists 0. etrans; [apply demo_submitted_rtc|apply demo_at_rtc]. Qed.

(** A job's record, from its computed state. *)
Lemma demo_state s j st :
  ji_state <$> demo_job_at s j = Some st →
  ∃ job, job_at (ds_runs (sy_ds s)) "run" j = Some job ∧ ji_state job = st.
Proof. unfold demo_job_at. destruct (job_at _ _ _) as [job|]; [|done]. intros [= <-]. eauto. Qed.

Lemma scheduler_never_panics_witness : ∃ s', sched_step demo_choices (demo_at demo_chain 11) = Ret s'.
Proof.
  apply (scheduler_never_panics [demo_resources] (demo_at demo_chain 11) demo_can_start
    (demo_reachable demo_chain 11)).
Defined.

Lemma daemon_conserves_resources_witness :
  length (all_held (demo_at demo_cards 21)) = 2%nat ∧
  cluster_accounts (ds_pools (sy_ds (demo_at demo_cards 21))) (all_held (demo_at demo_cards 21)).
Proof.
  split; [vm_compute; reflexivity|].
  apply (daemon_conserves_resources [demo_resources] (demo_at demo_cards 21) demo_can_start
    (demo_reachable demo_cards 21)).
Defined.

Lemma job_life_cycle_witness :
  ∃ job job', job_at (ds_runs (sy_ds (demo_at demo_chain 11))) "run" "a" = Some job ∧
    ji_state job = JobState.Queued ∧
    job_at (ds_runs (sy_ds (demo_at demo_chain 12))) "run" "a" = Some job' ∧
    ji_state job' = JobState.Running ∧ same_job job job'.
Proof.
  destruct (demo_state (demo_at demo_chain 11) "a" JobState.Queued) as (job & Hj & Hs).
  { vm_compute. reflexivity. }
  assert (step (demo_at demo_chain 11) (demo_at demo_chain 12)) as Hstep.
  { apply (step_sched demo_choices). vm_compute. reflexivity. }
  destruct (job_life_cycle [demo_resources] _ _ demo_can_start (demo_reachable demo_chain 11) Hstep)
    as [Hfwd _].
  destruct (Hfwd _ _ _ Hj) as (job' & Hj' & Hsame & _). exists job, job'.
  split; [exact Hj|]. split; [exact Hs|]. split; [exact Hj'|]. split; [|exact Hsame].
  destruct (demo_state (demo_at demo_chain 12) "a" JobState.Running) as (job2 & Hj2 & Hs2).
  { vm_compute. reflexivity. }
  rewrite Hj' in Hj2. injection Hj2 as ->. exact Hs2.
Defined.

(** A running job with the execution and card it was computed to have. *)
Lemma demo_card s j n gpu :
  (λ job, (λ e, (ex_node e, al_gpus (ex_allocation e))) <$> ji_executions job) <$> demo_job_at s j
    = Some [(n, [gpu])] →
  ∃ job e, job_at (ds_runs (sy_ds s)) "run" j = Some job ∧ e ∈ ji_executions job ∧
    ex_node e = n ∧ gpu ∈ al_gpus (ex_allocation e).
Proof.
  unfold demo_job_at. destruct (job_at _ _ _) as [job|]; [|done]. cbn.
  intros [= E]. destruct (ji_executions job) as [|e [|]] eqn:Ee; [done| |done]. cbn in E.
  injection E as <- E. exists job, e. rewrite E, Ee. split_and!; [done|by left|done|by left].
Qed.

Lemma no_card_shared_witness :
  ∃ n1 n2 g1 g2, (ga_index g1, ga_index g2) = (n1, n2) ∧ n1 ≠ n2.
Proof.
  destruct (demo_card (demo_at demo_cards 21) "x" 0 (mkGpuAllocation 1 24000))
    as (job1 & e1 & Hj1 & He1 & Hn1 & Hg1).
  { vm_compute. reflexivity. }
  destruct (demo_card (demo_at demo_cards 21) "y" 0 (mkGpuAllocation 0 24000))
    as (job2 & e2 & Hj2 & He2 & Hn2 & Hg2).
  { vm_compute. reflexivity. }
  exists 1, 0, (mkGpuAllocation 1 24000), (mkGpuAllocation 0 24000). split; [reflexivity|].
  refine (no_card_shared [demo_resources] _ "run" "x" job1 e1 _ "run" "y" job2 e2 _ demo_can_start
    (demo_reachable demo_cards 21) Hj1 Hj2 _ He1 He2 _ Hg1 Hg2); [discriminate|].
  rewrite Hn1, Hn2. reflexivity.
Defined.

Lemma job_runs_once_witness :
  ∃ job job1, job_at (ds_runs (sy_ds (demo_at demo_chain 12))) "run" "a" = Some job ∧
    job_at (ds_runs (sy_ds (demo_at demo_chain 31))) "run" "a" = Some job1 ∧
    ji_executions job1 = ji_executions job.
Proof.
  destruct (demo_state (demo_at demo_chain 12) "a" JobState.Running) as (job & Hj & Hs).
  { vm_compute. reflexivity. }
  destruct (demo_state (demo_at demo_chain 31) "a" JobState.Running) as (job1 & Hj1 & Hs1).
  { vm_compute. reflexivity. }
  assert (rtc step (demo_at demo_chain 12) (demo_at demo_chain 31)) as Hrtc.
  { apply (sched_run_rtc 19 demo_choices). vm_compute. reflexivity. }
  exists job, job1. split; [exact Hj|]. split; [exact Hj1|].
  destruct (job_runs_once [demo_resources] _ _ _ "run" "a" job job1 job1 demo_can_start
    (demo_reachable demo_chain 12) Hrtc (rtc_refl _ _) Hj Hs Hj1 Hj1 Hs1) as (_ & H1 & _).
  exact H1.
Defined.

Lemma dependencies_first_witness :
  ∃ jd, job_at (ds_runs (sy_ds (demo_at demo_chain 49))) "run" "a" = Some jd ∧
    ji_state jd = JobState.Succeeded.
Proof.
  destruct (demo_state (demo_at demo_chain 49) "b" JobState.Running) as (job & Hj & Hs).
  { vm_compute. reflexivity. }
  destruct (dependencies_first [demo_resources] _ "run" "b" job demo_can_start
    (demo_reachable demo_chain 49) Hj) as [Hdeps _].
  apply Hdeps; [by rewrite Hs|by rewrite Hs|].
  assert (js_depends_on (ji_spec job) = ["a"]) as ->; [|by left].
  assert ((λ job, js_depends_on (ji_spec job)) <$> job_at (ds_runs (sy_ds (demo_at demo_chain 49)))
    "run" "b" = Some ["a"]) as Hd by (vm_compute; reflexivity).
  rewrite Hj in Hd. cbn in Hd. by injection Hd.
Defined.

Lemma run_never_stuck_witness :
  ∃ run j' job', ds_runs (sy_ds (demo_at demo_chain 12)) !! "run" = Some run ∧
    wr_jobs run !! j' = Some job' ∧
    (ji_state job' = JobState.Queued ∨ ji_state job' = JobState.Running ∨
     ready (wr_jobs run) job' = true ∨ doomed (wr_jobs run) job' = true).
Proof.
  destruct (demo_state (demo_at demo_chain 12) "b" JobState.Pending) as (job & Hj & Hs).
  { vm_compute. reflexivity. }
  apply job_at_Some in Hj as (run & Hk & Hj). exists run.
  destruct (run_never_stuck [demo_resources] _ "run" run "b" job demo_can_start
    (demo_reachable demo_chain 12) Hk Hj Hs) as (j' & job' & Hj' & Hcase).
  exists j', job'. split; [exact Hk|]. split; [exact Hj'|exact Hcase].
Defined.

End demo.
