(* ===== verification/Loop.v ===== *)
(** * The scheduler's loop: [run] of [src/scheduler/mod.rs]

    [check_gpus] and [run] as the source composes them, each iteration in one
    go.  [System.v] cuts the same code at its awaits; left alone, its stretches
    do exactly what an iteration does, panics included, so what is proved of
    every interleaving there is proved of this loop. *)

From S2P Require Import Prelude Spec Pool Placement Handle Model Dag Text Health Protocol Executor Shell Scheduler Qualify Tasks Server System Guarantees.

Definition TICK_MS : N := 100.

(** Cards are checked every 20 ticks. *)
Definition GPU_CHECK_TICKS : N := 20.

Definition check_due (count : N) : bool := count mod GPU_CHECK_TICKS =? 0.

Section loop.
Context `{HashOrder}.
Context {W : Type} `{DaemonEnv W}.

(** What a check draws from outside: the clock as it looks at the tests in
    flight, the readings' clocks, and for each test it starts, counted from the
    last, the clock before and after its launch and a fresh id. *)
Record CheckDraws := mkCheckDraws {
  cd_finish : Instant;
  cd_check : CheckClock;
  cd_last : nat → Instant;
  cd_started : nat → Instant;
  cd_uuid : nat → string;
}.

(** [for (node, gpu, retest, allocation) in to_qualify] *)
Fixpoint qualify_all (cd : CheckDraws) (l : list ToQualify) (pools : list ResourcePool) (checks : GpuChecks)
    (w : W) : exec ((list ResourcePool * GpuChecks) * W) :=
  match l with
  | [] => Ret ((pools, checks), w)
  | tq :: l' =>
      r ← qualify_one (cd_last cd (length l)) (cd_started cd (length l)) (cd_uuid cd (length l)) tq pools checks w;
      let '((pools', checks'), w') := r in
      qualify_all cd l' pools' checks' w'
  end.

Definition check_gpus (cd : CheckDraws) (ds : DaemonState) (checks : GpuChecks) (w : W)
    : exec ((DaemonState * GpuChecks) * W) :=
  f ← finish_qualifications (cd_finish cd) (ds_pools ds) checks w;
  let '((pools, checks1), w1) := f in
  r ← check_pools (cd_check cd) (node_reading w1 <$> env_nodes) (set_pools pools ds) checks1;
  let '(ds2, checks2, to_qualify) := r in
  q ← qualify_all cd to_qualify (ds_pools ds2) checks2 w1;
  let '((pools3, checks3), w3) := q in
  Ret ((set_pools pools3 ds2, checks3), w3).

(** One turn of [for count in 0u64..]. *)
Definition iteration (ck : Clocks) (cd : CheckDraws) (count : N) (ds : DaemonState) (checks : GpuChecks) (w : W)
    : exec ((DaemonState * GpuChecks) * W) :=
  g ← (if check_due count then check_gpus cd ds checks w else Ret ((ds, checks), w));
  let '((ds1, checks1), w1) := g in
  t ← tick ck ds1 w1;
  Ret ((t.1, checks1), t.2).

(** The first [n] turns from [count] on; the range's counter is a [u64]. *)
Fixpoint run (n : nat) (draw : N → Clocks * CheckDraws) (count : N) (ds : DaemonState) (checks : GpuChecks) (w : W)
    : exec ((DaemonState * GpuChecks) * W) :=
  match n with
  | O => Ret ((ds, checks), w)
  | S n' =>
      next ← checked_add u64_max count 1;
      r ← iteration (draw count).1 (draw count).2 count ds checks w;
      let '((ds', checks'), w') := r in
      run n' draw next ds' checks' w'
  end.

(** ** Stretches in a row *)

Fixpoint stretches (n : nat) (ch : pc → Choices) (s : @Sys W) : exec Sys :=
  match n with
  | O => Ret s
  | S n' => s' ← sched_step (ch (sy_pc s)) s; stretches n' ch s'
  end.

(** Some number of stretches comes to [r]. *)
Definition comes_to (ch : pc → Choices) (s : @Sys W) (r : exec Sys) : Prop := ∃ n, stretches n ch s = r.

Lemma stretches_app n m ch s : stretches (n + m) ch s = (s' ← stretches n ch s; stretches m ch s').
Proof.
  revert s. induction n as [|n IH]; intros s; [done|]. cbn. destruct (sched_step _ s) as [s1|]; [apply IH|done].
Qed.

Lemma comes_now ch s : comes_to ch s (Ret s).
Proof. by exists 0%nat. Qed.

Lemma comes_step ch s : comes_to ch s (sched_step (ch (sy_pc s)) s).
Proof. exists 1%nat. cbn. by destruct (sched_step _ s). Qed.

Lemma comes_bind {A} ch s (m : exec A) (f : A → Sys) (k : A → exec Sys) :
  comes_to ch s (x ← m; Ret (f x)) → (∀ x, m = Ret x → comes_to ch (f x) (k x)) → comes_to ch s (x ← m; k x).
Proof.
  intros [n Hn] Hk. destruct m as [x|]; [|by exists n]. destruct (Hk x eq_refl) as [n' Hn'].
  exists (n + n')%nat. rewrite stretches_app. cbn in Hn. rewrite Hn. exact Hn'.
Qed.

Lemma comes_trans ch s s' r : comes_to ch s (Ret s') → comes_to ch s' r → comes_to ch s r.
Proof. intros H1 H2. apply (comes_bind ch s (Ret s') id (λ _, r)); [exact H1|]. by intros ? [= <-]. Qed.

Lemma comes_after ch s s' r : sched_step (ch (sy_pc s)) s = Ret s' → comes_to ch s' r → comes_to ch s r.
Proof. intros Hs. apply comes_trans. rewrite <-Hs. apply comes_step. Qed.

(** A stretch that runs [m], then more. *)
Lemma comes_go {A} ch s (m : exec A) (f : A → Sys) (g k : A → exec Sys) :
  sched_step (ch (sy_pc s)) s = m ≫= g → (∀ x, g x = Ret (f x)) →
  (∀ x, comes_to ch (f x) (k x)) → comes_to ch s (m ≫= k).
Proof.
  intros Hs Hg Hk. apply (comes_bind _ _ _ f); [|by intros x _]. assert (m ≫= g = x ← m; Ret (f x)) as <-.
  { destruct m; [apply Hg|done]. } rewrite <-Hs. apply comes_step.
Qed.

(** [each], a stretch per element. *)
Lemma comes_each {A B} ch (f : A → W → exec (B * W)) (at_ : list A → list B → W → Sys) l done_ w :
  (∀ a l done_ w, sched_step (ch (sy_pc (at_ (a :: l) done_ w))) (at_ (a :: l) done_ w)
     = (r ← f a w; Ret (at_ l (done_ ++ [r.1]) r.2))) →
  comes_to ch (at_ l done_ w) (o ← each f l w; Ret (at_ [] (done_ ++ o.1) o.2)).
Proof.
  intros Hstep. revert done_ w. induction l as [|a l IH]; intros done_ w.
  { cbn. rewrite app_nil_r. apply comes_now. }
  assert ((o ← each f (a :: l) w; Ret (at_ [] (done_ ++ o.1) o.2))
    = (r ← f a w; o ← each f l r.2; Ret (at_ [] ((done_ ++ [r.1]) ++ o.1) o.2))) as ->.
  { cbn. destruct (f a w) as [[b w1]|]; cbn; [|done]. destruct (each f l w1) as [[bs w2]|]; cbn; [|done].
    by rewrite <-app_assoc. }
  eapply (comes_bind _ _ _ (λ r, at_ l (done_ ++ [r.1]) r.2)); [rewrite <-Hstep; apply comes_step|].
  intros [b w1] _. apply IH.
Qed.

(** [t] follows a bind. *)
Lemma bind_into {A B C} (m : exec A) (k : A → exec B) (t : B → C) :
  (r ← (x ← m; k x); Ret (t r)) = (x ← m; r ← k x; Ret (t r)).
Proof. by destruct m. Qed.

(** ** The draws of an iteration, by the stretch that makes them *)

Definition phase_of (p : pc) : nat :=
  match p with P_Skip => 1 | P_Launch _ _ => 2 | P_Poll _ _ => 3 | P_Flush n _ => n | _ => 0 end.

Definition left_to_start (p : pc) : nat := match p with P_Qualify l => length l | _ => 0 end.

Definition draws (ck : Clocks) (cd : CheckDraws) (next_due : bool) (p : pc) : Choices :=
  mkChoices (ck_utc ck (phase_of p)) (ck_raw ck (phase_of p))
    match p with P_Qualify l => cd_last cd (length l) | _ => cd_finish cd end
    (cd_started cd (left_to_start p))
    (cd_check cd) (cd_uuid cd (left_to_start p)) next_due.

(** The scheduler at the start of iteration [count]. *)
Definition at_top (count : N) (ds : DaemonState) (checks : GpuChecks) (w : W) : Sys :=
  if check_due count then mkSys ds (set_qualifying [] checks) w (P_Finish (gc_qualifying checks) [])
  else mkSys ds checks w P_Pending.

Section one_iteration.
Context (ck : Clocks) (cd : CheckDraws) (next_due : bool).
Local Abbreviation comes := (comes_to (draws ck cd next_due)).

Lemma comes_flush ds checks w phase l :
  comes (mkSys ds checks w (P_Flush phase l))
    (w' ← flush_transitions (ck_raw ck phase) (ds_runs ds) l w; Ret (mkSys ds checks w' (P_Flush phase []))).
Proof.
  revert w. induction l as [|rj l IH]; intros w; [apply comes_now|].
  unfold flush_transitions. cbn [foldM]. rewrite bind_into.
  eapply (comes_bind _ _ _ (λ w', mkSys ds checks w' (P_Flush phase l))); [apply comes_step|]. intros w' _. apply IH.
Qed.

Lemma comes_flushed ds checks w phase l next :
  (∀ w', sched_step (draws ck cd next_due (P_Flush phase [])) (mkSys ds checks w' (P_Flush phase [])) = Ret (next w')) →
  comes (mkSys ds checks w (P_Flush phase l))
    (w' ← flush_transitions (ck_raw ck phase) (ds_runs ds) l w; Ret (next w')).
Proof.
  intros Hnext. eapply comes_bind; [apply comes_flush|]. intros w' _.
  eapply comes_after; [apply Hnext|apply comes_now].
Qed.

Lemma comes_pending ds checks w :
  comes (mkSys ds checks w P_Pending) (s ← advance_pending ck ds w; Ret (mkSys s.1 checks s.2 P_Skip)).
Proof.
  unfold advance_pending. destruct (queue_ready (ds_runs ds)) as [runs to_write] eqn:E. rewrite bind_into.
  eapply comes_after; [by cbn; rewrite E|]. by apply (comes_flushed (set_runs runs ds)).
Qed.

Lemma comes_skip ds checks w :
  comes (mkSys ds checks w P_Skip) (s ← cascade_skipped ck ds w; Ret (mkSys s.1 checks s.2 P_Reserve)).
Proof.
  unfold cascade_skipped. destruct (skip_doomed _ (ds_runs ds)) as [runs to_write] eqn:E. rewrite bind_into.
  eapply comes_after; [by cbn; rewrite E|]. by apply (comes_flushed (set_runs runs ds)).
Qed.

Lemma comes_queued ds checks w :
  comes (mkSys ds checks w P_Reserve) (s ← advance_queued ck ds w; Ret (mkSys s.1 checks s.2 P_Collect)).
Proof.
  unfold advance_queued. rewrite bind_into.
  eapply (comes_go _ _ _ (λ r, mkSys (set_pools r.1 ds) checks w (P_Launch r.2 []))); [done|by intros []|].
  intros [pools tasks]. cbn [fst snd]. rewrite bind_into.
  eapply comes_bind; [apply (comes_each _ launch_task (λ l o w, mkSys (set_pools pools ds) checks w (P_Launch l o)))|].
  { reflexivity. }
  intros [outcomes w1] _. cbn [fst snd app]. rewrite bind_into.
  eapply (comes_bind _ _ _ (λ d, mkSys d.1 checks w1 (P_Flush 2 d.2))); [apply comes_step|].
  intros [ds' to_write] _. cbn [fst snd]. rewrite bind_into. by apply comes_flushed.
Qed.

Lemma comes_running ds checks w :
  comes (mkSys ds checks w P_Collect)
    (s ← advance_running ck ds w;
     Ret (if next_due then mkSys s.1 (set_qualifying [] checks) s.2 (P_Finish (gc_qualifying checks) [])
          else mkSys s.1 checks s.2 P_Pending)).
Proof.
  unfold advance_running. rewrite bind_into. eapply comes_after; [reflexivity|].
  eapply comes_bind; [apply (comes_each _ poll_job (λ l o w, mkSys ds checks w (P_Poll l o))); reflexivity|].
  intros [entries w1] _. cbn [fst snd app]. rewrite bind_into.
  eapply (comes_bind _ _ _ (λ d, mkSys d.1 checks w1 (P_Flush 3 d.2))); [apply comes_step|].
  intros [ds' to_write] _. cbn [fst snd]. rewrite bind_into. by apply comes_flushed.
Qed.

Lemma comes_tick ds checks w :
  comes (mkSys ds checks w P_Pending)
    (s ← tick ck ds w;
     Ret (if next_due then mkSys s.1 (set_qualifying [] checks) s.2 (P_Finish (gc_qualifying checks) [])
          else mkSys s.1 checks s.2 P_Pending)).
Proof.
  unfold tick. rewrite bind_into. eapply comes_bind; [apply comes_pending|]. intros s1 _.
  rewrite bind_into. eapply comes_bind; [apply comes_skip|]. intros s2 _.
  rewrite bind_into. eapply comes_bind; [apply comes_queued|]. intros s3 _. apply comes_running.
Qed.

(** ** The check *)

Lemma comes_finish ds checks w :
  comes (mkSys ds (set_qualifying [] checks) w (P_Finish (gc_qualifying checks) []))
    (f ← finish_qualifications (cd_finish cd) (ds_pools ds) checks w;
     Ret (mkSys (set_pools f.1.1 ds) f.1.2 f.2 (P_Check []))).
Proof.
  unfold finish_qualifications. rewrite bind_into.
  eapply comes_bind.
  { apply (comes_each _ (finish_one (cd_finish cd)) (λ l o w, mkSys ds (set_qualifying [] checks) w (P_Finish l o))).
    reflexivity. }
  intros [polled w1] _. cbn [fst snd app]. rewrite bind_into. apply comes_step.
Qed.

(** The readings, node by node. *)
Lemma comes_readings ds checks w done_ todo :
  env_nodes = done_ ++ todo →
  comes (mkSys ds checks w (P_Check (node_reading w <$> done_)))
    (Ret (mkSys ds checks w (P_Check (node_reading w <$> env_nodes)))).
Proof.
  revert done_. induction todo as [|node todo IH]; intros done_ Hnodes.
  { rewrite Hnodes, app_nil_r. apply comes_now. }
  eapply comes_after; [|apply (IH (done_ ++ [node])); by rewrite <-app_assoc].
  cbn [sched_step sy_pc sy_ds sy_checks sy_world]. rewrite length_fmap, Hnodes.
  rewrite list_lookup_middle by done. by rewrite fmap_app.
Qed.

Lemma comes_checked ds checks w :
  comes (mkSys ds checks w (P_Check []))
    (r ← check_pools (cd_check cd) (node_reading w <$> env_nodes) ds checks;
     Ret (mkSys r.1.1 r.1.2 w (P_Qualify r.2))).
Proof.
  eapply comes_trans; [by apply (comes_readings ds checks w [] env_nodes)|].
  eapply (comes_go _ _ _ (λ r, mkSys r.1.1 r.1.2 w (P_Qualify r.2))).
  - cbn [sched_step sy_pc sy_ds sy_checks sy_world]. rewrite length_fmap, (proj2 (lookup_ge_None _ _)) by done. done.
  - by intros [[? ?] ?].
  - intros. apply comes_now.
Qed.

Lemma comes_qualify l ds checks w :
  comes (mkSys ds checks w (P_Qualify l))
    (q ← qualify_all cd l (ds_pools ds) checks w; Ret (mkSys (set_pools q.1.1 ds) q.1.2 q.2 P_Pending)).
Proof.
  revert ds checks w. induction l as [|tq l IH]; intros ds checks w.
  { destruct ds. by eapply comes_after, comes_now. }
  cbn [qualify_all]. rewrite bind_into.
  eapply (comes_go _ _ _ (λ r, mkSys (set_pools r.1.1 ds) r.1.2 r.2 (P_Qualify l))); [done|by intros [[? ?] ?]|].
  intros [[pools checks'] w']. exact (IH (set_pools pools ds) checks' w').
Qed.

Lemma comes_check_gpus ds checks w :
  comes (mkSys ds (set_qualifying [] checks) w (P_Finish (gc_qualifying checks) []))
    (g ← check_gpus cd ds checks w; Ret (mkSys g.1.1 g.1.2 g.2 P_Pending)).
Proof.
  unfold check_gpus. rewrite bind_into. eapply comes_bind; [apply comes_finish|].
  intros [[pools checks1] w1] _. cbn [fst snd]. rewrite bind_into. eapply comes_bind; [apply comes_checked|].
  intros [[ds2 checks2] l] _. cbn [fst snd]. rewrite bind_into. eapply comes_bind; [apply comes_qualify|].
  intros [[pools3 checks3] w3] _. apply comes_now.
Qed.
End one_iteration.

(** One turn of the loop. *)
Lemma comes_iteration ck cd count ds checks w :
  comes_to (draws ck cd (check_due (count + 1))) (at_top count ds checks w)
    (r ← iteration ck cd count ds checks w; Ret (at_top (count + 1) r.1.1 r.1.2 r.2)).
Proof.
  unfold iteration, at_top at 1. rewrite bind_into.
  assert (∀ g : (DaemonState * GpuChecks) * W,
    comes_to (draws ck cd (check_due (count + 1))) (mkSys g.1.1 g.1.2 g.2 P_Pending)
      (r ← (let '((ds1, checks1), w1) := g in t ← tick ck ds1 w1; Ret ((t.1, checks1), t.2));
       Ret (at_top (count + 1) r.1.1 r.1.2 r.2))) as Htick.
  { intros [[ds1 checks1] w1]. rewrite bind_into. apply comes_tick. }
  destruct (check_due count); [|apply (Htick (ds, checks, w))].
  eapply comes_bind; [apply comes_check_gpus|]. intros g _. apply Htick.
Qed.

(** Stretches are steps of the daemon, and none panics. *)
Lemma comes_reaches ch s r : daemon_inv s → comes_to ch s r → ∃ s', r = Ret s' ∧ rtc step s s'.
Proof.
  intros Hinv [n <-]. revert s Hinv. induction n as [|n IH]; intros s Hinv; [by exists s|]. cbn.
  destruct (sched_inv (ch (sy_pc s)) s (proj1 Hinv)) as (s1 & E & _). rewrite E. cbn.
  pose proof (step_sched _ _ _ E) as Hstep.
  destruct (IH s1 (proj1 (step_inv _ _ Hstep Hinv))) as (s' & E' & Hs'). exists s'. split; [done|by eapply rtc_l].
Qed.

Lemma run_reaches machines n draw count ds checks w :
  can_start machines → reachable machines (at_top count ds checks w) → count + N.of_nat n ≤ u64_max →
  ∃ r, run n draw count ds checks w = Ret r ∧ reachable machines (at_top (count + N.of_nat n) r.1.1 r.1.2 r.2).
Proof.
  intros Hstart. revert count ds checks w. induction n as [|n IH]; intros count ds checks w Hr Hn.
  { exists (ds, checks, w). by rewrite N.add_0_r. }
  cbn [run]. rewrite (proj2 (checked_add_Ret u64_max count 1 (count + 1))) by (split; [lia|done]). cbn.
  destruct (comes_reaches _ _ _ (reachable_inv _ _ Hstart Hr)
    (comes_iteration (draw count).1 (draw count).2 count ds checks w)) as (s' & E & Hs').
  destruct (iteration _ _ _ _ _ _) as [[[ds1 checks1] w1]|]; [|done]. injection E as <-. cbn.
  destruct (IH (count + 1) ds1 checks1 w1) as (r & -> & Hlast); [|lia|].
  - destruct Hr as [w0 Hr]. exists w0. by etrans.
  - exists r. split; [done|]. by replace (count + N.of_nat (S n)) with (count + 1 + N.of_nat n) by lia.
Qed.

(** An iteration of the scheduler's loop - the card check every twentieth
    time, then the tick's four phases - is exactly its stretches in a row:
    from the top of iteration [count] the machine of [System.v], drawing what
    the iteration draws and left alone, comes to the top of the next with the
    daemon's state, the checks and the world that the iteration returns, or
    panics when the iteration does. *)
Theorem iteration_is_stretches ck cd count ds checks w :
  comes_to (draws ck cd (check_due (count + 1))) (at_top count ds checks w)
    (r ← iteration ck cd count ds checks w; Ret (at_top (count + 1) r.1.1 r.1.2 r.2)).
Proof. apply comes_iteration. Qed.

(** Left alone, the loop runs on from a start for as long as its counter
    lasts, through reachable states only. *)
Theorem run_goes_on machines n draw w :
  can_start machines → N.of_nat n ≤ u64_max →
  let s := initial machines w in
  ∃ r, run n draw 0 (sy_ds s) (sy_checks s) w = Ret r ∧ reachable machines (at_top (N.of_nat n) r.1.1 r.1.2 r.2).
Proof.
  intros Hstart Hn s. apply (run_reaches machines n draw 0 (sy_ds s) (sy_checks s) w Hstart); [|done].
  exists w. by apply rtc_refl.
Qed.

End loop.
