(* ===== verification/Fits.v ===== *)
(** * Every waiting job has somewhere to run

    Admission accepts a job only when some node could run it idle, and a
    launch that was turned down leaves the job queued only when a node that
    has not turned it down could ([could_go_elsewhere] of
    scheduler/mod.rs).  The machines behind the pools never change while the
    daemon runs, so both stay true: an invariant of the whole daemon. *)

From S2P Require Import Prelude Spec Pool Placement Handle Model Dag Text Health Protocol Executor Shell Scheduler Qualify Tasks Server System Guarantees.

(** ** The machines behind the pools *)

(** An operation on a pool that leaves its inventory and its blocked cards. *)
Definition keeps_machine (p p' : ResourcePool) : Prop := rp_total p = rp_total p' ∧ rp_blocked p = rp_blocked p'.

Lemma index_mut_machines pools pools' n f :
  (∀ p p', f p = Ret p' → keeps_machine p p') → index_mut pools n f = Ret pools' → same_machines pools pools'.
Proof.
  intros Hf (p & p' & Hn & E & ->)%index_mut_Ret. destruct (Hf _ _ E) as [Ht Hb]. by apply (same_machines_insert _ _ p).
Qed.

Lemma release_keeps a p p' : ResourcePool.release a p = Ret p' → keeps_machine p p'.
Proof.
  unfold ResourcePool.release. intros (cpu & _ & E)%bind_Ret_inv. apply bind_Ret_inv in E as (mem & _ & E).
  apply bind_Ret_inv in E as (vram & _ & [= <-]). done.
Qed.

Lemma try_reserve_keeps o p r p' : ResourcePool.try_reserve o p = Ret (r, p') → keeps_machine p p'.
Proof.
  unfold ResourcePool.try_reserve. case_match; [by intros [= _ <-]|]. case_match; [by intros [= _ <-]|].
  intros ([gpus|] & _ & E)%bind_Ret_inv; [|by injection E as _ <-].
  repeat match type of E with (_ ≫= _) = Ret _ => apply bind_Ret_inv in E as (? & ? & E) end.
  by injection E as _ <-.
Qed.

(** Giving back what a list of holders has, in any of the places that do. *)
Lemma releases_machines {A} (node : A → nat) (alloc : A → Allocation) l pools pools' :
  foldM (λ pools x, index_mut pools (node x) (ResourcePool.release (alloc x))) pools l = Ret pools' →
  same_machines pools pools'.
Proof.
  intros E. eapply (foldM_inv_ret (same_machines pools)); [exact E|done|].
  intros q q' x _ E' Hs. etrans; [exact Hs|]. eapply index_mut_machines; [|exact E'].
  intros ? ?. apply release_keeps.
Qed.

Lemma release_machines pools executions pools' :
  release pools executions = Ret pools' → same_machines pools pools'.
Proof. apply (releases_machines ex_node ex_allocation). Qed.

Lemma release_all_machines placed pools pools' :
  release_all placed pools = Ret pools' → same_machines pools pools'.
Proof. apply (releases_machines fst snd). Qed.

Lemma release_ended_machines ended pools pools' :
  release_ended ended pools = Ret pools' → same_machines pools pools'.
Proof. apply (releases_machines qf_node qf_allocation). Qed.

Lemma find_node_machines o node online pools r pools' :
  find_node o node online pools = Ret (r, pools') → same_machines pools pools'.
Proof.
  revert node r pools'. induction pools as [|p pools IH]; intros node r pools'; cbn [find_node]; [by intros [= _ <-]|].
  intros (up & _ & E)%bind_Ret_inv. apply bind_Ret_inv in E as ([[alloc|] p'] & Er & E).
  - injection E as _ <-. constructor; [|apply same_machines_equiv]. destruct up; [by eapply try_reserve_keeps|done].
  - apply bind_Ret_inv in E as ([r' rest] & Erest & [= _ <-]). constructor; [|by eapply IH].
    destruct up; [by eapply try_reserve_keeps|by injection Er as <-].
Qed.

Lemma find_option_machines options online pools r pools' :
  find_option options online pools = Ret (r, pools') → same_machines pools pools'.
Proof.
  revert pools. induction options as [|o options IH]; intros pools; cbn [find_option]; [by intros [= _ <-]|].
  intros ([[found|] q] & E1 & E2)%bind_Ret_inv; apply find_node_machines in E1; [by injection E2 as _ <-|].
  etrans; [exact E1|by eapply IH].
Qed.

Lemma place_members_machines pools online placed members r pools' :
  place_members pools online placed members = Ret (r, pools') → same_machines pools pools'.
Proof.
  revert pools placed. induction members as [|spec members IH]; intros pools placed; cbn [place_members];
    [by intros [= _ <-]|].
  intros ([[member|] q] & E1 & E2)%bind_Ret_inv; apply find_option_machines in E1; (etrans; [exact E1|]).
  - by eapply IH.
  - apply bind_Ret_inv in E2 as (q' & E2 & [= _ <-]). by eapply release_all_machines.
Qed.

Section machines.
Context `{HashOrder}.
Context {W : Type} `{DaemonEnv W}.

Lemma reserve_queued_machines runs online pools pools' tasks :
  reserve_queued runs online pools = Ret (pools', tasks) → same_machines pools pools'.
Proof.
  rewrite reserve_queued_flat. intros E.
  assert (same_machines pools (pools', tasks).1) as Hs; [|exact Hs].
  eapply (foldM_inv_ret (λ acc, same_machines pools acc.1)); [exact E|done|].
  intros [q ts] [q' ts'] [run job] _ E' Hs. cbn [fst snd] in *. etrans; [exact Hs|]. unfold reserve_job in E'.
  destruct (is_queued _); [|by injection E' as <- _].
  destruct (place _ _ _) as [[[placement|] q2]|] eqn:Ep; cbn in E'; [| |done];
    apply place_members_machines in Ep; by injection E' as <- _.
Qed.

Lemma apply_launch_machines now o pools job pools' job' written :
  apply_launch now o pools job = Ret (pools', job', written) → same_machines pools pools'.
Proof.
  unfold apply_launch. intros E. destruct (lo_result o) as [u|error].
  - repeat (apply bind_Ret_inv in E as (? & _ & E)). by injection E as <- _ _.
  - destruct error as [?|?|?|?|?|?|?|reason];
      try (apply bind_Ret_inv in E as (q & Er & [= <- _ _]); by eapply release_machines).
    apply bind_Ret_inv in E as (first & _ & E). apply bind_Ret_inv in E as (node & _ & E).
    apply bind_Ret_inv in E as (q & Er & E). apply bind_Ret_inv in E as (why & _ & [= <- _ _]).
    by eapply release_machines.
Qed.

Lemma apply_outcome_machines clock ds tw o ds' tw' :
  apply_outcome clock (ds, tw) o = Ret (ds', tw') → same_machines (ds_pools ds) (ds_pools ds').
Proof.
  unfold apply_outcome. intros E.
  assert (∀ E2 : (pools' ← release (ds_pools ds) (lo_executions o);
     Ret (mkDaemonState (ds_runs ds) pools' (ds_requalify ds), tw)) = Ret (ds', tw'), same_machines (ds_pools ds) (ds_pools ds')) as Hdrop.
  { intros (q & Er & [= <- _])%bind_Ret_inv. by eapply release_machines. }
  destruct (ds_runs ds !! lo_run_id o) as [run|]; [|by apply Hdrop].
  destruct (wr_jobs run !! lo_job_id o) as [job|]; [|by apply Hdrop].
  apply bind_Ret_inv in E as ([[q job'] written] & Ea & [= <- _]). by eapply apply_launch_machines.
Qed.

Lemma apply_outcomes_machines clock os ds tw ds' tw' :
  foldM (apply_outcome clock) (ds, tw) os = Ret (ds', tw') → same_machines (ds_pools ds) (ds_pools ds').
Proof.
  intros E. assert (same_machines (ds_pools ds) (ds_pools (ds', tw').1)) as Hs; [|exact Hs].
  eapply (foldM_inv_ret (λ acc, same_machines (ds_pools ds) (ds_pools acc.1))); [exact E|done|].
  intros [d t] [d' t'] o _ E' Hs. cbn in *. etrans; [exact Hs|by eapply apply_outcome_machines].
Qed.

Lemma apply_entry_machines clock ds tw entry ds' tw' :
  apply_entry clock (ds, tw) entry = Ret (ds', tw') → same_machines (ds_pools ds) (ds_pools ds').
Proof.
  unfold apply_entry. intros E. destruct (ds_runs ds !! pe_run_id entry) as [run|]; [|by injection E as <- _].
  destruct (wr_jobs run !! pe_job_id entry) as [job|]; [|by injection E as <- _].
  apply bind_Ret_inv in E as ([[[q rq] job'] written] & Ea & [= <- _]). cbn. unfold apply_poll in Ea.
  destruct (pe_result entry) as [[|code]|error]; [by injection Ea as <- _ _ _| |];
    [|destruct error; try (by injection Ea as <- _ _ _)];
    apply bind_Ret_inv in Ea as (q' & Er & [= <- _ _ _]); by eapply release_machines.
Qed.

Lemma apply_entries_machines clock es ds tw ds' tw' :
  foldM (apply_entry clock) (ds, tw) es = Ret (ds', tw') → same_machines (ds_pools ds) (ds_pools ds').
Proof.
  intros E. assert (same_machines (ds_pools ds) (ds_pools (ds', tw').1)) as Hs; [|exact Hs].
  eapply (foldM_inv_ret (λ acc, same_machines (ds_pools ds) (ds_pools acc.1))); [exact E|done|].
  intros [d t] [d' t'] e _ E' Hs. cbn in *. etrans; [exact Hs|by eapply apply_entry_machines].
Qed.
End machines.

(** ** They never change *)

Lemma same_machines_totals pools pools' : same_machines pools pools' → rp_total <$> pools' = rp_total <$> pools.
Proof. induction 1 as [|p p' l l' [Ht _] _ IH]; [done|]. rewrite !fmap_cons. by rewrite IH, Ht. Qed.

Lemma insert_totals (pools : list ResourcePool) (n : nat) p p' :
  pools !! n = Some p → rp_total p' = rp_total p → rp_total <$> <[n := p']> pools = rp_total <$> pools.
Proof. intros Hn Ht. rewrite list_fmap_insert, Ht. apply list_insert_id. by rewrite list_lookup_fmap, Hn. Qed.

Lemma check_card_total cc last node reading s gpu s' :
  check_card cc last node reading s gpu = Ret s' → rp_total (cs_pool s') = rp_total (cs_pool s).
Proof.
  unfold check_card. intros (free & _ & E)%bind_Ret_inv. apply bind_Ret_inv in E as (blocked & _ & E).
  destruct (List.find _ reading) as [h|]; [|by injection E as <-].
  destruct (_ && _); [|by injection E as <-].
  apply bind_Ret_inv in E as ([[a|] p] & Er & [= <-]); cbn;
    by apply reserve_card_Ret in Er as [[_ ->]|(g & _ & _ & _ & _ & _ & ->)].
Qed.

Lemma check_node_totals cc last s ir s' :
  check_node cc last s ir = Ret s' → rp_total <$> ls_pools s' = rp_total <$> ls_pools s.
Proof.
  unfold check_node. destruct ir as [node reading]. intros (p & Hp%index_Ret & E)%bind_Ret_inv.
  destruct (if cc_online cc node then reading else None) as [readings|].
  - apply bind_Ret_inv in E as (c & Ec & [= <-]). cbn. eapply insert_totals; [done|].
    assert (rp_total (cs_pool c) = rp_total p) as <-; [|done].
    eapply (foldM_inv_ret (λ c, rp_total (cs_pool c) = rp_total p)); [exact Ec|done|].
    intros c1 c2 g _ Eg <-. by eapply check_card_total.
  - injection E as <-. cbn. by eapply insert_totals.
Qed.

Lemma check_pools_totals cc readings ds checks ds' checks' l :
  check_pools cc readings ds checks = Ret (ds', checks', l) → rp_total <$> ds_pools ds' = rp_total <$> ds_pools ds.
Proof.
  unfold check_pools. intros (s & E & [= <- _ _])%bind_Ret_inv. cbn.
  eapply (foldM_inv_ret (λ s, rp_total <$> ls_pools s = rp_total <$> ds_pools ds)); [exact E|done|].
  intros s1 s2 ir _ E' <-. by eapply check_node_totals.
Qed.

Section fits.
Context `{HashOrder}.
Context {W : Type} `{DaemonEnv W}.

Lemma sched_totals c s s' :
  sched_step c s = Ret s' → rp_total <$> ds_pools (sy_ds s') = rp_total <$> ds_pools (sy_ds s).
Proof.
  unfold sched_step. intros E. destruct (sy_pc s) as [[|q todo] polled|readings|[|tq l]| | | |[|t tasks] outcomes| |[|j jobs] entries|phase [|rj tw]].
  - apply bind_Ret_inv in E as (pools & E & [= <-]). by eapply same_machines_totals, release_ended_machines.
  - by apply bind_Ret_inv in E as (r & _ & [= <-]).
  - destruct (env_nodes !! _); [by injection E as <-|].
    apply bind_Ret_inv in E as ([[ds' checks'] l] & E & [= <-]). by eapply check_pools_totals.
  - by injection E as <-.
  - apply bind_Ret_inv in E as ([[pools checks'] w'] & E & [= <-]). cbn. unfold qualify_one in E.
    apply bind_Ret_inv in E as ([[handle|] w1] & _ & E); [by injection E as <- _ _|].
    apply bind_Ret_inv in E as (pools1 & E & [= <- _ _]).
    eapply same_machines_totals, index_mut_machines; [|exact E]. intros ? ?. apply release_keeps.
  - destruct (queue_ready _). by injection E as <-.
  - destruct (skip_doomed _ _). by injection E as <-.
  - apply bind_Ret_inv in E as ([pools tasks] & E & [= <-]). by eapply same_machines_totals, reserve_queued_machines.
  - apply bind_Ret_inv in E as ([ds' tw] & E & [= <-]). by eapply same_machines_totals, apply_outcomes_machines.
  - by apply bind_Ret_inv in E as (r & _ & [= <-]).
  - by injection E as <-.
  - apply bind_Ret_inv in E as ([ds' tw] & E & [= <-]). by eapply same_machines_totals, apply_entries_machines.
  - by apply bind_Ret_inv in E as (r & _ & [= <-]).
  - destruct phase as [|[|[|phase]]]; [by injection E as <-..|]. destruct (ch_due c); by injection E as <-.
  - by apply bind_Ret_inv in E as (w' & _ & [= <-]).
Qed.

(** ** Somewhere to run *)

(** A job that some node, not turned down by, could run idle. *)
Definition servable (pools : list ResourcePool) (runs : gmap string WorkflowRun) : Prop :=
  ∀ k j job, job_at runs k j = Some job → is_waiting (ji_state job) = true → has_elsewhere pools job.

Lemma could_fit_total o p p' : rp_total p' = rp_total p → ResourcePool.could_fit o p' = ResourcePool.could_fit o p.
Proof. unfold ResourcePool.could_fit. by intros ->. Qed.

Lemma has_elsewhere_totals pools pools' job :
  rp_total <$> pools' = rp_total <$> pools → has_elsewhere pools job → has_elsewhere pools' job.
Proof.
  intros Ht (node & p & Hp & Hrej & o & Ho & Hfit).
  assert ((rp_total <$> pools') !! node = Some (rp_total p)) as Hp' by (by rewrite Ht, list_lookup_fmap, Hp).
  apply list_lookup_fmap_Some in Hp' as (p' & Ep & Hp'). exists node, p'. split; [done|]. split; [done|].
  exists o. split; [done|]. by rewrite (could_fit_total o p p').
Qed.

(** What [has_elsewhere] looks at in a job. *)
Lemma has_elsewhere_job pools job job' :
  ji_spec job' = ji_spec job → ji_rejected job' = ji_rejected job →
  has_elsewhere pools job → has_elsewhere pools job'.
Proof. unfold has_elsewhere, JobInstance.rejected_by. by intros -> ->. Qed.

(** A job waits now only if it did, or has somewhere to go. *)
Definition still_waits (pools : list ResourcePool) (runs : gmap string WorkflowRun) (k j : string) (job' : JobInstance) : Prop :=
  is_waiting (ji_state job') = true →
  has_elsewhere pools job' ∨
  ∃ job, job_at runs k j = Some job ∧ is_waiting (ji_state job) = true ∧
    ji_spec job' = ji_spec job ∧ ji_rejected job' = ji_rejected job.

Lemma servable_step pools pools' runs runs' :
  rp_total <$> pools' = rp_total <$> pools → servable pools runs →
  (∀ k j job', job_at runs' k j = Some job' → still_waits pools' runs k j job') → servable pools' runs'.
Proof.
  intros Ht Hs Hstep k j job' Hj Hw. destruct (Hstep k j job' Hj Hw) as [|(job & Hjob & Hwait & Hspec & Hrej)]; [done|].
  eapply has_elsewhere_job; [done..|]. eapply has_elsewhere_totals; [done|]. by eapply Hs.
Qed.

Lemma waits_same pools runs k j job : job_at runs k j = Some job → still_waits pools runs k j job.
Proof. intros Hj Hw. right. by exists job. Qed.

Lemma servable_marked f test pools runs :
  runs_wf runs → servable pools runs →
  (∀ run jobs j job, test jobs job = true →
     is_waiting (ji_state job) = true ∧ ji_spec (f run j job) = ji_spec job ∧ ji_rejected (f run j job) = ji_rejected job) →
  servable pools (values_mut (λ run, mark_jobs (f run) (job_ids (test (wr_jobs run)) run) run) runs).1.
Proof.
  intros Hwf Hs Hf. eapply servable_step; [done|exact Hs|].
  intros k j job' (run & job & Hk & Hj & ->)%marked_at; [|done].
  assert (job_at runs k j = Some job) as Hat by (apply job_at_Some; eauto).
  destruct (test (wr_jobs run) job) eqn:Et; [|by apply waits_same].
  destruct (Hf run _ j _ Et) as (Hw & Hspec & Hrej). right. by exists job.
Qed.

(** A stretch that gives one job after the other its result. *)
Lemma servable_update pools pools' runs k run j job job' :
  runs !! k = Some run → wr_jobs run !! j = Some job →
  rp_total <$> pools' = rp_total <$> pools → servable pools runs →
  (is_waiting (ji_state job') = true → has_elsewhere pools' job' ∨
     is_waiting (ji_state job) = true ∧ ji_spec job' = ji_spec job ∧ ji_rejected job' = ji_rejected job) →
  servable pools' (update_job k j run job' runs).
Proof.
  intros Hk Hj Ht Hs Hw. eapply servable_step; [exact Ht|exact Hs|].
  intros k' j' job0. rewrite (job_at_update _ _ _ _ _ _ _ Hk). destruct (decide _) as [[= -> ->]|_]; [|apply waits_same].
  intros [= <-] [?|(? & ? & ?)]%Hw; [by left|right]. exists job. split; [apply job_at_Some; eauto|done].
Qed.

Lemma servable_outcome clock o ds ds' :
  outcome_applied clock o ds ds' → servable (ds_pools ds) (ds_runs ds) → servable (ds_pools ds') (ds_runs ds').
Proof.
  intros ((tw & tw' & Ht%apply_outcome_machines%same_machines_totals) & run & job & job' & e & Hk & Hj & Hq & _ & Happlied & ->) Hs.
  eapply servable_update; [done..|]. unfold launch_applied in Happlied.
  destruct (lo_result o) as [u|[?|?|?|?|?|?|?|reason]]; try (subst job'; done).
  - by destruct Happlied as [log ->].
  - subst job'. intros _. right. by rewrite Hq.
  - destruct Happlied as (why & [[Hel ->]|[_ ->]]); [by left|done].
Qed.

Lemma servable_entry clock entry ds ds' :
  entry_applied clock entry ds ds' → servable (ds_pools ds) (ds_runs ds) → servable (ds_pools ds') (ds_runs ds').
Proof.
  intros ((tw & tw' & Ht%apply_entry_machines%same_machines_totals) & run & job & job' & Hk & Hj & Hq & Happlied & ->) Hs.
  eapply servable_update; [done..|]. unfold poll_applied in Happlied.
  destruct (pe_result entry) as [[|code]|error].
  - destruct Happlied as [-> _]. by rewrite Hq.
  - destruct Happlied as [-> _]. unfold ended_job, ended_state. cbn. by destruct (pe_cancelling entry), (code =? 0)%Z.
  - destruct error; try (by destruct Happlied as [_ ->]). destruct Happlied as [-> _]. by rewrite Hq.
Qed.

(** What the two applying stretches do, in the chain of their results. *)
Lemma launch_chain c (s s' : @Sys W) outcomes :
  sys_inv s → sy_pc s = P_Launch [] outcomes → sched_step c s = Ret s' →
  chain (outcome_applied (ch_utc c)) outcomes (sy_ds s) (sy_ds s').
Proof.
  intros Hinv Hpc E. pose proof (si_pc _ Hinv) as Hp. rewrite Hpc in Hp. destruct Hp as (Hnames & _ & Hos).
  destruct (apply_outcomes_inv (ch_utc c) (ds_runs (sy_ds s)) outcomes
    (qf_held <$> gc_qualifying (sy_checks s)) (sy_ds s) []) as (ds' & tw & Ea & _ & Hc);
    [by apply (si_home _ Hinv)|done|by apply applying_start; [..|by rewrite Hpc]|].
  unfold sched_step, apply_outcomes in E. rewrite Hpc, Ea in E. by injection E as <-.
Qed.

Lemma poll_chain c (s s' : @Sys W) entries :
  sys_inv s → sy_pc s = P_Poll [] entries → sched_step c s = Ret s' →
  chain (entry_applied (ch_utc c)) entries (sy_ds s) (sy_ds s').
Proof.
  intros Hinv Hpc E. pose proof (si_pc _ Hinv) as Hp. rewrite Hpc in Hp. destruct Hp as (Hnames & _).
  destruct (apply_entries_inv (ch_utc c) (ds_runs (sy_ds s)) entries
    (qf_held <$> gc_qualifying (sy_checks s)) (sy_ds s) []) as (ds' & tw & Ea & _ & Hc);
    [by apply applying_start; [..|by rewrite Hpc]|].
  unfold sched_step, apply_entries in E. rewrite Hpc, Ea in E. by injection E as <-.
Qed.

Lemma servable_same (s s' : @Sys W) :
  rp_total <$> ds_pools (sy_ds s') = rp_total <$> ds_pools (sy_ds s) → ds_runs (sy_ds s') = ds_runs (sy_ds s) →
  servable (ds_pools (sy_ds s)) (ds_runs (sy_ds s)) → servable (ds_pools (sy_ds s')) (ds_runs (sy_ds s')).
Proof. intros Ht Hr Hs. eapply servable_step; [done|exact Hs|]. rewrite Hr. apply waits_same. Qed.

Lemma sched_servable c (s s' : @Sys W) :
  sys_inv s → sched_step c s = Ret s' →
  servable (ds_pools (sy_ds s)) (ds_runs (sy_ds s)) → servable (ds_pools (sy_ds s')) (ds_runs (sy_ds s')).
Proof.
  intros Hinv E Hs. pose proof (sched_totals _ _ _ E) as Ht.
  assert (∀ r, (∃ s', r = Ret s' ∧ sys_inv s' ∧ ds_runs (sy_ds s') = ds_runs (sy_ds s)) →
    r = Ret s' → servable (ds_pools (sy_ds s')) (ds_runs (sy_ds s'))) as Hsame.
  { intros r (s2 & E2 & _ & Hr) E'. rewrite E2 in E'. injection E' as ->. by eapply servable_same. }
  destruct (sy_pc s) as [todo polled|readings|l| | | |[|t tasks] outcomes| |[|j jobs] entries|phase tw] eqn:Hpc;
    try (eapply Hsame; [|exact E];
         first [by eapply finish_step|by apply qualify_step; eauto|by apply reserve_step|by apply collect_step
               |by eapply flush_step]).
  - unfold sched_step in E. rewrite Hpc, queue_ready_mark in E.
    pose proof (servable_marked (λ _ _, JobInstance.set_state JobState.Queued) ready _ _ (si_runs _ Hinv) Hs) as Hm.
    destruct (values_mut _ _) as [runs tw]. injection E as <-. apply Hm.
    intros run jobs j job [Hp _]%ready_spec. by rewrite Hp.
  - unfold sched_step in E. rewrite Hpc, skip_doomed_mark in E.
    pose proof (servable_marked (λ run j, skip_job (ch_utc c (wr_run_id run) j)) doomed _ _ (si_runs _ Hinv) Hs) as Hm.
    destruct (values_mut _ _) as [runs tw]. injection E as <-. apply Hm.
    intros run jobs j job [[Hp|Hp] _]%doomed_spec; by rewrite Hp.
  - eapply (chain_inv _ (λ ds, servable (ds_pools ds) (ds_runs ds))), Hs; [|by eapply launch_chain].
    intros x ? ? _. apply servable_outcome.
  - unfold sched_step in E. rewrite Hpc in E. apply bind_Ret_inv in E as (r & _ & [= <-]). exact Hs.
  - eapply (chain_inv _ (λ ds, servable (ds_pools ds) (ds_runs ds))), Hs; [|by eapply poll_chain].
    intros x ? ? _. apply servable_entry.
  - unfold sched_step in E. rewrite Hpc in E. apply bind_Ret_inv in E as (r & _ & [= <-]). exact Hs.
Qed.

Lemma step_servable (s s' : @Sys W) :
  step s s' → daemon_inv s → servable (ds_pools (sy_ds s)) (ds_runs (sy_ds s)) →
  servable (ds_pools (sy_ds s')) (ds_runs (sy_ds s')).
Proof.
  intros Hstep [Hinv _] Hs. destruct Hstep as [c s s' E|env yaml counters s response counters' ds' w' Hfresh E
    |run_id run s Hk|w' s].
  - by eapply sched_servable.
  - apply submit_cases in E as [->|(spec & Hv & Hfit & ->)]; cbn; [done|].
    eapply servable_step; [done|exact Hs|]. intros k j job. rewrite job_at_insert.
    destruct (decide (k = _)) as [->|]; [|apply waits_same].
    intros (i & js & Hi & -> & ->)%jobs_of_lookup _. left.
    pose proof (proj1 (first_unfit_None _ _) Hfit js) as Hjs.
    apply fits_somewhere_spec in Hjs as (n & p & o & Hn & Ho & Hf); [|by eapply list_elem_of_lookup_2].
    exists n, p. split; [done|]. split; [done|]. by exists o.
  - eapply servable_step; [done|exact Hs|]. intros k j job'. cbn [sy_ds ds_runs set_runs]. rewrite job_at_cancel by exact Hk.
    destruct (decide _); [|apply waits_same].
    destruct (job_at _ k j) as [job|] eqn:Hj; [|done]. cbn. intros [= <-] Hw. right. exists job.
    destruct (cancel_job_moves job) as (_ & Es & _ & Er & Esp & _). by rewrite <-Es.
  - done.
Qed.

Lemma reachable_servable machines (s : @Sys W) :
  can_start machines → reachable machines s → daemon_inv s ∧ servable (ds_pools (sy_ds s)) (ds_runs (sy_ds s)).
Proof.
  intros Hstart (w & Hr). pose proof (initial_inv machines w Hstart) as Hinit.
  assert (servable (ds_pools (sy_ds (initial machines w))) (ds_runs (sy_ds (initial machines w)))) as Hs by done.
  induction Hr as [s|s1 s2 s3 Hstep _ IH]; [done|].
  apply IH; [by apply (step_inv s1 s2)|by eapply step_servable].
Qed.

(** C10: Every waiting job has somewhere to run: while a job is Pending or
    Queued, however long the daemon has run and whatever was launched, turned
    down, blocked, submitted or cancelled meanwhile, there is a node it was
    not turned down by whose machine, idle, fits one of its options.  Jobs
    that nothing could ever run are refused at submission or failed. *)
Theorem waiting_job_has_a_node machines (s : @Sys W) k j job :
  can_start machines → reachable machines s →
  job_at (ds_runs (sy_ds s)) k j = Some job →
  ji_state job = JobState.Pending ∨ ji_state job = JobState.Queued →
  ∃ node p option p', ds_pools (sy_ds s) !! node = Some p ∧ JobInstance.rejected_by node job = false ∧
    option ∈ gpu_options (js_resources (ji_spec job)) ∧
    ∃ a, ResourcePool.try_reserve option (ResourcePool.new (rp_total p)) = Ret (Some a, p').
Proof.
  intros Hstart Hr Hj Hw. destruct (reachable_servable _ _ Hstart Hr) as [[Hinv _] Hs].
  destruct (Hs k j job Hj) as (node & p & Hp & Hrej & o & Ho & Hfit); [by destruct Hw as [-> | ->]|].
  apply could_fit_iff_idle_admission in Hfit as (a & p' & E).
  - exists node, p, o, p'. eauto.
  - eapply wf_inventory, acc_wf, (ca_pool _ _ (si_books _ Hinv)), Hp.
Qed.
End fits.

Section demo.
#[local] Existing Instance canonical_order.
#[local] Existing Instance demo_env.

Lemma waiting_job_has_a_node_witness :
  ∃ node p option p' a, ds_pools (sy_ds (demo_at demo_chain 12)) !! node = Some p ∧
    ResourcePool.try_reserve option (ResourcePool.new (rp_total p)) = Ret (Some a, p').
Proof.
  destruct (demo_state (demo_at demo_chain 12) "b" JobState.Pending) as (job & Hj & Hs).
  { vm_compute. reflexivity. }
  destruct (waiting_job_has_a_node [demo_resources] (demo_at demo_chain 12) "run" "b" job demo_can_start
    (demo_reachable demo_chain 12) Hj (or_introl Hs)) as (node & p & o & p' & Hp & _ & _ & a & E).
  exists node, p, o, p', a. split; [exact Hp|exact E].
Defined.
End demo.
