(* ===== verification/Weigh.v ===== *)
(** * What the daemon still has to do

    A measure of the runs: every transition of a job and every refusal by a
    node takes from it, nothing the scheduler or a cancel does adds to it, and
    it is zero exactly when every job has ended.  [Completion.v] builds the
    liveness of the whole daemon on it. *)

From S2P Require Import Prelude Spec Pool Placement Handle Model Dag Text Health Protocol Executor Shell Scheduler Qualify Tasks Server System Guarantees Fits.

Lemma filter_length_mono {A} (f g : A → bool) (l : list A) :
  (∀ x, x ∈ l → f x = true → g x = true) → (length (List.filter f l) ≤ length (List.filter g l))%nat.
Proof.
  induction l as [|x l IH]; intros Hfg; cbn; [done|]. specialize (IH (λ y Hy, Hfg y (list_elem_of_further _ _ _ Hy))).
  destruct (f x) eqn:Ef; [rewrite (Hfg x (list_elem_of_here _ _) Ef); cbn; lia|].
  destruct (g x); cbn; lia.
Qed.

Lemma filter_length_strict {A} (f g : A → bool) (l : list A) y :
  (∀ x, x ∈ l → f x = true → g x = true) → y ∈ l → f y = false → g y = true →
  (length (List.filter f l) < length (List.filter g l))%nat.
Proof.
  intros Hfg Hy Hf Hg. apply list_elem_of_split in Hy as (l1 & l2 & ->).
  rewrite !List.filter_app, !length_app. cbn. rewrite Hf, Hg. cbn.
  assert (length (List.filter f l1) ≤ length (List.filter g l1))%nat.
  { apply filter_length_mono. intros x Hx. apply Hfg. set_solver. }
  assert (length (List.filter f l2) ≤ length (List.filter g l2))%nat; [|lia].
  apply filter_length_mono. intros x Hx. apply Hfg. set_solver.
Qed.

Section weigh.
Context `{HashOrder}.
Context {W : Type} `{DaemonEnv W}.

(** ** The weight of a job *)

(** How many nodes have not turned the job down. *)
Definition open_nodes (job : JobInstance) : nat :=
  length (List.filter (λ node, negb (JobInstance.rejected_by node job)) (seq 0 (length env_nodes))).

Definition weight (job : JobInstance) : nat :=
  match ji_state job with
  | JobState.Pending => 3 + length env_nodes
  | JobState.Queued => 2 + open_nodes job
  | JobState.Running => 1
  | _ => 0
  end.

Lemma open_nodes_bound job : (open_nodes job ≤ length env_nodes)%nat.
Proof.
  unfold open_nodes. etrans; [apply (filter_length_mono _ (λ _, true)); done|].
  clear. rewrite <-(length_seq (length env_nodes) 0) at 2. by induction (seq _ _); cbn; [|lia].
Qed.

Lemma weight_terminal job : weight job = 0%nat ↔ JobState.is_terminal (ji_state job) = true.
Proof. unfold weight. destruct (ji_state job); cbn; split; done. Qed.

Lemma rejected_more node n why job job' :
  ji_rejected job' = ji_rejected job ++ [(n, why)] →
  JobInstance.rejected_by node job' = JobInstance.rejected_by node job || Nat.eqb n node.
Proof. unfold JobInstance.rejected_by. intros ->. rewrite existsb_app. cbn. by rewrite orb_false_r. Qed.

(** A refusal counts, the first time. *)
Lemma open_nodes_refused job job' n why :
  ji_rejected job' = ji_rejected job ++ [(n, why)] →
  (open_nodes job' ≤ open_nodes job)%nat ∧
  (JobInstance.rejected_by n job = false → (n < length env_nodes)%nat → (open_nodes job' < open_nodes job)%nat).
Proof.
  intros E. unfold open_nodes.
  assert (∀ x, negb (JobInstance.rejected_by x job') = true → negb (JobInstance.rejected_by x job) = true) as Hmono.
  { intros x. rewrite (rejected_more _ _ _ _ _ E). by destruct (JobInstance.rejected_by x job). }
  split; [apply filter_length_mono; auto|]. intros Hrej Hn. apply (filter_length_strict _ _ _ n); [auto| | |].
  - apply elem_of_seq. lia.
  - by rewrite (rejected_more _ _ _ _ _ E), Hrej, Nat.eqb_refl.
  - by rewrite Hrej.
Qed.

(** ** The weight of the runs *)

Definition weight_at (runs : gmap string WorkflowRun) (name : job_name) : nat :=
  from_option weight 0%nat (job_at runs name.1 name.2).

(** The jobs by name, the same all along. *)
Definition load (names : list job_name) (runs : gmap string WorkflowRun) : nat :=
  sum_list_with (weight_at runs) names.

Definition lighter (runs runs' : gmap string WorkflowRun) : Prop :=
  ∀ name, (weight_at runs' name ≤ weight_at runs name)%nat.

#[export] Instance lighter_preorder : PreOrder lighter.
Proof. split; [by intros runs name|]. intros r1 r2 r3 H1 H2 name. specialize (H1 name). specialize (H2 name). lia. Qed.

(** Lighter, and at one job strictly so. *)
Definition sheds (names : list job_name) (runs runs' : gmap string WorkflowRun) : Prop :=
  lighter runs runs' ∧ ∃ name, name ∈ names ∧ (weight_at runs' name < weight_at runs name)%nat.

Lemma load_lighter names runs runs' : lighter runs runs' → (load names runs' ≤ load names runs)%nat.
Proof. intros Hl. unfold load. induction names as [|n names IH]; cbn; [done|]. specialize (Hl n). lia. Qed.

Lemma load_sheds names runs runs' : sheds names runs runs' → (load names runs' < load names runs)%nat.
Proof.
  intros (Hl & n & Hn & Hlt). apply list_elem_of_split in Hn as (l1 & l2 & ->). unfold load.
  pose proof (load_lighter l1 _ _ Hl) as H1. pose proof (load_lighter l2 _ _ Hl) as H2. unfold load in *.
  rewrite !sum_list_with_app. cbn. lia.
Qed.

Lemma weight_at_Some runs k j job : job_at runs k j = Some job → weight_at runs (k, j) = weight job.
Proof. unfold weight_at. cbn. by intros ->. Qed.

Lemma load_zero names runs :
  load names runs = 0%nat → ∀ k j job, (k, j) ∈ names → job_at runs k j = Some job →
  JobState.is_terminal (ji_state job) = true.
Proof.
  intros Hz k j job Hin Hj. apply weight_terminal. rewrite <-(weight_at_Some _ _ _ _ Hj).
  apply list_elem_of_split in Hin as (l1 & l2 & ->). unfold load in Hz.
  rewrite sum_list_with_app in Hz. cbn in Hz. lia.
Qed.

Lemma load_positive names runs :
  load names runs ≠ 0%nat → ∃ k j job, (k, j) ∈ names ∧ job_at runs k j = Some job ∧
    JobState.is_terminal (ji_state job) = false.
Proof.
  unfold load. induction names as [|[k j] names IH]; cbn; [done|]. intros Hne.
  destruct (decide (weight_at runs (k, j) = 0%nat)) as [E|E].
  - destruct IH as (k' & j' & job & Hin & ?); [lia|]. exists k', j', job. split; [by right|done].
  - unfold weight_at in E. cbn in E. destruct (job_at runs k j) as [job|] eqn:Hj; [|done]. cbn in E.
    exists k, j, job. split; [by left|]. split; [done|].
    destruct (JobState.is_terminal _) eqn:Et; [|done]. by apply weight_terminal in Et.
Qed.

(** ** What the stretches take off *)

Lemma weight_at_update runs k run j job job' name :
  runs !! k = Some run → wr_jobs run !! j = Some job →
  weight_at (update_job k j run job' runs) name = if decide (name = (k, j)) then weight job' else weight_at runs name.
Proof.
  intros Hk Hj. unfold weight_at. destruct name as [k' j']. cbn.
  rewrite (job_at_update _ _ _ _ _ _ _ Hk). by destruct (decide _).
Qed.

Lemma lighter_update runs k run j job job' :
  runs !! k = Some run → wr_jobs run !! j = Some job → (weight job' ≤ weight job)%nat →
  lighter runs (update_job k j run job' runs).
Proof.
  intros Hk Hj Hw name. rewrite (weight_at_update _ _ _ _ _ _ _ Hk Hj). destruct (decide _) as [->|]; [|done].
  by rewrite (weight_at_Some _ _ _ job) by (apply job_at_Some; eauto).
Qed.

Lemma update_sheds names runs k run j job job' :
  runs !! k = Some run → wr_jobs run !! j = Some job → (k, j) ∈ names → (weight job' < weight job)%nat →
  sheds names runs (update_job k j run job' runs).
Proof.
  intros Hk Hj Hin Hw. split; [eapply lighter_update; [done..|lia]|]. exists (k, j). split; [done|].
  rewrite (weight_at_update _ _ _ _ _ _ _ Hk Hj), decide_True by done.
  by rewrite (weight_at_Some _ _ _ job) by (apply job_at_Some; eauto).
Qed.

(** Marking the jobs that pass a test. *)
Lemma marked_lighter f test runs :
  runs_wf runs → (∀ run jobs j job, test jobs job = true → (weight (f run j job) < weight job)%nat) →
  let runs' := (values_mut (λ run, mark_jobs (f run) (job_ids (test (wr_jobs run)) run) run) runs).1 in
  lighter runs runs' ∧
  ∀ names k run j job, runs !! k = Some run → wr_jobs run !! j = Some job → (k, j) ∈ names →
    if test (wr_jobs run) job then sheds names runs runs' else job_at runs' k j = Some job.
Proof.
  intros Hwf Hf runs'. pose proof (marked_at f test runs Hwf) as Hat. fold runs' in Hat.
  assert (∀ k run j job, runs !! k = Some run → wr_jobs run !! j = Some job →
    job_at runs' k j = Some (if test (wr_jobs run) job then f run j job else job)) as Hfwd.
  { intros k run j job Hk Hj. apply Hat. by exists run, job. }
  assert (lighter runs runs') as Hl.
  { intros [k j]. unfold weight_at. cbn. destruct (job_at runs' k j) as [job'|] eqn:Hj'; [|cbn; lia].
    apply Hat in Hj' as (run & job & Hk & Hj & ->).
    assert (job_at runs k j = Some job) as -> by (apply job_at_Some; eauto). cbn.
    destruct (test (wr_jobs run) job) eqn:Et; [|done]. by apply Nat.lt_le_incl, (Hf _ (wr_jobs run)). }
  split; [done|]. intros names k run j job Hk Hj Hin. pose proof (Hfwd _ _ _ _ Hk Hj) as Hj'.
  destruct (test (wr_jobs run) job) eqn:Et; [|done]. split; [done|]. exists (k, j). split; [done|].
  rewrite (weight_at_Some _ _ _ _ Hj'), (weight_at_Some runs _ _ job) by (apply job_at_Some; eauto).
  by apply (Hf _ (wr_jobs run)).
Qed.

Lemma queue_weight (jobs : gmap string JobInstance) job :
  ready jobs job = true → (weight (JobInstance.set_state JobState.Queued job) < weight job)%nat.
Proof.
  intros [Hs _]%ready_spec. unfold weight. rewrite Hs. cbn.
  pose proof (open_nodes_bound (JobInstance.set_state JobState.Queued job)). lia.
Qed.

Lemma skip_weight now (jobs : gmap string JobInstance) job :
  doomed jobs job = true → (weight (skip_job now job) < weight job)%nat.
Proof. intros [Hs _]%doomed_spec. unfold weight. cbn. destruct Hs as [-> | ->]; lia. Qed.

(** An answer that says nothing of the job. *)
Definition unreachable {A} (r : result A ExecutorError) : bool :=
  match r with Err (Unreachable _) => true | _ => false end.

Lemma launch_weight now o e pools job job' :
  ji_state job = JobState.Queued → launch_applied now o e pools job job' →
  (weight job' ≤ weight job)%nat ∧
  (unreachable (lo_result o) = false → JobInstance.rejected_by (ex_node e) job = false →
   (ex_node e < length env_nodes)%nat → (weight job' < weight job)%nat).
Proof.
  intros Hs. unfold launch_applied, weight. rewrite Hs.
  destruct (lo_result o) as [u|[?|?|?|?|?|?|?|reason]]; cbn [unreachable];
    try (intros ->; cbn; split; [|intros _ _ _]; lia).
  - intros [log ->]. cbn. split; [|intros _ _ _]; lia.
  - intros ->. rewrite Hs. by split.
  - intros (why & [[_ ->]|[_ ->]]); cbn; [|split; [|intros _ _ _]; lia]. rewrite Hs.
    destruct (open_nodes_refused job (JobInstance.set_reason (Some ("turned down by " +:+ why))
      (JobInstance.set_rejected (ji_rejected job ++ [(ex_node e, reason)]) job)) (ex_node e) reason eq_refl)
      as [Hle Hlt].
    split; [lia|]. intros _ Hrej Hn. specialize (Hlt Hrej Hn). lia.
Qed.

Lemma poll_weight now entry rq rq' job job' :
  ji_state job = JobState.Running → poll_applied now entry rq rq' job job' →
  (weight job' ≤ weight job)%nat ∧ (still_running entry = false → (weight job' < weight job)%nat).
Proof.
  intros Hs. unfold poll_applied, still_running, weight. rewrite Hs.
  destruct (pe_result entry) as [[|code]|error].
  - intros [-> _]. by rewrite Hs.
  - intros [-> _]. unfold ended_job, ended_state. cbn. destruct (pe_cancelling entry), (code =? 0)%Z; cbn; lia.
  - destruct error; try (intros [_ ->]; cbn; split; [|intros _]; lia). intros [-> _]. by rewrite Hs.
Qed.

Lemma outcome_lighter clock o ds ds' :
  outcome_applied clock o ds ds' → lighter (ds_runs ds) (ds_runs ds').
Proof.
  intros (_ & run & job & job' & e & Hk & Hj & Hs & _ & Ha & ->). eapply lighter_update; [done..|].
  by eapply launch_weight.
Qed.

Lemma entry_lighter clock entry ds ds' :
  entry_applied clock entry ds ds' → lighter (ds_runs ds) (ds_runs ds').
Proof.
  intros (_ & run & job & job' & Hk & Hj & Hs & Ha & ->). eapply lighter_update; [done..|].
  by eapply poll_weight.
Qed.

Lemma chain_lighter {A} (R : A → DaemonState → DaemonState → Prop) l ds ds' :
  (∀ x ds ds', R x ds ds' → lighter (ds_runs ds) (ds_runs ds')) → chain R l ds ds' → lighter (ds_runs ds) (ds_runs ds').
Proof.
  intros HR Hc. eapply (chain_inv R (λ d, lighter (ds_runs ds) (ds_runs d))); [|exact Hc|done].
  intros x d d' _ Hx Hl. etrans; [exact Hl|by eapply HR].
Qed.

Lemma chain_split {A} (R : A → DaemonState → DaemonState → Prop) l1 x l2 ds ds' :
  chain R (l1 ++ x :: l2) ds ds' → ∃ a b, chain R l1 ds a ∧ R x a b ∧ chain R l2 b ds'.
Proof.
  revert ds. induction l1 as [|y l1 IH]; intros ds; cbn; [by intros (b & Hx & Hl); exists ds, b|].
  intros (ds1 & Hy & (a & b & H1 & Hx & H2)%IH). exists a, b. split; [by exists ds1|done].
Qed.

Lemma lighter_sheds names r1 r2 r3 r4 :
  lighter r1 r2 → sheds names r2 r3 → lighter r3 r4 → sheds names r1 r4.
Proof.
  intros H12 (H23 & n & Hn & Hlt) H34. split; [by rewrite H12, H23|]. exists n. split; [done|].
  specialize (H12 n). specialize (H34 n). lia.
Qed.

Lemma outcomes_keep clock os ds ds' k j :
  chain (outcome_applied clock) os ds ds' → (k, j) ∉ (lo_name <$> os) →
  job_at (ds_runs ds') k j = job_at (ds_runs ds) k j.
Proof.
  revert ds. induction os as [|o os IH]; intros ds; [by intros ->|].
  intros (ds1 & (_ & run & job & job' & e & Hk & Hj & _ & _ & _ & E) & Hl). rewrite fmap_cons.
  intros [Hne Hni]%not_elem_of_cons. rewrite (IH ds1 Hl Hni), E, (job_at_update _ _ _ _ _ _ _ Hk).
  by rewrite decide_False.
Qed.

(** A launch that can still be turned down for the first time. *)
Definition first_try (runs : gmap string WorkflowRun) (name : job_name) (node : nat) : Prop :=
  ∃ job, job_at runs name.1 name.2 = Some job ∧ JobInstance.rejected_by node job = false.

Lemma launch_step_sheds c (s s' : @Sys W) outcomes :
  sys_inv s → sy_pc s = P_Launch [] outcomes → sched_step c s = Ret s' →
  lighter (ds_runs (sy_ds s)) (ds_runs (sy_ds s')) ∧
  (∀ names o e, o ∈ outcomes → lo_executions o = [e] → unreachable (lo_result o) = false →
     first_try (ds_runs (sy_ds s)) (lo_name o) (ex_node e) → lo_name o ∈ names →
     sheds names (ds_runs (sy_ds s)) (ds_runs (sy_ds s'))) ∧
  (∀ k j job, job_at (ds_runs (sy_ds s)) k j = Some job → ji_state job = JobState.Running →
     job_at (ds_runs (sy_ds s')) k j = Some job).
Proof.
  intros Hinv Hpc E. pose proof (launch_chain _ _ _ _ Hinv Hpc E) as Hc.
  pose proof (si_pc _ Hinv) as Hp. rewrite Hpc in Hp. destruct Hp as ((Hnd & Hnames) & _ & _).
  cbn [fmap list_fmap app] in Hnd, Hnames. split_and!.
  - eapply chain_lighter, Hc. apply outcome_lighter.
  - intros names o e Ho He Hres (job & Hj & Hrej) Hin.
    assert (ex_node e < length env_nodes)%nat as Hn.
    { apply (held_node s _ (ex_allocation e) Hinv). rewrite Hpc. cbn. apply list_elem_of_bind. exists o.
      split; [|done]. unfold lo_held. rewrite He. by left. }
    apply list_elem_of_split in Ho as (l1 & l2 & ->). apply chain_split in Hc as (a & b & H1 & Ho & H2).
    rewrite fmap_app, fmap_cons in Hnd.
    assert (lo_name o ∉ lo_name <$> l1) as Hni by (apply NoDup_app in Hnd as (_ & Hd & _); intros Hx; apply (Hd _ Hx); by left).
    pose proof (outcomes_keep _ _ _ _ _ _ H1 Hni) as Hkeep.
    apply (lighter_sheds _ _ (ds_runs a) (ds_runs b)); [by eapply chain_lighter, H1; apply outcome_lighter| |by eapply chain_lighter, H2; apply outcome_lighter].
    destruct Ho as (_ & run & job0 & job' & e' & Hk & Hj0 & Hs & He' & Ha & ->).
    rewrite He in He'. injection He' as <-.
    assert (job_at (ds_runs a) (lo_run_id o) (lo_job_id o) = Some job0) as Hat by (apply job_at_Some; eauto).
    rewrite Hkeep in Hat. cbn in Hj. rewrite Hj in Hat. injection Hat as <-.
    eapply update_sheds; [done..|]. by eapply launch_weight.
  - intros k j job Hj Hs. rewrite (outcomes_keep _ _ _ _ _ _ Hc); [done|].
    intros (job' & Hj' & Hs')%Hnames. rewrite Hj in Hj'. injection Hj' as <-. by rewrite Hs in Hs'.
Qed.

Lemma poll_step_sheds c (s s' : @Sys W) entries :
  sys_inv s → sy_pc s = P_Poll [] entries → sched_step c s = Ret s' →
  lighter (ds_runs (sy_ds s)) (ds_runs (sy_ds s')) ∧
  (∀ names entry, entry ∈ entries → still_running entry = false → pe_name entry ∈ names →
     sheds names (ds_runs (sy_ds s)) (ds_runs (sy_ds s'))).
Proof.
  intros Hinv Hpc E. pose proof (poll_chain _ _ _ _ Hinv Hpc E) as Hc. split.
  - eapply chain_lighter, Hc. apply entry_lighter.
  - intros names entry (l1 & l2 & ->)%list_elem_of_split Hres Hin. apply chain_split in Hc as (a & b & H1 & He & H2).
    apply (lighter_sheds _ _ (ds_runs a) (ds_runs b)); [by eapply chain_lighter, H1; apply entry_lighter| |by eapply chain_lighter, H2; apply entry_lighter].
    destruct He as (_ & run & job & job' & Hk & Hj & Hs & Ha & ->).
    eapply update_sheds; [done..|]. by eapply poll_weight.
Qed.

(** No stretch adds to what is left. *)
Lemma sched_lighter c (s s' : @Sys W) :
  sys_inv s → sched_step c s = Ret s' → lighter (ds_runs (sy_ds s)) (ds_runs (sy_ds s')).
Proof.
  intros Hinv E.
  assert (∀ r, (∃ s', r = Ret s' ∧ sys_inv s' ∧ ds_runs (sy_ds s') = ds_runs (sy_ds s)) →
    r = Ret s' → lighter (ds_runs (sy_ds s)) (ds_runs (sy_ds s'))) as Hsame.
  { intros r (s2 & E2 & _ & Hr) E'. rewrite E2 in E'. injection E' as ->. rewrite Hr. reflexivity. }
  destruct (sy_pc s) as [todo polled|readings|l| | | |[|t tasks] outcomes| |[|j jobs] entries|phase tw] eqn:Hpc;
    try (eapply Hsame; [|exact E];
         first [by eapply finish_step|by apply qualify_step; eauto|by apply reserve_step|by apply collect_step
               |by eapply flush_step]).
  - unfold sched_step in E. rewrite Hpc, queue_ready_mark in E.
    pose proof (marked_lighter (λ _ _, JobInstance.set_state JobState.Queued) ready _ (si_runs _ Hinv)) as Hm.
    destruct (values_mut _ _) as [runs tw]. injection E as <-. apply Hm. intros _ jobs _ job. by apply queue_weight.
  - unfold sched_step in E. rewrite Hpc, skip_doomed_mark in E.
    pose proof (marked_lighter (λ run j, skip_job (ch_utc c (wr_run_id run) j)) doomed _ (si_runs _ Hinv)) as Hm.
    destruct (values_mut _ _) as [runs tw]. injection E as <-. apply Hm. intros run jobs j job. by apply skip_weight.
  - apply (launch_step_sheds _ _ _ _ Hinv Hpc E).
  - unfold sched_step in E. rewrite Hpc in E. apply bind_Ret_inv in E as (r & _ & [= <-]). reflexivity.
  - apply (poll_step_sheds _ _ _ _ Hinv Hpc E).
  - unfold sched_step in E. rewrite Hpc in E. apply bind_Ret_inv in E as (r & _ & [= <-]). reflexivity.
Qed.
End weigh.
