(* ===== verification/Completion.v ===== *)
(** * Every run comes to its end

    The liveness of the whole daemon.  Once submissions stop, as long as again
    and again the scheduler places jobs while the nodes are up and no card is
    set aside, and each process and each link answers after finitely many
    questions, every job of every run ends: the scheduler can't starve a job,
    however the cancels and the outside world interleave with it.  The measure
    is that of [Weigh.v]; what a tick still hopes, and after the placements
    promises, to take from it travels with the scheduler's program counter. *)

From Stdlib Require Import Relation_Operators Wellfounded.Lexicographic_Product.
From S2P Require Import Prelude Spec Pool Placement Handle Model Dag Text Health Protocol Executor Shell Scheduler Qualify Tasks Server System Guarantees Fits Weigh.

(** ** An idle cluster takes a job *)

(** No card is set aside. *)
Definition no_card_blocked (pools : list ResourcePool) : Prop := Forall (λ p, Forall (λ b, b = false) (rp_blocked p)) pools.

Lemma idle_pool p :
  accounts p [] → Forall (λ b, b = false) (rp_blocked p) → p = ResourcePool.new (rp_total p).
Proof.
  intros Hacc Hb. pose proof (acc_wf _ _ Hacc) as Hwf.
  eapply (accounts_determine _ _ []); [done|by apply accounts_new, Hwf|done|]. cbn.
  rewrite <-(wf_blocked_length _ Hwf). clear -Hb. induction Hb as [|b l -> _ IH]; [done|]. cbn. by f_equal.
Qed.

Lemma idle_admits p o :
  accounts p [] → Forall (λ b, b = false) (rp_blocked p) → ResourcePool.could_fit o p = true → admits p o.
Proof.
  intros Hacc Hb Hfit. pose proof (acc_wf _ _ Hacc) as Hwf.
  apply could_fit_iff_idle_admission in Hfit as (a & p' & E); [|apply Hwf].
  rewrite <-(idle_pool p Hacc Hb) in E. by destruct (try_reserve_Ret _ _ _ _ Hwf E) as [[_ ?]|(? & _)].
Qed.

Lemma place_elsewhere pools online job :
  cluster_accounts pools [] → no_card_blocked pools → length pools = length online →
  Forall (λ up, up = true) online → has_elsewhere pools job →
  ∃ placed pools', place pools (imap (λ node (up : bool), up && negb (JobInstance.rejected_by node job)) online)
    [js_resources (ji_spec job)] = Ret (Some placed, pools').
Proof.
  intros Hacc Hb Hlen Hon (node & p & Hp & Hrej & o & Ho & Hfit). unfold place. cbn [place_members].
  set (usable := imap _ online).
  assert (length pools ≤ length usable)%nat as Hle by (unfold usable; rewrite length_imap; lia).
  destruct (find_option_spec (gpu_options (js_resources (ji_spec job))) usable pools (cluster_wf _ _ Hacc) Hle) as
    [(l1 & o' & l2 & i & p0 & p' & _ & _ & _ & _ & _ & _ & _ & ->)|[Hall _]].
  - cbn. by eexists _, _.
  - exfalso. rewrite Forall_forall in Hall. apply (Hall o Ho node p Hp).
    + cbn. unfold usable. rewrite list_lookup_imap.
      destruct (lookup_lt_is_Some_2 online node) as [up Hup]; [rewrite <-Hlen; by eapply lookup_lt_Some|].
      rewrite Hup. cbn. by rewrite (Forall_lookup_1 _ _ _ _ Hon Hup), Hrej.
    + apply idle_admits; [exact (ca_pool _ _ Hacc node p Hp)|by apply (Forall_lookup_1 _ _ _ _ Hb Hp)|done].
Qed.

Section reserving.
Context `{HashOrder}.

Lemma reserve_job_keeps online run_id acc job acc' :
  reserve_job online run_id acc job = Ret acc' → acc.2 ≠ [] → acc'.2 ≠ [].
Proof.
  destruct acc as [pools tasks]. unfold reserve_job. cbn.
  destruct (is_queued (ji_state job)); [|by intros [= <-]].
  intros ([[placed|] q] & _ & [= <-])%bind_Ret_inv Hne; [|exact Hne]. cbn in *. by destruct tasks.
Qed.

(** On an idle cluster, a queued job that has somewhere to run is given a
    place, unless one before it was. *)
Lemma reserve_some runs online pools k run j job pools' tasks :
  cluster_accounts pools [] → no_card_blocked pools → length pools = length online →
  Forall (λ up, up = true) online → runs !! k = Some run → wr_jobs run !! j = Some job →
  ji_state job = JobState.Queued → has_elsewhere pools job →
  reserve_queued runs online pools = Ret (pools', tasks) → tasks ≠ [].
Proof.
  intros Hacc Hb Hlen Hon Hk Hj Hs Hel. rewrite reserve_queued_flat.
  assert ((run, job) ∈ all_jobs runs) as Hin by (apply elem_of_all_jobs; eauto).
  revert Hin. generalize (all_jobs runs) as l. induction l as [|rj l IH]; [by intros ?%elem_of_nil|].
  intros Hin (acc & E1 & E2)%bind_Ret_inv.
  assert (acc.2 ≠ [] → tasks ≠ []) as Hgrow.
  { intros Hne. assert ((pools', tasks).2 ≠ []) as Hx; [|exact Hx].
    eapply (foldM_inv_ret (λ acc, acc.2 ≠ [])); [exact E2|done|]. intros b b' x _. apply reserve_job_keeps. }
  unfold reserve_job in E1. apply elem_of_cons in Hin as [<-|Hin].
  - cbn [fst snd] in E1. rewrite Hs in E1. cbn [is_queued] in E1.
    destruct (place_elsewhere pools online job) as (placed & q & Ep); [done..|].
    rewrite Ep in E1. cbn in E1. injection E1 as <-. by apply Hgrow.
  - destruct (is_queued (ji_state rj.2)); [|injection E1 as <-; by apply IH].
    destruct (place_inv pools (imap (λ node (up : bool), up && negb (JobInstance.rejected_by node rj.2)) online)
      [js_resources (ji_spec rj.2)] _ Hacc) as (r & q & Ep & _ & Hr); [rewrite length_imap; lia|].
    rewrite Ep in E1. cbn in E1. destruct r as [placed|]; injection E1 as <-; [by apply Hgrow|].
    subst q. by apply IH.
Qed.
End reserving.

Section completion.
Context `{HashOrder}.
Context {W : Type} `{DaemonEnv W}.

(** ** An outside world that comes to its answers *)

(** [rest] bounds how often the world may still put the daemon off: with a
    node that can't be reached, or a process that has not ended yet.  Nothing
    the daemon does gives it more to put off. *)
Record patient (rest : W → nat) : Prop := {
  pt_launch : ∀ node run_id job alloc w, node ∈ env_nodes →
    let r := launch (nd_executor node) run_id job alloc w in
    (rest r.2 ≤ rest w)%nat ∧ (unreachable r.1 = true → (rest r.2 < rest w)%nat);
  pt_poll : ∀ node handle w, node ∈ env_nodes →
    let r := poll (nd_executor node) handle w in
    (rest r.2 ≤ rest w)%nat ∧ (unreachable r.1 = true ∨ r.1 = Ok PollRunning → (rest r.2 < rest w)%nat);
  pt_tail : ∀ node run_id job_id max w, node ∈ env_nodes →
    (rest (tail (nd_executor node) run_id job_id max w).2 ≤ rest w)%nat;
  pt_cancel : ∀ node handle w, node ∈ env_nodes → (rest (cancel (nd_executor node) handle w).2 ≤ rest w)%nat;
  pt_request : ∀ node request w, node ∈ env_nodes → (rest (nd_request node request w).2 ≤ rest w)%nat;
  pt_upsert : ∀ run_id job node w, (rest (upsert_job run_id job node w) ≤ rest w)%nat;
  pt_send : ∀ event w, (rest (send event w) ≤ rest w)%nat;
}.

Variable rest : W → nat.
Hypothesis Hpatient : patient rest.

Lemma node_at_in n node : node_at n = Ret node → node ∈ env_nodes.
Proof. intros Hn%index_Ret. by eapply list_elem_of_lookup_2. Qed.

Lemma launch_task_rest t n a w o w' :
  at_placement t = [(n, a)] → launch_task t w = Ret (o, w') →
  (rest w' ≤ rest w)%nat ∧ (unreachable (lo_result o) = true → (rest w' < rest w)%nat).
Proof.
  intros Hp. unfold launch_task. rewrite Hp. cbn.
  destruct (node_at n) as [node|] eqn:Hn; [|done]. cbn. apply node_at_in in Hn.
  pose proof (pt_launch _ Hpatient node (at_run_id t) (at_job_instance t) a w Hn) as Hl. cbn in Hl.
  destruct (launch _ _ _ _ _) as [[handle|error] w1]; cbn in *; intros [= <- <-]; cbn; [|done].
  split; [apply Hl|done].
Qed.

Lemma poll_job_rest j w entry w' :
  poll_job j w = Ret (entry, w') →
  (rest w' ≤ rest w)%nat ∧ (still_running entry = true → (rest w' < rest w)%nat).
Proof.
  unfold poll_job. destruct (node_at _) as [node|] eqn:Hn; [|done]. cbn. apply node_at_in in Hn.
  pose proof (pt_poll _ Hpatient node (rj_handle j) w Hn) as Hl. cbn in Hl.
  destruct (poll _ _ _) as [result w1]. cbn in Hl. destruct Hl as [Hle Hlt].
  destruct result as [[|code]|error].
  - intros [= <- <-]. split; [done|]. intros _. apply Hlt. by right.
  - destruct (_ && _).
    + pose proof (pt_tail _ Hpatient node (rj_run_id j) (rj_job_id j) REASON_TAIL_BYTES w1 Hn) as Ht.
      destruct (tail _ _ _ _ _) as [text w2]. intros [= <- <-]. cbn in Ht. split; [lia|done].
    + by intros [= <- <-].
  - intros [= <- <-]. split; [done|]. intros Hr. apply Hlt. left. by destruct error.
Qed.

Lemma finish_one_rest now q w r :
  finish_one now q w = Ret r → (rest r.2 ≤ rest w)%nat.
Proof.
  unfold finish_one. destruct (node_at _) as [node|] eqn:Hn; [|done]. cbn. apply node_at_in in Hn.
  destruct (pt_poll _ Hpatient node (qf_handle q) w Hn) as [Hle _].
  destruct (poll _ _ _) as [result w1]. cbn in Hle.
  destruct result as [[|code]|error]; [|by intros [= <-]|destruct error; by intros [= <-]].
  destruct (_ <? _); [|by intros [= <-]].
  pose proof (pt_cancel _ Hpatient node (qf_handle q) w1 Hn) as Hc.
  destruct (cancel _ _ _) as [? w2]. cbn in Hc.
  match goal with |- context [nd_request node ?r w2] =>
    pose proof (pt_request _ Hpatient node r w2 Hn) as Hq; destruct (nd_request node r w2) as [? w3] end.
  intros [= <-]. cbn in *. lia.
Qed.

Lemma qualify_one_rest now started uuid tq pools checks w r :
  qualify_one now started uuid tq pools checks w = Ret r → (rest r.2 ≤ rest w)%nat.
Proof.
  unfold qualify_one, start_qualification. destruct (node_at _) as [node|] eqn:Hn; [|done]. cbn.
  apply node_at_in in Hn.
  match goal with |- context [launch (nd_executor node) ?r ?j ?a w] =>
    destruct (pt_launch _ Hpatient node r j a w Hn) as [Hl _]; destruct (launch (nd_executor node) r j a w) as [[h|e] w1] end;
    cbn in *; [by intros [= <-]|]. by intros (pools' & _ & [= <-])%bind_Ret_inv.
Qed.

Lemma flush_one_rest raw runs w rj w' : flush_one raw runs w rj = Ret w' → (rest w' ≤ rest w)%nat.
Proof.
  unfold flush_one. destruct (runs !! rj.1) as [run|]; [|by intros [= <-]].
  destruct (wr_jobs run !! rj.2) as [job|]; [|by intros [= <-]].
  intros (node & _ & [= <-])%bind_Ret_inv. etrans; [apply (pt_send _ Hpatient)|apply (pt_upsert _ Hpatient)].
Qed.

(** No stretch makes the world less patient. *)
Lemma sched_rest c s s' :
  sys_inv s → sched_step c s = Ret s' → (rest (sy_world s') ≤ rest (sy_world s))%nat.
Proof.
  intros Hinv. unfold sched_step.
  destruct (sy_pc s) as [[|q todo] polled|readings|[|tq l]| | | |[|t tasks] outcomes| |[|j jobs] entries|phase [|rj tw]] eqn:Hpc.
  - by intros (pools & _ & [= <-])%bind_Ret_inv.
  - intros (r & E & [= <-])%bind_Ret_inv. by eapply finish_one_rest.
  - destruct (env_nodes !! _); [by intros [= <-]|]. by intros ([[ds' checks'] l] & _ & [= <-])%bind_Ret_inv.
  - by intros [= <-].
  - intros ([[pools checks'] w'] & E & [= <-])%bind_Ret_inv. by apply qualify_one_rest in E.
  - destruct (queue_ready _). by intros [= <-].
  - destruct (skip_doomed _ _). by intros [= <-].
  - by intros ([pools tasks] & _ & [= <-])%bind_Ret_inv.
  - by intros (r & _ & [= <-])%bind_Ret_inv.
  - intros ([o w'] & E & [= <-])%bind_Ret_inv. pose proof (si_pc _ Hinv) as Hp. rewrite Hpc in Hp.
    destruct Hp as (_ & [(n & a & Hpl) _]%Forall_cons & _). by eapply launch_task_rest.
  - by intros [= <-].
  - by intros (r & _ & [= <-])%bind_Ret_inv.
  - intros ([entry w'] & E & [= <-])%bind_Ret_inv. by eapply poll_job_rest.
  - destruct phase as [|[|[|phase]]]; [by intros [= <-]..|]. destruct (ch_due c); by intros [= <-].
  - intros (w' & E & [= <-])%bind_Ret_inv. by eapply flush_one_rest.
Qed.

(** ** When nothing is in the way *)

(** No card set aside or under test, every node up. *)
Record clear (s : @Sys W) : Prop := {
  cl_cards : no_card_blocked (ds_pools (sy_ds s));
  cl_tests : gc_qualifying (sy_checks s) = [];
  cl_nodes : Forall (λ up, up = true) (online_nodes (sy_world s));
}.

(** A step of the daemon that takes on no new work. *)
Inductive quiet_step : Sys → Sys → Prop :=
  | quiet_sched c s s' : sched_step c s = Ret s' → quiet_step s s'
  | quiet_cancel run_id run s :
      ds_runs (sy_ds s) !! run_id = Some run →
      quiet_step s (mkSys (set_runs (<[run_id := (mark_cancelling run).1]> (ds_runs (sy_ds s))) (sy_ds s))
                     (sy_checks s) (sy_world s) (sy_pc s))
  | quiet_world w' s :
      (rest w' ≤ rest (sy_world s))%nat → quiet_step s (mkSys (sy_ds s) (sy_checks s) w' (sy_pc s)).

Lemma quiet_is_step s s' : quiet_step s s' → step s s'.
Proof. intros [c s1 s2 E|k run s1 Hk|w' s1 _]; [by eapply step_sched|by apply step_cancel|apply step_world]. Qed.

Lemma quiet_advances s s' : sys_inv s → quiet_step s s' → advances (ds_runs (sy_ds s)) (ds_runs (sy_ds s')).
Proof.
  intros Hinv Hq. destruct Hq as [c s1 s2 E|k run s1 Hk|w' s1 _].
  - destruct (sched_inv c s1 Hinv) as (s3 & E3 & _ & Hadv). rewrite E in E3. by injection E3 as <-.
  - by apply cancel_inv.
  - apply advances_refl.
Qed.

(** What a cancel leaves of every job. *)
Definition alike (job job' : JobInstance) : Prop :=
  ji_state job' = ji_state job ∧ ji_spec job' = ji_spec job ∧ ji_rejected job' = ji_rejected job.

Definition all_alike (runs runs' : gmap string WorkflowRun) : Prop :=
  ∀ k j, option_Forall2 alike (job_at runs k j) (job_at runs' k j).

Lemma cancel_alike runs k run :
  runs !! k = Some run → all_alike runs (<[k := (mark_cancelling run).1]> runs).
Proof.
  intros Hk k' j. rewrite (job_at_cancel _ _ _ _ _ Hk).
  destruct (job_at runs k' j) as [job|]; destruct (decide _); constructor; [|by split_and!].
  destruct (cancel_job_moves job) as (_ & ? & _ & ? & ? & _). by split_and!.
Qed.

Lemma all_alike_refl runs : all_alike runs runs.
Proof. intros k j. destruct (job_at runs k j); constructor. by split_and!. Qed.

Lemma alike_at runs runs' k j job :
  all_alike runs runs' → job_at runs k j = Some job → ∃ job', job_at runs' k j = Some job' ∧ alike job job'.
Proof. intros Ha Hj. specialize (Ha k j). rewrite Hj in Ha. inversion Ha; subst. eauto. Qed.

Lemma alike_lighter runs runs' : all_alike runs runs' → lighter runs runs'.
Proof.
  intros Ha [k j]. specialize (Ha k j). unfold weight_at. cbn.
  destruct Ha as [job job' (Es & _ & Er)|]; [|done]. cbn. unfold weight, open_nodes, JobInstance.rejected_by.
  by rewrite Es, Er.
Qed.

(** ** What is left, of the runs and of the world's patience *)

Variable names : list job_name.

(** [names] are all the jobs there are. *)
Definition covers (runs : gmap string WorkflowRun) : Prop := ∀ k j, is_Some (job_at runs k j) → (k, j) ∈ names.

Definition energy (s : @Sys W) : nat := load names (ds_runs (sy_ds s)) + rest (sy_world s).

Lemma energy_quiet s s' : sys_inv s → quiet_step s s' → (energy s' ≤ energy s)%nat.
Proof.
  unfold energy. intros Hinv Hq. destruct Hq as [c s1 s2 E|k run s1 Hk|w' s1 Hw].
  - pose proof (load_lighter names _ _ (sched_lighter _ _ _ Hinv E)). pose proof (sched_rest _ _ _ Hinv E). lia.
  - pose proof (load_lighter names _ _ (alike_lighter _ _ (cancel_alike _ _ _ Hk))). cbn in *. lia.
  - cbn. lia.
Qed.

(** ** What the tick in flight will still take *)

Definition some_in (runs : gmap string WorkflowRun) (st : JobState.t) : Prop :=
  ∃ k j job, job_at runs k j = Some job ∧ ji_state job = st.

Definition some_doomed (runs : gmap string WorkflowRun) : Prop :=
  ∃ k j job d jd, job_at runs k j = Some job ∧ is_waiting (ji_state job) = true ∧
    d ∈ js_depends_on (ji_spec job) ∧ job_at runs k d = Some jd ∧ dead (ji_state jd).

(** Up to the placements: whether a job runs, can be placed, or is to be skipped. *)
Definition hopes (runs : gmap string WorkflowRun) (p : pc) : Prop :=
  match p with
  | P_Flush 0 _ | P_Skip => some_in runs JobState.Running ∨ some_in runs JobState.Queued ∨ some_doomed runs
  | P_Flush 1 _ | P_Reserve => some_in runs JobState.Running ∨ some_in runs JobState.Queued
  | _ => True
  end.

(** From the placements on: what is out that will come back with an answer. *)
Definition awaits (runs : gmap string WorkflowRun) (p : pc) : Prop :=
  match p with
  | P_Launch tasks outcomes =>
      some_in runs JobState.Running ∨
      (∃ t n a, t ∈ tasks ∧ at_placement t = [(n, a)] ∧ first_try runs (task_name t) n) ∨
      (∃ o e, o ∈ outcomes ∧ lo_executions o = [e] ∧ unreachable (lo_result o) = false ∧
         first_try runs (lo_name o) (ex_node e))
  | P_Flush 2 _ | P_Collect => some_in runs JobState.Running
  | P_Poll jobs entries => jobs ≠ [] ∨ ∃ entry, entry ∈ entries ∧ still_running entry = false
  | _ => False
  end.

(** Less than [most] is left, or may be when the tick is over. *)
Definition hopeful (most : nat) (s : @Sys W) : Prop :=
  (energy s < most)%nat ∨ (energy s ≤ most)%nat ∧ hopes (ds_runs (sy_ds s)) (sy_pc s).

(** Less than [most] is left, or will be when the tick is over. *)
Definition promise (most : nat) (s : @Sys W) : Prop :=
  (energy s < most)%nat ∨ (energy s ≤ most)%nat ∧ awaits (ds_runs (sy_ds s)) (sy_pc s).

Lemma some_in_alike runs runs' st : all_alike runs runs' → some_in runs st → some_in runs' st.
Proof.
  intros Ha (k & j & job & Hj & Hs). destruct (alike_at _ _ _ _ _ Ha Hj) as (job' & Hj' & Es & _).
  exists k, j, job'. by rewrite Es.
Qed.

Lemma first_try_alike runs runs' name n : all_alike runs runs' → first_try runs name n → first_try runs' name n.
Proof.
  intros Ha (job & Hj & Hr). destruct (alike_at _ _ _ _ _ Ha Hj) as (job' & Hj' & _ & _ & Er).
  exists job'. split; [done|]. unfold JobInstance.rejected_by. by rewrite Er.
Qed.

Lemma some_doomed_alike runs runs' : all_alike runs runs' → some_doomed runs → some_doomed runs'.
Proof.
  intros Ha (k & j & job & d & jd & Hj & Hw & Hd & Hjd & Hdead).
  destruct (alike_at _ _ _ _ _ Ha Hj) as (job' & Hj' & Es & Esp & _).
  destruct (alike_at _ _ _ _ _ Ha Hjd) as (jd' & Hjd' & Esd & _).
  exists k, j, job', d, jd'. by rewrite Es, Esp, Esd.
Qed.

Lemma hopes_alike runs runs' p : all_alike runs runs' → hopes runs p → hopes runs' p.
Proof.
  intros Ha. pose proof (some_in_alike _ _ JobState.Running Ha). pose proof (some_in_alike _ _ JobState.Queued Ha).
  pose proof (some_doomed_alike _ _ Ha). destruct p as [| | | | | | | | |[|[|phase]]]; cbn; tauto.
Qed.

Lemma awaits_alike runs runs' p : all_alike runs runs' → awaits runs p → awaits runs' p.
Proof.
  intros Ha. pose proof (some_in_alike _ _ JobState.Running Ha).
  destruct p as [| | | | | |tasks outcomes| | |[|[|[|phase]]]]; cbn; try done; try tauto.
  intros [?|[(t & n & a & ? & ? & Hf)|(o & e & ? & ? & ? & Hf)]]; [by left; auto|right; left|right; right].
  - exists t, n, a. by eauto using first_try_alike.
  - exists o, e. by eauto using first_try_alike.
Qed.

Lemma hopeful_idle most s s' :
  sys_inv s → quiet_step s s' → sy_pc s' = sy_pc s → all_alike (ds_runs (sy_ds s)) (ds_runs (sy_ds s')) →
  hopeful most s → hopeful most s'.
Proof.
  intros Hinv Hq Hpc Ha. pose proof (energy_quiet _ _ Hinv Hq). intros [?|[? Hw]]; [left; lia|right].
  split; [lia|]. rewrite Hpc. by eapply hopes_alike.
Qed.

Lemma promise_idle most s s' :
  sys_inv s → quiet_step s s' → sy_pc s' = sy_pc s → all_alike (ds_runs (sy_ds s)) (ds_runs (sy_ds s')) →
  promise most s → promise most s'.
Proof.
  intros Hinv Hq Hpc Ha. pose proof (energy_quiet _ _ Hinv Hq). intros [?|[? Hw]]; [left; lia|right].
  split; [lia|]. rewrite Hpc. by eapply awaits_alike.
Qed.

(** ** Each stretch keeps the promise *)

Lemma energy_sheds (s s' : @Sys W) :
  sheds names (ds_runs (sy_ds s)) (ds_runs (sy_ds s')) → (rest (sy_world s') ≤ rest (sy_world s))%nat →
  (energy s' < energy s)%nat.
Proof. intros Hs%load_sheds Hr. unfold energy. lia. Qed.

Lemma energy_rest (s s' : @Sys W) :
  ds_runs (sy_ds s') = ds_runs (sy_ds s) → (rest (sy_world s') < rest (sy_world s))%nat →
  (energy s' < energy s)%nat.
Proof. intros E Hr. unfold energy. rewrite E. lia. Qed.

(** Whether a stretch of marking takes something, by one job in particular. *)
Lemma marked_takes f test runs (s s' : @Sys W) k run j job :
  runs_wf runs → (∀ run jobs j job, test jobs job = true → (weight (f run j job) < weight job)%nat) →
  covers runs → ds_runs (sy_ds s) = runs → (rest (sy_world s') ≤ rest (sy_world s))%nat →
  ds_runs (sy_ds s') = (values_mut (λ run, mark_jobs (f run) (job_ids (test (wr_jobs run)) run) run) runs).1 →
  runs !! k = Some run → wr_jobs run !! j = Some job →
  (energy s' < energy s)%nat ∨ test (wr_jobs run) job = false ∧ job_at (ds_runs (sy_ds s')) k j = Some job.
Proof.
  intros Hwf Hf Hcov <- Hr E Hk Hj.
  assert ((k, j) ∈ names) as Hin by (apply Hcov; exists job; apply job_at_Some; eauto).
  destruct (marked_lighter f test _ Hwf Hf) as [_ Hm]. specialize (Hm names k run j job Hk Hj Hin).
  rewrite <-E in Hm. destruct (test (wr_jobs run) job); [left|by right]. by apply energy_sheds.
Qed.

Lemma some_doomed_iff runs :
  some_doomed runs ↔ ∃ k run j job, runs !! k = Some run ∧ wr_jobs run !! j = Some job ∧ doomed (wr_jobs run) job = true.
Proof.
  split.
  - intros (k & j & job & d & jd & (run & Hk & Hj)%job_at_Some & Hw & Hd & (run' & Hk' & Hjd)%job_at_Some & Hdead).
    rewrite Hk in Hk'. injection Hk' as <-. exists k, run, j, job. split; [done|]. split; [done|].
    apply doomed_spec. split; [by destruct (ji_state job); auto|]. exists d. split; [done|]. by exists jd.
  - intros (k & run & j & job & Hk & Hj & ([Hs|Hs] & d & Hd & jd & Hjd & Hdead)%doomed_spec);
      exists k, j, job, d, jd; rewrite Hs; (split_and!; [apply job_at_Some; eauto|done|done|apply job_at_Some; eauto|apply Hdead]).
Qed.

Lemma pending_hopes c (s s' : @Sys W) :
  daemon_inv s → covers (ds_runs (sy_ds s)) → sy_pc s = P_Pending → sched_step c s = Ret s' →
  load names (ds_runs (sy_ds s)) ≠ 0%nat → (energy s' < energy s)%nat ∨ hopes (ds_runs (sy_ds s')) (sy_pc s').
Proof.
  intros [Hinv Hspecs] Hcov Hpc E Hload. pose proof (sched_rest _ _ _ Hinv E) as Hr.
  unfold sched_step in E. rewrite Hpc, queue_ready_mark in E.
  pose proof (marked_takes (λ _ _, JobInstance.set_state JobState.Queued) ready (ds_runs (sy_ds s)) s s') as Hm.
  destruct (values_mut _ _) as [runs tw]. injection E as <-. cbn [sy_ds sy_pc ds_runs set_runs hopes] in *.
  assert (∀ k run j job, ds_runs (sy_ds s) !! k = Some run → wr_jobs run !! j = Some job →
    (energy (mkSys (set_runs runs (sy_ds s)) (sy_checks s) (sy_world s) (P_Flush 0 tw)) < energy s)%nat ∨
    ready (wr_jobs run) job = false ∧ job_at runs k j = Some job) as Htake.
  { intros k run j job Hk Hj. apply Hm; [by apply Hinv|intros _ jobs _ ?; by apply queue_weight|done..]. }
  clear Hm. apply load_positive in Hload as (k & j & job & _ & (run & Hk & Hj)%job_at_Some & Hnt).
  assert (∃ j' job', wr_jobs run !! j' = Some job' ∧ (ji_state job' = JobState.Queued ∨
    ji_state job' = JobState.Running ∨ ready (wr_jobs run) job' = true ∨ doomed (wr_jobs run) job' = true))
    as (j' & job' & Hj' & Hcase).
  { destruct (ji_state job) eqn:Es; try done; [|exists j, job; auto..].
    eapply pending_moves; [by apply (Hspecs k)|done..]. }
  destruct (Htake k run j' job' Hk Hj') as [?|[Hnr Hat]]; [by left|].
  destruct Hcase as [Hs|[Hs|[Hs|Hs]]].
  - right. right. left. by exists k, j', job'.
  - right. left. by exists k, j', job'.
  - by rewrite Hs in Hnr.
  - apply doomed_spec in Hs as (Hs & d & Hd & jd & Hjd & Hdead).
    destruct (Htake k run d jd Hk Hjd) as [?|[_ Hatd]]; [by left|]. right. right. right.
    exists k, j', job', d, jd. split_and!; [done|by destruct Hs as [-> | ->]|done|done|apply Hdead..].
Qed.

Lemma skip_hopes c (s s' : @Sys W) :
  sys_inv s → covers (ds_runs (sy_ds s)) → sy_pc s = P_Skip → sched_step c s = Ret s' →
  hopes (ds_runs (sy_ds s)) P_Skip → (energy s' < energy s)%nat ∨ hopes (ds_runs (sy_ds s')) (sy_pc s').
Proof.
  intros Hinv Hcov Hpc E Haw. pose proof (sched_rest _ _ _ Hinv E) as Hr.
  unfold sched_step in E. rewrite Hpc, skip_doomed_mark in E.
  pose proof (marked_takes (λ run j, skip_job (ch_utc c (wr_run_id run) j)) doomed (ds_runs (sy_ds s)) s s') as Hm.
  destruct (values_mut _ _) as [runs tw]. injection E as <-. cbn [sy_ds sy_pc ds_runs set_runs hopes] in *.
  assert (∀ k run j job, ds_runs (sy_ds s) !! k = Some run → wr_jobs run !! j = Some job →
    (energy (mkSys (set_runs runs (sy_ds s)) (sy_checks s) (sy_world s) (P_Flush 1 tw)) < energy s)%nat ∨
    doomed (wr_jobs run) job = false ∧ job_at runs k j = Some job) as Htake.
  { intros k run j job Hk Hj. apply Hm; [by apply Hinv|intros ? jobs ? ?; by apply skip_weight|done..]. }
  clear Hm. destruct Haw as [(k & j & job & (run & Hk & Hj)%job_at_Some & Hs)|
    [(k & j & job & (run & Hk & Hj)%job_at_Some & Hs)|(k & run & j & job & Hk & Hj & Hd)%some_doomed_iff]];
    destruct (Htake k run j job Hk Hj) as [?|[Hnd Hat]]; try (by left).
  - right. left. by exists k, j, job.
  - right. right. by exists k, j, job.
  - by rewrite Hd in Hnd.
Qed.

(** A cluster on which something runs, or which is idle. *)
Lemma running_or_idle (s : @Sys W) :
  sys_inv s → clear s → pc_held (sy_pc s) = [] →
  some_in (ds_runs (sy_ds s)) JobState.Running ∨ cluster_accounts (ds_pools (sy_ds s)) [].
Proof.
  intros Hinv Hcl Hpc. pose proof (si_books _ Hinv) as Hb. rewrite Hpc, (cl_tests _ Hcl) in Hb. cbn in Hb.
  rewrite app_nil_r in Hb. destruct (runs_held (ds_runs (sy_ds s))) as [|x l] eqn:Eh; [by right|left].
  assert (x ∈ runs_held (ds_runs (sy_ds s))) as (k & run & Hk & Hx)%(map_held_elem (λ run, jobs_held (wr_jobs run)))
    by (rewrite Eh; by left).
  apply (map_held_elem job_held) in Hx as (j & job & Hj & Hx).
  assert (job_at (ds_runs (sy_ds s)) k j = Some job) as Hat by (apply job_at_Some; eauto).
  exists k, j, job. split; [done|]. destruct (si_jobs _ Hinv _ _ _ Hat) as [[_ _ Hidle] _].
  destruct (decide (ji_state job = JobState.Running)) as [|Hs]; [done|].
  unfold job_held in Hx. rewrite (Hidle Hs) in Hx. by apply elem_of_nil in Hx.
Qed.

Lemma reserve_awaits c (s s' : @Sys W) :
  sys_inv s → clear s → servable (ds_pools (sy_ds s)) (ds_runs (sy_ds s)) →
  sy_pc s = P_Reserve → sched_step c s = Ret s' →
  hopes (ds_runs (sy_ds s)) P_Reserve → awaits (ds_runs (sy_ds s')) (sy_pc s').
Proof.
  intros Hinv Hcl Hserv Hpc E Haw. unfold sched_step in E. rewrite Hpc in E.
  apply bind_Ret_inv in E as ([pools tasks] & E & [= <-]). cbn.
  destruct (running_or_idle s Hinv Hcl) as [Hrun|Hidle]; [by rewrite Hpc|by left|].
  destruct Haw as [Hrun|(k & j & job & Hat & Hs)]; [by left|]. right. left.
  assert (length (ds_pools (sy_ds s)) = length (online_nodes (sy_world s))) as Hlen.
  { unfold online_nodes. by rewrite length_fmap, (si_nodes _ Hinv). }
  assert (tasks ≠ []) as Hne.
  { pose proof Hat as (run & Hk & Hj)%job_at_Some. eapply reserve_some; [done|apply Hcl|done|apply Hcl|done..| |exact E].
    apply (Hserv k j); [done|by rewrite Hs]. }
  destruct (reserve_jobs_inv (online_nodes (sy_world s)) (all_jobs (ds_runs (sy_ds s))) (ds_pools (sy_ds s)) [] _ Hidle)
    as (pools' & tasks' & E' & _ & _ & Htasks); [by rewrite Hlen|].
  rewrite <-reserve_queued_flat, E in E'. injection E' as -> ->. cbn in *.
  destruct (tasks_queued _ _ _ (si_runs _ Hinv) Htasks) as [_ Hall].
  destruct tasks' as [|t tasks']; [done|].
  destruct (Hall t ltac:(by left)) as (run & job' & n & a & Hk & Hj & Et & _ & Hpl & _ & Hrej).
  exists t, n, a. split; [by left|]. split; [done|]. exists job'. cbn. rewrite Et. split; [|done].
  apply job_at_Some. eauto.
Qed.

Lemma launch_awaits c (s s' : @Sys W) tasks outcomes :
  sys_inv s → covers (ds_runs (sy_ds s)) → sy_pc s = P_Launch tasks outcomes → sched_step c s = Ret s' →
  awaits (ds_runs (sy_ds s)) (sy_pc s) → (energy s' < energy s)%nat ∨ awaits (ds_runs (sy_ds s')) (sy_pc s').
Proof.
  intros Hinv Hcov Hpc E Haw. pose proof (sched_rest _ _ _ Hinv E) as Hr. rewrite Hpc in Haw.
  destruct tasks as [|t tasks].
  - destruct (launch_step_sheds _ _ _ _ Hinv Hpc E) as (_ & Hsheds & Hkeep). cbn in Haw.
    assert (∃ tw, sy_pc s' = P_Flush 2 tw) as [tw ->].
    { unfold sched_step in E. rewrite Hpc in E. apply bind_Ret_inv in E as (r & _ & [= <-]). by eexists. }
    destruct Haw as [(k & j & job & Hj & Hs)|[(t & _ & _ & Ht & _)|(o & e & Ho & He & Hu & Hf)]].
    + right. exists k, j, job. split; [by apply Hkeep|done].
    + by apply elem_of_nil in Ht.
    + left. apply energy_sheds, Hr. eapply Hsheds; [done..|]. destruct Hf as (job & Hj & _). apply Hcov. eauto.
  - pose proof (si_pc _ Hinv) as Hp. rewrite Hpc in Hp. destruct Hp as (_ & [(n & a & Hpl) _]%Forall_cons & _).
    assert (n < length env_nodes)%nat as Hn.
    { apply (held_node s n a Hinv). rewrite Hpc. cbn. unfold task_held. rewrite Hpl. by left. }
    destruct (launch_task_inv t n a (sy_world s) Hpl Hn) as (o & w' & handle & El & Hrun & Hjob & He & _).
    unfold sched_step in E. rewrite Hpc, El in E. injection E as <-. cbn in *.
    destruct (launch_task_rest t n a _ _ _ Hpl El) as [_ Hlt].
    destruct (unreachable (lo_result o)) eqn:Hu; [left; apply energy_rest; [done|by apply Hlt]|right].
    destruct Haw as [?|[(t' & n' & a' & [->|Ht]%elem_of_cons & Hpl' & Hf)|(o' & e' & Ho & ?)]]; [by left| | |].
    + right. right. rewrite Hpl in Hpl'. injection Hpl' as -> ->. exists o, (mkExecution n' a' handle).
      split; [apply elem_of_app; right; by left|]. split; [done|]. split; [done|].
      assert (lo_name o = task_name t) as -> by (unfold lo_name, task_name; by rewrite Hrun, Hjob). exact Hf.
    + right. left. by exists t', n', a'.
    + right. right. exists o', e'. split; [apply elem_of_app; by left|done].
Qed.

Lemma collect_awaits c (s s' : @Sys W) :
  sys_inv s → sy_pc s = P_Collect → sched_step c s = Ret s' →
  some_in (ds_runs (sy_ds s)) JobState.Running → awaits (ds_runs (sy_ds s')) (sy_pc s').
Proof.
  intros Hinv Hpc E (k & j & job & Hat & Hs). unfold sched_step in E. rewrite Hpc in E. injection E as <-. cbn.
  left. destruct (si_jobs _ Hinv _ _ _ Hat) as [[_ Hrun _] _]. destruct (Hrun Hs) as (e & He & h & Hh).
  pose proof Hat as (run & Hk & Hj)%job_at_Some.
  assert (mkRunningJob k j (ex_node e) h (ji_cancelling job) ∈ collect_running (ds_runs (sy_ds s))) as Hin.
  { apply collect_running_spec; [apply Hinv|]. exists run, job, e. cbn. by rewrite He. }
  intros E. rewrite E in Hin. by apply elem_of_nil in Hin.
Qed.

Lemma poll_awaits c (s s' : @Sys W) jobs entries :
  sys_inv s → covers (ds_runs (sy_ds s)) → sy_pc s = P_Poll jobs entries → sched_step c s = Ret s' →
  awaits (ds_runs (sy_ds s)) (sy_pc s) → (energy s' < energy s)%nat ∨ awaits (ds_runs (sy_ds s')) (sy_pc s').
Proof.
  intros Hinv Hcov Hpc E Haw. pose proof (sched_rest _ _ _ Hinv E) as Hr. rewrite Hpc in Haw. cbn in Haw.
  destruct jobs as [|j jobs].
  - destruct Haw as [?|(entry & Hin & Hres)]; [done|left]. apply energy_sheds, Hr.
    eapply poll_step_sheds; [done..|]. pose proof (si_pc _ Hinv) as Hp. rewrite Hpc in Hp.
    destruct Hp as ((_ & Hnames) & _). destruct (Hnames (pe_run_id entry) (pe_job_id entry)) as (job & Hj & _).
    + cbn. by apply (list_elem_of_fmap_2 pe_name).
    + apply Hcov. eauto.
  - unfold sched_step in E. rewrite Hpc in E. apply bind_Ret_inv in E as ([entry w'] & E & [= <-]). cbn in *.
    destruct (poll_job_rest _ _ _ _ E) as [_ Hlt].
    destruct (still_running entry) eqn:Hres; [left; apply energy_rest; [done|by apply Hlt]|right; right].
    exists entry. split; [apply elem_of_app; right; by left|done].
Qed.

Lemma sched_promise c (s s' : @Sys W) most :
  sys_inv s → covers (ds_runs (sy_ds s)) → sched_step c s = Ret s' → promise most s → promise most s'.
Proof.
  intros Hinv Hcov E. pose proof (energy_quiet _ _ Hinv (quiet_sched _ _ _ E)) as Hle.
  intros [?|[Hmost Haw]]; [left; lia|].
  assert ((energy s' < energy s)%nat ∨ awaits (ds_runs (sy_ds s')) (sy_pc s')) as [?|?]; [|left; lia|right; split; [lia|done]].
  destruct (sy_pc s) as [| | | | | |tasks outcomes| |jobs entries|phase tw] eqn:Hpc; try done.
  - eapply launch_awaits; [done..|by rewrite Hpc].
  - right. by eapply collect_awaits.
  - eapply poll_awaits; [done..|by rewrite Hpc].
  - right. destruct phase as [|[|[|phase]]]; try done. unfold sched_step in E. rewrite Hpc in E.
    destruct tw as [|rj tw]; [by injection E as <-|]. by apply bind_Ret_inv in E as (w' & _ & [= <-]).
Qed.

Lemma sched_hopeful c (s s' : @Sys W) most :
  daemon_inv s → covers (ds_runs (sy_ds s)) → load names (ds_runs (sy_ds s)) ≠ 0%nat →
  sched_step c s = Ret s' → hopeful most s → hopeful most s'.
Proof.
  intros Hinv Hcov Hload E. pose proof (energy_quiet _ _ (proj1 Hinv) (quiet_sched _ _ _ E)) as Hle.
  intros [?|[Hmost Hw]]; [left; lia|].
  assert ((energy s' < energy s)%nat ∨ hopes (ds_runs (sy_ds s')) (sy_pc s')) as [?|?]; [|left; lia|right; split; [lia|done]].
  destruct (sy_pc s) as [[|q todo] polled|readings|[|tq l]| | | |[|t tasks] outcomes| |[|j jobs] entries|phase [|rj tw]] eqn:Hpc;
    try (right; unfold sched_step in E; rewrite Hpc in E;
         repeat (apply bind_Ret_inv in E as (? & _ & E)); by injection E as <-).
  - right. unfold sched_step in E. rewrite Hpc in E. destruct (env_nodes !! _); [by injection E as <-|].
    by apply bind_Ret_inv in E as ([[ds' checks'] l] & _ & [= <-]).
  - right. unfold sched_step in E. rewrite Hpc in E. by apply bind_Ret_inv in E as ([[pools checks'] w'] & _ & [= <-]).
  - by eapply pending_hopes.
  - by eapply skip_hopes; [apply Hinv|..].
  - right. unfold sched_step in E. rewrite Hpc in E. by apply bind_Ret_inv in E as ([pools tasks] & _ & [= <-]).
  - right. unfold sched_step in E. rewrite Hpc in E.
    destruct phase as [|[|[|phase]]]; [by injection E as <-..|]. destruct (ch_due c); by injection E as <-.
Qed.

(** ** The scheduler's round *)

(** Where the scheduler is in its round, and how long its list still is. *)
Definition place_in_round (p : pc) : nat :=
  match p with
  | P_Pending => 0
  | P_Flush 0 _ => 1
  | P_Skip => 2
  | P_Flush 1 _ => 3
  | P_Reserve => 4
  | P_Launch _ _ => 5
  | P_Flush 2 _ => 6
  | P_Collect => 7
  | P_Poll _ _ => 8
  | P_Flush _ _ => 9
  | P_Finish _ _ => 10
  | P_Check _ => 11
  | P_Qualify _ => 12
  end.

Definition to_go (p : pc) : nat :=
  match p with
  | P_Finish todo _ => length todo
  | P_Check readings => S (length env_nodes) - length readings
  | P_Qualify l => length l
  | P_Launch tasks _ => length tasks
  | P_Poll jobs _ => length jobs
  | P_Flush _ to_write => length to_write
  | _ => 0
  end.

(** How far it is to a place. *)
Definition distance (place : nat) (p : pc) : nat * nat :=
  let here := place_in_round p in
  ((if (place <? here)%nat then place + 13 - here else place - here)%nat, to_go p).

Definition sooner : relation (nat * nat) := slexprod nat nat lt lt.

Lemma sooner_wf : well_founded sooner.
Proof. apply wf_slexprod; apply lt_wf. Qed.

(** A stretch shortens the list, or goes to the next place; the checks of the
    cards may be left out. *)
Lemma sched_round c (s s' : @Sys W) :
  sched_step c s = Ret s' →
  place_in_round (sy_pc s') = place_in_round (sy_pc s) ∧ (to_go (sy_pc s') < to_go (sy_pc s))%nat ∨
  place_in_round (sy_pc s') = S (place_in_round (sy_pc s)) ∨
  place_in_round (sy_pc s') = 0%nat ∧ (9 ≤ place_in_round (sy_pc s))%nat.
Proof.
  unfold sched_step. intros E.
  destruct (sy_pc s) as [[|q todo] polled|readings|[|tq l]| | | |[|t tasks] outcomes| |[|j jobs] entries|phase [|rj tw]] eqn:Hpc;
    try (repeat (apply bind_Ret_inv in E as (? & _ & E)); injection E as <-; cbn; lia).
  - destruct (env_nodes !! _) eqn:Hread.
    + injection E as <-. cbn. rewrite length_app. cbn. apply lookup_lt_Some in Hread. lia.
    + apply bind_Ret_inv in E as ([[ds' checks'] l] & _ & [= <-]). cbn. lia.
  - apply bind_Ret_inv in E as ([[pools checks'] w'] & _ & [= <-]). cbn. lia.
  - destruct (queue_ready _). injection E as <-. cbn. lia.
  - destruct (skip_doomed _ _). injection E as <-. cbn. lia.
  - apply bind_Ret_inv in E as ([pools tasks] & _ & [= <-]). cbn. lia.
  - destruct phase as [|[|[|phase]]]; [injection E as <-; cbn; lia..|].
    destruct (ch_due c); injection E as <-; cbn; lia.
Qed.

Lemma sched_sooner c (s s' : @Sys W) place :
  (place ≤ 9)%nat → sched_step c s = Ret s' → place_in_round (sy_pc s) ≠ place →
  sooner (distance place (sy_pc s')) (distance place (sy_pc s)).
Proof.
  intros Hplace E Hne. unfold distance.
  destruct (sched_round c s s' E) as [[-> Hlt]|Hnext]; [by right|]. left.
  assert (place_in_round (sy_pc s) ≤ 12)%nat by (destruct (sy_pc s) as [| | | | | | | | |[|[|[|phase]]]]; cbn; lia).
  destruct (Nat.ltb_spec place (place_in_round (sy_pc s))), (Nat.ltb_spec place (place_in_round (sy_pc s'))); lia.
Qed.

(** Stretch by stretch, the scheduler comes to every place of a tick. *)
Lemma stretches_reach (σ : nat → @Sys W) place i :
  (place ≤ 9)%nat → (∀ i, ∃ c, sched_step c (σ i) = Ret (σ (S i))) →
  ∃ j, (i ≤ j)%nat ∧ place_in_round (sy_pc (σ j)) = place.
Proof.
  intros Hplace Hsched. remember (distance place (sy_pc (σ i))) as m eqn:Hm. revert i Hm.
  induction m as [m IH] using (well_founded_ind sooner_wf). intros i ->.
  destruct (decide (place_in_round (sy_pc (σ i)) = place)) as [|Hne]; [by exists i|].
  destruct (Hsched i) as [c E].
  destruct (IH (distance place (sy_pc (σ (S i))))) with (i := S i) as (j & Hj & Hpc); [by eapply sched_sooner|done|].
  exists j. split; [lia|done].
Qed.
End completion.

(** ** Executions in which the scheduler keeps running *)

Section executions.
Context `{HashOrder}.
Context {W : Type} `{DaemonEnv W}.
Variable rest : W → nat.

(** The daemon without new submissions, in which the scheduler again and again
    comes to place jobs when nothing is in the way.  In between, nodes may go
    down, cards be set aside and tested, runs be cancelled. *)
Record fair_run (σ : nat → @Sys W) : Prop := {
  fr_step : ∀ i, quiet_step rest (σ i) (σ (S i));
  fr_places : ∀ i, ∃ j c, (i ≤ j)%nat ∧ sy_pc (σ j) = P_Reserve ∧ clear (σ j) ∧
    sched_step c (σ j) = Ret (σ (S j));
}.

Hypothesis Hpatient : patient rest.
Variable σ : nat → @Sys W.
Hypothesis Hfair : fair_run σ.
Variable machines : list SystemResources.
Hypothesis Hstart : can_start machines.
Hypothesis Hreach : reachable machines (σ 0).

Definition job_names (runs : gmap string WorkflowRun) : list job_name := name_of <$> all_jobs runs.

Lemma job_names_cover runs : runs_wf runs → covers (job_names runs) runs.
Proof.
  intros Hwf k j [job (run & Hk & Hj)%job_at_Some]. destruct (Hwf _ _ Hk) as [Hid Hjobs].
  apply list_elem_of_fmap. exists (run, job). split; [|apply elem_of_all_jobs; eauto].
  unfold name_of. cbn. by rewrite Hid, (Hjobs _ _ Hj).
Qed.

Definition names : list job_name := job_names (ds_runs (sy_ds (σ 0))).

Lemma execution_inv i :
  daemon_inv (σ i) ∧ servable (ds_pools (sy_ds (σ i))) (ds_runs (sy_ds (σ i))) ∧ covers names (ds_runs (sy_ds (σ i))).
Proof.
  induction i as [|i (Hd & Hs & Hc)].
  - destruct (reachable_servable _ _ Hstart Hreach) as [Hd Hs]. split_and!; [done..|]. by apply job_names_cover, Hd.
  - pose proof (fr_step _ Hfair i) as Hq. pose proof (quiet_is_step _ _ _ Hq) as Hstep. split_and!.
    + by apply (step_inv _ _ Hstep).
    + by eapply step_servable.
    + intros k j [job' Hj']. apply Hc. eapply adv_bwd, Hj'. by eapply quiet_advances; [apply Hd|].
Qed.

(** What is not a stretch leaves the scheduler and the jobs where they are. *)
Lemma quiet_cases s s' :
  quiet_step rest s s' →
  (∃ c, sched_step c s = Ret s') ∨ sy_pc s' = sy_pc s ∧ all_alike (ds_runs (sy_ds s)) (ds_runs (sy_ds s')).
Proof.
  intros Hq. destruct Hq as [c s s' E|k run s Hk|w' s Hw]; [left; by exists c|right..].
  - split; [done|]. by apply cancel_alike.
  - split; [done|]. apply all_alike_refl.
Qed.

(** The next stretch, from where the scheduler stands. *)
Lemma next_stretch (P : @Sys W → Prop) i :
  (∀ j, quiet_step rest (σ j) (σ (S j)) → sy_pc (σ (S j)) = sy_pc (σ j) →
     all_alike (ds_runs (sy_ds (σ j))) (ds_runs (sy_ds (σ (S j)))) → P (σ j) → P (σ (S j))) →
  P (σ i) → ∃ j c, (i ≤ j)%nat ∧ sy_pc (σ j) = sy_pc (σ i) ∧ P (σ j) ∧ sched_step c (σ j) = Ret (σ (S j)).
Proof.
  intros Hkeep. destruct (fr_places _ Hfair i) as (j & c & Hle & _ & _ & E).
  remember (j - i)%nat as n eqn:Hn. revert i Hle Hn. induction n as [|n IH]; intros i Hle Hn HP.
  { assert (j = i) as -> by lia. by exists i, c. }
  destruct (quiet_cases _ _ (fr_step _ Hfair i)) as [[c' E']|[Hpc Ha]].
  - by exists i, c'.
  - destruct (IH (S i)) as (j' & c' & Hle' & Hpc' & HP' & E'); [lia|lia|by eapply Hkeep, HP; [apply Hfair|..]|].
    exists j', c'. split_and!; [lia|by rewrite Hpc', Hpc|done|done].
Qed.

Notation left_at i := (energy rest names (σ i)).

Lemma left_step i : (left_at (S i) ≤ left_at i)%nat.
Proof. eapply energy_quiet; [done|apply execution_inv|apply Hfair]. Qed.

(** The scheduler comes back to the start of a tick, what it promised kept. *)
Lemma next_tick (P : @Sys W → Prop) i :
  (∀ j, quiet_step rest (σ j) (σ (S j)) → sy_pc (σ (S j)) = sy_pc (σ j) →
     all_alike (ds_runs (sy_ds (σ j))) (ds_runs (sy_ds (σ (S j)))) → P (σ j) → P (σ (S j))) →
  (∀ j c, sched_step c (σ j) = Ret (σ (S j)) → P (σ j) → P (σ (S j))) →
  P (σ i) → ∃ j, (i ≤ j)%nat ∧ sy_pc (σ j) = P_Pending ∧ P (σ j).
Proof.
  intros Hidle Hsched. remember (distance 0 (sy_pc (σ i))) as m eqn:Hm. revert i Hm.
  induction m as [m IH] using (well_founded_ind sooner_wf). intros i -> Hp.
  destruct (decide (place_in_round (sy_pc (σ i)) = 0%nat)) as [Hpc|Hne].
  { exists i. split_and!; [done| |done]. by destruct (sy_pc (σ i)) as [| | | | | | | | |[|[|[|phase]]]]. }
  destruct (next_stretch P i Hidle Hp) as (j & c & Hle & Hpc & Hpj & E).
  destruct (IH (distance 0 (sy_pc (σ (S j))))) with (i := S j) as (l & Hl & Hpcl & Hpl); [|done| |].
  - rewrite <-Hpc in *. eapply sched_sooner; [lia|done..].
  - by eapply Hsched.
  - exists l. split; [lia|done].
Qed.

(** Hope lasts until the placements of the tick, unless all is done. *)
Lemma hope_lasts most i j :
  (i ≤ j)%nat → hopeful rest names most (σ i) →
  (∃ n, (i ≤ n)%nat ∧ load names (ds_runs (sy_ds (σ n))) = 0%nat) ∨ hopeful rest names most (σ j).
Proof.
  intros Hij Hi. induction Hij as [|j Hij [?|IH]]; [by right|by left|].
  destruct (decide (load names (ds_runs (sy_ds (σ j))) = 0%nat)) as [Hz|Hnz]; [left; by exists j|right].
  destruct (execution_inv j) as (Hinv & _ & Hcov). pose proof (fr_step _ Hfair j) as Hq.
  destruct (quiet_cases _ _ Hq) as [[c E]|[Hpc Ha]]; [by eapply sched_hopeful|].
  by eapply hopeful_idle; [done|apply Hinv|..].
Qed.

(** Ended jobs stay ended. *)
Lemma load_stays i j : (i ≤ j)%nat → (load names (ds_runs (sy_ds (σ j))) ≤ load names (ds_runs (sy_ds (σ i))))%nat.
Proof.
  induction 1 as [|j _ IH]; [done|]. etrans; [|exact IH]. apply load_lighter.
  pose proof (fr_step _ Hfair j) as Hq. destruct (execution_inv j) as ([Hinv _] & _).
  destruct Hq as [c s s' E|k run s Hk|w' s Hw]; [by eapply sched_lighter|by apply alike_lighter, cancel_alike|reflexivity].
Qed.

Lemma work_runs_out i : ∃ n, (i ≤ n)%nat ∧ load names (ds_runs (sy_ds (σ n))) = 0%nat.
Proof.
  remember (left_at i) as e eqn:He. revert i He.
  induction e as [e IH] using (well_founded_ind lt_wf). intros i ->.
  destruct (next_tick (λ s, energy rest names s ≤ left_at i)%nat i) as (j & Hij & Hpcj & Hj);
    [intros l _ _ _ Hl; etrans; [apply left_step|done]|intros l _ _ Hl; etrans; [apply left_step|done]|done|].
  destruct (fr_places _ Hfair j) as (l & c & Hjl & Hpcl & Hcl & E).
  destruct (hope_lasts (left_at i) j l Hjl) as [(n & Hn & Hz)|[Hlt|[Hle Hw]]];
    [right; by rewrite Hpcj|exists n; split; [lia|done]| |].
  - destruct (IH (left_at l)) with (i := l) as (n & Hln & Hn); [done..|]. exists n. split; [lia|done].
  - destruct (execution_inv l) as ([Hinv _] & Hserv & Hcov). rewrite Hpcl in Hw.
    assert (promise rest names (left_at i) (σ (S l))) as Hp.
    { right. split; [etrans; [apply left_step|done]|]. by eapply reserve_awaits. }
    destruct (next_tick (promise rest names (left_at i)) (S l)) as (m & Hlm & Hpcm & Hpm); [| |done|].
    + intros m Hq Hpc Ha. by eapply promise_idle; [done|apply execution_inv|..].
    + intros m c' E'. destruct (execution_inv m) as ([Hinvm _] & _ & Hcovm). by eapply sched_promise.
    + destruct (IH (left_at m)) with (i := m) as (n & Hmn & Hn); [|done|exists n; split; [lia|done]].
      destruct Hpm as [?|[_ Haw]]; [done|by rewrite Hpcm in Haw].
Qed.

(** From [work_runs_out]: what has ended does not change. *)
Lemma runs_end :
  ∃ n, ∀ k j, is_Some (job_at (ds_runs (sy_ds (σ 0))) k j) →
    ∃ job, JobState.is_terminal (ji_state job) = true ∧
      ∀ i, (n ≤ i)%nat → job_at (ds_runs (sy_ds (σ i))) k j = Some job.
Proof.
  destruct (work_runs_out 0) as (n & _ & Hn). exists n. intros k j [job0 Hj0].
  assert (∀ i, ∃ job, job_at (ds_runs (sy_ds (σ i))) k j = Some job) as Hlives.
  { intros i. induction i as [|i [job Hj]]; [by exists job0|].
    destruct (execution_inv i) as ([Hinv _] & _). pose proof (quiet_advances _ _ _ Hinv (fr_step _ Hfair i)) as Hadv.
    destruct (adv_fwd _ _ Hadv _ _ _ Hj) as (job' & Hj' & _). by exists job'. }
  destruct (Hlives n) as [job Hj]. assert (JobState.is_terminal (ji_state job) = true) as Hend.
  { destruct (execution_inv n) as (_ & _ & Hcov). eapply load_zero; [exact Hn|apply Hcov; eauto|done]. }
  exists job. split; [done|]. induction 1 as [|i _ IH]; [done|].
  destruct (execution_inv i) as ([Hinv _] & _). pose proof (quiet_advances _ _ _ Hinv (fr_step _ Hfair i)) as Hadv.
  destruct (adv_fwd _ _ Hadv _ _ _ IH) as (job' & Hj' & Hm). by rewrite Hj', (moves_terminal _ _ Hm Hend).
Qed.
End executions.

(** ** Between card checks nothing gets in the way *)

Definition in_tick (p : pc) : bool :=
  match p with P_Finish _ _ | P_Check _ | P_Qualify _ => false | _ => true end.

Section between.
Context `{HashOrder}.
Context {W : Type} `{DaemonEnv W}.

Lemma tick_machines c (s s' : @Sys W) :
  sched_step c s = Ret s' → ch_due c = false → in_tick (sy_pc s) = true →
  in_tick (sy_pc s') = true ∧ sy_checks s' = sy_checks s ∧ same_machines (ds_pools (sy_ds s)) (ds_pools (sy_ds s')).
Proof.
  unfold sched_step. intros E Hdue Ht. pose proof (@same_machines_equiv) as [Hrefl _ _].
  destruct (sy_pc s) as [| | | | | |[|t tasks] outcomes| |[|j jobs] entries|phase [|rj tw]] eqn:Hpc; try done.
  - destruct (queue_ready _). by injection E as <-.
  - destruct (skip_doomed _ _). by injection E as <-.
  - apply bind_Ret_inv in E as ([pools tasks] & E & [= <-]). split_and!; [done..|by eapply reserve_queued_machines].
  - apply bind_Ret_inv in E as ([ds' tw] & E & [= <-]). split_and!; [done..|by eapply apply_outcomes_machines].
  - by apply bind_Ret_inv in E as (r & _ & [= <-]).
  - by injection E as <-.
  - apply bind_Ret_inv in E as ([ds' tw] & E & [= <-]). split_and!; [done..|by eapply apply_entries_machines].
  - by apply bind_Ret_inv in E as (r & _ & [= <-]).
  - rewrite Hdue in E. destruct phase as [|[|[|phase]]]; by injection E as <-.
  - by apply bind_Ret_inv in E as (w' & _ & [= <-]).
Qed.

Lemma same_machines_blocked pools pools' :
  same_machines pools pools' → no_card_blocked pools → no_card_blocked pools'.
Proof.
  unfold no_card_blocked. induction 1 as [|p p' l l' [_ Hb] _ IH]; [done|].
  intros [H1 H2]%Forall_cons. constructor; [by rewrite <-Hb|by apply IH].
Qed.
End between.

Section property.
Context `{HashOrder}.
Context {W : Type} `{DaemonEnv W}.

(** C5: Every run comes to its end.  From any state the daemon can reach, once
    submissions stop, in every execution in which the scheduler again and again
    places jobs at a moment when the nodes are up and no card is set aside or
    under test, however nodes that go down, cards tested and set aside, cancels
    and other changes interleave in between, there is a moment from which every
    job has ended, for good: provided that the world puts the daemon off only
    finitely often (a launch or a poll that does not get through, a process
    that has not ended yet). *)
Theorem every_run_ends (rest : W → nat) (σ : nat → @Sys W) machines :
  can_start machines → reachable machines (σ 0%nat) → patient rest → fair_run rest σ →
  ∃ n, ∀ k j, is_Some (job_at (ds_runs (sy_ds (σ 0%nat))) k j) →
    ∃ job, JobState.is_terminal (ji_state job) = true ∧
      ∀ i, (n ≤ i)%nat → job_at (ds_runs (sy_ds (σ i))) k j = Some job.
Proof. intros Hstart Hreach Hpatient Hfair. by apply (runs_end rest Hpatient σ Hfair machines). Qed.
End property.

(** ** Witness: the scheduler alone, on a run of two jobs *)

Section demo.
#[local] Existing Instance canonical_order.
#[local] Existing Instance demo_env.

(** A process has ended by the third poll. *)
Definition demo_rest (w : N) : nat := N.to_nat (2 - w).

Lemma demo_patient : patient demo_rest.
Proof.
  assert (∀ node : Node N, node ∈ env_nodes → node = demo_node_env) as Hnode by (by intros node ->%list_elem_of_singleton).
  split; [intros node ? ? ? w ->%Hnode; by split|intros node ? w ->%Hnode|by intros node ? ? ? w ->%Hnode
    |by intros node ? w ->%Hnode|by intros node ? w ->%Hnode|done|done].
  cbn. unfold demo_rest. destruct (N.ltb_spec w 2) as [Hw|Hw]; cbn.
  - split; [lia|]. intros _. lia.
  - split; [lia|]. by intros [?|[=]].
Qed.

(** From the first tick on; [demo_at] runs the same stretches. *)
Definition demo_run_at (i : nat) : @Sys N := demo_at demo_chain (4 + i).

Lemma sched_run_S n c (s : @Sys N) : sched_run (S n) c s = (s' ← sched_run n c s; sched_step c s').
Proof.
  revert s. induction n as [|n IH]; intros s; [cbn; by destruct (sched_step c s)|].
  change (sched_run (S (S n)) c s) with (s' ← sched_step c s; sched_run (S n) c s').
  change (sched_run (S n) c s) with (s' ← sched_step c s; sched_run n c s').
  destruct (sched_step c s) as [s1|]; [apply IH|done].
Qed.

Lemma demo_returns n : sched_run n demo_choices (demo_submitted demo_chain) = Ret (demo_at demo_chain n).
Proof.
  induction n as [|n IH]; [done|].
  destruct (reachable_inv [demo_resources] (demo_at demo_chain n) demo_can_start (demo_reachable demo_chain n)) as [Hinv _].
  destruct (sched_inv demo_choices _ Hinv) as (s' & E & _).
  assert (sched_run (S n) demo_choices (demo_submitted demo_chain) = Ret s') as E'.
  { rewrite sched_run_S, IH. exact E. }
  unfold demo_at at 1. by rewrite E'.
Qed.

Lemma demo_step n : sched_step demo_choices (demo_at demo_chain n) = Ret (demo_at demo_chain (S n)).
Proof. pose proof (demo_returns (S n)) as E. rewrite sched_run_S, demo_returns in E. exact E. Qed.

Lemma demo_clear i : in_tick (sy_pc (demo_run_at i)) = true ∧ clear (demo_run_at i).
Proof.
  induction i as [|i [Ht [Hc Hq Hn]]].
  - split; [vm_compute; reflexivity|]. split.
    + unfold no_card_blocked. apply (bool_decide_unpack _). vm_compute. exact I.
    + vm_compute. reflexivity.
    + apply Forall_singleton. reflexivity.
  - destruct (tick_machines demo_choices _ _ (demo_step (4 + i)) eq_refl Ht) as (Ht' & Hchecks & Hsame).
    split; [exact Ht'|]. split.
    + eapply same_machines_blocked; [exact Hsame|exact Hc].
    + unfold demo_run_at. replace (4 + S i)%nat with (S (4 + i)) by lia. rewrite Hchecks. exact Hq.
    + apply Forall_singleton. reflexivity.
Qed.

Lemma demo_fair : fair_run demo_rest demo_run_at.
Proof.
  split.
  - intros i. apply (quiet_sched _ demo_choices), (demo_step (4 + i)).
  - intros i. destruct (stretches_reach demo_run_at 4 i) as (j & Hj & Hpc).
    + lia.
    + intros l. exists demo_choices. apply (demo_step (4 + l)).
    + exists j, demo_choices. split; [exact Hj|]. split; [|split; [apply demo_clear|apply (demo_step (4 + j))]].
      by destruct (sy_pc (demo_run_at j)) as [| | | | | | | | |[|[|[|phase]]]].
Qed.

Lemma every_run_ends_witness :
  ∃ n job, JobState.is_terminal (ji_state job) = true ∧
    ∀ i, (n ≤ i)%nat → job_at (ds_runs (sy_ds (demo_run_at i))) "run" "b" = Some job.
Proof.
  destruct (every_run_ends demo_rest demo_run_at [demo_resources] demo_can_start (demo_reachable demo_chain 4)
    demo_patient demo_fair) as (n & Hn). exists n. apply Hn.
  assert (bool_decide (is_Some (job_at (ds_runs (sy_ds (demo_at demo_chain 4))) "run" "b")) = true) as Hb
    by (vm_compute; reflexivity).
  exact (bool_decide_eq_true_1 _ Hb).
Defined.
End demo.
