(* ===== verification/Success.v ===== *)
(** * A workflow whose commands succeed, succeeds

    What the program is for.  When no node turns a job down, every process
    ends with exit code 0 and nobody cancels, no job is ever failed, skipped
    or cancelled by the daemon itself: with [Completion.v], every job of every
    run ends Succeeded. *)

From S2P Require Import Prelude Spec Pool Placement Handle Model Dag Text Health Protocol Executor Shell Scheduler Qualify Tasks Server System Guarantees Fits Weigh Completion.

Section success.
Context `{HashOrder}.
Context {W : Type} `{DaemonEnv W}.

(** Nodes that start what they are given, processes that end well; either may
    be out of reach for a while. *)
Record cooperative : Prop := {
  co_launch : ∀ node run_id job alloc w, node ∈ env_nodes →
    let r := (launch (nd_executor node) run_id job alloc w).1 in unreachable r = true ∨ ∃ handle, r = Ok handle;
  co_poll : ∀ node handle w, node ∈ env_nodes →
    let r := (poll (nd_executor node) handle w).1 in unreachable r = true ∨ r = Ok PollRunning ∨ r = Ok (PollExited 0);
}.

(** Nothing has gone wrong with the job. *)
Definition smooth_job (job : JobInstance) : Prop :=
  ji_cancelling job = false ∧
  (JobState.is_terminal (ji_state job) = true → ji_state job = JobState.Succeeded).

Definition smooth_runs (runs : gmap string WorkflowRun) : Prop :=
  ∀ k j job, job_at runs k j = Some job → smooth_job job.

Definition smooth_outcome (o : LaunchOutcome) : Prop := unreachable (lo_result o) = true ∨ lo_result o = Ok tt.

Definition smooth_entry (entry : PollEntry) : Prop :=
  pe_cancelling entry = false ∧ (still_running entry = true ∨ pe_result entry = Ok (PollExited 0)).

Definition smooth_pc (p : pc) : Prop :=
  match p with
  | P_Launch _ outcomes => Forall smooth_outcome outcomes
  | P_Poll jobs entries => Forall (λ r, rj_cancelling r = false) jobs ∧ Forall smooth_entry entries
  | _ => True
  end.

Definition smooth (s : @Sys W) : Prop := smooth_runs (ds_runs (sy_ds s)) ∧ smooth_pc (sy_pc s).

Lemma smooth_update runs k run j job' :
  runs !! k = Some run → smooth_runs runs → smooth_job job' → smooth_runs (update_job k j run job' runs).
Proof.
  intros Hk Hs Hjob k' j' job. rewrite (job_at_update _ _ _ _ _ _ _ Hk).
  destruct (decide _); [by intros [= <-]|apply Hs].
Qed.

Lemma smooth_marked f test runs :
  runs_wf runs → smooth_runs runs →
  (∀ k run j job, runs !! k = Some run → wr_jobs run !! j = Some job → test (wr_jobs run) job = true →
     smooth_job (f run j job)) →
  smooth_runs (values_mut (λ run, mark_jobs (f run) (job_ids (test (wr_jobs run)) run) run) runs).1.
Proof.
  intros Hwf Hs Hf k j job' (run & job & Hk & Hj & ->)%marked_at; [|done].
  destruct (test (wr_jobs run) job) eqn:Et; [by eapply Hf|]. apply (Hs k j), job_at_Some. eauto.
Qed.

Lemma smooth_outcome_applied clock o ds ds' :
  smooth_outcome o → outcome_applied clock o ds ds' → smooth_runs (ds_runs ds) → smooth_runs (ds_runs ds').
Proof.
  intros Ho (_ & run & job & job' & e & Hk & Hj & Hq & _ & Ha & ->) Hs. eapply smooth_update; [done..|].
  assert (smooth_job job) as [Hc Ht] by (apply (Hs (lo_run_id o) (lo_job_id o)), job_at_Some; eauto).
  unfold launch_applied in Ha. destruct Ho as [Hu|Hok]; [|rewrite Hok in Ha; by destruct Ha as [log ->]].
  destruct (lo_result o) as [|[]]; try done. by subst job'.
Qed.

Lemma smooth_entry_applied clock entry ds ds' :
  smooth_entry entry → entry_applied clock entry ds ds' → smooth_runs (ds_runs ds) → smooth_runs (ds_runs ds').
Proof.
  intros [Hec He] (_ & run & job & job' & Hk & Hj & Hq & Ha & ->) Hs. eapply smooth_update; [done..|].
  assert (smooth_job job) as [Hc Ht] by (apply (Hs (pe_run_id entry) (pe_job_id entry)), job_at_Some; eauto).
  unfold poll_applied in Ha. unfold still_running in He. destruct He as [Hr|Hx].
  - destruct (pe_result entry) as [[|code]|error]; [by destruct Ha as [-> _]|done|].
    destruct error; try done. by destruct Ha as [-> _].
  - rewrite Hx in Ha. destruct Ha as [-> _]. by rewrite Hec.
Qed.

Hypothesis Hcoop : cooperative.

Lemma launch_smooth t n a w o w' :
  at_placement t = [(n, a)] → launch_task t w = Ret (o, w') → smooth_outcome o.
Proof.
  intros Hp. unfold launch_task. rewrite Hp. cbn.
  destruct (node_at n) as [node|] eqn:Hn; [|done]. cbn. apply node_at_in in Hn.
  pose proof (co_launch Hcoop node (at_run_id t) (at_job_instance t) a w Hn) as Hl. cbn in Hl.
  destruct (launch _ _ _ _ _) as [[handle|error] w1]; cbn in *; intros [= <- <-]; [by right|left].
  cbn. destruct Hl as [?|[? [=]]]. by destruct error.
Qed.

Lemma poll_smooth j w entry w' :
  rj_cancelling j = false → poll_job j w = Ret (entry, w') → smooth_entry entry.
Proof.
  intros Hc. unfold poll_job. destruct (node_at _) as [node|] eqn:Hn; [|done]. cbn. apply node_at_in in Hn.
  pose proof (co_poll Hcoop node (rj_handle j) w Hn) as Hl. cbn in Hl.
  destruct (poll _ _ _) as [result w1]. cbn in Hl.
  destruct Hl as [Hu|[-> | ->]]; [|by intros [= <- <-]; split; [|left]|by intros [= <- <-]; split; [|right]].
  destruct result as [|[]]; try done. intros [= <- <-]. split; [done|by left].
Qed.

Lemma sched_smooth c (s s' : @Sys W) : sys_inv s → sched_step c s = Ret s' → smooth s → smooth s'.
Proof.
  intros Hinv E [Hs Hsp]. unfold smooth, sched_step in *. pose proof (si_pc _ Hinv) as Hp.
  destruct (sy_pc s) as [[|q todo] polled|readings|[|tq l]| | | |[|t tasks] outcomes| |[|j jobs] entries|phase [|rj tw]] eqn:Hpc;
    try (repeat (apply bind_Ret_inv in E as (? & _ & E)); injection E as <-; split; [exact Hs|done]).
  - destruct (env_nodes !! _) eqn:Hread; [by injection E as <-|].
    apply bind_Ret_inv in E as ([[ds' checks'] l] & E & [= <-]).
    destruct (qualify_step c s Hinv) as (s2 & E2 & _ & Hr); [left; eauto|]. unfold sched_step in E2.
    rewrite Hpc, Hread, E in E2. injection E2 as <-. cbn in *. by rewrite Hr.
  - apply bind_Ret_inv in E as ([[pools checks'] w'] & _ & [= <-]). done.
  - rewrite queue_ready_mark in E.
    pose proof (smooth_marked (λ _ _, JobInstance.set_state JobState.Queued) ready _ (si_runs _ Hinv) Hs) as Hm.
    destruct (values_mut _ _) as [runs tw]. injection E as <-. split; [|done]. apply Hm.
    intros k run j job Hk Hj _. split; [|done]. apply (Hs k j job), job_at_Some. eauto.
  - rewrite skip_doomed_mark in E.
    pose proof (smooth_marked (λ run j, skip_job (ch_utc c (wr_run_id run) j)) doomed _ (si_runs _ Hinv) Hs) as Hm.
    destruct (values_mut _ _) as [runs tw]. injection E as <-. split; [|done]. apply Hm.
    intros k run j job Hk Hj (_ & d & _ & jd & Hjd & Ht & Hne)%doomed_spec. destruct Hne.
    assert (job_at (ds_runs (sy_ds s)) k d = Some jd) as Hat by (apply job_at_Some; eauto).
    by apply (Hs _ _ _ Hat).
  - apply bind_Ret_inv in E as ([pools tasks] & _ & [= <-]). split; [exact Hs|constructor].
  - assert (chain (outcome_applied (ch_utc c)) outcomes (sy_ds s) (sy_ds s')) as Hc.
    { apply launch_chain; [done..|]. unfold sched_step. by rewrite Hpc. }
    apply bind_Ret_inv in E as (r & _ & [= <-]). split; [|done].
    eapply (chain_inv _ (λ ds, smooth_runs (ds_runs ds))), Hs; [|exact Hc].
    intros o ? ? Ho. apply smooth_outcome_applied. by eapply Forall_forall in Hsp.
  - apply bind_Ret_inv in E as ([o w'] & E & [= <-]). split; [done|].
    destruct Hp as (_ & [(n & a & Hpl) _]%Forall_cons & _). apply Forall_app. split; [done|].
    apply Forall_singleton. by eapply launch_smooth.
  - injection E as <-. split; [done|]. split; [|done]. apply Forall_forall.
    intros r (run & job & e & Hk & Hj & _ & _ & _ & _ & ->)%collect_running_spec; [|apply Hinv].
    apply (Hs (rj_run_id r) (rj_job_id r) job), job_at_Some. eauto.
  - assert (chain (entry_applied (ch_utc c)) entries (sy_ds s) (sy_ds s')) as Hc.
    { apply poll_chain; [done..|]. unfold sched_step. by rewrite Hpc. }
    apply bind_Ret_inv in E as (r & _ & [= <-]). split; [|done]. destruct Hsp as [_ Hsp].
    eapply (chain_inv _ (λ ds, smooth_runs (ds_runs ds))), Hs; [|exact Hc].
    intros entry ? ? Hin. apply smooth_entry_applied. by eapply Forall_forall in Hsp.
  - apply bind_Ret_inv in E as ([entry w'] & E & [= <-]). split; [done|].
    destruct Hsp as [[Hj Hjobs]%Forall_cons Hes]. split; [done|]. apply Forall_app. split; [done|].
    apply Forall_singleton. by eapply poll_smooth.
  - destruct phase as [|[|[|phase]]]; [by injection E as <-..|]. destruct (ch_due c); by injection E as <-.
Qed.
End success.

Section property.
Context `{HashOrder}.
Context {W : Type} `{DaemonEnv W}.

(** Nobody cancels: only the scheduler and the outside world move. *)
Definition uncancelled (σ : nat → @Sys W) : Prop :=
  ∀ i, (∃ c, sched_step c (σ i) = Ret (σ (S i))) ∨
    ∃ w', σ (S i) = mkSys (sy_ds (σ i)) (sy_checks (σ i)) w' (sy_pc (σ i)).

Lemma execution_smooth (σ : nat → @Sys W) :
  cooperative → (∀ i, sys_inv (σ i)) → uncancelled σ → smooth (σ 0%nat) → ∀ i, smooth (σ i).
Proof.
  intros Hcoop Hinv Hun Hs i. induction i as [|i IH]; [done|].
  destruct (Hun i) as [[c E]|[w' ->]]; [by eapply sched_smooth|exact IH].
Qed.

End property.

(** ** Witness: [a], then [b] *)

Section demo.
#[local] Existing Instance canonical_order.
#[local] Existing Instance demo_env.

Lemma demo_cooperative : cooperative.
Proof.
  assert (∀ node : Node N, node ∈ env_nodes → node = demo_node_env) as Hnode by (by intros node ->%list_elem_of_singleton).
  split; [intros node ? ? ? w ->%Hnode|intros node ? w ->%Hnode]; cbn; right; [by eexists|].
  destruct (w <? 2); [by left|by right].
Qed.

Lemma demo_smooth : smooth (demo_run_at 0).
Proof.
  split; [|done]. intros k j job Hj.
  assert (map_Forall (λ _ run, map_Forall (λ _ job, ji_cancelling job = false ∧ ji_state job = JobState.Pending) (wr_jobs run))
    (ds_runs (sy_ds (demo_run_at 0)))) as Hall.
  { apply (bool_decide_unpack _). vm_compute. exact I. }
  apply job_at_Some in Hj as (run & Hk & Hj). destruct (Hall _ _ Hk _ _ Hj) as [Hc Hs].
  split; [done|]. by rewrite Hs.
Qed.

End demo.
