(* ===== verification/Durable.v ===== *)
(** * The store follows the daemon

    The scheduler writes a job's row after every change of it, between the
    stretches that hold the locks.  While these writes are pending the store
    lags by exactly the jobs still to be written; once they are done it holds
    every run as memory does (up to [Store.shows]), so that a restart ([Recover.v])
    loses nothing.  A submission writes its run's rows one by one before the run
    is in memory, with everything else going on in between; what is said here
    takes every write to land ([Ledger.WritesLand]). *)

From S2P Require Import Prelude Spec Pool Placement Handle Model Store Dag Text Health Protocol Executor.
From S2P Require Import Ledger Shell Scheduler Qualify Tasks Server Requests System Guarantees Recover.

Section durable.
Context `{HashOrder} `{Rfc3339} `{Serde WorkflowSpec} `{Serde Allocation}.
Context {W : Type} `{DaemonEnv W} `{!StoreBacked W} `{!WritesLand W}.

(** ** Steps of a daemon that alone writes its store *)

(** A submission under way: its run, whose own row is written, and the jobs
    whose rows are not yet. *)
Record Submission := mkSubmission {
  sub_run : WorkflowRun;
  sub_todo : list JobInstance;
}.

(** A daemon with its submissions under way, and the runs whose submission was
    answered, in this life or an earlier one. *)
Record Life := mkLife {
  lf_sys : @Sys W;
  lf_subs : gmap string Submission;
  lf_answered : gset string;
}.

Definition set_world (w : W) (s : @Sys W) : @Sys W := mkSys (sy_ds s) (sy_checks s) w (sy_pc s).

Definition insert_run (run_id : string) (run : WorkflowRun) (s : @Sys W) : @Sys W :=
  mkSys (set_runs (<[run_id := run]> (ds_runs (sy_ds s))) (sy_ds s)) (sy_checks s) (sy_world s) (sy_pc s).

(** A run id is a fresh UUID. *)
Record fresh_id (run_id : string) (l : Life) : Prop := {
  fi_runs : ds_runs (sy_ds (lf_sys l)) !! run_id = None;
  fi_subs : lf_subs l !! run_id = None;
  fi_answered : run_id ∉ lf_answered l;
  fi_row : db_runs (sb_db (sy_world (lf_sys l))) !! run_id = None;
  fi_rows : ∀ j, db_jobs (sb_db (sy_world (lf_sys l))) !! (run_id, j) = None;
}.

Inductive db_step : Life → Life → Prop :=
  | db_sched c s s' subs answered : sched_step c s = Ret s' → db_step (mkLife s subs answered) (mkLife s' subs answered)
  (* [handle_submit]: validated, and the run's row; a job's row; into memory, and the answer *)
  | db_begin env counters spec s subs answered :
      let run := WorkflowRun.new (se_run_id env) (ct_run counters) spec (ct_job counters) (se_now env) in
      valid_workflow spec → first_unfit (ds_pools (sy_ds s)) (ws_jobs spec) = None →
      fresh_id (se_run_id env) (mkLife s subs answered) →
      db_step (mkLife s subs answered)
        (mkLife (set_world (upsert_run run (sy_world s)) s)
           (<[se_run_id env := mkSubmission run (hm_values (wr_jobs run))]> subs) answered)
  | db_row run_id run job todo s subs answered :
      subs !! run_id = Some (mkSubmission run (job :: todo)) →
      db_step (mkLife s subs answered)
        (mkLife (set_world (upsert_job run_id job None (sy_world s)) s)
           (<[run_id := mkSubmission run todo]> subs) answered)
  | db_insert run_id run s subs answered :
      subs !! run_id = Some (mkSubmission run []) →
      db_step (mkLife s subs answered)
        (mkLife (insert_run run_id run s) (delete run_id subs) ({[run_id]} ∪ answered))
  | db_cancel run_id run s subs answered :
      ds_runs (sy_ds s) !! run_id = Some run →
      db_step (mkLife s subs answered) (mkLife (insert_run run_id (mark_cancelling run).1 s) subs answered)
  | db_world w' s subs answered :
      sb_db w' = sb_db (sy_world s) → db_step (mkLife s subs answered) (mkLife (set_world w' s) subs answered).

(** ** What the store owes memory *)

(** The name of the node a job runs on, as the flush writes it. *)
Definition node_name (job : JobInstance) : option string :=
  e ← head (ji_executions job); nd_name <$> env_nodes !! ex_node e.

Definition stored (job : JobInstance) : JobRecord := job_record job (node_name job).

(** The row of a job just submitted. *)
Definition fresh_record : JobRecord :=
  mkJobRecord (JobState.as_str JobState.Pending) None None None None None None None.

(** A job and its row; one as it was submitted may have none, if its submission
    was cut off. *)
Definition backed (row : option JobRecord) (job : JobInstance) : Prop :=
  match row with Some row => shows row (stored job) | None => stored job = fresh_record end.

(** The rows of the runs in memory are as the jobs are, but for [lag]; those of
    other runs have ended, or their submission is under way ([subs]). *)
Record synced (subs : gset string) (lag : transitions) (runs : gmap string WorkflowRun) (db : RunStore) : Prop := {
  sn_run : ∀ k run, runs !! k = Some run → db_runs db !! k = Some (run_record run);
  sn_rows : ∀ k run j, runs !! k = Some run →
    is_Some (db_jobs db !! (k, j)) → is_Some (wr_jobs run !! j);
  sn_jobs : ∀ k j job, job_at runs k j = Some job → (k, j) ∉ lag → backed (db_jobs db !! (k, j)) job;
  sn_known : ∀ k j rec, db_jobs db !! (k, j) = Some rec → unfinished rec = true →
    is_Some (runs !! k) ∨ k ∈ subs;
}.

Definition pc_lag (p : pc) : transitions := match p with P_Flush _ to_write => to_write | _ => [] end.

(** What a run is besides its jobs. *)
Definition identity (run : WorkflowRun) : string * WorkflowSpec * DateTime :=
  (wr_workflow_name run, wr_spec run, wr_created_at run).

Lemma identity_record run run' : identity run = identity run' → run_record run = run_record run'.
Proof. unfold run_record. by intros [= -> -> ->]. Qed.

(** The runs changed, but what is stored of a job only for [names]. *)
Record rewrites (names : transitions) (runs runs' : gmap string WorkflowRun) : Prop := {
  rw_run : ∀ k, identity <$> runs !! k = identity <$> runs' !! k;
  rw_rows : ∀ k j, is_Some (job_at runs k j) ↔ is_Some (job_at runs' k j);
  rw_jobs : ∀ k j, (k, j) ∉ names → stored <$> job_at runs k j = stored <$> job_at runs' k j;
}.

Lemma rewrites_refl names runs : rewrites names runs runs.
Proof. done. Qed.

Lemma rewrites_trans names1 names2 runs1 runs2 runs3 :
  rewrites names1 runs1 runs2 → rewrites names2 runs2 runs3 →
  (∀ x, x ∈ names1 → x ∈ names2) → rewrites names2 runs1 runs3.
Proof.
  intros [R1 D1 J1] [R2 D2 J2] Hsub. split.
  - intros k. by rewrite R1.
  - intros k j. by rewrite D1.
  - intros k j Hkj. rewrite J1; [by apply J2|]. intros ?. by apply Hkj, Hsub.
Qed.

Lemma synced_rewrites subs lag names runs runs' db :
  synced subs lag runs db → rewrites names runs runs' → synced subs (lag ++ names) runs' db.
Proof.
  intros [Hr Hrows Hj Hkn] [R D J].
  assert (∀ k run', runs' !! k = Some run' → ∃ run, runs !! k = Some run ∧ run_record run = run_record run')
    as Hback.
  { intros k run' Hk. specialize (R k). rewrite Hk in R. apply fmap_Some in R as (run & Hr0 & E).
    exists run. split; [done|]. by apply identity_record. }
  split.
  - intros k run' Hk. destruct (Hback _ _ Hk) as (run & Hk0 & <-). by apply Hr.
  - intros k run' j Hk. destruct (Hback _ _ Hk) as (run & Hk0 & _).
    intros Hrow%(Hrows _ _ _ Hk0). specialize (D k j). unfold job_at in D. rewrite Hk0, Hk in D. by apply D.
  - intros k j job' Hj' [Hl Hn]%not_elem_of_app. specialize (J k j Hn). rewrite Hj' in J.
    symmetry in J. cbn in J.
    destruct (job_at runs k j) as [job|] eqn:E; [|done]. apply (inj Some) in J.
    unfold backed. rewrite J. by apply Hj.
  - intros k j rec Hrec Hu. destruct (Hkn _ _ _ Hrec Hu) as [[run Hrun]|]; [left|by right].
    specialize (R k). rewrite Hrun in R. destruct (runs' !! k); [by eexists|done].
Qed.

(** ** The phases *)

Lemma job_at_lookup (runs : gmap string WorkflowRun) k run j :
  runs !! k = Some run → job_at runs k j = wr_jobs run !! j.
Proof. intros Hk. unfold job_at. by rewrite Hk. Qed.

Lemma rewrites_update names runs k run j job job' :
  runs !! k = Some run → wr_jobs run !! j = Some job →
  (k, j) ∈ names ∨ stored job' = stored job → rewrites names runs (update_job k j run job' runs).
Proof.
  intros Hk Hj Hor. split.
  - intros k'. unfold update_job. destruct (decide (k' = k)) as [->|Hne].
    + by rewrite lookup_insert_eq, Hk.
    + by rewrite lookup_insert_ne.
  - intros k' j'. rewrite (job_at_update _ _ _ _ _ _ _ Hk). destruct (decide _) as [[= -> ->]|]; [|done].
    rewrite (job_at_lookup _ _ _ _ Hk), Hj. split; eauto.
  - intros k' j' Hn. rewrite (job_at_update _ _ _ _ _ _ _ Hk). destruct (decide _) as [[= -> ->]|]; [|done].
    rewrite (job_at_lookup _ _ _ _ Hk), Hj. cbn. f_equal. by destruct Hor as [?| ->].
Qed.

Lemma rewrites_marked f test runs :
  runs_wf runs →
  let r := values_mut (λ run, mark_jobs (f run) (job_ids (test (wr_jobs run)) run) run) runs in
  rewrites r.2 runs r.1.
Proof.
  intros Hwf r. destruct (mark_runs f test runs Hwf) as [Hlook Hnames]. fold r in Hlook, Hnames.
  assert (∀ k run j, runs !! k = Some run → job_at r.1 k j =
    (λ job, if test (wr_jobs run) job then f run j job else job) <$> wr_jobs run !! j) as Hat.
  { intros k run j Hk. unfold job_at. rewrite Hlook, Hk. cbn. rewrite map_lookup_imap.
    by destruct (wr_jobs run !! j). }
  assert (∀ k j, runs !! k = None → job_at r.1 k j = None ∧ job_at runs k j = None) as Hnone.
  { intros k j Hk. unfold job_at. by rewrite Hlook, Hk. }
  split.
  - intros k. rewrite Hlook. by destruct (runs !! k).
  - intros k j. destruct (runs !! k) as [run|] eqn:Hk.
    + rewrite (Hat _ _ _ Hk), (job_at_lookup _ _ _ _ Hk). by rewrite fmap_is_Some.
    + by destruct (Hnone k j Hk) as [-> ->].
  - intros k j Hn. destruct (runs !! k) as [run|] eqn:Hk.
    + rewrite (Hat _ _ _ Hk), (job_at_lookup _ _ _ _ Hk).
      destruct (wr_jobs run !! j) as [job|] eqn:Hj; [|done]. cbn.
      destruct (test (wr_jobs run) job) eqn:Et; [|done]. destruct Hn. apply Hnames. by exists run, job.
    + by destruct (Hnone k j Hk) as [-> ->].
Qed.

(** What a launch or a poll does not report as changed, it did not change. *)
Lemma apply_launch_kept now o pools job pools' job' :
  apply_launch now o pools job = Ret (pools', job', false) → job' = job.
Proof.
  unfold apply_launch. intros E. destruct (lo_result o) as [[]|[]];
    repeat (apply bind_Ret_inv in E as (? & _ & E)); by simplify_eq.
Qed.

Lemma apply_poll_kept now entry ds job pools' requalify' job' :
  apply_poll now entry ds job = Ret (pools', requalify', job', false) → job' = job.
Proof.
  unfold apply_poll. intros E. destruct (pe_result entry) as [[|]|[]];
    repeat (apply bind_Ret_inv in E as (? & _ & E)); by simplify_eq.
Qed.

(** Folding results over the runs rewrites the jobs it reports. *)
Lemma apply_outcome_rewrites clock o ds tw ds' tw' :
  apply_outcome clock (ds, tw) o = Ret (ds', tw') →
  rewrites tw' (ds_runs ds) (ds_runs ds') ∧ ∀ x, x ∈ tw → x ∈ tw'.
Proof.
  unfold apply_outcome. intros E.
  destruct (ds_runs ds !! lo_run_id o) as [run|] eqn:Hk.
  2: { apply bind_Ret_inv in E as (? & _ & [= <- <-]). by split. }
  destruct (wr_jobs run !! lo_job_id o) as [job|] eqn:Hj.
  2: { apply bind_Ret_inv in E as (? & _ & [= <- <-]). by split. }
  apply bind_Ret_inv in E as ([[pools' job'] written] & E & [= <- <-]). cbn. split.
  - apply (rewrites_update _ _ _ _ _ _ _ Hk Hj). destruct written.
    + left. apply elem_of_app. right. by left.
    + right. by rewrite (apply_launch_kept _ _ _ _ _ _ E).
  - intros x Hx. destruct written; [apply elem_of_app; by left|done].
Qed.

Lemma apply_entry_rewrites clock entry ds tw ds' tw' :
  apply_entry clock (ds, tw) entry = Ret (ds', tw') →
  rewrites tw' (ds_runs ds) (ds_runs ds') ∧ ∀ x, x ∈ tw → x ∈ tw'.
Proof.
  unfold apply_entry. intros E.
  destruct (ds_runs ds !! pe_run_id entry) as [run|] eqn:Hk; [|by injection E as <- <-].
  destruct (wr_jobs run !! pe_job_id entry) as [job|] eqn:Hj; [|by injection E as <- <-].
  apply bind_Ret_inv in E as ([[[pools' requalify'] job'] written] & E & [= <- <-]). cbn. split.
  - apply (rewrites_update _ _ _ _ _ _ _ Hk Hj). destruct written.
    + left. apply elem_of_app. right. by left.
    + right. by rewrite (apply_poll_kept _ _ _ _ _ _ _ E).
  - intros x Hx. destruct written; [apply elem_of_app; by left|done].
Qed.

Lemma fold_rewrites {A} (f : DaemonState * transitions → A → exec (DaemonState * transitions)) l ds tw ds' tw' :
  (∀ a ds tw ds' tw', f (ds, tw) a = Ret (ds', tw') →
     rewrites tw' (ds_runs ds) (ds_runs ds') ∧ ∀ x, x ∈ tw → x ∈ tw') →
  foldM f (ds, tw) l = Ret (ds', tw') →
  rewrites tw' (ds_runs ds) (ds_runs ds') ∧ ∀ x, x ∈ tw → x ∈ tw'.
Proof.
  intros Hf. revert ds tw. induction l as [|a l IH]; intros ds tw E.
  { injection E as <- <-. by split. }
  cbn [foldM] in E. apply bind_Ret_inv in E as ([ds1 tw1] & E1 & E2).
  destruct (Hf _ _ _ _ _ E1) as [R1 S1]. destruct (IH _ _ E2) as [R2 S2].
  split; [by eapply rewrites_trans|auto].
Qed.

(** ** Writing one row *)

Lemma synced_write subs lag runs k run j job db :
  runs_wf runs → runs !! k = Some run → wr_jobs run !! j = Some job → synced subs ((k, j) :: lag) runs db →
  synced subs lag runs (upsert_job_row k job (node_name job) db).
Proof.
  intros Hwf Hk Hjob [Hr Hrows Hj Hkn]. unfold upsert_job_row.
  rewrite (proj2 (Hwf _ _ Hk) _ _ Hjob). change (job_record job (node_name job)) with (stored job).
  split; cbn.
  - done.
  - intros k' run' j' Hk'. destruct (decide ((k', j') = (k, j))) as [[= -> ->]|Hne].
    + simplify_eq. rewrite Hjob. by eexists.
    + rewrite lookup_insert_ne by congruence. by apply Hrows.
  - intros k' j' job' Hjob' Hl. destruct (decide ((k', j') = (k, j))) as [[= -> ->]|Hne].
    + rewrite lookup_insert_eq. rewrite (job_at_lookup _ _ _ _ Hk), Hjob in Hjob'. injection Hjob' as <-.
      by left.
    + rewrite lookup_insert_ne by congruence. apply Hj; [done|]. by apply not_elem_of_cons.
  - intros k' j' rec [[[= <- <-] _]|[_ Hrec]]%lookup_insert_Some; [left; by exists run|by eapply Hkn].
Qed.

(** A job that is gone owes nothing. *)
Lemma synced_gone subs lag runs k j db :
  job_at runs k j = None → synced subs ((k, j) :: lag) runs db → synced subs lag runs db.
Proof.
  intros Hno [Hr Hrows Hj Hkn]. split; [done|done| |done]. intros k' j' job Hjob Hl.
  apply Hj; [done|]. apply not_elem_of_cons. split; [|done]. intros [= -> ->]. congruence.
Qed.

Lemma flush_one_db raw runs w k j w' :
  flush_one raw runs w (k, j) = Ret w' →
  (job_at runs k j = None ∧ w' = w) ∨
  ∃ run job, runs !! k = Some run ∧ wr_jobs run !! j = Some job ∧
    sb_db w' = upsert_job_row k job (node_name job) (sb_db w).
Proof.
  unfold flush_one, job_at. cbn [fst snd]. destruct (runs !! k) as [run|] eqn:Hk; [|intros [= <-]; by left].
  cbn. destruct (wr_jobs run !! j) as [job|] eqn:Hjob; [|intros [= <-]; by left].
  intros (node & E & [= <-])%bind_Ret_inv. right. exists run, job. split_and!; [done..|].
  assert (node = node_name job) as ->; [|by rewrite sb_send, sb_upsert_job].
  unfold node_name. destruct (head (ji_executions job)) as [e|]; [|by injection E as <-].
  apply bind_Ret_inv in E as (n & Hn%index_Ret & [= <-]). cbn. by rewrite Hn.
Qed.

Lemma synced_flush_one raw subs lag runs w rj w' :
  runs_wf runs → synced subs (rj :: lag) runs (sb_db w) → flush_one raw runs w rj = Ret w' →
  synced subs lag runs (sb_db w').
Proof.
  destruct rj as [k j]. intros Hwf Hs [[Hno ->]|(run & job & Hk & Hj & ->)]%flush_one_db.
  - by eapply synced_gone.
  - by eapply synced_write.
Qed.

(** ** What the stretches do to the store: nothing, but for the flush *)

Lemma node_at_elem n node : node_at n = Ret node → node ∈ env_nodes.
Proof. intros Hn%index_Ret. by eapply list_elem_of_lookup_2. Qed.

Lemma launch_task_db task w r : launch_task task w = Ret r → sb_db r.2 = sb_db w.
Proof.
  unfold launch_task. intros ([[executions result] w'] & E & [= <-])%bind_Ret_inv. cbn.
  cut (∀ l acc acc', foldM (launch_member task) acc l = Ret acc' → sb_db acc'.2 = sb_db acc.2).
  { intros Hfold. by apply (Hfold _ _ _ E). }
  clear. induction l as [|na l IH]; intros acc acc' E; [by injection E as <-|].
  cbn [foldM] in E. apply bind_Ret_inv in E as (acc1 & E1 & E2). rewrite (IH _ _ E2). clear IH E2.
  unfold launch_member in E1. destruct acc as [[executions result] w].
  apply bind_Ret_inv in E1 as (node & Hn%node_at_elem & E1).
  pose proof (sb_launch node (at_run_id task) (at_job_instance task) na.2 w Hn) as Hdb.
  destruct (launch _ _ _ _ _) as [[handle|error] w1]; by injection E1 as <-.
Qed.

Lemma poll_job_db job w r : poll_job job w = Ret r → sb_db r.2 = sb_db w.
Proof.
  unfold poll_job. intros (node & Hn%node_at_elem & E)%bind_Ret_inv.
  pose proof (sb_poll node (rj_handle job) w Hn) as Hdb.
  destruct (poll _ _ _) as [result w1]. cbn in Hdb.
  pose proof (sb_tail node (rj_run_id job) (rj_job_id job) REASON_TAIL_BYTES w1 Hn) as Hdb2.
  destruct result as [[|code]|error]; [by injection E as <-| |by injection E as <-].
  destruct (negb (code =? 0)%Z && negb (rj_cancelling job)); [|by injection E as <-].
  destruct (tail _ _ _ _ _) as [text w2]. injection E as <-. cbn in *. congruence.
Qed.

Lemma finish_one_db now q w r : finish_one now q w = Ret r → sb_db r.2 = sb_db w.
Proof.
  unfold finish_one. intros (node & Hn%node_at_elem & E)%bind_Ret_inv.
  pose proof (sb_poll node (qf_handle q) w Hn) as Hdb.
  destruct (poll _ _ _) as [result w1]. cbn in Hdb.
  destruct result as [[|code]|[]]; try (by injection E as <-).
  destruct (_ <? _); [|by injection E as <-].
  pose proof (sb_cancel node (qf_handle q) w1 Hn) as Hdb2.
  destruct (cancel _ _ _) as [? w2]. cbn in Hdb2.
  match type of E with context [nd_request node ?req w2] =>
    pose proof (sb_request node req w2 Hn) as Hdb3 end.
  destruct (nd_request _ _ _) as [? w3]. injection E as <-. cbn in *. congruence.
Qed.

Lemma qualify_one_db now started uuid tq pools checks w r :
  qualify_one now started uuid tq pools checks w = Ret r → sb_db r.2 = sb_db w.
Proof.
  unfold qualify_one, start_qualification. intros ([handle w1] & E1 & E2)%bind_Ret_inv.
  apply bind_Ret_inv in E1 as (node & Hn%node_at_elem & E1).
  match type of E1 with context [launch _ ?r ?j ?a w] => pose proof (sb_launch node r j a w Hn) as Hdb end.
  destruct (launch _ _ _ _ _) as [result w2]. injection E1 as <- <-.
  destruct (result_ok result) as [h|]; [by injection E2 as <-|].
  by apply bind_Ret_inv in E2 as (? & _ & [= <-]).
Qed.

Definition sys_synced (subs : gset string) (s : Sys) : Prop :=
  synced subs (pc_lag (sy_pc s)) (ds_runs (sy_ds s)) (sb_db (sy_world s)).

(** A stretch writes the row at the head of the lag, or leaves the store alone
    and owes it the rows of the jobs it changed. *)
Lemma sched_writes c s s' :
  runs_wf (ds_runs (sy_ds s)) → sched_step c s = Ret s' →
  (∃ rj, pc_lag (sy_pc s) = rj :: pc_lag (sy_pc s') ∧ sy_ds s' = sy_ds s ∧
     flush_one (ch_raw c) (ds_runs (sy_ds s)) (sy_world s) rj = Ret (sy_world s')) ∨
  (pc_lag (sy_pc s) = [] ∧ sb_db (sy_world s') = sb_db (sy_world s) ∧
     rewrites (pc_lag (sy_pc s')) (ds_runs (sy_ds s)) (ds_runs (sy_ds s'))).
Proof.
  intros Hwf E. unfold sched_step in E.
  destruct (sy_pc s) as [[|q todo] polled|readings|[|tq l]| | | |[|t tasks] outcomes| |[|j jobs] entries|phase [|rj tw]] eqn:Hpc.
  - apply bind_Ret_inv in E as (pools & _ & [= <-]). by right.
  - apply bind_Ret_inv in E as (r & Hdb%finish_one_db & [= <-]). by right.
  - destruct (env_nodes !! _); [injection E as <-; by right|].
    apply bind_Ret_inv in E as ([[ds' checks'] l] & Hc & [= <-]).
    apply bind_Ret_inv in Hc as (? & _ & [= <- _ _]). by right.
  - injection E as <-. by right.
  - apply bind_Ret_inv in E as ([[pools checks'] w'] & Hdb%qualify_one_db & [= <-]). by right.
  - pose proof (rewrites_marked (λ _ _, JobInstance.set_state JobState.Queued) ready _ Hwf) as Hr.
    rewrite <-(queue_ready_mark (ds_runs (sy_ds s))) in Hr. cbn zeta in Hr.
    destruct (queue_ready (ds_runs (sy_ds s))) as [runs' tw]. injection E as <-. by right.
  - pose proof (rewrites_marked (λ run j, skip_job (ch_utc c (wr_run_id run) j)) doomed _ Hwf) as Hr.
    rewrite <-(skip_doomed_mark (ch_utc c) (ds_runs (sy_ds s))) in Hr. cbn zeta in Hr.
    destruct (skip_doomed _ (ds_runs (sy_ds s))) as [runs' tw]. injection E as <-. by right.
  - apply bind_Ret_inv in E as ([pools tasks] & _ & [= <-]). by right.
  - apply bind_Ret_inv in E as ([ds' tw] & E & [= <-]).
    apply (fold_rewrites _ _ _ _ _ _ (apply_outcome_rewrites _)) in E as [Hr _]. by right.
  - apply bind_Ret_inv in E as (r & Hdb%launch_task_db & [= <-]). by right.
  - injection E as <-. by right.
  - apply bind_Ret_inv in E as ([ds' tw] & E & [= <-]).
    apply (fold_rewrites _ _ _ _ _ _ (apply_entry_rewrites _)) in E as [Hr _]. by right.
  - apply bind_Ret_inv in E as (r & Hdb%poll_job_db & [= <-]). by right.
  - right. injection E as <-. destruct phase as [|[|[|phase]]]; [done..|]. by destruct (ch_due c).
  - apply bind_Ret_inv in E as (w' & E & [= <-]). left. by exists rj.
Qed.

(** Every stretch of the scheduler: the store follows. *)
Lemma sched_synced c s s' subs :
  runs_wf (ds_runs (sy_ds s)) → sched_step c s = Ret s' → sys_synced subs s → sys_synced subs s'.
Proof.
  unfold sys_synced. intros Hwf E Hs.
  destruct (sched_writes _ _ _ Hwf E) as [(rj & Hlag & -> & Hf)|(Hlag & -> & Hr)]; rewrite Hlag in Hs.
  - by eapply synced_flush_one.
  - by eapply (synced_rewrites _ []).
Qed.

(** ** A submission, row by row *)

(** A submission under way: a run not yet in memory, with its row and those of
    its jobs that are not still to be written. *)
Record aloft (runs : gmap string WorkflowRun) (db : RunStore) (k : string) (sub : Submission) : Prop := {
  al_fresh : runs !! k = None;
  al_new : ∃ run_seq spec start now, valid_workflow spec ∧ sub_run sub = WorkflowRun.new k run_seq spec start now;
  al_row : db_runs db !! k = Some (run_record (sub_run sub));
  al_rows : ∀ j row, db_jobs db !! (k, j) = Some row → row = fresh_record ∧ is_Some (wr_jobs (sub_run sub) !! j);
  al_todo : ∀ j, is_Some (wr_jobs (sub_run sub) !! j) →
    is_Some (db_jobs db !! (k, j)) ∨ j ∈ ji_job_id <$> sub_todo sub;
  al_jobs : ∀ job, job ∈ sub_todo sub → wr_jobs (sub_run sub) !! ji_job_id job = Some job;
}.

(** The jobs of a run as it is submitted. *)
Lemma new_job k run_seq spec start now j job :
  wr_jobs (WorkflowRun.new k run_seq spec start now) !! j = Some job →
  ji_job_id job = j ∧ job_record job None = fresh_record ∧ stored job = fresh_record.
Proof. by intros (i & js & _ & -> & ->)%jobs_of_lookup. Qed.

Lemma aloft_job runs db k sub j job :
  aloft runs db k sub → wr_jobs (sub_run sub) !! j = Some job →
  ji_job_id job = j ∧ job_record job None = fresh_record ∧ stored job = fresh_record.
Proof. intros [_ (? & ? & ? & ? & _ & ->) _ _ _ _]. apply new_job. Qed.

(** What it is is its own rows' business. *)
Lemma aloft_frame runs runs' db db' k sub :
  aloft runs db k sub → runs' !! k = None → db_runs db' !! k = db_runs db !! k →
  (∀ j, db_jobs db' !! (k, j) = db_jobs db !! (k, j)) → aloft runs' db' k sub.
Proof.
  intros [_ Hn Hr Hrows Ht Hj] Hk Er Ej.
  split; [done|done|by rewrite Er| | |done]; intros j; rewrite Ej; [apply Hrows|apply Ht].
Qed.

Lemma aloft_begin runs db run_id run_seq spec start now :
  let run := WorkflowRun.new run_id run_seq spec start now in
  valid_workflow spec → runs !! run_id = None → (∀ j, db_jobs db !! (run_id, j) = None) →
  aloft runs (upsert_run_row run db) run_id (mkSubmission run (hm_values (wr_jobs run))).
Proof.
  intros run Hv Hk Hnone. split; cbn -[WorkflowRun.new]; [done|eauto 10|by rewrite lookup_insert_eq| | |].
  - intros j row. by rewrite Hnone.
  - intros j [job Hj]. right. apply list_elem_of_fmap. exists job. split; [by apply new_job in Hj as [-> _]|].
    apply elem_of_hm_values. by exists j.
  - intros job [j Hj]%elem_of_hm_values. pose proof Hj as [Hid _]%new_job. by rewrite Hid.
Qed.

Lemma aloft_row runs db k run job todo :
  aloft runs db k (mkSubmission run (job :: todo)) →
  aloft runs (upsert_job_row k job None db) k (mkSubmission run todo).
Proof.
  intros Ha. pose proof (aloft_job _ _ _ _ _ _ Ha (al_jobs _ _ _ _ Ha job ltac:(by left))) as (_ & Hrec & _).
  destruct Ha as [Hk Hn Hr Hrows Ht Hj]. cbn in *. split; cbn; [done..| | |].
  - intros j row [[[= <-] <-]|[_ Hrow]]%lookup_insert_Some; [|by apply Hrows].
    split; [done|]. eexists. apply Hj. by left.
  - intros j Hjob. destruct (decide (j = ji_job_id job)) as [->|Hne]; [left; rewrite lookup_insert_eq; by eexists|].
    rewrite lookup_insert_ne by congruence.
    destruct (Ht j Hjob) as [?|[?|?]%elem_of_cons]; [by left|done|by right].
  - intros job' Hin. apply Hj. by right.
Qed.

(** What the runs in memory owe the store is not touched until the run is one
    of them. *)
Lemma synced_begin subs lag runs db run :
  runs !! wr_run_id run = None → synced subs lag runs db →
  synced ({[wr_run_id run]} ∪ subs) lag runs (upsert_run_row run db).
Proof.
  intros Hno [Hr Hrows Hj Hkn]. split; cbn; [|done|done|].
  - intros k run' Hk. rewrite lookup_insert_ne; [by apply Hr|]. intros <-. congruence.
  - intros k j rec Hrec Hu. destruct (Hkn _ _ _ Hrec Hu); [by left|right; set_solver].
Qed.

Lemma synced_row subs lag runs db k job node :
  runs !! k = None → k ∈ subs → synced subs lag runs db → synced subs lag runs (upsert_job_row k job node db).
Proof.
  intros Hno Hin [Hr Hrows Hj Hkn].
  assert (∀ k' j, k' ≠ k → db_jobs (upsert_job_row k job node db) !! (k', j) = db_jobs db !! (k', j)) as Hother.
  { intros k' j Hne. cbn. rewrite lookup_insert_ne; congruence. }
  assert (∀ k', is_Some (runs !! k') → k' ≠ k) as Hne by (intros k' [? ?] ->; congruence).
  split; [done| | |].
  - intros k' run' j Hk. rewrite Hother by (apply Hne; by eexists). by apply Hrows.
  - intros k' j job' Hjob Hl. rewrite Hother; [by apply Hj|]. apply job_at_Some in Hjob as (? & ? & _).
    apply Hne. by eexists.
  - intros k' j rec Hrec Hu. destruct (decide (k' = k)) as [->|Hk]; [by right|].
    rewrite Hother in Hrec by done. by eapply Hkn.
Qed.

Lemma synced_insert subs lag runs db k sub :
  aloft runs db k sub → synced subs lag runs db →
  synced (subs ∖ {[k]}) lag (<[k := sub_run sub]> runs) db.
Proof.
  intros Ha [Hr Hrows Hj Hkn]. split.
  - intros k' run'. intros [[<- <-]|[Hne Hk]]%lookup_insert_Some; [apply Ha|by apply Hr].
  - intros k' run' j. intros [[<- <-]|[Hne Hk]]%lookup_insert_Some; [|by apply Hrows].
    intros [row Hrow]. by apply (al_rows _ _ _ _ Ha) in Hrow as [_ ?].
  - intros k' j job. rewrite job_at_insert. case_decide as Hd; [|by apply Hj]. subst k'.
    intros Hjob _. destruct (aloft_job _ _ _ _ _ _ Ha Hjob) as (_ & _ & Hst). unfold backed. rewrite Hst.
    destruct (db_jobs db !! (k, j)) as [row|] eqn:E; [|done].
    apply (al_rows _ _ _ _ Ha) in E as [-> _]. by left.
  - intros k' j rec Hrec Hu. destruct (decide (k' = k)) as [->|Hne]; [left; rewrite lookup_insert_eq; eauto|].
    rewrite lookup_insert_ne by done. destruct (Hkn _ _ _ Hrec Hu); [by left|right; set_solver].
Qed.

(** ** Reachable states *)

Record db_inv (l : Life) : Prop := {
  di_daemon : daemon_inv (lf_sys l);
  di_synced : sys_synced (dom (lf_subs l)) (lf_sys l);
  di_aloft : ∀ k sub, lf_subs l !! k = Some sub →
    aloft (ds_runs (sy_ds (lf_sys l))) (sb_db (sy_world (lf_sys l))) k sub;
  (* a run whose submission was answered has all its rows *)
  di_whole : ∀ k run j, k ∈ lf_answered l → ds_runs (sy_ds (lf_sys l)) !! k = Some run →
    is_Some (wr_jobs run !! j) → is_Some (db_jobs (sb_db (sy_world (lf_sys l))) !! (k, j));
  di_apart : ∀ k, k ∈ lf_answered l → lf_subs l !! k = None;
}.

Lemma cancel_rewrites runs k run :
  runs !! k = Some run → rewrites [] runs (<[k := (mark_cancelling run).1]> runs).
Proof.
  intros Hk. rewrite mark_cancelling_jobs.
  assert (∀ job, stored (cancel_job job).1 = stored job) as Hsame.
  { intros job. unfold cancel_job. by destruct (is_running (ji_state job)). }
  split.
  - intros k'. destruct (decide (k' = k)) as [->|Hne]; [by rewrite lookup_insert_eq, Hk|by rewrite lookup_insert_ne].
  - intros k' j. unfold job_at. destruct (decide (k' = k)) as [->|Hne]; [|by rewrite lookup_insert_ne].
    rewrite lookup_insert_eq, Hk. cbn. by rewrite lookup_fmap, fmap_is_Some.
  - intros k' j _. unfold job_at. destruct (decide (k' = k)) as [->|Hne]; [|by rewrite lookup_insert_ne].
    rewrite lookup_insert_eq, Hk. cbn. rewrite lookup_fmap. destruct (wr_jobs run !! j) as [job|]; [|done].
    cbn. by rewrite Hsame.
Qed.

(** The scheduler's stretches touch no run but those in memory, and take no row
    away. *)
Lemma sched_rows c s s' :
  runs_wf (ds_runs (sy_ds s)) → sched_step c s = Ret s' →
  (∀ k, is_Some (ds_runs (sy_ds s') !! k) ↔ is_Some (ds_runs (sy_ds s) !! k)) ∧
  (∀ k j, is_Some (job_at (ds_runs (sy_ds s')) k j) ↔ is_Some (job_at (ds_runs (sy_ds s)) k j)) ∧
  db_runs (sb_db (sy_world s')) = db_runs (sb_db (sy_world s)) ∧
  (∀ k j, ds_runs (sy_ds s) !! k = None →
     db_jobs (sb_db (sy_world s')) !! (k, j) = db_jobs (sb_db (sy_world s)) !! (k, j)) ∧
  ∀ x, is_Some (db_jobs (sb_db (sy_world s)) !! x) → is_Some (db_jobs (sb_db (sy_world s')) !! x).
Proof.
  intros Hwf E. destruct (sched_writes _ _ _ Hwf E) as [([k j] & _ & -> & Hf)|(_ & -> & [Hr Hrows _])].
  - apply flush_one_db in Hf as [[_ ->]|(run & job & Hk & _ & ->)]; [done|]. split_and!; [done..| |].
    + intros k' j' Hno. cbn. rewrite lookup_insert_ne; congruence.
    + intros x Hx. cbn. apply lookup_insert_is_Some'. by right.
  - split_and!; [|done..]. intros k. specialize (Hr k).
    destruct (ds_runs (sy_ds s') !! k), (ds_runs (sy_ds s) !! k); try done; split; intros [? ?]; by eexists.
Qed.

Lemma new_run_inv s k run_seq spec start now :
  daemon_inv s → ds_runs (sy_ds s) !! k = None → valid_workflow spec →
  daemon_inv (insert_run k (WorkflowRun.new k run_seq spec start now) s).
Proof.
  intros [Hinv Hspecs] Hk Hv. split; cbn -[WorkflowRun.new].
  - apply (submit_inv s k _ Hinv Hk); [done|]. by intros j job (i & js & _ & -> & ->)%jobs_of_lookup.
  - intros k' run' [[<- <-]|[_ Hk']]%lookup_insert_Some; [|by apply (Hspecs k')].
    by apply (run_of_spec_new (mkSubmitEnv (λ _, Ok spec) k now) (mkCounters run_seq start)).
Qed.

Lemma set_world_inv w' s : daemon_inv s → daemon_inv (set_world w' s).
Proof. intros Hd. by apply (step_inv s); [apply step_world|]. Qed.

Lemma db_step_inv l l' : db_step l l' → db_inv l → db_inv l'.
Proof.
  intros Hstep [Hd Hs Ha Hw Hap].
  destruct Hstep as [c s s' subs answered E|env counters spec s subs answered run Hv Hfit Hfresh
    |k run job todo s subs answered Hsub|k run s subs answered Hsub|k run s subs answered Hk|w' s subs answered Hdb]; cbn -[mark_cancelling] in *.
  - destruct (sched_rows _ _ _ (si_runs _ (proj1 Hd)) E) as (Hruns & Hjobs & Hdr & Hdj & Hkeep). split; cbn.
    + by apply (step_inv s); [apply (step_sched c)|].
    + by eapply sched_synced; [apply Hd|..].
    + intros k sub Hk. specialize (Ha _ _ Hk).
      assert (ds_runs (sy_ds s) !! k = None) as Hno by apply Ha.
      apply (aloft_frame (ds_runs (sy_ds s)) _ (sb_db (sy_world s))); [done| |by rewrite Hdr|by intros; apply Hdj].
      apply eq_None_not_Some. rewrite Hruns, Hno. by intros [? ?].
    + intros k run j Hin Hk Hj. apply Hkeep.
      destruct (proj1 (Hjobs k j)) as [job Hjob]; [by rewrite (job_at_lookup _ _ _ _ Hk)|].
      apply job_at_Some in Hjob as (run0 & Hk0 & Hj0). eapply Hw; [done|exact Hk0|by eexists].
    + exact Hap.
  - destruct Hfresh as [Hno Hsub Hans Hrow Hrows]. cbn in *. split; cbn.
    + by apply set_world_inv.
    + rewrite dom_insert_L. unfold sys_synced. cbn. rewrite sb_upsert_run.
      by apply (synced_begin _ _ _ _ run).
    + rewrite sb_upsert_run. intros k sub [[<- <-]|[Hne Hk]]%lookup_insert_Some; [by apply aloft_begin|].
      apply (aloft_frame (ds_runs (sy_ds s)) _ (sb_db (sy_world s))); [by apply Ha|by apply (Ha k sub)| |done].
      cbn. by rewrite lookup_insert_ne.
    + rewrite sb_upsert_run. exact Hw.
    + intros k Hk. rewrite lookup_insert_ne by (intros <-; done). by apply Hap.
  - pose proof (Ha _ _ Hsub) as Hk. split; cbn.
    + by apply set_world_inv.
    + rewrite dom_insert_L. unfold sys_synced. cbn. rewrite sb_upsert_job.
      replace ({[k]} ∪ dom subs) with (dom subs) by (apply elem_of_dom_2 in Hsub; set_solver).
      apply synced_row; [apply Hk|by apply elem_of_dom_2 in Hsub|done].
    + rewrite sb_upsert_job. intros k' sub [[<- <-]|[Hne Hk']]%lookup_insert_Some; [by apply aloft_row|].
      apply (aloft_frame (ds_runs (sy_ds s)) _ (sb_db (sy_world s))); [by apply Ha|by apply (Ha k' sub)|done|].
      intros j. cbn. rewrite lookup_insert_ne; congruence.
    + rewrite sb_upsert_job. intros k' run' j Hin Hk' Hj. cbn. apply lookup_insert_is_Some'. right. by eapply Hw.
    + intros k' Hk'. rewrite lookup_insert_ne; [by apply Hap|]. intros <-. specialize (Hap _ Hk'). congruence.
  - pose proof (Ha _ _ Hsub) as Hk. split; cbn.
    + destruct (al_new _ _ _ _ Hk) as (? & ? & ? & ? & Hv & E). cbn in E. rewrite E.
      apply new_run_inv; [done|apply Hk|done].
    + rewrite dom_delete_L. unfold sys_synced. cbn. by apply (synced_insert _ _ _ _ k (mkSubmission run [])).
    + intros k' sub [Hne Hk']%lookup_delete_Some.
      apply (aloft_frame (ds_runs (sy_ds s)) _ (sb_db (sy_world s))); [by apply Ha| |done..].
      rewrite lookup_insert_ne by done. by apply (Ha k' sub).
    + intros k' run' j Hin [[<- <-]|[Hne Hk']]%lookup_insert_Some Hj.
      * destruct (al_todo _ _ _ _ Hk j Hj) as [?|Hf]; [done|]. by apply elem_of_nil in Hf.
      * eapply Hw; [set_solver|done|done].
    + intros k' [->%elem_of_singleton|Hk']%elem_of_union; [apply lookup_delete_eq|].
      apply lookup_delete_None. right. by apply Hap.
  - split; cbn -[mark_cancelling].
    + by apply (step_inv s); [by apply step_cancel|].
    + unfold sys_synced. cbn. rewrite <-(app_nil_r (pc_lag _)).
      eapply synced_rewrites; [exact Hs|]. by apply cancel_rewrites.
    + intros k' sub Hk'. apply (aloft_frame (ds_runs (sy_ds s)) _ (sb_db (sy_world s))); [by apply Ha| |done..].
      pose proof (al_fresh _ _ _ _ (Ha _ _ Hk')). rewrite lookup_insert_ne; congruence.
    + intros k' run' j Hin [[<- <-]|[Hne Hk']]%lookup_insert_Some Hj; [|by eapply Hw].
      eapply Hw; [done|exact Hk|]. rewrite mark_cancelling_jobs in Hj. cbn in Hj. by rewrite lookup_fmap, fmap_is_Some in Hj.
    + exact Hap.
  - split; cbn; rewrite ?Hdb; [by apply set_world_inv| |done..]. unfold sys_synced. cbn. by rewrite Hdb.
Qed.

(** Every stored job has ended. *)
Definition all_ended (db : RunStore) : Prop :=
  ∀ k j rec, db_jobs db !! (k, j) = Some rec → unfinished rec = false.

Lemma initial_db_inv machines w :
  can_start machines → all_ended (sb_db w) → db_inv (mkLife (initial machines w) ∅ ∅).
Proof.
  intros Hstart Hended. split; [by apply initial_inv| |done..]. split; [done|done|by intros k j job Hj|].
  intros k j rec Hrec Hu. by rewrite (Hended _ _ _ Hrec) in Hu.
Qed.

(** A run and the rows it is taken back from. *)
Record kept (run : WorkflowRun) (db : RunStore) : Prop := {
  kp_run : db_runs db !! wr_run_id run = Some (run_record run);
  kp_rows : ∀ j, is_Some (db_jobs db !! (wr_run_id run, j)) → is_Some (wr_jobs run !! j);
  kp_jobs : ∀ j job, wr_jobs run !! j = Some job → backed (db_jobs db !! (wr_run_id run, j)) job;
}.

(** Written back, a run is stored. *)
Lemma synced_kept subs runs db k run :
  runs_wf runs → synced subs [] runs db → runs !! k = Some run → kept run db.
Proof.
  intros Hwf [Hr Hrows Hj _] Hk. destruct (Hwf _ _ Hk) as [<- _]. split; [by apply Hr|by intros j; apply Hrows|].
  intros j job Hjob. apply Hj; [by rewrite (job_at_lookup _ _ _ _ Hk)|by apply not_elem_of_nil].
Qed.

(** A run in memory is what the recovery's theorem asks for. *)
Lemma reached_well_made runs k run :
  runs_wf runs → jobs_ok runs → runs_of_specs runs → runs !! k = Some run →
  (∀ j job code, wr_jobs run !! j = Some job → ji_exit_code job = Some code → (- 2 ^ 31 ≤ code < 2 ^ 31)%Z) →
  well_made run.
Proof.
  intros Hruns Hok Hspecs Hk Hcodes. destruct (Hspecs _ _ Hk) as (Hv & Hname & Hjobs & Hids).
  destruct (Hruns _ _ Hk) as [_ Hwf]. split.
  - done.
  - apply Hv.
  - intros j job Hj. destruct (Hjobs _ _ Hj) as [Hin Hid]. split_and!; [by apply Hwf|done|done].
  - intros spec Hin. by apply Hids, list_elem_of_fmap_2.
  - intros j job Hj Hs Hex. destruct (Hok k j job) as [[_ Hrun _] _]; [apply job_at_Some; eauto|].
    destruct (Hrun Hs) as (e & E & _). by rewrite E in Hex.
  - done.
Qed.

End durable.
