(* ===== verification/Snapshot.v ===== *)
(** * What a crash leaves

    The store always holds the runs of some snapshot: those in memory, or, while
    the scheduler has rows still to write, those of a moment in between, where
    each job is as it is in memory or, its row pending, as it was one move
    before.  A snapshot satisfies on its own what the daemon keeps of its runs,
    so that a restart may begin from it whenever the crash came.  A submission
    not yet in memory is one more run of it, each of its jobs as submitted,
    with its row or without. *)

From S2P Require Import Prelude Spec Pool Placement Handle Model Store Dag Text Health Protocol Executor.
From S2P Require Import Ledger Shell Scheduler Qualify Tasks Server Requests System Guarantees Recover Durable.

Section snapshot.
Context `{HashOrder} `{Rfc3339} `{Serde WorkflowSpec} `{Serde Allocation}.
Context {W : Type} `{DaemonEnv W} `{!StoreBacked W} `{!WritesLand W}.

Implicit Types (run : WorkflowRun) (job : JobInstance) (db : RunStore) (runs : gmap string WorkflowRun).

(** Exit codes are those of processes. *)
Definition code_fits job : Prop :=
  ∀ code, ji_exit_code job = Some code → (- 2 ^ 31 ≤ code < 2 ^ 31)%Z.

Definition codes_fit runs : Prop :=
  ∀ k j job, job_at runs k j = Some job → code_fits job.

(** [runs] is what [db] holds, but for the submissions under way. *)
Record snapshot (subs : gset string) runs db : Prop := {
  sp_wf : runs_wf runs;
  sp_jobs : jobs_ok runs;
  sp_specs : runs_of_specs runs;
  sp_codes : codes_fit runs;
  sp_synced : synced subs [] runs db;
}.

(** Memory is ahead of the recorded runs by one move of the jobs in [lag]. *)
Record ahead (lag : transitions) (recorded runs : gmap string WorkflowRun) : Prop := {
  ah_progress : progress recorded runs;
  ah_rewrites : rewrites lag recorded runs;
}.

(** The daemon's invariant with a snapshot of its store. *)
Record durable (l : Life) : Prop := {
  du_inv : db_inv l;
  du_codes : codes_fit (ds_runs (sy_ds (lf_sys l)));
  du_snapshot : ∃ recorded, snapshot (dom (lf_subs l)) recorded (sb_db (sy_world (lf_sys l))) ∧
    ahead (pc_lag (sy_pc (lf_sys l))) recorded (ds_runs (sy_ds (lf_sys l)));
}.

(** With nothing pending, the snapshot is memory. *)
Lemma memory_snapshot l :
  db_inv l → codes_fit (ds_runs (sy_ds (lf_sys l))) → pc_lag (sy_pc (lf_sys l)) = [] →
  snapshot (dom (lf_subs l)) (ds_runs (sy_ds (lf_sys l))) (sb_db (sy_world (lf_sys l))).
Proof.
  intros [[Hinv Hspecs] Hs _ _ _] Hcodes Hlag. unfold sys_synced in Hs. rewrite Hlag in Hs.
  by split; [apply Hinv..| | |].
Qed.

Lemma ahead_refl lag runs : jobs_ok runs → ahead lag runs runs.
Proof. intros Hok. split; [by apply progress_refl|apply rewrites_refl]. Qed.

Lemma durable_quiet l :
  db_inv l → codes_fit (ds_runs (sy_ds (lf_sys l))) → pc_lag (sy_pc (lf_sys l)) = [] → durable l.
Proof.
  intros Hinv Hcodes Hlag. split; [done..|]. eexists.
  split; [by apply memory_snapshot|]. apply ahead_refl. apply (si_jobs _ (proj1 (di_daemon _ Hinv))).
Qed.

(** Memory and its snapshot have the same runs. *)
Lemma ahead_none lag recorded runs k : ahead lag recorded runs → runs !! k = None → recorded !! k = None.
Proof.
  intros [[Hadv _] _] Hk. pose proof (adv_run _ _ Hadv k) as Hrun. rewrite Hk in Hrun. by inversion Hrun.
Qed.

(** ** A row is written *)

Lemma ahead_write lag recorded runs k j job recorded_run recorded_job :
  recorded !! k = Some recorded_run → wr_jobs recorded_run !! j = Some recorded_job →
  job_at runs k j = Some job → ahead ((k, j) :: lag) recorded runs →
  ahead lag (update_job k j recorded_run job recorded) runs.
Proof.
  intros Hk Hj Hjob [[Hadv Hfore] Hrw].
  destruct (adv_fwd _ _ Hadv k j recorded_job) as (job2 & Hjob2 & Hm); [apply job_at_Some; eauto|].
  rewrite Hjob in Hjob2. injection Hjob2 as <-.
  pose proof (advances_update _ _ _ _ _ _ Hk Hj Hm) as Hup.
  split; [split; [split|]|split].
  - intros k' j' job0. rewrite (job_at_update _ _ _ _ _ _ _ Hk).
    destruct (decide _) as [[= -> ->]|_]; [|apply Hadv]. intros [= <-]. exists job. split; [done|by left].
  - intros k' j' job0 Hjob0. rewrite (job_at_update _ _ _ _ _ _ _ Hk).
    destruct (decide _) as [_|_]; [by eexists|by eapply Hadv].
  - intros k'. pose proof (adv_run _ _ Hadv k') as Hrun. unfold update_job.
    destruct (decide (k' = k)) as [->|Hne]; [|by rewrite lookup_insert_ne].
    rewrite lookup_insert_eq. rewrite Hk in Hrun. inversion Hrun; subst. by constructor.
  - intros k' j' job0 Hjob0. eapply justified_advances; [exact Hup|by eapply Hfore].
  - intros k'. rewrite <-(rw_run _ _ _ Hrw). unfold update_job.
    destruct (decide (k' = k)) as [->|Hne]; [by rewrite lookup_insert_eq, Hk|by rewrite lookup_insert_ne].
  - intros k' j'. rewrite <-(rw_rows _ _ _ Hrw), (job_at_update _ _ _ _ _ _ _ Hk).
    destruct (decide _) as [[= -> ->]|_]; [|done].
    rewrite (job_at_lookup _ _ _ _ Hk), Hj. split; eauto.
  - intros k' j' Hl. rewrite (job_at_update _ _ _ _ _ _ _ Hk).
    destruct (decide _) as [[= -> ->]|Hne]; [by rewrite Hjob|].
    apply Hrw. by apply not_elem_of_cons.
Qed.

Lemma snapshot_write subs recorded db k j recorded_run recorded_job job :
  snapshot subs recorded db → recorded !! k = Some recorded_run → wr_jobs recorded_run !! j = Some recorded_job →
  moves recorded_job job → job_ok job → code_fits job → justified recorded k job →
  snapshot subs (update_job k j recorded_run job recorded) (upsert_job_row k job (node_name job) db).
Proof.
  intros [Hwf Hok Hsp Hcodes Hs] Hk Hj Hm Hjob Hcode Hjust.
  assert (ji_job_id job = j) as Hid.
  { rewrite <-(proj2 (Hwf _ _ Hk) _ _ Hj). by destruct Hm as [->|((-> & _) & _)]. }
  pose proof (update_job_wf _ _ _ _ _ Hwf Hk Hid) as Hwf'. split.
  - done.
  - by eapply jobs_ok_update.
  - eapply runs_of_specs_advances; [by eapply advances_update|done].
  - intros k' j' job'. rewrite (job_at_update _ _ _ _ _ _ _ Hk).
    destruct (decide _) as [_|_]; [by intros [= <-]|apply Hcodes].
  - eapply synced_write; [done|apply lookup_insert_eq|apply lookup_insert_eq|].
    apply (synced_rewrites _ [] [(k, j)] recorded); [done|]. eapply rewrites_update; [done..|].
    left. by left.
Qed.

Lemma ahead_gone lag recorded runs k j :
  job_at runs k j = None → ahead ((k, j) :: lag) recorded runs → ahead lag recorded runs.
Proof.
  intros Hno [Hp [Hr Hrows Hj]]. split; [done|]. split; [done..|]. intros k' j' Hl.
  destruct (decide ((k', j') = (k, j))) as [[= -> ->]|Hne]; [|by apply Hj, not_elem_of_cons].
  destruct (job_at recorded k j) as [job|] eqn:E; [|by rewrite Hno].
  destruct (proj1 (Hrows k j)) as [? ?]; [by eexists|congruence].
Qed.

Lemma flush_snapshot raw subs (s s' : Sys) rj recorded :
  jobs_ok (ds_runs (sy_ds s)) → codes_fit (ds_runs (sy_ds s)) →
  snapshot subs recorded (sb_db (sy_world s)) →
  ahead (rj :: pc_lag (sy_pc s')) recorded (ds_runs (sy_ds s)) →
  flush_one raw (ds_runs (sy_ds s)) (sy_world s) rj = Ret (sy_world s') →
  ∃ recorded', snapshot subs recorded' (sb_db (sy_world s')) ∧
    ahead (pc_lag (sy_pc s')) recorded' (ds_runs (sy_ds s)).
Proof.
  intros Hok Hcodes Hsnap Hah Hf. destruct rj as [k j].
  apply flush_one_db in Hf as [[Hno ->]|(run & job & Hk & Hj & ->)].
  - exists recorded. split; [done|]. by eapply ahead_gone.
  - pose proof Hah as [[Hadv Hfore] _].
    assert (job_at (ds_runs (sy_ds s)) k j = Some job) as Hjob by (apply job_at_Some; eauto).
    destruct (adv_bwd _ _ Hadv _ _ _ Hjob) as [job0 Hjob0].
    destruct (adv_fwd _ _ Hadv _ _ _ Hjob0) as (job2 & Hjob2 & Hm). rewrite Hjob in Hjob2. injection Hjob2 as <-.
    apply job_at_Some in Hjob0 as (run0 & Hk0 & Hj0).
    exists (update_job k j run0 job recorded). split; [|by eapply ahead_write].
    eapply snapshot_write; [done..| | |by eapply Hfore].
    + apply (Hok k j job Hjob).
    + by eapply Hcodes.
Qed.

(** ** Submissions and cancels *)

Lemma ahead_submit lag recorded runs k run :
  runs !! k = None → fresh_run run → ahead lag recorded runs →
  recorded !! k = None ∧ ahead lag (<[k := run]> recorded) (<[k := run]> runs).
Proof.
  intros Hk Hfresh [[Hadv Hfore] Hrw].
  assert (recorded !! k = None) as Hk0.
  { pose proof (adv_run _ _ Hadv k) as Hrun. rewrite Hk in Hrun. by inversion Hrun. }
  split; [done|]. split; [split; [split|]|split].
  - intros k' j job. rewrite !job_at_insert. case_decide; [|apply Hadv]. intros Hj. exists job. split; [done|by left].
  - intros k' j job. rewrite !job_at_insert. case_decide; [by eexists|by eapply Hadv].
  - intros k'. destruct (decide (k' = k)) as [->|Hne]; [rewrite !lookup_insert_eq; by constructor|].
    rewrite !lookup_insert_ne by done. apply Hadv.
  - intros k' j job. rewrite job_at_insert. case_decide as Hd.
    + intros Hj. destruct (Hfresh _ _ Hj) as (_ & Hs & _). unfold justified. by rewrite Hs.
    + intros Hj. apply justified_insert; [done|by eapply Hfore].
  - intros k'. destruct (decide (k' = k)) as [->|Hne]; [by rewrite !lookup_insert_eq|].
    rewrite !lookup_insert_ne by done. apply Hrw.
  - intros k' j. rewrite !job_at_insert. case_decide; [done|apply Hrw].
  - intros k' j Hl. rewrite !job_at_insert. case_decide; [done|by apply Hrw].
Qed.

Lemma new_fresh run_id run_seq spec start now : fresh_run (WorkflowRun.new run_id run_seq spec start now).
Proof. by intros j job (i & js & _ & -> & ->)%jobs_of_lookup. Qed.

Lemma new_codes runs k run_seq spec start now :
  codes_fit runs → codes_fit (<[k := WorkflowRun.new k run_seq spec start now]> runs).
Proof.
  intros Hcodes k' j job. rewrite job_at_insert. case_decide; [|apply Hcodes].
  by intros (i & js & _ & -> & ->)%jobs_of_lookup.
Qed.

(** A submission, once it is in memory. *)
Lemma snapshot_insert subs runs db k sub :
  aloft runs db k sub → snapshot subs runs db →
  snapshot (subs ∖ {[k]}) (<[k := sub_run sub]> runs) db.
Proof.
  intros Ha [Hwf Hok Hsp Hcodes Hs]. destruct (al_new _ _ _ _ Ha) as (run_seq & spec & start & now & Hv & E).
  pose proof (al_fresh _ _ _ _ Ha) as Hk. pose proof (synced_insert _ _ _ _ _ _ Ha Hs) as Hs'.
  rewrite E in *. split.
  - intros k' run' [[<- <-]|[_ Hk']]%lookup_insert_Some; [|by apply Hwf].
    split; [done|]. intros j job Hj. by apply new_fresh in Hj as [? _].
  - apply jobs_ok_submit; [done|apply new_fresh|done].
  - intros k' run' [[<- <-]|[_ Hk']]%lookup_insert_Some; [|by eapply Hsp].
    by apply (run_of_spec_new (mkSubmitEnv (λ _, Ok spec) k now) (mkCounters run_seq start)).
  - by apply new_codes.
  - exact Hs'.
Qed.

(** With the submissions under way it is the whole store. *)
Lemma snapshot_all (subs : gmap string Submission) recorded db :
  snapshot (dom subs) recorded db → (∀ k sub, subs !! k = Some sub → aloft recorded db k sub) →
  ∃ all, snapshot ∅ all db ∧ recorded ⊆ all ∧
    ∀ k run, all !! k = Some run → recorded !! k = Some run ∨
      ∃ sub, subs !! k = Some sub ∧ run = sub_run sub ∧ recorded !! k = None.
Proof.
  revert recorded. induction subs as [|k sub subs Hk IH] using map_ind; intros recorded Hsnap Ha.
  { exists recorded. rewrite dom_empty_L in Hsnap. split_and!; [done..|by left]. }
  pose proof (Ha k sub (lookup_insert_eq _ _ _)) as Hal.
  pose proof (snapshot_insert _ _ _ _ _ Hal Hsnap) as Hsnap'.
  rewrite dom_insert_L in Hsnap'.
  assert (({[k]} ∪ dom subs) ∖ {[k]} = dom subs) as Hdom by (apply not_elem_of_dom in Hk; set_solver).
  rewrite Hdom in Hsnap'. destruct (IH _ Hsnap') as (all & Hall & Hsub & Hfrom).
  { intros k' sub' Hk'. assert (k ≠ k') as Hne by congruence.
    assert (aloft recorded db k' sub') as Ha' by (apply Ha; by rewrite lookup_insert_ne).
    eapply aloft_frame; [exact Ha'| |done..]. rewrite lookup_insert_ne by done. apply Ha'. }
  exists all. split_and!; [done| |].
  - etransitivity; [|exact Hsub]. apply insert_subseteq, Hal.
  - intros k' run' [[[<- <-]|[Hne Hk']]%lookup_insert_Some|(sub' & Hk' & -> & Hno)]%Hfrom.
    + right. exists sub. rewrite lookup_insert_eq. split_and!; [done..|apply Hal].
    + by left.
    + right. exists sub'. assert (k ≠ k') as Hne by congruence. rewrite lookup_insert_ne in Hno by done. by rewrite lookup_insert_ne.
Qed.

Lemma cancelled_moves job0 job : moves job0 job → moves job0 (cancel_job job).1.
Proof.
  destruct (cancel_job_moves job) as (Hm & Hs & He & _ & Hsp & Hid).
  intros [->|((Hid0 & Hseq & Hspec) & Hedge & Hkeep)]; [done|].
  right. split_and!; [split_and!; [by rewrite Hid| |by rewrite Hsp]|by rewrite Hs|].
  - destruct Hm as [->|((_ & -> & _) & _)]; done.
  - unfold keeps_running. rewrite Hs, He. exact Hkeep.
Qed.

Lemma ahead_cancel lag recorded runs k run :
  runs !! k = Some run → ahead lag recorded runs → ahead lag recorded (<[k := (mark_cancelling run).1]> runs).
Proof.
  intros Hk [[Hadv Hfore] Hrw].
  assert (∀ k' j, job_at (<[k := (mark_cancelling run).1]> runs) k' j =
    if decide (k' = k) then (λ job, (cancel_job job).1) <$> job_at runs k' j else job_at runs k' j) as Hat.
  { intros k' j. rewrite job_at_insert, mark_cancelling_jobs. case_decide as Hd; [|done].
    rewrite Hd, (job_at_lookup _ _ _ _ Hk). cbn. by rewrite lookup_fmap. }
  split; [split; [split|]|].
  - intros k' j job0 Hj0. destruct (adv_fwd _ _ Hadv _ _ _ Hj0) as (job & Hj & Hm). rewrite Hat, Hj.
    case_decide; eexists; (split; [done|]); [by apply cancelled_moves|done].
  - intros k' j job'. rewrite Hat. case_decide; [|by eapply Hadv].
    destruct (job_at runs k' j) as [job|] eqn:Hj; [|done]. intros _. by eapply Hadv.
  - intros k'. pose proof (adv_run _ _ Hadv k') as Hrun.
    destruct (decide (k' = k)) as [->|Hne]; [|by rewrite lookup_insert_ne].
    rewrite lookup_insert_eq. rewrite Hk in Hrun. inversion Hrun; subst. by constructor.
  - intros k' j job'. rewrite Hat. case_decide; [|by eapply Hfore].
    destruct (job_at runs k' j) as [job|] eqn:Hj; [|done]. intros [= <-].
    pose proof (Hfore _ _ _ Hj) as Hjust. unfold justified in *.
    destruct (cancel_job_moves job) as (_ & -> & _ & _ & -> & _). exact Hjust.
  - eapply rewrites_trans; [exact Hrw| |done].
    destruct (cancel_rewrites _ _ _ Hk) as [Hr Hrows Hj]. split; [done..|]. intros k' j _. apply Hj, not_elem_of_nil.
Qed.

(** ** Every step *)

Lemma sched_durable c s s' subs answered :
  sched_step c s = Ret s' → db_inv (mkLife s' subs answered) → codes_fit (ds_runs (sy_ds s')) →
  durable (mkLife s subs answered) → durable (mkLife s' subs answered).
Proof.
  intros E Hinv' Hcodes' [Hinv Hcodes (recorded & Hsnap & Hah)]. cbn in *.
  pose proof (proj1 (di_daemon _ Hinv)) as Hsys. cbn in Hsys. split; [done..|]. cbn.
  destruct (sched_writes _ _ _ (si_runs _ Hsys) E) as [(rj & Hlag & Hds & Hf)|(Hlag & Hdb & Hr)].
  - rewrite Hlag in Hah. rewrite Hds. by eapply flush_snapshot; [apply Hsys|..].
  - exists (ds_runs (sy_ds s)). rewrite Hdb.
    split; [by apply (memory_snapshot _ Hinv)|]. split; [|done].
    destruct (sched_progress c s Hsys) as (s2 & E2 & _ & Hp). rewrite E in E2. by injection E2 as <-.
Qed.

Lemma db_step_durable l l' : db_step l l' → codes_fit (ds_runs (sy_ds (lf_sys l'))) → durable l → durable l'.
Proof.
  intros Hstep Hcodes' Hd. pose proof (db_step_inv _ _ Hstep (du_inv _ Hd)) as Hinv'.
  destruct Hstep as [c s s' subs answered E|env counters spec s subs answered run Hv Hfit Hfresh
    |k run job todo s subs answered Hsub|k run s subs answered Hsub|k run s subs answered Hk|w' s subs answered Hdb];
    [by eapply sched_durable| | | | |]; pose proof Hd as [Hinv Hcodes (recorded & Hsnap & Hah)];
    cbn -[mark_cancelling WorkflowRun.new] in *; (split; [done..|]);
    destruct Hsnap as [Hwf Hok Hsp Hcd Hs] eqn:Hsn; cbn -[mark_cancelling WorkflowRun.new].
  - exists recorded. split; [|done]. rewrite sb_upsert_run, dom_insert_L.
    split; [done..|]. apply (synced_begin _ _ _ _ run); [|done]. eapply ahead_none; [done|apply Hfresh].
  - pose proof (di_aloft _ Hinv _ _ Hsub) as Ha. exists recorded. split; [|done]. rewrite sb_upsert_job, dom_insert_L.
    replace ({[k]} ∪ dom subs) with (dom subs) by (apply elem_of_dom_2 in Hsub; set_solver).
    split; [done..|]. apply synced_row; [eapply ahead_none; [done|apply Ha]|by apply elem_of_dom_2 in Hsub|done].
  - pose proof (di_aloft _ Hinv _ _ Hsub) as Ha. cbn in Ha. pose proof (al_fresh _ _ _ _ Ha) as Hno.
    assert (fresh_run run) as Hfr.
    { destruct (al_new _ _ _ _ Ha) as (? & ? & ? & ? & _ & E). cbn in E. rewrite E. apply new_fresh. }
    destruct (ahead_submit _ _ _ _ _ Hno Hfr Hah) as [Hno0 Hah']. exists (<[k := run]> recorded).
    split; [|done]. rewrite dom_delete_L. apply (snapshot_insert _ _ _ _ (mkSubmission run [])); [|done].
    by eapply aloft_frame.
  - exists recorded. split; [done|]. by apply ahead_cancel.
  - exists recorded. by rewrite Hdb.
Qed.
(** ** A submission left alone *)

(** A step after which exit codes still fit. *)
Definition coded_step (l l' : Life) : Prop :=
  db_step l l' ∧ (codes_fit (ds_runs (sy_ds (lf_sys l))) → codes_fit (ds_runs (sy_ds (lf_sys l')))).

Lemma rows_in_steps run_id run_seq spec start now todo s subs answered :
  let run := WorkflowRun.new run_id run_seq spec start now in
  subs !! run_id = None →
  rtc coded_step (mkLife s (<[run_id := mkSubmission run todo]> subs) answered)
    (mkLife (insert_run run_id run
       (set_world (foldl (λ w job, upsert_job run_id job None w) (sy_world s) todo) s)) subs ({[run_id]} ∪ answered)).
Proof.
  intros run Hno. revert s. induction todo as [|job todo IH]; intros s.
  - eapply rtc_l.
    + split; [by apply db_insert, lookup_insert_eq|]. apply new_codes.
    + rewrite delete_insert_id by done. by destruct s.
  - eapply rtc_l; [split; [by eapply db_row, lookup_insert_eq|done]|]. rewrite insert_insert_eq.
    apply (IH (set_world (upsert_job run_id job None (sy_world s)) s)).
Qed.

(** These steps are the handler. *)
Lemma submission_in_steps env yaml counters counters' ds' w' s subs answered :
  handle_submit env yaml counters (sy_ds s) (sy_world s) =
    Some (Ret (Response_Submitted (se_run_id env), counters', ds', w')) →
  fresh_id (se_run_id env) (mkLife s subs answered) →
  rtc coded_step (mkLife s subs answered)
    (mkLife (mkSys ds' (sy_checks s) w' (sy_pc s)) subs ({[se_run_id env]} ∪ answered)).
Proof.
  intros [(_ & _ & m & [=])|(spec & Hv & Hfit & _ & -> & ->)]%submission_upserts Hfresh.
  eapply rtc_l; [split; [by apply (db_begin env counters spec)|done]|].
  etransitivity; [apply rows_in_steps, Hfresh|]. done.
Qed.
End snapshot.
