(* ===== verification/Lives.v ===== *)
(** * One life after another

    The daemon is killed at any point and started again, perhaps with other
    nodes: the runs in memory are those the recovery rebuilt from the store,
    which holds a snapshot and what was written of the submissions under way
    ([Snapshot.v]), the pools what the machines have now less what the running
    jobs hold.  What a restart does to the jobs and to their rows is the same
    change, but for the moment an interrupted job ended, which each reads off
    the clock ([retimed]); so the invariants of the running daemon ([System.v], [Durable.v])
    hold across any number of restarts, each on machines that have what the jobs
    taken back hold ([Restart.fits]).  The last two sections run the odd cases: a
    submission cut off in the middle of its writes, and a launch no row tells
    of. *)

From S2P Require Import Prelude Spec Pool Placement Handle Model Store Dag Text Health Protocol Executor.
From S2P Require Import Ledger Shell Scheduler Qualify Tasks Server Requests System Guarantees Recover Restart Durable Snapshot.

(** What is held fits the machines it is held on. *)
Lemma accounts_fit pools held : cluster_accounts pools held → fits (rp_total <$> pools) held.
Proof.
  intros [Hp Hw].
  assert (∀ n r, (rp_total <$> pools) !! n = Some r → ∃ p, r = rp_total p ∧ accounts p (on_node n held)) as Hn.
  { intros n r E. rewrite list_lookup_fmap in E. apply fmap_Some in E as (p & Hp' & ->). eauto. }
  split.
  - intros n a (p & Hp' & Hwhole)%Hw. exists (rp_total p). by rewrite list_lookup_fmap, Hp'.
  - intros n r (p & -> & A)%Hn. pose proof (acc_cpu _ _ A). lia.
  - intros n r (p & -> & A)%Hn. pose proof (acc_memory _ _ A). lia.
  - intros n r g (p & -> & A)%Hn Hg. destruct (acc_vram _ _ A _ Hg) as (free & _ & Hsum). lia.
Qed.

(** A map of holders whose values hold no more. *)
Lemma map_held_shrinks {A} (held : A → list (nat * Allocation)) (m m' : gmap string A) :
  (∀ k a', m' !! k = Some a' → held a' = [] ∨ ∃ a, m !! k = Some a ∧ held a' ⊆+ held a) →
  map_held held m' ⊆+ map_held held m.
Proof.
  revert m. induction m' as [|k a' m' Hk IH] using map_ind; intros m Hm; [apply submseteq_nil_l|].
  destruct (Hm k a') as [Hnil|(a & Ha & Hle)]; [apply lookup_insert_eq| |].
  { rewrite map_held_insert, Hnil by done. apply IH. intros j b' Hj. apply Hm.
    rewrite lookup_insert_ne; [done|]. intros ->. congruence. }
  rewrite map_held_insert by done. rewrite <-(insert_id m k a Ha), <-insert_delete_eq.
  rewrite map_held_insert by apply lookup_delete_eq. apply submseteq_app; [done|]. apply IH.
  intros j b' Hj. assert (j ≠ k) as Hne by (intros ->; congruence).
  destruct (Hm j b') as [?|(b & Hb & Hle')]; [by rewrite lookup_insert_ne|by left|].
  right. exists b. by rewrite lookup_delete_ne.
Qed.

Lemma Forall2_Some_l {A B} (R : A → B → Prop) x o : option_Forall2 R (Some x) o → ∃ y, o = Some y ∧ R x y.
Proof. inversion 1; eauto. Qed.

Lemma Forall2_Some_r {A B} (R : A → B → Prop) o y : option_Forall2 R o (Some y) → ∃ x, o = Some x ∧ R x y.
Proof. inversion 1; eauto. Qed.

Lemma Forall2_is_Some {A B} (R : A → B → Prop) o1 o2 : option_Forall2 R o1 o2 → is_Some o1 ↔ is_Some o2.
Proof. intros []; split; eauto; by intros [? ?]. Qed.

Lemma fits_submseteq machines held held' : held' ⊆+ held → fits machines held → fits machines held'.
Proof. intros [rest ->]%submseteq_Permutation. rewrite Permutation_app_comm. apply fits_app. Qed.

(** ** One restart *)

Section restart.
Context `{HashOrder} `{Rfc3339} `{Serde WorkflowSpec} `{Serde Allocation}.
(* the life that was killed, and the one that starts *)
Context {W : Type} (E0 : DaemonEnv W) `{DaemonEnv W} `{ShellOS W}.

(** Times and specs read back as they were written, and nodes have their names
    to themselves. *)
Context (Htime : rfc3339_roundtrip) (Hspec : serde_roundtrip WorkflowSpec) (Halloc : serde_roundtrip Allocation).
Context (Hnames : NoDup (nd_name <$> env_nodes)).

Implicit Types (run : WorkflowRun) (job : JobInstance) (db : RunStore).

(* as the old life names the nodes *)
Notation node_name0 := (@node_name W E0).
Notation stored0 := (@stored _ _ W E0).
Notation kept0 := (@kept _ _ _ W E0).
Notation snapshot0 := (@snapshot _ _ _ W E0).
Notation job_ok0 := (@job_ok W E0).
Notation jobs_ok0 := (@jobs_ok W E0).

(** The nodes are listed as they were. *)
Definition same_nodes : Prop :=
  ∀ n, nd_name <$> @env_nodes W E0 !! n = nd_name <$> env_nodes !! n.

(** *** One job *)

(** A job as its row may have it: an interrupted one with another end. *)
Definition retimed (job job1 : JobInstance) : Prop :=
  job1 = job ∨ (ji_state job = JobState.Interrupted ∧ ∃ t, job1 = JobInstance.set_ended_at (Some t) job).

Lemma shows_retimed row job : shows row (stored0 job) → ∃ job1, retimed job job1 ∧ row = stored0 job1.
Proof.
  intros [->|(Hs & t & ->)]; [exists job; split; [by left|done]|].
  exists (JobInstance.set_ended_at (Some t) job). split; [|done]. right. split; [|by exists t].
  revert Hs. cbn. by destruct (ji_state job).
Qed.

(** A job before the restart and after it. *)
Definition back_from (clock : RecoveryClock) (w : W) (k : string) (job job' : JobInstance) : Prop :=
  ∃ job1, retimed job job1 ∧ taken_back node_name0 clock w k job1 job'.

(** A stored job of the daemon, and the same job after the restart. *)
Record comes_back (clock : RecoveryClock) (w : W) (k : string) (job job' : JobInstance) : Prop := {
  cb_id : ji_job_id job' = ji_job_id job;
  cb_spec : ji_spec job' = ji_spec job;
  cb_state : ji_state job' = ji_state job ∨ ji_state job = JobState.Running ∧ ji_state job' = JobState.Interrupted;
  cb_ok : job_ok job';
  cb_code : code_fits job';
  cb_held : same_nodes → job_held job' ⊆+ job_held job;
}.

Lemma node_of_name n node : env_nodes !! n = Some node →
  ∀ m, nd_name <$> env_nodes !! m = Some (nd_name node) → m = n.
Proof.
  intros Hn m Hm. eapply NoDup_lookup; [exact Hnames|..]; rewrite list_lookup_fmap; [exact Hm|by rewrite Hn].
Qed.

Lemma taken_back_comes_back clock w k job job' :
  job_ok0 job → code_fits job → taken_back node_name0 clock w k job job' →
  comes_back clock w k job job'.
Proof.
  intros [_ Hrun Hidle] Hcode (Hid & Hsp & Hc & _ & _ & _ & Hrej & _ & Hcases).
  assert (rejections_known job') as Hknown.
  { unfold rejections_known. rewrite Hrej. by intros ? ? ?%elem_of_nil. }
  assert (code_fits job') as Hcode' by (unfold code_fits; by rewrite Hc).
  destruct Hcases as [(Hs & Hs' & Hex & _)|[(Hs & Hs' & _ & e & n & node & handle & He & Hex & Hn & Hname & _)
    |(Hs & Hs' & Hex & _)]].
  - split; [done|done|by left| |done|unfold job_held; rewrite Hex; intros _; apply submseteq_nil_l].
    split; [done|by rewrite Hs'|done].
  - split; [done|done|left; congruence| |done|].
    + split; [done| |by rewrite Hs']. intros _. eexists. split; [exact Hex|by eexists].
    + intros Hsame. destruct (Hrun Hs) as (e' & He' & _). rewrite He' in He. injection He as ->.
      unfold node_name in Hname. rewrite He' in Hname. cbn in Hname. rewrite Hsame in Hname. symmetry in Hname.
      apply (node_of_name _ _ Hn) in Hname as <-.
      unfold job_held. rewrite Hex, He'. done.
  - split; [done|done|by right| |done|unfold job_held; rewrite Hex; intros _; apply submseteq_nil_l].
    split; [done|by rewrite Hs'|done].
Qed.

Lemma back_from_comes_back clock w k job job' :
  job_ok0 job → code_fits job → back_from clock w k job job' → comes_back clock w k job job'.
Proof.
  intros Hok Hcode (job1 & [->|(_ & t & ->)] & Htk); [by apply taken_back_comes_back|].
  destruct (taken_back_comes_back clock w k (JobInstance.set_ended_at (Some t) job) job') as [? ? ? ? ? ?];
    [by destruct Hok|done|done|by split].
Qed.

(** A job without a row, which is as it was submitted, comes back from nothing. *)
Lemma fresh_taken_back clock w k job start :
  stored0 job = fresh_record → ji_job_id job = js_id (ji_spec job) →
  taken_back node_name0 clock w k job (JobInstance.new (ji_spec job) start).
Proof.
  unfold stored, job_record, fresh_record. intros [= Hs Hc Hst Hend Hlog _ _ Hwhy] Hid.
  apply fmap_None in Hst. apply fmap_None in Hend.
  assert (ji_state job = JobState.Pending) as Hp by (revert Hs; by destruct (ji_state job)).
  unfold taken_back. cbn. rewrite Hc, Hst, Hend, Hlog, Hwhy, Hp. split_and!; try done. by left.
Qed.

(** What is stored of it afterwards: the same row, unless it was interrupted. *)
Lemma taken_back_stored clock w k job job' :
  job_ok0 job → taken_back node_name0 clock w k job job' →
  stored job' = if decide (ji_state job' = ji_state job) then stored0 job
                else interrupt_record (to_rfc3339 (rk_ended clock k (ji_job_id job))) (stored0 job).
Proof.
  intros [_ Hrun Hidle] (Hid & Hsp & Hc & Hst & Hlog & Hwhy & _ & _ & Hcases).
  unfold stored, job_record, interrupt_record. cbn. rewrite Hc, Hst, Hlog, Hwhy.
  destruct Hcases as [(Hs & Hs' & Hex & Hend)
    |[(Hs & Hs' & Hend & e & n & node & handle & He & Hex & Hn & Hname & _)|(Hs & Hs' & Hex & Hend & _)]].
  - rewrite decide_True by done. unfold node_name. by rewrite Hex, Hend, Hs', Hidle.
  - rewrite decide_True by congruence. rewrite Hend, Hex, He, Hs, Hs'. cbn. rewrite <-Hname.
    unfold node_name. rewrite Hex. cbn. by rewrite Hn.
  - rewrite decide_False by congruence. unfold node_name. by rewrite Hex, Hend, Hs'.
Qed.

(** *** The rows of one run *)

(** A stored row is a job's, about to be taken back over a fresh instance. *)
Definition saves (k : string) (jobs0 jobs : gmap string JobInstance) db (sv : SavedJob) : Prop :=
  ∃ job job1 start, jobs0 !! saved_id sv = Some job ∧ retimed job job1 ∧ ji_job_id job1 = saved_id sv ∧
    js_id (ji_spec job1) = saved_id sv ∧ job_ok0 job1 ∧ code_fits job1 ∧
    sv = saved_job (k, saved_id sv) (stored0 job1) ∧
    db_jobs db !! (k, saved_id sv) = Some (stored0 job1) ∧
    jobs !! saved_id sv = Some (JobInstance.new (ji_spec job1) start).

(** It was taken back, and its row is written again. *)
Definition is_back (clock : RecoveryClock) (w : W) (k : string) (jobs0 jobs : gmap string JobInstance) db (j : string) : Prop :=
  ∃ job job', jobs0 !! j = Some job ∧ jobs !! j = Some job' ∧
    back_from clock w k job job' ∧ ∃ row, db_jobs db !! (k, j) = Some row ∧ shows row (stored job').

Lemma restored_state x job start :
  ji_state (restore (JobInstance.new (ji_spec job) start) (sj_row (saved_job x (stored0 job)))) = ji_state job.
Proof. cbn. by destruct (ji_state job). Qed.

(** A stored job in the code's order: the job, and its row only if it is gone. *)
Lemma take_back_job_found k clock w jobs pools db sv job jobs' pools' db' :
  take_back_job k clock w (jobs, pools, db) sv = Ret (jobs', pools', db') → jobs !! saved_id sv = Some job →
  let job' := recovered_job k clock w sv job in
  jobs' = <[saved_id sv := job']> jobs ∧
  db' = if decide (ji_state job' = ji_state (restore job (sj_row sv))) then db
        else interrupt k (ji_job_id job) (rk_stored clock k (saved_id sv)) db.
Proof.
  unfold take_back_job, recovered_job. intros E Hj. unfold saved_id in *. rewrite Hj in E. cbn zeta.
  assert (ji_job_id (restore job (sj_row sv)) = ji_job_id job) as Hid by reflexivity.
  revert E. rewrite Hid. generalize (restore job (sj_row sv)). intros fresh.
  destruct (is_running (ji_state fresh)) eqn:Er; cbn [negb].
  - destruct (reattach k sv w) as [e|].
    + intros (pools1 & _ & [= <- <- <-])%bind_Ret_inv. by rewrite decide_True.
    + intros [= <- <- <-]. rewrite decide_False; [done|]. cbn. by destruct (ji_state fresh).
  - intros [= <- <- <-]. by rewrite decide_True.
Qed.

Lemma take_back_job_row k clock w jobs0 jobs pools db sv jobs' pools' db' :
  take_back_job k clock w (jobs, pools, db) sv = Ret (jobs', pools', db') →
  saves k jobs0 jobs db sv →
  is_back clock w k jobs0 jobs' db' (saved_id sv) ∧ db_runs db' = db_runs db ∧
  (∀ j, j ≠ saved_id sv → jobs' !! j = jobs !! j) ∧
  (∀ x, x ≠ (k, saved_id sv) → db_jobs db' !! x = db_jobs db !! x).
Proof.
  intros E (job & job1 & start & Hj0 & Hre & Hid & Hjs & Hok & Hcode & Hsv & Hrow & Hj).
  assert (taken_back node_name0 clock w k job1
    (recovered_job k clock w sv (JobInstance.new (ji_spec job1) start))) as Hback.
  { apply recovered_taken_back; try done; [congruence| |by rewrite Hid].
    intros Hs. destruct (jo_running _ Hok Hs) as (e & -> & _). done. }
  pose proof (taken_back_stored _ _ _ _ _ Hok Hback) as Hst.
  destruct (take_back_job_found _ _ _ _ _ _ _ _ _ _ _ E Hj) as [-> ->].
  assert (ji_state (restore (JobInstance.new (ji_spec job1) start) (sj_row sv)) = ji_state job1) as Hsame.
  { rewrite Hsv. apply restored_state. }
  rewrite Hsame. clear Hsame. revert Hback Hst.
  generalize (recovered_job k clock w sv (JobInstance.new (ji_spec job1) start)). intros job' Hback Hst.
  change (ji_job_id (JobInstance.new (ji_spec job1) start)) with (js_id (ji_spec job1)). rewrite Hjs.
  split_and!.
  - exists job, job'. rewrite lookup_insert_eq, Hst. split_and!; [done|done|by exists job1|].
    case_decide; [eexists; split; [done|by left]|]. cbn. rewrite lookup_alter_eq, Hrow.
    eexists. split; [done|]. right. split; [done|by eexists].
  - by case_decide.
  - intros j Hne. by rewrite lookup_insert_ne.
  - intros x Hne. case_decide; [done|]. by apply lookup_alter_ne.
Qed.

Lemma take_back_jobs_rows k clock w jobs0 saved jobs pools db jobs' pools' db' :
  foldM (take_back_job k clock w) (jobs, pools, db) saved = Ret (jobs', pools', db') →
  NoDup (saved_id <$> saved) → (∀ sv, sv ∈ saved → saves k jobs0 jobs db sv) →
  (∀ sv, sv ∈ saved → is_back clock w k jobs0 jobs' db' (saved_id sv)) ∧ db_runs db' = db_runs db ∧
  (∀ j, j ∉ saved_id <$> saved → jobs' !! j = jobs !! j) ∧
  (∀ x, x ∉ pair k <$> (saved_id <$> saved) → db_jobs db' !! x = db_jobs db !! x).
Proof.
  revert jobs pools db. induction saved as [|sv saved IH]; intros jobs pools db E Hnd Hsaves.
  { injection E as <- <- <-. split_and!; try done. by intros ? ?%elem_of_nil. }
  cbn [foldM] in E. apply bind_Ret_inv in E as ([[jobs1 pools1] db1] & E1 & E2).
  apply NoDup_cons in Hnd as [Hni Hnd].
  destruct (take_back_job_row _ _ _ _ _ _ _ _ _ _ _ E1 (Hsaves sv ltac:(by left)))
    as (Hback & Hruns & Hj & Hx).
  assert (∀ sv', sv' ∈ saved → saved_id sv' ≠ saved_id sv) as Hne.
  { intros sv' Hin Eq. apply Hni. rewrite <-Eq. by apply list_elem_of_fmap_2. }
  destruct (IH jobs1 pools1 db1 E2 Hnd) as (Hbacks & Hruns2 & Hj2 & Hx2).
  { intros sv' Hin. destruct (Hsaves sv' ltac:(by right))
      as (job & job1 & start & ? & ? & ? & ? & ? & ? & ? & ? & ?).
    exists job, job1, start. rewrite Hj, Hx by (try intros [= ?]; by eapply Hne). done. }
  split_and!.
  - intros sv' [->|Hin]%elem_of_cons; [|by apply Hbacks].
    destruct Hback as (job & job' & ? & ? & ? & row & ? & ?). exists job, job'.
    rewrite Hj2, Hx2 by (rewrite ?list_elem_of_fmap; naive_solver). eauto 10.
  - by rewrite Hruns2.
  - cbn. intros j [? ?]%not_elem_of_cons. by rewrite Hj2, Hj.
  - cbn. intros x [? ?]%not_elem_of_cons. by rewrite Hx2, Hx.
Qed.

(** *** One run, and all of them *)

Record returned (clock : RecoveryClock) (w : W) (k : string) run (run' : WorkflowRun) db : Prop := {
  re_id : wr_run_id run' = k;
  re_identity : identity run' = identity run;
  re_jobs : ∀ j, option_Forall2 (back_from clock w k) (wr_jobs run !! j) (wr_jobs run' !! j);
  re_rows : ∀ j, is_Some (db_jobs db !! (k, j)) → is_Some (wr_jobs run' !! j);
  re_backed : ∀ j job', wr_jobs run' !! j = Some job' → backed (db_jobs db !! (k, j)) job';
}.

(** A run as the store has it while the recovery comes to it. *)
Record awaits run db0 db : Prop := {
  aw_stored : kept0 run db0;
  aw_made : well_made run;
  aw_jobs : ∀ j job, wr_jobs run !! j = Some job → job_ok0 job;
  aw_rows : ∀ j, db_jobs db !! (wr_run_id run, j) = db_jobs db0 !! (wr_run_id run, j);
}.

Lemma saves_fresh run db0 db r start sv :
  awaits run db0 db → sv ∈ sv_jobs (saved_run db0 (wr_run_id run, r)) →
  saves (wr_run_id run) (wr_jobs run) (WorkflowRun.jobs_of (ws_jobs (wr_spec run)) start) db sv.
Proof.
  intros [[_ Hdom Hps] Hmade Hok Hrows] (rec & Hrec & Hsv)%elem_of_saved_jobs. cbn [fst] in *.
  change (jr_job_id (sj_row sv)) with (saved_id sv) in *.
  destruct (Hdom (saved_id sv)) as [job Hj]; [by eexists|].
  pose proof (Hps _ _ Hj) as Hf. rewrite Hrec in Hf. apply shows_retimed in Hf as (job1 & Hre & ->).
  destruct (wm_jobs _ Hmade _ _ Hj) as (Hid & Hjs & Hin).
  apply list_elem_of_lookup in Hin as [i Hi].
  pose proof (jobs_of_lookup_unique _ start _ _ (wm_NoDup _ Hmade) Hi) as Hnew. rewrite Hjs in Hnew.
  pose proof (Hok _ _ Hj) as [Hrej Hrun Hidle].
  assert (code_fits job) as Hcode by (intros code; by apply (wm_codes _ Hmade _ _ _ Hj)).
  exists job, job1. eexists. rewrite Hrows. destruct Hre as [->|(Hs & t & ->)].
  - split_and!; [done|by left|done..|by split|done|done|done|exact Hnew].
  - split_and!; [done|right; split; [done|by exists t]|done..|by split|done|done|done|exact Hnew].
Qed.

(** What is behind each job after its run was taken back. *)
Lemma saved_jobs_back clock w db0 run s jobs pools db :
  let k := wr_run_id run in
  foldM (take_back_job k clock w)
    (WorkflowRun.jobs_of (ws_jobs (wr_spec run)) (ct_job (rv_counters s)), rv_pools s, rv_db s)
    (sv_jobs (saved_run db0 (k, run_record run))) = Ret (jobs, pools, db) →
  awaits run db0 (rv_db s) →
  db_runs db = db_runs (rv_db s) ∧ (∀ x, x.1 ≠ k → db_jobs db !! x = db_jobs (rv_db s) !! x) ∧
  ∀ j, match wr_jobs run !! j with
       | None => jobs !! j = None ∧ db_jobs db !! (k, j) = None
       | Some job => ∃ job', jobs !! j = Some job' ∧ back_from clock w k job job' ∧
           backed (db_jobs db !! (k, j)) job' ∧
           (is_Some (db_jobs (rv_db s) !! (k, j)) → is_Some (db_jobs db !! (k, j)))
       end.
Proof.
  intros k E1 Haw. destruct (aw_stored _ _ _ Haw) as [_ Hdom Hps].
  destruct (aw_made _ _ _ Haw) as [_ Hnd Hmade Hall _ _]. fold k in Hdom, Hps.
  destruct (take_back_jobs_rows _ _ _ (wr_jobs run) _ _ _ _ _ _ _ E1) as (Hback & Hruns & Hj & Hx).
  { apply NoDup_saved_jobs. }
  { intros sv. by apply saves_fresh. }
  assert (∀ j, j ∈ saved_id <$> sv_jobs (saved_run db0 (k, run_record run)) ↔ is_Some (db_jobs db0 !! (k, j))) as Hin.
  { intros j. rewrite list_elem_of_fmap. setoid_rewrite elem_of_saved_jobs. cbn [fst]. split.
    - intros (sv & -> & rec & Hrec & _). by exists rec.
    - intros [row Hrow]. exists (saved_job (k, j) row). split; [done|]. by exists row. }
  split_and!; [done|intros x Hne; apply Hx; rewrite list_elem_of_fmap; by intros (? & -> & _)|].
  intros j. destruct (db_jobs db0 !! (k, j)) as [row0|] eqn:Hrow0.
  - assert (j ∈ saved_id <$> sv_jobs (saved_run db0 (k, run_record run))) as Hsv by (apply Hin; by eexists).
    apply list_elem_of_fmap in Hsv as (sv & -> & Hsv).
    destruct (Hback _ Hsv) as (job & job' & -> & Hj' & Hb & row & Hrow & Hshows).
    exists job'. rewrite Hrow. by split_and!.
  - assert (j ∉ saved_id <$> sv_jobs (saved_run db0 (k, run_record run))) as Hni.
    { rewrite Hin, Hrow0. by intros [? ?]. }
    assert (db_jobs db !! (k, j) = None) as Hno.
    { rewrite Hx; [by rewrite (aw_rows _ _ _ Haw)|]. rewrite list_elem_of_fmap. by intros (? & [= <-] & ?). }
    rewrite Hj by done. destruct (wr_jobs run !! j) as [job|] eqn:Hjob.
    + destruct (Hmade _ _ Hjob) as (Hid & Hjs & Hspecs). apply list_elem_of_lookup in Hspecs as [i Hi].
      pose proof (jobs_of_lookup_unique _ (ct_job (rv_counters s)) _ _ Hnd Hi) as Hnew.
      rewrite Hjs in Hnew. eexists. rewrite Hno. split_and!; [exact Hnew| |done|].
      * exists job. split; [by left|]. apply fresh_taken_back; [|congruence].
        pose proof (Hps _ _ Hjob) as Hb. by rewrite Hrow0 in Hb.
      * rewrite (aw_rows _ _ _ Haw). fold k. by rewrite Hrow0.
    + split; [|done]. destruct (WorkflowRun.jobs_of _ _ !! j) as [fresh|] eqn:F; [|done].
      apply jobs_of_lookup in F as (i & spec & Hi & -> & _).
      destruct (Hall spec) as [? ?]; [by eapply list_elem_of_lookup_2|congruence].
Qed.

Lemma take_back_run_rows clock w s db0 r run s' :
  let k := wr_run_id run in
  take_back_run clock w s (saved_run db0 (k, r)) = Ret s' →
  db_runs db0 !! k = Some r → awaits run db0 (rv_db s) →
  (∃ run', rv_runs s' = <[k := run']> (rv_runs s) ∧ returned clock w k run run' (rv_db s')) ∧
  db_runs (rv_db s') = db_runs (rv_db s) ∧
  (∀ x, x.1 ≠ k → db_jobs (rv_db s') !! x = db_jobs (rv_db s) !! x) ∧
  (∀ x, is_Some (db_jobs (rv_db s) !! x) → is_Some (db_jobs (rv_db s') !! x)).
Proof.
  intros k E1 Hr Haw. destruct (aw_stored _ _ _ Haw) as [Hrow Hdom _].
  destruct (aw_made _ _ _ Haw) as [Hname _ _ _ _ _].
  fold k in Hrow, Hdom. rewrite Hr in Hrow. injection Hrow as ->.
  unfold take_back_run in E1. unfold saved_spec in E1. cbn [saved_run sv_spec_json run_record rt_spec_json snd] in E1.
  cbn [mbind option_bind] in E1. rewrite Hspec in E1. cbn [fst sv_run_id saved_run] in E1.
  apply bind_Ret_inv in E1 as ([[jobs pools] db] & E1 & [= <-]).
  change (wr_jobs _) with (WorkflowRun.jobs_of (ws_jobs (wr_spec run)) (ct_job (rv_counters s))) in E1.
  destruct (saved_jobs_back _ _ _ _ _ _ _ _ E1 Haw) as (Hruns & Hx & Hjobs). fold k in Hx, Hjobs.
  cbn. split_and!; [|done|done|].
  - eexists. split; [reflexivity|]. split; cbn.
    + done.
    + unfold identity. cbn. unfold parse_time. by rewrite Htime, Hname.
    + intros j. specialize (Hjobs j). destruct (wr_jobs run !! j) as [job|].
      * destruct Hjobs as (job' & -> & ? & _). by constructor.
      * destruct Hjobs as [-> _]. constructor.
    + intros j Hrow. specialize (Hjobs j). destruct (wr_jobs run !! j) as [job|].
      * destruct Hjobs as (job' & -> & _). by eexists.
      * destruct Hjobs as [_ Hno]. rewrite Hno in Hrow. by destruct Hrow.
    + intros j job' Hj'. specialize (Hjobs j). destruct (wr_jobs run !! j) as [job|].
      * destruct Hjobs as (job2 & Hj2 & _ & Hb & _). by simplify_eq.
      * by destruct Hjobs as [? _]; simplify_eq.
  - intros [k' j] Hrow. destruct (decide (k' = k)) as [->|Hne]; [|by rewrite Hx].
    specialize (Hjobs j). destruct (wr_jobs run !! j) as [job|] eqn:Hjob.
    + destruct Hjobs as (job' & _ & _ & _ & Hkeep). by apply Hkeep.
    + rewrite (aw_rows _ _ _ Haw) in Hrow. apply Hdom in Hrow as [? ?]. congruence.
Qed.

(** A stored run is one of memory's. *)
Definition known (runs0 : gmap string WorkflowRun) db0 db (sv : SavedRun) : Prop :=
  ∃ run r, runs0 !! sv_run_id sv = Some run ∧ wr_run_id run = sv_run_id sv ∧
    sv = saved_run db0 (sv_run_id sv, r) ∧ db_runs db0 !! sv_run_id sv = Some r ∧ awaits run db0 db.

Lemma take_back_runs_rows clock w db0 runs0 l s s' :
  foldM (take_back_run clock w) s l = Ret s' → NoDup (sv_run_id <$> l) →
  (∀ sv, sv ∈ l → known runs0 db0 (rv_db s) sv) →
  (∀ sv, sv ∈ l → ∃ run run', runs0 !! sv_run_id sv = Some run ∧ rv_runs s' !! sv_run_id sv = Some run' ∧
     returned clock w (sv_run_id sv) run run' (rv_db s')) ∧
  db_runs (rv_db s') = db_runs (rv_db s) ∧
  (∀ k, k ∉ sv_run_id <$> l → rv_runs s' !! k = rv_runs s !! k) ∧
  (∀ x, x.1 ∉ sv_run_id <$> l → db_jobs (rv_db s') !! x = db_jobs (rv_db s) !! x) ∧
  (∀ x, is_Some (db_jobs (rv_db s) !! x) → is_Some (db_jobs (rv_db s') !! x)).
Proof.
  revert s. induction l as [|sv l IH]; intros s E1 Hnd Hknown.
  { injection E1 as <-. split_and!; try done. by intros ? ?%elem_of_nil. }
  cbn [foldM] in E1. apply bind_Ret_inv in E1 as (s1 & E1 & E2). apply NoDup_cons in Hnd as [Hni Hnd].
  assert (∀ sv', sv' ∈ l → sv_run_id sv' ≠ sv_run_id sv) as Hne.
  { intros sv' Hin Eq. apply Hni. rewrite <-Eq. by apply list_elem_of_fmap_2. }
  destruct (Hknown sv ltac:(by left)) as (run & r & Hk & Hid & Hsv & Hr & Haw).
  rewrite Hsv, <-Hid in E1. rewrite <-Hid in Hr.
  destruct (take_back_run_rows _ _ _ _ _ _ _ E1 Hr Haw) as ((run' & Hruns & Hret) & Hdb & Hx & Hkeep).
  rewrite Hid in *.
  destruct (IH s1 E2 Hnd) as (Hrets & Hdb2 & Hk2 & Hx2 & Hkeep2).
  { intros sv' Hin. destruct (Hknown sv' ltac:(by right)) as (run2 & r2 & ? & Hid2 & ? & ? & [? ? ? Hrow]).
    exists run2, r2. split_and!; [done..|]. split; [done..|]. intros j. rewrite Hx; [done|].
    cbn. rewrite Hid2. by apply Hne. }
  split_and!.
  - intros sv' [->|Hin]%elem_of_cons; [|by apply Hrets]. exists run, run'.
    rewrite Hk2, Hruns, lookup_insert_eq by done. split_and!; [done..|].
    destruct Hret as [? ? ? Hrows Hbacked]. split; [done..| |]; intros j; rewrite Hx2 by done; [apply Hrows|apply Hbacked].
  - by rewrite Hdb2.
  - cbn. intros k [? ?]%not_elem_of_cons. by rewrite Hk2, Hruns, lookup_insert_ne.
  - cbn. intros x [? ?]%not_elem_of_cons. by rewrite Hx2, Hx.
  - intros x Hrow. by apply Hkeep2, Hkeep.
Qed.

(** The whole recovery, from a store and the runs it holds. *)
Record recovers (clock : RecoveryClock) (w : W) (runs0 : gmap string WorkflowRun) db0 (r : Recovery) : Prop := {
  rc_back : ∀ k run', rv_runs r !! k = Some run' →
    ∃ run, runs0 !! k = Some run ∧ returned clock w k run run' (rv_db r);
  rc_live : ∀ k j rec, db_jobs db0 !! (k, j) = Some rec → unfinished rec = true → is_Some (rv_runs r !! k);
  rc_runs : db_runs (rv_db r) = db_runs db0;
  rc_rows : ∀ k j, rv_runs r !! k = None → db_jobs (rv_db r) !! (k, j) = db_jobs db0 !! (k, j);
  rc_kept : ∀ x, is_Some (db_jobs db0 !! x) → is_Some (db_jobs (rv_db r) !! x);
}.

Lemma recovery_recovers clock w runs db pools counters r :
  snapshot0 ∅ runs db → take_back_runs clock w (mkRecovery ∅ pools counters db) = Ret r →
  recovers clock w runs db r.
Proof.
  intros [Hwf Hok Hsp Hcodes Hs] E1.
  assert (∀ k run, runs !! k = Some run → awaits run db db) as Haw.
  { intros k run Hk. split; [by eapply synced_kept| | |done].
    - eapply (@reached_well_made W E0); [done..|]. intros j job code Hj. apply (Hcodes k j job). by apply job_at_Some; eauto.
    - intros j job Hj. apply (Hok k j job). apply job_at_Some. eauto. }
  assert (∀ k j rec, db_jobs db !! (k, j) = Some rec → unfinished rec = true →
    k ∈ sv_run_id <$> unfinished_runs db) as Hin.
  { intros k j rec Hrec Hu.
    destruct (sn_known _ _ _ _ Hs _ _ _ Hrec Hu) as [[run Hk]|Hno]; [|by apply not_elem_of_empty in Hno].
    pose proof (sn_run _ _ _ _ Hs _ _ Hk) as Hrow.
    apply list_elem_of_fmap. exists (saved_run db (k, run_record run)). split; [done|].
    apply elem_of_unfinished_runs. eauto 10. }
  destruct (take_back_runs_rows clock w db runs (unfinished_runs db) _ _ E1) as (Hback & Hdb & Hk & Hx & Hkeep).
  { apply NoDup_unfinished_runs. }
  { intros sv (rr & Hr & Hsv & j & rec & Hrec & Hu)%elem_of_unfinished_runs.
    destruct (sn_known _ _ _ _ Hs _ _ _ Hrec Hu) as [[run Hrun]|Hno]; [|by apply not_elem_of_empty in Hno]. exists run, rr.
    split_and!; [done|by apply (Hwf _ _ Hrun)|done|done|by eapply Haw]. }
  cbn in Hdb, Hk, Hx.
  assert (∀ k, is_Some (rv_runs r !! k) ↔ k ∈ sv_run_id <$> unfinished_runs db) as Hdom.
  { intros k. split.
    - intros [run' Hr]. destruct (decide (k ∈ sv_run_id <$> unfinished_runs db)) as [|Hni]; [done|].
      by rewrite (Hk _ Hni), lookup_empty in Hr.
    - intros (sv & -> & Hsv)%list_elem_of_fmap. destruct (Hback _ Hsv) as (? & ? & _ & -> & _). by eexists. }
  split; [| |done| |done].
  - intros k run' Hr. assert (k ∈ sv_run_id <$> unfinished_runs db) as Hkin by (apply Hdom; by eexists).
    apply list_elem_of_fmap in Hkin as (sv & -> & Hsv).
    destruct (Hback _ Hsv) as (run & run2 & ? & ? & ?). simplify_eq. eauto.
  - intros k j rec Hrec Hu. apply Hdom. by eapply Hin.
  - intros k j Hno. apply Hx. cbn. rewrite <-Hdom, Hno. by intros [? ?].
Qed.

(** *** The invariants after a restart *)

Section recovered.
Context (clock : RecoveryClock) (w : W) (runs : gmap string WorkflowRun) (db : RunStore) (r : Recovery).
Context (Hrec : recovers clock w runs db r).
Context (Hjobs : jobs_ok0 runs) (Hcodes : codes_fit runs).

Lemma recovered_job_back k j job' :
  job_at (rv_runs r) k j = Some job' → ∃ job, job_at runs k j = Some job ∧ comes_back clock w k job job'.
Proof using Hrec Hjobs Hcodes Hnames.
  intros (run' & Hk & Hj)%job_at_Some. destruct (rc_back _ _ _ _ _ Hrec _ _ Hk) as (run & Hk0 & Hret).
  pose proof (re_jobs _ _ _ _ _ _ Hret j) as Hf. rewrite Hj in Hf. apply Forall2_Some_r in Hf as (job & Ex & Htaken).
  assert (job_at runs k j = Some job) as Hat by (apply job_at_Some; eauto).
  exists job. split; [done|]. apply back_from_comes_back; [by apply (Hjobs k j)|by apply (Hcodes k j)|done].
Qed.

(** A job that ended is as it was. *)
Lemma recovered_job_ended k d jd :
  is_Some (rv_runs r !! k) → job_at runs k d = Some jd → JobState.is_terminal (ji_state jd) = true →
  ∃ jd', job_at (rv_runs r) k d = Some jd' ∧ ji_state jd' = ji_state jd.
Proof using Hrec Hjobs Hcodes Hnames.
  intros [run' Hk] Hd Ht. destruct (rc_back _ _ _ _ _ Hrec _ _ Hk) as (run & Hk0 & Hret).
  rewrite (job_at_lookup _ _ _ _ Hk0) in Hd. pose proof (re_jobs _ _ _ _ _ _ Hret d) as Hf.
  rewrite Hd in Hf. apply Forall2_Some_l in Hf as (jd' & E & Htk).
  assert (job_at (rv_runs r) k d = Some jd') as Hd' by (apply job_at_Some; eauto).
  exists jd'. split; [done|]. destruct (recovered_job_back _ _ _ Hd') as (jd2 & Hd2 & [_ _ Hs _ _ _]).
  rewrite (job_at_lookup _ _ _ _ Hk0), Hd in Hd2. injection Hd2 as <-.
  destruct Hs as [?|[E2 _]]; [done|]. by rewrite E2 in Ht.
Qed.

Lemma recovered_jobs_ok : jobs_ok (rv_runs r).
Proof using Hrec Hjobs Hcodes Hnames.
  intros k j job' Hj'. destruct (recovered_job_back _ _ _ Hj') as (job & Hj & Hb).
  split; [apply Hb|]. destruct (Hjobs _ _ _ Hj) as [_ Hjust].
  assert (is_Some (rv_runs r !! k)) as Hk by (apply job_at_Some in Hj' as (? & ? & _); by eexists).
  assert (∀ d (P : JobState.t → Prop), (∀ s, P s → JobState.is_terminal s = true) →
    (∃ jd, job_at runs k d = Some jd ∧ P (ji_state jd)) →
    ∃ jd, job_at (rv_runs r) k d = Some jd ∧ P (ji_state jd)) as Hkeep.
  { intros d P HP (jd & Hd & Hs). destruct (recovered_job_ended k d jd Hk Hd (HP _ Hs)) as (jd' & ? & E).
    exists jd'. by rewrite E. }
  unfold justified in *. rewrite (cb_spec _ _ _ _ _ Hb).
  assert (ji_state job ≠ JobState.Pending → ji_state job ≠ JobState.Skipped →
    ∀ d, d ∈ js_depends_on (ji_spec job) →
    ∃ jd, job_at (rv_runs r) k d = Some jd ∧ ji_state jd = JobState.Succeeded) as Hdeps.
  { intros Hnp Hns d Hd. apply (Hkeep d (λ s, s = JobState.Succeeded)); [by intros ? ->|].
    destruct (ji_state job); by auto. }
  destruct (cb_state _ _ _ _ _ Hb) as [->|[Es ->]]; [|by apply Hdeps; rewrite Es].
  destruct (ji_state job) eqn:Es; try (by apply Hdeps); [done|].
  destruct Hjust as (d & Hd & Hdead). exists d. split; [done|]. apply (Hkeep d dead); [by intros ? []|done].
Qed.

Lemma recovered_codes : codes_fit (rv_runs r).
Proof using Hrec Hjobs Hcodes Hnames.
  intros k j job' Hj'. destruct (recovered_job_back _ _ _ Hj') as (job & _ & Hb). apply Hb.
Qed.

(** What is held afterwards was held before, on the same nodes. *)
Lemma recovered_held : same_nodes → runs_held (rv_runs r) ⊆+ runs_held runs.
Proof using Hrec Hjobs Hcodes Hnames.
  intros Hsame. apply (map_held_shrinks (λ run, jobs_held (wr_jobs run))). intros k run' Hk. right.
  destruct (rc_back _ _ _ _ _ Hrec _ _ Hk) as (run & Hk0 & _). exists run. split; [done|].
  apply (map_held_shrinks job_held). intros j job' Hj. right.
  destruct (recovered_job_back k j job') as (job & Hat & Hb); [apply job_at_Some; eauto|].
  exists job. rewrite (job_at_lookup _ _ _ _ Hk0) in Hat. split; [done|by apply Hb].
Qed.

Lemma recovered_wf : runs_wf runs → runs_wf (rv_runs r).
Proof using Hrec Hjobs Hcodes Hnames.
  intros Hwf k run' Hk. destruct (rc_back _ _ _ _ _ Hrec _ _ Hk) as (run & Hk0 & Hret).
  split; [apply Hret|]. intros j job' Hj.
  destruct (recovered_job_back k j job') as (job & Hat & Hb); [apply job_at_Some; eauto|].
  rewrite (job_at_lookup _ _ _ _ Hk0) in Hat. rewrite (cb_id _ _ _ _ _ Hb). by apply (Hwf _ _ Hk0).
Qed.

Lemma recovered_specs : runs_of_specs runs → runs_of_specs (rv_runs r).
Proof using Hrec Hjobs Hcodes Hnames.
  intros Hsp k run' Hk. destruct (rc_back _ _ _ _ _ Hrec _ _ Hk) as (run & Hk0 & Hret).
  destruct (Hsp _ _ Hk0) as (Hv & Hn & Hj & Hall).
  pose proof (re_identity _ _ _ _ _ _ Hret) as Hi.
  pose proof (f_equal (λ x, x.1.1) Hi) as En. pose proof (f_equal (λ x, x.1.2) Hi) as Es. cbn in En, Es.
  unfold run_of_spec. rewrite En, Es.
  split_and!; [done|done| |].
  - intros j job' Hj'. destruct (recovered_job_back k j job') as (job & Hat & Hb); [apply job_at_Some; eauto|].
    rewrite (job_at_lookup _ _ _ _ Hk0) in Hat. rewrite (cb_spec _ _ _ _ _ Hb). by apply Hj.
  - intros j Hin. destruct (Hall j Hin) as [job Hjob]. pose proof (re_jobs _ _ _ _ _ _ Hret j) as Hf.
    rewrite Hjob in Hf. inversion Hf; subst. by eexists.
Qed.

Lemma recovered_synced : snapshot0 ∅ runs db → synced ∅ [] (rv_runs r) (rv_db r).
Proof using Hrec.
  intros [_ _ _ _ [Hr _ _ _]]. split.
  - intros k run' Hk. destruct (rc_back _ _ _ _ _ Hrec _ _ Hk) as (run & Hk0 & Hret).
    rewrite (rc_runs _ _ _ _ _ Hrec), (Hr _ _ Hk0). f_equal. apply identity_record. by rewrite (re_identity _ _ _ _ _ _ Hret).
  - intros k run' j Hk. destruct (rc_back _ _ _ _ _ Hrec _ _ Hk) as (run & Hk0 & Hret). apply Hret.
  - intros k j job' (run' & Hk & Hj)%job_at_Some _.
    destruct (rc_back _ _ _ _ _ Hrec _ _ Hk) as (run & Hk0 & Hret). by apply Hret.
  - intros k j rec Hrow Hu. destruct (rv_runs r !! k) eqn:Hk; [left; by eexists|].
    rewrite (rc_rows _ _ _ _ _ Hrec) in Hrow by done.
    destruct (rc_live _ _ _ _ _ Hrec _ _ _ Hrow Hu) as [? ?]. congruence.
Qed.

End recovered.

(** The daemon as it starts to schedule, after recovery. *)
Definition restarted (r : Recovery) (w : W) : Sys :=
  mkSys (mkDaemonState (rv_runs r) (rv_pools r) ∅) (mkGpuChecks ∅ [] ∅) w (P_Finish [] []).

Lemma restarted_inv machines counters clock w r w' recorded db :
  snapshot0 ∅ recorded db → can_start machines →
  take_back_runs clock w (mkRecovery ∅ (ResourcePool.new <$> machines) counters db) = Ret r →
  fits machines (runs_held (rv_runs r)) →
  daemon_inv (restarted r w').
Proof using Htime Hspec Halloc Hnames.
  intros Hsnap (Hhome & Hlen & Hwfm) E1 Hfit.
  pose proof (recovery_recovers _ _ _ _ _ _ _ Hsnap E1) as Hrec.
  destruct Hsnap as [Hwf Hjobs Hsp Hcodes Hs].
  split; [split|]; cbn.
  - done.
  - by eapply recovered_wf.
  - destruct (take_back_runs_total clock w
      (mkRecovery ∅ (ResourcePool.new <$> machines) counters db)) as (r' & E' & Hl);
      [cbn; by rewrite length_fmap|]. rewrite E1 in E'. by injection E' as <-.
  - rewrite app_nil_r. eapply (recovery_books machines); [| | |exact E1|done]; done.
  - by eapply recovered_jobs_ok.
  - done.
  - by eapply recovered_specs.
Qed.

(** A job whose row is not pending comes back from what it was in memory. *)
Lemma taken_back_memory clock w k job0 job job' :
  moves job0 job → stored0 job0 = stored0 job →
  taken_back node_name0 clock w k job0 job' → taken_back node_name0 clock w k job job'.
Proof using Htime.
  assert (∀ t1 t2 : option DateTime, to_rfc3339 <$> t1 = to_rfc3339 <$> t2 → t1 = t2) as Htimes.
  { intros t1 t2 E1. rewrite <-(parse_written t1 Htime), <-(parse_written t2 Htime). by rewrite E1. }
  intros Hm. unfold stored, job_record. intros [= Es Ec Est%Htimes Eend%Htimes Elog Enode _ Ewhy].
  assert (ji_state job0 = ji_state job) as Es'.
  { revert Es. by destruct (ji_state job0), (ji_state job). }
  destruct Hm as [->|((Hid & _ & Hsp) & _ & Hkeep)]; [done|].
  unfold taken_back. rewrite Hid, Hsp, <-Ec, <-Est, <-Elog, <-Ewhy, <-Eend, <-Enode, <-Es'.
  intros (? & ? & ? & ? & ? & ? & ? & ? & Hcases). split_and!; try done.
  destruct Hcases as [?|[(Hs & ? & ? & e & n & node & handle & He & ?)|?]]; [by left| |by right; right].
  right. left. split_and!; [done..|]. exists e, n, node, handle.
  by rewrite Hkeep by congruence.
Qed.

Lemma back_from_memory clock w k job0 job job' :
  moves job0 job → stored0 job0 = stored0 job → back_from clock w k job0 job' → back_from clock w k job job'.
Proof using Htime.
  intros Hm Hst (job1 & [->|(Hs & t & ->)] & Htk).
  - exists job. split; [by left|by eapply taken_back_memory].
  - assert (job = job0) as -> by (apply moves_terminal; [done|by rewrite Hs]).
    exists (JobInstance.set_ended_at (Some t) job0). split; [|done]. right. split; [done|by exists t].
Qed.

End restart.

(** ** Lives *)

Section lives.
Context `{HashOrder} `{Rfc3339} `{Serde WorkflowSpec} `{Serde Allocation}.
Context {W : Type}.
Context (Htime : rfc3339_roundtrip) (Hspec : serde_roundtrip WorkflowSpec) (Halloc : serde_roundtrip Allocation).

(** What one life of the daemon runs on: its nodes as its configuration lists
    them, each name once, and a store that takes every write. *)
Record Config := mkConfig {
  cf_env : DaemonEnv W;
  cf_os : ShellOS W;
  cf_backed : StoreBacked W;
  cf_lands : WritesLand W;
  cf_names : NoDup (nd_name <$> @env_nodes W cf_env);
}.

Definition cf_db (cf : Config) (w : W) : RunStore := @sb_db W (cf_env cf) _ _ _ (cf_backed cf) w.

Definition cf_can_start (cf : Config) (machines : list SystemResources) : Prop := @can_start W (cf_env cf) machines.

Definition cf_step (cf : Config) (l l' : Life) : Prop := @db_step _ _ _ _ W (cf_env cf) (cf_backed cf) l l'.

(** The recovery, on the machines as they are now. *)
Definition cf_recover (cf : Config) (machines : list SystemResources) (counters : Counters)
    (clock : RecoveryClock) (w : W) : exec Recovery :=
  @take_back_runs _ _ _ _ W (cf_env cf) (cf_os cf) clock w
    (mkRecovery ∅ (ResourcePool.new <$> machines) counters (cf_db cf w)).

(** A daemon that starts on a store where everything has ended, runs, may be
    killed at any point and started again any number of times, each time with
    the nodes its configuration then lists, on machines that have what the jobs
    taken back were given.  Exit codes are 32-bit. *)
Inductive lives : Config → Life → Prop :=
  | life_first cf machines w :
      cf_can_start cf machines → all_ended (cf_db cf w) → lives cf (mkLife (initial machines w) ∅ ∅)
  | life_step cf l l' :
      lives cf l → cf_step cf l l' → codes_fit (ds_runs (sy_ds (lf_sys l'))) → lives cf l'
  | life_restart cf cf' machines counters clock w r w' l :
      lives cf l → cf_can_start cf' machines → cf_db cf' w = cf_db cf (sy_world (lf_sys l)) →
      cf_recover cf' machines counters clock w = Ret r →
      fits machines (runs_held (rv_runs r)) → cf_db cf' w' = rv_db r →
      lives cf' (mkLife (restarted r w') ∅ (lf_answered l)).

Definition cf_durable (cf : Config) (l : Life) : Prop := @durable _ _ _ W (cf_env cf) (cf_backed cf) l.

Definition cf_snapshot (cf : Config) := @snapshot _ _ _ W (cf_env cf) ∅.

(** What a crash leaves of a life: memory, up to the rows still to be written,
    and the submissions under way. *)
Lemma crash_leaves cf l :
  cf_durable cf l → ∃ recorded all,
    @ahead _ _ W (cf_env cf) (pc_lag (sy_pc (lf_sys l))) recorded (ds_runs (sy_ds (lf_sys l))) ∧
    cf_snapshot cf all (cf_db cf (sy_world (lf_sys l))) ∧ recorded ⊆ all ∧
    ∀ k run, all !! k = Some run → recorded !! k = Some run ∨
      ∃ sub, lf_subs l !! k = Some sub ∧ run = sub_run sub ∧ ds_runs (sy_ds (lf_sys l)) !! k = None.
Proof.
  intros [Hinv _ (recorded & Hsnap & Hah)].
  destruct (@snapshot_all _ _ _ W (cf_env cf) (cf_backed cf) (cf_lands cf) _ _ _ Hsnap) as (all & Hall & Hsub & Hfrom).
  { intros k sub Hk. pose proof (di_aloft _ Hinv _ _ Hk) as Ha. eapply aloft_frame; [exact Ha| |done..].
    eapply ahead_none; [exact Hah|apply Ha]. }
  exists recorded, all. split_and!; [done..|]. intros k run Hk.
  destruct (Hfrom _ _ Hk) as [?|(sub & Hs & -> & _)]; [by left|right]. exists sub.
  split_and!; [done..|]. apply (di_aloft _ Hinv _ _ Hs).
Qed.

(** The invariant of the next life. *)
Lemma restart_durable cf cf' machines counters clock w r w' l :
  cf_durable cf l → cf_can_start cf' machines → cf_db cf' w = cf_db cf (sy_world (lf_sys l)) →
  cf_recover cf' machines counters clock w = Ret r →
  fits machines (runs_held (rv_runs r)) → cf_db cf' w' = rv_db r →
  cf_durable cf' (mkLife (restarted r w') ∅ (lf_answered l)).
Proof using Htime Hspec Halloc.
  intros Hd Hstart Hw E Hfit Hw'. destruct (crash_leaves _ _ Hd) as (recorded & all & Hah & Hsnap & Hsub & Hfrom).
  unfold cf_recover in E. rewrite Hw in E.
  pose proof (@recovery_recovers _ _ _ _ W (cf_env cf) (cf_env cf') (cf_os cf') Htime Hspec Halloc (cf_names cf')
    _ _ _ _ _ _ _ Hsnap E) as Hrec.
  assert (@snapshot _ _ _ W (cf_env cf') ∅ (rv_runs r) (rv_db r)) as Hnext.
  { pose proof (@restarted_inv _ _ _ _ W (cf_env cf) (cf_env cf') (cf_os cf') Htime Hspec Halloc (cf_names cf')
      _ _ _ _ _ w' _ _ Hsnap Hstart E Hfit) as [Hinv Hspecs].
    destruct (Hsnap) as [_ Hok _ Hcodes _].
    split; [apply Hinv|apply Hinv|done| |].
    - eapply (recovered_codes (cf_env cf)); [apply cf_names|exact Hrec|done..].
    - eapply (recovered_synced (cf_env cf)); [exact Hrec|exact Hsnap]. }
  apply durable_quiet; [|apply Hnext|done]. split; cbn.
  - by eapply (@restarted_inv _ _ _ _ W (cf_env cf) (cf_env cf') (cf_os cf') Htime Hspec Halloc (cf_names cf')).
  - unfold sys_synced. cbn. unfold cf_db in Hw'. rewrite Hw', dom_empty_L. apply Hnext.
  - by intros k sub Hk.
  - intros k run' j Hin Hk' Hj. unfold cf_db in Hw'. rewrite Hw'. apply (rc_kept _ _ _ _ _ _ Hrec).
    destruct (rc_back _ _ _ _ _ _ Hrec _ _ Hk') as (run0 & Hk0 & Hret).
    assert (is_Some (wr_jobs run0 !! j)) as [job0 Hj0].
    { by rewrite (Forall2_is_Some _ _ _ (re_jobs _ _ _ _ _ _ _ Hret j)). }
    destruct (Hfrom _ _ Hk0) as [Hr|(sub & Hs & _)].
    + destruct (adv_fwd _ _ (proj1 (ah_progress _ _ _ Hah)) k j job0) as (job & Hjob & _); [apply job_at_Some; eauto|].
      apply job_at_Some in Hjob as (run & Hk & Hjob).
      eapply (di_whole _ (du_inv _ Hd)); [done|exact Hk|by eexists].
    + by rewrite (di_apart _ (du_inv _ Hd) _ Hin) in Hs.
  - intros k _. apply lookup_empty.
Qed.

Lemma lives_durable cf l : lives cf l → cf_durable cf l.
Proof using Htime Hspec Halloc.
  induction 1 as [cf machines w Hstart Hended|cf l l' _ IH Hstep Hcodes
    |cf cf' machines counters clock w r w' l _ IH Hstart Hw E Hfit Hw'].
  - apply durable_quiet; [by apply initial_db_inv|by intros k j job Hj|done].
  - eapply (@db_step_durable _ _ _ _ W (cf_env cf) (cf_backed cf) (cf_lands cf)); done.
  - by eapply restart_durable.
Qed.

(** A restart after a crash at whatever point: the recovery returns. *)
Lemma restart_recovers cf cf' machines counters clock w l :
  cf_durable cf l → cf_can_start cf' machines → cf_db cf' w = cf_db cf (sy_world (lf_sys l)) →
  ∃ r recorded all, cf_recover cf' machines counters clock w = Ret r ∧
    @ahead _ _ W (cf_env cf) (pc_lag (sy_pc (lf_sys l))) recorded (ds_runs (sy_ds (lf_sys l))) ∧
    cf_snapshot cf all (cf_db cf' w) ∧ recorded ⊆ all ∧
    (∀ k run, all !! k = Some run → recorded !! k = Some run ∨
      ∃ sub, lf_subs l !! k = Some sub ∧ run = sub_run sub ∧ ds_runs (sy_ds (lf_sys l)) !! k = None) ∧
    @recovers _ _ W (cf_env cf) (cf_env cf') (cf_os cf') clock w all (cf_db cf' w) r.
Proof using Htime Hspec Halloc.
  intros Hd Hstart Hw. destruct (crash_leaves _ _ Hd) as (recorded & all & Hah & Hsnap & Hsub & Hfrom).
  destruct (@take_back_runs_total _ _ _ _ W (cf_env cf') (cf_os cf') clock w
    (mkRecovery ∅ (ResourcePool.new <$> machines) counters (cf_db cf' w))) as (r & E & _);
    [cbn; rewrite length_fmap; apply Hstart|].
  rewrite <-Hw in Hsnap. exists r, recorded, all. split_and!; [done..|].
  by eapply (@recovery_recovers _ _ _ _ W (cf_env cf) (cf_env cf') (cf_os cf') Htime Hspec Halloc (cf_names cf')).
Qed.

Lemma same_stored_held (E : DaemonEnv W) job0 job :
  moves job0 job → @job_ok W E job0 → @job_ok W E job → @stored _ _ W E job0 = @stored _ _ W E job →
  job_held job0 = job_held job.
Proof.
  intros [->|(_ & _ & Hkeep)] [_ _ Hidle0] [_ _ Hidle]; [done|].
  unfold stored, job_record. intros [= Es _ _ _ _ _ _ _].
  assert (ji_state job0 = ji_state job) as Hs by (revert Es; by destruct (ji_state job0), (ji_state job)).
  unfold job_held. destruct (decide (ji_state job0 = JobState.Running)) as [Hr|Hr]; [by rewrite Hkeep by congruence|].
  by rewrite Hidle0, Hidle by congruence.
Qed.

(** With nothing left to write, machines and nodes that did not change have
    what the jobs taken back hold. *)
Lemma same_machines_fit cf cf' machines counters clock w l r :
  cf_durable cf l → cf_can_start cf' machines → cf_db cf' w = cf_db cf (sy_world (lf_sys l)) →
  cf_recover cf' machines counters clock w = Ret r →
  @same_nodes W (cf_env cf) (cf_env cf') → machines = rp_total <$> ds_pools (sy_ds (lf_sys l)) →
  pc_lag (sy_pc (lf_sys l)) = [] → fits machines (runs_held (rv_runs r)).
Proof using Htime Hspec Halloc.
  intros Hd Hstart Hw E Hsame Hm Hlag.
  destruct (restart_recovers _ _ _ counters clock _ _ Hd Hstart Hw)
    as (r' & recorded & all & E' & Hah & Hsnap & Hsub & Hfrom & Hrec).
  rewrite E in E'. injection E' as <-. pose proof (proj1 (di_daemon _ (du_inv _ Hd))) as Hinv.
  eapply fits_submseteq.
  { etransitivity.
    - eapply recovered_held; [apply cf_names|exact Hrec|apply Hsnap|apply Hsnap|done].
    - apply (map_held_shrinks (λ run, jobs_held (wr_jobs run)) (ds_runs (sy_ds (lf_sys l)))).
      intros k run0 Hk0. destruct (Hfrom _ _ Hk0) as [Hr|(sub & Hs & -> & _)].
      + right. pose proof (adv_run _ _ (proj1 (ah_progress _ _ _ Hah)) k) as Hrun. rewrite Hr in Hrun.
        destruct (ds_runs (sy_ds (lf_sys l)) !! k) as [run|] eqn:Hk; [|by inversion Hrun].
        exists run. split; [done|]. apply (map_held_shrinks job_held). intros j job0 Hj0. right.
        assert (job_at all k j = Some job0) as Hat0 by (apply job_at_Some; eauto).
        destruct (adv_fwd _ _ (proj1 (ah_progress _ _ _ Hah)) k j job0) as (job & Hjob & Hmv);
          [apply job_at_Some; eauto|].
        exists job. pose proof Hjob as Hjob1. rewrite (job_at_lookup _ _ _ _ Hk) in Hjob1. split; [done|].
        erewrite same_stored_held; [done|exact Hmv|by apply (sp_jobs _ _ _ Hsnap k j)|by apply (si_jobs _ Hinv k j)|].
        pose proof (rw_jobs _ _ _ (ah_rewrites _ _ _ Hah) k j) as Hst. rewrite Hlag, Hjob in Hst.
        unfold job_at in Hst. rewrite Hr in Hst. cbn in Hst. rewrite Hj0 in Hst.
        by apply (inj Some), Hst, not_elem_of_nil.
      + left. pose proof (di_aloft _ (du_inv _ Hd) _ _ Hs) as Ha.
        destruct (al_new _ _ _ _ Ha) as (? & ? & ? & ? & _ & ->). apply fresh_held. }
  rewrite Hm. eapply fits_app.
  pose proof (accounts_fit _ _ (si_books _ Hinv)) as Hfit. by rewrite Permutation_app_comm in Hfit.
Qed.

(** A run of memory, after the restart. *)
Lemma run_comes_back cf cf' clock w l r recorded all k run :
  cf_durable cf l →
  @ahead _ _ W (cf_env cf) (pc_lag (sy_pc (lf_sys l))) recorded (ds_runs (sy_ds (lf_sys l))) →
  cf_snapshot cf all (cf_db cf (sy_world (lf_sys l))) → recorded ⊆ all →
  @recovers _ _ W (cf_env cf) (cf_env cf') (cf_os cf') clock w all (cf_db cf (sy_world (lf_sys l))) r →
  ds_runs (sy_ds (lf_sys l)) !! k = Some run →
  (∃ j job, wr_jobs run !! j = Some job ∧ JobState.is_terminal (ji_state job) = false ∧
     (k ∈ lf_answered l ∨ is_Some (db_jobs (cf_db cf (sy_world (lf_sys l))) !! (k, j)))) →
  ∃ run', rv_runs r !! k = Some run' ∧ wr_run_id run' = k ∧ identity run' = identity run ∧
    (∀ j, is_Some (wr_jobs run' !! j) → is_Some (wr_jobs run !! j)) ∧
    ∀ j job, wr_jobs run !! j = Some job → ∃ job0 job', wr_jobs run' !! j = Some job' ∧
      moves job0 job ∧ @back_from W (cf_env cf) (cf_env cf') (cf_os cf') clock w k job0 job' ∧
      ((k, j) ∉ pc_lag (sy_pc (lf_sys l)) →
       @back_from W (cf_env cf) (cf_env cf') (cf_os cf') clock w k job job').
Proof using Htime.
  intros Hd [[Hadv _] Hrw] Hsnap Hsub Hrec Hk (j0 & job0 & Hj0 & Hlive & Hrow).
  assert (∀ j job, job_at recorded k j = Some job → job_at all k j = Some job) as Hup.
  { intros j job (run1 & Hk1 & Hj1)%job_at_Some. apply job_at_Some. exists run1. split; [|done].
    by eapply lookup_weaken. }
  assert (∀ j job, wr_jobs run !! j = Some job → ∃ job0, job_at recorded k j = Some job0 ∧ moves job0 job) as Hback.
  { intros j job Hj. assert (job_at (ds_runs (sy_ds (lf_sys l))) k j = Some job) as Hat by (apply job_at_Some; eauto).
    destruct (adv_bwd _ _ Hadv _ _ _ Hat) as [job1 Hjob1]. destruct (adv_fwd _ _ Hadv _ _ _ Hjob1) as (job2 & Hjob2 & Hm).
    exists job1. by simplify_eq. }
  assert (is_Some (rv_runs r !! k)) as [run' Hk'].
  { destruct (Hback _ _ Hj0) as (job1 & Hjob1 & Hm).
    assert (is_Some (db_jobs (cf_db cf (sy_world (lf_sys l))) !! (k, j0))) as [row Hrow0].
    { destruct Hrow as [Hin|]; [|done]. eapply (di_whole _ (du_inv _ Hd)); [done|exact Hk|by eexists]. }
    pose proof (sn_jobs _ _ _ _ (sp_synced _ _ _ Hsnap) _ _ _ (Hup _ _ Hjob1)) as Hshows.
    rewrite Hrow0 in Hshows. specialize (Hshows (not_elem_of_nil _)).
    eapply (rc_live _ _ _ _ _ _ Hrec k j0); [exact Hrow0|].
    assert (jt_state row = jt_state (@stored _ _ W (cf_env cf) job1)) as Hst by by destruct Hshows as [->|(_ & t & ->)].
    unfold unfinished. rewrite Hst. cbn.
    destruct (JobState.is_terminal (ji_state job1)) eqn:Et; [|by destruct (ji_state job1)].
    rewrite (moves_terminal _ _ Hm Et) in Hlive. congruence. }
  destruct (rc_back _ _ _ _ _ _ Hrec _ _ Hk') as (run0 & Hk0 & [Hid Hi Hjobs _ _]).
  assert (recorded !! k = Some run0) as Hr0.
  { destruct (Hback _ _ Hj0) as (job1 & (run1 & Hk1 & _)%job_at_Some & _).
    pose proof (lookup_weaken _ _ _ _ Hk1 Hsub). congruence. }
  assert (identity run0 = identity run) as Hsame.
  { pose proof (rw_run _ _ _ Hrw k) as Hr. rewrite Hr0, Hk in Hr. by apply (inj Some) in Hr. }
  exists run'. split_and!; [done|done|by rewrite Hi| |].
  - intros j [job' Hj']. specialize (Hjobs j). rewrite Hj' in Hjobs.
    apply Forall2_Some_r in Hjobs as (job1 & Hj1 & _).
    destruct (adv_fwd _ _ Hadv k j job1) as (job2 & Hj2 & _); [apply job_at_Some; eauto|].
    rewrite (job_at_lookup _ _ _ _ Hk) in Hj2. by eexists.
  - intros j job Hj. destruct (Hback _ _ Hj) as (job1 & Hjob1 & Hm). specialize (Hjobs j).
    pose proof Hjob1 as Hj1. rewrite (job_at_lookup _ _ _ _ Hr0) in Hj1. rewrite Hj1 in Hjobs.
    apply Forall2_Some_l in Hjobs as (job' & Hj' & Htaken). exists job1, job'. split_and!; [done..|].
    intros Hl'. eapply back_from_memory; [done|exact Hm| |exact Htaken].
    pose proof (rw_jobs _ _ _ Hrw _ _ Hl') as Hst.
    rewrite Hjob1, (job_at_lookup _ _ _ _ Hk), Hj in Hst. by apply (inj Some) in Hst.
Qed.

(** A run whose submission was cut off, after the restart. *)
Lemma cut_off_comes_back cf cf' clock w l r recorded all k run' :
  cf_durable cf l →
  @ahead _ _ W (cf_env cf) (pc_lag (sy_pc (lf_sys l))) recorded (ds_runs (sy_ds (lf_sys l))) →
  cf_snapshot cf all (cf_db cf' w) →
  (∀ k run, all !! k = Some run → recorded !! k = Some run ∨
    ∃ sub, lf_subs l !! k = Some sub ∧ run = sub_run sub ∧ ds_runs (sy_ds (lf_sys l)) !! k = None) →
  @recovers _ _ W (cf_env cf) (cf_env cf') (cf_os cf') clock w all (cf_db cf' w) r →
  rv_runs r !! k = Some run' → ds_runs (sy_ds (lf_sys l)) !! k = None →
  ∃ sub, lf_subs l !! k = Some sub ∧ identity run' = identity (sub_run sub) ∧
    ∀ j job', wr_jobs run' !! j = Some job' →
      is_Some (wr_jobs (sub_run sub) !! j) ∧ ji_state job' = JobState.Pending.
Proof.
  intros Hd Hah Hsnap Hfrom Hrec Hk' Hno.
  destruct (rc_back _ _ _ _ _ _ Hrec _ _ Hk') as (run0 & Hk0 & [_ Hi Hjobs _ _]).
  destruct (Hfrom _ _ Hk0) as [Hr|(sub & Hs & -> & _)]; [by rewrite (ahead_none _ _ _ _ Hah Hno) in Hr|].
  exists sub. split_and!; [done..|]. intros j job' Hj'. specialize (Hjobs j). rewrite Hj' in Hjobs.
  apply Forall2_Some_r in Hjobs as (job & Hj & Hback). split; [by eexists|].
  assert (ji_state job = JobState.Pending) as Hp.
  { pose proof (di_aloft _ (du_inv _ Hd) _ _ Hs) as Ha.
    destruct (al_new _ _ _ _ Ha) as (? & ? & ? & ? & _ & E). rewrite E in Hj. by apply new_fresh in Hj as (_ & ? & _). }
  assert (job_at all k j = Some job) as Hat by (apply job_at_Some; eauto).
  destruct (cb_state _ _ _ _ _ _ (back_from_comes_back _ (cf_names cf') _ _ _ _ _
    (proj1 (sp_jobs _ _ _ Hsnap _ _ _ Hat)) (sp_codes _ _ _ Hsnap _ _ _ Hat) Hback)) as [->|[? _]]; [done|congruence].
Qed.

(** ** Properties *)

(** C8: The store follows memory, as long as it takes every write.  In every
    state of the daemon, whatever was submitted and cancelled and however often
    it was restarted, each job's row is the job's record as it is in memory,
    except for the jobs whose writes the scheduler still has before it, of
    which there are none between two phases.  A run's own row is always there.
    A job has no row only if the submission of its run was cut off before it
    was answered, and then the job is still as it was submitted; so a run whose
    submission was answered, in whatever life, is stored whole.  (The end of a
    job that a restart found gone is the one thing memory and row each take
    from the clock.  Every restart covered found the machines with what the
    jobs it took back hold, and ran its recovery to the end.) *)
Theorem store_follows_memory cf l :
  lives cf l →
  let runs := ds_runs (sy_ds (lf_sys l)) in
  let db := cf_db cf (sy_world (lf_sys l)) in
  (∀ k j job, job_at runs k j = Some job → (k, j) ∉ pc_lag (sy_pc (lf_sys l)) →
     match db_jobs db !! (k, j) with
     | Some row =>
         (ji_state job ≠ JobState.Interrupted → row = job_record job (@node_name W (cf_env cf) job)) ∧
         (ji_state job = JobState.Interrupted → ∃ ended,
            row = job_record (JobInstance.set_ended_at ended job) (@node_name W (cf_env cf) job))
     | None => k ∉ lf_answered l ∧ job_record job (@node_name W (cf_env cf) job) = fresh_record
     end) ∧
  (∀ k run, runs !! k = Some run →
     db_runs db !! k = Some (run_record run) ∧
     (∀ j, is_Some (db_jobs db !! (k, j)) → is_Some (wr_jobs run !! j)) ∧
     (k ∈ lf_answered l → ∀ j, is_Some (wr_jobs run !! j) → is_Some (db_jobs db !! (k, j)))).
Proof using Htime Hspec Halloc.
  intros [[_ Hs _ Hwhole _] _ _]%lives_durable runs db. split.
  - intros k j job Hj Hl. pose proof (sn_jobs _ _ _ _ Hs _ _ _ Hj Hl) as Hb. unfold backed in Hb.
    change (sb_db _) with db in Hb, Hwhole. destruct (db_jobs db !! (k, j)) as [row|] eqn:Hrow.
    + apply shows_retimed in Hb as (job1 & [->|(Hi & t & ->)] & ->).
      * split; [done|]. intros _. exists (ji_ended_at job). by destruct job.
      * split; [done|]. intros _. by exists (Some t).
    + split; [|done]. intros Hin. apply job_at_Some in Hj as (run & Hk & Hjob).
      destruct (Hwhole _ _ j Hin Hk) as [? ?]; [by eexists|congruence].
  - intros k run Hk. split_and!; [by apply Hs|by intros j; eapply Hs|]. intros Hin j. by eapply Hwhole.
Qed.

(** C7: A crash loses nothing the daemon owed.  Whatever the daemon did and
    wherever it was killed, in the middle of a phase's writes or of a submission's
    too, a restart from its store, with the nodes the configuration now lists,
    gets through its recovery.  Every run of memory with an unfinished job is
    there, if its submission was answered, or else if that job's row was written
    in time: the same workflow under the same id and creation time, exactly its
    jobs, each in the state it was in, with its times, exit code, log and reason,
    or, if its row was still to be written, as it was one move of the state
    machine before.  A running job is polled again on its node with what it held,
    and only one whose node is no longer there, or of which this machine has
    nothing left, ends as Interrupted.  What else comes back is a run whose
    submission was cut off, with every job Pending.  If the machines have what the
    jobs taken back hold (they do when nodes and machines are as they were and no
    row was pending) the daemon goes on living from there.  All this for a store
    that takes every write and a recovery that is not itself cut off.  (One that an
    earlier restart interrupted has the end its row gives.) *)
Theorem crash_loses_nothing cf cf' machines counters clock w l :
  lives cf l → cf_can_start cf' machines → cf_db cf' w = cf_db cf (sy_world (lf_sys l)) →
  ∃ r, cf_recover cf' machines counters clock w = Ret r ∧
    (∀ k run, ds_runs (sy_ds (lf_sys l)) !! k = Some run →
      (∃ j job, wr_jobs run !! j = Some job ∧ JobState.is_terminal (ji_state job) = false ∧
         (k ∈ lf_answered l ∨ is_Some (db_jobs (cf_db cf' w) !! (k, j)))) →
      ∃ run', rv_runs r !! k = Some run' ∧ wr_run_id run' = k ∧ identity run' = identity run ∧
        (∀ j, is_Some (wr_jobs run' !! j) → is_Some (wr_jobs run !! j)) ∧
        ∀ j job, wr_jobs run !! j = Some job → ∃ job0 job', wr_jobs run' !! j = Some job' ∧
          moves job0 job ∧ @back_from W (cf_env cf) (cf_env cf') (cf_os cf') clock w k job0 job' ∧
          ((k, j) ∉ pc_lag (sy_pc (lf_sys l)) →
           @back_from W (cf_env cf) (cf_env cf') (cf_os cf') clock w k job job')) ∧
    (∀ k run', rv_runs r !! k = Some run' → ds_runs (sy_ds (lf_sys l)) !! k = None →
      ∃ sub, lf_subs l !! k = Some sub ∧ identity run' = identity (sub_run sub) ∧
        ∀ j job', wr_jobs run' !! j = Some job' →
          is_Some (wr_jobs (sub_run sub) !! j) ∧ ji_state job' = JobState.Pending) ∧
    (@same_nodes W (cf_env cf) (cf_env cf') → machines = rp_total <$> ds_pools (sy_ds (lf_sys l)) →
     pc_lag (sy_pc (lf_sys l)) = [] → fits machines (runs_held (rv_runs r))) ∧
    ∀ w', fits machines (runs_held (rv_runs r)) → cf_db cf' w' = rv_db r →
      lives cf' (mkLife (restarted r w') ∅ (lf_answered l)).
Proof using Htime Hspec Halloc.
  intros Hl Hstart Hw. pose proof (lives_durable _ _ Hl) as Hd.
  destruct (restart_recovers _ _ _ counters clock _ _ Hd Hstart Hw)
    as (r & recorded & all & E & Hah & Hsnap & Hsub & Hfrom & Hrec).
  exists r. split_and!; [done| | | |].
  - intros k run Hk Hlive. rewrite Hw in Hlive, Hsnap, Hrec.
    by eapply run_comes_back.
  - intros k run' Hk' Hno. by eapply cut_off_comes_back.
  - intros Hsame Hm Hlag. by eapply same_machines_fit.
  - intros w' Hfit Hw'. by eapply life_restart.
Qed.

(** C9: What the daemon guarantees, it guarantees across restarts, each on
    machines that have what the jobs it took back hold (where they have not,
    the pools are over-committed or a release panics), whose inventories have
    no gap, and with a store that takes every write: the scheduler never panics;
    on every node what is free and what jobs, launches in flight and card tests
    hold add up to what the machine has; jobs hold something only while they
    are Running; and a job that is past Pending (but for a skipped one) has its
    dependencies succeeded, also those that ended in an earlier life.  The nodes
    may be other ones in every life. *)
Theorem guarantees_survive_restarts cf l :
  lives cf l →
  let s := lf_sys l in
  (∀ c, ∃ s', @sched_step _ W (cf_env cf) c s = Ret s') ∧
  cluster_accounts (ds_pools (sy_ds s)) (all_held s) ∧
  ∀ k j job, job_at (ds_runs (sy_ds s)) k j = Some job →
    (ji_executions job ≠ [] → ji_state job = JobState.Running) ∧
    (ji_state job ≠ JobState.Pending → ji_state job ≠ JobState.Skipped →
     ∀ d, d ∈ js_depends_on (ji_spec job) → ∃ jd, job_at (ds_runs (sy_ds s)) k d = Some jd ∧
       ji_state jd = JobState.Succeeded).
Proof using Htime Hspec Halloc.
  intros [[[Hinv _] _ _ _ _] _ _]%lives_durable s. split_and!; [|apply Hinv|].
  - intros c. destruct (@sched_inv _ W (cf_env cf) c s Hinv) as (s' & E & _). by exists s'.
  - intros k j job Hj. destruct (si_jobs _ Hinv _ _ _ Hj) as [Hok Hjust]. split.
    + intros Hne. destruct (decide (ji_state job = JobState.Running)) as [|Hs]; [done|].
      destruct Hne. by apply (jo_idle _ Hok).
    + unfold justified in Hjust. intros Hnp Hns. by destruct (ji_state job).
Qed.

(** Submissions, and any number of stretches. *)
Lemma lives_steps cf l l' :
  rtc (@coded_step _ _ _ _ W (cf_env cf) (cf_backed cf)) l l' → lives cf l → lives cf l'.
Proof using Htime Hspec Halloc.
  induction 1 as [|l1 l2 l3 [Hstep Hcodes] _ IH]; [done|]. intros Hl. apply IH.
  eapply life_step; [exact Hl|done|]. apply Hcodes, (lives_durable _ _ Hl).
Qed.

End lives.

(** ** Witnesses: a run in flight, over a store *)

Section demo.
#[local] Existing Instance canonical_order.
#[local] Existing Instance demo_rfc3339.
#[local] Existing Instance demo_spec_serde.
#[local] Existing Instance demo_allocation_serde.
#[local] Existing Instance demo_stored_env.
#[local] Existing Instance demo_stored_backed.

Definition demo_db_initial : Sys := initial [demo_resources] (mkRunStore ∅ ∅, 0).

Definition demo_db_submitted : Sys :=
  match handle_submit demo_two_jobs "" (mkCounters 0 0) (sy_ds demo_db_initial) (sy_world demo_db_initial) with
  | Some (Ret (_, _, ds, w)) => mkSys ds (sy_checks demo_db_initial) w (sy_pc demo_db_initial)
  | _ => demo_db_initial
  end.

Definition demo_db_at (n : nat) : Sys :=
  match sched_run n demo_choices demo_db_submitted with Ret s => s | Panic => demo_db_submitted end.

(** No job has an exit code yet. *)
Definition no_codes (s : Sys (W := RunStore * N)) : bool :=
  bool_decide (map_Forall (λ _ run, map_Forall (λ _ job, ji_exit_code job = None) (wr_jobs run)) (ds_runs (sy_ds s))).

Fixpoint runs_without_codes (n : nat) (c : Choices) (s : Sys) : bool :=
  match n with
  | O => true
  | S n' => match sched_step c s with Ret s' => no_codes s' && runs_without_codes n' c s' | Panic => true end
  end.

Lemma no_codes_fit (s : Sys) : no_codes s = true → codes_fit (ds_runs (sy_ds s)).
Proof.
  intros Hb%bool_decide_eq_true k j job (run & Hk & Hj)%job_at_Some code Hc.
  by rewrite (Hb _ _ Hk _ _ Hj) in Hc.
Qed.

Lemma demo_db_can_start : can_start [demo_resources].
Proof.
  split_and!; [by eexists|done|]. apply Forall_singleton, (bool_decide_unpack _). vm_compute. exact I.
Qed.

(** A machine on which the job's scope still has its process. *)
Definition demo_stored_os {W} : ShellOS W := {|
  os_home := "/home/user";
  os_scopes := true;
  os_current_exe := "/usr/bin/roster";
  os_cwd := "/home/user";
  os_path := "/usr/bin";
  os_split_paths := ["/usr/bin"];
  os_read := λ path _, if String.eqb path "/sys/fs/cgroup/job/cgroup.procs" then Ok ("1000" +:+ newline)
                       else Err "No such file or directory";
  os_exists := λ _ _, false;
  os_metadata := λ _ _, Some (true, 493);
  os_status := λ _ _ w, (Ok true, w);
  os_create_parent := λ _ w, (Ok tt, w);
  os_create_log := λ _ w, (Ok tt, w);
  os_spawn := λ _ w, (Ok 1000, w);
  os_waitpid := λ _ w, (WaitStillAlive, w);
  os_killpg := λ _ _ w, (Ok tt, w);
  os_sleep := λ w, w;
  os_control_group := λ _ _, Some ("/job" +:+ newline);
  os_stop_scope := λ _ w, w;
|}.

#[local] Existing Instance demo_stored_os.

Lemma demo_spec_roundtrip : serde_roundtrip WorkflowSpec.
Proof. apply demo_serde_roundtrip. Qed.

Lemma demo_allocation_roundtrip : serde_roundtrip Allocation.
Proof. apply demo_serde_roundtrip. Qed.

Lemma demo_names : NoDup (nd_name <$> env_nodes).
Proof. apply NoDup_singleton. Qed.

Definition demo_config : Config := {|
  cf_env := demo_stored_env;
  cf_os := demo_stored_os;
  cf_backed := demo_stored_backed;
  cf_lands := demo_writes_land;
  cf_names := demo_names;
|}.

Lemma sched_run_lives n c s s' subs answered :
  sched_run n c s = Ret s' → runs_without_codes n c s = true →
  lives demo_config (mkLife s subs answered) → lives demo_config (mkLife s' subs answered).
Proof.
  revert s. induction n as [|n IH]; intros s; [by intros [= ->]|].
  intros (s1 & E & Hr)%bind_Ret_inv Hc Hl. cbn in Hc. rewrite E in Hc. apply andb_prop in Hc as [Hc1 Hc].
  apply (IH s1); [done..|]. eapply life_step; [done|by eapply db_sched|by apply no_codes_fit].
Qed.

Lemma demo_initial_lives : lives demo_config (mkLife demo_db_initial ∅ ∅).
Proof.
  apply life_first; [apply demo_db_can_start|]. intros k j rec Hrec. cbn in Hrec. by rewrite lookup_empty in Hrec.
Qed.

Lemma demo_db_submitted_lives : lives demo_config (mkLife demo_db_submitted ∅ {["run"]}).
Proof.
  assert (match handle_submit demo_two_jobs "" (mkCounters 0 0) (sy_ds demo_db_initial) (sy_world demo_db_initial) with
    | Some (Ret (Response_Submitted id, _, _, _)) => String.eqb id "run" | _ => false end = true) as Hok
    by (vm_compute; reflexivity).
  unfold demo_db_submitted.
  destruct (handle_submit _ _ _ _ _) as [[[[[resp c] ds] w]|]|] eqn:E; [|done..].
  destruct resp; try done. apply String.eqb_eq in Hok as ->.
  replace {["run"]} with ({["run"]} ∪ ∅ : gset string) by set_solver.
  eapply lives_steps; [apply demo_rfc3339_roundtrip|apply demo_spec_roundtrip|apply demo_allocation_roundtrip| |apply demo_initial_lives].
  eapply (submission_in_steps demo_two_jobs); [exact E|]. by split; try set_solver.
Qed.

Definition demo_life (n : nat) : Life := mkLife (demo_db_at n) ∅ {["run"]}.

Lemma demo_lives n : runs_without_codes n demo_choices demo_db_submitted = true → lives demo_config (demo_life n).
Proof.
  intros Hc. unfold demo_life, demo_db_at. destruct (sched_run _ _ _) as [s|] eqn:E; [|apply demo_db_submitted_lives].
  eapply sched_run_lives; [done..|apply demo_db_submitted_lives].
Qed.

Lemma demo_lives_12 : lives demo_config (demo_life 12).
Proof. apply demo_lives. vm_compute. reflexivity. Qed.

Lemma demo_lives_17 : lives demo_config (demo_life 17).
Proof. apply demo_lives. vm_compute. reflexivity. Qed.

(** The job in a computed state. *)
Lemma demo_db_job n j st :
  ji_state <$> job_at (ds_runs (sy_ds (demo_db_at n))) "run" j = Some st →
  ∃ job, job_at (ds_runs (sy_ds (demo_db_at n))) "run" j = Some job ∧ ji_state job = st.
Proof. destruct (job_at _ _ _) as [job|]; [|done]. intros [= <-]. eauto. Qed.

Lemma store_follows_memory_witness :
  pc_lag (sy_pc (demo_db_at 17)) = [] ∧
  jt_state <$> db_jobs (sb_db (sy_world (demo_db_at 17))) !! ("run", "a") = Some "Running".
Proof.
  destruct (store_follows_memory demo_rfc3339_roundtrip demo_spec_roundtrip demo_allocation_roundtrip
    demo_config (demo_life 17) demo_lives_17)
    as [Hrows Hruns].
  destruct (demo_db_job 17 "a" JobState.Running) as (job & Hj & Hs); [vm_compute; reflexivity|].
  assert (pc_lag (sy_pc (demo_db_at 17)) = []) as Hlag by (vm_compute; reflexivity).
  pose proof (proj1 (job_at_Some _ _ _ _) Hj) as (run & Hk & Hjob).
  destruct (Hruns "run" run Hk) as (_ & _ & Hwhole).
  destruct (Hwhole ltac:(by apply elem_of_singleton) "a") as [row Hrow]; [by exists job|].
  specialize (Hrows "run" "a" job Hj). cbn [demo_life lf_sys] in Hrows. rewrite Hlag in Hrows.
  specialize (Hrows (not_elem_of_nil _)). cbn [demo_life lf_sys] in Hrow. rewrite Hrow in Hrows.
  destruct Hrows as [Hsame _]. change (cf_db demo_config) with (sb_db (W := RunStore * N)) in Hrow.
  split; [exact Hlag|]. rewrite Hrow, Hsame by (rewrite Hs; discriminate). cbn. rewrite Hs. reflexivity.
Defined.

Definition demo_take_back (n : nat) : exec Recovery :=
  cf_recover demo_config [demo_resources] (mkCounters 0 0) demo_clock (sy_world (demo_db_at n)).

(** Killed with the launch of [a] applied and its row not yet written: [a] comes
    back Queued. *)
Lemma crash_loses_nothing_witness :
  ∃ r run' job0 job', demo_take_back 12 = Ret r ∧ rv_runs r !! "run" = Some run' ∧
    ji_state <$> job_at (ds_runs (sy_ds (demo_db_at 12))) "run" "a" = Some JobState.Running ∧
    wr_jobs run' !! "a" = Some job' ∧
    back_from demo_stored_env demo_clock (sy_world (demo_db_at 12)) "run" job0 job' ∧
    pc_lag (sy_pc (demo_db_at 12)) = [("run", "a")] ∧
    ji_state <$> (wr_jobs run' !! "a") = Some JobState.Queued.
Proof.
  destruct (demo_db_job 12 "a" JobState.Running) as (job & Hj & Hs); [vm_compute; reflexivity|].
  pose proof (proj1 (job_at_Some _ _ _ _) Hj) as (run & Hk & Hjob).
  destruct (crash_loses_nothing demo_rfc3339_roundtrip demo_spec_roundtrip demo_allocation_roundtrip
    demo_config demo_config [demo_resources] (mkCounters 0 0) demo_clock (sy_world (demo_db_at 12)) (demo_life 12))
    as (r & E & Hback & _); [exact demo_lives_12|exact demo_db_can_start|reflexivity|].
  destruct (Hback "run" run Hk) as (run' & Hk' & _ & _ & _ & Hjobs).
  { exists "a", job. rewrite Hs. split; [exact Hjob|split; [reflexivity|left; by apply elem_of_singleton]]. }
  destruct (Hjobs "a" job Hjob) as (job0 & job' & Hj' & _ & Htaken & _).
  exists r, run', job0, job'. split; [exact E|]. split; [exact Hk'|].
  split; [rewrite Hj; cbn; by rewrite Hs|]. split; [exact Hj'|]. split; [exact Htaken|].
  split; [vm_compute; reflexivity|].
  assert ((λ r, ji_state <$> job_at (rv_runs r) "run" "a") <$> Prelude.returned (demo_take_back 12) = Some (Some JobState.Queued))
    as Hq by (vm_compute; reflexivity).
  unfold demo_take_back in Hq. rewrite E in Hq. cbn in Hq. injection Hq as Hq.
  unfold job_at in Hq. rewrite Hk' in Hq. exact Hq.
Defined.

(** The second life of the daemon, from the store of the first. *)
Definition demo_second : Sys :=
  match demo_take_back 17 with
  | Ret r => restarted r (rv_db r, 0)
  | Panic => demo_db_at 17
  end.

Lemma demo_second_lives : lives demo_config (mkLife demo_second ∅ {["run"]}).
Proof.
  unfold demo_second. destruct (demo_take_back 17) as [r|] eqn:E; [|exact demo_lives_17].
  assert (cf_durable demo_config (demo_life 17)) as Hd.
  { apply lives_durable; [apply demo_rfc3339_roundtrip|apply demo_spec_roundtrip|apply demo_allocation_roundtrip|apply demo_lives_17]. }
  assert (fits [demo_resources] (runs_held (rv_runs r))) as Hfit.
  { refine (same_machines_fit demo_rfc3339_roundtrip demo_spec_roundtrip demo_allocation_roundtrip
      demo_config demo_config [demo_resources] (mkCounters 0 0) demo_clock (sy_world (demo_db_at 17)) (demo_life 17) r
      Hd demo_db_can_start eq_refl E (λ _, eq_refl) _ _); vm_compute; reflexivity. }
  exact (life_restart demo_config demo_config [demo_resources] (mkCounters 0 0) demo_clock (sy_world (demo_db_at 17)) r
    (rv_db r, 0) (demo_life 17) demo_lives_17 demo_db_can_start eq_refl E Hfit eq_refl).
Qed.

Lemma guarantees_survive_restarts_witness :
  (ji_state <$> job_at (ds_runs (sy_ds demo_second)) "run" "a") = Some JobState.Running ∧
  (∃ s', sched_step demo_choices demo_second = Ret s') ∧
  cluster_accounts (ds_pools (sy_ds demo_second)) (all_held demo_second).
Proof.
  destruct (guarantees_survive_restarts demo_rfc3339_roundtrip demo_spec_roundtrip demo_allocation_roundtrip
    demo_config _ demo_second_lives) as (Hstep & Hbooks & _).
  split; [vm_compute; reflexivity|]. exact (conj (Hstep demo_choices) Hbooks).
Defined.

(** ** A submission the crash cuts off

    The submission writes its run's row and then a row per job, and answers
    when all are written.  Killed in between, the run comes back with all its
    jobs, those without a row still without one; the store then lacks a row
    until the job's first change, and a run whose other jobs have ended by then
    counts as ended for the next restart. *)

Definition cut_off : RunStore :=
  let run := WorkflowRun.new "run" 0 (demo_spec demo_chain) 0 0%Z in
  foldl (λ db job, upsert_job_row "run" job None db) (upsert_run_row run (mkRunStore ∅ ∅))
    (List.filter (λ job, String.eqb (ji_job_id job) "a") (hm_values (wr_jobs run))).

Definition demo_restart (db : RunStore) : Sys :=
  match take_back_runs demo_clock (db, 0) (mkRecovery ∅ (ResourcePool.new <$> [demo_resources]) (mkCounters 0 0) db) with
  | Ret r => restarted r (rv_db r, 0)
  | Panic => demo_db_initial
  end.

Definition demo_after_cut_off : Sys :=
  match sched_run 40 demo_choices (demo_restart cut_off) with Ret s => s | Panic => demo_db_initial end.

Example cut_off_submission :
  (λ j, ji_state <$> job_at (ds_runs (sy_ds (demo_restart cut_off))) "run" j) <$> ["a"; "b"]
    = [Some JobState.Pending; Some JobState.Pending] ∧
  (λ j, ji_state <$> job_at (ds_runs (sy_ds demo_after_cut_off)) "run" j) <$> ["a"; "b"]
    = [Some JobState.Succeeded; Some JobState.Pending] ∧
  pc_lag (sy_pc demo_after_cut_off) = [] ∧
  ds_runs (sy_ds (demo_restart (sb_db (sy_world demo_after_cut_off)))) = ∅.
Proof. split_and!; vm_compute; reflexivity. Qed.

End demo.

(** ** A launch the crash comes after

    The launch reached the node, and the row that says so was not written: the
    next life has the job Queued.  Back on the same node the launch finds the
    job running ([Worker.worker_starts_once]); but nothing says it goes there. *)

Section two_nodes.
#[local] Existing Instance canonical_order.
#[local] Existing Instance demo_rfc3339.
#[local] Existing Instance demo_spec_serde.
#[local] Existing Instance demo_allocation_serde.
#[local] Existing Instance demo_stored_os.

(** The tables, whether the first node answers, and which node started what. *)
Notation World := (RunStore * (bool * list (string * string)))%type.

Definition pair_executor (name : string) : Executor World := mkExecutor _
  (λ _ job _ w, (Ok (JobHandle.remote 0 "run" (ji_job_id job)), (w.1, (w.2.1, w.2.2 ++ [(name, ji_job_id job)]))))
  (λ _ w, (Ok PollRunning, w)) (λ _ w, (Ok tt, w)) (λ _ _ _ w, (Ok "", w)).

Definition pair_node (name : string) (online : World → bool) : Node World :=
  mkNode _ name (Some name) (pair_executor name) None online (λ _, None) (λ _ w, (Ok Response_Recorded, w)).

Definition pair_env : DaemonEnv World := {|
  env_nodes := [pair_node "gpu1" (λ w, w.2.1); pair_node "gpu2" (λ _, true)];
  env_home := Some "/home/user";
  env_resources := demo_resources;
  upsert_run := λ run w, (upsert_run_row run w.1, w.2);
  upsert_job := λ run_id job node w, (upsert_job_row run_id job node w.1, w.2);
  send := λ _ w, w;
  read_gpus := λ _, [];
|}.
#[local] Existing Instance pair_env.

Definition pair_run (n : nat) (s : Sys) : Sys :=
  match sched_run n demo_choices s with Ret s' => s' | Panic => s end.

Definition pair_submitted : Sys :=
  let s := initial [demo_resources; demo_resources] (mkRunStore ∅ ∅, (true, [])) in
  match handle_submit demo_two_jobs "" (mkCounters 0 0) (sy_ds s) (sy_world s) with
  | Some (Ret (_, _, ds, w)) => mkSys ds (sy_checks s) w (sy_pc s)
  | _ => s
  end.

(** Killed right after the launch; the first node is out of reach when the next
    life schedules. *)
Definition pair_killed : Sys := pair_run 12 pair_submitted.

Definition pair_second : Sys :=
  let w := sy_world pair_killed in
  match take_back_runs demo_clock w
    (mkRecovery ∅ (ResourcePool.new <$> [demo_resources; demo_resources]) (mkCounters 0 0) w.1) with
  | Ret r => restarted r (rv_db r, (false, w.2.2))
  | Panic => pair_killed
  end.

Example relaunched_elsewhere :
  pc_lag (sy_pc pair_killed) = [] ∧ (sy_world pair_killed).2.2 = [("gpu1", "a")] ∧
  (sy_world (pair_run 12 pair_second)).2.2 = [("gpu1", "a"); ("gpu2", "a")] ∧
  ji_state <$> job_at (ds_runs (sy_ds (pair_run 12 pair_second))) "run" "a" = Some JobState.Running.
Proof. split_and!; vm_compute; reflexivity. Qed.
End two_nodes.
