(* ===== verification/Ptx.v ===== *)
(** * PTX: the instructions the card test's kernels use

    [src/resource/cuda.rs] carries its kernels as PTX text.  This file has the
    instructions they use, what each does to a thread's registers and to global
    memory, and a grid of threads whose instructions interleave in any order,
    with the rule by which [Cuda.v] proves kernels: assertions on each thread
    that no other thread's step breaks (Owicki and Gries). *)

From S2P Require Import Prelude.

(** ** Syntax *)

Inductive operand : Type :=
  | Reg (r : nat)   (* %r *)
  | Imm (n : N).    (* an immediate *)

Inductive sreg : Type := ctaid_x | ntid_x | tid_x | nctaid_x.

(** The type suffix of an instruction is part of its name; [%r], [%rd] and [%p]
    registers are numbered apart. *)
Inductive instr : Type :=
  | ld_param_u64 (d : nat) (param : string)
  | ld_param_u32 (d : nat) (param : string)
  | cvta_to_global_u64 (d a : nat)
  | mov_sreg (d : nat) (s : sreg)
  | mov_u32 (d : nat) (a : operand)
  | mad_lo_u32 (d : nat) (a b c : operand)
  | mul_lo_u32 (d : nat) (a b : operand)
  | add_u32 (d : nat) (a b : operand)
  | xor_b32 (d : nat) (a b : operand)
  | shr_u32 (d : nat) (a : operand) (n : N)
  | cvt_u64_u32 (d a : nat)
  | cvt_u32_u64 (d a : nat)
  | mul_wide_u32 (d : nat) (a b : operand)
  | add_s64 (d a b : nat)
  | shl_b64 (d a : nat) (n : N)
  | setp_ge_u32 (p : nat) (a b : operand)
  | setp_eq_u32 (p : nat) (a b : operand)
  | setp_ge_u64 (p a b : nat)
  | bra (label : string)
  | bra_if (p : nat) (label : string)   (* @%p bra *)
  | st_global_u32 (a v : nat)
  | ld_global_u32 (d a : nat)
  | atom_global_add_u32 (d a : nat) (n : N)
  | ret.

Inductive line : Type := Ins (i : instr) | Label (name : string).

Definition is_label (name : string) (l : line) : bool :=
  match l with Label n => String.eqb n name | Ins _ => false end.

Fixpoint label_index (name : string) (prog : list line) : option nat :=
  match prog with
  | [] => None
  | l :: prog => if is_label name l then Some O else S <$> label_index name prog
  end.

(** ** One thread *)

(** Words of global memory by their byte address. *)
Abbreviation memory := (gmap N N).

Record thread := mkThread {
  t_pc : nat;
  t_r : nat → option N;   (* 32 bits *)
  t_rd : nat → option N;  (* 64 bits *)
  t_p : nat → option bool;
}.

(** What a thread is launched with; [read a v] is what address [a] gives when
    it holds [v], which a healthy card's memory gives back as it is. *)
Record launch := mkLaunch {
  l_ctaid : N; l_ntid : N; l_tid : N; l_nctaid : N;
  l_param : string → option N;
  l_read : N → N → N;
}.

Definition upd {A} (k : nat) (v : A) (f : nat → option A) : nat → option A :=
  λ i, if Nat.eqb i k then Some v else f i.

Definition start_thread : thread := mkThread 0 (λ _, None) (λ _, None) (λ _, None).

Definition wrap32 (n : N) : N := n mod 2 ^ 32.
Definition wrap64 (n : N) : N := n mod 2 ^ 64.

Definition next (t : thread) : thread := mkThread (S (t_pc t)) (t_r t) (t_rd t) (t_p t).
Definition set_r (d : nat) (v : N) (t : thread) : thread :=
  mkThread (S (t_pc t)) (upd d v (t_r t)) (t_rd t) (t_p t).
Definition set_rd (d : nat) (v : N) (t : thread) : thread :=
  mkThread (S (t_pc t)) (t_r t) (upd d v (t_rd t)) (t_p t).
Definition set_p (d : nat) (b : bool) (t : thread) : thread :=
  mkThread (S (t_pc t)) (t_r t) (t_rd t) (upd d b (t_p t)).
Definition jump (pc : nat) (t : thread) : thread := mkThread pc (t_r t) (t_rd t) (t_p t).

Definition value (t : thread) (o : operand) : option N :=
  match o with Reg r => t_r t r | Imm n => Some n end.

Definition sreg_value (l : launch) (s : sreg) : N :=
  match s with
  | ctaid_x => l_ctaid l | ntid_x => l_ntid l | tid_x => l_tid l | nctaid_x => l_nctaid l
  end.

(** A two-operand instruction on 32-bit registers. *)
Definition binop (t : thread) (d : nat) (a b : operand) (f : N → N → N) (m : memory) : option (thread * memory) :=
  x ← value t a; y ← value t b; Some (set_r d (f x y) t, m).

(** One instruction; [None] is a fault: an undefined register or parameter, an
    address that is not mapped, falling off the end.  A thread that is at [ret]
    has finished. *)
Definition exec_instr (prog : list line) (l : launch) (i : instr) (t : thread) (m : memory)
    : option (thread * memory) :=
  match i with
  | ld_param_u64 d p => v ← l_param l p; Some (set_rd d (wrap64 v) t, m)
  | ld_param_u32 d p => v ← l_param l p; Some (set_r d (wrap32 v) t, m)
  | cvta_to_global_u64 d a => v ← t_rd t a; Some (set_rd d v t, m)
  | mov_sreg d s => Some (set_r d (sreg_value l s) t, m)
  | mov_u32 d a => v ← value t a; Some (set_r d v t, m)
  | mad_lo_u32 d a b c => x ← value t a; y ← value t b; z ← value t c;
      Some (set_r d (wrap32 (x * y + z)) t, m)
  | mul_lo_u32 d a b => binop t d a b (λ x y, wrap32 (x * y)) m
  | add_u32 d a b => binop t d a b (λ x y, wrap32 (x + y)) m
  | xor_b32 d a b => binop t d a b N.lxor m
  | shr_u32 d a n => v ← value t a; Some (set_r d (N.shiftr v n) t, m)
  | cvt_u64_u32 d a => v ← t_r t a; Some (set_rd d v t, m)
  | cvt_u32_u64 d a => v ← t_rd t a; Some (set_r d (wrap32 v) t, m)
  | mul_wide_u32 d a b => x ← value t a; y ← value t b; Some (set_rd d (x * y) t, m)
  | add_s64 d a b => x ← t_rd t a; y ← t_rd t b; Some (set_rd d (wrap64 (x + y)) t, m)
  | shl_b64 d a n => v ← t_rd t a; Some (set_rd d (wrap64 (N.shiftl v n)) t, m)
  | setp_ge_u32 p a b => x ← value t a; y ← value t b; Some (set_p p (y <=? x) t, m)
  | setp_eq_u32 p a b => x ← value t a; y ← value t b; Some (set_p p (x =? y) t, m)
  | setp_ge_u64 p a b => x ← t_rd t a; y ← t_rd t b; Some (set_p p (y <=? x) t, m)
  | bra name => pc ← label_index name prog; Some (jump pc t, m)
  | bra_if p name => b ← t_p t p; pc ← label_index name prog;
      Some (if b : bool then jump pc t else next t, m)
  | st_global_u32 a v => address ← t_rd t a; x ← t_r t v; _ ← m !! address;
      Some (next t, <[address := x]> m)
  | ld_global_u32 d a => address ← t_rd t a; x ← m !! address;
      Some (set_r d (l_read l address x) t, m)
  | atom_global_add_u32 d a n => address ← t_rd t a; x ← m !! address;
      let old := l_read l address x in
      Some (set_r d old t, <[address := wrap32 (old + n)]> m)
  | ret => None
  end.

Definition thread_step (prog : list line) (l : launch) (t : thread) (m : memory) : option (thread * memory) :=
  match prog !! t_pc t with
  | Some (Ins i) => exec_instr prog l i t m
  | Some (Label _) => Some (next t, m)
  | None => None
  end.

Definition finished (prog : list line) (t : thread) : bool :=
  match prog !! t_pc t with Some (Ins ret) => true | _ => false end.

(** ** A grid of threads *)

(** [blocks] blocks of [threads] threads, in one dimension; thread [i] of all is
    thread [i mod threads] of block [i / threads]. *)
Record grid := mkGrid {
  g_blocks : N;
  g_threads : N;
  g_param : string → option N;
  g_read : N → N → N;
}.

Definition g_size (g : grid) : N := g_blocks g * g_threads g.

Definition launch_of (g : grid) (i : N) : launch :=
  mkLaunch (i / g_threads g) (g_threads g) (i mod g_threads g) (g_blocks g) (g_param g) (g_read g).

Definition grid_state : Type := list thread * memory.

Definition grid_start (g : grid) (m : memory) : grid_state :=
  (replicate (N.to_nat (g_size g)) start_thread, m).

(** Any thread makes its next step. *)
Inductive grid_step (prog : list line) (g : grid) : grid_state → grid_state → Prop :=
  | grid_thread i ts t m t' m' :
      ts !! i = Some t → thread_step prog (launch_of g (N.of_nat i)) t m = Some (t', m') →
      grid_step prog g (ts, m) (<[i := t']> ts, m').

Definition grid_done (prog : list line) (s : grid_state) : Prop := Forall (λ t, finished prog t = true) s.1.

(** A thread that is not done can't go on. *)
Definition grid_fault (prog : list line) (g : grid) (s : grid_state) : Prop :=
  ∃ i t, s.1 !! i = Some t ∧ finished prog t = false ∧
    thread_step prog (launch_of g (N.of_nat i)) t s.2 = None.

(** In whatever order the threads run: no fault, an end, and [post] there. *)
Definition grid_computes (prog : list line) (g : grid) (m : memory) (post : memory → Prop) : Prop :=
  ∀ s, rtc (grid_step prog g) (grid_start g m) s →
    ¬ grid_fault prog g s ∧ Acc (flip (grid_step prog g)) s ∧
    (grid_done prog s ∨ ∃ s', grid_step prog g s s') ∧
    (grid_done prog s → post s.2).

(** The threads one after the other, each with fuel: one schedule. *)
Fixpoint run_thread (fuel : nat) (prog : list line) (l : launch) (t : thread) (m : memory) : option memory :=
  if finished prog t then Some m
  else match fuel with
       | O => None
       | S fuel => r ← thread_step prog l t m; run_thread fuel prog l r.1 r.2
       end.

(** ** The proof rule *)

Section rule.
Context (prog : list line) (g : grid).

(** What is known of thread [i] and the memory while it runs; what it has added
    up so far; how many steps it still makes at most. *)
Context (A : nat → thread → memory → Prop) (count : nat → thread → N) (measure : nat → thread → N).

(** What is known of the memory and of what all have added up. *)
Context (J : memory → N → Prop).

Definition total (c : nat → thread → N) (ts : list thread) : N :=
  Nsum (λ it, c it.1 it.2) (zip (seq 0 (length ts)) ts).

Record outlined (m0 : memory) : Prop := {
  ol_start : ∀ i, (i < N.to_nat (g_size g))%nat → A i start_thread m0 ∧ count i start_thread = 0;
  ol_total : J m0 0;
  ol_step : ∀ i t m n, (i < N.to_nat (g_size g))%nat → A i t m → J m n → count i t ≤ n →
    finished prog t = true ∨
    ∃ t' m', thread_step prog (launch_of g (N.of_nat i)) t m = Some (t', m') ∧
      A i t' m' ∧ measure i t' < measure i t ∧ J m' (n - count i t + count i t') ∧
      ∀ j u, j ≠ i → (j < N.to_nat (g_size g))%nat → A j u m → A j u m';
}.

Record grid_inv (s : grid_state) : Prop := {
  gi_size : length s.1 = N.to_nat (g_size g);
  gi_threads : ∀ i t, s.1 !! i = Some t → A i t s.2;
  gi_total : J s.2 (total count s.1);
}.

Lemma grid_thread_at s i :
  grid_inv s → i < g_size g → ∃ t, s.1 !! N.to_nat i = Some t ∧ A (N.to_nat i) t s.2.
Proof.
  intros [Hlen Hth _] Hi. destruct (lookup_lt_is_Some_2 s.1 (N.to_nat i)) as [t Ht]; [lia|]. eauto.
Qed.

Lemma total_update c ts i t t' :
  ts !! i = Some t → total c (<[i := t']> ts) + c i t = total c ts + c i t' ∧ c i t ≤ total c ts.
Proof.
  unfold total. rewrite length_insert. intros Hi.
  assert (∀ k (us : list thread) n v, us !! n = Some v →
    Nsum (λ it, c it.1 it.2) (zip (seq k (length us)) (<[n := t']> us)) + c (k + n)%nat v =
    Nsum (λ it, c it.1 it.2) (zip (seq k (length us)) us) + c (k + n)%nat t' ∧
    c (k + n)%nat v ≤ Nsum (λ it, c it.1 it.2) (zip (seq k (length us)) us)) as Hgen.
  { intros k us. revert k. induction us as [|u us IH]; intros k n v Hn; [done|].
    destruct n as [|n]; simpl in Hn |- *.
    - injection Hn as ->. rewrite !Nsum_cons. cbn. rewrite Nat.add_0_r. lia.
    - destruct (IH (S k) n v Hn) as [E L]. rewrite !Nsum_cons. cbn [fst snd].
      rewrite Nat.add_succ_comm in E, L. fold (insert (M := list thread) n t' us). lia. }
  apply (Hgen 0%nat ts i t Hi).
Qed.

Lemma total_ext c (f : nat → N) ts :
  (∀ i t, ts !! i = Some t → c i t = f i) → total c ts = Nsum f (seq 0 (length ts)).
Proof.
  unfold total. change (∀ i t, ts !! i = Some t → c i t = f i) with
    (∀ i t, ts !! i = Some t → c (0 + i)%nat t = f (0 + i)%nat).
  generalize 0%nat as k. induction ts as [|t ts IH]; intros k E; [done|]. simpl. rewrite !Nsum_cons. simpl.
  rewrite IH.
  - f_equal. specialize (E 0%nat t eq_refl). by rewrite Nat.add_0_r in E.
  - intros i u Hi. specialize (E (S i) u Hi). by rewrite <-Nat.add_succ_comm in E.
Qed.

Lemma total_start c n : (∀ i, (i < n)%nat → c i start_thread = 0) → total c (replicate n start_thread) = 0.
Proof.
  intros Hc. apply Nsum_zero. intros [i t] Hin. cbn. rewrite length_replicate in Hin.
  apply elem_of_zip_l in Hin as Hi. apply elem_of_zip_r in Hin as Ht.
  apply elem_of_replicate in Ht as [-> _]. apply Hc. apply elem_of_seq in Hi. lia.
Qed.

Context (m0 : memory) (Hol : outlined m0).

Lemma grid_inv_start : grid_inv (grid_start g m0).
Proof using Hol.
  split; cbn.
  - apply length_replicate.
  - intros i t [-> Hi]%lookup_replicate. by apply Hol.
  - rewrite total_start; [apply Hol|]. intros i Hi. by apply Hol.
Qed.

Lemma grid_step_inv s s' : grid_step prog g s s' → grid_inv s → grid_inv s' ∧ total measure s'.1 < total measure s.1.
Proof using Hol.
  intros [i ts t m t' m' Hi Hs] [Hlen Hth Htot]. cbn in *.
  pose proof (lookup_lt_Some _ _ _ Hi) as Hlt. rewrite Hlen in Hlt.
  destruct (total_update count ts i t t' Hi) as [Ec Lc].
  destruct (total_update measure ts i t t' Hi) as [El _].
  destruct (ol_step _ Hol i t m _ Hlt (Hth _ _ Hi) Htot Lc) as [Hf|(t2 & m2 & E & HA & Hl & HJ & Hother)].
  { unfold finished in Hf. unfold thread_step in Hs. by destruct (prog !! t_pc t) as [[[]|]|]. }
  rewrite E in Hs. injection Hs as -> ->. split; [|lia]. split; cbn.
  - by rewrite length_insert.
  - intros j u Hj. destruct (decide (j = i)) as [->|Hne].
    + rewrite list_lookup_insert_eq in Hj by lia. by injection Hj as <-.
    + rewrite list_lookup_insert_ne in Hj by done. apply Hother; [done| |by apply Hth].
      rewrite <-Hlen. by eapply lookup_lt_Some.
  - by replace (total count (<[i:=t']> ts)) with (total count ts - count i t + count i t') by lia.
Qed.

Lemma rtc_grid_inv s : rtc (grid_step prog g) (grid_start g m0) s → grid_inv s.
Proof using Hol.
  intros Hr. cut (grid_inv (grid_start g m0)); [|apply grid_inv_start].
  induction Hr as [|s1 s2 s3 Hs _ IH]; [done|]. intros Hinv. by apply IH, (grid_step_inv s1 s2).
Qed.

(** No schedule faults or runs for ever, and in the end what is asserted of
    finished threads and of the memory holds. *)
Lemma outlined_computes (post : memory → Prop) :
  (∀ s, grid_inv s → grid_done prog s → post s.2) → grid_computes prog g m0 post.
Proof using Hol.
  intros Hpost s Hinv%rtc_grid_inv.
  assert (∀ i t, s.1 !! i = Some t → finished prog t = true ∨
    ∃ t' m', thread_step prog (launch_of g (N.of_nat i)) t s.2 = Some (t', m')) as Hgo.
  { intros i t Hi. destruct Hinv as [Hlen Hth Htot].
    assert (i < N.to_nat (g_size g))%nat as Hlt by (rewrite <-Hlen; by eapply lookup_lt_Some).
    destruct (total_update count s.1 i t t Hi) as [_ Lc].
    destruct (ol_step _ Hol i t s.2 _ Hlt (Hth _ _ Hi) Htot Lc) as [?|(t' & m' & E & _)]; eauto. }
  split_and!; [| | |by apply Hpost].
  - intros (i & t & Hi & Hf & Hs). destruct (Hgo i t Hi) as [?|(? & ? & ?)]; congruence.
  - remember (N.to_nat (total measure s.1)) as n eqn:En. revert s Hinv Hgo En.
    induction n as [n IH] using lt_wf_ind. intros s Hinv _ ->. constructor. intros s' Hs. unfold flip in Hs.
    destruct (grid_step_inv _ _ Hs Hinv) as [Hinv' Hlt]. eapply IH; [|done| |done]; [lia|].
    intros i t Hi. destruct Hinv' as [Hlen Hth Htot].
    assert (i < N.to_nat (g_size g))%nat as Hlt' by (rewrite <-Hlen; by eapply lookup_lt_Some).
    destruct (total_update count s'.1 i t t Hi) as [_ Lc].
    destruct (ol_step _ Hol i t s'.2 _ Hlt' (Hth _ _ Hi) Htot Lc) as [?|(t' & m' & E & _)]; eauto.
  - destruct (decide (Forall (λ t, finished prog t = true) s.1)) as [|Hn]; [by left|]. right.
    apply not_Forall_Exists, Exists_exists in Hn as (t & Hin & Hf); [|intros ?; apply _].
    apply list_elem_of_lookup in Hin as [i Hi]. destruct (Hgo i t Hi) as [?|(t' & m' & E)]; [done|].
    destruct s as [ts m]. eexists. by econstructor.
Qed.

End rule.
