(* ===== verification/Kernels.v ===== *)
(** * The kernels of the card test: [src/resource/cuda.rs]

    The three kernels, as the PTX text has them, proved to compute what the CPU
    expects whatever the order in which their threads run.  [Cuda.v] has the
    test that runs them. *)

From S2P Require Import Prelude Ptx.

(** ** The kernels *)

(** A [.visible .entry]: its name, its parameters, its instructions. *)
Record entry := mkEntry { en_name : string; en_params : list string; en_body : list line }.

Definition hash_entry : entry := mkEntry "hash" ["hash_out"; "hash_rounds"]
  [ Ins (ld_param_u64 1 "hash_out");
    Ins (ld_param_u32 1 "hash_rounds");
    Ins (mov_sreg 2 ctaid_x);
    Ins (mov_sreg 3 ntid_x);
    Ins (mov_sreg 4 tid_x);
    Ins (mad_lo_u32 5 (Reg 2) (Reg 3) (Reg 4));
    Ins (mov_u32 6 (Reg 5));
    Ins (mov_u32 7 (Imm 0));
    Label "hash_loop";
    Ins (setp_ge_u32 1 (Reg 7) (Reg 1));
    Ins (bra_if 1 "hash_done");
    Ins (mad_lo_u32 6 (Reg 6) (Imm 1664525) (Imm 1013904223));
    Ins (shr_u32 8 (Reg 6) 13);
    Ins (xor_b32 6 (Reg 6) (Reg 8));
    Ins (add_u32 7 (Reg 7) (Imm 1));
    Ins (bra "hash_loop");
    Label "hash_done";
    Ins (cvta_to_global_u64 2 1);
    Ins (mul_wide_u32 3 (Reg 5) (Imm 4));
    Ins (add_s64 4 2 3);
    Ins (st_global_u32 4 6);
    Ins ret ].

Definition fill_entry : entry := mkEntry "fill" ["fill_buffer"; "fill_words"; "fill_seed"]
  [ Ins (ld_param_u64 1 "fill_buffer");
    Ins (ld_param_u64 2 "fill_words");
    Ins (ld_param_u32 1 "fill_seed");
    Ins (cvta_to_global_u64 1 1);
    Ins (mov_sreg 2 ctaid_x);
    Ins (mov_sreg 3 ntid_x);
    Ins (mov_sreg 4 tid_x);
    Ins (mad_lo_u32 5 (Reg 2) (Reg 3) (Reg 4));
    Ins (cvt_u64_u32 3 5);
    Ins (mov_sreg 6 nctaid_x);
    Ins (mul_lo_u32 6 (Reg 6) (Reg 3));
    Ins (cvt_u64_u32 4 6);
    Label "fill_loop";
    Ins (setp_ge_u64 1 3 2);
    Ins (bra_if 1 "fill_done");
    Ins (cvt_u32_u64 7 3);
    Ins (mul_lo_u32 7 (Reg 7) (Imm 1664525));
    Ins (xor_b32 7 (Reg 7) (Reg 1));
    Ins (shl_b64 5 3 2);
    Ins (add_s64 6 1 5);
    Ins (st_global_u32 6 7);
    Ins (add_s64 3 3 4);
    Ins (bra "fill_loop");
    Label "fill_done";
    Ins ret ].

Definition check_entry : entry := mkEntry "check" ["check_buffer"; "check_words"; "check_seed"; "check_errors"]
  [ Ins (ld_param_u64 1 "check_buffer");
    Ins (ld_param_u64 2 "check_words");
    Ins (ld_param_u32 1 "check_seed");
    Ins (ld_param_u64 7 "check_errors");
    Ins (cvta_to_global_u64 1 1);
    Ins (cvta_to_global_u64 7 7);
    Ins (mov_sreg 2 ctaid_x);
    Ins (mov_sreg 3 ntid_x);
    Ins (mov_sreg 4 tid_x);
    Ins (mad_lo_u32 5 (Reg 2) (Reg 3) (Reg 4));
    Ins (cvt_u64_u32 3 5);
    Ins (mov_sreg 6 nctaid_x);
    Ins (mul_lo_u32 6 (Reg 6) (Reg 3));
    Ins (cvt_u64_u32 4 6);
    Label "check_loop";
    Ins (setp_ge_u64 1 3 2);
    Ins (bra_if 1 "check_done");
    Ins (cvt_u32_u64 7 3);
    Ins (mul_lo_u32 7 (Reg 7) (Imm 1664525));
    Ins (xor_b32 7 (Reg 7) (Reg 1));
    Ins (shl_b64 5 3 2);
    Ins (add_s64 6 1 5);
    Ins (ld_global_u32 8 6);
    Ins (setp_eq_u32 2 (Reg 8) (Reg 7));
    Ins (bra_if 2 "check_next");
    Ins (atom_global_add_u32 9 7 1);
    Label "check_next";
    Ins (add_s64 3 3 4);
    Ins (bra "check_loop");
    Label "check_done";
    Ins ret ].

Definition PTX : list entry := [hash_entry; fill_entry; check_entry].

(** ** What the CPU expects *)

(** One round: [value.wrapping_mul(1664525).wrapping_add(1013904223)], then
    [value ^= value >> 13]. *)
Definition hash_round (value : N) : N :=
  let value := wrap32 (wrap32 (value * 1664525) + 1013904223) in
  N.lxor value (N.shiftr value 13).

(** The CPU side of the hash kernel *)
Definition hash (index rounds : N) : N := N.iter rounds hash_round index.

(** Word [k] of the pattern. *)
Definition pattern (k seed : N) : N := N.lxor (wrap32 (wrap32 k * 1664525)) seed.

Example hash_one_round : hash 0 1 = N.lxor 1013904223 (N.shiftr 1013904223 13).
Proof. reflexivity. Qed.

Lemma wrap32_small n : n < 2 ^ 32 → wrap32 n = n.
Proof. apply N.mod_small. Qed.

Lemma wrap64_small n : n < 2 ^ 64 → wrap64 n = n.
Proof. apply N.mod_small. Qed.

(** The kernel multiplies and adds in one instruction. *)
Lemma hash_round_mad v :
  hash_round v = let x := wrap32 (v * 1664525 + 1013904223) in N.lxor x (N.shiftr x 13).
Proof. unfold hash_round, wrap32. by rewrite N.Div0.add_mod_idemp_l. Qed.

Lemma hash_succ i k : hash i (k + 1) = hash_round (hash i k).
Proof. unfold hash. by rewrite N.add_1_r, N.iter_succ. Qed.

(** ** Proof tactics for annotated kernels *)

(** The facts known at this program counter. *)
Ltac ptx_facts :=
  repeat match goal with
  | H : (?a ≤ ?b)%nat → _ |- _ =>
      first [specialize (H (proj1 (Nat.leb_le a b) eq_refl)) | clear H]
  | H : (?a ≤ ?b < ?c)%nat → _ |- _ =>
      first [specialize (H (conj (proj1 (Nat.leb_le a b) eq_refl) (proj1 (Nat.ltb_lt b c) eq_refl))) | clear H]
  end.

(** One case per program counter below [n]. *)
Ltac pc_cases pc n :=
  lazymatch n with
  | O => exfalso; lia
  | S ?n' => destruct pc as [|pc]; [|pc_cases pc n']
  end.

Ltac ptx_known := repeat match goal with H : ?f ?k = Some _ |- context [?f ?k] => rewrite H; cbn end.

Ltac ptx_known_in H := cbn in H; repeat (match goal with E : ?f ?k = Some _ |- _ => rewrite E in H end; cbn in H).

Ltac bool_facts :=
  repeat match goal with
  | H : (_ <=? _) = true |- _ => apply N.leb_le in H
  | H : (_ <=? _) = false |- _ => apply N.leb_gt in H
  | H : (_ =? _) = true |- _ => apply N.eqb_eq in H
  | H : (_ =? _) = false |- _ => apply N.eqb_neq in H
  end.

(** A finished thread is at [ret], after [n] other lines. *)
Ltac pc_excluded pc n :=
  lazymatch n with
  | O => lia
  | S ?n' => destruct pc as [|pc]; [done|pc_excluded pc n']
  end.

Ltac ptx_ended t Hf n :=
  let pc := fresh "pc" in
  destruct t as [pc ? ? ?]; unfold finished in Hf; cbn in Hf |- *; pc_excluded pc n.

(** Run the instruction at a known program counter: what is left is the proof
    outline at the next one, the measure, the memory and the other threads. *)
Ltac ptx_run params :=
  repeat match goal with H : ∃ _, _ |- _ => destruct H as (? & ?); destruct_and? end; simplify_eq;
  cbn; params; ptx_known;
  eexists _, _; (split; [reflexivity|]);
  try (match goal with |- context [(if ?b then jump _ _ else _)] => destruct b eqn:? end); bool_facts;
  unfold next, jump, set_r, set_rd, set_p, upd; cbn; ptx_known;
  (split; [|split; [|split; [try done|try done]]]); try lia;
  try (match goal with |- context [mkThread] => split; cbn; intros; first [lia|done|by eauto|idtac] end).

(** ** The hash kernel *)

Lemma thread_index g i :
  g_threads g ≠ 0 → i < g_size g → g_size g < 2 ^ 32 →
  wrap32 (i / g_threads g * g_threads g + i mod g_threads g) = i.
Proof. intros H0 Hi Hs. rewrite N.mul_comm, <-N.div_mod by done. apply wrap32_small. lia. Qed.

Section hash_kernel.
Context (g : grid) (out rounds : N) (m0 : memory).
Context (Hout : g_param g "hash_out" = Some out) (Hrounds : g_param g "hash_rounds" = Some rounds).
Context (Hthreads : g_threads g ≠ 0) (Hsize : g_size g < 2 ^ 32) (Hr : rounds < 2 ^ 32).
Context (Haddr : out + 4 * g_size g < 2 ^ 64).
Context (Hmapped : ∀ i, i < g_size g → is_Some (m0 !! (out + 4 * i))).

(** The proof outline, by program counter. *)
Record hash_outline (n : nat) (t : thread) (m : memory) : Prop := {
  ho_pc : (t_pc t ≤ 21)%nat;
  ho_out : (1 ≤ t_pc t)%nat → t_rd t 1 = Some out;
  ho_rounds : (2 ≤ t_pc t)%nat → t_r t 1 = Some rounds;
  ho_ctaid : (3 ≤ t_pc t)%nat → t_r t 2 = Some (N.of_nat n / g_threads g);
  ho_ntid : (4 ≤ t_pc t)%nat → t_r t 3 = Some (g_threads g);
  ho_tid : (5 ≤ t_pc t)%nat → t_r t 4 = Some (N.of_nat n mod g_threads g);
  ho_index : (6 ≤ t_pc t)%nat → t_r t 5 = Some (N.of_nat n);
  ho_first : (7 ≤ t_pc t < 8)%nat → t_r t 6 = Some (N.of_nat n);
  ho_loop : (8 ≤ t_pc t < 12)%nat → ∃ k, k ≤ rounds ∧ t_r t 7 = Some k ∧ t_r t 6 = Some (hash (N.of_nat n) k);
  ho_test : (10 ≤ t_pc t < 11)%nat → ∃ k, t_r t 7 = Some k ∧ t_p t 1 = Some (rounds <=? k);
  ho_less : (11 ≤ t_pc t < 15)%nat → ∃ k, k < rounds ∧ t_r t 7 = Some k;
  ho_mad : (12 ≤ t_pc t < 14)%nat → ∃ k, t_r t 7 = Some k ∧
    t_r t 6 = Some (wrap32 (hash (N.of_nat n) k * 1664525 + 1013904223));
  ho_shr : (13 ≤ t_pc t < 14)%nat → ∃ x, t_r t 6 = Some x ∧ t_r t 8 = Some (N.shiftr x 13);
  ho_round : (14 ≤ t_pc t < 15)%nat → ∃ k, t_r t 7 = Some k ∧ t_r t 6 = Some (hash (N.of_nat n) (k + 1));
  ho_next : (15 ≤ t_pc t < 16)%nat → ∃ k, k ≤ rounds ∧ t_r t 7 = Some k ∧ t_r t 6 = Some (hash (N.of_nat n) k);
  ho_done : (16 ≤ t_pc t)%nat → t_r t 6 = Some (hash (N.of_nat n) rounds);
  ho_global : (18 ≤ t_pc t)%nat → t_rd t 2 = Some out;
  ho_offset : (19 ≤ t_pc t)%nat → t_rd t 3 = Some (4 * N.of_nat n);
  ho_address : (20 ≤ t_pc t)%nat → t_rd t 4 = Some (out + 4 * N.of_nat n);
  ho_stored : (21 ≤ t_pc t)%nat → m !! (out + 4 * N.of_nat n) = Some (hash (N.of_nat n) rounds);
}.

Lemma hash_outline_frame j u m m' :
  m !! (out + 4 * N.of_nat j) = m' !! (out + 4 * N.of_nat j) → hash_outline j u m → hash_outline j u m'.
Proof. intros E []. split; try done. by rewrite <-E. Qed.

(** Rounds still to go, at most 8 steps each, and the steps outside the loop. *)
Definition hash_left (n : nat) (t : thread) : N :=
  let pc := t_pc t in
  let to_go := 10 * (rounds - default 0 (t_r t 7)) in
  if (pc <? 8)%nat then 10 * rounds + (60 - N.of_nat pc)
  else if (pc <? 15)%nat then to_go + (40 - N.of_nat pc)
  else if (pc <? 16)%nat then to_go + 33
  else 22 - N.of_nat pc.

(** What no thread touches, and that all results have their place. *)
Definition hash_memory (m : memory) (n : N) : Prop :=
  (∀ a, (∀ i, i < g_size g → a ≠ out + 4 * i) → m !! a = m0 !! a) ∧
  (∀ i, i < g_size g → is_Some (m !! (out + 4 * i))).

Lemma hash_outlined :
  outlined (en_body hash_entry) g hash_outline (λ _ _, 0) hash_left hash_memory m0.
Proof using Hout Hrounds Hthreads Hsize Hr Haddr Hmapped.
  split.
  - intros i _. split; [|done]. split; cbn; intros; lia.
  - by split.
  - intros n t m s Hn HA [Hframe Hmap] _.
    assert (N.of_nat n < g_size g) as Hi by lia.
    pose proof (thread_index g (N.of_nat n) Hthreads Hi Hsize) as Hindex.
    destruct (Hmap _ Hi) as [old Hold].
    destruct t as [pc r rd p]. unfold hash_left, finished, thread_step. cbn [t_pc t_r t_rd t_p].
    destruct HA. cbn [t_pc t_r t_rd t_p] in *.
    pc_cases pc 22%nat; ptx_facts; try (left; reflexivity); right; ptx_run ltac:(rewrite ?Hout, ?Hrounds).
    + by rewrite wrap64_small by lia.
    + by rewrite wrap32_small by lia.
    + by rewrite Hindex.
    + eexists. split_and!; [|done|done]. lia.
    + assert (x0 = rounds) as -> by lia. done.
    + eexists. split; [done|]. by rewrite hash_succ, hash_round_mad.
    + rewrite wrap32_small by lia. eexists. split_and!; [|done|done]. lia.
    + rewrite wrap32_small by lia. lia.
    + f_equal. lia.
    + f_equal. apply wrap64_small. lia.
    + apply lookup_insert_eq.
    + split; [intros a Ha; rewrite lookup_insert_ne by (apply not_eq_sym; eauto); by apply Hframe|].
      intros i Hi'. apply lookup_insert_is_Some'. eauto.
    + intros j u Hne Hj. apply hash_outline_frame. rewrite lookup_insert_ne; [done|]. lia.
Qed.

(** Whatever the order in which the threads run, each result is the CPU's. *)
Lemma hash_kernel_computes :
  grid_computes (en_body hash_entry) g m0 (λ m,
    (∀ i, i < g_size g → m !! (out + 4 * i) = Some (hash i rounds)) ∧
    ∀ a, (∀ i, i < g_size g → a ≠ out + 4 * i) → m !! a = m0 !! a).
Proof using Hout Hrounds Hthreads Hsize Hr Haddr Hmapped.
  apply (outlined_computes _ _ _ _ _ _ _ hash_outlined). intros s Hinv Hdone.
  split; [|apply (gi_total _ _ _ _ _ Hinv)]. intros i Hi.
  destruct (grid_thread_at _ _ _ _ _ i Hinv Hi) as (t & Ht & HA).
  pose proof (proj1 (Forall_lookup _ _) Hdone _ _ Ht) as Hf. cbn in Hf.
  assert (21 ≤ t_pc t)%nat as Hpc by ptx_ended t Hf 21%nat.
  pose proof (ho_stored _ _ _ HA Hpc) as Hstored. by rewrite N2Nat.id in Hstored.
Qed.

End hash_kernel.

(** ** The kernels of the memory test *)

(** Two indices of the same thread are a whole grid apart. *)

Lemma shl2_small k : 4 * k < 2 ^ 64 → wrap64 (N.shiftl k 2) = 4 * k.
Proof. intros Hk. rewrite N.shiftl_mul_pow2. change (2 ^ 2) with 4. rewrite wrap64_small; lia. Qed.

Lemma mod_step k n : n ≠ 0 → (k + n) mod n = k mod n.
Proof. intros Hn. replace (k + n) with (k + 1 * n) by lia. by apply N.Div0.mod_add. Qed.

(** [0..n] *)
Definition upto (n : N) : list N := N.of_nat <$> seq 0 (N.to_nat n).

Lemma elem_of_upto n k : k ∈ upto n ↔ k < n.
Proof.
  unfold upto. rewrite list_elem_of_fmap. setoid_rewrite elem_of_seq. split.
  - intros (i & -> & ?). lia.
  - intros Hk. exists (N.to_nat k). lia.
Qed.

Lemma NoDup_upto n : NoDup (upto n).
Proof. apply NoDup_fmap_2; [by intros ? ? ?%Nat2N.inj|apply NoDup_seq]. Qed.

Section pattern_kernels.
Context (g : grid) (buffer words seed : N).
Context (Hsome : g_size g ≠ 0) (Hsize : g_size g < 2 ^ 32) (Hseed : seed < 2 ^ 32).
Context (Hwords : words + g_size g < 2 ^ 62) (Haddr : buffer + 4 * words < 2 ^ 64).

Lemma some_threads : g_threads g ≠ 0.
Proof using Hsome. clear -Hsome. unfold g_size in Hsome. intros E. rewrite E in Hsome. lia. Qed.

(** The thread's words below [b]. *)
Definition of_thread (n : nat) (b k : N) : Prop := k < words ∧ k mod g_size g = N.of_nat n ∧ k < b.

Lemma of_thread_none n k : N.of_nat n < g_size g → ¬ of_thread n (N.of_nat n) k.
Proof. intros Hn (_ & E & Hlt). rewrite N.mod_small in E by lia. lia. Qed.

Lemma of_thread_next n idx k :
  idx mod g_size g = N.of_nat n → of_thread n (idx + g_size g) k → of_thread n (idx + 1) k.
Proof.
  intros E (Hk & Ek & Hlt). split_and!; [done|done|]. destruct (decide (idx < k)); [|lia].
  rewrite <-E in Ek. assert (0 < g_size g) as Hpos by (clear -Hsome; lia).
  pose proof (mod_gap _ _ _ Hpos (eq_sym Ek)). lia.
Qed.

Section fill.
Context (Hp1 : g_param g "fill_buffer" = Some buffer) (Hp2 : g_param g "fill_words" = Some words)
  (Hp3 : g_param g "fill_seed" = Some seed).
Context (m0 : memory) (Hmapped : ∀ k, k < words → is_Some (m0 !! (buffer + 4 * k))).

Definition filled (n : nat) (b : N) (m : memory) : Prop :=
  ∀ k, of_thread n b k → m !! (buffer + 4 * k) = Some (pattern k seed).

Lemma filled_first n m : N.of_nat n < g_size g → filled n (N.of_nat n) m.
Proof. intros Hn k []%of_thread_none; done. Qed.

Lemma filled_store n k m :
  filled n k m → filled n (k + 1) (<[buffer + 4 * k := pattern k seed]> m).
Proof.
  intros Hf i (Hi & Ei & Hlt). destruct (decide (i = k)) as [->|Hne]; [apply lookup_insert_eq|].
  rewrite lookup_insert_ne by lia. apply Hf. split_and!; [done|done|lia].
Qed.

Lemma filled_next n k m :
  k mod g_size g = N.of_nat n → filled n (k + 1) m → filled n (k + g_size g) m.
Proof. intros E Hf i Hi. by apply Hf, of_thread_next. Qed.

Lemma filled_all n k m : words ≤ k → filled n k m → filled n words m.
Proof. intros Hle Hf i (Hi & Ei & _). apply Hf. split_and!; [done|done|lia]. Qed.

Record fill_outline (n : nat) (t : thread) (m : memory) : Prop := {
  fo_pc : (t_pc t ≤ 24)%nat;
  fo_buffer : (1 ≤ t_pc t)%nat → t_rd t 1 = Some buffer;
  fo_words : (2 ≤ t_pc t)%nat → t_rd t 2 = Some words;
  fo_seed : (3 ≤ t_pc t)%nat → t_r t 1 = Some seed;
  fo_ctaid : (5 ≤ t_pc t < 8)%nat → t_r t 2 = Some (N.of_nat n / g_threads g);
  fo_ntid : (6 ≤ t_pc t)%nat → t_r t 3 = Some (g_threads g);
  fo_tid : (7 ≤ t_pc t < 8)%nat → t_r t 4 = Some (N.of_nat n mod g_threads g);
  fo_index : (8 ≤ t_pc t < 9)%nat → t_r t 5 = Some (N.of_nat n);
  fo_first : (9 ≤ t_pc t < 12)%nat → t_rd t 3 = Some (N.of_nat n);
  fo_nctaid : (10 ≤ t_pc t < 11)%nat → t_r t 6 = Some (g_blocks g);
  fo_size : (11 ≤ t_pc t < 12)%nat → t_r t 6 = Some (g_size g);
  fo_stride : (12 ≤ t_pc t)%nat → t_rd t 4 = Some (g_size g);
  fo_loop : (12 ≤ t_pc t < 21)%nat → ∃ k, t_rd t 3 = Some k ∧ k < words + g_size g ∧
    k mod g_size g = N.of_nat n ∧ filled n k m;
  fo_test : (14 ≤ t_pc t < 15)%nat → ∃ k, t_rd t 3 = Some k ∧ t_p t 1 = Some (words <=? k);
  fo_less : (15 ≤ t_pc t < 22)%nat → ∃ k, t_rd t 3 = Some k ∧ k < words;
  fo_low : (16 ≤ t_pc t < 17)%nat → ∃ k, t_rd t 3 = Some k ∧ t_r t 7 = Some (wrap32 k);
  fo_mul : (17 ≤ t_pc t < 18)%nat → ∃ k, t_rd t 3 = Some k ∧ t_r t 7 = Some (wrap32 (wrap32 k * 1664525));
  fo_pattern : (18 ≤ t_pc t < 21)%nat → ∃ k, t_rd t 3 = Some k ∧ t_r t 7 = Some (pattern k seed);
  fo_offset : (19 ≤ t_pc t < 20)%nat → ∃ k, t_rd t 3 = Some k ∧ t_rd t 5 = Some (4 * k);
  fo_address : (20 ≤ t_pc t < 21)%nat → ∃ k, t_rd t 3 = Some k ∧ t_rd t 6 = Some (buffer + 4 * k);
  fo_stored : (21 ≤ t_pc t < 22)%nat → ∃ k, t_rd t 3 = Some k ∧
    k mod g_size g = N.of_nat n ∧ filled n (k + 1) m;
  fo_next : (22 ≤ t_pc t < 23)%nat → ∃ k, t_rd t 3 = Some k ∧ k < words + g_size g ∧
    k mod g_size g = N.of_nat n ∧ filled n k m;
  fo_done : (23 ≤ t_pc t)%nat → filled n words m;
}.

Lemma fill_outline_frame n t m m' :
  (∀ k, k < words → k mod g_size g = N.of_nat n → m !! (buffer + 4 * k) = m' !! (buffer + 4 * k)) →
  fill_outline n t m → fill_outline n t m'.
Proof.
  intros E HA. assert (∀ b, filled n b m → filled n b m') as Hf.
  { intros b Hb k Hk. rewrite <-E by apply Hk. by apply Hb. }
  destruct HA as [? ? ? ? ? ? ? ? ? ? ? ? Hloop ? ? ? ? ? ? ? Hstored Hnext Hdone]. split; try done; intros Hpc.
  - destruct (Hloop Hpc) as (k & ? & ? & ? & ?). eauto 10.
  - destruct (Hstored Hpc) as (k & ? & ? & ?). eauto 10.
  - destruct (Hnext Hpc) as (k & ? & ? & ? & ?). eauto 10.
  - by apply Hf, Hdone.
Qed.

(** Words still to go, at most 20 steps each. *)
Definition fill_left (n : nat) (t : thread) : N :=
  let pc := t_pc t in
  let to_go := 20 * (words - default 0 (t_rd t 3)) in
  if (pc <? 12)%nat then 20 * words + (80 - N.of_nat pc)
  else if (pc <? 22)%nat then to_go + (60 - N.of_nat pc)
  else if (pc <? 23)%nat then to_go + 50
  else 30 - N.of_nat pc.

Definition fill_memory (m : memory) (n : N) : Prop :=
  (∀ a, (∀ k, k < words → a ≠ buffer + 4 * k) → m !! a = m0 !! a) ∧
  (∀ k, k < words → is_Some (m !! (buffer + 4 * k))).

Lemma fill_outlined :
  outlined (en_body fill_entry) g fill_outline (λ _ _, 0) fill_left fill_memory m0.
Proof using Hp1 Hp2 Hp3 Hsome Hsize Hseed Hwords Haddr Hmapped.
  split.
  - intros i _. split; [|done]. split; cbn; intros; lia.
  - by split.
  - intros n t m s Hn HA [Hframe Hmap] _.
    assert (N.of_nat n < g_size g) as Hi by lia.
    pose proof (thread_index g (N.of_nat n) some_threads Hi Hsize) as Hindex.
    destruct t as [pc r rd p]. unfold fill_left, finished, thread_step. cbn [t_pc t_r t_rd t_p].
    destruct HA. cbn [t_pc t_r t_rd t_p] in *.
    pc_cases pc 25%nat; ptx_facts; try (left; reflexivity); right.
    all: ptx_run ltac:(try (match goal with H : ?k < words |- _ => destruct (Hmap k H) as [? ?] end);
      rewrite ?Hp1, ?Hp2, ?Hp3).
    + by rewrite wrap64_small by lia.
    + by rewrite wrap64_small by lia.
    + by rewrite wrap32_small by lia.
    + by rewrite Hindex.
    + by rewrite wrap32_small by done.
    + eexists. split_and!; [done|lia|by apply N.mod_small|by apply filled_first].
    + by eapply filled_all.
    + eexists. split; [done|]. by rewrite shl2_small by lia.
    + eexists. split; [done|]. by rewrite wrap64_small by lia.
    + eexists. split_and!; [done|done|by apply filled_store].
    + split.
      * intros a Ha. rewrite lookup_insert_ne by (apply not_eq_sym; eauto). by apply Hframe.
      * intros k Hk. apply lookup_insert_is_Some'. eauto.
    + intros j u Hne Hj. apply fill_outline_frame. intros k Hk Ek. rewrite lookup_insert_ne; [done|].
      intros Eq. assert (k = x2) as -> by lia. lia.
    + rewrite wrap64_small by lia. eexists. split_and!; [done|lia|rewrite mod_step by lia; done|by apply filled_next].
    + rewrite wrap64_small by lia. lia.
Qed.

(** Every word gets its pattern. *)
Lemma fill_kernel_computes :
  grid_computes (en_body fill_entry) g m0 (λ m,
    (∀ k, k < words → m !! (buffer + 4 * k) = Some (pattern k seed)) ∧
    ∀ a, (∀ k, k < words → a ≠ buffer + 4 * k) → m !! a = m0 !! a).
Proof using Hp1 Hp2 Hp3 Hsome Hsize Hseed Hwords Haddr Hmapped.
  apply (outlined_computes _ _ _ _ _ _ _ fill_outlined). intros s Hinv Hdone.
  split; [|apply (gi_total _ _ _ _ _ Hinv)]. intros k Hk.
  assert (k mod g_size g < g_size g) as Hi by by apply N.mod_lt.
  destruct (grid_thread_at _ _ _ _ _ _ Hinv Hi) as (t & Ht & HA).
  pose proof (proj1 (Forall_lookup _ _) Hdone _ _ Ht) as Hf. cbn in Hf.
  assert (24 ≤ t_pc t)%nat as Hpc by ptx_ended t Hf 24%nat.
  apply (fo_done _ _ _ HA); [lia|]. split_and!; [done|lia|done].
Qed.

End fill.

(** ** The check *)

Section check.
Context (Hp1 : g_param g "check_buffer" = Some buffer) (Hp2 : g_param g "check_words" = Some words)
  (Hp3 : g_param g "check_seed" = Some seed).
Context (errors e0 : N) (Hp4 : g_param g "check_errors" = Some errors).
Context (m0 : memory) (val : N → N) (Hval : ∀ k, k < words → m0 !! (buffer + 4 * k) = Some (val k)).
Context (Herrors : errors < 2 ^ 64) (Hapart : ∀ k, k < words → errors ≠ buffer + 4 * k).
Context (He0 : m0 !! errors = Some e0) (Hfaithful : ∀ v, g_read g errors v = v).

(** Word [k] reads back wrong. *)
Definition wrong (k : N) : bool := negb (g_read g (buffer + 4 * k) (val k) =? pattern k seed).

(** The thread's wrong words below [b]. *)
Definition counted (n : nat) (b : N) : N :=
  Nsum (λ k, if bool_decide (k mod g_size g = N.of_nat n ∧ k < b) && wrong k then 1 else 0) (upto words).

Lemma counted_ext n b b' :
  (∀ k, of_thread n b k ↔ of_thread n b' k) → counted n b = counted n b'.
Proof.
  intros E. apply Nsum_ext. intros k Hk%elem_of_upto.
  rewrite (bool_decide_ext (k mod g_size g = N.of_nat n ∧ k < b) (k mod g_size g = N.of_nat n ∧ k < b')); [done|].
  specialize (E k). unfold of_thread in E. tauto.
Qed.

Lemma counted_first n : N.of_nat n < g_size g → counted n (N.of_nat n) = 0.
Proof.
  intros Hn. apply Nsum_zero. intros k Hk%elem_of_upto. rewrite bool_decide_eq_false_2; [done|].
  intros []. by eapply of_thread_none.
Qed.

Lemma counted_next n k : k mod g_size g = N.of_nat n → counted n (k + g_size g) = counted n (k + 1).
Proof.
  intros E. apply counted_ext. intros i. split; [by apply of_thread_next|].
  intros (? & ? & ?). split_and!; [done|done|].
  lia.
Qed.

Lemma counted_all n k : words ≤ k → counted n k = counted n words.
Proof. intros Hle. apply counted_ext. unfold of_thread. intros i. intuition lia. Qed.

Lemma counted_succ n k :
  k < words → k mod g_size g = N.of_nat n → counted n (k + 1) = counted n k + (if wrong k then 1 else 0).
Proof.
  intros Hk Ek. unfold counted. eapply (Nsum_bump _ _ _ k); [apply NoDup_upto|by apply elem_of_upto| |].
  - rewrite bool_decide_eq_true_2 by (split; [done|lia]). rewrite bool_decide_eq_false_2 by lia. done.
  - intros y _ Hne. rewrite (bool_decide_ext _ (y mod g_size g = N.of_nat n ∧ y < k)); [done|]. lia.
Qed.

Record check_outline (n : nat) (t : thread) (m : memory) : Prop := {
  co_pc : (t_pc t ≤ 30)%nat;
  co_buffer : (1 ≤ t_pc t)%nat → t_rd t 1 = Some buffer;
  co_words : (2 ≤ t_pc t)%nat → t_rd t 2 = Some words;
  co_seed : (3 ≤ t_pc t)%nat → t_r t 1 = Some seed;
  co_errors : (4 ≤ t_pc t)%nat → t_rd t 7 = Some errors;
  co_ctaid : (7 ≤ t_pc t < 10)%nat → t_r t 2 = Some (N.of_nat n / g_threads g);
  co_ntid : (8 ≤ t_pc t < 13)%nat → t_r t 3 = Some (g_threads g);
  co_tid : (9 ≤ t_pc t < 10)%nat → t_r t 4 = Some (N.of_nat n mod g_threads g);
  co_index : (10 ≤ t_pc t < 11)%nat → t_r t 5 = Some (N.of_nat n);
  co_first : (11 ≤ t_pc t < 14)%nat → t_rd t 3 = Some (N.of_nat n);
  co_nctaid : (12 ≤ t_pc t < 13)%nat → t_r t 6 = Some (g_blocks g);
  co_size : (13 ≤ t_pc t < 14)%nat → t_r t 6 = Some (g_size g);
  co_stride : (14 ≤ t_pc t)%nat → t_rd t 4 = Some (g_size g);
  co_loop : (14 ≤ t_pc t)%nat → ∃ k, t_rd t 3 = Some k ∧ k < words + g_size g ∧ k mod g_size g = N.of_nat n;
  co_test : (16 ≤ t_pc t < 17)%nat → ∃ k, t_rd t 3 = Some k ∧ t_p t 1 = Some (words <=? k);
  co_less : (17 ≤ t_pc t < 28)%nat → ∃ k, t_rd t 3 = Some k ∧ k < words;
  co_low : (18 ≤ t_pc t < 19)%nat → ∃ k, t_rd t 3 = Some k ∧ t_r t 7 = Some (wrap32 k);
  co_mul : (19 ≤ t_pc t < 20)%nat → ∃ k, t_rd t 3 = Some k ∧ t_r t 7 = Some (wrap32 (wrap32 k * 1664525));
  co_pattern : (20 ≤ t_pc t < 24)%nat → ∃ k, t_rd t 3 = Some k ∧ t_r t 7 = Some (pattern k seed);
  co_offset : (21 ≤ t_pc t < 22)%nat → ∃ k, t_rd t 3 = Some k ∧ t_rd t 5 = Some (4 * k);
  co_address : (22 ≤ t_pc t < 23)%nat → ∃ k, t_rd t 3 = Some k ∧ t_rd t 6 = Some (buffer + 4 * k);
  co_read : (23 ≤ t_pc t < 24)%nat → ∃ k, t_rd t 3 = Some k ∧
    t_r t 8 = Some (g_read g (buffer + 4 * k) (val k));
  co_equal : (24 ≤ t_pc t < 25)%nat → ∃ k, t_rd t 3 = Some k ∧ t_p t 2 = Some (negb (wrong k));
  co_wrong : (25 ≤ t_pc t < 26)%nat → ∃ k, t_rd t 3 = Some k ∧ wrong k = true;
  co_done : (29 ≤ t_pc t)%nat → ∃ k, t_rd t 3 = Some k ∧ words ≤ k;
}.

(** The wrong words a thread has counted; at the label after the count its word
    is among them. *)
Definition check_count (n : nat) (t : thread) : N :=
  let k := default 0 (t_rd t 3) in
  if (t_pc t <? 11)%nat then 0
  else if (t_pc t <? 26)%nat then counted n k
  else if (t_pc t <? 28)%nat then counted n (k + 1)
  else counted n k.

Definition check_left (n : nat) (t : thread) : N :=
  let pc := t_pc t in
  let to_go := 20 * (words - default 0 (t_rd t 3)) in
  if (pc <? 14)%nat then 20 * words + (80 - N.of_nat pc)
  else if (pc <? 28)%nat then to_go + (60 - N.of_nat pc)
  else if (pc <? 29)%nat then to_go + 50
  else 40 - N.of_nat pc.

Lemma check_outline_frame n t m m' : check_outline n t m → check_outline n t m'.
Proof. intros []. by split. Qed.

Definition check_memory (m : memory) (n : N) : Prop :=
  (∀ a, a ≠ errors → m !! a = m0 !! a) ∧ m !! errors = Some (wrap32 (e0 + n)).

Lemma check_outlined :
  e0 < 2 ^ 32 → outlined (en_body check_entry) g check_outline check_count check_left check_memory m0.
Proof using Hp1 Hp2 Hp3 Hp4 Hsome Hsize Hseed Hwords Haddr Hval Herrors Hapart He0 Hfaithful.
  intros Hsmall. split.
  - intros i _. split; [|done]. split; cbn; intros; lia.
  - split; [done|]. by rewrite N.add_0_r, wrap32_small.
  - intros n t m s Hn HA [Hframe Hcounter] Hle.
    assert (N.of_nat n < g_size g) as Hi by lia.
    pose proof (thread_index g (N.of_nat n) some_threads Hi Hsize) as Hindex.
    destruct t as [pc r rd p]. unfold check_left, check_count, finished, thread_step in *. cbn [t_pc t_r t_rd t_p] in *.
    destruct HA. cbn [t_pc t_r t_rd t_p] in *.
    assert (∀ k, k < words → m !! (buffer + 4 * k) = Some (val k)) as Hbuffer.
    { intros k Hk. rewrite Hframe by (apply not_eq_sym; auto). auto. }
    pc_cases pc 31%nat; ptx_facts; try (left; reflexivity); right.
    all: ptx_run ltac:(try (match goal with H : ?k < words |- _ => pose proof (Hbuffer k H) end);
      rewrite ?Hp1, ?Hp2, ?Hp3, ?Hp4).
    all: try (match goal with Hle : _ ≤ ?s |- check_memory _ (?s - ?a + ?a) =>
      ptx_known_in Hle; replace (s - a + a) with s by lia; done end).
    + by rewrite wrap64_small by lia.
    + by rewrite wrap64_small by lia.
    + by rewrite wrap32_small by lia.
    + by rewrite wrap64_small by lia.
    + by rewrite Hindex.
    + rewrite counted_first by done. by rewrite N.sub_0_r, N.add_0_r.
    + by rewrite wrap32_small by done.
    + eexists. split_and!; [done|lia|by apply N.mod_small].
    + eexists. split; [done|]. by rewrite shl2_small by lia.
    + eexists. split; [done|]. by rewrite wrap64_small by lia.
    + eexists. split; [done|]. unfold wrong. by rewrite negb_involutive.
    + ptx_known_in Hle. rewrite counted_succ by done.
      replace (wrong x1) with false by (symmetry; by apply negb_true_iff).
      replace (s - counted n x1 + (counted n x1 + 0)) with s by lia. done.
    + eexists. split; [done|]. by apply negb_false_iff.
    + ptx_known_in Hle. rewrite counted_succ by done. replace (wrong x1) with true by done. split.
      * intros a Ha. rewrite lookup_insert_ne by done. by apply Hframe.
      * rewrite lookup_insert_eq, Hfaithful. f_equal. unfold wrap32. rewrite N.Div0.add_mod_idemp_l. f_equal. lia.
    + intros j u _ _. apply check_outline_frame.
    + rewrite wrap64_small by lia. eexists. split_and!; [done|lia|]. by rewrite mod_step by lia.
    + rewrite wrap64_small by lia. lia.
    + ptx_known_in Hle. rewrite wrap64_small by lia. rewrite counted_next by done.
      replace (s - counted n (x0 + 1) + counted n (x0 + 1)) with s by lia. done.
Qed.

(** The counter goes up by the number of words that read back wrong. *)
Definition wrong_words : N := Nsum (λ k, if wrong k then 1 else 0) (upto words).

Lemma counted_total : Nsum (λ n, counted n words) (seq 0 (N.to_nat (g_size g))) = wrong_words.
Proof.
  unfold counted, wrong_words. rewrite Nsum_swap. apply Nsum_ext. intros k Hk%elem_of_upto.
  pose proof (N.mod_lt k _ Hsome) as Hlt. generalize dependent (k mod g_size g). intros q Hlt.
  rewrite (Nsum_bump (λ _, 0) _ _ (N.to_nat q) (if wrong k then 1 else 0)).
  - by rewrite Nsum_zero.
  - apply NoDup_seq.
  - apply elem_of_seq. lia.
  - rewrite N2Nat.id, bool_decide_eq_true_2 by done. done.
  - intros n _ Hne. rewrite bool_decide_eq_false_2; [done|]. intros [E _]. lia.
Qed.

Lemma check_kernel_computes :
  e0 < 2 ^ 32 →
  grid_computes (en_body check_entry) g m0 (λ m,
    m !! errors = Some (wrap32 (e0 + wrong_words)) ∧ ∀ a, a ≠ errors → m !! a = m0 !! a).
Proof using Hp1 Hp2 Hp3 Hp4 Hsome Hsize Hseed Hwords Haddr Hval Herrors Hapart He0 Hfaithful.
  intros Hsmall. apply (outlined_computes _ _ _ _ _ _ _ (check_outlined Hsmall)). intros s Hinv Hdone.
  destruct (gi_total _ _ _ _ _ Hinv) as [Hframe Hcounter]. split; [|done].
  rewrite Hcounter. f_equal. f_equal. f_equal. rewrite <-counted_total, <-(gi_size _ _ _ _ _ Hinv).
  apply total_ext. intros i t Ht. pose proof (gi_threads _ _ _ _ _ Hinv _ _ Ht) as HA.
  pose proof (proj1 (Forall_lookup _ _) Hdone _ _ Ht) as Hf. cbn in Hf.
  assert (30 ≤ t_pc t)%nat as Hpc by ptx_ended t Hf 30%nat.
  destruct (co_done _ _ _ HA) as (k & Hk & Hle); [lia|].
  unfold check_count. rewrite Hk. cbn [default]. rewrite !(proj2 (Nat.ltb_ge _ _)) by lia.
  by apply counted_all.
Qed.

End check.
End pattern_kernels.
