(* ===== verification/Cuda.v ===== *)
(** * The card test: [src/resource/cuda.rs]

    The test as it calls the CUDA driver, on any driver; and what its verdict
    says about the card when the driver does what it reports. *)

From S2P Require Import Prelude Ptx Kernels.

(** ** The driver *)

(** The entry points of libcuda.so.1; a call returns its status, what it writes
    through its pointers, and the world after it. *)
Class CudaDriver (W : Type) : Type := {
  driver_loads : bool; (* dlopen and every dlsym succeed *)
  cuInit : N → W → (Z * unit) * W;
  cuDeviceGet : Z → W → (Z * Z) * W;
  cuDeviceGetAttribute : Z → Z → W → (Z * Z) * W;
  cuCtxCreate : Z → W → (Z * N) * W;
  cuCtxDestroy : N → W → (Z * unit) * W;
  cuModuleLoadData : list entry → W → (Z * N) * W;
  cuModuleGetFunction : N → string → W → (Z * N) * W;
  cuMemGetInfo : W → (Z * (N * N)) * W;
  cuMemAlloc : N → W → (Z * N) * W;
  cuMemsetD32 : N → N → N → W → (Z * unit) * W;
  cuMemcpyDtoH : N → N → W → (Z * list N) * W;
  cuLaunchKernel : N → N → N → list N → W → (Z * unit) * W;
  cuCtxSynchronize : W → (Z * unit) * W;
}.

(** [Driver::load]: the library's address and each entry point's, or [None] when
    one is missing.  [driver_loads] is whether it finds them all. *)
Definition SYMBOLS : list string :=
  ["cuInit"; "cuDeviceGet"; "cuDeviceGetAttribute"; "cuCtxCreate_v2"; "cuCtxDestroy_v2"; "cuModuleLoadData";
   "cuModuleGetFunction"; "cuMemGetInfo_v2"; "cuMemAlloc_v2"; "cuMemsetD32_v2"; "cuMemcpyDtoH_v2"; "cuLaunchKernel";
   "cuCtxSynchronize"].

Definition load {Library Pointer} (dlopen : string → option Library) (dlsym : Library → string → option Pointer)
    : option (list Pointer) :=
  library ← dlopen "libcuda.so.1";
  mapM (dlsym library) SYMBOLS.

Definition HASH_ROUNDS : N := 1000.
Definition THREADS : N := 256.
Definition MAX_TEST_BYTES : N := N.shiftl 1 30.
Definition MULTIPROCESSOR_COUNT : Z := 16.

(** What calls the driver: it may panic, or fail with a reason. *)
Definition cu (W A : Type) : Type := W → exec (result A string * W).

#[export] Instance cu_ret W : MRet (cu W) := λ A a w, Ret (Ok a, w).
#[export] Instance cu_bind W : MBind (cu W) := λ A B f m w,
  match m w with
  | Ret (Ok a, w') => f a w'
  | Ret (Err e, w') => Ret (Err e, w')
  | Panic => Panic
  end.

Definition fail {W A} (reason : string) : cu W A := λ w, Ret (Err reason, w).
Definition lift {W A} (m : exec A) : cu W A := λ w, match m with Ret a => Ret (Ok a, w) | Panic => Panic end.

Definition checked_mul (max a b : N) : exec N := if a * b <=? max then Ret (a * b) else Panic.

Definition cuda_error (call : string) (status : Z) : string :=
  call +:+ " failed with CUDA error " +:+ pretty status.

Section host.
Context {W : Type} `{CudaDriver W}.

(** A machine has the driver when it has the library and every symbol in it. *)
Lemma load_finds_all {Library Pointer} (dlopen : string → option Library) (dlsym : Library → string → option Pointer) :
  is_Some (load dlopen dlsym) ↔
  ∃ library, dlopen "libcuda.so.1" = Some library ∧ ∀ symbol, symbol ∈ SYMBOLS → is_Some (dlsym library symbol).
Proof.
  unfold load. destruct (dlopen _) as [library|]; cbn -[SYMBOLS mapM].
  - rewrite mapM_is_Some, Forall_forall. split; [intros Hall; by exists library | by intros (? & [= <-] & Hall)].
  - split; [by intros [? ?] | by intros (? & ? & _)].
Qed.

(** [check(status, call)?] around a call. *)
Definition check {A} (f : W → (Z * A) * W) (call : string) : cu W A := λ w,
  let '((status, a), w') := f w in
  if (status =? 0)%Z then Ret (Ok a, w') else Ret (Err (cuda_error call status), w').

(** [results.iter().enumerate().filter(...).count()] *)
Definition wrong_chains (results : list N) : N :=
  N.of_nat (length (List.filter (λ b : bool, b)
    (imap (λ index value, negb (value =? hash (N.of_nat index) HASH_ROUNDS)) results))).

(** At most half of what's free and 1 GB, whole words. *)
Definition test_bytes (free : N) : N := N.ldiff (N.min (free / 2) MAX_TEST_BYTES) 3.

Definition run (function blocks : N) (params : list N) (name : string) : cu W unit :=
  _ ← check (cuLaunchKernel function blocks THREADS params) name;
  check cuCtxSynchronize name.

Definition kernel (module : N) (name : string) : cu W N :=
  check (cuModuleGetFunction module name) "cuModuleGetFunction".

(** every SM runs hash chains; the CPU computes the same chains and every result must match *)
Definition test_hash (module blocks count : N) : cu W unit :=
  out ← check (cuMemAlloc (count * 4)) "cuMemAlloc";
  function ← kernel module "hash";
  _ ← run function blocks [out; HASH_ROUNDS] "hash kernel";
  results ← check (cuMemcpyDtoH out (count * 4)) "cuMemcpyDtoH";
  let wrong := wrong_chains results in
  if 0 <? wrong then fail (pretty wrong +:+ " of " +:+ pretty count +:+ " hash chains wrong")
  else mret tt.

(** One pattern, written and checked. *)
Definition test_pattern (module blocks buffer words errors seed : N) : cu W unit :=
  fill ← kernel module "fill";
  _ ← run fill blocks [buffer; words; seed] "fill kernel";
  chk ← kernel module "check";
  run chk blocks [buffer; words; seed; errors] "check kernel".

(** a pattern and its inverse over up to 1 GB of VRAM, so a stuck bit shows either way *)
Definition test_memory (module blocks : N) : cu W unit :=
  info ← check cuMemGetInfo "cuMemGetInfo";
  let bytes := test_bytes info.1 in
  buffer ← check (cuMemAlloc bytes) "cuMemAlloc";
  errors ← check (cuMemAlloc 4) "cuMemAlloc";
  _ ← check (cuMemsetD32 errors 0 1) "cuMemsetD32";
  let words := bytes / 4 in
  _ ← test_pattern module blocks buffer words errors 0;
  _ ← test_pattern module blocks buffer words errors u32_max;
  copied ← check (cuMemcpyDtoH errors 4) "cuMemcpyDtoH";
  let mismatches := default 0 (head copied) in
  if 0 <? mismatches
  then fail (pretty mismatches +:+ " of " +:+ pretty (words * 2) +:+ " VRAM words read back wrong")
  else mret tt.

Definition test (sms : N) : cu W unit :=
  module ← check (cuModuleLoadData PTX) "cuModuleLoadData";
  blocks ← lift (checked_mul u32_max sms 4);
  count ← lift (checked_mul u32_max blocks THREADS);
  _ ← test_hash module blocks count;
  test_memory module blocks.

(** [sms as u32] *)
Definition as_u32 (z : Z) : N := Z.to_N (z mod 2 ^ 32).

(** [let result = test(..); (cuda.ctx_destroy)(context); result] *)
Definition before_destroy (context : N) (m : cu W unit) : cu W unit := λ w,
  match m w with
  | Ret (result, w') => Ret (result, (cuCtxDestroy context w').2)
  | Panic => Panic
  end.

(** Destroying the context frees everything the test allocated, on any path out *)
Definition with_context : cu W unit :=
  _ ← check (cuInit 0) "cuInit";
  device ← check (cuDeviceGet 0) "cuDeviceGet";
  sms ← check (cuDeviceGetAttribute MULTIPROCESSOR_COUNT device) "cuDeviceGetAttribute";
  context ← check (cuCtxCreate device) "cuCtxCreate";
  before_destroy context (test (as_u32 sms)).

(** Run the kernels on CUDA device 0, which CUDA_VISIBLE_DEVICES makes the card under test;
    None when there is no driver to run them with, e.g. on a simulated node *)
Definition kernel_test (w : W) : option (exec (result unit string * W)) :=
  if driver_loads then Some (with_context w) else None.

(** ** Reasoning about calls *)

Definition wp {A} (m : cu W A) (w : W) (Q : result A string → W → Prop) : Prop :=
  ∃ r w', m w = Ret (r, w') ∧ Q r w'.

Lemma wp_bind {A B} (m : cu W A) (f : A → cu W B) w Q :
  wp m w (λ r w', match r with Ok a => wp (f a) w' Q | Err e => Q (Err e) w' end) → wp (m ≫= f) w Q.
Proof.
  intros (r & w1 & E & HQ). unfold wp, mbind, cu_bind. rewrite E.
  destruct r as [a|e]; [by destruct HQ as (r & w' & ? & ?); eauto|eauto].
Qed.

Lemma wp_check {A} (f : W → (Z * A) * W) call w Q :
  (∀ status w', status ≠ 0%Z → Q (Err (cuda_error call status)) w') →
  (∀ a w', f w = ((0%Z, a), w') → Q (Ok a) w') → wp (check f call) w Q.
Proof.
  intros Herr Hok. unfold wp, check. destruct (f w) as [[status a] w'] eqn:E.
  destruct (Z.eqb_spec status 0) as [->|Hne]; eauto.
Qed.

Lemma wp_mono {A} (m : cu W A) w (Q Q' : result A string → W → Prop) :
  wp m w Q → (∀ r w', Q r w' → Q' r w') → wp m w Q'.
Proof. intros (r & w' & ? & ?) Himp. exists r, w'. auto. Qed.

Lemma wp_ret {A} (a : A) w Q : Q (Ok a) w → wp (mret a) w Q.
Proof. intros HQ. by exists (Ok a), w. Qed.

Lemma wp_fail {A} reason w (Q : result A string → W → Prop) : Q (Err reason) w → wp (fail reason) w Q.
Proof. intros HQ. by exists (Err reason), w. Qed.

Lemma wp_lift {A} (a : A) w Q : Q (Ok a) w → wp (lift (Ret a)) w Q.
Proof. intros HQ. by exists (Ok a), w. Qed.

End host.

(** ** A driver that does what it reports *)

Definition launch_param (e : entry) (params : list N) (name : string) : option N :=
  snd <$> List.find (λ np, String.eqb np.1 name) (zip (en_params e) params).

Definition launch_grid (e : entry) (blocks threads : N) (params : list N) (read : N → N → N) : grid :=
  mkGrid blocks threads (launch_param e params) read.

(** Documented behaviour of the driver, where it reports success (status 0).
    [cd_read a v] is what the card's memory gives back at [a] for [v]. *)
Class Card (W : Type) `{CudaDriver W} : Type := {
  cd_mem : W → memory;
  cd_read : N → N → N;
  cd_module : N → list entry;
  cd_kernel : N → option entry;
  cd_sms : ∀ device w sms w',
    cuDeviceGetAttribute MULTIPROCESSOR_COUNT device w = ((0%Z, sms), w') → (0 < sms < 2 ^ 22)%Z;
  cd_load : ∀ entries w m w', cuModuleLoadData entries w = ((0%Z, m), w') → cd_module m = entries;
  cd_function : ∀ m name w f w', cuModuleGetFunction m name w = ((0%Z, f), w') →
    cd_kernel f = List.find (λ e, String.eqb (en_name e) name) (cd_module m) ∧ cd_mem w' = cd_mem w;
  cd_alloc : ∀ bytes w a w', cuMemAlloc bytes w = ((0%Z, a), w') →
    a + bytes < 2 ^ 64 ∧ (∀ x v, cd_mem w !! x = Some v → cd_mem w' !! x = Some v) ∧
    ∀ k, k < bytes / 4 → cd_mem w !! (a + 4 * k) = None ∧ is_Some (cd_mem w' !! (a + 4 * k));
  cd_memset : ∀ a v n w u w', cuMemsetD32 a v n w = ((0%Z, u), w') →
    (∀ k, k < n → cd_mem w' !! (a + 4 * k) = Some v) ∧
    ∀ x, (∀ k, k < n → x ≠ a + 4 * k) → cd_mem w' !! x = cd_mem w !! x;
  cd_copy : ∀ a bytes w l w', cuMemcpyDtoH a bytes w = ((0%Z, l), w') →
    length l = N.to_nat (bytes / 4) ∧
    ∀ k v, k < bytes / 4 → cd_mem w !! (a + 4 * k) = Some v → l !! N.to_nat k = Some (cd_read (a + 4 * k) v);
  cd_launch : ∀ f e blocks threads params w u w1 u' w2, cd_kernel f = Some e →
    cuLaunchKernel f blocks threads params w = ((0%Z, u), w1) → cuCtxSynchronize w1 = ((0%Z, u'), w2) →
    let g := launch_grid e blocks threads params cd_read in
    ∃ s, rtc (grid_step (en_body e) g) (grid_start g (cd_mem w)) s ∧ grid_done (en_body e) s ∧ cd_mem w2 = s.2;
}.

Section card.
Context {W : Type} `{Card W}.

Definition chains_sound (out count : N) : Prop :=
  ∀ i, i < count → cd_read (out + 4 * i) (hash i HASH_ROUNDS) = hash i HASH_ROUNDS.

Definition words_sound (buffer words : N) : Prop :=
  ∀ k seed, k < words → seed = 0 ∨ seed = u32_max →
    cd_read (buffer + 4 * k) (pattern k seed) = pattern k seed.

(** ** The run from a world

    The driver is a function, so the calls a run makes are fixed by the world it
    starts in. *)

(** The card was set up: the blocks each kernel gets, the module, and the world
    the tests start in. *)
Definition set_up (w : W) (blocks module : N) (w5 : W) : Prop :=
  ∃ device sms context w1 w2 w3 w4,
    cuInit 0 w = ((0%Z, tt), w1) ∧ cuDeviceGet 0 w1 = ((0%Z, device), w2) ∧
    cuDeviceGetAttribute MULTIPROCESSOR_COUNT device w2 = ((0%Z, sms), w3) ∧
    cuCtxCreate device w3 = ((0%Z, context), w4) ∧ cuModuleLoadData PTX w4 = ((0%Z, module), w5) ∧
    blocks = as_u32 sms * 4.

(** The run was given [out] for the results of [count] chains. *)
Definition hashed (w : W) (out count : N) : Prop :=
  ∃ blocks module w5 w6, set_up w blocks module w5 ∧ count = blocks * THREADS ∧
    cuMemAlloc (count * 4) w5 = ((0%Z, out), w6).

(** Its chains right, the run was told how much is free, and given [buffer] for
    the [words] to test and [errors] for their count. *)
Definition tested (w : W) (buffer words errors : N) : Prop :=
  ∃ blocks module w5 w6 free total w7 w8 w9, set_up w blocks module w5 ∧
    test_hash module blocks (blocks * THREADS) w5 = Ret (Ok tt, w6) ∧
    cuMemGetInfo w6 = ((0%Z, (free, total)), w7) ∧
    cuMemAlloc (test_bytes free) w7 = ((0%Z, buffer), w8) ∧ words = test_bytes free / 4 ∧
    cuMemAlloc 4 w8 = ((0%Z, errors), w9).

Lemma set_up_unique w blocks1 module1 w1 blocks2 module2 w2 :
  set_up w blocks1 module1 w1 → set_up w blocks2 module2 w2 → blocks1 = blocks2 ∧ module1 = module2 ∧ w1 = w2.
Proof.
  intros (? & ? & ? & ? & ? & ? & ? & E1 & E2 & E3 & E4 & E5 & ->) (? & ? & ? & ? & ? & ? & ? & F1 & F2 & F3 & F4 & F5 & ->).
  rewrite E1 in F1. injection F1 as <-. rewrite E2 in F2. injection F2 as <- <-. rewrite E3 in F3. injection F3 as <- <-.
  rewrite E4 in F4. injection F4 as <- <-. rewrite E5 in F5. by injection F5 as <- <-.
Qed.

Lemma tested_unique w buffer1 words1 errors1 buffer2 words2 errors2 :
  tested w buffer1 words1 errors1 → tested w buffer2 words2 errors2 →
  buffer1 = buffer2 ∧ words1 = words2 ∧ errors1 = errors2.
Proof.
  intros (? & ? & ? & ? & ? & ? & ? & ? & ? & S1 & E1 & E2 & E3 & -> & E4)
    (? & ? & ? & ? & ? & ? & ? & ? & ? & S2 & F1 & F2 & F3 & -> & F4).
  destruct (set_up_unique _ _ _ _ _ _ _ S1 S2) as (<- & <- & <-).
  rewrite E1 in F1. injection F1 as <-. rewrite E2 in F2. injection F2 as <- <- <-.
  rewrite E3 in F3. injection F3 as <- <-. rewrite E4 in F4. by injection F4 as <- <-.
Qed.

(** A call the driver reports as failed. *)
Definition driver_failed {A} (r : result A string) : Prop :=
  ∃ call status, status ≠ 0%Z ∧ r = Err (cuda_error call status).

(** A kernel that ran to its end left what it computes. *)
Lemma wp_run f e blocks params name post w Q :
  cd_kernel f = Some e →
  grid_computes (en_body e) (launch_grid e blocks THREADS params cd_read) (cd_mem w) post →
  (∀ call status w', status ≠ 0%Z → Q (Err (cuda_error call status)) w') →
  (∀ w', post (cd_mem w') → Q (Ok tt) w') →
  wp (run f blocks params name) w Q.
Proof.
  intros Hf Hgrid Herr Hok. apply wp_bind, wp_check; [auto|].
  intros u w1 E1. apply wp_check; [auto|].
  intros [] w2 E2. destruct (cd_launch _ _ _ _ _ _ _ _ _ _ Hf E1 E2) as (s & Hrtc & Hdone & E).
  apply Hok. rewrite E. by apply (Hgrid s).
Qed.

Lemma wp_kernel m name e w Q :
  List.find (λ e, String.eqb (en_name e) name) (cd_module m) = Some e →
  (∀ call status w', status ≠ 0%Z → Q (Err (cuda_error call status)) w') →
  (∀ f w', cd_kernel f = Some e → cd_mem w' = cd_mem w → Q (Ok f) w') → wp (kernel m name) w Q.
Proof.
  intros Hfind Herr Hok. apply wp_check; [auto|]. intros f w' E. destruct (cd_function _ _ _ _ _ E) as [Ef Em]. apply Hok; [by rewrite Ef|done].
Qed.

Lemma filter_imap_none {A} (f : nat → A → bool) (l : list A) :
  List.filter (λ b : bool, b) (imap f l) = [] ↔ ∀ i a, l !! i = Some a → f i a = false.
Proof.
  split.
  - intros E i a Hi. destruct (f i a) eqn:Ef; [|done]. exfalso.
    assert (true ∈ List.filter (λ b : bool, b) (imap f l)) as Hin; [|by rewrite E in Hin; apply elem_of_nil in Hin].
    apply list_elem_of_In, filter_In. split; [|done]. apply list_elem_of_In, list_elem_of_lookup.
    exists i. by rewrite list_lookup_imap, Hi, <-Ef.
  - intros Hall. destruct (List.filter _ _) as [|b bs] eqn:E; [done|]. exfalso.
    assert (b ∈ b :: bs) as Hin by by left. rewrite <-E in Hin.
    apply list_elem_of_In, filter_In in Hin as [Hin Hb]. apply list_elem_of_In, list_elem_of_lookup in Hin as [i Hi].
    rewrite list_lookup_imap in Hi. apply fmap_Some in Hi as (a & Ha & ->). by rewrite (Hall _ _ Ha) in Hb.
Qed.

Lemma wrong_chains_zero results :
  wrong_chains results = 0 ↔
  ∀ i v, results !! i = Some v → v = hash (N.of_nat i) HASH_ROUNDS.
Proof.
  unfold wrong_chains. rewrite <-(N2Nat.id 0), (inj_iff N.of_nat), length_zero_iff_nil, filter_imap_none.
  by setoid_rewrite negb_false_iff; setoid_rewrite N.eqb_eq.
Qed.

(** ** The hash chains *)

Lemma hash_launch blocks out rounds (m : memory) :
  rounds < 2 ^ 32 → blocks * THREADS < 2 ^ 32 → out + blocks * THREADS * 4 < 2 ^ 64 →
  (∀ k, k < blocks * THREADS → is_Some (m !! (out + 4 * k))) →
  grid_computes (en_body hash_entry) (launch_grid hash_entry blocks THREADS [out; rounds] cd_read) m
    (λ m', ∀ i, i < blocks * THREADS → m' !! (out + 4 * i) = Some (hash i rounds)).
Proof.
  intros Hr Hsize Haddr Hmapped s Hs.
  destruct (hash_kernel_computes (launch_grid hash_entry blocks THREADS [out; rounds] cd_read) out rounds m
    eq_refl eq_refl ltac:(done) Hsize Hr ltac:(unfold g_size; cbn; lia) Hmapped s Hs) as (? & ? & ? & Hpost).
  split_and!; [done..|]. intros Hd. by apply Hpost.
Qed.

Lemma rounds_small : HASH_ROUNDS < 2 ^ 32.
Proof. done. Qed.

#[local] Opaque HASH_ROUNDS.

Lemma wp_test_hash m blocks w (Q : result unit string → W → Prop) :
  cd_module m = PTX → blocks * THREADS < 2 ^ 32 →
  (∀ call status w', status ≠ 0%Z → Q (Err (cuda_error call status)) w') →
  (∀ out reason w1 w', cuMemAlloc (blocks * THREADS * 4) w = ((0%Z, out), w1) →
     ¬ chains_sound out (blocks * THREADS) → Q (Err reason) w') →
  (∀ out w1 w', cuMemAlloc (blocks * THREADS * 4) w = ((0%Z, out), w1) →
     chains_sound out (blocks * THREADS) → Q (Ok tt) w') →
  wp (test_hash m blocks (blocks * THREADS)) w Q.
Proof.
  intros Hm Hsize Herr Hbad Hgood. set (count := blocks * THREADS) in *. apply wp_bind, wp_check; [auto|]. intros out w1 E1.
  destruct (cd_alloc _ _ _ _ E1) as (Haddr & _ & Hfresh). rewrite N.div_mul in Hfresh by done.
  apply wp_bind. eapply wp_kernel; [by rewrite Hm|auto|].
  intros f w2 Hf Em. apply wp_bind. eapply wp_run; [exact Hf|apply hash_launch; [apply rounds_small|done..|]|auto|].
  { intros k Hk. rewrite Em. by apply Hfresh. }
  intros w3 Hout. apply wp_bind, wp_check; [auto|]. intros results w4 E4.
  destruct (cd_copy _ _ _ _ _ E4) as [Hlen Hres]. rewrite N.div_mul in Hlen, Hres by done.
  assert (wrong_chains results = 0 ↔ chains_sound out count) as Hzero.
  { rewrite wrong_chains_zero. split.
    - intros Hall i Hi. specialize (Hres i _ Hi (Hout i Hi)). apply Hall in Hres. by rewrite N2Nat.id in Hres.
    - intros Hsound i v Hv. assert (N.of_nat i < count) as Hi.
      { apply lookup_lt_Some in Hv. rewrite Hlen in Hv. lia. }
      specialize (Hres _ _ Hi (Hout _ Hi)). rewrite Nat2N.id, Hv in Hres. injection Hres as ->.
      by apply Hsound. }
  cbn zeta. destruct (N.ltb_spec 0 (wrong_chains results)).
  - eapply wp_fail, Hbad; [exact E1|]. rewrite <-Hzero. lia.
  - eapply wp_ret, Hgood; [exact E1|]. apply Hzero. lia.
Qed.

(** ** The memory *)

(** The words that read back wrong under one pattern. *)
Definition misread (buffer words seed : N) : N :=
  Nsum (λ k, if negb (cd_read (buffer + 4 * k) (pattern k seed) =? pattern k seed) then 1 else 0) (upto words).

Lemma misread_zero buffer words seed :
  misread buffer words seed = 0 ↔
  ∀ k, k < words → cd_read (buffer + 4 * k) (pattern k seed) = pattern k seed.
Proof.
  split.
  - intros E k Hk. unfold misread in E.
    pose proof (Nsum_elem (λ k, if negb (cd_read (buffer + 4 * k) (pattern k seed) =? pattern k seed) then 1 else 0)
      k (upto words) (proj2 (elem_of_upto _ _) Hk)) as Hle. cbn in Hle.
    destruct (N.eqb_spec (cd_read (buffer + 4 * k) (pattern k seed)) (pattern k seed)) as [|Hne]; [done|].
    cbn in Hle. lia.
  - intros Hall. apply Nsum_zero. intros k Hk%elem_of_upto. by rewrite (Hall _ Hk), N.eqb_refl.
Qed.

Lemma misread_le buffer words seed : misread buffer words seed ≤ words.
Proof.
  assert (∀ l : list N, Nsum (λ k, if negb (cd_read (buffer + 4 * k) (pattern k seed) =? pattern k seed)
    then 1 else 0) l ≤ N.of_nat (length l)) as Hle.
  { induction l as [|k l IH]; [done|]. rewrite Nsum_cons. cbn [length]. destruct (negb _); lia. }
  unfold misread. etrans; [apply Hle|]. unfold upto. rewrite length_fmap, length_seq. lia.
Qed.

(** Where the memory test works. *)
Record workspace (blocks buffer words errors : N) : Prop := {
  wk_blocks : blocks * THREADS ≠ 0;
  wk_size : blocks * THREADS < 2 ^ 32;
  wk_words : words ≤ 2 ^ 28;
  wk_buffer : buffer + 4 * words < 2 ^ 64;
  wk_errors : errors < 2 ^ 64;
  wk_apart : ∀ k, k < words → errors ≠ buffer + 4 * k;
  wk_counter : ∀ v, cd_read errors v = v;
}.

Definition mapped (buffer words : N) (m : memory) : Prop := ∀ k, k < words → is_Some (m !! (buffer + 4 * k)).

Lemma fill_launch blocks buffer words errors seed (m : memory) :
  workspace blocks buffer words errors → seed < 2 ^ 32 → mapped buffer words m →
  grid_computes (en_body fill_entry) (launch_grid fill_entry blocks THREADS [buffer; words; seed] cd_read) m
    (λ m', (∀ k, k < words → m' !! (buffer + 4 * k) = Some (pattern k seed)) ∧ m' !! errors = m !! errors).
Proof.
  intros [] Hseed Hm s Hs.
  destruct (fill_kernel_computes (launch_grid fill_entry blocks THREADS [buffer; words; seed] cd_read)
    buffer words seed ltac:(done) ltac:(done) Hseed ltac:(unfold g_size; cbn; unfold THREADS in *; lia)
    ltac:(done) eq_refl eq_refl eq_refl m Hm s Hs) as (? & ? & ? & Hpost).
  split_and!; [done..|]. intros [Hf Hframe]%Hpost. split; [done|by apply Hframe].
Qed.

Lemma check_launch blocks buffer words errors seed e0 (m : memory) :
  workspace blocks buffer words errors → seed < 2 ^ 32 → e0 < 2 ^ 32 → m !! errors = Some e0 →
  (∀ k, k < words → m !! (buffer + 4 * k) = Some (pattern k seed)) →
  grid_computes (en_body check_entry)
    (launch_grid check_entry blocks THREADS [buffer; words; seed; errors] cd_read) m
    (λ m', m' !! errors = Some (wrap32 (e0 + misread buffer words seed)) ∧ mapped buffer words m').
Proof.
  intros [] Hseed He0 He Hval s Hs.
  destruct (check_kernel_computes (launch_grid check_entry blocks THREADS [buffer; words; seed; errors] cd_read)
    buffer words seed ltac:(done) ltac:(done) Hseed ltac:(unfold g_size; cbn; unfold THREADS in *; lia)
    ltac:(done) eq_refl eq_refl eq_refl errors e0 eq_refl m (λ k, pattern k seed) Hval ltac:(done) ltac:(done)
    He ltac:(done) He0 s Hs) as (? & ? & ? & Hpost).
  split_and!; [done..|]. intros [Hc Hframe]%Hpost. split; [done|].
  intros k Hk. rewrite Hframe by (apply not_eq_sym; auto). rewrite Hval by done. by eexists.
Qed.

Lemma wp_test_pattern m blocks buffer words errors seed e0 w (Q : result unit string → W → Prop) :
  cd_module m = PTX → workspace blocks buffer words errors → seed < 2 ^ 32 → e0 < 2 ^ 32 →
  mapped buffer words (cd_mem w) → cd_mem w !! errors = Some e0 →
  (∀ call status w', status ≠ 0%Z → Q (Err (cuda_error call status)) w') →
  (∀ w', mapped buffer words (cd_mem w') →
     cd_mem w' !! errors = Some (wrap32 (e0 + misread buffer words seed)) → Q (Ok tt) w') →
  wp (test_pattern m blocks buffer words errors seed) w Q.
Proof.
  intros Hm Hwk Hseed He0 Hmap He Herr Hok.
  apply wp_bind. eapply wp_kernel; [by rewrite Hm|auto|]. intros fill w1 Hfill E1.
  apply wp_bind. eapply wp_run; [exact Hfill|eapply fill_launch; [done..|by rewrite E1]|auto|].
  intros w2 [Hval He2]. rewrite E1 in He2.
  apply wp_bind. eapply wp_kernel; [by rewrite Hm|auto|]. intros chk w3 Hchk E3.
  eapply wp_run; [exact Hchk|eapply check_launch; [done..| |]|auto|].
  - by rewrite E3, He2.
  - intros k Hk. rewrite E3. by apply Hval.
  - intros w4 [Hc Hmap']. auto.
Qed.

Lemma test_bytes_bounds free : test_bytes free ≤ 2 ^ 30 ∧ 4 * (test_bytes free / 4) = test_bytes free.
Proof.
  assert (test_bytes free = 4 * (N.min (free / 2) MAX_TEST_BYTES / 4)) as E.
  { unfold test_bytes. change 3 with (N.ones 2). rewrite N.ldiff_ones_r, N.shiftr_div_pow2, N.shiftl_mul_pow2.
    change (2 ^ 2) with 4. lia. }
  rewrite E, (N.mul_comm 4), N.div_mul by done. split; [|lia].
  pose proof (N.Div0.mul_div_le (N.min (free / 2) MAX_TEST_BYTES) 4) as Hle. rewrite N.mul_comm.
  etrans; [exact Hle|]. apply N.le_min_r.
Qed.

(** What the test says of the memory it worked on. *)
Definition memory_result (buffer words : N) : result unit string :=
  let mismatches := misread buffer words 0 + misread buffer words u32_max in
  if 0 <? mismatches
  then Err (pretty mismatches +:+ " of " +:+ pretty (words * 2) +:+ " VRAM words read back wrong")
  else Ok tt.

Lemma memory_result_ok buffer words : memory_result buffer words = Ok tt ↔ words_sound buffer words.
Proof.
  assert (misread buffer words 0 = 0 ∧ misread buffer words u32_max = 0 ↔ words_sound buffer words) as Hiff.
  { rewrite !misread_zero. split.
    - intros [Z1 Z2] k seed Hk [->| ->]; auto.
    - intros Hs. split; intros k Hk; apply Hs; auto. }
  rewrite <-Hiff. unfold memory_result. destruct (N.ltb_spec 0 (misread buffer words 0 + misread buffer words u32_max)).
  - split; [done|lia].
  - split; [lia|done].
Qed.

Lemma wp_test_memory m blocks w (Q : result unit string → W → Prop) :
  cd_module m = PTX → blocks * THREADS ≠ 0 → blocks * THREADS < 2 ^ 32 →
  (∀ call status w', status ≠ 0%Z → Q (Err (cuda_error call status)) w') →
  (∀ free total w1 buffer w2 errors w3, cuMemGetInfo w = ((0%Z, (free, total)), w1) →
     cuMemAlloc (test_bytes free) w1 = ((0%Z, buffer), w2) → cuMemAlloc 4 w2 = ((0%Z, errors), w3) →
     (∀ v, cd_read errors v = v) ∧ ∀ w', Q (memory_result buffer (test_bytes free / 4)) w') →
  wp (test_memory m blocks) w Q.
Proof.
  intros Hm Hsome Hsize Herr Hok.
  apply wp_bind, wp_check; [auto|]. intros [free all] w1 E1. cbn zeta. cbn [fst].
  destruct (test_bytes_bounds free) as [Hmax Hfour]. set (words := test_bytes free / 4) in *.
  apply wp_bind, wp_check; [auto|]. intros buffer w2 E2. apply wp_bind, wp_check; [auto|]. intros errors w3 E3.
  destruct (Hok _ _ _ _ _ _ _ E1 E2 E3) as [Hcounter HQ]. fold words in HQ. clear Hok.
  destruct (cd_alloc _ _ _ _ E2) as (Hb & _ & Hbuf). destruct (cd_alloc _ _ _ _ E3) as (He & Hkeep & Hnew).
  fold words in Hbuf. destruct (Hnew 0 ltac:(done)) as [Hfresh _]. rewrite N.mul_0_r, N.add_0_r in Hfresh.
  assert (workspace blocks buffer words errors) as Hwk.
  { split; [done|done|lia|lia|lia| |done]. intros k Hk ->.
    destruct (Hbuf k Hk) as [_ [v Hv]]. by rewrite Hv in Hfresh. }
  apply wp_bind, wp_check; [auto|]. intros [] w4 E4. destruct (cd_memset _ _ _ _ _ _ E4) as [Hset Hrest].
  specialize (Hset 0 ltac:(done)). rewrite N.mul_0_r, N.add_0_r in Hset.
  assert (mapped buffer words (cd_mem w4)) as Hmap.
  { intros k Hk. destruct (Hbuf k Hk) as [_ [v Hv]]. exists v. rewrite Hrest; [by apply Hkeep|].
    intros i Hi. assert (i = 0) as -> by lia. rewrite N.mul_0_r, N.add_0_r. apply not_eq_sym, (wk_apart _ _ _ _ Hwk _ Hk). }
  pose proof (misread_le buffer words 0) as L1. pose proof (misread_le buffer words u32_max) as L2.
  apply wp_bind. apply (wp_test_pattern m blocks buffer words errors 0 0); [done|exact Hwk|done|done|exact Hmap|exact Hset|auto|].
  intros w5 Hmap5 Hc5. rewrite wrap32_small in Hc5 by lia.
  apply wp_bind. apply (wp_test_pattern m blocks buffer words errors u32_max (0 + misread buffer words 0));
    [done|exact Hwk|done|lia|exact Hmap5|exact Hc5|auto|].
  intros w6 _ Hc6. rewrite wrap32_small in Hc6 by lia.
  apply wp_bind, wp_check; [auto|]. intros copied w7 E7. destruct (cd_copy _ _ _ _ _ E7) as [_ Hcopied].
  assert (cd_mem w6 !! (errors + 4 * 0) = Some (0 + misread buffer words 0 + misread buffer words u32_max))
    as Hc6' by by rewrite N.mul_0_r, N.add_0_r.
  specialize (Hcopied 0 _ ltac:(done) Hc6'). rewrite N.mul_0_r, N.add_0_r in Hcopied.
  rewrite (wk_counter _ _ _ _ Hwk) in Hcopied. cbn zeta.
  assert (default 0 (head copied) = 0 + misread buffer words 0 + misread buffer words u32_max) as ->.
  { destruct copied; [done|]. by injection Hcopied as ->. }
  specialize (HQ w7). unfold memory_result in HQ. cbn zeta in HQ. rewrite !N.add_0_l in *.
  destruct (N.ltb_spec 0 (misread buffer words 0 + misread buffer words u32_max)); [by apply wp_fail|by apply wp_ret].
Qed.

(** ** The verdict *)

(** The word that counts the errors is sound. *)
Definition counter_sound (w : W) : Prop :=
  ∀ buffer words errors, tested w buffer words errors → ∀ v, cd_read errors v = v.

(** What a run from [w] may say. *)
Inductive verdict (w : W) (r : result unit string) : Prop :=
  | verdict_driver : driver_failed r → verdict w r
  | verdict_chains out count reason :
      hashed w out count → ¬ chains_sound out count → r = Err reason → verdict w r
  | verdict_memory out count buffer words errors :
      hashed w out count → chains_sound out count → tested w buffer words errors →
      r = memory_result buffer words → verdict w r.

Lemma hashed_unique w out1 count1 out2 count2 :
  hashed w out1 count1 → hashed w out2 count2 → out1 = out2 ∧ count1 = count2.
Proof.
  intros (? & ? & ? & ? & S1 & -> & E1) (? & ? & ? & ? & S2 & -> & E2).
  destruct (set_up_unique _ _ _ _ _ _ _ S1 S2) as (<- & <- & <-). rewrite E1 in E2. by injection E2 as <- <-.
Qed.

(** The memory is tested only once the chains came out right. *)
Lemma tested_hashed w buffer words errors :
  tested w buffer words errors → ∃ out count, hashed w out count ∧ chains_sound out count.
Proof.
  intros (blocks & module & w5 & w6 & ? & ? & ? & ? & ? & Hup & Ehash & _).
  pose proof Hup as (device & sms & context & w1 & w2 & w3 & w4 & _ & _ & Esms & _ & Eload & Hblocks).
  pose proof (cd_sms _ _ _ _ Esms) as Hsms. pose proof (cd_load _ _ _ _ Eload) as Hm.
  assert (as_u32 sms = Z.to_N sms) as Hu by by (unfold as_u32; rewrite Z.mod_small by lia).
  assert (wp (test_hash module blocks (blocks * THREADS)) w5 (λ r _, match r with
    | Ok _ => ∃ out, hashed w out (blocks * THREADS) ∧ chains_sound out (blocks * THREADS)
    | Err _ => True end)) as (r & w' & E & Hr).
  { apply wp_test_hash; [done|rewrite Hblocks, Hu; unfold THREADS; lia|done|done|].
    intros out w' _ Ea Hgood. exists out. split; [|done]. by eexists blocks, module, w5, w'. }
  rewrite Ehash in E. injection E as <- <-. destruct Hr as (out & ? & ?). by exists out, (blocks * THREADS).
Qed.

Lemma wp_before_destroy context (m : cu W unit) w (Q : result unit string → Prop) :
  wp m w (λ r _, Q r) → wp (before_destroy context m) w (λ r _, Q r).
Proof. intros (r & w' & E & HQ). unfold wp, before_destroy. rewrite E. eauto. Qed.

Lemma wp_with_context w : counter_sound w → wp with_context w (λ r _, verdict w r).
Proof.
  intros Hcounter.
  assert (∀ call status (w' : W), status ≠ 0%Z → verdict w (Err (cuda_error call status))) as Hfail.
  { intros call status _ Hs. by apply verdict_driver; eexists _, _. }
  apply wp_bind, wp_check; [eauto|]. intros [] w1 E1. apply wp_bind, wp_check; [eauto|]. intros device w2 E2.
  apply wp_bind, wp_check; [eauto|]. intros sms w3 Esms. pose proof (cd_sms _ _ _ _ Esms) as Hsms.
  apply wp_bind, wp_check; [eauto|]. intros context w4 E4. apply wp_before_destroy.
  assert (as_u32 sms = Z.to_N sms) as Hu by by (unfold as_u32; rewrite Z.mod_small by lia).
  assert (0 < as_u32 sms * 4 * THREADS < 2 ^ 32) as Hrange by (rewrite Hu; unfold THREADS; lia).
  set (blocks := as_u32 sms * 4) in *.
  apply wp_bind, wp_check; [eauto|]. intros module w5 Eload. pose proof (cd_load _ _ _ _ Eload) as Hm.
  assert (set_up w blocks module w5) as Hup by by eexists device, sms, context, w1, w2, w3, w4.
  apply wp_bind. unfold checked_mul at 1. rewrite (proj2 (N.leb_le _ _)) by (unfold u32_max, THREADS in *; lia).
  fold blocks. apply wp_lift. apply wp_bind. unfold checked_mul. rewrite (proj2 (N.leb_le _ _)) by (unfold u32_max; lia).
  apply wp_lift, wp_bind.
  assert (wp (test_hash module blocks (blocks * THREADS)) w5 (λ r _, match r with
    | Ok _ => ∃ out, hashed w out (blocks * THREADS) ∧ chains_sound out (blocks * THREADS)
    | Err _ => verdict w r end)) as (r & w6 & Ehash & Hr).
  { apply wp_test_hash; [done|lia|eauto| |].
    - intros out reason w' _ Ea Hbad. eapply verdict_chains; [|exact Hbad|done]. by eexists blocks, module, w5, w'.
    - intros out w' _ Ea Hgood. exists out. split; [|done]. by eexists blocks, module, w5, w'. }
  exists r, w6. split; [exact Ehash|]. destruct r as [[]|e]; [|exact Hr]. destruct Hr as (out & Hout & Hgood).
  apply wp_test_memory; [done|lia|lia|eauto|]. intros free total w7 buffer w8 errors w9 Einfo Ebuf Eerr.
  assert (tested w buffer (test_bytes free / 4) errors) as Htest
    by by eexists blocks, module, w5, w6, free, total, w7, w8, w9.
  split; [by eapply Hcounter|]. intros _. by eapply verdict_memory.
Qed.

(** A bit that reads as [x] whatever was written. *)
Definition stuck (b : N) (x : bool) (v : N) : N := if x then N.setbit v b else N.clearbit v b.

(** The second pattern is the first one inverted, so it differs in every bit. *)
Lemma pattern_inverse k b : b < 32 → N.testbit (pattern k u32_max) b = negb (N.testbit (pattern k 0) b).
Proof.
  intros Hb. unfold pattern. rewrite !N.lxor_spec, N.bits_0, xorb_false_r.
  change u32_max with (N.ones 32). by rewrite N.ones_spec_low, xorb_true_r.
Qed.

Lemma stuck_bit_misreads buffer words k b x :
  k < words → b < 32 → (∀ v, cd_read (buffer + 4 * k) v = stuck b x v) → ¬ words_sound buffer words.
Proof.
  intros Hk Hb Hstuck Hs.
  assert (∀ seed, seed = 0 ∨ seed = u32_max → N.testbit (pattern k seed) b = x) as Hbit.
  { intros seed Hseed. specialize (Hs k seed Hk Hseed). rewrite Hstuck in Hs. rewrite <-Hs.
    destruct x; [apply N.setbit_eq|apply N.clearbit_eq]. }
  pose proof (pattern_inverse k b Hb) as E. rewrite !Hbit in E by auto. by destruct x.
Qed.

(** ** Properties *)

(** C16: The card test's verdict is right on any driver that does what it
    reports.  The test never panics and returns; unless a driver call failed
    (which it names), it fails if one of the hash chains it read back from the
    results it was given is not what the CPU computes, and otherwise it passes
    exactly when every word of the very buffer it was given, half of what this
    run was told is free and at most 1 GB, reads back both patterns as they were
    written; if not it says how many did not.  This takes the one word that
    counts the errors, outside that buffer, to read back what is stored in it:
    a card on which exactly that word is bad is not covered. *)
Theorem kernel_test_verdict w :
  driver_loads = true → counter_sound w →
  ∃ r w', kernel_test w = Some (Ret (r, w')) ∧ verdict w r ∧
    ∀ buffer words errors, tested w buffer words errors →
      driver_failed r ∨ r = memory_result buffer words ∧ (r = Ok tt ↔ words_sound buffer words).
Proof.
  intros Hload Hcounter. unfold kernel_test. rewrite Hload.
  destruct (wp_with_context w Hcounter) as (r & w' & E & Hv). exists r, w'. rewrite E. split_and!; [done..|].
  intros buffer words errors Ht. destruct Hv as [?|out count reason Hh Hbad _|out count b ws er _ _ Ht' ->]; [by left| |].
  - destruct (tested_hashed _ _ _ _ Ht) as (out' & count' & Hh' & Hgood).
    by destruct (hashed_unique _ _ _ _ _ Hh Hh') as [-> ->].
  - right. destruct (tested_unique _ _ _ _ _ _ _ Ht Ht') as (-> & -> & _). split; [done|apply memory_result_ok].
Qed.

(** C17: A bad word never passes.  Whatever memory this run was given to test,
    when some word of it does not read back one of the two patterns, and in
    particular when one of its bits is stuck, high or low, the test fails; and
    it passes only after it was given some.  (The word that counts the errors
    is taken to be sound, as above.) *)
Theorem stuck_bit_never_passes w :
  driver_loads = true → counter_sound w →
  ∃ r w', kernel_test w = Some (Ret (r, w')) ∧
    (r = Ok tt → ∃ buffer words errors, tested w buffer words errors) ∧
    ∀ buffer words errors k, tested w buffer words errors → k < words →
      (∃ b x, b < 32 ∧ ∀ v, cd_read (buffer + 4 * k) v = stuck b x v) ∨
      (∃ seed, (seed = 0 ∨ seed = u32_max) ∧ cd_read (buffer + 4 * k) (pattern k seed) ≠ pattern k seed) →
      ∃ reason, r = Err reason.
Proof.
  intros Hload Hcounter. unfold kernel_test. rewrite Hload.
  destruct (wp_with_context w Hcounter) as (r & w' & E & Hv). exists r, w'. rewrite E. split_and!; [done| |].
  - intros ->. destruct Hv as [(? & ? & _ & ?)|? ? ? _ _ ?|? ? buffer words errors _ _ Ht _]; [done..|]. by exists buffer, words, errors.
  - intros buffer words errors k Ht Hk Hbad. destruct r as [[]|reason]; [|by exists reason]. exfalso.
    destruct Hv as [(? & ? & _ & ?)|? ? ? _ _ ?|? ? b ws er _ _ Ht' Hr]; [done..|].
    destruct (tested_unique _ _ _ _ _ _ _ Ht Ht') as (-> & -> & _).
    symmetry in Hr. apply memory_result_ok in Hr. destruct Hbad as [(bit & x & Hb & Hstuck)|(seed & Hseed & Hmis)].
    + exact (stuck_bit_misreads _ _ _ _ _ Hk Hb Hstuck Hr).
    + by apply Hmis, Hr.
Qed.

End card.

(** The hash kernel computes the CPU's hash: however the instructions of its
    threads interleave, no schedule faults or runs for ever, and at the end
    each result is what [hash] gives for its thread. *)
Theorem hash_kernel_matches_cpu g out rounds m :
  g_param g "hash_out" = Some out → g_param g "hash_rounds" = Some rounds →
  g_threads g ≠ 0 → g_size g < 2 ^ 32 → rounds < 2 ^ 32 → out + 4 * g_size g < 2 ^ 64 →
  (∀ i, i < g_size g → is_Some (m !! (out + 4 * i))) →
  grid_computes (en_body hash_entry) g m (λ m', ∀ i, i < g_size g → m' !! (out + 4 * i) = Some (hash i rounds)).
Proof.
  intros Hout Hrounds Hthreads Hsize Hr Haddr Hmapped s Hs.
  destruct (hash_kernel_computes g out rounds m Hout Hrounds Hthreads Hsize Hr Haddr Hmapped s Hs)
    as (? & ? & ? & Hpost). split_and!; [done..|]. intros Hd. by apply Hpost.
Qed.

(** ** Witnesses: a card in memory, with one stuck bit *)

Section demo.

#[local] Instance sreg_eq_dec : EqDecision sreg.
Proof. solve_decision. Defined.
#[local] Instance operand_eq_dec : EqDecision operand.
Proof. solve_decision. Defined.
#[local] Instance instr_eq_dec : EqDecision instr.
Proof. solve_decision. Defined.
#[local] Instance line_eq_dec : EqDecision line.
Proof. solve_decision. Defined.
#[local] Instance entry_eq_dec : EqDecision entry.
Proof. solve_decision. Defined.

(** [f] over the words from [a]. *)
Definition write_words (a : N) (f : N → N) (n : N) (m : memory) : memory :=
  foldr (λ k m, <[a + 4 * k := f k]> m) m (upto n).

Lemma write_words_at a f n m k : k < n → write_words a f n m !! (a + 4 * k) = Some (f k).
Proof.
  intros Hk%elem_of_upto. unfold write_words. induction (upto n) as [|j l IH]; [by apply elem_of_nil in Hk|].
  cbn. destruct (decide (j = k)) as [->|Hne]; [apply lookup_insert_eq|].
  rewrite lookup_insert_ne by lia. apply IH. by apply elem_of_cons in Hk as [->|].
Qed.

Lemma write_words_other a f n m x : (∀ k, k < n → x ≠ a + 4 * k) → write_words a f n m !! x = m !! x.
Proof.
  intros Hx. assert (∀ k, k ∈ upto n → x ≠ a + 4 * k) as Hx' by (intros k ?%elem_of_upto; auto).
  unfold write_words. clear Hx. induction (upto n) as [|j l IH]; [done|]. cbn.
  rewrite lookup_insert_ne by (apply not_eq_sym, Hx'; by left). apply IH. intros k Hk. apply Hx'. by right.
Qed.

(** A memory with these words is the one written. *)
Lemma write_words_unique a f n m m' :
  (∀ k, k < n → m' !! (a + 4 * k) = Some (f k)) → (∀ x, (∀ k, k < n → x ≠ a + 4 * k) → m' !! x = m !! x) →
  m' = write_words a f n m.
Proof.
  intros Hat Hother. apply map_eq. intros x.
  destruct (decide (Exists (λ k, x = a + 4 * k) (upto n))) as [(k & Hk%elem_of_upto & ->)%Exists_exists|Hno].
  - by rewrite Hat, write_words_at.
  - assert (∀ k, k < n → x ≠ a + 4 * k) as Hx.
    { intros k Hk E. apply Hno, Exists_exists. exists k. by rewrite elem_of_upto. }
    by rewrite Hother, write_words_other.
Qed.

(** A grid that computes has a schedule to its end. *)
Lemma grid_computes_ends prog g m post :
  grid_computes prog g m post → ∃ s, rtc (grid_step prog g) (grid_start g m) s ∧ grid_done prog s ∧ post s.2.
Proof.
  intros Hgrid. cut (∀ s, Acc (flip (grid_step prog g)) s → rtc (grid_step prog g) (grid_start g m) s →
    ∃ s', rtc (grid_step prog g) (grid_start g m) s' ∧ grid_done prog s' ∧ post s'.2).
  { intros Hcut. apply (Hcut (grid_start g m)); [apply (Hgrid _ (rtc_refl _ _))|apply rtc_refl]. }
  induction 1 as [s _ IH]. intros Hs. destruct (Hgrid s Hs) as (_ & _ & [Hd|[s' Hstep]] & Hpost); [by exists s; auto|].
  apply (IH s' Hstep). by eapply rtc_r.
Qed.

Definition demo_stuck_at : N := 4100.
Definition demo_read (a v : N) : N := if a =? demo_stuck_at then N.setbit v 0 else v.

Definition all_mapped (a n : N) (m : memory) : bool := forallb (λ k, bool_decide (is_Some (m !! (a + 4 * k)))) (upto n).

Lemma all_mapped_spec a n m : all_mapped a n m = true → mapped a n m.
Proof.
  unfold all_mapped. rewrite forallb_forall. intros Hall k Hk%elem_of_upto%list_elem_of_In.
  by apply Hall, bool_decide_eq_true in Hk.
Qed.

Definition demo_launch (f blocks threads : N) (params : list N) (m : memory) : option memory :=
  let size := blocks * threads in
  let go (b : bool) (m' : memory) := if b then Some m' else None in
  if negb ((0 <? size) && (size <? 2 ^ 32)) then None
  else match f, params with
  | 0, [out; rounds] =>
      go ((rounds <? 2 ^ 32) && (out + 4 * size <? 2 ^ 64) && all_mapped out size m)
        (write_words out (λ i, hash i rounds) size m)
  | 1, [buffer; words; seed] =>
      go ((seed <? 2 ^ 32) && (words + size <? 2 ^ 62) && (buffer + 4 * words <? 2 ^ 64) && all_mapped buffer words m)
        (write_words buffer (λ k, pattern k seed) words m)
  | 2, [buffer; words; seed; errors] =>
      let val k := default 0 (m !! (buffer + 4 * k)) in
      match m !! errors with
      | Some e0 =>
          go ((seed <? 2 ^ 32) && (words + size <? 2 ^ 62) && (buffer + 4 * words <? 2 ^ 64) && all_mapped buffer words m
              && (errors <? 2 ^ 64) && forallb (λ k, negb (errors =? buffer + 4 * k)) (upto words)
              && (e0 <? 2 ^ 32) && negb (errors =? demo_stuck_at))
            (<[errors := wrap32 (e0 + wrong_words (launch_grid check_entry blocks threads [] demo_read)
                                        buffer words seed val)]> m)
      | None => None
      end
  | _, _ => None
  end.

Definition demo_entry (f : N) : option entry :=
  match f with 0 => Some hash_entry | 1 => Some fill_entry | 2 => Some check_entry | _ => None end.

Ltac demo_none Hl :=
  cbn beta iota zeta in Hl; try (lazymatch type of Hl with None = Some _ => discriminate Hl end).

Ltac demo_bools E :=
  rewrite ?andb_true_iff in E; destruct_and? E;
  repeat match goal with
  | H : (_ <? _) = true |- _ => apply N.ltb_lt in H
  | H : negb (_ =? _) = true |- _ => apply negb_true_iff, N.eqb_neq in H
  end.

Lemma demo_launch_runs f e blocks threads params m m' :
  demo_entry f = Some e → demo_launch f blocks threads params m = Some m' →
  ∃ s, rtc (grid_step (en_body e) (launch_grid e blocks threads params demo_read))
         (grid_start (launch_grid e blocks threads params demo_read) m) s ∧ grid_done (en_body e) s ∧ m' = s.2.
Proof.
  intros He Hl. apply grid_computes_ends. unfold demo_launch in Hl.
  destruct (negb _) eqn:Hsize in Hl; [done|].
  apply negb_false_iff, andb_true_iff in Hsize as [H0%N.ltb_lt Hsize%N.ltb_lt].
  assert (threads ≠ 0) as Ht by (intros ->; lia).
  destruct f as [|[|[]|]]; try discriminate He; injection He as <-.
  - destruct params as [|out [|rounds [|]]]; demo_none Hl.
    destruct (_ && _) eqn:E; [|discriminate Hl]. apply (inj Some) in Hl as <-. demo_bools E.
    intros s Hs. destruct (hash_kernel_computes (launch_grid hash_entry blocks threads [out; rounds] demo_read)
      out rounds m eq_refl eq_refl Ht Hsize ltac:(done) ltac:(done) ltac:(by apply all_mapped_spec) s Hs)
      as (? & ? & ? & Hpost).
    split_and!; [done..|]. intros [Hat Hother]%Hpost. symmetry. by apply write_words_unique.
  - destruct params as [|buffer [|words [|seed [|errors [|]]]]]; demo_none Hl.
    destruct (m !! errors) as [e0|] eqn:He0; [|discriminate Hl]. destruct (_ && _) eqn:E; [|done].
    injection Hl as <-. demo_bools E.
    assert (∀ k, k < words → errors ≠ buffer + 4 * k) as Hapart.
    { intros k Hk%elem_of_upto%list_elem_of_In Eq.
      match goal with H : forallb _ (upto words) = true |- _ =>
        pose proof (proj1 (forallb_forall _ _) H k Hk) as Hf end.
      cbn in Hf. by rewrite Eq, N.eqb_refl in Hf. }
    assert (∀ k, k < words → m !! (buffer + 4 * k) = Some (default 0 (m !! (buffer + 4 * k)))) as Hval.
    { intros k Hk. by destruct (all_mapped_spec _ _ _ ltac:(done) k Hk) as [v ->]. }
    intros s Hs. destruct (check_kernel_computes
      (launch_grid check_entry blocks threads [buffer; words; seed; errors] demo_read) buffer words seed
      ltac:(unfold g_size; cbn; lia) Hsize ltac:(done) ltac:(done) ltac:(done) eq_refl eq_refl eq_refl errors e0 eq_refl
      m _ Hval ltac:(done) Hapart He0 ltac:(intros v; unfold launch_grid, g_read, demo_read; by rewrite (proj2 (N.eqb_neq _ _)))
      ltac:(done) s Hs) as (? & ? & ? & Hpost).
    split_and!; [done..|]. intros [Hat Hother]%Hpost. apply map_eq. intros x.
    destruct (decide (x = errors)) as [->|Hne]; [by rewrite lookup_insert_eq, Hat|].
    by rewrite lookup_insert_ne, Hother.
  - destruct params as [|buffer [|words [|seed [|]]]]; demo_none Hl.
    destruct (_ && _) eqn:E; [|discriminate Hl]. apply (inj Some) in Hl as <-. demo_bools E.
    intros s Hs. destruct (fill_kernel_computes (launch_grid fill_entry blocks threads [buffer; words; seed] demo_read)
      buffer words seed ltac:(unfold g_size; cbn; lia) Hsize ltac:(done) ltac:(done) ltac:(done)
      eq_refl eq_refl eq_refl m ltac:(by apply all_mapped_spec) s Hs)
      as (? & ? & ? & Hpost).
    split_and!; [done..|]. intros [Hat Hother]%Hpost. symmetry. by apply write_words_unique.
Qed.

(** The next free address; single words from 2^40 on, apart from the rest. *)
Definition demo_alloc (bytes : N) (w : memory * N) : (Z * N) * (memory * N) :=
  let '(m, free_at) := w in
  let a := if bytes =? 4 then 2 ^ 40 + free_at else free_at in
  if (a + bytes <? 2 ^ 64) && forallb (λ k, bool_decide (m !! (a + 4 * k) = None)) (upto (bytes / 4))
  then ((0%Z, a), (write_words a (λ _, 0) (bytes / 4) m, free_at + bytes))
  else ((2%Z, 0), w).

Definition demo_copy (a bytes : N) (w : memory * N) : (Z * list N) * (memory * N) :=
  ((0%Z, (λ k, demo_read (a + 4 * k) (default 0 (w.1 !! (a + 4 * k)))) <$> upto (bytes / 4)), w).

Definition demo_function (name : string) : option N :=
  if String.eqb name "hash" then Some 0 else if String.eqb name "fill" then Some 1
  else if String.eqb name "check" then Some 2 else None.

#[local] Instance demo_driver : CudaDriver (memory * N) := {|
  driver_loads := true;
  cuInit := λ _ w, ((0%Z, tt), w);
  cuDeviceGet := λ _ w, ((0%Z, 0%Z), w);
  cuDeviceGetAttribute := λ _ _ w, ((0%Z, 1%Z), w);
  cuCtxCreate := λ _ w, ((0%Z, 0), w);
  cuCtxDestroy := λ _ w, ((0%Z, tt), w);
  cuModuleLoadData := λ entries w, ((if bool_decide (entries = PTX) then 0%Z else 200%Z, 0), w);
  cuModuleGetFunction := λ _ name w,
    match demo_function name with Some f => ((0%Z, f), w) | None => ((500%Z, 0), w) end;
  cuMemGetInfo := λ w, ((0%Z, (16, 32)), w);
  cuMemAlloc := demo_alloc;
  cuMemsetD32 := λ a v n w, ((0%Z, tt), (write_words a (λ _, v) n w.1, w.2));
  cuMemcpyDtoH := demo_copy;
  cuLaunchKernel := λ f blocks threads params w,
    match demo_launch f blocks threads params w.1 with
    | Some m => ((0%Z, tt), (m, w.2))
    | None => ((700%Z, tt), w)
    end;
  cuCtxSynchronize := λ w, ((0%Z, tt), w);
|}.

Lemma demo_alloc_fresh bytes w a w' :
  demo_alloc bytes w = ((0%Z, a), w') →
  a + bytes < 2 ^ 64 ∧ (∀ x v, w.1 !! x = Some v → w'.1 !! x = Some v) ∧
  ∀ k, k < bytes / 4 → w.1 !! (a + 4 * k) = None ∧ is_Some (w'.1 !! (a + 4 * k)).
Proof.
  destruct w as [m free_at]. unfold demo_alloc. destruct (_ && _) eqn:E; [|intros [=]].
  apply andb_true_iff in E as [Hlt%N.ltb_lt Hfree]. rewrite forallb_forall in Hfree.
  remember (if bytes =? 4 then 2 ^ 40 + free_at else free_at) as a0. intros [= <- <-].
  assert (∀ k, k < bytes / 4 → m !! (a0 + 4 * k) = None) as Hnone.
  { intros k Hk%elem_of_upto%list_elem_of_In. by apply Hfree, bool_decide_eq_true in Hk. }
  split_and!; [done| |].
  - intros x v Hx. cbn. rewrite write_words_other; [done|]. intros k Hk ->. rewrite Hnone in Hx; done.
  - intros k Hk. split; [by apply Hnone|]. cbn. rewrite write_words_at by done. by eexists.
Qed.

#[local] Instance demo_card : Card (memory * N).
Proof.
  refine {| cd_mem := fst; cd_read := demo_read; cd_module := λ _, PTX; cd_kernel := demo_entry |}.
  - by intros device w sms w' [= <- <-].
  - intros entries w m w' [= E <- <-]. by case_bool_decide.
  - intros m name w f w'. cbn. unfold demo_function.
    destruct (String.eqb_spec name "hash") as [->|_]; [by intros [= <- <-]|].
    destruct (String.eqb_spec name "fill") as [->|_]; [by intros [= <- <-]|].
    destruct (String.eqb_spec name "check") as [->|_]; [by intros [= <- <-]|by intros [=]].
  - apply demo_alloc_fresh.
  - intros a v n w u w' [= <- <-]. cbn. split; [intros k Hk; by rewrite write_words_at|].
    intros x Hx. by rewrite write_words_other.
  - intros a bytes w l w' [= <- <-]. split; [unfold upto; by rewrite !length_fmap, length_seq|].
    intros k v Hk Hv. unfold upto. rewrite !list_lookup_fmap, lookup_seq_lt by lia. cbn.
    by rewrite N2Nat.id, Hv.
  - intros f e blocks threads params w u w1 u' w2 He E [= <- <-]. cbn in E.
    destruct (demo_launch f blocks threads params w.1) as [m|] eqn:El; [|done]. injection E as <- <-.
    by eapply demo_launch_runs.
Defined.

Lemma demo_counter w : counter_sound w.
Proof.
  intros buffer words errors (? & ? & ? & ? & ? & ? & ? & [m free_at] & ? & _ & _ & _ & _ & _ & E) v.
  cbn in E. unfold demo_alloc in E. destruct (_ && _); [|done].
  injection E as <- _. cbn. unfold demo_read. rewrite (proj2 (N.eqb_neq _ _)); [done|].
  unfold demo_stuck_at. cbn. lia.
Qed.

Lemma kernel_test_verdict_witness : ∃ r w', kernel_test (∅ : memory, 0) = Some (Ret (r, w')) ∧ verdict (∅ : memory, 0) r.
Proof.
  destruct (kernel_test_verdict (∅ : memory, 0)) as (r & w' & E & Hv & _); [reflexivity|exact (demo_counter _)|].
  exists r, w'. exact (conj E Hv).
Defined.

(** The memory once the chains are computed. *)
Definition demo_hashed : memory :=
  write_words 0 (λ i, hash i HASH_ROUNDS) 1024 (write_words 0 (λ _, 0) 1024 ∅).

Lemma demo_alloc_ok bytes m free_at a :
  a = (if bytes =? 4 then 2 ^ 40 + free_at else free_at) → a + bytes < 2 ^ 64 →
  (∀ k, k < bytes / 4 → m !! (a + 4 * k) = None) →
  demo_alloc bytes (m, free_at) = ((0%Z, a), (write_words a (λ _, 0) (bytes / 4) m, free_at + bytes)).
Proof.
  intros Ha Hlt Hnone. unfold demo_alloc. rewrite <-Ha.
  replace ((a + bytes <? 2 ^ 64) && _) with true; [done|]. symmetry. apply andb_true_iff. split; [by apply N.ltb_lt|].
  apply forallb_forall. intros k Hk%list_elem_of_In%elem_of_upto. by apply bool_decide_eq_true, Hnone.
Qed.

#[local] Opaque HASH_ROUNDS.

Lemma bind_ok {A B} (m : cu (memory * N) A) (f : A → cu (memory * N) B) w a w' :
  m w = Ret (Ok a, w') → (m ≫= f) w = f a w'.
Proof. intros E. unfold mbind, cu_bind. by rewrite E. Qed.

Lemma check_ok {A} (f : memory * N → (Z * A) * (memory * N)) call w a w' :
  f w = ((0%Z, a), w') → check f call w = Ret (Ok a, w').
Proof. intros E. unfold check. by rewrite E. Qed.

Lemma demo_hash_launch :
  demo_launch 0 4 THREADS [0; HASH_ROUNDS] (write_words 0 (λ _, 0) 1024 ∅) = Some demo_hashed.
Proof.
  assert (all_mapped 0 1024 (write_words 0 (λ _, 0) 1024 ∅) = true) as Hm.
  { apply forallb_forall. intros k Hk%list_elem_of_In%elem_of_upto. apply bool_decide_eq_true.
    rewrite write_words_at by done. by eexists. }
  unfold demo_launch, demo_hashed. change (4 * THREADS) with 1024. by rewrite Hm, (proj2 (N.ltb_lt _ _) rounds_small).
Qed.

Lemma demo_copied : wrong_chains (demo_copy 0 4096 (demo_hashed, 4096)).1.2 = 0.
Proof.
  apply wrong_chains_zero. intros i v. unfold demo_copy. cbn [fst snd]. change (4096 / 4) with 1024.
  unfold upto. rewrite !list_lookup_fmap. intros (x & (y & Hy & ->)%fmap_Some & ->)%fmap_Some.
  apply lookup_seq in Hy as [-> Hi]. cbn [Nat.add].
  assert (N.of_nat i < 1024) as Hlt by lia.
  unfold demo_hashed. rewrite write_words_at by done. cbn [default]. unfold demo_read, demo_stuck_at.
  by rewrite (proj2 (N.eqb_neq _ _)) by lia.
Qed.

Lemma demo_alloc_chains :
  cuMemAlloc (1024 * 4) (∅ : memory, 0) = ((0%Z, 0), (write_words 0 (λ _, 0) 1024 ∅, 4096)).
Proof. apply (demo_alloc_ok (1024 * 4) ∅ 0 0); [done|done|]. intros; apply lookup_empty. Qed.

Lemma demo_launch_chains :
  cuLaunchKernel 0 4 THREADS [0; HASH_ROUNDS] (write_words 0 (λ _, 0) 1024 ∅, 4096) = ((0%Z, tt), (demo_hashed, 4096)).
Proof. unfold cuLaunchKernel, demo_driver. cbn [fst]. by rewrite demo_hash_launch. Qed.

Lemma demo_copy_chains :
  cuMemcpyDtoH 0 (1024 * 4) (demo_hashed, 4096) = ((0%Z, (demo_copy 0 4096 (demo_hashed, 4096)).1.2), (demo_hashed, 4096)).
Proof. done. Qed.

#[local] Opaque write_words demo_launch demo_hashed demo_copy demo_alloc hash.

Lemma demo_chains : test_hash 0 4 (4 * THREADS) (∅ : memory, 0) = Ret (Ok tt, (demo_hashed, 4096)).
Proof.
  change (4 * THREADS) with 1024. unfold test_hash.
  erewrite bind_ok; [|apply check_ok, demo_alloc_chains]. erewrite bind_ok; [|by apply check_ok].
  erewrite bind_ok.
  2: { unfold run. erewrite bind_ok; [by apply check_ok|]. apply check_ok, demo_launch_chains. }
  erewrite bind_ok; [|apply check_ok, demo_copy_chains]. cbn zeta. by rewrite demo_copied.
Qed.

#[local] Transparent write_words demo_launch demo_hashed demo_copy demo_alloc hash.

(** The run is given the two words from 4096 on. *)
Lemma demo_tested : tested (∅ : memory, 0) 4096 2 (2 ^ 40 + 4104).
Proof.
  eexists 4, 0, (∅ : memory, 0), (demo_hashed, 4096), 16, 32, (demo_hashed, 4096), _, _.
  split_and!; [|exact demo_chains|done| |done|].
  - eexists 0%Z, 1%Z, 0, (∅ : memory, 0), (∅ : memory, 0), (∅ : memory, 0), (∅ : memory, 0). split_and!; try done.
  - apply demo_alloc_ok; [done|done|]. intros k Hk. change (test_bytes 16 / 4) with 2 in Hk. unfold demo_hashed.
    rewrite !write_words_other; [apply lookup_empty|intros; lia..].
  - apply demo_alloc_ok; [done|done|]. intros k Hk. change (test_bytes 16 / 4) with 2. change (4 / 4) with 1 in Hk.
    unfold demo_hashed. rewrite !write_words_other; [apply lookup_empty|intros; lia..].
Qed.

(** The stuck word is the second of the two the run is given to test. *)
Lemma stuck_bit_never_passes_witness :
  ∃ r w' reason, kernel_test (∅ : memory, 0) = Some (Ret (r, w')) ∧ r = Err reason.
Proof.
  destruct (stuck_bit_never_passes (∅ : memory, 0)) as (r & w' & E & _ & Hbad); [reflexivity|exact (demo_counter _)|].
  destruct (Hbad _ _ _ 1 demo_tested) as [reason Hr]; [reflexivity| |exists r, w', reason; exact (conj E Hr)].
  left. exists 0, true. split; reflexivity.
Defined.

(** Two blocks of two threads, three rounds, results from address 16 on. *)
Definition demo_grid : grid := mkGrid 2 2 (launch_param hash_entry [16; 3]) (λ _ v, v).

Lemma hash_kernel_matches_cpu_witness :
  grid_computes (en_body hash_entry) demo_grid (write_words 16 (λ _, 0) 4 ∅)
    (λ m, ∀ i, i < 4 → m !! (16 + 4 * i) = Some (hash i 3)).
Proof.
  apply (hash_kernel_matches_cpu demo_grid 16 3); try reflexivity; [done|].
  intros i Hi. rewrite write_words_at by exact Hi. by eexists.
Defined.

(** One of its schedules, thread after thread, run. *)
Example demo_grid_runs :
  (m ← foldl (λ m i, m ≫= run_thread 100 (en_body hash_entry) (launch_of demo_grid i) start_thread)
         (Some (write_words 16 (λ _, 0) 4 ∅)) (upto 4); m !! (16 + 4 * 3)) = Some (hash 3 3).
Proof. vm_compute. reflexivity. Qed.

End demo.
