(* ===== verification/Dcgm.v ===== *)
(** * The qualify command: [src/resource/qualify.rs]

    [roster qualify] tests one card, with the kernels ([Cuda.v]) and with DCGM
    where it is installed, and reports to this machine's daemon. *)

From S2P Require Import Prelude Text Shell Protocol Cuda.

(** ** DCGM's report *)

(** [serde_json::Value]; an object's members in the order its map has them. *)
Inductive json : Type :=
  | Null
  | Bool (b : bool)
  | Number (text : string)
  | Str (s : string)
  | Array (items : list json)
  | Object (members : list (string * json)).

Definition as_str (value : json) : option string :=
  match value with Str s => Some s | _ => None end.

(** [object.get(key)] *)
Definition get (key : string) (members : list (string * json)) : option json :=
  snd <$> List.find (λ m, String.eqb m.1 key) members.

Definition lower (c : ascii) : ascii :=
  let n := N_of_ascii c in
  if (65 <=? n) && (n <=? 90) then ascii_of_N (n + 32) else c.

Definition eq_ignore_ascii_case (a b : string) : bool :=
  String.eqb (of_chars (lower <$> chars a)) (of_chars (lower <$> chars b)).

(** [object.get("name").and_then(as_str).or(name)] *)
Definition name_of (members : list (string * json)) (name : option string) : option string :=
  match get "name" members ≫= as_str with Some n => Some n | None => name end.

Definition is_failed (members : list (string * json)) : bool :=
  match get "status" members ≫= as_str with
  | Some status => eq_ignore_ascii_case status "fail"
  | None => false
  end.

(** [if !failed.contains(&name) { failed.push(name) }] *)
Definition push_new (name : string) (failed : list string) : list string :=
  if existsb (String.eqb name) failed then failed else failed ++ [name].

Fixpoint walk (value : json) (name : option string) (failed : list string) : list string :=
  match value with
  | Object members =>
      let name := name_of members name in
      let failed := if is_failed members then push_new (default "unnamed test" name) failed else failed in
      fold_left (λ failed m, walk m.2 name failed) members failed
  | Array items => fold_left (λ failed item, walk item name failed) items failed
  | _ => failed
  end.

(** Names of tests whose status is "Fail"; DCGM's JSON layout changes between versions, so walk all of it
    and name a failure after the nearest enclosing "name" *)
Definition failed_tests (report : json) : list string := walk report None [].

(** ** DCGM's discovery table *)

Definition bar : ascii := "|".

(** [line.trim().trim_start_matches('|').split('|').next().unwrap_or("").trim()], parsed *)
Definition row_id (line : string) : option N :=
  let line := trim line in
  let line := strip_all (String.length line) ["|"] line in
  parse_u32 (trim (default "" (head (split_on (Ascii.eqb bar) line)))).

Fixpoint discovery_loop (current : option N) (lines : list string) (uuid : string) : option N :=
  match lines with
  | [] => None
  | line :: lines =>
      let current := match row_id line with Some id => Some id | None => current end in
      if contains uuid line then current else discovery_loop current lines uuid
  end.

(** In the discovery table a card's id opens its first row and its UUID follows a few rows below *)
Definition discovery_id (table uuid : string) : option N := discovery_loop None (lines table) uuid.

(** ** The command *)

(** What a finished command leaves. *)
Record Output := mkOutput { out_success : bool; out_status : string; out_stdout : string }.

(** Running [dcgmi], reading JSON, and asking this machine's daemon. *)
Class QualifyEnv (W : Type) : Type := {
  dcgmi : list string → W → result Output string * W;
  json_from_slice : string → option json;
  client_send : Request → W → result Response string * W;
  debug_response : Response → string;
}.

Section qualify.
Context {W : Type} `{CudaDriver W} `{QualifyEnv W}.

(** DCGM's id for the card: the row of [dcgmi discovery -l] that lists its UUID, or its index when
    the inventory has no UUID; None when dcgmi isn't installed or doesn't list the card *)
Definition dcgm_gpu_id (index : N) (uuid : option string) (w : W) : option N * W :=
  let '(output, w) := dcgmi ["discovery"; "-l"] w in
  match output with
  | Ok output =>
      (if out_success output
       then match uuid with
            | Some uuid => discovery_id (from_utf8_lossy (out_stdout output)) uuid
            | None => Some index
            end
       else None, w)
  | Err _ => (None, w)
  end.

(** [dcgmi diag -r LEVEL -i ID -j]: any test reported "Fail", or a failed run, fails the card *)
Definition dcgm_diag (id level : N) (w : W) : result unit string * W :=
  let '(output, w) := dcgmi ["diag"; "-r"; pretty level; "-i"; pretty id; "-j"] w in
  match output with
  | Err error => (Err ("dcgmi: " +:+ error), w)
  | Ok output =>
      let failed := failed_tests (default Null (json_from_slice (out_stdout output))) in
      (match failed with
       | _ :: _ => Err ("DCGM level " +:+ pretty level +:+ " failed: " +:+ join ", " failed)
       | [] => if negb (out_success output)
               then Err ("DCGM level " +:+ pretty level +:+ " exited with " +:+ out_status output)
               else Ok tt
       end, w)
  end.

(** DCGM's part of [test]: what passed so far, and after it. *)
Definition test_dcgm (index : N) (uuid : option string) (retest : bool) (passed : list string) (w : W)
    : result (list string) string * W :=
  let level := if retest then 2 else 1 in
  let '(id, w) := dcgm_gpu_id index uuid w in
  match id with
  | Some id =>
      let '(diag, w) := dcgm_diag id level w in
      (match diag with
       | Ok _ => Ok (passed ++ ["DCGM level " +:+ pretty level])
       | Err reason => Err reason
       end, w)
  | None => (Ok passed, w)
  end.

Definition tests_ran (passed : list string) : string :=
  match passed with
  | [] => "no test available here"
  | _ => join " and " passed +:+ " passed"
  end.

(** The kernel test, then DCGM where it is installed; Ok names the tests that ran *)
Definition test (index : N) (uuid : option string) (retest : bool) (w : W) : exec (result string string * W) :=
  kernel ← match kernel_test w with
           | Some verdict => '(r, w) ← verdict; Ret (Some r, w)
           | None => Ret (None, w)
           end;
  match kernel with
  | (Some (Err reason), w) => Ret (Err ("kernel test: " +:+ reason), w)
  | (ran, w) =>
      let passed := if ran then ["kernel test"] else [] in
      let '(r, w) := test_dcgm index uuid retest passed w in
      Ret (match r with Ok passed => Ok (tests_ran passed) | Err reason => Err reason end, w)
  end.

(** What the command makes of the daemon's reply. *)
Definition outcome (index : N) (passed : bool) (reason : string) (reply : result Response string) : result unit string :=
  match reply with
  | Err error => Err error
  | Ok Response_Recorded =>
      if passed then Ok tt
      else Err ("GPU " +:+ pretty index +:+ " failed qualification: " +:+ reason)
  | Ok other => Err ("unexpected reply: " +:+ debug_response other)
  end.

(** Test the card and record the result with this machine's daemon; an error when the card failed
    [retest] asks for DCGM's longer level 2 diagnostic, required before a quarantined card returns *)
Definition run (index : N) (uuid : option string) (retest : bool) (w : W) : exec (result unit string * W) :=
  '(result, w) ← test index uuid retest w;
  let '(passed, reason) := match result with Ok tests => (true, tests) | Err reason => (false, reason) end in
  let '(reply, w) := client_send (Request_GpuQualified index passed reason) w in
  Ret (outcome index passed reason reply, w).

End qualify.

(** ** What the report says *)

(** [found] is the name of a failed test somewhere in the value: that of the
    nearest object around it that has one. *)
Inductive fails : json → option string → string → Prop :=
  | fails_here members name :
      is_failed members = true → fails (Object members) name (default "unnamed test" (name_of members name))
  | fails_member members name m found :
      m ∈ members → fails m.2 (name_of members name) found → fails (Object members) name found
  | fails_item items name item found :
      item ∈ items → fails item name found → fails (Array items) name found.

Lemma push_new_spec n failed :
  NoDup failed → NoDup (push_new n failed) ∧ ∀ x, x ∈ push_new n failed ↔ x ∈ failed ∨ x = n.
Proof.
  intros Hnd. unfold push_new. destruct (existsb _ _) eqn:E.
  - apply existsb_exists in E as (y & Hy & ->%String.eqb_eq). apply list_elem_of_In in Hy.
    split; [done|]. intros x. split; [by left|by intros [?| ->]].
  - assert (n ∉ failed) as Hn.
    { intros Hin%list_elem_of_In. assert (existsb (String.eqb n) failed = true); [|congruence].
      apply existsb_exists. exists n. split; [done|]. apply String.eqb_refl. }
    split.
    + apply NoDup_app. split_and!; [done| |apply NoDup_singleton]. by intros x Hx ->%list_elem_of_singleton.
    + intros x. by rewrite elem_of_app, list_elem_of_singleton.
Qed.

(** What a walk adds: the failures of the value. *)
Definition walks (value : json) : Prop :=
  ∀ name failed, NoDup failed →
    NoDup (walk value name failed) ∧ ∀ x, x ∈ walk value name failed ↔ x ∈ failed ∨ fails value name x.

Lemma fold_walks {A} (f : A → json) name (l : list A) failed :
  (∀ a, a ∈ l → walks (f a)) → NoDup failed →
  let r := fold_left (λ failed a, walk (f a) name failed) l failed in
  NoDup r ∧ ∀ x, x ∈ r ↔ x ∈ failed ∨ ∃ a, a ∈ l ∧ fails (f a) name x.
Proof.
  cbn zeta. revert failed. induction l as [|a l IH]; intros failed Hw Hnd.
  - split; [done|]. intros x. split; [by left|]. intros [?|(a & Ha%elem_of_nil & _)]; done.
  - cbn. destruct (Hw a ltac:(by left) name failed Hnd) as [Hnd' Ha].
    destruct (IH (walk (f a) name failed)) as [Hr Hx]; [intros b Hb; apply Hw; by right|done|].
    split; [done|]. intros x. rewrite Hx, Ha. setoid_rewrite elem_of_cons. naive_solver.
Qed.

(** Induction through the lists in a value. *)
Fixpoint json_walks (P : json → Prop) (leaf : ∀ v, match v with Array _ | Object _ => True | _ => P v end)
    (array : ∀ items, Forall P items → P (Array items))
    (object : ∀ members, Forall (λ m, P m.2) members → P (Object members)) (value : json) : P value.
Proof.
  destruct value as [|b|n|s|items|members]; [apply (leaf Null)|apply (leaf (Bool b))|apply (leaf (Number n))
    |apply (leaf (Str s))|apply array|apply object].
  - induction items as [|item items IH]; constructor; [by apply json_walks|done].
  - induction members as [|[k v] members IH]; constructor; [by apply json_walks|done].
Qed.

Lemma walk_spec value : walks value.
Proof.
  revert value. apply (json_walks walks); [intros v|intros items Hw|intros members Hw].
  - destruct v; try done; intros name failed Hnd; (split; [done|]); intros x;
      (split; [by left|intros [?|Hf]; [done|inversion Hf]]).
  - intros name failed Hnd. rewrite Forall_forall in Hw.
    destruct (fold_walks id name items failed Hw Hnd) as [Hr Hx]. split; [exact Hr|]. intros x.
    etrans; [apply Hx|]. split; (intros [?|Hf]; [by left|right]).
    + destruct Hf as (item & ? & ?). by econstructor.
    + inversion Hf; subst. eauto.
  - intros name failed Hnd. rewrite Forall_forall in Hw. cbn [walk].
    set (failed1 := if is_failed members then _ else _).
    assert (NoDup failed1 ∧ ∀ x, x ∈ failed1 ↔ x ∈ failed ∨
      (is_failed members = true ∧ x = default "unnamed test" (name_of members name))) as [Hnd1 H1].
    { unfold failed1. destruct (is_failed members); [|split; [done|naive_solver]].
      destruct (push_new_spec (default "unnamed test" (name_of members name)) failed Hnd) as [? Hx].
      split; [done|]. intros x. rewrite Hx. naive_solver. }
    destruct (fold_walks snd (name_of members name) members failed1 Hw Hnd1) as [Hr Hx]. split; [exact Hr|].
    intros x. etrans; [apply Hx|]. rewrite H1. split.
    + intros [[?|[? ->]]|(m & ? & ?)]; [by left|right; by constructor|right; by econstructor].
    + intros [?|Hf]; [by left; left|]. inversion Hf; subst; [left; right|right; eexists]; done.
Qed.

(** ** The discovery table *)

Lemma discovery_loop_spec uuid lines current :
  discovery_loop current lines uuid =
  match list_find (λ line, Is_true (contains uuid line)) lines with
  | Some (i, _) =>
      match last (omap row_id (take (S i) lines)) with Some id => Some id | None => current end
  | None => None
  end.
Proof.
  revert current. induction lines as [|line lines IH]; intros current; [done|].
  cbn [discovery_loop list_find]. destruct (contains uuid line) eqn:E.
  - rewrite decide_True by (cbn; by rewrite ?E). cbn. by destruct (row_id line).
  - rewrite decide_False by (cbn; rewrite ?E; by intros []). rewrite IH. destruct (list_find _ lines) as [[i l]|]; [|done].
    cbn [fmap option_fmap option_map prod_map fst snd].
    change (omap row_id (take (S (S i)) (line :: lines))) with
      (match row_id line with Some id => id :: omap row_id (take (S i) lines) | None => omap row_id (take (S i) lines) end).
    destruct (row_id line) as [id|]; [|done]. rewrite last_cons. by destruct (last _).
Qed.

Lemma failed_tests_spec report :
  NoDup (failed_tests report) ∧ ∀ name, name ∈ failed_tests report ↔ fails report None name.
Proof.
  destruct (walk_spec report None []) as [Hnd Hx]; [constructor|]. split; [done|]. intros name.
  unfold failed_tests. rewrite Hx. split; [intros [Hin%elem_of_nil|?]; done|by right].
Qed.

(** ** Properties *)

(** The failed tests of a DCGM report: exactly the names of the tests that
    failed, wherever they are in the report, each once; a failure without a
    name of its own is named after the nearest object around it that has one. *)
Theorem failed_tests_exact report :
  NoDup (failed_tests report) ∧ ∀ name, name ∈ failed_tests report ↔ fails report None name.
Proof. apply failed_tests_spec. Qed.

(** A card's DCGM id is the last row id at or above the first line of the
    discovery table with its UUID. *)
Theorem discovery_id_finds table uuid id :
  discovery_id table uuid = Some id ↔
  ∃ before line after, lines table = before ++ line :: after ∧ contains uuid line = true ∧
    Forall (λ l, contains uuid l = false) before ∧ last (omap row_id (before ++ [line])) = Some id.
Proof.
  unfold discovery_id. rewrite discovery_loop_spec. split.
  - destruct (list_find _ _) as [[i line]|] eqn:E; [|done].
    apply list_find_Some in E as (Hi & Hc & Hbefore). intros Hl.
    exists (take i (lines table)), line, (drop (S i) (lines table)). split_and!.
    + by rewrite take_drop_middle.
    + by apply Is_true_true.
    + apply Forall_lookup. intros j l Hj. apply lookup_take_Some in Hj as [Hj Hlt].
      specialize (Hbefore j l Hj Hlt). by apply Is_true_false.
    + rewrite <-(take_S_r _ _ line) by done. destruct (last _); [by injection Hl as ->|done].
  - intros (before & line & after & -> & Hc & Hbefore & Hl).
    assert (list_find (λ l, Is_true (contains uuid l)) (before ++ line :: after) = Some (length before, line)) as ->.
    { apply list_find_Some. split_and!.
      - by rewrite list_lookup_middle.
      - by apply Is_true_true.
      - intros j l Hj Hlt. rewrite lookup_app_l in Hj by done.
        apply Is_true_false. by eapply (proj1 (Forall_lookup _ _) Hbefore). }
    assert (take (S (length before)) (before ++ line :: after) = before ++ [line]) as ->; [|by rewrite Hl].
    rewrite take_app_ge by lia. by replace (S (length before) - length before)%nat with 1%nat by lia.
Qed.

Section verdict.
Context {W : Type} `{CudaDriver W} `{QualifyEnv W}.

(** A diagnostic that ran to its end and reports no failure. *)
Definition clean (output : Output) : Prop :=
  out_success output = true ∧ ∀ name, ¬ fails (default Null (json_from_slice (out_stdout output))) None name.

Lemma dcgm_diag_clean id level w :
  (dcgm_diag id level w).1 = Ok tt ↔
  ∃ output, (dcgmi ["diag"; "-r"; pretty level; "-i"; pretty id; "-j"] w).1 = Ok output ∧ clean output.
Proof.
  unfold dcgm_diag, clean. destruct (dcgmi _ w) as [[output|error] w']; cbn.
  2: { split; [done|by intros (? & ? & _)]. }
  destruct (failed_tests_spec (default Null (json_from_slice (out_stdout output)))) as [_ Hf].
  destruct (failed_tests _) as [|name failed].
  - destruct (out_success output) eqn:Es; cbn.
    + split; [|done]. intros _. exists output. split_and!; [done|done|]. intros name Hn%Hf. by apply elem_of_nil in Hn.
    + split; [done|]. intros (o & [= <-] & Ho & _). congruence.
  - split; [done|]. intros (o & [= <-] & _ & Hno). destruct (Hno name). apply Hf. by left.
Qed.

(** Nothing that could be run found fault with the card: neither the kernels
    nor, on a card DCGM lists, its diagnostic. *)
Definition faultless (index : N) (uuid : option string) (retest : bool)
    (kernel : option (result unit string)) (w : W) : Prop :=
  (∀ reason, kernel ≠ Some (Err reason)) ∧
  ∀ id, (dcgm_gpu_id index uuid w).1 = Some id →
    (dcgm_diag id (if retest then 2 else 1) (dcgm_gpu_id index uuid w).2).1 = Ok tt.

Lemma test_dcgm_passes index uuid retest passed w :
  (∃ l, (test_dcgm index uuid retest passed w).1 = Ok l) ↔
  ∀ id, (dcgm_gpu_id index uuid w).1 = Some id →
    (dcgm_diag id (if retest then 2 else 1) (dcgm_gpu_id index uuid w).2).1 = Ok tt.
Proof.
  unfold test_dcgm. destruct (dcgm_gpu_id index uuid w) as [[id|] w1]; cbn; [|split; eauto; done].
  destruct (dcgm_diag id _ w1) as [[[]|reason] w2] eqn:E; cbn.
  - split; [|eauto]. intros _ ? [= <-]. by rewrite E.
  - split; [by intros [? ?]|]. intros Hid. specialize (Hid id eq_refl). by rewrite E in Hid.
Qed.

(** The qualify command reports the truth, once: with the kernel test's
    verdict, it sends this machine's daemon one GpuQualified for the card, which
    says passed exactly when neither the kernel test nor DCGM's diagnostic (at
    the level asked for, on the card's own row) found fault; and it exits well
    exactly when the card passed and the daemon recorded it. *)
Theorem qualify_reports_once index uuid retest (w w1 : W) kernel :
  match kernel_test w with
  | Some verdict => ∃ r, verdict = Ret (r, w1) ∧ kernel = Some r
  | None => w1 = w ∧ kernel = None
  end →
  ∃ passed reason w2,
    (passed = true ↔ faultless index uuid retest kernel w1) ∧
    let '(reply, w3) := client_send (Request_GpuQualified index passed reason) w2 in
    run index uuid retest w = Ret (outcome index passed reason reply, w3) ∧
    (outcome index passed reason reply = Ok tt ↔ passed = true ∧ reply = Ok Response_Recorded).
Proof.
  intros Hk.
  assert (∃ result w2, test index uuid retest w = Ret (result, w2) ∧
    ((∃ l, result = Ok l) ↔ faultless index uuid retest kernel w1)) as (result & w2 & Et & Hiff).
  { unfold test. assert (match kernel_test w with
      | Some verdict => '(r, w) ← verdict; Ret (Some r, w) | None => Ret (None, w) end = Ret (kernel, w1)) as ->.
    { destruct (kernel_test w) as [verdict|]; [|by destruct Hk as [-> ->]]. by destruct Hk as (r & -> & ->). }
    cbn. destruct kernel as [[[]|reason]|].
    2: { eexists _, _. split; [done|]. split; [by intros [? ?]|]. intros [Hno _]. by destruct (Hno reason). }
    all: match goal with |- context [test_dcgm _ _ _ ?passed _] =>
      pose proof (test_dcgm_passes index uuid retest passed w1) as Hp end.
    all: destruct (test_dcgm _ _ _ _ _) as [[l|reason] w2]; cbn in *; eexists _, _; (split; [done|]).
    all: unfold faultless; rewrite <-Hp; split; [intros [? [=]]; split; eauto; done|intros [_ [? [=]]]; eauto]. }
  exists (match result with Ok _ => true | Err _ => false end),
    (match result with Ok tests => tests | Err reason => reason end), w2. split.
  { rewrite <-Hiff. destruct result; split; eauto; [done|by intros [? ?]]. }
  destruct (client_send _ w2) as [reply w3] eqn:Es. unfold run. rewrite Et. cbn.
  destruct result as [tests|reason]; rewrite Es; (split; [done|]);
    (destruct reply as [[]|]; cbn; split; try done; by intros [? ?]).
Qed.

End verdict.

(** ** Witness: DCGM finds bad memory on the second card *)

Section demo.

Definition demo_table : string := join newline
  ["2 GPUs found.";
   "+--------+-----------------------------------+";
   "| GPU ID | Device Information                |";
   "| 0      | Name: NVIDIA A100-SXM4-80GB       |";
   "|        | Device UUID: GPU-aaaa             |";
   "| 1      | Name: NVIDIA A100-SXM4-80GB       |";
   "|        | Device UUID: GPU-bbbb             |"].

Example demo_discovery : discovery_id demo_table "GPU-bbbb" = Some 1 ∧ discovery_id demo_table "GPU-cccc" = None.
Proof. vm_compute. done. Qed.

Definition demo_report : json :=
  Object [("DCGM GPU Diagnostic", Object [("test_categories", Array
    [Object [("category", Str "Deployment"); ("tests", Array
       [Object [("name", Str "Denylist"); ("results", Array [Object [("status", Str "Pass")]])]])];
     Object [("category", Str "Hardware"); ("tests", Array
       [Object [("name", Str "Memory"); ("results", Array [Object [("status", Str "FAIL")]])];
        Object [("name", Str "Diagnostic"); ("results", Array [Object [("status", Str "Skip")]])]])]])])].

Example demo_failed : failed_tests demo_report = ["Memory"].
Proof. reflexivity. Qed.

(** A machine without the driver; the world is what was sent to the daemon. *)
#[local] Instance demo_no_driver : CudaDriver (list Request) := {|
  driver_loads := false;
  cuInit := λ _ w, ((1%Z, tt), w);
  cuDeviceGet := λ _ w, ((1%Z, 0%Z), w);
  cuDeviceGetAttribute := λ _ _ w, ((1%Z, 0%Z), w);
  cuCtxCreate := λ _ w, ((1%Z, 0), w);
  cuCtxDestroy := λ _ w, ((1%Z, tt), w);
  cuModuleLoadData := λ _ w, ((1%Z, 0), w);
  cuModuleGetFunction := λ _ _ w, ((1%Z, 0), w);
  cuMemGetInfo := λ w, ((1%Z, (0, 0)), w);
  cuMemAlloc := λ _ w, ((1%Z, 0), w);
  cuMemsetD32 := λ _ _ _ w, ((1%Z, tt), w);
  cuMemcpyDtoH := λ _ _ w, ((1%Z, []), w);
  cuLaunchKernel := λ _ _ _ _ w, ((1%Z, tt), w);
  cuCtxSynchronize := λ w, ((1%Z, tt), w);
|}.

#[local] Instance demo_qualify_env : QualifyEnv (list Request) := {|
  dcgmi := λ args w,
    (Ok (if String.eqb (default "" (head args)) "discovery" then mkOutput true "exit status: 0" demo_table
         else mkOutput true "exit status: 0" "report"), w);
  json_from_slice := λ s, if String.eqb s "report" then Some demo_report else None;
  client_send := λ request w, (Ok Response_Recorded, w ++ [request]);
  debug_response := λ _, "";
|}.

Lemma qualify_reports_once_witness :
  ¬ faultless 1 (Some "GPU-bbbb") true None ([] : list Request) ∧
  ∃ reason w, run 1 (Some "GPU-bbbb") true ([] : list Request) =
    Ret (Err ("GPU 1 failed qualification: " +:+ reason), w ++ [Request_GpuQualified 1 false reason]).
Proof.
  destruct (qualify_reports_once 1 (Some "GPU-bbbb") true ([] : list Request) [] None) as
    (passed & reason & w2 & Hiff & E).
  { split; reflexivity. }
  assert (¬ faultless 1 (Some "GPU-bbbb") true None ([] : list Request)) as Hno.
  { intros [_ Hd]. specialize (Hd 1 ltac:(vm_compute; reflexivity)). vm_compute in Hd. discriminate Hd. }
  split; [exact Hno|]. exists reason, w2. destruct E as [E _].
  destruct passed; [destruct Hno; by apply Hiff|exact E].
Defined.

End demo.
