(* ===== verification/Daemon.v ===== *)
(** * The daemon's life cycle: [src/daemon/mod.rs], [src/error.rs]

    One daemon per machine: the lock on the pid file, the order in which a
    daemon takes its machine over and lets it go, and what other starts and
    crashes do in between.  Each system call is a step; any process may make
    the next one, and it may fail.  All processes are taken to have one runtime
    directory ([pid_path] and [socket_path] follow XDG_RUNTIME_DIR of each).  The
    listener's loop is a function of the events that wake it. *)

From S2P Require Import Prelude Spec Pool Handle Model Broadcast Text Health Protocol Executor Shell Scheduler Server.

(** ** Errors: [src/error.rs] *)

Inductive RosterError : Type :=
  | AlreadyRunning (pid : N)
  | NotRunning
  | Io (error : string)
  | Serde (error : string).

Definition RosterError_to_string (e : RosterError) : string :=
  match e with
  | AlreadyRunning pid => "daemon is already running (pid " +:+ pretty pid +:+ ")"
  | NotRunning => "daemon is not running"
  | Io error => "io error: " +:+ error
  | Serde error => "serialization error: " +:+ error
  end.

(** ** The shared state as a daemon starts: [DaemonState::new] *)

(** No run, the pools given, counters at zero, a ring of 256 events. *)
Definition DaemonState_new (pools : list ResourcePool) : exec (DaemonState * Counters * RingBuffer) :=
  events ← channel (T := JobEvent) 256;
  Ret (mkDaemonState ∅ pools ∅, mkCounters 0 0, events).

Lemma DaemonState_new_returns pools :
  ∃ events, DaemonState_new pools = Ret (mkDaemonState ∅ pools ∅, mkCounters 0 0, events) ∧
    channel (T := JobEvent) 256 = Ret events ∧ rb_mask events + 1 = 256.
Proof. eexists. split_and!; reflexivity. Qed.

(** ** Processes and files *)

(** How far [run] has come; every stage after the first system call holds the
    pid file's inode open. *)
Inductive stage : Type :=
  | Opened      (* the pid file is open *)
  | Locked      (* flock succeeded *)
  | Truncated   (* what the pid file had is gone *)
  | Written     (* it has our pid *)
  | Swept       (* a socket left behind is removed, if it could be *)
  | Recovered   (* the store is open, the runs taken back: the scheduler runs *)
  | Listening   (* the socket is bound *)
  | Stopping    (* a signal came, or [listen] failed: scheduler and listener have ended *)
  | Removed     (* cleanup removed the pid file, if it could *)
  | Closing.    (* and the socket; returning drops the lock *)

Record Process := mkProcess { pr_stage : stage; pr_inode : nat }.

(** The files the daemons share: the path names an inode, an inode has its text
    and at most one holder of an exclusive lock. *)
Record Machine := mkMachine {
  mc_pid_path : option nat;
  mc_next : nat;                 (* inodes from here on are unused *)
  mc_text : gmap nat string;
  mc_locks : gmap nat N;         (* inode to process *)
  mc_socket : option N;          (* the process that bound the socket's name *)
  mc_procs : gmap N Process;
}.

Definition set_procs (procs : gmap N Process) (m : Machine) : Machine :=
  mkMachine (mc_pid_path m) (mc_next m) (mc_text m) (mc_locks m) (mc_socket m) procs.
Definition at_stage (pid : N) (st : stage) (i : nat) (m : Machine) : Machine :=
  set_procs (<[pid := mkProcess st i]> (mc_procs m)) m.

(** A process is gone, however: the kernel closes its files and drops its lock. *)
Definition gone (pid : N) (i : nat) (m : Machine) : Machine :=
  mkMachine (mc_pid_path m) (mc_next m) (mc_text m)
    (if decide (mc_locks m !! i = Some pid) then delete i (mc_locks m) else mc_locks m)
    (mc_socket m) (delete pid (mc_procs m)).

(** ** System calls *)

(** [OpenOptions::new().read(true).write(true).create(true).open(path)] *)
Definition open_pid_file (pid : N) (m : Machine) : Machine :=
  match mc_pid_path m with
  | Some i => at_stage pid Opened i m
  | None => at_stage pid Opened (mc_next m)
              (mkMachine (Some (mc_next m)) (S (mc_next m)) (mc_text m) (mc_locks m) (mc_socket m) (mc_procs m))
  end.

(** [flock(LOCK_EX | LOCK_NB)]: held elsewhere, the start fails and its process ends. *)
Definition flock (pid : N) (i : nat) (m : Machine) : Machine :=
  match mc_locks m !! i with
  | Some _ => gone pid i m
  | None => at_stage pid Locked i
              (mkMachine (mc_pid_path m) (mc_next m) (mc_text m) (<[i := pid]> (mc_locks m)) (mc_socket m) (mc_procs m))
  end.

(** The error of a start that finds the lock held: the pid the file's path
    has now, 0 when it can't be read. *)
Definition already_running (m : Machine) : RosterError :=
  AlreadyRunning (default 0 (i ← mc_pid_path m; text ← mc_text m !! i; parse_u32 (trim text))).

(** The error the next system call of a start ends it with. *)
Definition start_error (pid : N) (m : Machine) : option RosterError :=
  match mc_procs m !! pid with
  | Some (mkProcess Opened i) => match mc_locks m !! i with Some _ => Some (already_running m) | None => None end
  | _ => None
  end.

Definition set_text (i : nat) (text : string) (m : Machine) : Machine :=
  mkMachine (mc_pid_path m) (mc_next m) (<[i := text]> (mc_text m)) (mc_locks m) (mc_socket m) (mc_procs m).

(** [file.set_len(0)] *)
Definition set_len (pid : N) (i : nat) (m : Machine) : Machine := at_stage pid Truncated i (set_text i "" m).

(** A file's text, written over from its start. *)
Definition overwrite (text old : string) : string :=
  text +:+ String.substring (String.length text) (String.length old - String.length text) old.

(** [write!(file, "{}", process::id())]: nothing was read or written before, so
    from the start. *)
Definition write_pid (pid : N) (i : nat) (m : Machine) : Machine :=
  at_stage pid Written i (set_text i (overwrite (pretty pid) (default "" (mc_text m !! i))) m).

Definition remove_socket (m : Machine) : Machine :=
  mkMachine (mc_pid_path m) (mc_next m) (mc_text m) (mc_locks m) None (mc_procs m).

(** Remove remain socket file from prev crash *)
Definition cleanup_stale_socket (pid : N) (i : nat) (m : Machine) : Machine :=
  at_stage pid Swept i (remove_socket m).

(** [limit_jobs] ([Shell.v]), [RunStore::open] ([Schema.v]), [DaemonState::new],
    [take_back_runs] ([Recover.v]), when both [?] pass. *)
Definition recover (pid : N) (i : nat) (m : Machine) : Machine := at_stage pid Recovered i m.

(** [UnixListener::bind]: a name in use is an error, which ends [listen]. *)
Definition bind_socket (pid : N) (i : nat) (m : Machine) : Machine :=
  match mc_socket m with
  | Some _ => at_stage pid Stopping i m
  | None => at_stage pid Listening i
              (mkMachine (mc_pid_path m) (mc_next m) (mc_text m) (mc_locks m) (Some pid) (mc_procs m))
  end.

(** [cleanup], first call: whatever the path names now. *)
Definition remove_pid_file (pid : N) (i : nat) (m : Machine) : Machine :=
  at_stage pid Removed i
    (mkMachine None (mc_next m) (mc_text m) (mc_locks m) (mc_socket m) (mc_procs m)).

(** [run], from one system call to the next. *)
Definition from_stage (st : stage) (pid : N) (i : nat) (m : Machine) : Machine :=
  match st with
  | Opened => flock pid i m
  | Locked => set_len pid i m
  | Truncated => write_pid pid i m
  | Written => cleanup_stale_socket pid i m
  | Swept => recover pid i m
  | Recovered => bind_socket pid i m
  | Listening => at_stage pid Stopping i m
  | Stopping => remove_pid_file pid i m
  | Removed => at_stage pid Closing i (remove_socket m)
  | Closing => gone pid i m
  end.

Definition advance (pid : N) (m : Machine) : Machine :=
  match mc_procs m !! pid with
  | None => open_pid_file pid m
  | Some (mkProcess st i) => from_stage st pid i m
  end.

(** The next system call fails, for whatever reason.  [lock_pid_file], the
    store and the recovery end the start by [?], with no cleanup; a short write
    leaves less of the pid; [listen]'s error is kept until after [cleanup];
    removals are [let _ =]. *)
Definition fails (written : nat) (st : stage) (pid : N) (i : nat) (m : Machine) : Machine :=
  match st with
  | Opened | Locked => gone pid i m
  | Truncated => gone pid i (set_text i (String.substring 0 written (pretty pid)) m)
  | Written => at_stage pid Swept i m
  | Swept => gone pid i m
  | Recovered | Listening => at_stage pid Stopping i m
  | Stopping => at_stage pid Removed i m
  | Removed => at_stage pid Closing i m
  | Closing => gone pid i m
  end.

Definition failed_call (written : nat) (pid : N) (m : Machine) : Machine :=
  match mc_procs m !! pid with
  | None => m   (* the directory, or the file: it never got a process under way *)
  | Some (mkProcess st i) => fails written st pid i m
  end.

(** SIGKILL, a panic, power: at any stage. *)
Definition killed (pid : N) (m : Machine) : Machine :=
  match mc_procs m !! pid with Some p => gone pid (pr_inode p) m | None => m end.

Inductive move : Type := Go (pid : N) | Fails (written : nat) (pid : N) | Kill (pid : N).

Definition make (mv : move) (m : Machine) : Machine :=
  match mv with Go pid => advance pid m | Fails written pid => failed_call written pid m | Kill pid => killed pid m end.

Definition clean : Machine := mkMachine None 0 ∅ ∅ None ∅.

(** ** When the lock works *)

(** A daemon that has the machine, until its cleanup begins. *)
Definition in_charge (st : stage) : bool :=
  match st with Opened | Removed | Closing => false | _ => true end.

(** No clean shutdown removes the pid file while another start has it open and
    has not tried its lock yet. *)
Definition calm (mv : move) (m : Machine) : Prop :=
  match mv with
  | Go pid => ∀ i, mc_procs m !! pid = Some (mkProcess Stopping i) →
                ∀ q j, mc_procs m !! q ≠ Some (mkProcess Opened j)
  | Fails _ _ | Kill _ => True
  end.

Inductive calm_run : Machine → Prop :=
  | calm_start : calm_run clean
  | calm_move mv m : calm_run m → calm mv m → calm_run (make mv m).

Record exclusive (m : Machine) : Prop := {
  ex_opened : ∀ p i, mc_procs m !! p = Some (mkProcess Opened i) → mc_pid_path m = Some i;
  ex_charge : ∀ p st i, mc_procs m !! p = Some (mkProcess st i) → in_charge st = true → mc_pid_path m = Some i;
  ex_holds : ∀ p st i, mc_procs m !! p = Some (mkProcess st i) → st ≠ Opened → mc_locks m !! i = Some p;
  ex_held : ∀ i p, mc_locks m !! i = Some p → ∃ st, mc_procs m !! p = Some (mkProcess st i) ∧ st ≠ Opened;
  ex_fresh : ∀ p st i, mc_procs m !! p = Some (mkProcess st i) → (i < mc_next m)%nat;
  ex_path : ∀ i, mc_pid_path m = Some i → (i < mc_next m)%nat;
}.

Lemma exclusive_charge m p q st st' i j :
  exclusive m → mc_procs m !! p = Some (mkProcess st i) → mc_procs m !! q = Some (mkProcess st' j) →
  in_charge st = true → in_charge st' = true → p = q.
Proof.
  intros [_ Hc Hh _ _ _] Hp Hq Hst Hst'.
  pose proof (Hc _ _ _ Hp Hst) as E. pose proof (Hc _ _ _ Hq Hst') as E'. rewrite E in E'. injection E' as <-.
  assert (st ≠ Opened) as Hn by by intros ->. assert (st' ≠ Opened) as Hn' by by intros ->.
  pose proof (Hh _ _ _ Hp Hn) as L. pose proof (Hh _ _ _ Hq Hn') as L'. congruence.
Qed.

(** Neither the texts nor the socket matter to the lock. *)
Lemma exclusive_side t s m :
  exclusive m →
  exclusive (mkMachine (mc_pid_path m) (mc_next m) t (mc_locks m) s (mc_procs m)).
Proof. by intros []. Qed.

(** A holder goes on to its next stage. *)
Lemma exclusive_stage m p st st' i :
  exclusive m → mc_procs m !! p = Some (mkProcess st i) → st ≠ Opened → st' ≠ Opened →
  (in_charge st' = true → in_charge st = true) → exclusive (at_stage p st' i m).
Proof.
  intros [Ho Hc Hh Hd Hf Hp] Hl Hst Hst' Hch. split; cbn.
  - intros q j [[<- [=]]|[Hq Hl']]%lookup_insert_Some; [done | by eapply Ho].
  - intros q s j [[<- [= <- <-]]|[Hq Hl']]%lookup_insert_Some Hs; [by eapply Hc; [|apply Hch] | by eapply Hc].
  - intros q s j [[<- [= <- <-]]|[Hq Hl']]%lookup_insert_Some Hs; [by eapply Hh | by eapply Hh].
  - intros j q Hj. destruct (Hd _ _ Hj) as (s & Hl' & Hs). destruct (decide (q = p)) as [->|Hne].
    + rewrite Hl in Hl'. injection Hl' as <- <-. exists st'. by rewrite lookup_insert_eq.
    + exists s. by rewrite lookup_insert_ne.
  - intros q s j [[<- [= <- <-]]|[Hq Hl']]%lookup_insert_Some; by eapply Hf.
  - done.
Qed.

Lemma exclusive_open pid m :
  exclusive m → mc_procs m !! pid = None → exclusive (open_pid_file pid m).
Proof.
  intros [Ho Hc Hh Hd Hf Hp] Hl. unfold open_pid_file. destruct (mc_pid_path m) as [i|] eqn:E in |- *; split; cbn.
  - intros q j [[<- [= <-]]|[Hq Hl']]%lookup_insert_Some; [done | by eapply Ho].
  - intros q s j [[<- [= <- <-]]|[Hq Hl']]%lookup_insert_Some Hs; [done | by eapply Hc].
  - intros q s j [[<- [= <- <-]]|[Hq Hl']]%lookup_insert_Some Hs; [done | by eapply Hh].
  - intros j q Hj. destruct (Hd _ _ Hj) as (s & Hl' & Hs). exists s. rewrite lookup_insert_ne; [done | by intros ->; rewrite Hl in Hl'].
  - intros q s j [[<- [= <- <-]]|[Hq Hl']]%lookup_insert_Some; [by apply Hp | by eapply Hf].
  - intros j Hj. apply Hp. congruence.
  - intros q j [[<- [= <-]]|[Hq Hl']]%lookup_insert_Some; [done | apply Ho in Hl'; congruence].
  - intros q s j [[<- [= <- <-]]|[Hq Hl']]%lookup_insert_Some Hs; [done | apply Hc in Hl'; [congruence|done]].
  - intros q s j [[<- [= <- <-]]|[Hq Hl']]%lookup_insert_Some Hs; [done | by eapply Hh].
  - intros j q Hj. destruct (Hd _ _ Hj) as (s & Hl' & Hs). exists s. rewrite lookup_insert_ne; [done | by intros ->; rewrite Hl in Hl'].
  - intros q s j [[<- [= <- <-]]|[Hq Hl']]%lookup_insert_Some; [lia | apply Hf in Hl'; lia].
  - intros j [= <-]. lia.
Qed.

Lemma exclusive_gone pid p m :
  exclusive m → mc_procs m !! pid = Some p → exclusive (gone pid (pr_inode p) m).
Proof.
  intros [Ho Hc Hh Hd Hf Hp] Hl. split; cbn.
  - intros q j [Hq Hl']%lookup_delete_Some. by eapply Ho.
  - intros q s j [Hq Hl']%lookup_delete_Some. by eapply Hc.
  - intros q s j [Hq Hl']%lookup_delete_Some Hs. pose proof (Hh _ _ _ Hl' Hs) as L.
    destruct (decide _) as [E|]; [|done]. rewrite lookup_delete_ne; [done | intros Hi; rewrite Hi in E; congruence].
  - intros j q Hj. assert (mc_locks m !! j = Some q ∧ (mc_locks m !! pr_inode p = Some pid → j ≠ pr_inode p)) as [L N].
    { destruct (decide _); [apply lookup_delete_Some in Hj as [? ?]; split; [done | congruence] | done]. }
    destruct (Hd _ _ L) as (s & Hl' & Hs). exists s. split; [|done]. rewrite lookup_delete_ne; [done|].
    intros ->. rewrite Hl in Hl'. injection Hl' as ->. by destruct (N L).
  - intros q s j [Hq Hl']%lookup_delete_Some. by eapply Hf.
  - done.
Qed.

Lemma exclusive_flock pid i m :
  exclusive m → mc_procs m !! pid = Some (mkProcess Opened i) → exclusive (flock pid i m).
Proof.
  intros He Hl. unfold flock. destruct (mc_locks m !! i) as [h|] eqn:E.
  { exact (exclusive_gone pid (mkProcess Opened i) m He Hl). }
  destruct He as [Ho Hc Hh Hd Hf Hp]. split; cbn.
  - intros q j [[<- [=]]|[Hq Hl']]%lookup_insert_Some; by eapply Ho.
  - intros q s j [[<- [= <- <-]]|[Hq Hl']]%lookup_insert_Some Hs; [by eapply Ho | by eapply Hc].
  - intros q s j [[<- [= <- <-]]|[Hq Hl']]%lookup_insert_Some Hs; [by rewrite lookup_insert_eq|].
    pose proof (Hh _ _ _ Hl' Hs) as L. rewrite lookup_insert_ne; [done | congruence].
  - intros j q [[<- <-]|[Hj L]]%lookup_insert_Some; [exists Locked; by rewrite lookup_insert_eq|].
    destruct (Hd _ _ L) as (s & Hl' & Hs). exists s. rewrite lookup_insert_ne; [done | intros ->; congruence].
  - intros q s j [[<- [= <- <-]]|[Hq Hl']]%lookup_insert_Some; by eapply Hf.
  - done.
Qed.

Lemma exclusive_unlink pid i m :
  exclusive m → calm (Go pid) m → mc_procs m !! pid = Some (mkProcess Stopping i) → exclusive (remove_pid_file pid i m).
Proof.
  intros He Hcalm Hl. pose proof (exclusive_stage m pid Stopping Removed i He Hl) as Hs.
  destruct Hs as [Ho' _ Hh' Hd' Hf' _]; [done..|].
  split; cbn in *; try done.
  - intros q j [[<- [=]]|[Hq Hl']]%lookup_insert_Some. by destruct (Hcalm _ Hl _ _ Hl').
  - intros q s j [[<- [= <- <-]]|[Hq Hl']]%lookup_insert_Some Hs; [done|]. destruct Hq.
    by eapply exclusive_charge.
Qed.

Lemma exclusive_make mv m : exclusive m → calm mv m → exclusive (make mv m).
Proof.
  intros He Hcalm. destruct mv as [pid|written pid|pid]; cbn [make].
  - unfold advance. destruct (mc_procs m !! pid) as [[st i]|] eqn:E; [|by apply exclusive_open].
    destruct st; cbn [from_stage]; [by apply exclusive_flock | | | | | | | by apply exclusive_unlink | |].
    + apply exclusive_stage with Locked; [by apply exclusive_side | done..].
    + apply exclusive_stage with Truncated; [by apply exclusive_side | done..].
    + apply exclusive_stage with Written; [by apply exclusive_side | done..].
    + by apply exclusive_stage with Swept.
    + unfold bind_socket. destruct (mc_socket m); [by apply exclusive_stage with Recovered|].
      apply exclusive_stage with Recovered; [by apply exclusive_side | done..].
    + by apply exclusive_stage with Listening.
    + apply exclusive_stage with Removed; [by apply exclusive_side | done..].
    + exact (exclusive_gone pid _ m He E).
  - unfold failed_call. destruct (mc_procs m !! pid) as [[st i]|] eqn:E; [|done].
    destruct st; cbn [fails]; try exact (exclusive_gone pid _ m He E).
    + apply (exclusive_gone pid (mkProcess Truncated i)); [by apply exclusive_side|exact E].
    + by apply exclusive_stage with Written.
    + by apply exclusive_stage with Recovered.
    + by apply exclusive_stage with Listening.
    + by apply exclusive_stage with Stopping.
    + by apply exclusive_stage with Removed.
  - unfold killed. destruct (mc_procs m !! pid) as [p|] eqn:E; [by apply exclusive_gone | done].
Qed.

Lemma calm_exclusive m : calm_run m → exclusive m.
Proof. induction 1 as [|mv m _ IH Hc]; [done | by apply exclusive_make]. Qed.

(** C13: one daemon per runtime directory: whatever starts, failed calls, crashes
    and shutdowns interleave, at most one process is between taking the lock and its
    cleanup, so one process recovers the runs, writes the store and
    schedules, as long as no shutdown removes the pid file between another
    start's open and its flock. *)
Theorem single_instance m p q st st' i j :
  calm_run m → mc_procs m !! p = Some (mkProcess st i) → mc_procs m !! q = Some (mkProcess st' j) →
  in_charge st = true → in_charge st' = true → p = q.
Proof. intros Hm. apply exclusive_charge. by apply calm_exclusive. Qed.

(** ** What a start finds *)

(** Any starts, failed calls, kills and shutdowns, in any order. *)
Inductive any_run : Machine → Prop :=
  | any_start : any_run clean
  | any_move mv m : any_run m → any_run (make mv m).

(** A lock is some process's, also when the daemons race. *)
Definition owned (m : Machine) : Prop :=
  ∀ i p, mc_locks m !! i = Some p → ∃ st, mc_procs m !! p = Some (mkProcess st i).

Lemma owned_stage pid st st' i m : owned m → mc_procs m !! pid = Some (mkProcess st i) → owned (at_stage pid st' i m).
Proof.
  intros Ho Hl j p Hj. destruct (Ho _ _ Hj) as [s Hs]. cbn. destruct (decide (p = pid)) as [->|Hne].
  - rewrite Hl in Hs. injection Hs as <- <-. exists st'. apply lookup_insert_eq.
  - exists s. by rewrite lookup_insert_ne.
Qed.

Lemma owned_gone pid st i m : owned m → mc_procs m !! pid = Some (mkProcess st i) → owned (gone pid i m).
Proof.
  intros Ho Hl j p Hj. cbn in *.
  assert (mc_locks m !! j = Some p ∧ p ≠ pid) as [L Hne].
  { destruct (decide _) as [E|E]; [apply lookup_delete_Some in Hj as [Hne Hj]|]; (split; [done|]);
      intros ->; destruct (Ho _ _ Hj) as [s Hs]; rewrite Hl in Hs; injection Hs as <- <-; done. }
  destruct (Ho _ _ L) as [s Hs]. exists s. by rewrite lookup_delete_ne.
Qed.

Lemma owned_make mv m : owned m → owned (make mv m).
Proof.
  intros Ho. destruct mv as [pid|written pid|pid]; cbn [make].
  - unfold advance. destruct (mc_procs m !! pid) as [[st i]|] eqn:E.
    + destruct st; cbn [from_stage]; try (by eapply owned_stage; [exact Ho|exact E]).
      * unfold flock. destruct (mc_locks m !! i); [by eapply owned_gone|].
        intros j p Hj. cbn in Hj |- *. apply lookup_insert_Some in Hj as [[<- <-]|[Hne Hj]]; [exists Locked; apply lookup_insert_eq|].
        destruct (Ho _ _ Hj) as [s Hs]. exists s. rewrite lookup_insert_ne; [done|]. intros <-. congruence.
      * unfold bind_socket. destruct (mc_socket m); by eapply owned_stage; [exact Ho|exact E].
      * by eapply owned_gone.
    + assert (∀ j p s st' i', mc_procs m !! p = Some (mkProcess s j) →
        (<[pid := mkProcess st' i']> (mc_procs m)) !! p = Some (mkProcess s j)) as Hother.
      { intros j p s st' i' Hs. rewrite lookup_insert_ne; [done|]. intros <-. congruence. }
      unfold open_pid_file. destruct (mc_pid_path m); intros j p Hj; destruct (Ho _ _ Hj) as [s Hs];
        exists s; by apply Hother.
  - unfold failed_call. destruct (mc_procs m !! pid) as [[st i]|] eqn:E; [|done].
    destruct st; cbn [fails]; try (by eapply owned_gone; [exact Ho|exact E]);
      by eapply owned_stage; [exact Ho|exact E].
  - unfold killed. destruct (mc_procs m !! pid) as [[st i]|] eqn:E; [by eapply owned_gone | done].
Qed.

Lemma any_owned m : any_run m → owned m.
Proof. induction 1; [done|by apply owned_make]. Qed.

(** The files after whoever ran before is gone, crashed at any stage or not. *)
Definition deserted (m : Machine) : Prop := mc_procs m = ∅.

Lemma deserted_unlocked m i : owned m → deserted m → mc_locks m !! i = None.
Proof.
  intros Ho Hm. destruct (mc_locks m !! i) as [p|] eqn:E; [|done].
  destruct (Ho _ _ E) as [st Hl]. by rewrite Hm in Hl.
Qed.

Lemma overwrite_empty text : overwrite text "" = text.
Proof.
  unfold overwrite. assert (∀ n m, String.substring n m "" = "") as -> by by intros [|n] [|m].
  induction text as [|c text IH]; [done|]. by apply (f_equal (String.String c)).
Qed.

Fixpoint moves (mvs : list move) (m : Machine) : Machine :=
  match mvs with [] => m | mv :: mvs => moves mvs (make mv m) end.

Lemma advance_at pid m st i :
  mc_procs m !! pid = Some (mkProcess st i) → advance pid m = from_stage st pid i m.
Proof. intros E. unfold advance. by rewrite E. Qed.

Lemma moves_at n pid m st i :
  mc_procs m !! pid = Some (mkProcess st i) →
  moves (replicate (S n) (Go pid)) m = moves (replicate n (Go pid)) (from_stage st pid i m).
Proof. intros E. cbn [replicate moves make]. by rewrite (advance_at _ _ _ _ E). Qed.

Ltac next_stage := erewrite moves_at by (cbn; apply lookup_insert_eq); cbv beta iota delta [from_stage].

(** C35: what a dead daemon leaves never blocks a start: whenever no daemon
    runs on this runtime directory, whatever pid file, lock or socket the last
    ones left (shut down, killed at any stage, ended by a failed call, also
    after racing one another), the next process, if its own calls succeed, gets
    the lock, writes its pid where the path points, sweeps the socket away,
    recovers and binds its own. *)
Theorem start_after_anything m pid :
  any_run m → deserted m →
  let m' := moves (replicate 7 (Go pid)) m in
  ∃ i, mc_procs m' = {[ pid := mkProcess Listening i ]} ∧ mc_pid_path m' = Some i ∧
       mc_locks m' !! i = Some pid ∧ mc_text m' !! i = Some (pretty pid) ∧ mc_socket m' = Some pid.
Proof.
  intros Hrun Hm m'. pose proof (any_owned m Hrun) as Ho. red in Hm.
  set (i := default (mc_next m) (mc_pid_path m)). exists i.
  assert (∃ m1, advance pid m = at_stage pid Opened i m1 ∧ mc_pid_path m1 = Some i ∧ mc_locks m1 = mc_locks m ∧ mc_procs m1 = ∅)
    as (m1 & E1 & Ep & El & Eq).
  { unfold advance. rewrite Hm. cbn. unfold open_pid_file, i.
    destruct (mc_pid_path m) eqn:Ep; [by exists m | by eexists; cbn]. }
  assert (mc_locks m1 !! i = None) as Hfree by (rewrite El; by apply deserted_unlocked).
  assert (m' = moves (replicate 6 (Go pid)) (at_stage pid Opened i m1)) as -> by (unfold m'; cbn; by rewrite E1).
  next_stage. unfold flock. cbn [mc_locks at_stage set_procs]. rewrite Hfree. do 5 next_stage.
  unfold bind_socket. cbn. rewrite Eq, Ep, !insert_insert_eq, !lookup_insert_eq, insert_empty. cbn.
  by rewrite overwrite_empty.
Qed.

(** What a process has in its pid file. *)
Definition signature (p : N) (st : stage) : option string :=
  match st with Opened | Locked => None | Truncated => Some "" | _ => Some (pretty p) end.

(** A daemon past writing its pid is the one the pid file names. *)
Definition signed (m : Machine) : Prop :=
  ∀ p st i text, mc_procs m !! p = Some (mkProcess st i) → signature p st = Some text →
    mc_text m !! i = Some text.

Lemma signed_stage m p st st' i :
  signed m → mc_procs m !! p = Some (mkProcess st i) → signature p st' = signature p st → signed (at_stage p st' i m).
Proof.
  intros Hs Hl Hsig q s j text. cbn. intros [[<- [= <- <-]]|[Hq Hl']]%lookup_insert_Some Ht.
  - rewrite Hsig in Ht. by eapply Hs.
  - by eapply (Hs q).
Qed.

Lemma signed_gone m p i : signed m → signed (gone p i m).
Proof. intros Hs q s j text. cbn. intros [_ Hl]%lookup_delete_Some. by apply Hs. Qed.

(** Its own text is the holder's to write. *)
Lemma signed_write m p st st' i text :
  exclusive m → signed m → mc_procs m !! p = Some (mkProcess st i) → st ≠ Opened →
  (signature p st' = Some text) → signed (at_stage p st' i (set_text i text m)).
Proof.
  intros He Hs E Hst Hsig q s j text'. cbn. intros [[<- [= <- <-]]|[Hq Hl']]%lookup_insert_Some Ht.
  - rewrite lookup_insert_eq. congruence.
  - rewrite lookup_insert_ne; [by eapply (Hs q)|]. intros <-. assert (s ≠ Opened) as Hs' by by intros ->.
    pose proof (ex_holds m He _ _ _ E Hst). pose proof (ex_holds m He _ _ _ Hl' Hs'). congruence.
Qed.

Lemma signed_make mv m : exclusive m → signed m → signed (make mv m).
Proof.
  intros He Hs.
  assert (∀ st' pid i m', mc_text m' = mc_text m → mc_procs m' = mc_procs m → (st' = Opened ∨ st' = Locked) →
    signed (at_stage pid st' i m')) as Hfirst.
  { intros st' pid i m' Et Ep Hst q s j text. cbn. rewrite Et, Ep.
    intros [[<- [= <- <-]]|[Hq Hl']]%lookup_insert_Some Ht; [by destruct Hst as [-> | ->]|by eapply (Hs q)]. }
  destruct mv as [pid|written pid|pid]; cbn [make].
  - unfold advance. destruct (mc_procs m !! pid) as [[st i]|] eqn:E.
    2: { unfold open_pid_file. destruct (mc_pid_path m); apply Hfirst; auto. }
    destruct st; cbn [from_stage].
    + unfold flock. destruct (mc_locks m !! i); [by apply signed_gone | apply Hfirst; auto].
    + by eapply signed_write.
    + unfold write_pid. rewrite (Hs _ _ _ "" E) by done. eapply signed_write; [done..|]. cbn [default]. by rewrite overwrite_empty.
    + by apply signed_stage with Written.
    + by apply signed_stage with Swept.
    + unfold bind_socket. destruct (mc_socket m); by apply signed_stage with Recovered.
    + by apply signed_stage with Listening.
    + by apply signed_stage with Stopping.
    + by apply signed_stage with Removed.
    + by apply signed_gone.
  - unfold failed_call. destruct (mc_procs m !! pid) as [[st i]|] eqn:E; [|done].
    destruct st; cbn [fails]; try (by apply signed_gone).
    + intros q s j text. cbn. intros [Hq Hl']%lookup_delete_Some Ht. rewrite lookup_insert_ne; [by eapply Hs|].
      intros <-. assert (s ≠ Opened) as Hs' by by intros ->.
      pose proof (ex_holds m He _ _ _ E) as L. pose proof (ex_holds m He _ _ _ Hl' Hs') as L'.
      rewrite L in L' by done. congruence.
    + by apply signed_stage with Written.
    + by apply signed_stage with Recovered.
    + by apply signed_stage with Listening.
    + by apply signed_stage with Stopping.
    + by apply signed_stage with Removed.
  - unfold killed. destruct (mc_procs m !! pid); [by apply signed_gone | done].
Qed.

Lemma calm_signed m : calm_run m → signed m.
Proof.
  induction 1 as [|mv m Hm IH Hc]; [by intros p st i Hl | apply signed_make; [by apply calm_exclusive | done]].
Qed.

(** C33: a second start is refused, and says by whom: while a daemon runs (past
    writing its pid, before its cleanup), any other process of the same runtime
    directory that opens the pid file and tries the lock ends with [AlreadyRunning]
    and that daemon's pid, and the files, the socket and the processes are what
    they were.  As for one daemon at all, this takes that no shutdown so far
    removed the pid file between another start's open and its flock; what else
    starts, failed calls, kills and shutdowns did does not matter. *)
Theorem second_start_refused m p q st i :
  calm_run m → mc_procs m !! p = Some (mkProcess st i) → in_charge st = true → st ≠ Locked → st ≠ Truncated →
  p ≤ u32_max → mc_procs m !! q = None →
  start_error q (advance q m) = Some (AlreadyRunning p) ∧ moves [Go q; Go q] m = m.
Proof.
  intros Hm Hp Hst Hlocked Htrunc Hpid Hq. pose proof (calm_exclusive m Hm) as He.
  pose proof (ex_charge m He _ _ _ Hp Hst) as Epath. assert (st ≠ Opened) as Hn by by intros ->.
  pose proof (ex_holds m He _ _ _ Hp Hn) as Elock.
  assert (advance q m = at_stage q Opened i m) as Eq by (unfold advance, open_pid_file; by rewrite Hq, Epath).
  assert (signature p st = Some (pretty p)) as Hsig by by destruct st.
  split.
  - rewrite Eq. unfold start_error, already_running. cbn. rewrite lookup_insert_eq, Elock, Epath. cbn.
    rewrite (calm_signed m Hm _ _ _ _ Hp Hsig). cbn. by rewrite trim_number, parse_u32_pretty.
  - cbn [moves make]. rewrite Eq. erewrite advance_at by (cbn; apply lookup_insert_eq). cbn [from_stage]. unfold flock. cbn.
    rewrite Elock. unfold gone. cbn. rewrite decide_False by (rewrite Elock; intros [= ->]; by rewrite Hp in Hq).
    rewrite delete_insert_eq, delete_id by done. by destruct m.
Qed.

(** ** When it does not *)

Definition calmb (mv : move) (m : Machine) : bool :=
  match mv with
  | Go pid =>
      match mc_procs m !! pid with
      | Some (mkProcess Stopping _) =>
          forallb (λ p, match pr_stage p.2 with Opened => false | _ => true end) (map_to_list (mc_procs m))
      | _ => true
      end
  | Fails _ _ | Kill _ => true
  end.

Fixpoint calm_moves (mvs : list move) (m : Machine) : bool :=
  match mvs with [] => true | mv :: mvs => calmb mv m && calm_moves mvs (make mv m) end.

Lemma calmb_calm mv m : calmb mv m = true → calm mv m.
Proof.
  destruct mv as [pid|written pid|pid]; [|done..]. cbn. intros Hb i Hl q j Hq. rewrite Hl in Hb.
  rewrite forallb_forall in Hb. specialize (Hb (q, mkProcess Opened j)).
  rewrite <- list_elem_of_In, elem_of_map_to_list in Hb. by specialize (Hb Hq).
Qed.

Lemma calm_moves_run mvs m : calm_run m → calm_moves mvs m = true → calm_run (moves mvs m).
Proof.
  revert m. induction mvs as [|mv mvs IH]; intros m Hm; [done|]. cbn. intros [Hc Hr]%andb_prop.
  apply IH; [constructor; [done | by apply calmb_calm] | done].
Qed.

(** Daemon 1 serves; daemon 2 opens the pid file; daemon 1 shuts down, its
    pid file with it; daemon 2 locks the file it opened, which has no name
    any more; daemon 3 makes a new one and locks that. *)
Definition overlap : list move :=
  replicate 8 (Go 1) ++ [Go 2] ++ replicate 3 (Go 1) ++ replicate 3 (Go 2) ++ replicate 4 (Go 3).

(** The lock alone does not give one daemon: cleanup removes the pid file
    before the lock is dropped, so a start that opened it earlier gets the
    lock of a file nobody can find, and the next start the lock of a new one;
    both are in charge. *)
Theorem shutdown_race_two_daemons :
  ∃ mvs p q st st' i j,
    p ≠ q ∧ mc_procs (moves mvs clean) !! p = Some (mkProcess st i) ∧
    mc_procs (moves mvs clean) !! q = Some (mkProcess st' j) ∧
    in_charge st = true ∧ in_charge st' = true.
Proof. by exists overlap, 2, 3, Written, Written, 0%nat, 1%nat. Qed.

(** ** Serving: [listen] *)

Section listen.
Context {Conn : Type}.

(** What wakes the listener, or passes meanwhile. *)
Inductive Event : Type :=
  | Accepted (conn : Conn)
  | AcceptFailed (error : string)
  | Sigterm
  | Sigint
  | Finished (k : nat)   (* [handle_connection] of the [k]-th connection is done *)
  | Passed (ms : N).     (* time *)

(** The tasks of the [JoinSet], done or not: one stays in the set until
    [join_next] takes it out. *)
Inductive Listener : Type :=
  | Accepting (tasks : list (Conn * bool))
  | Draining (tasks : list (Conn * bool)) (rest_ms : N)
  | Returned (aborted : list Conn).  (* dropping the set aborts what it has *)

(** [Duration::from_secs(5)] *)
Definition DRAIN_MS : N := 5000.

Definition running (tasks : list (Conn * bool)) : list (Conn * bool) := List.filter (λ t, negb t.2) tasks.

(** [while join_set.join_next().await.is_some() {}] under its [timeout]: tasks
    that are done leave at once. *)
Definition drain (tasks : list (Conn * bool)) (rest_ms : N) : Listener :=
  match running tasks with
  | [] => Returned []
  | rest => if rest_ms =? 0 then Returned rest.*1 else Draining tasks rest_ms
  end.

Definition finish (k : nat) (tasks : list (Conn * bool)) : list (Conn * bool) :=
  alter (λ t, (t.1, true)) k tasks.

(** One turn of the loop, and of the drain after it. *)
Definition on_event (e : Event) (l : Listener) : Listener :=
  match l with
  | Accepting tasks =>
      match e with
      | Accepted conn => Accepting (tasks ++ [(conn, false)])
      | AcceptFailed _ | Passed _ => Accepting tasks
      | Sigterm | Sigint => drain tasks DRAIN_MS
      | Finished k => Accepting (finish k tasks)
      end
  | Draining tasks rest_ms =>
      match e with
      | Finished k => drain (finish k tasks) rest_ms
      | Passed ms => drain tasks (saturating_sub rest_ms ms)
      | _ => Draining tasks rest_ms
      end
  | Returned aborted => Returned aborted
  end.

Definition listen (events : list Event) : Listener := foldl (λ l e, on_event e l) (Accepting []) events.

Definition signalled (events : list Event) : bool :=
  existsb (λ e, match e with Sigterm | Sigint => true | _ => false end) events.

Definition elapsed (events : list Event) : N :=
  Nsum (λ e, match e with Passed ms => ms | _ => 0 end) events.

Definition accepted (events : list Event) : list Conn :=
  omap (λ e, match e with Accepted conn => Some conn | _ => None end) events.

Lemma accepting_events events tasks :
  signalled events = false →
  ∃ tasks', foldl (λ l e, on_event e l) (Accepting tasks) events = Accepting tasks' ∧
    tasks'.*1 = tasks.*1 ++ accepted events.
Proof.
  revert tasks. induction events as [|e events IH]; intros tasks Hs.
  { exists tasks. by rewrite app_nil_r. }
  cbn in Hs. apply orb_false_elim in Hs as [He Hs].
  assert (∀ k, (finish k tasks).*1 = tasks.*1) as Hfinish.
  { intros k. unfold finish. revert k. induction tasks as [|[c b] tasks IHt]; intros k; [done|].
    destruct k as [|k]; [done|]. cbn. f_equal. apply IHt. }
  destruct e as [conn| | | |k|]; try done; cbn [foldl on_event].
  - destruct (IH (tasks ++ [(conn, false)]) Hs) as (tasks' & -> & E). exists tasks'. split; [done|].
    rewrite E, fmap_app, <-app_assoc. done.
  - by apply IH.
  - destruct (IH (finish k tasks) Hs) as (tasks' & -> & E). exists tasks'. split; [done|]. by rewrite E, Hfinish.
  - by apply IH.
Qed.

Lemma returned_events events aborted :
  foldl (λ l e, on_event e l) (Returned aborted) events = Returned aborted.
Proof. by induction events. Qed.

Lemma drain_cases tasks rest_ms :
  (∃ aborted, drain tasks rest_ms = Returned aborted) ∨ (drain tasks rest_ms = Draining tasks rest_ms ∧ rest_ms ≠ 0).
Proof.
  unfold drain. destruct (running tasks) as [|t l]; [by left; eexists|].
  destruct (N.eqb_spec rest_ms 0); [by left; eexists|by right].
Qed.

Lemma draining_events events tasks rest_ms :
  rest_ms ≤ elapsed events → rest_ms ≠ 0 →
  ∃ aborted, foldl (λ l e, on_event e l) (Draining tasks rest_ms) events = Returned aborted.
Proof.
  revert tasks rest_ms. induction events as [|e events IH]; intros tasks rest_ms Hle Hne; [change (elapsed []) with 0 in Hle; lia|].
  unfold elapsed in Hle. rewrite Nsum_cons in Hle. fold (elapsed events) in Hle.
  assert (∀ tasks' rest_ms', rest_ms' ≤ elapsed events →
    ∃ aborted, foldl (λ l e, on_event e l) (drain tasks' rest_ms') events = Returned aborted) as Hdrain.
  { intros tasks' rest_ms' Hle'. destruct (drain_cases tasks' rest_ms') as [[a ->]|[-> Hn]]; [|by apply IH].
    exists a. apply returned_events. }
  destruct e as [conn| | | |k|ms]; cbn [foldl on_event]; try (by apply IH).
  - by apply Hdrain.
  - apply Hdrain. unfold saturating_sub. lia.
Qed.

(** It takes no connection any more. *)
Definition stopping (l : Listener) : Prop := match l with Accepting _ => False | _ => True end.

Lemma stopping_drain tasks rest_ms : stopping (drain tasks rest_ms).
Proof. by destruct (drain_cases tasks rest_ms) as [[? ->]|[-> _]]. Qed.

Lemma stopping_events events l : stopping l → stopping (foldl (λ l e, on_event e l) l events).
Proof.
  revert l. induction events as [|e events IH]; intros l Hl; [done|]. cbn [foldl]. apply IH.
  destruct l; [done| |done]. destruct e; try done; apply stopping_drain.
Qed.

(** C34: the daemon serves until it is told to stop, and then not for long:
    before a SIGTERM or SIGINT it accepts whatever happens, also when an accept
    fails, and every connection accepted has its task; once one came, the
    listener returns after 5 seconds at most, however many connections are
    still busy, and takes no new one. *)
Theorem listener_stops_in_time before sig after :
  signalled before = false → signalled [sig] = true →
  (∃ tasks, listen before = Accepting tasks ∧ tasks.*1 = accepted before) ∧
  (∀ events, stopping (listen (before ++ sig :: events))) ∧
  (DRAIN_MS ≤ elapsed after → ∃ aborted, listen (before ++ sig :: after) = Returned aborted).
Proof.
  intros Hb Hsig. unfold listen. destruct (accepting_events before [] Hb) as (tasks & E & Hacc).
  assert (on_event sig (Accepting tasks) = drain tasks DRAIN_MS) as Hdrain by (by destruct sig).
  split_and!.
  - by exists tasks.
  - intros events. rewrite foldl_app, E. cbn [foldl]. rewrite Hdrain. apply stopping_events, stopping_drain.
  - intros Hle. rewrite foldl_app, E. cbn [foldl]. rewrite Hdrain.
    destruct (drain_cases tasks DRAIN_MS) as [[a ->]|[-> Hn]]; [exists a; apply returned_events|].
    by apply draining_events.
Qed.

(** The [JoinSet] keeps the task of every connection ever accepted, done or
    not, until the daemon stops. *)
Lemma finished_tasks_kept events tasks :
  signalled events = false → listen events = Accepting tasks → length tasks = length (accepted events).
Proof.
  intros Hs E. destruct (accepting_events events [] Hs) as (tasks' & E' & Hacc). unfold listen in E.
  rewrite E in E'. injection E' as <-. by rewrite <-(length_fmap fst tasks), Hacc.
Qed.
End listen.

(** ** Witnesses *)

(** A hundred clients come and go; one is busy when the signal comes. *)
Lemma listener_stops_in_time_witness :
  let before := concat ((λ k, [Accepted k; Finished k]) <$> seq 0 100) ++ [AcceptFailed "EMFILE"; Accepted 100%nat] in
  (∃ tasks, listen before = Accepting tasks ∧ length tasks = 101%nat) ∧
  listen (before ++ [Sigterm; Passed 3000; Sigterm; Passed 2000]) = Returned [100%nat].
Proof.
  intros before.
  destruct (listener_stops_in_time before Sigterm [Passed 3000; Sigterm; Passed 2000]) as ((tasks & E & Hacc) & _ & Hstop);
    [vm_compute; reflexivity | reflexivity |].
  split.
  - exists tasks. split; [exact E|]. rewrite <-(length_fmap fst tasks), Hacc. vm_compute. reflexivity.
  - destruct Hstop as [aborted Ha]; [apply N.leb_le; vm_compute; reflexivity|].
    vm_compute. reflexivity.
Defined.

(** Daemon 1 shut down cleanly, 2 could not write its pid, 3 could not open its
    store, 4 was killed while it served, 5 was refused meanwhile, 6 serves. *)
Definition busy_day : list move :=
  replicate 11 (Go 1) ++ replicate 3 (Go 2) ++ [Fails 0 2] ++ replicate 5 (Go 3) ++ [Fails 0 3] ++
  replicate 7 (Go 4) ++ replicate 2 (Go 5) ++ [Kill 4] ++ replicate 7 (Go 6).

Lemma busy_day_calm : calm_run (moves busy_day clean).
Proof. apply calm_moves_run; [constructor | by vm_compute]. Qed.

Lemma single_instance_witness :
  calm_run (moves busy_day clean) ∧ ∀ q st j,
    mc_procs (moves busy_day clean) !! q = Some (mkProcess st j) → in_charge st = true → 6 = q.
Proof.
  split; [exact busy_day_calm|]. intros q st j Hq Hst.
  exact (single_instance _ 6 q Listening st 1%nat j busy_day_calm eq_refl Hq eq_refl Hst).
Defined.

(** The two daemons of [overlap], one killed and one shut down; then a start. *)
Definition after_overlap : list move := overlap ++ [Kill 2] ++ replicate 7 (Go 3).

Lemma after_overlap_run : any_run (moves after_overlap clean).
Proof.
  assert (∀ mvs m, any_run m → any_run (moves mvs m)) as Hmoves.
  { induction mvs as [|mv mvs IH]; intros m Hm; [done|]. by apply IH, any_move. }
  apply Hmoves, any_start.
Qed.

Lemma start_after_anything_witness :
  deserted (moves after_overlap clean) ∧
  mc_socket (moves (replicate 7 (Go 5)) (moves after_overlap clean)) = Some 5.
Proof.
  assert (deserted (moves after_overlap clean)) as Hd by by vm_compute.
  destruct (start_after_anything _ 5 after_overlap_run Hd) as (i & _ & _ & _ & _ & T). exact (conj Hd T).
Defined.

Lemma second_start_refused_witness :
  start_error 5 (advance 5 (moves busy_day clean)) = Some (AlreadyRunning 6) ∧
  moves [Go 5; Go 5] (moves busy_day clean) = moves busy_day clean.
Proof.
  apply (second_start_refused _ 6 5 Listening 1%nat busy_day_calm eq_refl eq_refl); [done | done | by apply N.leb_le | done].
Defined.
