(* ===== verification/Command.v ===== *)
(** * The command line: [src/main.rs], [src/ipc/client.rs]

    What each [roster] command does, as a program over the calls it makes: the
    daemon's socket, systemctl and loginctl, files, processes, the clock and
    what it prints.  The machine behind the calls is a parameter; any call may
    never return, since none has a timeout, the exchange with a daemon neither. *)

From S2P Require Import Prelude Pool Handle Model Text Health Protocol Shell Node.

(** ** The calls *)

Inductive call : Type → Type :=
  | Connect (path : PathBuf) : call (result unit string)
  | Exchange (request : Request) : call (result Response string)  (* on the stream just connected *)
  | Exists (path : PathBuf) : call bool
  | Read (path : PathBuf) : call ReadResult
  | CreateParent (path : PathBuf) : call (result unit string)     (* create_dir_all of its parent *)
  | Write (path : PathBuf) (text : string) : call (result unit string)
  | OpenAppend (path : PathBuf) : call (result unit string)
  | RemoveFile (path : PathBuf) : call (result unit string)
  | Canonicalize (path : PathBuf) : call (result PathBuf string)
  | CurrentExe : call (result PathBuf string)
  | HasVar (name : string) : call bool
  | Output (program : string) (args : list string) : call (result (bool * string) string) (* success, stderr *)
  | Spawn (program : PathBuf) (args : list string) (env : list (string * string)) (log : PathBuf)
      : call (result N string)                                    (* in a new session *)
  | TryWait (child : N) : call (result (option string) string)
  | Sigterm (pid : Z) : call (result unit string)
  | Signal0 (pid : Z) : call bool                                 (* kill(pid, None).is_ok() *)
  | Instant : call N                                              (* milliseconds *)
  | Sleep (ms : N) : call unit
  | Println (line : string) : call unit
  | WriteAll (text : string) : call unit                          (* to stdout, errors ignored *)
  | Discover : call SystemResources.

(** What a call answers, [None] when it never returns. *)
Class Machine (W : Type) : Type := perform : ∀ X, call X → W → option X * W.
Arguments perform {W _ X}.

(** How a command ends: [Hung] in a call that never returns, [Panicked] without
    HOME or in [unimplemented!]; [OutOfFuel] is the model's, for a loop cut short. *)
Inductive ended (W A : Type) : Type :=
  | Done (r : result A AnyError) (w : W)
  | Hung (w : W)
  | Panicked
  | OutOfFuel.
Arguments Done {W A}.
Arguments Hung {W A}.
Arguments Panicked {W A}.
Arguments OutOfFuel {W A}.

Definition cli (W A : Type) : Type := W → ended W A.

#[export] Instance cli_ret W : MRet (cli W) := λ A a w, Done (Ok a) w.
#[export] Instance cli_bind W : MBind (cli W) := λ A B f m w,
  match m w with
  | Done (Ok a) w' => f a w'
  | Done (Err e) w' => Done (Err e) w'
  | Hung w' => Hung w'
  | Panicked => Panicked
  | OutOfFuel => OutOfFuel
  end.

Definition fail {W A} (message : string) : cli W A := λ w, Done (bail message) w.
Definition path {W} (p : exec PathBuf) : cli W PathBuf := λ w,
  match p with Ret p => Done (Ok p) w | Panic => Panicked end.
Definition lift {W A} (r : result A AnyError) : cli W A := λ w, Done r w.

(** [.context(message)] *)
Definition context {W A} (message : string) (m : cli W A) : cli W A := λ w,
  match m w with Done r w' => Done (with_context message r) w' | e => e end.

Definition JOURNAL : string := "journalctl --user -u roster".
Definition quote : string := bytes_to_string [34].

(** [pid as i32] *)
Definition as_i32 (n : N) : Z :=
  let z := (Z.of_N n mod 2 ^ 32)%Z in (if z <? 2 ^ 31 then z else z - 2 ^ 32)%Z.

(** [{:<n}]: padded on the right to [n] characters. *)
Definition char_count (s : string) : nat :=
  length (List.filter (λ c, negb ((128 <=? N_of_ascii c) && (N_of_ascii c <? 192))) (chars s)).
Definition pad (n : nat) (s : string) : string := s +:+ of_chars (replicate (n - char_count s) (" "%char)).

(** [id.splitn(2, '/')] *)
Definition splitn2 (id : string) : list string :=
  match split_once "/" id with Some (a, b) => [a; b] | None => [id] end.

Inductive Command : Type :=
  | Start (resources : option PathBuf) (foreground : bool)
  | Stop (force : bool)
  | Restart (resources : option PathBuf) (force : bool)
  | Enable (resources : option PathBuf)
  | Disable (force : bool)
  | Info (node : option string) (json : bool)
  | NodeAdd (target : string) (name : option string)
  | NodeLs
  | NodeRm (name : string)
  | GpuClear (node : string) (gpu : N)
  | Qualify (index : N) (uuid : option string) (retest : bool)
  | Submit (file : string)
  | Ps
  | Status (id : string)
  | Logs (id : string)
  | Cancel (id : string).

Section commands.
Context {W : Type} `{Machine W}.
Variable vars : Vars.

(** [{:?}] of a response, [serde_json::to_string], [serde_yaml], chrono's local
    time in a format. *)
Context `{Serde NodeInfo} `{Serde NodeStatus} `{Yaml}.
Variable debug : Response → string.
Variable resources_from_yaml : string → result SystemResources string.
Variable local_time : string → DateTime → string.
Variable not_found : string.

(** The commands that other files model: [node::connect] then [daemon::run],
    [node::add], [node::remove], [qualify::run]. *)
Variable serve : SystemResources → list NodeConfig → cli W unit.
Variable node_add : string → option string → cli W NodeInfo.
Variable node_remove : string → cli W unit.
Variable qualify : N → option string → bool → cli W unit.

Definition do_ {X} (c : call X) : cli W X := λ w,
  match perform c w with (Some x, w') => Done (Ok x) w' | (None, w') => Hung w' end.

(** A fallible call and its [?]. *)
Definition ask {A} (c : call (result A string)) : cli W A := λ w,
  match perform c w with
  | (Some r, w') => Done (match r with Ok a => Ok a | Err error => bail error end) w'
  | (None, w') => Hung w'
  end.

Definition println (line : string) : cli W unit := do_ (Println line).
Fixpoint print_lines (lines : list string) : cli W unit :=
  match lines with [] => mret tt | line :: lines => _ ← println line; print_lines lines end.

Definition read_to_string (p : PathBuf) : cli W (result string string) :=
  r ← do_ (Read p);
  mret match r with ReadOk text => Ok text | NotFound => Err not_found | ReadError error => Err error end.

(** ** The daemon's socket *)

(** [client::send] *)
Definition send (request : Request) : cli W Response :=
  socket ← path (socket_path vars);
  _ ← ask (Connect socket);
  ask (Exchange request).

Definition unexpected {A} (other : Response) : cli W A := fail ("unexpected reply: " +:+ debug other).

(** Ask this machine's daemon about itself; None when nothing listens on the socket *)
Definition daemon_info : cli W (option NodeInfo) :=
  socket ← path (socket_path vars);
  stream ← do_ (Connect socket);
  match stream with
  | Err _ => mret None
  | Ok _ =>
      response ← ask (Exchange Request_Info);
      match response with
      | Response_Info info => mret (Some info)
      | other => unexpected other
      end
  end.

(** Ask this machine's daemon for the nodes it places jobs on *)
Definition node_statuses : cli W (list NodeStatus) :=
  response ← context "no daemon is running here, start it with `roster start`" (send Request_Nodes);
  match response with
  | Response_Nodes nodes => mret nodes
  | other => unexpected other
  end.

(** ** Starting and stopping *)

(** A declared inventory file, or this machine's discovered one *)
Definition load_resources (file : option PathBuf) : cli W SystemResources :=
  match file with
  | None => do_ Discover
  | Some file =>
      text ← read_to_string file;
      match text with
      | Err error => context ("failed to read " +:+ file) (fail error)
      | Ok text =>
          match resources_from_yaml text with
          | Ok resources => mret resources
          | Err error => context ("invalid resources file " +:+ file) (fail error)
          end
      end
  end.

(** Run a command to completion, failing with its error output *)
Definition run (program : string) (args : list string) : cli W unit :=
  output ← context ("failed to run " +:+ program) (ask (Output program args));
  if negb output.1
  then fail ("`" +:+ program +:+ " " +:+ join " " args +:+ "` failed: " +:+ trim output.2)
  else mret tt.

Fixpoint wait_loop (fuel : nat) (child : option N) (log : string) (deadline : N) : cli W NodeInfo :=
  match fuel with
  | O => λ _, OutOfFuel
  | S fuel =>
      answer ← daemon_info;
      match answer with
      | Some info => mret info
      | None =>
          exited ← match child with Some child => ask (TryWait child) | None => mret None end;
          match exited with
          | Some status => fail ("daemon exited (" +:+ status +:+ "), see " +:+ log)
          | None =>
              now ← do_ Instant;
              if deadline <=? now then fail ("daemon did not answer within 60 s, see " +:+ log)
              else (_ ← do_ (Sleep 100); wait_loop fuel child log deadline)
          end
      end
  end.

(** 60 s of turns that sleep 100 ms each, and the last. *)
Definition wait_fuel : nat := 601.

(** Wait until the daemon answers; [child] is the process [start] spawned, to notice it exit early *)
Definition wait_for_daemon (child : option N) (log : string) : cli W NodeInfo :=
  now ← do_ Instant;
  wait_loop wait_fuel child log (now + 60000).

Definition shown (info : NodeInfo) : string := "pid " +:+ pretty (ni_pid info).

(** Run this binary again as [start --foreground] in a new session, and return once it answers *)
Definition start (resources : option PathBuf) : cli W unit :=
  running ← daemon_info;
  match running with
  | Some info => println ("already running (" +:+ shown info +:+ ")")
  | None =>
      unit ← path (unit_path vars);
      enabled ← do_ (Exists unit);
      if (enabled : bool) then
        match resources with
        | Some _ => fail "the daemon runs under systemd; change its inventory with `roster enable --resources FILE`"
        | None =>
            _ ← run "systemctl" ["--user"; "start"; "roster"];
            info ← wait_for_daemon None JOURNAL;
            println ("started (" +:+ shown info +:+ "), log `" +:+ JOURNAL +:+ "`")
        end
      else
        log ← path (daemon_log_path vars);
        _ ← ask (CreateParent log);
        _ ← context ("failed to open " +:+ log) (ask (OpenAppend log));
        exe ← ask CurrentExe;
        rust_log ← do_ (HasVar "RUST_LOG");
        child ← context "failed to start the daemon"
          (ask (Spawn exe
            (["start"; "--foreground"] ++ match resources with Some file => ["--resources"; file] | None => [] end)
            (if (rust_log : bool) then [] else [("RUST_LOG", "info")]) log));
        info ← wait_for_daemon (Some child) log;
        println ("started (" +:+ shown info +:+ "), log " +:+ log)
  end.

Fixpoint exit_loop (fuel : nat) (pid : Z) (shown_pid : string) (deadline : N) : cli W unit :=
  match fuel with
  | O => λ _, OutOfFuel
  | S fuel =>
      alive ← do_ (Signal0 pid);
      if (alive : bool) then
        now ← do_ Instant;
        if deadline <=? now then fail ("daemon (" +:+ shown_pid +:+ ") still running 10 s after SIGTERM")
        else (_ ← do_ (Sleep 100); exit_loop fuel pid shown_pid deadline)
      else mret tt
  end.

(** 10 s of turns that sleep 100 ms each, and the last. *)
Definition exit_fuel : nat := 101.

Definition wait_for_exit (pid : Z) (shown_pid : string) : cli W unit :=
  now ← do_ Instant;
  exit_loop exit_fuel pid shown_pid (now + 10000).

(** SIGTERM the daemon and wait for it to exit; refuse while it runs jobs unless forced *)
Definition stop (force : bool) : cli W unit :=
  answer ← daemon_info;
  match answer with
  | None => println "not running"
  | Some info =>
      if Nat.ltb 0 (ni_running_jobs info) && negb (ni_jobs_survive_restart info) && negb force then
        fail (pretty (ni_running_jobs info)
              +:+ " jobs are running and would keep running untracked; wait for them or use --force")
      else
        unit ← path (unit_path vars);
        enabled ← do_ (Exists unit);
        if (enabled : bool) then
          _ ← run "systemctl" ["--user"; "stop"; "roster"];
          println ("stopped (" +:+ shown info +:+ ")")
        else
          let pid := as_i32 (ni_pid info) in
          _ ← context "failed to signal the daemon" (ask (Sigterm pid));
          _ ← wait_for_exit pid (shown info);
          println ("stopped (" +:+ shown info +:+ ")")
  end.

(** ** Under systemd *)

(** The unit [enable] writes *)
Definition unit_file (resources : option PathBuf) : cli W string :=
  exe ← ask CurrentExe;
  option ← match resources with
           | None => mret ""
           | Some file =>
               file ← context ("no resources file " +:+ file) (ask (Canonicalize file));
               mret (" --resources " +:+ quote +:+ file +:+ quote)
           end;
  mret (join newline
    ["[Unit]"; "Description=roster daemon"; "";
     "[Service]"; "ExecStart=" +:+ quote +:+ exe +:+ quote +:+ " start --foreground" +:+ option;
     "Environment=RUST_LOG=info"; "KillMode=process"; "Restart=on-failure"; "";
     "[Install]"; "WantedBy=default.target"; ""]).

(** Run the daemon as a systemd user service; without --resources an existing unit is kept *)
Definition enable (resources : option PathBuf) : cli W unit :=
  _ ← context "run `sudo loginctl enable-linger $USER` once, then `roster enable` again"
        (run "loginctl" ["enable-linger"]);
  unit ← path (unit_path vars);
  enabled ← do_ (Exists unit);
  _ ← (if (enabled : bool) then mret tt
       else answer ← daemon_info; match answer with Some _ => stop false | None => mret tt end);
  _ ← (if negb enabled || match resources with Some _ => true | None => false end then
         text ← unit_file resources;
         old ← read_to_string unit;
         if match old with Ok old => String.eqb old text | Err _ => false end then mret tt
         else
           _ ← ask (CreateParent unit);
           _ ← ask (Write unit text);
           _ ← run "systemctl" ["--user"; "daemon-reload"];
           if (enabled : bool) then println "unit updated, run `roster restart` to apply" else mret tt
       else mret tt);
  _ ← run "systemctl" ["--user"; "enable"; "--now"; "roster"];
  info ← wait_for_daemon None JOURNAL;
  println ("enabled, running (" +:+ shown info +:+ "), log `" +:+ JOURNAL +:+ "`").

(** Undo [enable]: stop the daemon and remove its unit *)
Definition disable (force : bool) : cli W unit :=
  unit ← path (unit_path vars);
  enabled ← do_ (Exists unit);
  if negb enabled then println "not enabled"
  else
    _ ← stop force;
    _ ← run "systemctl" ["--user"; "disable"; "roster"];
    _ ← ask (RemoveFile unit);
    _ ← run "systemctl" ["--user"; "daemon-reload"];
    println "disabled".

(** ** Showing *)

Definition health_of (index : N) (all : list GpuHealth) : option GpuHealth :=
  List.find (λ health, gh_index health =? index) all.

Definition print_info (info : NodeInfo) : cli W unit :=
  print_lines
    (["roster " +:+ ni_version info +:+ ", daemon pid " +:+ pretty (ni_pid info) +:+ ", "
        +:+ pretty (ni_running_jobs info) +:+ " jobs running";
      "socket  " +:+ ni_socket info;
      "cpu     " +:+ pretty (sr_cpu_cores (ni_resources info)) +:+ " cores";
      "memory  " +:+ pretty (sr_memory_mb (ni_resources info)) +:+ " MB"]
     ++ match sr_gpus (ni_resources info) with [] => ["gpu     none"] | _ => [] end
     ++ ((λ gpu,
           let health := health_of (gi_index gpu) (ni_gpu_health info) in
           let quarantined := health ≫= gh_quarantined in
           "gpu " +:+ pad 3 (pretty (gi_index gpu)) +:+ " " +:+ gi_name gpu +:+ ", " +:+ pretty (gi_vram_mb gpu) +:+ " MB"
           +:+ default "" (GpuHealth.to_string <$> health)
           +:+ default "" ((λ reason, ", quarantined: " +:+ reason) <$> quarantined))
         <$> sr_gpus (ni_resources info))).

Definition print_node (status : NodeStatus) : cli W unit :=
  let total := ns_total status in
  let held := if ns_online status || Nat.eqb (ns_running_jobs status) 0 then "" else ", held until the node answers" in
  print_lines
    (["node    " +:+ ns_name status +:+ " (" +:+ default "this machine" (ns_ssh status) +:+ ")";
      "state   " +:+ ns_state status +:+ ", since " +:+ local_time "%Y-%m-%d %H:%M:%S" (ns_since status);
      "jobs    " +:+ pretty (ns_running_jobs status) +:+ " running" +:+ held;
      "cpu     " +:+ pretty (ns_free_cpu status) +:+ "/" +:+ pretty (sr_cpu_cores total) +:+ " cores free";
      "memory  " +:+ pretty (ns_free_memory_mb status) +:+ "/" +:+ pretty (sr_memory_mb total) +:+ " MB free"]
     ++ match sr_gpus total with [] => ["gpu     none"] | _ => [] end
     ++ zip_with (λ gpu free,
           let health := health_of (gi_index gpu) (ns_gpu_health status) in
           let blocked := health ≫= GpuHealth.blocked (free =? gi_vram_mb gpu) in
           "gpu " +:+ pad 3 (pretty (gi_index gpu)) +:+ " " +:+ gi_name gpu +:+ ", " +:+ pretty free +:+ "/"
           +:+ pretty (gi_vram_mb gpu) +:+ " MB free"
           +:+ default "" (GpuHealth.to_string <$> health)
           +:+ default "" ((λ reason, ", not handed out: " +:+ reason) <$> blocked))
         (sr_gpus total) (ns_free_vram_mb status)).

Definition row (name ssh running since state : string) : string :=
  pad 12 name +:+ " " +:+ pad 20 ssh +:+ " " +:+ pad 8 running +:+ " " +:+ pad 12 since +:+ " " +:+ state.

(** The daemon's nodes with their state; without a daemon, what nodes.yaml lists *)
Definition list_nodes : cli W unit :=
  answer ← daemon_info;
  match answer with
  | None =>
      file ← path (nodes_path vars);
      text ← do_ (Read file);
      configs ← lift (load file text);
      print_lines ((λ config, pad 12 (nc_name config) +:+ " " +:+ pad 20 (default "-" (nc_ssh config))
                              +:+ " daemon not running") <$> configs)
  | Some _ =>
      _ ← println (row "NAME" "SSH" "RUNNING" "SINCE" "STATE");
      statuses ← node_statuses;
      print_lines ((λ status, row (ns_name status) (default "-" (ns_ssh status)) (pretty (ns_running_jobs status))
                                (local_time "%m-%d %H:%M" (ns_since status)) (ns_state status)) <$> statuses)
  end.

(** ** The commands *)

Definition show (request : Request) : cli W unit := response ← send request; println (debug response).

Definition main (command : Command) : cli W unit :=
  match command with
  | Start resources true =>
      running ← daemon_info;
      match running with
      | Some info => fail ("a daemon is already running here (" +:+ shown info +:+ ")")
      | None =>
          resources ← load_resources resources;
          file ← path (nodes_path vars);
          text ← do_ (Read file);
          configs ← lift (load file text);
          serve resources configs
      end
  | Start resources false => start resources
  | Enable resources => enable resources
  | Disable force => disable force
  | Stop force => stop force
  | Restart resources force => _ ← stop force; start resources
  | Info None json =>
      answer ← daemon_info;
      match answer with
      | None => fail "no daemon is running here, start it with `roster start`"
      | Some info => if json then println (to_json info) else print_info info
      end
  | Info (Some name) json =>
      statuses ← node_statuses;
      match List.find (λ status, String.eqb (ns_name status) name) statuses with
      | None => fail ("no node '" +:+ name +:+ "' in this daemon, see `roster node ls`")
      | Some status => if json then println (to_json status) else print_node status
      end
  | NodeAdd target name =>
      info ← node_add target name;
      let resources := ni_resources info in
      println ("added " +:+ target +:+ ": " +:+ pretty (sr_cpu_cores resources) +:+ " cores, "
               +:+ pretty (sr_memory_mb resources) +:+ " MB, " +:+ pretty (length (sr_gpus resources))
               +:+ " GPUs; run `roster restart` to use it")
  | NodeLs => list_nodes
  | NodeRm name => _ ← node_remove name; println ("removed " +:+ name +:+ "; run `roster restart` to apply")
  | Qualify index uuid retest => qualify index uuid retest
  | GpuClear node gpu =>
      response ← send (Request_ClearGpu (Some node) gpu);
      match response with
      | Response_GpuCleared => println ("GPU " +:+ pretty gpu +:+ " on " +:+ node +:+ " is back in service")
      | Response_Error message => fail message
      | other => unexpected other
      end
  | Submit file =>
      text ← read_to_string file;
      match text with
      | Err error => fail ("failed to read " +:+ file +:+ ": " +:+ error)
      | Ok spec_yaml => show (Request_Submit spec_yaml)
      end
  | Ps => show Request_Ps
  | Status id => show (Request_Status id)
  | Logs id =>
      match splitn2 id with
      | [run_id; job_id] =>
          response ← send (Request_Logs run_id job_id);
          match response with
          | Response_Log text => do_ (WriteAll text)
          | other => println (debug other)
          end
      | _ => fail "logs requires <run_id>/<job_id>"
      end
  | Cancel _ => λ _, Panicked   (* unimplemented! *)
  end.

End commands.

(** The commands that are all in [main.rs]. *)
Definition own_command (command : Command) : bool :=
  match command with
  | Start _ true | NodeAdd _ _ | NodeRm _ | Qualify _ _ _ => false
  | _ => true
  end.

(** What [--force] allows. *)
Definition forced (command : Command) : bool :=
  match command with Stop force | Restart _ force | Disable force => force | _ => false end.

(** The calls that end a daemon. *)
Definition ends_daemon : ∀ X, call X → bool := λ X c,
  match c with
  | Sigterm _ => true
  | Output program args => String.eqb program "systemctl" && bool_decide ("stop" ∈ args)
  | _ => false
  end.

(** The calls that change a file's text or remove one. *)
Definition changes_files : ∀ X, call X → bool := λ X c,
  match c with Write _ _ | RemoveFile _ => true | _ => false end.

(** All but the calls that waiting for a daemon makes. *)
Definition not_waiting : ∀ X, call X → bool := λ X c,
  match c with Connect _ | Exchange _ | TryWait _ | Instant | Sleep _ => false | _ => true end.

(** The commands that return once the daemon is up. *)
Definition starts (command : Command) : bool :=
  match command with Start _ false | Restart _ _ | Enable _ => true | _ => false end.

(** The commands that print no list, and so make a bounded number of calls. *)
Definition prints_no_list (command : Command) : bool :=
  match command with Info _ _ | NodeLs => false | _ => true end.

(** What a call is asked to take. *)
Definition asked_ms {X} (c : call X) : N := match c with Sleep ms => ms | _ => 0 end.

(** What a command may spend waiting for a daemon to come up or go down. *)
Definition waits_ms (command : Command) : N :=
  match command with
  | Start _ _ => 60100
  | Stop _ | Disable _ => 10100
  | Restart _ _ | Enable _ => 70200
  | _ => 0
  end.

(** ** Every command comes to an end *)

Section endings.
Context {W : Type} `{Machine W}.

(** It does not run out of turns, and hangs only in a call that hangs. *)
Definition ends_at {A} (m : cli W A) (w : W) : Prop :=
  match m w with
  | OutOfFuel => False
  | Hung w' => ∃ X (c : call X) w0, perform c w0 = (None, w')
  | _ => True
  end.
Definition ends {A} (m : cli W A) : Prop := ∀ w, ends_at m w.

Lemma ends_ret {A} (a : A) : ends (mret a).
Proof. done. Qed.
Lemma ends_bind {A B} (m : cli W A) (f : A → cli W B) : ends m → (∀ a, ends (f a)) → ends (m ≫= f).
Proof. intros Hm Hf w. unfold ends_at. cbv [mbind cli_bind]. specialize (Hm w). unfold ends_at in Hm. destruct (m w) as [[a|e] w'|w'| |]; [apply Hf | done..]. Qed.
Lemma ends_fail {A} message : ends (fail (A := A) message).
Proof. done. Qed.
Lemma ends_path p : ends (path p).
Proof. intros w. by destruct p. Qed.
Lemma ends_lift {A} (r : result A AnyError) : ends (lift r).
Proof. done. Qed.
Lemma ends_context {A} message (m : cli W A) : ends m → ends (context message m).
Proof. intros Hm w. specialize (Hm w). unfold ends_at, context in *. by destruct (m w). Qed.
Lemma ends_do {X} (c : call X) : ends (do_ c).
Proof. intros w. unfold ends_at, do_. destruct (perform c w) as [[x|] w'] eqn:E; [done|]. by exists X, c, w. Qed.
Lemma ends_ask {A} (c : call (result A string)) : ends (ask c).
Proof. intros w. unfold ends_at, ask. destruct (perform c w) as [[x|] w'] eqn:E; [done|]. by exists _, c, w. Qed.
Lemma ends_panic {A} : ends (λ _, Panicked : ended W A).
Proof. done. Qed.

Lemma bind_ends_at {A B} (m : cli W A) (f : A → cli W B) w :
  ends m → (∀ a w', m w = Done (Ok a) w' → ends_at (f a) w') → ends_at (m ≫= f) w.
Proof.
  intros Hm Hf. unfold ends_at. cbv [mbind cli_bind]. specialize (Hm w). unfold ends_at in Hm.
  destruct (m w) as [[a|e] w'|w'| |]; [by apply Hf | done..].
Qed.

(** The clock goes forward, by at least what a sleep asks for. *)
Record clock_runs (clock : W → N) : Prop := {
  clock_read : ∀ w x, (perform Instant w).1 = Some x → x = clock w;
  clock_monotone : ∀ X (c : call X) w, clock w ≤ clock (perform c w).2;
  clock_sleep : ∀ ms w, clock w + ms ≤ clock (perform (Sleep ms) w).2;
}.

(** Programs that keep a property of the world, whatever they return. *)
Definition keeps (I : W → Prop) {A} (m : cli W A) : Prop :=
  ∀ w, I w → match m w with Done _ w' | Hung w' => I w' | _ => True end.

Lemma keeps_ret I {A} (a : A) : keeps I (mret a).
Proof. by intros w. Qed.
Lemma keeps_bind I {A B} (m : cli W A) (f : A → cli W B) : keeps I m → (∀ a, keeps I (f a)) → keeps I (m ≫= f).
Proof.
  intros Hm Hf w Hw. cbv [mbind cli_bind]. specialize (Hm w Hw). destruct (m w) as [[a|e] w'|w'| |]; [|done..].
  by apply Hf.
Qed.
Lemma keeps_fail I {A} message : keeps I (fail (A := A) message).
Proof. by intros w. Qed.
Lemma keeps_path I p : keeps I (path p).
Proof. intros w. by destruct p. Qed.
Lemma keeps_lift I {A} (r : result A AnyError) : keeps I (lift r).
Proof. by intros w. Qed.
Lemma keeps_context I {A} message (m : cli W A) : keeps I m → keeps I (context message m).
Proof. intros Hm w Hw. unfold context. specialize (Hm w Hw). by destruct (m w). Qed.

(** No call but the bad ones can end a property of the world. *)
Definition spares (bad : ∀ X, call X → bool) (I : W → Prop) : Prop :=
  ∀ X (c : call X) w, bad X c = false → I w → I (perform c w).2.

Lemma keeps_do bad I {X} (c : call X) : spares bad I → bad X c = false → keeps I (do_ c).
Proof. intros HI Hc w Hw. unfold do_. specialize (HI _ _ _ Hc Hw). by destruct (perform c w) as [[]]. Qed.
Lemma keeps_ask bad I {A} (c : call (result A string)) : spares bad I → bad _ c = false → keeps I (ask c).
Proof. intros HI Hc w Hw. unfold ask. specialize (HI _ _ _ Hc Hw). by destruct (perform c w) as [[]]. Qed.
Lemma spares_mono bad bad' I :
  (∀ X (c : call X), bad X c = true → bad' X c = true) → spares bad I → spares bad' I.
Proof.
  intros Hb HI X c w Hc. apply HI. destruct (bad X c) eqn:E; [|done]. apply Hb in E. congruence.
Qed.

(** A call whose answer the property decides. *)
Lemma keeps_known bad I {X A} (c : call X) (x : X) (f : X → cli W A) :
  spares bad I → bad X c = false → (∀ w y, I w → (perform c w).1 = Some y → y = x) → keeps I (f x) → keeps I (do_ c ≫= f).
Proof.
  intros HI Hc Hx Hf w Hw. cbv [mbind cli_bind do_]. specialize (HI _ _ _ Hc Hw). specialize (Hx w).
  destruct (perform c w) as [[y|] w']; [|done]. rewrite (Hx y Hw eq_refl). by apply Hf.
Qed.

Lemma path_bind {A} p (f : PathBuf → cli W A) : path (Ret p) ≫= f = f p.
Proof. done. Qed.

Lemma keeps_panic I {A} : keeps I (λ _, Panicked : ended W A).
Proof. by intros w. Qed.
Lemma keeps_fuel I {A} : keeps I (λ _, OutOfFuel : ended W A).
Proof. by intros w. Qed.

End endings.

Create HintDb cli discriminated.
#[export] Hint Resolve ends_ret ends_fail ends_path ends_lift ends_do ends_ask ends_panic : cli.
#[export] Hint Resolve keeps_ret keeps_fail keeps_path keeps_lift keeps_panic keeps_fuel keeps_do keeps_ask : cli.
#[export] Hint Extern 0 (_ = false) => reflexivity : cli.

(** Takes a program apart along its binds, matches and contexts. *)
Ltac cli_step :=
  match goal with
  | |- ∀ _, _ => intros ?
  | |- ends (_ ≫= _) => apply ends_bind
  | |- keeps _ (_ ≫= _) => apply keeps_bind
  | |- ends (context _ _) => apply ends_context
  | |- keeps _ (context _ _) => apply keeps_context
  | |- _ (match ?x with _ => _ end) => destruct x
  | |- _ => solve [eauto 4 with cli nocore]
  end.
Ltac cli := repeat cli_step.

Section properties.
Context {W : Type} `{Machine W}.
Variable vars : Vars.
Context `{Serde NodeInfo} `{Serde NodeStatus} `{Yaml}.
Variable debug : Response → string.
Variable resources_from_yaml : string → result SystemResources string.
Variable local_time : string → DateTime → string.
Variable not_found : string.
Variable serve : SystemResources → list NodeConfig → cli W unit.
Variable node_add : string → option string → cli W NodeInfo.
Variable node_remove : string → cli W unit.
Variable qualify : N → option string → bool → cli W unit.

Abbreviation info_now := (daemon_info vars debug).
Abbreviation roster := (main vars debug resources_from_yaml local_time not_found serve node_add node_remove qualify).

Lemma daemon_info_ends : ends info_now.
Proof. unfold daemon_info, unexpected. cli. Qed.
Hint Resolve daemon_info_ends : cli.

(** ** Waiting *)

Definition no_call : ∀ X, call X → bool := λ _ _, false.

Lemma clock_spared clock t : clock_runs clock → spares no_call (λ w, t ≤ clock w).
Proof. intros Hc X c w _ Hw. pose proof (clock_monotone _ Hc _ c w). lia. Qed.

Lemma daemon_info_keeps I : spares not_waiting I → keeps I info_now.
Proof. intros HI. unfold daemon_info, unexpected. cli. Qed.

Lemma wait_keeps I child log : spares not_waiting I → keeps I (wait_for_daemon vars debug child log).
Proof.
  intros HI. pose proof (daemon_info_keeps I HI). unfold wait_for_daemon. apply keeps_bind; [cli|].
  intros now. generalize (now + 60000). intros deadline.
  induction wait_fuel as [|fuel IH]; cbn [wait_loop]; cli.
Qed.

Lemma run_keeps bad I program args :
  spares bad I → bad _ (Output program args) = false → keeps I (run program args).
Proof. intros HI Hc. unfold run. cli. Qed.

Lemma ends_daemon_not_waiting I : spares ends_daemon I → spares not_waiting I.
Proof. apply spares_mono. by intros X []. Qed.
Lemma changes_files_not_waiting I : spares changes_files I → spares not_waiting I.
Proof. apply spares_mono. by intros X []. Qed.
Lemma no_call_not_waiting I : spares no_call I → spares not_waiting I.
Proof. by apply spares_mono. Qed.
Hint Resolve run_keeps wait_keeps daemon_info_keeps ends_daemon_not_waiting changes_files_not_waiting : cli.

Lemma keeps_clock clock {A} (m : cli W A) w r w' :
  (∀ t, keeps (λ w, t ≤ clock w) m) → m w = Done r w' → clock w ≤ clock w'.
Proof. intros Hm E. specialize (Hm (clock w) w). rewrite E in Hm. by apply Hm. Qed.

Lemma do_Done {X} (c : call X) w x w' : do_ c w = Done (Ok x) w' → perform c w = (Some x, w').
Proof. unfold do_. destruct (perform c w) as [[y|] w1]; [|done]. by intros [= <- <-]. Qed.

Lemma wait_ask_keeps clock child :
  clock_runs clock → ∀ t, keeps (λ w, t ≤ clock w)
    (match child with Some child => ask (TryWait child) | None => mret None end : cli W _).
Proof. intros Hc t. pose proof (clock_spared clock t Hc). cli. Qed.

(** One more turn of a loop after a sleep, [now] the clock as it read it. *)
Lemma sleep_turn clock deadline {A} (again : cli W A) w now w1 n :
  clock_runs clock → clock w ≤ now → now ≤ clock w1 → now < deadline →
  deadline ≤ clock w + 100 * N.of_nat (S n - 1) →
  (∀ w2, (0 < n)%nat → deadline ≤ clock w2 + 100 * N.of_nat (n - 1) → ends_at again w2) →
  ends_at (do_ (Sleep 100) ≫= λ _, again) w1.
Proof.
  intros Hc Hle Hle1 Hlt Hd Hagain. apply bind_ends_at; [cli|]. intros [] w2 E%do_Done.
  pose proof (clock_sleep _ Hc 100 w1) as Hs. rewrite E in Hs. cbn in Hs. apply Hagain; lia.
Qed.

(** The reading of the clock that decides whether to go on. *)
Lemma clock_turn clock deadline {A} message (again : cli W A) w w1 n :
  clock_runs clock → clock w ≤ clock w1 → deadline ≤ clock w + 100 * N.of_nat (S n - 1) →
  (∀ w2, (0 < n)%nat → deadline ≤ clock w2 + 100 * N.of_nat (n - 1) → ends_at again w2) →
  ends_at (do_ Instant ≫= λ now, if deadline <=? now then fail message else do_ (Sleep 100) ≫= λ _, again) w1.
Proof.
  intros Hc Hle Hd Hagain. apply bind_ends_at; [cli|]. intros now w2 E%do_Done.
  pose proof (clock_read _ Hc w1 now) as Hr. pose proof (clock_monotone _ Hc _ Instant w1) as Hm.
  rewrite E in Hr, Hm. cbn in Hr, Hm. specialize (Hr eq_refl). subst now.
  destruct (N.leb_spec deadline (clock w1)); [done|]. by apply sleep_turn with clock deadline w (clock w1) n.
Qed.

Lemma wait_loop_ends clock child log deadline fuel w :
  clock_runs clock → (0 < fuel)%nat → deadline ≤ clock w + 100 * N.of_nat (fuel - 1) →
  ends_at (wait_loop vars debug fuel child log deadline) w.
Proof.
  intros Hc. revert w. induction fuel as [|fuel IH]; intros w Hpos Hw; [lia|]. cbn [wait_loop].
  apply bind_ends_at; [apply daemon_info_ends|]. intros [info|] w1 E1; [done|].
  apply (keeps_clock clock) in E1;
    [|intros t; by apply daemon_info_keeps, no_call_not_waiting, clock_spared].
  apply bind_ends_at; [cli|]. intros [status|] w2 E2; [done|].
  apply (keeps_clock clock) in E2; [|by apply wait_ask_keeps].
  apply clock_turn with clock w fuel; [done | lia | done | exact IH].
Qed.

Lemma exit_loop_ends clock pid shown_pid deadline fuel w :
  clock_runs clock → (0 < fuel)%nat → deadline ≤ clock w + 100 * N.of_nat (fuel - 1) →
  ends_at (exit_loop fuel pid shown_pid deadline) w.
Proof.
  intros Hc. revert w. induction fuel as [|fuel IH]; intros w Hpos Hw; [lia|]. cbn [exit_loop].
  apply bind_ends_at; [cli|]. intros [] w1 E%do_Done; [|done].
  pose proof (clock_monotone _ Hc _ (Signal0 pid) w) as Hm. rewrite E in Hm.
  by apply clock_turn with clock w fuel.
Qed.

(** A deadline set when the loop starts leaves it enough turns. *)
Lemma deadline_ends clock {A} ms fuel (loop : N → cli W A) :
  clock_runs clock → ms = 100 * N.of_nat (fuel - 1) →
  (∀ deadline w, deadline ≤ clock w + 100 * N.of_nat (fuel - 1) → ends_at (loop deadline) w) →
  ends (do_ Instant ≫= λ now, loop (now + ms)).
Proof.
  intros Hc -> Hl w. apply bind_ends_at; [cli|]. intros now w1 E%do_Done. apply Hl.
  pose proof (clock_read _ Hc w now) as Hr. pose proof (clock_monotone _ Hc _ Instant w) as Hm.
  rewrite E in Hr, Hm. cbn in Hr, Hm. rewrite (Hr eq_refl). lia.
Qed.

Section clock.
Variable clock : W → N.
Hypothesis Hclock : clock_runs clock.

Lemma wait_ends child log : ends (wait_for_daemon vars debug child log).
Proof using Hclock.
  apply (deadline_ends clock 60000 wait_fuel); [done | done|]. intros deadline w Hd.
  apply wait_loop_ends with clock; [done | unfold wait_fuel; lia | done].
Qed.

Lemma run_ends program args : ends (run program args).
Proof. unfold run. cli. Qed.

Lemma start_ends resources : ends (start vars debug resources).
Proof using Hclock. pose proof wait_ends. unfold start, println. cli; try apply run_ends. Qed.

Lemma exit_ends pid shown_pid : ends (wait_for_exit pid shown_pid).
Proof using Hclock.
  apply (deadline_ends clock 10000 exit_fuel); [done | done|]. intros deadline w Hd.
  apply exit_loop_ends with clock; [done | unfold exit_fuel; lia | done].
Qed.

Hint Resolve run_ends wait_ends exit_ends start_ends : cli.

Lemma stop_ends force : ends (stop vars debug force).
Proof using Hclock. unfold stop, println. cli. Qed.
Hint Resolve stop_ends : cli.

Lemma print_lines_ends lines : ends (print_lines (W := W) lines).
Proof. induction lines as [|line lines IH]; cbn [print_lines]; unfold println; cli. Qed.
Hint Resolve print_lines_ends : cli.

Lemma read_ends file : ends (read_to_string (W := W) not_found file).
Proof. unfold read_to_string. cli. Qed.
Hint Resolve read_ends : cli.

Lemma unit_file_ends resources : ends (unit_file (W := W) resources).
Proof. unfold unit_file. cli. Qed.
Hint Resolve unit_file_ends : cli.

Lemma enable_ends resources : ends (enable vars debug not_found resources).
Proof using Hclock. unfold enable, println. cli. Qed.

Lemma disable_ends force : ends (disable vars debug force).
Proof using Hclock. unfold disable, println. cli. Qed.

Lemma node_statuses_ends : ends (node_statuses vars debug).
Proof. unfold node_statuses, send, unexpected. cli. Qed.
Hint Resolve node_statuses_ends : cli.

Lemma list_nodes_ends : ends (list_nodes vars debug local_time).
Proof. unfold list_nodes, println. cli. Qed.
Hint Resolve enable_ends disable_ends list_nodes_ends : cli.

(** *** How long a command takes *)

(** Each call that returns does so within [lag] ms, a sleep within that of what
    it was asked for. *)
Definition prompt (lag : N) : Prop := ∀ X (c : call X) w x w',
  perform c w = (Some x, w') → clock w' ≤ clock w + asked_ms c + lag.

Definition within {A} (m : cli W A) (ms : N) : Prop :=
  ∀ w r w', m w = Done r w' → clock w' ≤ clock w + ms.

Lemma within_mono {A} (m : cli W A) b b' : within m b → b ≤ b' → within m b'.
Proof. intros Hm Hb w r w' E. specialize (Hm _ _ _ E). lia. Qed.
Lemma within_ret {A} (a : A) : within (mret a) 0.
Proof. intros w r w' [= _ <-]. lia. Qed.
Lemma within_fail {A} message : within (fail (A := A) message) 0.
Proof. intros w r w' [= _ <-]. lia. Qed.
Lemma within_lift {A} (r : result A AnyError) : within (lift r) 0.
Proof. intros w r' w' [= _ <-]. lia. Qed.
Lemma within_path p : within (path p) 0.
Proof. intros w r w'. destruct p; [|done]. intros [= _ <-]. lia. Qed.
Lemma within_panic {A} b : within (λ _, Panicked : ended W A) b.
Proof. done. Qed.
Lemma within_context {A} message (m : cli W A) b : within m b → within (context message m) b.
Proof.
  intros Hm w r w'. unfold context. destruct (m w) as [r1 w1| | |] eqn:E; try done.
  intros [= _ <-]. by eapply Hm.
Qed.
Lemma within_bind {A B} (m : cli W A) (f : A → cli W B) b1 b :
  within m b1 → b1 ≤ b → (∀ a, within (f a) (b - b1)) → within (m ≫= f) b.
Proof.
  intros Hm Hb Hf w r w'. cbv [mbind cli_bind]. destruct (m w) as [[a|e] w1|w1| |] eqn:E; try done.
  - intros E'. apply Hm in E. apply Hf in E'. lia.
  - intros [= _ <-]. apply Hm in E. lia.
Qed.
Lemma within_assoc {A B C} (m : cli W A) (f : A → cli W B) (g : B → cli W C) b :
  within (m ≫= λ a, f a ≫= g) b → within ((m ≫= f) ≫= g) b.
Proof.
  intros Hm w r w' E. apply (Hm w r). revert E. cbv [mbind cli_bind]. by destruct (m w) as [[]| | |].
Qed.

Section prompt.
Variable lag : N.
Hypothesis Hprompt : prompt lag.

Lemma within_do {X} (c : call X) : within (do_ c) (asked_ms c + lag).
Proof using Hprompt.
  intros w r w'. unfold do_. destruct (perform c w) as [[x|] w1] eqn:E; [|done].
  intros [= _ <-]. apply Hprompt in E. lia.
Qed.
Lemma within_ask {A} (c : call (result A string)) : within (ask c) (asked_ms c + lag).
Proof using Hprompt.
  intros w r w'. unfold ask. destruct (perform c w) as [[x|] w1] eqn:E; [|done].
  intros [= _ <-]. apply Hprompt in E. lia.
Qed.
Hint Resolve within_ret within_fail within_lift within_path within_context within_do within_ask within_panic : within.

(** Spends a budget call by call. *)
Ltac within_step :=
  match goal with
  | |- ∀ _, _ => intros ?
  | |- within (_ ≫= _) _ =>
      first [ eapply within_bind; [solve [eauto 4 with within nocore] | cbn [asked_ms]; lia | intros ?]
            | apply within_assoc
            | match goal with |- within ((match ?x with _ => _ end) ≫= _) _ => destruct x end ]
  | |- within (match ?x with _ => _ end) _ => destruct x
  | |- within _ _ => eapply within_mono; [solve [eauto 4 with within nocore] | cbn [asked_ms]; lia]
  end.
Ltac spend := repeat within_step.

Lemma daemon_info_within : within info_now (2 * lag).
Proof using Hprompt. unfold daemon_info, unexpected. spend. Qed.
Hint Resolve daemon_info_within : within.

(** A loop that looks at the clock every turn is over one turn after its deadline. *)
Definition by_time {A} (m : cli W A) (w : W) (limit : N) : Prop :=
  ∀ r w', m w = Done r w' → clock w' ≤ limit.

Lemma by_time_bind {A B} (m : cli W A) (f : A → cli W B) b w limit :
  within m b → clock w + b ≤ limit →
  (∀ a w1, clock w1 ≤ clock w + b → by_time (f a) w1 limit) → by_time (m ≫= f) w limit.
Proof.
  intros Hm Hb Hf r w'. cbv [mbind cli_bind]. destruct (m w) as [[a|e] w1|w1| |] eqn:E; try done.
  - apply Hm in E. by apply Hf.
  - intros [= _ <-]. apply Hm in E. lia.
Qed.

Lemma clock_turn_by deadline {A} message (again : cli W A) w limit :
  clock w + lag ≤ limit →
  (∀ w2, clock w2 ≤ deadline + 100 + 2 * lag → deadline + 100 + 2 * lag ≤ limit → by_time again w2 limit) →
  deadline + 100 + 2 * lag ≤ limit →
  by_time (do_ Instant ≫= λ now, if deadline <=? now then fail message else do_ (Sleep 100) ≫= λ _, again) w limit.
Proof using Hclock Hprompt.
  intros Hw Hagain Hd r w'. cbv [mbind cli_bind]. unfold do_ at 1.
  pose proof (clock_read _ Hclock w) as Hr. pose proof (Hprompt _ Instant w) as Hp.
  destruct (perform Instant w) as [[now|] w1]; [|done]. cbn in Hr. specialize (Hr now eq_refl). subst now.
  specialize (Hp _ _ eq_refl). cbn [asked_ms] in Hp.
  destruct (N.leb_spec deadline (clock w)); [intros [= _ <-]; lia|].
  apply (by_time_bind (do_ (Sleep 100)) (λ _, again) (100 + lag)); [apply (within_do (Sleep 100)) | lia |].
  intros _ w2 Hw2. apply Hagain; lia.
Qed.

Lemma wait_loop_by child log deadline fuel w :
  by_time (wait_loop vars debug fuel child log deadline) w ((clock w + 4 * lag) `max` (deadline + 100 + 6 * lag)).
Proof using Hclock Hprompt.
  revert w. induction fuel as [|fuel IH]; intros w; cbn [wait_loop]; [done|].
  apply (by_time_bind _ _ (2 * lag)); [apply daemon_info_within | lia |].
  intros [info|] w1 Hw1; [intros r w' [= _ <-]; lia|].
  apply (by_time_bind _ _ lag); [spend | lia |].
  intros [status|] w2 Hw2; [intros r w' [= _ <-]; lia|].
  apply clock_turn_by; [lia | | lia].
  intros w3 Hw3 Hl r w' E. apply IH in E. lia.
Qed.

Lemma exit_loop_by pid shown_pid deadline fuel w :
  by_time (exit_loop fuel pid shown_pid deadline) w ((clock w + 2 * lag) `max` (deadline + 100 + 4 * lag)).
Proof using Hclock Hprompt.
  revert w. induction fuel as [|fuel IH]; intros w; cbn [exit_loop]; [done|].
  apply (by_time_bind _ _ lag); [spend | lia |].
  intros [] w1 Hw1; [|intros r w' [= _ <-]; lia].
  apply clock_turn_by; [lia | | lia].
  intros w3 Hw3 Hl r w' E. apply IH in E. lia.
Qed.

(** A deadline [ms] from now. *)
Lemma deadline_within {A} ms extra (loop : N → cli W A) :
  (∀ deadline w, by_time (loop deadline) w ((clock w + extra) `max` (deadline + extra))) →
  within (do_ Instant ≫= λ now, loop (now + ms)) (ms + extra + lag).
Proof using Hclock Hprompt.
  intros Hl w r w'. cbv [mbind cli_bind]. unfold do_.
  pose proof (clock_read _ Hclock w) as Hr. pose proof (Hprompt _ Instant w) as Hp.
  destruct (perform Instant w) as [[now|] w1]; [|done]. cbn in Hr. rewrite (Hr now eq_refl).
  specialize (Hp _ _ eq_refl). cbn [asked_ms] in Hp. intros E. apply Hl in E. lia.
Qed.

Lemma wait_within child log : within (wait_for_daemon vars debug child log) (60100 + 7 * lag).
Proof using Hclock Hprompt.
  eapply within_mono; [apply (deadline_within 60000 (100 + 6 * lag))|lia].
  intros deadline w r w' E. apply wait_loop_by in E. lia.
Qed.

Lemma exit_within pid shown_pid : within (wait_for_exit pid shown_pid) (10100 + 5 * lag).
Proof using Hclock Hprompt.
  eapply within_mono; [apply (deadline_within 10000 (100 + 4 * lag))|lia].
  intros deadline w r w' E. apply exit_loop_by in E. lia.
Qed.

Lemma run_within program args : within (run program args) lag.
Proof using Hprompt. unfold run. spend. Qed.
Hint Resolve wait_within exit_within run_within : within.

Lemma start_within resources : within (start vars debug resources) (60100 + 16 * lag).
Proof using Hclock Hprompt. unfold start, println. spend. Qed.

Lemma stop_within force : within (stop vars debug force) (10100 + 10 * lag).
Proof using Hclock Hprompt. unfold stop, println. spend. Qed.

Lemma read_within file : within (read_to_string not_found file) lag.
Proof using Hprompt. unfold read_to_string. spend. Qed.

Lemma unit_file_within resources : within (unit_file resources) (2 * lag).
Proof using Hprompt. unfold unit_file. spend. Qed.
Hint Resolve start_within stop_within read_within unit_file_within : within.

Lemma enable_within resources : within (enable vars debug not_found resources) (70200 + 30 * lag).
Proof using Hclock Hprompt. unfold enable, println. spend. Qed.

Lemma disable_within force : within (disable vars debug force) (10100 + 15 * lag).
Proof using Hclock Hprompt. unfold disable, println. spend. Qed.
Hint Resolve enable_within disable_within : within.

Lemma command_within command :
  own_command command = true → prints_no_list command = true →
  within (roster command) (waits_ms command + 30 * lag).
Proof using Hclock Hprompt.
  intros Hown Hlist. destruct command as [? []| | | | | | | | | | | | | | |]; try discriminate;
    cbn [main waits_ms]; unfold show, send, println, unexpected; spend.
Qed.
End prompt.

(** C32: every command that main.rs carries out itself comes to an end, provided
    each call it makes returns: the two waits, for a daemon to answer and for
    one to exit, are over after at most 601 and 101 turns when the clock does
    not go back and a sleep takes as long as it was asked to.  If every call
    returns within [lag] ms, [start] is over in 60.1 s, [stop] and [disable] in
    10.1 s, [restart] and [enable] in 70.2 s, and [submit], [ps], [status],
    [logs], [cancel] and [gpu clear] at once, with 30 times [lag] on top ([info]
    and [node ls], which print a list, take a call per line).  Nothing bounds a
    single call: the exchange with a daemon has no timeout, so a command hangs
    - the 60 s and 10 s notwithstanding - exactly in a call that never returns
    ([silent_daemon_hangs]). *)
Theorem commands_terminate command w :
  own_command command = true →
  match roster command w with
  | OutOfFuel => False
  | Hung w' => ∃ X (c : call X) w0, perform c w0 = (None, w')
  | Panicked => True
  | Done _ w' => ∀ lag, prompt lag → prints_no_list command = true →
      clock w' ≤ clock w + waits_ms command + 30 * lag
  end.
Proof using Hclock.
  intros Hown. assert (ends_at (roster command) w) as He.
  { revert w. change (ends (roster command)).
    destruct command as [? []| | | | | | | | | | | | | | |]; try discriminate; cbn [main];
      unfold show, send, println, print_info, print_node, unexpected; cli. }
  unfold ends_at in He. destruct (roster command w) as [r w'| | |] eqn:E; [|done..].
  intros lag Hp Hl. apply (command_within lag Hp command Hown Hl) in E. lia.
Qed.
End clock.

(** A daemon that accepts and never answers hangs whatever asks it, [start]
    and the wait for a daemon included: their deadline is only looked at
    between two questions. *)
Theorem silent_daemon_hangs socket w w1 w2 child log resources force :
  socket_path vars = Ret socket → perform (Connect socket) w = (Some (Ok tt), w1) →
  perform (Exchange Request_Info) w1 = (None, w2) →
  start vars debug resources w = Hung w2 ∧ stop vars debug force w = Hung w2 ∧
  ∀ fuel deadline, wait_loop vars debug (S fuel) child log deadline w = Hung w2.
Proof.
  intros Hs Hc He. assert (info_now w = Hung w2) as Hi.
  { unfold daemon_info. rewrite Hs, path_bind. cbv [mbind cli_bind do_ ask]. by rewrite Hc, He. }
  unfold start, stop. split_and!; [| |intros fuel deadline; cbn [wait_loop]];
    cbv [mbind cli_bind]; by rewrite Hi.
Qed.

(** ** Running jobs are not abandoned *)

Section busy.
Variable I : W → Prop.

(** Jobs that nothing would track after a stop. *)
Definition busy_info (info : NodeInfo) : Prop :=
  (0 < ni_running_jobs info)%nat ∧ ni_jobs_survive_restart info = false.

(** [I] is a property of machines whose daemon, if it answers, answers that it
    runs such jobs, and that only the calls of [ends_daemon] can end. *)
Hypothesis Hbusy : ∀ w info, I w →
  (perform (Exchange Request_Info) w).1 = Some (Ok (Response_Info info)) → busy_info info.
Hypothesis Hspares : spares ends_daemon I.

Lemma info_busy w info w' : I w → info_now w = Done (Ok (Some info)) w' → busy_info info.
Proof using Hbusy Hspares.
  intros Hw. unfold daemon_info. destruct (socket_path vars) as [socket|]; [|done].
  cbv [mbind cli_bind path do_ ask mret cli_ret].
  pose proof (Hspares _ (Connect socket) w eq_refl Hw) as Hw1.
  destruct (perform (Connect socket) w) as [[[[]|]|] w1]; [|done..]. cbn in Hw1.
  pose proof (Hbusy w1) as Hb. destruct (perform (Exchange Request_Info) w1) as [[[response|]|] w2]; [|done..].
  destruct response; try done. intros [= <- <-]. by apply Hb.
Qed.

(** What [stop] does: it asks, and no more. *)
Lemma stop_keeps : keeps I (stop vars debug false).
Proof using Hbusy Hspares.
  intros w Hw. unfold stop. cbv [mbind cli_bind]. pose proof (daemon_info_keeps I (ends_daemon_not_waiting I Hspares) w Hw) as Hk.
  pose proof (info_busy w) as Hb. destruct (info_now w) as [[[info|]|e] w1|w1| |]; [| |done..].
  - destruct (Hb info w1 Hw eq_refl) as [Hjobs ->].
    rewrite (proj2 (Nat.ltb_lt 0 (ni_running_jobs info))) by done. done.
  - unfold println, do_. pose proof (Hspares _ (Println "not running") w1 eq_refl Hk).
    by destruct (perform _ w1) as [[]].
Qed.
Hint Resolve stop_keeps : cli.

Lemma start_keeps resources : keeps I (start vars debug resources).
Proof using Hspares. unfold start, println. cli. Qed.

Lemma unit_file_keeps resources : keeps I (unit_file resources).
Proof using Hspares. unfold unit_file. cli. Qed.
Hint Resolve start_keeps unit_file_keeps : cli.

Lemma enable_keeps resources : keeps I (enable vars debug not_found resources).
Proof using Hbusy Hspares. unfold enable, read_to_string, println. cli. Qed.

Lemma disable_keeps : keeps I (disable vars debug false).
Proof using Hbusy Hspares. unfold disable, println. cli. Qed.

Lemma print_lines_keeps lines : keeps I (print_lines lines).
Proof using Hspares. induction lines as [|line lines IH]; cbn [print_lines]; unfold println; cli. Qed.

Lemma node_statuses_keeps : keeps I (node_statuses vars debug).
Proof using Hspares. unfold node_statuses, send, unexpected. cli. Qed.
Hint Resolve enable_keeps disable_keeps print_lines_keeps node_statuses_keeps : cli.

Lemma list_nodes_keeps : keeps I (list_nodes vars debug local_time).
Proof using Hspares. unfold list_nodes, println. cli. Qed.
Hint Resolve list_nodes_keeps : cli.

(** C20: none of the commands that main.rs carries out itself - [start] without
    --foreground, [stop], [restart], [enable], [disable], [info], [node ls],
    [gpu clear], [submit], [ps], [status], [logs], [cancel] - ends a daemon whose jobs nothing
    would track afterwards unless it is forced: take any property of the
    machine that only a SIGTERM or [systemctl stop] can end, and under which a
    daemon that answers reports running jobs that do not survive a restart;
    each of these commands without [--force] keeps it, also one that hangs.  Not covered are the
    commands whose work is elsewhere and enters as a parameter: [start
    --foreground], [node add], [node rm] and [qualify]. *)
Theorem unforced_spares_jobs command w :
  own_command command = true → forced command = false → I w →
  match roster command w with Done _ w' | Hung w' => I w' | _ => True end.
Proof using Hbusy Hspares.
  intros Hown Hf. revert w. change (keeps I (roster command)).
  destruct command as [? []|[]|? []| |[]| | | | | | | | | | |]; try discriminate; cbn [main];
    unfold show, send, read_to_string, println, print_info, print_node, unexpected; cli.
Qed.
End busy.

(** ** A declared inventory is kept *)

Section enabled.
Variable I : W → Prop.
Hypothesis Hspares : spares changes_files I.

(** [roster enable] without --resources, which [node add] runs on every
    node, leaves an existing unit alone: any property of the machine that only
    writing or removing a file can end, such as what the unit says, still
    holds when it is done, if the property implies that the unit is there. *)
Theorem enable_keeps_unit unit w :
  unit_path vars = Ret unit → (∀ w there, I w → (perform (Exists unit) w).1 = Some there → there = true) → I w →
  match roster (Enable None) w with Done _ w' | Hung w' => I w' | _ => True end.
Proof using Hspares.
  intros Hu Hex. revert w. change (keeps I (enable vars debug not_found None)).
  unfold enable, println. rewrite Hu, path_bind. apply keeps_bind; [cli|]. intros _.
  apply keeps_known with changes_files true; [done | done | exact Hex | cbn; cli].
Qed.
End enabled.

(** ** A start has been answered *)

Lemma bind_Done {A B} (m : cli W A) (f : A → cli W B) w b w' :
  (m ≫= f) w = Done (Ok b) w' → ∃ a w1, m w = Done (Ok a) w1 ∧ f a w1 = Done (Ok b) w'.
Proof. cbv [mbind cli_bind]. destruct (m w) as [[a|e] w1|w1| |]; try done. eauto. Qed.

(** The last thing a program did but print was to hear from a daemon. *)
Definition answered_last (w' : W) : Prop :=
  ∃ w0 info w1 line, info_now w0 = Done (Ok (Some info)) w1 ∧ perform (Println line) w1 = (Some tt, w').

Definition answers (m : cli W unit) : Prop := ∀ w u w', m w = Done (Ok u) w' → answered_last w'.

Lemma answers_bind {A} (m : cli W A) f : (∀ a, answers (f a)) → answers (m ≫= f).
Proof. intros Hf w u w' (a & w1 & _ & E)%bind_Done. by eapply Hf. Qed.

Lemma wait_loop_answered fuel child log deadline w info w' :
  wait_loop vars debug fuel child log deadline w = Done (Ok info) w' →
  ∃ w0, info_now w0 = Done (Ok (Some info)) w'.
Proof.
  revert w. induction fuel as [|fuel IH]; intros w; cbn [wait_loop]; [done|].
  intros ([i|] & w1 & E1 & E)%bind_Done; [injection E as -> ->; eauto|].
  apply bind_Done in E as ([status|] & w2 & _ & E); [done|].
  apply bind_Done in E as (now & w3 & _ & E). destruct (deadline <=? now); [done|].
  apply bind_Done in E as (_ & w4 & _ & E). eauto.
Qed.

Lemma answers_wait child log f :
  answers (info ← wait_for_daemon vars debug child log; println (f info)).
Proof.
  intros w u w' (info & w1 & E & Ep)%bind_Done. apply bind_Done in E as (now & w2 & _ & E).
  apply wait_loop_answered in E as [w0 E]. apply do_Done in Ep. destruct u. unfold answered_last. eauto 6.
Qed.

Lemma answers_fail message : answers (fail message).
Proof. done. Qed.

Lemma answers_start resources : answers (start vars debug resources).
Proof.
  intros w u w' ([info|] & w1 & E1 & E)%bind_Done.
  { apply do_Done in E. destruct u. unfold answered_last. eauto 6. }
  revert w1 u w' E1 E. enough (Hm : answers _) by (intros w1 u w' _; apply Hm).
  apply answers_bind. intros unit. apply answers_bind. intros [].
  - destruct resources; [apply answers_fail|]. apply answers_bind. intros _. apply answers_wait.
  - do 6 (apply answers_bind; intros ?). apply answers_wait.
Qed.

Lemma answers_enable resources : answers (enable vars debug not_found resources).
Proof. unfold enable. do 5 (apply answers_bind; intros ?). apply answers_bind. intros _. apply answers_wait. Qed.

(** [start], [restart] and [enable] succeed only once a daemon is up: when
    one of them returns without an error, the last thing it did, but for
    printing its line, was to ask the daemon, and the daemon answered. *)
Theorem started_means_answered command w u w' :
  starts command = true → roster command w = Done (Ok u) w' → answered_last w'.
Proof.
  intros Hs. destruct command as [? []| |? force|?| | | | | | | | | | | |]; try discriminate; cbn [main].
  - apply answers_start.
  - apply (answers_bind (stop vars debug force)). intros _. apply answers_start.
  - apply answers_enable.
Qed.

(** ** Logs *)

Lemma splitn2_first run_id rest :
  "/"%char ∉ chars run_id → splitn2 (run_id +:+ "/" +:+ rest) = [run_id; rest].
Proof.
  intros Hn. unfold splitn2. enough (split_once "/" (run_id +:+ "/" +:+ rest) = Some (run_id, rest)) as -> by done.
  induction run_id as [|c run_id IH]; [done|]. cbn in Hn. apply not_elem_of_cons in Hn as [Hc Hn].
  change (String c run_id +:+ "/" +:+ rest) with (String c (run_id +:+ "/" +:+ rest)).
  cbn [split_once]. destruct (Ascii.eqb_spec c "/") as [->|_]; [done|]. by rewrite IH.
Qed.

Lemma splitn2_none id : "/"%char ∉ chars id → splitn2 id = [id].
Proof.
  intros Hn. unfold splitn2. destruct (split_once "/" id) as [[a b]|] eqn:E; [|done].
  apply split_once_spec in E as [-> _]. destruct Hn. rewrite chars_app, elem_of_app. right. by left.
Qed.

(** [roster logs RUN/JOB] asks for the log of exactly that job, also when
    the job's id has slashes of its own, since run ids have none; an id
    without a slash is refused before anything is asked. *)
Theorem logs_asks_for_job run_id job_id w :
  "/"%char ∉ chars run_id →
  roster (Logs (run_id +:+ "/" +:+ job_id)) w =
    (response ← send vars (Request_Logs run_id job_id);
     match response with
     | Response_Log text => do_ (WriteAll text)
     | other => println (debug other)
     end) w ∧
  roster (Logs run_id) w = Done (bail "logs requires <run_id>/<job_id>") w.
Proof. intros Hn. cbn [main]. by rewrite splitn2_first, splitn2_none. Qed.

(** [roster cancel] never cancels: whatever the id and the machine, the
    command panics before it asks anything, although the daemon has a handler
    for the request. *)
Theorem cancel_panics id w : roster (Cancel id) w = Panicked.
Proof. done. Qed.

End properties.

(** ** Witnesses *)

(** A machine with a daemon that comes up when it is started and goes down when
    it is told to, a unit file, a clock and a terminal. *)
Record Laptop := mkLaptop {
  lt_daemon : option NodeInfo;
  lt_unit : option string;
  lt_clock : N;
  lt_shown : list string;
}.

Definition up (info : NodeInfo) (l : Laptop) : Laptop :=
  mkLaptop (Some (default info (lt_daemon l))) (lt_unit l) (lt_clock l) (lt_shown l).
Definition down (l : Laptop) : Laptop := mkLaptop None (lt_unit l) (lt_clock l) (lt_shown l).
Definition set_unit (text : option string) (l : Laptop) : Laptop :=
  mkLaptop (lt_daemon l) text (lt_clock l) (lt_shown l).

Definition laptop_call {X} (c : call X) (l : Laptop) : X * Laptop :=
  match c in call X return X * Laptop with
  | Connect _ => (match lt_daemon l with Some _ => Ok tt | None => Err "refused" end, l)
  | Exchange request =>
      (match lt_daemon l, request with
       | Some info, Request_Info => Ok (Response_Info info)
       | _, Request_Logs run_id job_id => Ok (Response_Log (run_id +:+ ":" +:+ job_id))
       | _, _ => Err "reset"
       end, l)
  | Exists _ => (bool_decide (is_Some (lt_unit l)), l)
  | Read _ => (match lt_unit l with Some text => ReadOk text | None => NotFound end, l)
  | CreateParent _ | OpenAppend _ => (Ok tt, l)
  | Write _ text => (Ok tt, set_unit (Some text) l)
  | RemoveFile _ => (Ok tt, set_unit None l)
  | Canonicalize file => (Ok file, l)
  | CurrentExe => (Ok "/usr/bin/roster", l)
  | HasVar _ => (false, l)
  | Output program args =>
      (Ok (true, ""),
       if String.eqb program "systemctl" && bool_decide ("stop" ∈ args) then down l
       else if bool_decide ("start" ∈ args ∨ "--now" ∈ args) then up demo_info l else l)
  | Spawn _ _ _ _ => (Ok 7, up demo_info l)
  | TryWait _ => (Ok None, l)
  | Sigterm _ => (Ok tt, down l)
  | Signal0 _ => (bool_decide (is_Some (lt_daemon l)), l)
  | Instant => (lt_clock l, l)
  | Sleep ms => (tt, mkLaptop (lt_daemon l) (lt_unit l) (lt_clock l + ms) (lt_shown l))
  | Println line | WriteAll line => (tt, mkLaptop (lt_daemon l) (lt_unit l) (lt_clock l) (lt_shown l ++ [line]))
  | Discover => (mkSystemResources 8 16000 [], l)
  end.

#[local] Instance laptop : Machine Laptop := λ X c l,
  let '(x, l') := laptop_call c l in (Some x, l').

#[local] Instance laptop_info_serde : Serde NodeInfo := {| to_json _ := "{}"; from_json _ := None |}.
#[local] Instance laptop_status_serde : Serde NodeStatus := {| to_json _ := "{}"; from_json _ := None |}.
#[local] Existing Instance demo_yaml.

Definition laptop_vars : Vars := mkVars (Some "/home/me") None.
Definition laptop_main : Command → cli Laptop unit :=
  main laptop_vars (λ _, "response") (λ _, Err "not yaml") (λ _ _, "now") "not found"
    (λ _ _, fail "not here") (λ _ _, fail "not here") (λ _, fail "not here") (λ _ _ _, fail "not here").

Definition busy_node : NodeInfo :=
  mkNodeInfo VERSION 42 "/run/roster.socket" 2 false (mkSystemResources 8 16000 []) [].

Definition laptop_off : Laptop := mkLaptop None None 0 [].
Definition laptop_busy : Laptop := mkLaptop (Some busy_node) None 0 [].

(** Where a command leaves the laptop. *)
Definition after (command : Command) (l : Laptop) : Laptop :=
  match laptop_main command l with Done _ l' => l' | _ => l end.

Example laptop_stop_refused : lt_daemon (after (Stop false) laptop_busy) = Some busy_node.
Proof. by vm_compute. Qed.
Example laptop_stop_forced : lt_daemon (after (Stop true) laptop_busy) = None.
Proof. by vm_compute. Qed.
Example laptop_round : lt_unit (after (Disable false) (after (Enable None) laptop_off)) = None.
Proof. by vm_compute. Qed.
Example laptop_unit : lt_unit (after (Enable (Some "/gpus.yaml")) laptop_off) = Some (join newline
    ["[Unit]"; "Description=roster daemon"; ""; "[Service]";
     "ExecStart=" +:+ quote +:+ "/usr/bin/roster" +:+ quote +:+ " start --foreground --resources " +:+ quote +:+ "/gpus.yaml" +:+ quote;
     "Environment=RUST_LOG=info"; "KillMode=process"; "Restart=on-failure"; ""; "[Install]"; "WantedBy=default.target"; ""]).
Proof. by vm_compute. Qed.

(** A daemon that accepts and never answers. *)
#[local] Instance silent : Machine Laptop | 100 := λ X c l,
  match c with Exchange _ => (None, l) | _ => laptop X c l end.

Example silent_stop :
  @stop Laptop silent laptop_vars (λ _, "response") true laptop_busy = Hung laptop_busy.
Proof. by vm_compute. Qed.

Lemma laptop_clock : clock_runs lt_clock.
Proof.
  split; [by intros w x [= <-] | | by intros; cbn; lia].
  intros X c l. destruct c; cbn; repeat (case_match; cbn); lia.
Qed.

Lemma laptop_prompt : prompt lt_clock 0.
Proof.
  intros X c l x l'. unfold perform, laptop. destruct (laptop_call c l) as [y l1] eqn:E.
  intros [= _ <-]. replace l1 with (laptop_call c l).2 by by rewrite E. clear.
  destruct c; cbn; repeat (case_match; cbn); lia.
Qed.

Lemma laptop_spared : spares ends_daemon (λ l, lt_daemon l = Some busy_node).
Proof.
  intros X c l Hc Hl. destruct c; try done; cbn in *; [|by rewrite Hl].
  rewrite Hc. case_match; cbn; by rewrite ?Hl.
Qed.

Lemma laptop_kept text : spares changes_files (λ l, lt_unit l = Some text).
Proof. intros X c l Hc Hl. destruct c; try done; cbn; repeat (case_match; cbn); done. Qed.

Lemma commands_terminate_witness :
  match laptop_main (Restart None true) laptop_busy with
  | Done _ l => lt_clock l ≤ lt_clock laptop_busy + 70200 + 30 * 0
  | _ => False
  end.
Proof.
  pose proof (commands_terminate laptop_vars (λ _, "response") (λ _, Err "not yaml") (λ _ _, "now") "not found"
    (λ _ _, fail "not here") (λ _ _, fail "not here") (λ _, fail "not here") (λ _ _ _, fail "not here")
    lt_clock laptop_clock (Restart None true) laptop_busy eq_refl) as T.
  fold laptop_main in T. destruct (laptop_main (Restart None true) laptop_busy) as [r l|l| |] eqn:E.
  - exact (T 0 laptop_prompt eq_refl).
  - apply (f_equal (λ e, match e with Done _ _ => true | _ => false end)) in E. vm_compute in E. discriminate E.
  - apply (f_equal (λ e, match e with Done _ _ => true | _ => false end)) in E. vm_compute in E. discriminate E.
  - exact T.
Defined.

Lemma unforced_spares_jobs_witness :
  match laptop_main (Restart None false) laptop_busy with
  | Done _ l | Hung l => lt_daemon l = Some busy_node | _ => True end.
Proof.
  apply (unforced_spares_jobs laptop_vars) with (I := λ l, lt_daemon l = Some busy_node);
    [|exact laptop_spared|reflexivity|reflexivity|reflexivity].
  intros l info Hl. unfold perform, laptop. cbn. rewrite Hl. intros [= <-].
  split; [apply Nat.ltb_lt|]; reflexivity.
Defined.

Lemma enable_keeps_unit_witness :
  match laptop_main (Enable None) (mkLaptop None (Some "mine") 0 []) with
  | Done _ l | Hung l => lt_unit l = Some "mine" | _ => True end.
Proof.
  apply (enable_keeps_unit laptop_vars) with (I := λ l, lt_unit l = Some "mine")
    (unit := "/home/me/.config/systemd/user/roster.service");
    [apply laptop_kept|reflexivity| |reflexivity].
  intros l there Hl. unfold perform, laptop. cbn. rewrite Hl. by intros [= <-].
Defined.

Lemma started_means_answered_witness :
  answered_last laptop_vars (λ _, "response") (after (Start None false) laptop_off).
Proof.
  apply (started_means_answered laptop_vars (λ _, "response") (λ _, Err "not yaml") (λ _ _, "now") "not found"
    (λ _ _, fail "not here") (λ _ _, fail "not here") (λ _, fail "not here") (λ _ _ _, fail "not here")
    (Start None false) laptop_off tt); vm_compute; reflexivity.
Defined.

Lemma logs_asks_for_job_witness :
  lt_shown (after (Logs "r1/prep/a") (up busy_node laptop_off)) = ["r1:prep/a"].
Proof.
  unfold after, laptop_main.
  destruct (logs_asks_for_job laptop_vars (λ _, "response") (λ _, Err "not yaml") (λ _ _, "now") "not found"
    (λ _ _, fail "not here") (λ _ _, fail "not here") (λ _, fail "not here") (λ _ _ _, fail "not here")
    "r1" "prep/a" (up busy_node laptop_off)) as [E _]; [refine (bool_decide_eq_true_1 _ _); reflexivity|].
  change ("r1" +:+ "/" +:+ "prep/a") with "r1/prep/a" in E. rewrite E. reflexivity.
Defined.
