(* ===== verification/Discovery.v ===== *)
(** * The machine's cards through NVML: [src/resource/discovery.rs], [health.rs]

    The inventory a daemon discovers, the check it makes of every card when it
    starts, and the thread that turns Xid errors into quarantines.  NVML and
    sysinfo are parameters: what each query answered. *)

From S2P Require Import Prelude Pool Handle Model Text Quarantine Health.

(** ** NVML *)

(** One device's answers; a query that failed is [None]. *)
Record Card := mkCard {
  cd_name : option string;
  cd_memory_total : option N;              (* bytes *)
  cd_uuid : option string;
  cd_pages_pending_retired : option bool;
  cd_supports_xids : option bool;          (* CRITICAL_XID_ERROR among the supported event types *)
  cd_registers : bool;                     (* register_events succeeds *)
}.

Record Nvml := mkNvml {
  nv_init : bool;
  nv_device_count : option N;
  nv_device_by_index : N → option Card;
  nv_event_set : bool;                     (* create_event_set succeeds *)
}.

(** What [set.wait(1000)] answers, with the time and how far the save gets that
    the event may lead to. *)
Inductive Waited : Type :=
  | XidEvent (uuid : option string) (code : option N) (now : DateTime) (outcome : SaveOutcome)
  | Timeout
  | WaitFailed.

(** ** Discovery *)

Section discovery.
Variable nvml : Nvml.

Definition gpu_info (index : N) (device : Card) : GpuInfo :=
  mkGpuInfo index (default "unknown" (cd_name device)) (default 0 (mebibytes <$> cd_memory_total device))
    (default "" (cd_uuid device)).

(** One turn of the loop: a device that does not answer is left out. *)
Definition query (index : N) : list GpuInfo :=
  match nv_device_by_index nvml index with Some device => [gpu_info index device] | None => [] end.

(** Attempt NVML GPU discovery, return empty vec on failure *)
Definition discover_gpus : list GpuInfo :=
  if negb (nv_init nvml) then []
  else match nv_device_count nvml with
       | None => []
       | Some count => concat (query <$> (N.of_nat <$> seq 0 (N.to_nat count)))
       end.

(** What jobs may use: total minus headroom for the system and the daemon, max(10%, 1 GB) *)
Definition memory_for_jobs (total_mb : N) : N := total_mb - N.max (total_mb `div` 10) 1024.

Definition discover (cpus total_memory : N) : SystemResources :=
  mkSystemResources (cpus mod 2 ^ 32) (memory_for_jobs (mebibytes total_memory)) discover_gpus.

(** ** Watching *)

Section with_serde.
Context `{Serde (gmap string Quarantine)}.

(** [GpuMonitor::open]'s loop over the inventory: cards with pages pending
    retirement are quarantined at once; the clock and how far saving gets are
    each card's own. *)
Definition check_pages (now : N → DateTime) (outcome : N → SaveOutcome) (gpu : GpuInfo)
    (s : Quarantines.t * FileSystem) : Quarantines.t * FileSystem :=
  match nv_device_by_index nvml (gi_index gpu) ≫= cd_pages_pending_retired with
  | Some true => Quarantines.handle (outcome (gi_index gpu)) gpu PagesPendingRetirement (now (gi_index gpu)) s.1 s.2
  | _ => s
  end.

Definition open (path : PathBuf) (gpus : list GpuInfo) (now : N → DateTime) (outcome : N → SaveOutcome) (fs : FileSystem)
    : Quarantines.t * FileSystem :=
  let quarantines := Quarantines.load path fs in
  if nv_init nvml then foldl (λ s gpu, check_pages now outcome gpu s) (quarantines, fs) gpus
  else (quarantines, fs).

(** The cards the thread registers for; [None] when it gives up. *)
Fixpoint watch (gpus : list GpuInfo) : option (list GpuInfo) :=
  match gpus with
  | [] => Some []
  | gpu :: gpus =>
      match nv_device_by_index nvml (gi_index gpu) with
      | None => watch gpus
      | Some device =>
          match cd_supports_xids device with
          | Some true => if cd_registers device then cons gpu <$> watch gpus else None
          | _ => watch gpus
          end
      end
  end.

Definition find_watched (watched : list GpuInfo) (uuid : option string) : option GpuInfo :=
  List.find (λ gpu, String.eqb (gi_uuid gpu) (default "" uuid)) watched.

(** One turn of the thread's loop that goes on. *)
Definition on_event (watched : list GpuInfo) (uuid : option string) (code : option N) (now : DateTime)
    (outcome : SaveOutcome) (s : Quarantines.t * FileSystem) : Quarantines.t * FileSystem :=
  match code with
  | None => s
  | Some code =>
      match find_watched watched uuid with
      | None => s
      | Some gpu => Quarantines.handle outcome gpu (Xid code) now s.1 s.2
      end
  end.

Fixpoint listen_loop (watched : list GpuInfo) (waits : list Waited) (s : Quarantines.t * FileSystem)
    : Quarantines.t * FileSystem :=
  match waits with
  | [] => s
  | XidEvent uuid code now outcome :: waits => listen_loop watched waits (on_event watched uuid code now outcome s)
  | Timeout :: waits => listen_loop watched waits s
  | WaitFailed :: _ => s
  end.

(** The thread, over what its waits answer. *)
Definition listen_for_xids (gpus : list GpuInfo) (waits : list Waited) (s : Quarantines.t * FileSystem)
    : Quarantines.t * FileSystem :=
  if negb (nv_event_set nvml) then s
  else match watch gpus with
       | None | Some [] => s
       | Some watched => listen_loop watched waits s
       end.

End with_serde.

(** ** The inventory discovered *)

Definition answers (i : nat) : Prop := is_Some (nv_device_by_index nvml (N.of_nat i)).

Lemma query_slots i : gi_slot <$> query (N.of_nat i) = if nv_device_by_index nvml (N.of_nat i) then [i] else [].
Proof. unfold query. destruct (nv_device_by_index _ _); cbn; [|done]. unfold gi_slot. cbn. by rewrite Nat2N.id. Qed.

(** The indices of the inventory are those of the devices that answered. *)
Lemma discovered_slots count :
  gi_slot <$> concat (query <$> (N.of_nat <$> seq 0 count)) =
  List.filter (λ i, if nv_device_by_index nvml (N.of_nat i) then true else false) (seq 0 count).
Proof.
  generalize 0%nat as k. induction count as [|count IH]; intros k; [done|]. cbn [seq fmap list_fmap concat].
  rewrite fmap_app, query_slots. cbn [List.filter]. setoid_rewrite IH.
  by destruct (nv_device_by_index nvml (N.of_nat k)).
Qed.

(** What a filter leaves of the first numbers is the first numbers again only
    when it leaves no gap. *)
Lemma filter_seq_prefix (f : nat → bool) k n :
  List.filter f (seq k n) = seq k (length (List.filter f (seq k n))) ↔
  ∀ i j, (k ≤ i < j)%nat → (j < k + n)%nat → f j = true → f i = true.
Proof.
  revert k. induction n as [|n IH]; intros k; [split; [lia|done]|]. cbn [seq List.filter].
  destruct (f k) eqn:Ek; cbn [length seq].
  - split.
    + intros [= E] i j Hij Hj Hf. destruct (decide (i = k)) as [->|]; [done|].
      apply (proj1 (IH (S k)) E) with j; [lia | lia | done].
    + intros Hf. f_equal. apply IH. intros i j Hij Hj. apply Hf; lia.
  - split.
    + intros E i j Hij Hj Hf. exfalso.
      assert (j ∈ List.filter f (seq (S k) n)) as Hin.
      { apply list_elem_of_In, List.filter_In. split; [apply in_seq; lia | done]. }
      destruct (length (List.filter f (seq (S k) n))) as [|m] eqn:El; cbn [seq] in E; [rewrite E in Hin; by apply elem_of_nil in Hin|].
      assert (k ∈ List.filter f (seq (S k) n)) as Hk by (rewrite E; by left).
      apply list_elem_of_In, List.filter_In in Hk as [_ Hk]. congruence.
    + intros Hf. destruct (List.filter f (seq (S k) n)) as [|x l] eqn:E; [done|]. exfalso.
      assert (In x (List.filter f (seq (S k) n))) as [Hx Hfx]%List.filter_In by (rewrite E; by left).
      apply in_seq in Hx. assert (f k = true) by (apply (Hf k x); [lia | lia | done]). congruence.
Qed.

Lemma mebibytes_le bytes : mebibytes bytes ≤ bytes.
Proof.
  assert (∀ n, n `div` 1024 ≤ n) as Hd by (intros n; apply N.Div0.div_le_upper_bound; lia).
  unfold mebibytes. etrans; apply Hd.
Qed.

(** C37: The inventory discovery finds is one the pool can work with, its GPU
    indices 0, 1, .. without a gap, exactly when no device that NVML could not
    query comes before one it could. *)
Theorem discovered_inventory_wf count cpus total_memory :
  nv_init nvml = true → nv_device_count nvml = Some count → total_memory ≤ u64_max →
  (∀ i device bytes, nv_device_by_index nvml i = Some device → cd_memory_total device = Some bytes → bytes ≤ u64_max) →
  inventory_wf (discover cpus total_memory) ↔
  ∀ i j, (i < j)%nat → N.of_nat j < count → answers j → answers i.
Proof.
  intros Hinit Hcount Htotal Hvram. unfold inventory_wf, discover. cbn [sr_cpu_cores sr_memory_mb sr_gpus].
  unfold discover_gpus. rewrite Hinit, Hcount. cbn [negb]. rewrite discovered_slots, <-(length_fmap gi_slot), discovered_slots.
  rewrite filter_seq_prefix. split.
  - intros (_ & _ & _ & Hseq) i j Hij Hj Ha. specialize (Hseq i j). unfold answers in *.
    destruct (nv_device_by_index nvml (N.of_nat i)); [done|].
    destruct (nv_device_by_index nvml (N.of_nat j)); [|by destruct Ha]. discriminate Hseq; [lia | lia | done].
  - intros Ha. split_and!.
    + pose proof (N.mod_lt cpus (2 ^ 32)). unfold u32_max in *. lia.
    + pose proof (mebibytes_le total_memory). unfold memory_for_jobs. lia.
    + apply Forall_forall. intros g Hg. apply list_elem_of_In, in_concat in Hg as (l & Hl & Hg).
      apply list_elem_of_In, list_elem_of_fmap in Hl as (k & -> & _). unfold query in Hg.
      destruct (nv_device_by_index nvml k) as [device|] eqn:E; [|done]. destruct Hg as [<-|[]]. cbn.
      destruct (cd_memory_total device) as [bytes|] eqn:Eb; cbn; [|lia].
      pose proof (mebibytes_le bytes). specialize (Hvram k device bytes E Eb). lia.
    + intros i j Hij Hj Hf. specialize (Ha i j). unfold answers in Ha.
      destruct (nv_device_by_index nvml (N.of_nat j)); [|done].
      destruct (nv_device_by_index nvml (N.of_nat i)); [done|].
      destruct Ha as [? ?]; [lia | lia | done | done].
Qed.

End discovery.

(** ** Xids and the cards they are about *)

Section xids.
Context `{Serde (gmap string Quarantine)}.
Variable nvml : Nvml.

(** The Xids of a card that the thread hears before its wait fails. *)
Fixpoint heard (gpu : GpuInfo) (waits : list Waited) : list (CardEvent * DateTime) :=
  match waits with
  | [] | WaitFailed :: _ => []
  | XidEvent (Some uuid) (Some code) now _ :: waits =>
      if String.eqb (gi_uuid gpu) uuid then (Xid code, now) :: heard gpu waits else heard gpu waits
  | _ :: waits => heard gpu waits
  end.

(** An inventory whose cards NVML can tell apart. *)
Definition identified (gpus : list GpuInfo) : Prop :=
  NoDup (gi_uuid <$> gpus) ∧ Forall (λ gpu, gi_uuid gpu ≠ "") gpus.

Lemma key_identified gpu : gi_uuid gpu ≠ "" → key gpu = gi_uuid gpu.
Proof. unfold key. by destruct (gi_uuid gpu). Qed.

Lemma get_handle outcome gpu gpu' event now s fs :
  Quarantines.get gpu' (Quarantines.handle outcome gpu event now s fs).1 =
    if decide (key gpu = key gpu') then apply event now (Quarantines.get gpu s) else Quarantines.get gpu' s.
Proof.
  unfold Quarantines.handle, Quarantines.get. case_bool_decide as Hsame; cbn.
  - case_decide as Hk; [|done]. by rewrite <-Hk, Hsame.
  - destruct (apply event now (Quarantines.cards s !! key gpu)); cbn; case_decide as Hk;
      rewrite <-?Hk; by rewrite ?lookup_insert_eq, ?lookup_delete_eq, ?lookup_insert_ne, ?lookup_delete_ne.
Qed.

Lemma watch_sublist gpus watched : watch nvml gpus = Some watched → watched `sublist_of` gpus.
Proof.
  revert watched. induction gpus as [|gpu gpus IH]; intros watched; cbn [watch]; [by intros [= <-]|].
  destruct (nv_device_by_index nvml (gi_index gpu)) as [device|]; [|by constructor; apply IH].
  destruct (cd_supports_xids device) as [[]|]; [|by constructor; apply IH..].
  destruct (cd_registers device); [|done]. intros (l & E & ->)%fmap_Some. constructor. by apply IH.
Qed.

Lemma find_watched_self watched gpu :
  NoDup (gi_uuid <$> watched) → gpu ∈ watched → find_watched watched (Some (gi_uuid gpu)) = Some gpu.
Proof.
  unfold find_watched. induction watched as [|g watched IH]; [by intros _ ?%elem_of_nil|]. cbn.
  intros [Hg Hnd]%NoDup_cons [->|Hin]%elem_of_cons; [by rewrite String.eqb_refl|].
  destruct (String.eqb_spec (gi_uuid g) (gi_uuid gpu)) as [E|_]; [|by apply IH].
  destruct Hg. rewrite E. by apply list_elem_of_fmap_2.
Qed.

Lemma find_watched_spec watched uuid gpu :
  find_watched watched uuid = Some gpu → gpu ∈ watched ∧ gi_uuid gpu = default "" uuid.
Proof. intros [Hin E%String.eqb_eq]%List.find_some. split; [by apply list_elem_of_In | done]. Qed.

Lemma on_event_get watched uuid code now outcome s gpu :
  identified watched → gpu ∈ watched →
  Quarantines.get gpu (on_event watched uuid code now outcome s).1 =
    match uuid, code with
    | Some uuid, Some code =>
        if String.eqb (gi_uuid gpu) uuid then apply (Xid code) now (Quarantines.get gpu s.1) else Quarantines.get gpu s.1
    | _, _ => Quarantines.get gpu s.1
    end.
Proof.
  intros [Hnd Hne] Hin. rewrite Forall_forall in Hne. unfold on_event.
  destruct code as [code|]; [|by destruct uuid].
  destruct (find_watched watched uuid) as [g|] eqn:E.
  - pose proof (find_watched_spec _ _ _ E) as [Hg Eg]. pose proof (Hne g Hg) as Hg'.
    destruct uuid as [uuid|]; [|by cbn in Eg]. cbn in Eg. subst uuid. rewrite get_handle, !key_identified by auto.
    destruct (String.eqb_spec (gi_uuid gpu) (gi_uuid g)) as [Eu|Hu].
    + rewrite decide_True by done. rewrite <-Eu, find_watched_self in E by done. by injection E as <-.
    + by rewrite decide_False by congruence.
  - destruct uuid as [uuid|]; [|done]. destruct (String.eqb_spec (gi_uuid gpu) uuid) as [<-|_]; [|done].
    by rewrite find_watched_self in E.
Qed.

Lemma listen_loop_get watched waits s gpu :
  identified watched → gpu ∈ watched →
  Quarantines.get gpu (listen_loop watched waits s).1 =
    foldl (λ q e, apply e.1 e.2 q) (Quarantines.get gpu s.1) (heard gpu waits).
Proof.
  intros Hid Hin. revert s. induction waits as [|[uuid code now outcome| |] waits IH]; intros s; cbn [listen_loop heard]; [done| |done|done].
  rewrite IH, on_event_get by done. destruct uuid as [uuid|], code as [code|]; try done.
  by destruct (String.eqb (gi_uuid gpu) uuid).
Qed.

(** C39: An Xid quarantines the card it is about and no other: when the cards of
    the inventory are identified - each has a UUID, no two the same; a
    declared card, or one whose UUID NVML did not give, has none, and hears
    nothing ([declared_inventory_hears_nothing]) - then for every card the
    thread watches, the quarantine after any course of events is what its own
    Xids, in their order, make of the one it had; a failed save, a timeout, an
    event of another card or one without a code changes nothing of it. *)
Theorem xids_reach_their_card gpus watched waits s gpu :
  nv_event_set nvml = true → watch nvml gpus = Some watched → identified gpus → gpu ∈ watched →
  Quarantines.get gpu (listen_for_xids nvml gpus waits s).1 =
    foldl (λ q e, apply e.1 e.2 q) (Quarantines.get gpu s.1) (heard gpu waits).
Proof.
  intros Hset Hw [Hnd Hne] Hin. unfold listen_for_xids. rewrite Hset, Hw. cbn [negb].
  destruct watched as [|g watched]; [by apply elem_of_nil in Hin|].
  pose proof (watch_sublist _ _ Hw) as Hsub. apply listen_loop_get; [|done]. split.
  - eapply sublist_NoDup; [exact Hnd|]. by apply fmap_sublist.
  - rewrite Forall_forall in *. intros x Hx. apply Hne. by eapply elem_of_sublist.
Qed.

(** The cards of a declared inventory have no UUID, and no Xid ever reaches
    them: the thread registers for their events and drops every one. *)
Theorem declared_inventory_hears_nothing gpus waits s :
  Forall (λ gpu, gi_uuid gpu = "") gpus →
  Forall (λ w, match w with XidEvent uuid _ _ _ => default "" uuid ≠ "" | _ => True end) waits →
  listen_for_xids nvml gpus waits s = s.
Proof.
  intros Hg Hw. unfold listen_for_xids. destruct (nv_event_set nvml); [|done]. cbn [negb].
  destruct (watch nvml gpus) as [watched|] eqn:E; [|done]. apply watch_sublist in E.
  assert (∀ uuid, default "" uuid ≠ "" → find_watched watched uuid = None) as Hnone.
  { intros uuid Hu. destruct (find_watched watched uuid) as [g|] eqn:F; [|done].
    apply find_watched_spec in F as [Hin Eg]. rewrite Forall_forall in Hg. destruct Hu.
    rewrite <-Eg. apply Hg. by eapply elem_of_sublist. }
  assert (listen_loop watched waits s = s) as Hloop; [|by destruct watched].
  clear E. induction Hw as [|[uuid code now outcome| |] waits Hu _ IH]; cbn [listen_loop]; try done.
  unfold on_event. rewrite Hnone by done. by destruct code.
Qed.
End xids.

(** ** Witnesses: two cards that answer, a third that does not *)

Definition demo_nvml : Nvml :=
  mkNvml true (Some 3)
    (λ i, if i <? 2 then Some (mkCard (Some "H100") (Some (2 ^ 36)) (Some ("GPU-" +:+ pretty i)) (Some false) (Some true) true)
          else None)
    true.

Example demo_discover :
  discover demo_nvml 16 (2 ^ 37) =
    mkSystemResources 16 117965 [mkGpuInfo 0 "H100" 65536 "GPU-0"; mkGpuInfo 1 "H100" 65536 "GPU-1"].
Proof. by vm_compute. Qed.

Lemma discovered_inventory_wf_witness : inventory_wf (discover demo_nvml 16 (2 ^ 37)).
Proof.
  apply (discovered_inventory_wf demo_nvml 3); [reflexivity | reflexivity | by vm_compute | |].
  - intros i device bytes. cbn. destruct (i <? 2); [|done]. intros [= <-] [= <-]. by vm_compute.
  - intros i j Hij Hj. unfold answers. cbn. destruct (N.ltb_spec (N.of_nat i) 2); [done|]. intros _. lia.
Defined.

Lemma xids_reach_their_card_witness :
  let serde := demo_serde (A := gmap string Quarantine) in
  let gpus := discover_gpus demo_nvml in
  let waits := [XidEvent (Some "GPU-1") (Some 13) 4%Z Saved; Timeout; XidEvent (Some "GPU-1") (Some 79) 5%Z DirFailed; WaitFailed] in
  Quarantines.get (mkGpuInfo 1 "H100" 65536 "GPU-1")
    (@listen_for_xids demo_nvml serde gpus waits (Quarantines.mk "/q" ∅ ∅, ∅)).1 =
  Some (mkQuarantine "Xid 79" 5%Z).
Proof.
  intros serde gpus waits.
  rewrite (@xids_reach_their_card serde demo_nvml gpus gpus); [reflexivity | reflexivity | reflexivity | |].
  - split; [by apply (bool_decide_unpack _)|]. by repeat constructor.
  - right. by left.
Defined.

Lemma declared_inventory_hears_nothing_witness :
  let serde := demo_serde (A := gmap string Quarantine) in
  let s := (Quarantines.mk "/q" ∅ ∅, ∅) in
  @listen_for_xids demo_nvml serde [mkGpuInfo 0 "H100" 65536 ""] [XidEvent (Some "GPU-0") (Some 79) 5%Z Saved] s = s.
Proof.
  intros serde s. apply (@declared_inventory_hears_nothing serde); by repeat constructor.
Defined.
