(* ===== verification/Schema.v ===== *)
(** * The database's schema: [RunStore::open] in [src/store/mod.rs]

    The statements that create the tables and add the columns of later
    releases, on whatever an earlier release or an interrupted start left. *)

From S2P Require Import Prelude.

(** A table's columns, in order. *)
Notation Schema := (gmap string (list string)).

Definition RUNS : list string := ["run_id"; "workflow_name"; "created_at"].
Definition JOBS : list string := ["run_id"; "job_id"; "state"; "exit_code"; "started_at"; "ended_at"; "log_path"].

(** [CREATE TABLE IF NOT EXISTS] *)
Definition create_table (table : string) (columns : list string) (s : Schema) : Schema :=
  match s !! table with Some _ => s | None => <[table := columns]> s end.

(** Add a TEXT column unless the table has it already; SQLite refuses to alter
    a table that is not there. *)
Definition add_column (table column : string) (s : Schema) : option Schema :=
  match s !! table with
  | None => None
  | Some columns =>
      if bool_decide (column ∈ columns) then Some s else Some (<[table := columns ++ [column]]> s)
  end.

Inductive statement := CreateTable (table : string) (columns : list string) | AddColumn (table column : string).

Definition execute (st : statement) (s : Schema) : option Schema :=
  match st with
  | CreateTable table columns => Some (create_table table columns s)
  | AddColumn table column => add_column table column s
  end.

(** Columns added later. *)
Definition LATER : list (string * string) :=
  [("runs", "spec_json"); ("jobs", "node"); ("jobs", "allocation"); ("jobs", "reason")].

Definition MIGRATIONS : list statement :=
  [CreateTable "runs" RUNS; CreateTable "jobs" JOBS] ++ ((λ tc, AddColumn tc.1 tc.2) <$> LATER).

Fixpoint execute_all (sts : list statement) (s : Schema) : option Schema :=
  match sts with [] => Some s | st :: sts => s' ← execute st s; execute_all sts s' end.

(** [RunStore::open] *)
Definition open (s : Schema) : option Schema := execute_all MIGRATIONS s.

(** One cut short after [n] statements, by a crash or an error. *)
Definition open_cut (n : nat) (s : Schema) : option Schema := execute_all (take n MIGRATIONS) s.

(** ** Any release's schema becomes this one's *)

(** What the first release created, and perhaps more. *)
Definition released (s : Schema) : Prop :=
  ∀ table columns, s !! table = Some columns →
    NoDup columns ∧ (table = "runs" → RUNS `prefix_of` columns) ∧ (table = "jobs" → JOBS `prefix_of` columns).

(** No table or column is lost or moved. *)
Definition extends (s s' : Schema) : Prop :=
  ∀ table columns, s !! table = Some columns → ∃ columns', s' !! table = Some columns' ∧ columns `prefix_of` columns'.

Definition has_column (s : Schema) (table column : string) : Prop :=
  ∃ columns, s !! table = Some columns ∧ column ∈ columns.

(** What a statement is for. *)
Definition done_in (st : statement) (s : Schema) : Prop :=
  match st with
  | CreateTable table _ => is_Some (s !! table)
  | AddColumn table column => has_column s table column
  end.

(** A statement of the list may run where its table is. *)
Definition runnable (st : statement) (s : Schema) : Prop :=
  match st with CreateTable _ _ => True | AddColumn table _ => is_Some (s !! table) end.

#[export] Instance extends_preorder : PreOrder extends.
Proof.
  split.
  - intros s table columns Hs. eauto.
  - intros s1 s2 s3 H12 H23 table columns (c2 & (c3 & ? & ?)%H23 & ?)%H12. exists c3. split; [done|]. by etrans.
Qed.

Lemma extends_insert s table columns columns' :
  s !! table = Some columns → columns `prefix_of` columns' → extends s (<[table := columns']> s).
Proof.
  intros Hs Hp t c Ht. destruct (decide (t = table)) as [->|Hne].
  - exists columns'. rewrite lookup_insert_eq. split; [done|]. by simplify_eq.
  - exists c. by rewrite lookup_insert_ne.
Qed.

Lemma extends_new s table columns : s !! table = None → extends s (<[table := columns]> s).
Proof. intros Hs t c Ht. exists c. rewrite lookup_insert_ne; [done | congruence]. Qed.

Lemma execute_spec st s :
  st ∈ MIGRATIONS → released s → runnable st s →
  ∃ s', execute st s = Some s' ∧ released s' ∧ extends s s' ∧ done_in st s'.
Proof.
  intros Hst Hr Hrun. destruct st as [table columns|table column]; cbn [execute done_in runnable] in *.
  - unfold create_table. destruct (s !! table) as [c|] eqn:E.
    { exists s. rewrite E. split_and!; [done | done | reflexivity | done]. }
    exists (<[table := columns]> s). split_and!; [done | | by apply extends_new | by rewrite lookup_insert_eq].
    intros t c [[<- <-]|[_ Ht]]%lookup_insert_Some; [|by apply Hr].
    apply list_elem_of_In in Hst as [[= <- <-]|[[= <- <-]|Hst]]; [| |by repeat destruct Hst as [Hst|Hst]].
    + split_and!; [by apply (bool_decide_unpack _) | done | done].
    + split_and!; [by apply (bool_decide_unpack _) | done | done].
  - unfold add_column. destruct Hrun as [columns E]. rewrite E. case_bool_decide as Hc.
    { exists s. split_and!; [done | done | reflexivity | by exists columns]. }
    assert (columns `prefix_of` columns ++ [column]) as Hp by by apply prefix_app_r.
    destruct (Hr _ _ E) as (Hnd & Hruns & Hjobs).
    exists (<[table := columns ++ [column]]> s). split_and!; [done | | |].
    + intros t c [[<- <-]|[_ Ht]]%lookup_insert_Some; [|by apply Hr]. split_and!.
      * apply NoDup_app. split_and!; [done | by intros x Hx ->%list_elem_of_singleton | apply NoDup_singleton].
      * intros ->. etrans; [by apply Hruns | done].
      * intros ->. etrans; [by apply Hjobs | done].
    + by apply extends_insert with columns.
    + exists (columns ++ [column]). rewrite lookup_insert_eq. split; [done|]. apply elem_of_app. right. by left.
Qed.

Lemma done_extends st s s' : extends s s' → done_in st s → done_in st s'.
Proof.
  intros He. destruct st as [table columns|table column]; cbn.
  - intros [c (c' & -> & _)%He]. eauto.
  - intros (c & (c' & ? & Hp)%He & Hin). exists c'. split; [done|]. destruct Hp as [l ->]. apply elem_of_app. by left.
Qed.

Lemma execute_done st s : done_in st s → execute st s = Some s.
Proof.
  destruct st as [table columns|table column]; cbn.
  - intros [c E]. unfold create_table. by rewrite E.
  - intros (c & E & Hc). unfold add_column. rewrite E. by rewrite bool_decide_true.
Qed.

(** Every column is added to a table that exists or is created before. *)
Fixpoint ordered (tables : list string) (sts : list statement) : bool :=
  match sts with
  | [] => true
  | CreateTable table _ :: sts => ordered (table :: tables) sts
  | AddColumn table _ :: sts => bool_decide (table ∈ tables) && ordered tables sts
  end.

Lemma execute_all_spec sts tables s :
  sts ⊆ MIGRATIONS → ordered tables sts = true → (∀ t, t ∈ tables → is_Some (s !! t)) → released s →
  ∃ s', execute_all sts s = Some s' ∧ released s' ∧ extends s s' ∧ ∀ st, st ∈ sts → done_in st s'.
Proof.
  revert tables s. induction sts as [|st sts IH]; intros tables s Hin Hord Htab Hr.
  { exists s. split_and!; [done | done | reflexivity | by intros st ?%elem_of_nil]. }
  destruct (execute_spec st s) as (s1 & E1 & Hr1 & He1 & Hd1); [apply Hin; by left | done | |].
  { destruct st; [done|]. cbn in *. apply andb_prop in Hord as [Ht%bool_decide_eq_true _]. by apply Htab. }
  assert (∃ tables', ordered tables' sts = true ∧ ∀ t, t ∈ tables' → is_Some (s1 !! t)) as (tables' & Hord' & Htab').
  { assert (∀ t, t ∈ tables → is_Some (s1 !! t)) as Hkeep by (intros t [c (c' & -> & _)%He1]%Htab; eauto).
    destruct st as [table c|table c]; cbn in Hord.
    - exists (table :: tables). split; [done|]. by intros t [->|Ht]%elem_of_cons; [|by apply Hkeep].
    - apply andb_prop in Hord as [_ Hord]. by exists tables. }
  destruct (IH tables' s1) as (s2 & E2 & Hr2 & He2 & Hd2); [set_solver | done..|].
  exists s2. cbn [execute_all]. rewrite E1. split_and!; [exact E2 | done | by etrans |].
  intros st' [->|Hst]%elem_of_cons; [by apply done_extends with s1 | by apply Hd2].
Qed.

Lemma ordered_take n : ordered [] (take n MIGRATIONS) = true.
Proof. by do 7 (destruct n as [|n]; [done|]). Qed.

(** Starts one after the other, each cut short somewhere. *)
Fixpoint open_cuts (cuts : list nat) (s : Schema) : option Schema :=
  match cuts with [] => Some s | n :: cuts => s' ← open_cut n s; open_cuts cuts s' end.

Lemma open_cuts_spec cuts s :
  released s → ∃ s', open_cuts cuts s = Some s' ∧ released s' ∧ extends s s'.
Proof.
  revert s. induction cuts as [|n cuts IH]; intros s Hr; [exists s; by split_and!|].
  destruct (execute_all_spec (take n MIGRATIONS) [] s) as (s1 & E1 & Hr1 & He1 & _);
    [apply subseteq_take | apply ordered_take | by intros t ?%elem_of_nil | done|].
  destruct (IH s1 Hr1) as (s2 & E2 & Hr2 & He2). exists s2. cbn. unfold open_cut. rewrite E1. split_and!; [done | done | by etrans].
Qed.

(** C36: Opening the database brings any earlier schema up to date: from the
    empty file or what any release left, after any number of starts cut short
    at any statement, the next open succeeds, loses and moves no column, no
    table gets one twice, every table and column the program uses is there,
    and opening again changes nothing. *)
Theorem open_migrates cuts s0 :
  released s0 →
  ∃ s1 s2, open_cuts cuts s0 = Some s1 ∧ open s1 = Some s2 ∧ extends s0 s2 ∧
    (∀ table columns, s2 !! table = Some columns → NoDup columns) ∧
    (∀ column, column ∈ RUNS → has_column s2 "runs" column) ∧
    (∀ column, column ∈ JOBS → has_column s2 "jobs" column) ∧
    (∀ table column, (table, column) ∈ LATER → has_column s2 table column) ∧
    open s2 = Some s2.
Proof.
  intros Hr. destruct (open_cuts_spec cuts s0 Hr) as (s1 & E1 & Hr1 & He1).
  destruct (execute_all_spec MIGRATIONS [] s1) as (s2 & E2 & Hr2 & He2 & Hd2);
    [done | done | by intros t ?%elem_of_nil | done|].
  exists s1, s2. split_and!; [done | done | by etrans | intros t c Ht; by apply Hr2 in Ht as [? _] | | | |].
  - intros column Hc. destruct (Hd2 (CreateTable "runs" RUNS)) as [c Ec]; [by left|].
    exists c. split; [done|]. destruct (Hr2 _ _ Ec) as (_ & [l ->] & _); [done|]. apply elem_of_app. by left.
  - intros column Hc. destruct (Hd2 (CreateTable "jobs" JOBS)) as [c Ec]; [right; by left|].
    exists c. split; [done|]. destruct (Hr2 _ _ Ec) as (_ & _ & [l ->]); [done|]. apply elem_of_app. by left.
  - intros table column Hin. apply (Hd2 (AddColumn table column)). apply elem_of_app. right.
    by apply (list_elem_of_fmap_2 (λ tc, AddColumn tc.1 tc.2) LATER (table, column)).
  - unfold open. clear E2. induction MIGRATIONS as [|st sts IH]; [done|]. cbn [execute_all].
    rewrite execute_done by (apply Hd2; by left). apply IH. intros st' Hst. apply Hd2. by right.
Qed.

(** A database of the first release, opened three times, twice cut short. *)
Lemma open_migrates_witness :
  ∃ s2, (open_cuts [4; 3]%nat {[ "runs" := RUNS ]} ≫= open) = Some s2 ∧ has_column s2 "runs" "spec_json".
Proof.
  destruct (open_migrates [4; 3]%nat {[ "runs" := RUNS ]}) as (s1 & s2 & E1 & E2 & _ & _ & _ & _ & Hl & _).
  - intros t c [<- <-]%lookup_singleton_Some. split_and!; [by apply (bool_decide_unpack _) | done | done].
  - exists s2. rewrite E1. split; [exact E2|]. apply Hl. by left.
Defined.
