(* ===== verification/Bench.v ===== *)
(** * The ring's latency benchmark: [src/bin/bench_broadcast.rs]

    One thread sends timestamped events through the ring at a given rate, and
    any number of consumers spin on [try_recv], recording latencies, until the
    producer has raised a flag and nothing is left.  The threads interleave on
    the memory of [Weak.v], the flag is a release store and an acquire load,
    and the clock answers what it likes.  Histograms are the class
    [Histogram]. *)

From S2P Require Import Prelude Spec Pool Handle Model Broadcast Weak Seqlock Text.

Definition CHANNEL_CAPACITY : N := 4096.
Definition WARMUP_CAP : N := 10000.
Definition MEASURED_CAP : N := 1000000.
Definition TARGET_SECONDS : N := 15.

(** ** Which configurations are run *)

Record RunConfig := mkRunConfig {
  subscriber_count : nat;
  rate_per_sec : N;
  label : string;
}.

(** Scale (warmup, measured) to the offered rate. *)
Definition samples_for_rate (rate : N) : exec (N * N) :=
  offered ← checked_mul u64_max rate TARGET_SECONDS;
  Ret ((rate `min` WARMUP_CAP) `max` 100, (offered `min` MEASURED_CAP) `max` 1000).

(** [Vec::dedup]: of equal neighbours the first is kept. *)
Fixpoint dedup (l : list nat) : list nat :=
  match l with
  | x :: (y :: _) as l' => if decide (x = y) then dedup l' else x :: dedup l'
  | _ => l
  end.

Definition sweep_cap (logical_cores : nat) : nat := ((logical_cores - 1) `max` 1)%nat.

Definition sweep (logical_cores : nat) : list nat :=
  let cap := sweep_cap logical_cores in
  let sweep := filter (λ n, n ≤ cap)%nat [1; 2; 4; 7]%nat in
  dedup (if decide (last sweep = Some cap) then sweep else sweep ++ [cap]).

(** [main]'s list, for the cores found: none found counts as one. *)
Definition configs (core_ids : nat) : list RunConfig :=
  let logical_cores := (core_ids `max` 1)%nat in
  [mkRunConfig 1 100000 "1 subscriber, stress load (100K/s)";
   mkRunConfig 1 1000 "1 subscriber, sparse load (1K/s)"] ++
  ((λ n, mkRunConfig n 100000 (pretty n +:+ " subscribers")) <$> filter (λ n, n ≠ 1%nat) (sweep logical_cores)) ++
  [mkRunConfig 64 100000 "64 subscribers [OVERSUBSCRIBED - measures OS scheduling, not ring latency]"].

(** What [main] prints first, and [run_config] before it starts its threads. *)
Definition banner (logical_cores : nat) (pin : bool) : list string :=
  ["roster broadcast latency benchmark";
   "logical cores detected: " +:+ pretty logical_cores;
   "core pinning: " +:+ (if pin then "ON" else "off (use --pin to enable)");
   "100K/s runs are a deliberate stress load, ~3-5 orders of magnitude above realistic scheduler rates (~1-100/s); production sits far below this.";
   ""].

Definition heading (config : RunConfig) : exec (list string) :=
  counts ← samples_for_rate (rate_per_sec config);
  let warmup : N := counts.1 in let measured : N := counts.2 in
  total_events ← checked_add u64_max warmup measured;
  Ret ["--- " +:+ label config +:+ " ---";
       "offered load: " +:+ pretty (rate_per_sec config) +:+ " events/sec (warmup: " +:+ pretty warmup
         +:+ ", measured: " +:+ pretty measured +:+ ", est. "
         +:+ pretty (total_events `div` (rate_per_sec config `max` 1)) +:+ "s)"].

(** The cores the threads are pinned to: a consumer to the one of its index,
    the producer to the last. *)
Definition consumer_core {C} (pin : bool) (core_ids : list C) (idx : nat) : option C :=
  if pin then core_ids !! idx else None.
Definition producer_core {C} (pin : bool) (core_ids : list C) : option C :=
  if pin then last core_ids else None.

(** ** Histograms *)

(** What is used of [hdrhistogram]: a quantile is in thousandths. *)
Class Histogram (H : Type) := {
  new_with_bounds : N → N → N → option H;
  hist_record : N → H → option H;
  hist_add : H → H → option H;
  hist_len : H → N;
  hist_high : H → N;
  value_at_quantile : N → H → N;
}.

Definition HIGHEST : N := 10000000000.

(** A fresh histogram is empty, counts every value up to its bound, and may be
    added to one of no smaller bound. *)
Class HistogramLaws (H : Type) `{Histogram H} : Prop := {
  new_law : ∃ h, new_with_bounds 1 HIGHEST 3 = Some h ∧ hist_len h = 0 ∧ hist_high h = HIGHEST;
  record_accepts : ∀ v h, v ≤ hist_high h → is_Some (hist_record v h);
  record_law : ∀ v h h', hist_record v h = Some h' → hist_len h' = hist_len h + 1 ∧ hist_high h' = hist_high h;
  add_law : ∀ h1 h2, hist_high h2 ≤ hist_high h1 →
    ∃ h, hist_add h1 h2 = Some h ∧ hist_len h = hist_len h1 + hist_len h2 ∧ hist_high h = hist_high h1;
}.

Definition unwrap {A} (o : option A) : exec A := match o with Some x => Ret x | None => Panic end.

Lemma foldr_const {A} (f : A → N) l n : (∀ x, x ∈ l → f x = n) → foldr (λ x m, f x + m) 0 l = N.of_nat (length l) * n.
Proof.
  induction l as [|x l IH]; intros Hall; cbn [foldr length]; [done|].
  rewrite IH, Hall; [lia | by left | by intros; apply Hall; right].
Qed.

Lemma no_laps {A} (handles : list (A * N)) k h laps :
  existsb (λ laps, 0 <? laps) handles.*2 = false → handles !! k = Some (h, laps) → laps = 0.
Proof.
  intros Hno Hk. destruct (N.eqb_spec laps 0) as [|Hne]; [done|].
  assert (existsb (λ laps, 0 <? laps) handles.*2 = true); [|congruence].
  apply existsb_exists. exists laps. split; [|apply N.ltb_lt; lia].
  apply list_elem_of_In, list_elem_of_fmap. eexists (_, _). split; [done|]. by eapply list_elem_of_lookup_2.
Qed.

Section bench.
Context {H : Type} `{Histogram H}.
Variable b : RingBuffer.
(** How many events are sent before any is measured, how many are measured,
    and how many are sent a second. *)
Variables warmup measured rate : N.

Definition total_events : N := warmup + measured.
Definition interval_ns : N := 1000000000 `div` rate.

(** ** A consumer *)

(** The variables of its loop; [cs_samples], for the statements, has the events
    it measured and what its clock said when it did. *)
Record Locals := mkLocals { cs_seen : N; cs_histogram : H; cs_samples : list (N * JobEvent) }.

Inductive consumer :=
  | C_Barrier
  | C_Waiting
  | C_Recv (draining : bool) (l : Locals)                       (* in a [try_recv] *)
  | C_Record (draining : bool) (event : JobEvent) (l : Locals)
  | C_Check (l : Locals)                                        (* loads the flag *)
  | C_Done (l : Locals).

(** The closure [record], the clock being [now]. *)
Definition record (now : N) (event : JobEvent) (l : Locals) : exec Locals :=
  seen ← checked_add u64_max (cs_seen l) 1;
  if warmup <? seen then
    let latency_ns := saturating_sub now (je_emitted_at event) in
    Ret (mkLocals seen (default (cs_histogram l) (hist_record latency_ns (cs_histogram l)))
           (cs_samples l ++ [(now, event)]))
  else Ret (mkLocals seen (cs_histogram l) (cs_samples l)).

(** From when an event was sent to when it was seen. *)
Definition latency (sample : N * JobEvent) : N := saturating_sub sample.1 (je_emitted_at sample.2).

(** A histogram of them. *)
Definition tally (h : H) (samples : list (N * JobEvent)) : H :=
  foldl (λ h sample, default h (hist_record (latency sample) h)) h samples.

(** What the call that brought [r] to [r'] handed out. *)
Definition handed_out (r r' : Reader (T := JobEvent)) : option JobEvent :=
  snd <$> head (drop (length (rd_got r)) (rd_got r')).

(** The samples are those of the events after the warmup, all of them in the
    order they were sent, and the histogram is theirs. *)
Definition measures (l : Locals) (sent : list JobEvent) : Prop :=
  N.of_nat (length (cs_samples l)) = measured ∧ (cs_samples l).*2 = drop (N.to_nat warmup) sent ∧
  ∃ empty, new_with_bounds 1 HIGHEST 3 = Some empty ∧ cs_histogram l = tally empty (cs_samples l).

(** The next step of a consumer: [None] when it cannot take it yet.  [full]
    says that every thread is at the barrier, [t] where a load of the ring
    reads, [told] whether the load of the flag sees it raised; [raised] is what
    the flag publishes once it is. *)
Definition consumer_next (full : bool) (history : list (message place)) (raised : option nat)
    (t : nat) (now : N) (told : bool) (c : consumer) (r : Reader (T := JobEvent))
    : exec (option (consumer * Reader (T := JobEvent))) :=
  match c with
  | C_Barrier => Ret (Some (C_Waiting, r))
  | C_Waiting =>
      if full then h ← unwrap (new_with_bounds 1 HIGHEST 3); Ret (Some (C_Recv false (mkLocals 0 h []), r))
      else Ret None
  | C_Recv draining l =>
      out ← weak_recv b history t r;
      Ret (r' ← out;
           match rd_pc r', handed_out r r' with
           | RIdle, Some event => Some (C_Record draining event l, r')
           | RIdle, None => Some (if draining then C_Done l else C_Check l, r')
           | _, _ => Some (C_Recv draining l, r')
           end)
  | C_Record draining event l => l' ← record now event l; Ret (Some (C_Recv draining l', r))
  | C_Check l =>
      if told then Ret (n ← raised; Some (C_Recv true l, synchronise n r)) else Ret (Some (C_Recv false l, r))
  | C_Done _ => Ret None
  end.

(** ** The producer *)

Inductive producer :=
  | P_Barrier
  | P_Waiting
  | P_Turn (i next_send : N)      (* at the head of the loop, or spinning *)
  | P_Now (i next_send : N)       (* about to take the event's timestamp *)
  | P_Sending (i next_send : N)   (* in a [send] *)
  | P_Done.

(** Its next step: its place, the ring, and what the flag publishes. *)
Definition producer_next (full : bool) (now : N) (p : producer) (ring : WeakRing (T := JobEvent))
    : exec (option (producer * WeakRing (T := JobEvent) * option nat)) :=
  let '(mkWeakRing w pc sent readers) := ring in
  match p with
  | P_Barrier => Ret (Some (P_Waiting, ring, None))
  | P_Waiting =>
      if full then if rate =? 0 then Panic else Ret (Some (P_Turn 0 now, ring, None)) else Ret None
  | P_Turn i next_send =>
      if i <? total_events then
        if now <? next_send then Ret (Some (P_Turn i next_send, ring, None))
        else Ret (Some (P_Now i next_send, ring, None))
      else Ret (Some (P_Done, ring, Some (length (wr_history w))))
  | P_Now i next_send =>
      let event := mkJobEvent i i 0 now in
      Ret (Some (P_Sending i next_send,
             mkWeakRing (weak_begin b event w).1 (weak_begin b event w).2 (sent ++ [event]) readers, None))
  | P_Sending i next_send =>
      match pc with
      | SIdle => next_send ← checked_add u64_max next_send interval_ns; Ret (Some (P_Turn (i + 1) next_send, ring, None))
      | _ => wp ← weak_send b w pc; Ret (Some (P_Sending i next_send, mkWeakRing wp.1 wp.2 sent readers, None))
      end
  | P_Done => Ret None
  end.

(** ** The threads together *)

Record Bench := mkBench {
  be_ring : WeakRing (T := JobEvent);
  be_producer : producer;
  be_raised : option nat;          (* the flag, and what it publishes *)
  be_consumers : list consumer;
}.

(** The receivers are there before any thread starts. *)
Definition bench_start (subscribers : nat) : option Bench :=
  readers ← mapM (λ _, weak_subscribe b [] 0 blank) (seq 0 subscribers);
  Some (mkBench (mkWeakRing (mkWriter [] 0) SIdle [] readers) P_Barrier None (replicate subscribers C_Barrier)).

(** [Barrier::wait] lets all through once all have come. *)
Definition barrier_full (s : Bench) : bool :=
  match be_producer s with P_Barrier => false | _ => true end &&
  forallb (λ c, match c with C_Barrier => false | _ => true end) (be_consumers s).

Definition producer_step (now : N) (s : Bench) : exec (option Bench) :=
  out ← producer_next (barrier_full s) now (be_producer s) (be_ring s);
  Ret ('(p, ring, raised) ← out;
       Some (mkBench ring p (match raised with Some n => Some n | None => be_raised s end) (be_consumers s))).

Definition set_reader (k : nat) (r : Reader) (ring : WeakRing (T := JobEvent)) : WeakRing (T := JobEvent) :=
  mkWeakRing (wk_writer ring) (wk_sender ring) (wk_sent ring) (<[k := r]> (wk_readers ring)).

Definition consumer_step (k t : nat) (now : N) (told : bool) (s : Bench) : exec (option Bench) :=
  c ← index (be_consumers s) k;
  r ← index (wk_readers (be_ring s)) k;
  out ← consumer_next (barrier_full s) (wr_history (wk_writer (be_ring s))) (be_raised s) t now told c r;
  Ret ('(c', r') ← out;
       Some (mkBench (set_reader k r' (be_ring s)) (be_producer s) (be_raised s) (<[k := c']> (be_consumers s)))).

Inductive bench_step : Bench → Bench → Prop :=
  | bench_step_producer now s s' : producer_step now s = Ret (Some s') → bench_step s s'
  | bench_step_consumer k t now told s s' : consumer_step k t now told s = Ret (Some s') → bench_step s s'.

(** ** The end of a run *)

(** What the consumer threads return, once all have: histograms and laps. *)
Definition joined (s : Bench) : option (list (H * N)) :=
  mapM (λ cr : consumer * Reader (T := JobEvent),
          match cr.1 with C_Done l => Some (cs_histogram l, rc_laps (rd_receiver cr.2)) | _ => None end)
    (zip (be_consumers s) (wk_readers (be_ring s))).

(** Whether any consumer was lapped, and all histograms merged. *)
Definition merge (handles : list (H * N)) : exec (bool * H) :=
  empty ← unwrap (new_with_bounds 1 HIGHEST 3);
  merged ← foldM (λ merged h, unwrap (hist_add merged h)) empty handles.*1;
  Ret (existsb (λ laps, 0 <? laps) handles.*2, merged).

(** [{:>8}] *)
Definition right_8 (n : N) : string :=
  let s := pretty n in of_chars (replicate (8 - String.length s) " "%char) +:+ s.

(** The lines printed then. *)
Definition report (handles : list (H * N)) : exec (list string) :=
  r ← merge handles;
  let any_lapped : bool := r.1 in let merged : H := r.2 in
  let p99s := value_at_quantile 990 <$> handles.*1 in
  Ret ((if any_lapped then ["*** INVALID RUN: a consumer lapped the ring ***"] else []) ++
       ["samples recorded: " +:+ pretty (hist_len merged);
        "p50:   " +:+ right_8 (value_at_quantile 500 merged) +:+ " ns";
        "p99:   " +:+ right_8 (value_at_quantile 990 merged) +:+ " ns";
        "p99.9: " +:+ right_8 (value_at_quantile 999 merged) +:+ " ns"] ++
       (if (1 <? length handles)%nat then
          ["per-consumer p99 spread: min=" +:+ pretty (foldr N.min (default 0 (head p99s)) p99s) +:+ " ns, max="
             +:+ pretty (foldr N.max 0 p99s) +:+ " ns"]
        else []) ++ [""]).

(** ** What every state of a run satisfies *)

Context `{!HistogramLaws H}.
Hypothesis Hfresh : fresh b.
Hypothesis Htotal : total_events < 2 ^ 62.

(** A thread that saw the flag raised knows of every event, and is not reading
    a slot that was overwritten. *)
Definition informed (raised : option nat) (r : Reader (T := JobEvent)) : Prop :=
  ∃ n, raised = Some n ∧ (n ≤ vw_known (rd_view r))%nat ∧
    (reading r → total_events ≤ rc_pos (rd_receiver r) + capacity b).

(** A receiver that was never lapped has been handed every position so far. *)
Definition caught (r : Reader (T := JobEvent)) : Prop :=
  rc_laps (rd_receiver r) = 0 → (rd_got r).*1 = N.of_nat <$> seq 0 (N.to_nat (rc_pos (rd_receiver r))).

(** The loop's variables after these events. *)
Record tallied (l : Locals) (events : list JobEvent) : Prop := {
  ta_seen : cs_seen l = N.of_nat (length events);
  ta_samples : (cs_samples l).*2 = drop (N.to_nat warmup) events;
  ta_histogram : ∃ empty, new_with_bounds 1 HIGHEST 3 = Some empty ∧ cs_histogram l = tally empty (cs_samples l);
  ta_high : hist_high (cs_histogram l) = HIGHEST;
  ta_len : Forall (λ sample, latency sample ≤ HIGHEST) (cs_samples l) →
    hist_len (cs_histogram l) = N.of_nat (length (cs_samples l));
}.

Definition consumer_ok (raised : option nat) (c : consumer) (r : Reader (T := JobEvent)) : Prop :=
  caught r ∧
  match c with
  | C_Barrier | C_Waiting => rd_pc r = RIdle ∧ rd_got r = []
  | C_Recv draining l => tallied l (rd_got r).*2 ∧ (draining = true → informed raised r)
  | C_Record draining e l =>
      rd_pc r = RIdle ∧ (∃ events, (rd_got r).*2 = events ++ [e] ∧ tallied l events) ∧ (draining = true → informed raised r)
  | C_Check l => rd_pc r = RIdle ∧ tallied l (rd_got r).*2
  | C_Done l => tallied l (rd_got r).*2 ∧ (rc_laps (rd_receiver r) = 0 → rc_pos (rd_receiver r) = total_events)
  end.

Definition producer_ok (p : producer) (ring : WeakRing (T := JobEvent)) (raised : option nat) : Prop :=
  let sent := N.of_nat (length (wk_sent ring)) in
  match p with
  | P_Barrier | P_Waiting => wk_sender ring = SIdle ∧ sent = 0 ∧ raised = None
  | P_Turn i _ => wk_sender ring = SIdle ∧ sent = i ∧ i ≤ total_events ∧ raised = None
  | P_Now i _ => wk_sender ring = SIdle ∧ sent = i ∧ i < total_events ∧ raised = None
  | P_Sending i _ => sent = i + 1 ∧ i < total_events ∧ raised = None
  | P_Done => wk_sender ring = SIdle ∧ sent = total_events ∧ raised = Some (length (wr_history (wk_writer ring)))
  end.

(** Event [i] says so. *)
Definition numbered (sent : list JobEvent) : Prop :=
  ∀ p x, sent !! p = Some x → je_run_seq x = N.of_nat p ∧ je_job_seq x = N.of_nat p.

Record bench_inv (s : Bench) : Prop := {
  bi_weak : weak_inv b (be_ring s);
  bi_numbered : numbered (wk_sent (be_ring s));
  bi_producer : producer_ok (be_producer s) (be_ring s) (be_raised s);
  bi_length : length (be_consumers s) = length (wk_readers (be_ring s));
  bi_consumers : ∀ k c r, be_consumers s !! k = Some c → wk_readers (be_ring s) !! k = Some r →
    consumer_ok (be_raised s) c r;
}.

Lemma producer_sent p ring raised : producer_ok p ring raised → N.of_nat (length (wk_sent ring)) ≤ total_events.
Proof. destruct p; cbn; intros; destruct_and!; lia. Qed.

(** What the flag publishes is all there is. *)
Lemma raised_all s n :
  bench_inv s → be_raised s = Some n →
  N.of_nat (length (wk_sent (be_ring s))) = total_events ∧ n = length (wr_history (wk_writer (be_ring s))) ∧
  length (wr_history (wk_writer (be_ring s))) = (length (wk_sent (be_ring s)) * block (T := JobEvent))%nat.
Proof.
  intros [[_ Hs _] _ Hp _ _] Hr.
  destruct (be_producer s); cbn in Hp; [destruct_and!; congruence..|]. destruct Hp as (Ei & Et & Er).
  rewrite Ei in Hs. destruct Hs. by split_and!; [|congruence|].
Qed.

Lemma tallied_new h : new_with_bounds 1 HIGHEST 3 = Some h → tallied (mkLocals 0 h []) [].
Proof.
  intros Hh. destruct new_law as (h' & Hh' & Hlen & Hhigh). rewrite Hh in Hh'. injection Hh' as <-.
  split; cbn; [done|by rewrite drop_nil|by exists h|done|done].
Qed.

Lemma record_tallied now e l l' events : record now e l = Ret l' → tallied l events → tallied l' (events ++ [e]).
Proof.
  intros (seen & [_ ->]%checked_add_Ret & E)%bind_Ret_inv [Hs Hl (empty & Hnew & Hh) Hhigh Hlen].
  assert (N.of_nat (length (events ++ [e])) = cs_seen l + 1) as Hseen by (rewrite length_app; cbn; lia).
  destruct (N.ltb_spec warmup (cs_seen l + 1)); injection E as <-; (split; cbn; [done | | | |]).
  - rewrite fmap_app, Hl, drop_app_le by lia. done.
  - exists empty. split; [done|]. unfold tally in *. by rewrite foldl_app, <-Hh.
  - destruct (hist_record _ _) as [h|] eqn:Eh; [|done]. apply record_law in Eh as [_ Eh]. cbn. congruence.
  - rewrite Forall_app, Forall_singleton, length_app. intros [Hall Hv]. specialize (Hlen Hall).
    destruct (record_accepts (latency (now, e)) (cs_histogram l)) as [h Eh]; [by rewrite Hhigh|].
    unfold latency in Eh. cbn in Eh. rewrite Eh. cbn. apply record_law in Eh as [-> _]. lia.
  - rewrite Hl, !drop_ge; [done|lia..].
  - by exists empty.
  - done.
  - done.
Qed.

(** ** Every step keeps it *)

Lemma caught_recv history t r r' :
  weak_recv b history t r = Ret (Some r') → caught r → caught r'.
Proof.
  intros E Hc Hl. destruct (weak_recv_effect _ _ _ _ _ E) as [[Er Eg]|[(_ & x & Er & Eg)|(_ & El & _)]]; [| |lia].
  - rewrite Er, Eg in *. by apply Hc.
  - rewrite Er, Eg in *. cbn in *. rewrite fmap_app, Hc by done. cbn.
    replace (N.to_nat (rc_pos (rd_receiver r) + 1)) with (S (N.to_nat (rc_pos (rd_receiver r)))) by lia.
    rewrite seq_S, fmap_app. cbn. by rewrite N2Nat.id.
Qed.

(** What is handed out is what was appended. *)
Lemma handed_out_recv history t r r' :
  weak_recv b history t r = Ret (Some r') →
  match handed_out r r' with
  | None => (rd_got r').*2 = (rd_got r).*2 ∧
      (rc_laps (rd_receiver r') = 0 → rd_receiver r' = rd_receiver r)
  | Some event => rd_pc r' = RIdle ∧ (rd_got r').*2 = (rd_got r).*2 ++ [event]
  end.
Proof.
  intros E. unfold handed_out. destruct (weak_recv_effect _ _ _ _ _ E) as [[Er ->]|[(Ei & x & Er & ->)|(_ & El & ->)]].
  - by rewrite drop_all.
  - rewrite drop_app_length, fmap_app. done.
  - rewrite drop_all. cbn. split; [done|lia].
Qed.

Lemma informed_recv s t k r r' :
  bench_inv s → wk_readers (be_ring s) !! k = Some r → informed (be_raised s) r →
  weak_recv b (wr_history (wk_writer (be_ring s))) t r = Ret (Some r') →
  informed (be_raised s) r' ∧
  (rd_pc r' = RIdle → rd_receiver r' = rd_receiver r → rc_pos (rd_receiver r) = total_events).
Proof.
  intros Hinv Hr (n & Hn & Hk & Hroom) E. destruct (raised_all _ _ Hinv Hn) as (Ht & -> & Hlen).
  destruct (bi_weak _ Hinv) as [Hh _ Hrd]. rewrite <-Ht in *.
  destruct (informed_call b Hfresh _ _ _ _ _ Hh Htotal (Hrd _ _ Hr) ltac:(lia) Hroom E) as [Hroom' Hend].
  split; [|done]. exists (length (wr_history (wk_writer (be_ring s)))). rewrite Ht in *. split_and!; [done | | done].
  apply weak_recv_known in E. lia.
Qed.

Lemma consumer_next_ok s k c r full t now told c' r' :
  bench_inv s → wk_readers (be_ring s) !! k = Some r → consumer_ok (be_raised s) c r →
  consumer_next full (wr_history (wk_writer (be_ring s))) (be_raised s) t now told c r = Ret (Some (c', r')) →
  consumer_ok (be_raised s) c' r'.
Proof.
  intros Hinv Hr [Hc Hok] E. destruct c as [| |draining l|draining e l|l|l]; cbn in E.
  - injection E as <- <-. done.
  - destruct full; [|done]. destruct (new_with_bounds 1 HIGHEST 3) as [h|] eqn:Eh; [|done].
    injection E as <- <-. destruct Hok as [_ Hg]. split; [done|]. rewrite Hg. split; [|done]. by apply tallied_new.
  - apply bind_Ret_inv in E as ([r1|] & E & [= E']). destruct Hok as [Hl Hd].
    assert (r' = r1) as -> by (repeat case_match; congruence).
    pose proof (caught_recv _ _ _ _ E Hc) as Hc1.
    pose proof (handed_out_recv _ _ _ _ E) as Hout. destruct (handed_out r r1) as [event|].
    + destruct Hout as [Hidle Hlen]. rewrite Hidle in E'. injection E' as <-. split; [done|]. split_and!; [done | |].
      * by exists (rd_got r).*2.
      * intros Hd1. by apply (informed_recv _ _ _ _ _ Hinv Hr (Hd Hd1) E).
    + destruct Hout as [Hlen Hsame].
      assert (rd_pc r1 = RIdle → consumer_ok (be_raised s) (if draining then C_Done l else C_Check l) r1) as Hret.
      { intros Hidle. destruct draining; (split; [done|]); rewrite Hlen; [|done]. split; [done|]. intros Hlaps.
        rewrite (Hsame Hlaps). eapply informed_recv; eauto. }
      assert (consumer_ok (be_raised s) (C_Recv draining l) r1) as Hgo.
      { split; [done|]. rewrite Hlen. split; [done|]. intros Hd1. by apply (informed_recv _ _ _ _ _ Hinv Hr (Hd Hd1) E). }
      destruct (rd_pc r1); injection E' as <-; auto.
  - apply bind_Ret_inv in E as (l' & E & [= <- <-]). destruct Hok as (Hidle & (events & Hn & Hl) & Hd).
    split; [done|]. rewrite Hn. split; [by eapply record_tallied | done].
  - destruct Hok as [Hidle Hl]. destruct told; [|by injection E as <- <-].
    destruct (be_raised s) as [n|] eqn:En; [|done]. injection E as <- <-.
    split; [done|]. split; [done|]. intros _. exists n. split; [done|]. split; [cbn; lia|].
    unfold reading. cbn. by rewrite Hidle.
  - done.
Qed.

Lemma producer_next_ok full now p ring raised p' ring' flag :
  numbered (wk_sent ring) → producer_ok p ring raised →
  producer_next full now p ring = Ret (Some (p', ring', flag)) →
  raised = None ∧ wk_readers ring' = wk_readers ring ∧ numbered (wk_sent ring') ∧ producer_ok p' ring' flag ∧
  (ring' = ring ∨ weak_step b ring ring').
Proof.
  destruct ring as [w pc sent readers]. intros Hnum Hp E. destruct p as [| |i next|i next|i next|]; cbn in Hp, E.
  - injection E as <- <- <-. destruct_and!. cbn. split_and!; try done; by left.
  - destruct full; [|done]. destruct (N.eqb_spec rate 0); [done|]. injection E as <- <- <-.
    destruct Hp as (? & ? & ?). cbn. split_and!; try done; try lia; by left.
  - destruct Hp as (? & ? & ? & ?). destruct (N.ltb_spec i total_events).
    + destruct (now <? next); injection E as <- <- <-; (cbn; split_and!; try done; by left).
    + injection E as <- <- <-. cbn. split_and!; try done; try lia; by left.
  - destruct Hp as (-> & <- & Hlt & ?). injection E as <- <- <-. cbn.
    split_and!; try done; [ | rewrite length_app; cbn; lia | by right; constructor].
    intros q x [Hx|[Hq Hx]]%lookup_app_Some; [by apply Hnum|].
    destruct (q - length sent)%nat as [|m] eqn:Em; [|done]. injection Hx as <-. cbn. split; lia.
  - destruct Hp as (Hlen & ? & ?). destruct pc.
    + apply bind_Ret_inv in E as (next' & _ & [= <- <- <-]). cbn.
      cbn. split_and!; try done; try lia; by left.
    + apply bind_Ret_inv in E as ([w1 pc1] & Es & [= <- <- <-]). split_and!; try done. right. by constructor.
    + apply bind_Ret_inv in E as ([w1 pc1] & Es & [= <- <- <-]). split_and!; try done. right. by constructor.
    + apply bind_Ret_inv in E as ([w1 pc1] & Es & [= <- <- <-]). split_and!; try done. right. by constructor.
  - done.
Qed.

Lemma consumer_ok_raised raised raised' c r :
  raised = None → consumer_ok raised c r → consumer_ok raised' c r.
Proof.
  intros -> [Hc Hok]. split; [done|]. assert (informed None r → informed raised' r) by (intros (? & ? & _); done).
  destruct c; try done; cbn in *; naive_solver.
Qed.

(** The ring takes at most one step of its own. *)
Lemma weak_inv_next ring ring' :
  weak_inv b ring → N.of_nat (length (wk_sent ring')) ≤ total_events →
  ring' = ring ∨ weak_step b ring ring' → weak_inv b ring'.
Proof. intros Hw Hle [->|Hs]; [done|]. apply (weak_step_inv b Hfresh _ _ Hs); [lia | done]. Qed.

Lemma consumer_next_weak w pc sent readers raised k c r full t now told c' r' :
  readers !! k = Some r → (∀ n, raised = Some n → n = length (wr_history w)) →
  consumer_next full (wr_history w) raised t now told c r = Ret (Some (c', r')) →
  let ring := mkWeakRing w pc sent readers in
  set_reader k r' ring = ring ∨ weak_step b ring (set_reader k r' ring).
Proof.
  intros Hr Hn E. cbn. unfold set_reader. cbn.
  assert (r' = r → mkWeakRing w pc sent (<[k:=r']> readers) = mkWeakRing w pc sent readers) as Hid.
  { intros ->. by rewrite list_insert_id. }
  destruct c as [| |draining l|draining e l|l|l]; cbn in E.
  - injection E as _ <-. auto.
  - destruct full; [|done]. destruct (new_with_bounds 1 HIGHEST 3); [|done]. injection E as _ <-. auto.
  - apply bind_Ret_inv in E as ([r1|] & E & [= E']).
    assert (r' = r1) as -> by (repeat case_match; congruence). right. by eapply weak_step_recv.
  - apply bind_Ret_inv in E as (l' & _ & [= _ <-]). auto.
  - destruct told; [|injection E as _ <-; auto]. destruct raised as [n|]; [|done]. injection E as _ <-. right.
    rewrite (Hn n eq_refl). by constructor.
  - done.
Qed.

Lemma bench_step_inv s s' : bench_step s s' → bench_inv s → bench_inv s'.
Proof.
  intros Hstep Hinv. pose proof Hinv as [Hw Hnum Hp Hlen Hc]. destruct Hstep as [now s s' E|k t now told s s' E].
  - apply bind_Ret_inv in E as ([[[p ring] flag]|] & E & [= <-]).
    destruct (producer_next_ok _ _ _ _ _ _ _ _ Hnum Hp E) as (Er & Erd & Hnum' & Hp' & Hstep).
    rewrite Er in *. assert (match flag with Some n => Some n | None => None end = flag) as Ef by by destruct flag.
    split; cbn; rewrite ?Ef, ?Erd; [|done..|].
    + eapply weak_inv_next; [done | by eapply producer_sent | done].
    + intros j c r Hj Hr. apply (consumer_ok_raised None); [done|]. by eapply Hc.
  - apply bind_Ret_inv in E as (c & Hk%index_Ret & E). apply bind_Ret_inv in E as (r & Hr%index_Ret & E).
    apply bind_Ret_inv in E as ([[c' r']|] & E & [= <-]).
    pose proof (consumer_next_ok _ _ _ _ _ _ _ _ _ _ Hinv Hr (Hc _ _ _ Hk Hr) E) as Hok.
    split; cbn; rewrite ?length_insert; [ | done | by destruct (be_producer s) | done |].
    + eapply weak_inv_next; [done | by eapply producer_sent|]. destruct (be_ring s) as [w pc sent readers] eqn:Ering.
      eapply consumer_next_weak; [done | | done]. intros n Hn.
      destruct (raised_all _ _ Hinv Hn) as (_ & -> & _). by rewrite Ering.
    + intros j d q Hj Hq. apply list_lookup_insert_Some in Hj as [(-> & <- & _)|[Hne Hj]].
      * apply list_lookup_insert_Some in Hq as [(_ & <- & _)|[? _]]; [done|congruence].
      * rewrite list_lookup_insert_ne in Hq by done. by eapply Hc.
Qed.

Lemma bench_start_inv n s : bench_start n = Some s → bench_inv s.
Proof.
  unfold bench_start. destruct (mapM _ _) as [readers|] eqn:E; [|done]. intros [= <-].
  apply mapM_Some_1 in E. pose proof (Forall2_length _ _ _ E) as Hlen. rewrite length_seq in Hlen.
  assert (∀ k r, readers !! k = Some r → weak_subscribe b [] 0 blank = Some r) as Hr.
  { intros k r Hk. by destruct (Forall2_lookup_r _ _ _ _ _ E Hk) as (? & _ & ?). }
  split; cbn; [ | done | done | by rewrite length_replicate |].
  - split; cbn; [by intros | by split |]. intros k c Hk. eapply subscribe_ok; [done | by intros ? ? ? | by eapply Hr].
  - intros k c r Hk Hkr. apply Hr in Hkr. injection Hkr as <-. apply lookup_replicate in Hk as [-> _].
    split; [|done]. intros _. cbn. by rewrite (fr_producer _ Hfresh).
Qed.

Lemma bench_rtc_inv s s' : rtc bench_step s s' → bench_inv s → bench_inv s'.
Proof. induction 1 as [|? ? ? Hs _ IH]; [done|]. intros. by eapply IH, bench_step_inv. Qed.

(** ** The verdict *)

(** The consumers of a run whose threads have all ended. *)
Lemma joined_inv s handles :
  bench_inv s → joined s = Some handles →
  length handles = length (wk_readers (be_ring s)) ∧
  ∀ k r, wk_readers (be_ring s) !! k = Some r → ∃ l,
    be_consumers s !! k = Some (C_Done l) ∧ handles !! k = Some (cs_histogram l, rc_laps (rd_receiver r)) ∧
    consumer_ok (be_raised s) (C_Done l) r.
Proof.
  intros Hinv Hj%mapM_Some_1. pose proof (Forall2_length _ _ _ Hj) as Hlen.
  rewrite length_zip_with, (bi_length _ Hinv), Nat.min_id in Hlen. split; [done|]. intros k r Hr.
  destruct (lookup_lt_is_Some_2 (be_consumers s) k) as [c Hc].
  { rewrite (bi_length _ Hinv). by eapply lookup_lt_Some. }
  destruct (Forall2_lookup_l _ _ _ k (c, r) Hj) as (hl & Hh & E).
  { apply lookup_zip_with_Some. by exists c, r. }
  cbn in E. destruct c as [| | | | |l]; try done. injection E as <-. exists l. split; [done|]. split; [done|].
  by eapply bi_consumers.
Qed.

(** A receiver never lapped that has come to the end was handed everything. *)
Lemma caught_all s k r :
  bench_inv s → wk_readers (be_ring s) !! k = Some r → caught r → rc_laps (rd_receiver r) = 0 →
  rc_pos (rd_receiver r) = total_events →
  N.of_nat (length (wk_sent (be_ring s))) = total_events ∧ (rd_got r).*2 = wk_sent (be_ring s).
Proof.
  intros Hinv Hr Hc Hl Hpos. specialize (Hc Hl).
  destruct (bi_weak _ Hinv) as [_ _ Hrd]. destruct (Hrd _ _ Hr) as [Hle _ _ _ Hgot _].
  pose proof (producer_sent _ _ _ (bi_producer _ Hinv)) as Hsent. split; [lia|].
  assert (length (rd_got r) = length (wk_sent (be_ring s))) as Hlen.
  { apply (f_equal length) in Hc. rewrite !length_fmap, length_seq in Hc. lia. }
  apply (list_eq_same_length _ _ (length (wk_sent (be_ring s)))); [done | by rewrite length_fmap|].
  intros i x y Hi Hx Hy. apply list_lookup_fmap_Some in Hx as ([p x'] & -> & Hp). cbn.
  assert (p = N.of_nat i) as ->.
  { pose proof (f_equal (λ l, l !! i) Hc) as E. cbn in E. rewrite list_lookup_fmap, Hp, list_lookup_fmap in E.
    rewrite lookup_seq_lt in E by lia. by injection E. }
  destruct (Hgot (N.of_nat i) x') as [Hx' _]; [by eapply list_elem_of_lookup_2|]. rewrite Nat2N.id in Hx'. congruence.
Qed.

Lemma unlapped_measured s k r l :
  bench_inv s → wk_readers (be_ring s) !! k = Some r → consumer_ok (be_raised s) (C_Done l) r →
  rc_laps (rd_receiver r) = 0 →
  N.of_nat (length (wk_sent (be_ring s))) = warmup + measured ∧ (rd_got r).*2 = wk_sent (be_ring s) ∧
  measures l (wk_sent (be_ring s)).
Proof.
  intros Hinv Hr (Hc & [_ Hsamples Hhist _ _] & Hend) Hlaps.
  destruct (caught_all s k r Hinv Hr Hc Hlaps (Hend Hlaps)) as [Hsent Hgot]. rewrite Hgot in Hsamples.
  split_and!; [done | done |]. split_and!; [|done|done].
  rewrite <-(length_fmap snd (cs_samples l)), Hsamples, length_drop. unfold total_events in Hsent. lia.
Qed.

(** ** A drain comes to its end *)

#[local] Arguments WORDS : simpl never.

Definition draining (c : consumer) : bool :=
  match c with C_Recv d _ | C_Record d _ _ => d | _ => false end.

(** How many steps of its own it may still take. *)
Definition remaining (c : consumer) (r : Reader (T := JobEvent)) : nat :=
  let per_event := (WORDS (T := JobEvent) + 5)%nat in
  let events := N.to_nat (total_events - rc_pos (rd_receiver r)) in
  match c with
  | C_Recv _ _ =>
      events * per_event + match rd_pc r with RLapped => 1 | _ => WORDS (T := JobEvent) + 4 - accesses r end
  | C_Record _ _ _ => events * per_event + per_event
  | _ => 0
  end.

(** An access of a call that goes on. *)
Lemma weak_recv_goes_on sent history t r r' :
  reader_ok b sent history r → weak_recv b history t r = Ret (Some r') → rd_pc r' ≠ RIdle →
  rd_receiver r' = rd_receiver r ∧ rd_pc r ≠ RLapped ∧
  (rd_pc r' = RLapped ∨ accesses r' = S (accesses r)) ∧ (accesses r' ≤ WORDS + 2)%nat.
Proof.
  intros Hok E Hbusy. pose proof (ro_pc _ _ _ _ Hok) as Hpc.
  assert (rd_receiver r' = rd_receiver r) as Er
    by (by destruct (weak_recv_effect _ _ _ _ _ E) as [[Er _]|[[? _]|[? _]]]).
  split; [done|]. clear Er Hok. destruct r as [[pos laps] pc view got]. unfold weak_recv in E.
  destruct pc as [|v1 i staged|v1 staged|]; cbn [rd_receiver rd_pc rd_view rc_pos rc_laps] in *.
  - apply bind_Ret_inv in E as (want & _ & (l & _ & E)%bind_Ret_inv).
    destruct (load_acquire _ _ _ _ _) as [[v view']|]; [|done]. unfold accesses.
    destruct (v <? want); [|destruct (want <? v)]; injection E as <-; cbn in *; try done; (split_and!; [done | auto | lia]).
  - destruct Hpc as (_ & Hi & _). unfold accesses. destruct (Nat.ltb_spec i (WORDS (T := JobEvent))).
    + apply bind_Ret_inv in E as (l & _ & E). destruct (load_relaxed _ _ _ _ _) as [[v view']|]; [|done].
      apply bind_Ret_inv in E as (staged' & _ & [= <-]). cbn in *. split_and!; [done | auto | lia].
    + injection E as <-. cbn in *. split_and!; [done | right; lia | lia].
  - exfalso. apply bind_Ret_inv in E as (l & _ & E). destruct (load_relaxed _ _ _ _ _) as [[v view']|]; [|done].
    case_decide; [apply bind_Ret_inv in E as (pos' & _ & [= <-])|injection E as <-]; done.
  - exfalso. apply bind_Ret_inv in E as (laps' & _ & E).
    destruct (load_relaxed _ _ _ _ _) as [[v view']|]; [|done]. injection E as <-. done.
Qed.

Lemma drain_decreases s k c r full t now told c' r' :
  bench_inv s → wk_readers (be_ring s) !! k = Some r → consumer_ok (be_raised s) c r → draining c = true →
  consumer_next full (wr_history (wk_writer (be_ring s))) (be_raised s) t now told c r = Ret (Some (c', r')) →
  (draining c' = true ∨ ∃ l, c' = C_Done l) ∧ (remaining c' r' < remaining c r)%nat.
Proof.
  intros Hinv Hr [Hc Hok] Hd E. pose proof (bi_weak _ Hinv) as [Hh _ Hrd]. pose proof (Hrd _ _ Hr) as Hrok.
  destruct c as [| |d l|d e l|l|l]; try done; cbn in Hd, E; subst d.
  - apply bind_Ret_inv in E as ([r1|] & E & [= E']).
    assert (r' = r1) as -> by (repeat case_match; congruence).
    assert (accesses r ≤ WORDS (T := JobEvent) + 2)%nat as Hacc.
    { pose proof (ro_pc _ _ _ _ Hrok) as Hpc. unfold accesses. destruct (rd_pc r); [lia | destruct Hpc as (_ & ? & _); lia | lia | lia]. }
    pose proof (handed_out_recv _ _ _ _ E) as Hout. destruct (handed_out r r1) as [event|] eqn:Eout.
    + destruct Hout as [Hidle Hlen]. rewrite Hidle in E'. injection E' as <-. split; [by left|].
      apply (f_equal length) in Hlen. rewrite length_app, !length_fmap in Hlen. cbn in Hlen.
      destruct (weak_recv_effect _ _ _ _ _ E) as [[_ Eg]|[(_ & x & Er & _)|(_ & _ & Eg)]];
        [rewrite Eg in Hlen; lia | | rewrite Eg in Hlen; lia].
      assert (rc_pos (rd_receiver r) < total_events) as Hpos.
      { destruct (weak_recv_inv b Hfresh _ _ _ t Hh (N.le_lt_trans _ _ _ (producer_sent _ _ _ (bi_producer _ Hinv)) Htotal) Hrok)
          as (oc & E1 & Hok1). rewrite E in E1. injection E1 as <-.
        pose proof (ro_pos _ _ _ _ (Hok1 _ eq_refl)) as Hle. rewrite Er in Hle. cbn in Hle.
        pose proof (producer_sent _ _ _ (bi_producer _ Hinv)). lia. }
      unfold remaining. rewrite Er. cbn [rc_pos].
      replace (N.to_nat (total_events - rc_pos (rd_receiver r)))
        with (S (N.to_nat (total_events - (rc_pos (rd_receiver r) + 1)))) by lia.
      rewrite Nat.mul_succ_l. destruct (rd_pc r) eqn:Epc; try lia.
    + assert (rd_pc r1 = RIdle ∨ rd_pc r1 ≠ RIdle) as [Hidle|Hbusy] by (destruct (rd_pc r1); auto).
      * rewrite Hidle in E'. injection E' as <-. split; [right; by eexists|]. cbn [remaining]. apply Nat.add_pos_r. destruct (rd_pc r); lia.
      * destruct (weak_recv_goes_on _ _ _ _ _ Hrok E Hbusy) as (Er & Hnl & Hnext & Hle).
        assert (c' = C_Recv true l) as -> by (destruct (rd_pc r1); congruence). split; [by left|].
        unfold remaining. rewrite Er. destruct Hnext as [Hl|Ha].
        -- rewrite Hl. destruct (rd_pc r); [lia..|done].
        -- rewrite Ha in *. destruct (rd_pc r), (rd_pc r1); try done; lia.
  - apply bind_Ret_inv in E as (l' & _ & [= <- <-]). destruct Hok as (Hidle & _). split; [by left|].
    unfold remaining, accesses. rewrite Hidle. lia.
Qed.

(** A receiver is handed no more events than there are. *)
Lemma got_bound s k r :
  bench_inv s → wk_readers (be_ring s) !! k = Some r → N.of_nat (length (rd_got r)) ≤ total_events.
Proof.
  intros Hinv Hr. destruct (bi_weak _ Hinv) as [_ _ Hrd]. destruct (Hrd _ _ Hr) as [Hpos _ _ _ Hgot Hord].
  pose proof (producer_sent _ _ _ (bi_producer _ Hinv)).
  enough (∀ (l : list N) n, StronglySorted N.lt l → (∀ p, p ∈ l → p < n) → N.of_nat (length l) ≤ n) as Hl.
  { rewrite <-(length_fmap fst). etrans; [apply (Hl _ (rc_pos (rd_receiver r)) Hord)|lia].
    intros p ([p' x] & -> & Hin)%list_elem_of_fmap. by eapply Hgot. }
  clear. intros l. induction l as [|p l IH] using rev_ind; intros n Hs Hn; [cbn; lia|].
  rewrite length_app. cbn. assert (p < n) by (apply Hn, elem_of_app; right; left).
  apply StronglySorted_app in Hs as (Hlt & Hs & _).
  specialize (IH p Hs). rewrite Nat.add_1_r. enough (N.of_nat (length l) ≤ p) by lia. apply IH.
  intros q Hq. apply Hlt; [done | by left].
Qed.

(** And there is always a next one. *)
Lemma drain_ready s k c r full :
  bench_inv s → wk_readers (be_ring s) !! k = Some r → consumer_ok (be_raised s) c r → draining c = true →
  ∃ t now told c' r',
    consumer_next full (wr_history (wk_writer (be_ring s))) (be_raised s) t now told c r = Ret (Some (c', r')).
Proof.
  intros Hinv Hr [Hc Hok] Hd. pose proof (bi_weak _ Hinv) as [Hh _ Hrd]. pose proof (Hrd _ _ Hr) as Hrok.
  pose proof (producer_sent _ _ _ (bi_producer _ Hinv)) as Hsent.
  destruct c as [| |d l|d e l|l|l]; try done; cbn in Hd; subst d.
  - destruct (weak_recv_ready b Hfresh _ _ _ Hh (N.le_lt_trans _ _ _ Hsent Htotal) Hrok) as (t & r' & E).
    exists t, 0, false. cbn. rewrite E. cbn. repeat case_match; eauto.
  - destruct Hok as (_ & (events & Hn & [Hseen _ _ _ _]) & _). exists 0%nat, 0, false. cbn. unfold record.
    rewrite Hseen. unfold checked_add, u64_max.
    pose proof (got_bound _ _ _ Hinv Hr). apply (f_equal length) in Hn. rewrite length_app, length_fmap in Hn. cbn in Hn.
    rewrite decide_True by lia. cbn. destruct (_ <? _); cbn; eauto.
Qed.

Lemma drain_step s k c r :
  bench_inv s → be_consumers s !! k = Some c → wk_readers (be_ring s) !! k = Some r → draining c = true →
  (∃ t now told s', consumer_step k t now told s = Ret (Some s')) ∧
  ∀ t now told s', consumer_step k t now told s = Ret (Some s') →
    ∃ c' r', be_consumers s' !! k = Some c' ∧ wk_readers (be_ring s') !! k = Some r' ∧
      (draining c' = true ∨ ∃ l, c' = C_Done l) ∧ (remaining c' r' < remaining c r)%nat.
Proof.
  intros Hinv Hk Hr Hd. pose proof (bi_consumers _ Hinv _ _ _ Hk Hr) as Hok. unfold consumer_step.
  rewrite (index_Some _ _ _ Hk), (index_Some _ _ _ Hr). cbn [mbind exec_bind]. split.
  - destruct (drain_ready s k c r (barrier_full s) Hinv Hr Hok Hd) as (t & now & told & c' & r' & E).
    exists t, now, told. rewrite E. by eexists.
  - intros t now told s' E. apply bind_Ret_inv in E as ([[c' r']|] & E & [= <-]). cbn.
    exists c', r'. rewrite !list_lookup_insert_eq by (by eapply lookup_lt_Some).
    split; [done|]. split; [done|]. by eapply drain_decreases.
Qed.

Lemma merge_high handles :
  (∀ h, h ∈ handles.*1 → hist_high h = HIGHEST) →
  ∃ merged, merge handles = Ret (existsb (λ laps, 0 <? laps) handles.*2, merged) ∧
    hist_len merged = foldr (λ h n, hist_len h + n) 0 handles.*1.
Proof.
  intros Hall. unfold merge. destruct new_law as (empty & -> & Hzero & Hhigh). cbn [unwrap mbind exec_bind].
  enough (∀ (l : list H) acc, (∀ h, h ∈ l → hist_high h = HIGHEST) → hist_high acc = HIGHEST →
    ∃ merged, foldM (λ merged h, unwrap (hist_add merged h)) acc l = Ret merged ∧
      hist_len merged = hist_len acc + foldr (λ h n, hist_len h + n) 0 l) as Hfold.
  { destruct (Hfold _ _ Hall Hhigh) as (merged & -> & Hm). cbn. exists merged. by rewrite Hm, Hzero. }
  clear Hall Hhigh. induction l as [|h l IH]; intros acc Hl Hacc; cbn; [exists acc; split; [done|lia]|].
  destruct (add_law acc h) as (acc' & -> & Hlen & Hhigh); [rewrite Hacc, Hl; [done|left]|]. cbn.
  destruct (IH acc') as (merged & -> & Hm); [intros; apply Hl; by right | congruence|].
  exists merged. split; [done|lia].
Qed.

(** When all have ended without a lap, so the threads' results say. *)
Lemma verdict s handles :
  bench_inv s → joined s = Some handles →
  ∃ any_lapped merged, merge handles = Ret (any_lapped, merged) ∧
    (any_lapped = false →
       (∀ k r l, wk_readers (be_ring s) !! k = Some r → be_consumers s !! k = Some (C_Done l) →
          N.of_nat (length (wk_sent (be_ring s))) = warmup + measured ∧ (rd_got r).*2 = wk_sent (be_ring s) ∧
          measures l (wk_sent (be_ring s))) ∧
       ((∀ k l, be_consumers s !! k = Some (C_Done l) → Forall (λ sample, latency sample ≤ HIGHEST) (cs_samples l)) →
          hist_len merged = N.of_nat (length (be_consumers s)) * measured)).
Proof.
  intros Hinv Hj. destruct (joined_inv _ _ Hinv Hj) as [Hlen Hdone].
  assert (∀ k hl, handles !! k = Some hl → ∃ r l, wk_readers (be_ring s) !! k = Some r ∧
    be_consumers s !! k = Some (C_Done l) ∧ hl = (cs_histogram l, rc_laps (rd_receiver r)) ∧
    consumer_ok (be_raised s) (C_Done l) r) as Hhandle.
  { intros k hl Hk. destruct (lookup_lt_is_Some_2 (wk_readers (be_ring s)) k) as [r Hr'].
    { rewrite <-Hlen. by eapply lookup_lt_Some. }
    destruct (Hdone k r Hr') as (l & Hl & Hhl & Hok). exists r, l. split_and!; [done | done | congruence | done]. }
  destruct (merge_high handles) as (merged & Hm & Hsum).
  { intros h ([h' laps] & -> & [k Hk]%list_elem_of_lookup)%list_elem_of_fmap.
    destruct (Hhandle _ _ Hk) as (r & l & _ & _ & [= -> _] & _ & Hl & _). apply Hl. }
  eexists _, merged. split; [exact Hm|]. intros Hlaps.
  assert (∀ k r l, wk_readers (be_ring s) !! k = Some r → be_consumers s !! k = Some (C_Done l) →
    N.of_nat (length (wk_sent (be_ring s))) = warmup + measured ∧ (rd_got r).*2 = wk_sent (be_ring s) ∧
    measures l (wk_sent (be_ring s))) as Hall.
  { intros k r l Hkr Hkl. destruct (Hdone k r Hkr) as (l' & Hl' & Hhl & Hok).
    rewrite Hkl in Hl'. injection Hl' as <-. apply (unlapped_measured s k); [done..|]. by eapply no_laps. }
  split; [exact Hall|]. intros Hfit. rewrite Hsum, (foldr_const _ _ measured).
  - by rewrite length_fmap, Hlen, <-(bi_length _ Hinv).
  - intros h ([h' laps] & -> & [k Hk]%list_elem_of_lookup)%list_elem_of_fmap.
    destruct (Hhandle _ _ Hk) as (r & l & Hkr & Hkl & [= -> _] & _ & Hl & _). cbn.
    destruct (Hall _ _ _ Hkr Hkl) as (_ & _ & <- & _). apply (ta_len _ _ Hl). by eapply Hfit.
Qed.
End bench.

Arguments bench_step {H _} b warmup measured rate _ _.

(** [run_config] until its threads wait at the barrier. *)
Definition run_start {H} `{Histogram H} (config : RunConfig) : exec (option (Bench (H := H))) :=
  b ← channel (T := JobEvent) CHANNEL_CAPACITY; Ret (bench_start b (subscriber_count config)).

Lemma bench_step_length {H} `{Histogram H} b warmup measured rate s s' :
  bench_step (H := H) b warmup measured rate s s' → length (be_consumers s') = length (be_consumers s).
Proof.
  intros [now ? ? E|k t now told ? ? E].
  - by apply bind_Ret_inv in E as ([[[p ring] flag]|] & _ & [= <-]).
  - apply bind_Ret_inv in E as (c & _ & E). apply bind_Ret_inv in E as (r & _ & E).
    apply bind_Ret_inv in E as ([[c' r']|] & _ & [= <-]). cbn. by rewrite length_insert.
Qed.

Lemma bench_rtc_length {H} `{Histogram H} b warmup measured rate s s' :
  rtc (bench_step (H := H) b warmup measured rate) s s' → length (be_consumers s') = length (be_consumers s).
Proof. induction 1 as [|? ? ? Hs _ IH]; [done|]. by rewrite IH, (bench_step_length _ _ _ _ _ _ Hs). Qed.

(** C40: a benchmark run that is not reported invalid measured what it says,
    however its threads were scheduled, whatever the clock said and whatever
    stale values the memory let them read.  A consumer that saw the producer's
    flag can always go on and comes to its end, each of its steps leaving fewer
    than the one before; once all have ended the merge does not fail; and if no
    consumer counted a lap, every consumer was handed every event in the order
    sent, its histogram holds, for each event after the warmup and no other, the
    time its own clock then gave less the event's timestamp (0 if that is
    later), and the number of samples printed is theirs together (when none took
    longer than the histogram's ten seconds). *)
Theorem valid_run_measures_all {H} `{HistogramLaws H} capacity b subscribers warmup measured rate s0 s :
  channel capacity = Ret b → bench_start b subscribers = Some s0 → warmup + measured < 2 ^ 62 →
  rtc (bench_step (H := H) b warmup measured rate) s0 s →
  (∀ k c r, be_consumers s !! k = Some c → wk_readers (be_ring s) !! k = Some r → draining c = true →
     (∃ t now told s', consumer_step b warmup k t now told s = Ret (Some s')) ∧
     ∀ t now told s', consumer_step b warmup k t now told s = Ret (Some s') →
       ∃ c' r', be_consumers s' !! k = Some c' ∧ wk_readers (be_ring s') !! k = Some r' ∧
         (draining c' = true ∨ ∃ l, c' = C_Done l) ∧
         (remaining warmup measured c' r' < remaining warmup measured c r)%nat) ∧
  ∀ handles, joined s = Some handles →
  ∃ any_lapped merged, merge handles = Ret (any_lapped, merged) ∧
    (any_lapped = false →
       (∀ k r l, wk_readers (be_ring s) !! k = Some r → be_consumers s !! k = Some (C_Done l) →
          N.of_nat (length (wk_sent (be_ring s))) = warmup + measured ∧ (rd_got r).*2 = wk_sent (be_ring s) ∧
          measures warmup measured l (wk_sent (be_ring s))) ∧
       ((∀ k l, be_consumers s !! k = Some (C_Done l) → Forall (λ sample, latency sample ≤ HIGHEST) (cs_samples l)) →
          hist_len merged = N.of_nat subscribers * measured)).
Proof.
  intros Hc Hstart Htotal Hr. pose proof (channel_fresh _ _ Hc) as Hb.
  pose proof (bench_start_inv b warmup measured Hb _ _ Hstart) as Hinv.
  eapply (bench_rtc_inv b warmup measured rate Hb Htotal) in Hinv; [|exact Hr].
  assert (length (be_consumers s) = subscribers) as <-.
  { rewrite (bench_rtc_length _ _ _ _ _ _ Hr). unfold bench_start in Hstart.
    destruct (mapM _ _); [|done]. injection Hstart as <-. apply length_replicate. }
  split; [intros k c r; by eapply drain_step | intros handles; by eapply verdict].
Qed.

(** ** The configurations *)

(** The counts are capped both ways, and offered loads of fewer than 2^60
    events a second do not overflow. *)
Lemma samples_fit rate :
  rate < 2 ^ 60 →
  ∃ w m, samples_for_rate rate = Ret (w, m) ∧ 100 ≤ w ≤ WARMUP_CAP ∧ 1000 ≤ m ≤ MEASURED_CAP ∧ w + m < 2 ^ 62.
Proof.
  intros Hr. unfold samples_for_rate, checked_mul, TARGET_SECONDS, u64_max, WARMUP_CAP, MEASURED_CAP.
  rewrite decide_True by lia. cbn [mbind exec_bind]. eexists _, _. split; [done|]. lia.
Qed.

(** The sweep goes up, from one subscriber to one for each core but the
    producer's. *)
Lemma sweep_ascends cores :
  StronglySorted lt (sweep cores) ∧ head (sweep cores) = Some 1%nat ∧ last (sweep cores) = Some (sweep_cap cores).
Proof.
  unfold sweep. assert (1 ≤ sweep_cap cores)%nat as Hcap by (unfold sweep_cap; lia).
  generalize dependent (sweep_cap cores). intros cap Hcap. rewrite !filter_cons, filter_nil.
  repeat case_decide; cbn in *; try lia; simplify_eq; repeat (case_decide; try lia; cbn);
    (split; [repeat first [lia | apply SSorted_nil | apply SSorted_cons | apply List.Forall_nil | apply List.Forall_cons]
            | split; congruence]).
Qed.

(** Every configuration has a subscriber, a rate that divides a second, and
    counts. *)
Lemma configs_runnable cores config :
  config ∈ configs cores → (0 < subscriber_count config)%nat ∧ 0 < rate_per_sec config < 2 ^ 60.
Proof.
  unfold configs. rewrite !elem_of_app, !elem_of_cons, elem_of_nil, list_elem_of_fmap.
  intros [[->|[->|[]]]|[(n & -> & [_ Hn]%list_elem_of_filter)|[->|[]]]]; cbn; try lia.
  split; [|lia]. destruct (sweep_ascends (cores `max` 1)) as (Hs & Hh & _).
  destruct (sweep (cores `max` 1)) as [|x l]; [done|]. injection Hh as ->.
  apply StronglySorted_cons in Hs as [Hs _]. apply elem_of_cons in Hn as [->|Hn]; [lia|].
  rewrite Forall_forall in Hs. specialize (Hs _ Hn). lia.
Qed.

(** Every configuration starts, and its counts are those the theorem asks for. *)
Lemma run_starts {H} `{Histogram H} cores config :
  config ∈ configs cores →
  (∃ s, run_start (H := H) config = Ret (Some s)) ∧ (∃ lines, heading config = Ret lines) ∧
  ∃ w m, samples_for_rate (rate_per_sec config) = Ret (w, m) ∧ w + m < 2 ^ 62.
Proof.
  intros [_ Hrate]%configs_runnable. destruct (samples_fit (rate_per_sec config)) as (w & m & E & _ & _ & Hsum); [lia|].
  split; [|split; [|by exists w, m]].
  - unfold run_start. destruct (channel CHANNEL_CAPACITY) as [b|] eqn:Ec; [|done]. cbn [mbind exec_bind].
    unfold bench_start. assert (∀ l : list nat, is_Some (mapM (λ _, weak_subscribe (T := JobEvent) b [] 0 blank) l)) as Hm.
    { intros l. apply mapM_is_Some, Forall_forall. intros. by eexists. }
    destruct (Hm (seq 0 (subscriber_count config))) as [readers ->]. by eexists.
  - unfold heading. rewrite E. cbn [mbind exec_bind fst snd]. unfold checked_add, u64_max.
    rewrite decide_True by lia. by eexists.
Qed.

Example sweep_on_eight_cores : sweep 8 = [1; 2; 4; 7]%nat.
Proof. reflexivity. Qed.
Example sweep_on_six_cores : sweep 6 = [1; 2; 4; 5]%nat.
Proof. reflexivity. Qed.

(** ** A run *)

(** A histogram that keeps its values. *)
Record values := mkValues { va_high : N; va_list : list N }.

#[export] Instance values_histogram : Histogram values := {|
  new_with_bounds := λ _ high _, Some (mkValues high []);
  hist_record := λ v h, if decide (v ≤ va_high h) then Some (mkValues (va_high h) (va_list h ++ [v])) else None;
  hist_add := λ h1 h2, if decide (va_high h2 ≤ va_high h1) then Some (mkValues (va_high h1) (va_list h1 ++ va_list h2)) else None;
  hist_len := λ h, N.of_nat (length (va_list h));
  hist_high := va_high;
  value_at_quantile := λ q h,
    default 0 (merge_sort N.le (va_list h) !! Nat.pred (N.to_nat (N.of_nat (length (va_list h)) * q `div` 1000)));
|}.

#[export] Instance values_laws : HistogramLaws values.
Proof.
  split; cbn.
  - by eexists.
  - intros v h Hv. rewrite decide_True by done. by eexists.
  - intros v h h'. case_decide; [|done]. intros [= <-]. cbn. rewrite length_app. cbn. split; [lia|done].
  - intros h1 h2 Hle. rewrite decide_True by done. eexists. split; [done|]. cbn. rewrite length_app. split; [lia|done].
Qed.

Inductive bench_action :=
  | BProducer (now : N)
  | BConsumer (k t : nat) (now : N) (told : bool).

Section schedule.
Variable b : RingBuffer.
Variables warmup measured rate : N.

Definition bench_act (s : Bench (H := values)) (a : bench_action) : option (Bench (H := values)) :=
  match match a with
        | BProducer now => producer_step b warmup measured rate now s
        | BConsumer k t now told => consumer_step b warmup k t now told s
        end with
  | Ret (Some s') => Some s'
  | _ => None
  end.

Fixpoint bench_acts (l : list bench_action) (s : Bench (H := values)) : option (Bench (H := values)) :=
  match l with [] => Some s | a :: l => s' ← bench_act s a; bench_acts l s' end.

Lemma bench_acts_rtc l s s' : bench_acts l s = Some s' → rtc (bench_step b warmup measured rate) s s'.
Proof.
  revert s. induction l as [|a l IH]; cbn; intros s; [by intros [= ->]|].
  destruct (bench_act s a) as [s1|] eqn:E; [|done]. intros Hr%IH. eapply rtc_l; [|exact Hr].
  unfold bench_act in E. destruct a as [now|k t now told].
  - destruct (producer_step _ _ _ _ _ _) as [[s2|]|] eqn:Es; [|done..]. injection E as <-. by econstructor.
  - destruct (consumer_step _ _ _ _ _ _ _) as [[s2|]|] eqn:Es; [|done..]. injection E as <-. by eapply bench_step_consumer.
Qed.
End schedule.

(** Two events through two slots, the first not measured; the consumer checks
    the flag too early once, and its latency is 7 ns. *)
Definition demo_send (now : N) : list bench_action := replicate 10 (BProducer now).
Definition demo_receive (times : list nat) (now : N) : list bench_action :=
  ((λ t, BConsumer 0 t now false) <$> times) ++ [BConsumer 0 0 now false].

Definition demo_bench_run : list bench_action :=
  [BProducer 0; BConsumer 0 0 0 false; BProducer 5; BConsumer 0 0 0 false] ++
  [BConsumer 0 0 0 false; BConsumer 0 0 0 false] ++
  demo_send 10 ++ demo_receive [7; 3; 4; 5; 6; 0; 7]%nat 12 ++
  demo_send 1000000010 ++ [BProducer 1000000011] ++
  [BConsumer 0 0 0 false; BConsumer 0 0 0 true] ++
  demo_receive [14; 10; 11; 12; 13; 0; 14]%nat 1000000017 ++ [BConsumer 0 7 0 false].

Definition demo_bench_start : Bench (H := values) :=
  default (mkBench weak_start P_Barrier None []) (bench_start demo_pair 1).

Definition demo_bench_end : Bench (H := values) :=
  default demo_bench_start (bench_acts demo_pair 1 1 1 demo_bench_run demo_bench_start).

Lemma demo_bench_rtc : rtc (bench_step demo_pair 1 1 1) demo_bench_start demo_bench_end.
Proof. apply (bench_acts_rtc demo_pair 1 1 1 demo_bench_run). vm_compute. reflexivity. Qed.

Example demo_bench_report :
  (λ handles, (handles.*2, (λ h, va_list h) <$> handles.*1)) <$> joined demo_bench_end = Some ([0], [[7]]) ∧
  report <$> joined demo_bench_end =
    Some (Ret ["samples recorded: 1"; "p50:          7 ns"; "p99:          7 ns"; "p99.9:        7 ns"; ""]).
Proof. split; vm_compute; reflexivity. Qed.

Lemma demo_bench_started : bench_start demo_pair 1 = Some demo_bench_start.
Proof. vm_compute. reflexivity. Qed.

Lemma demo_bench_joined : joined demo_bench_end = Some [(mkValues HIGHEST [7], 0)].
Proof. vm_compute. reflexivity. Qed.

Lemma valid_run_measures_all_witness :
  ∃ any_lapped merged, merge (H := values) [(mkValues HIGHEST [7], 0)] = Ret (any_lapped, merged) ∧
    any_lapped = false ∧ hist_len merged = 1.
Proof.
  destruct (valid_run_measures_all 2 demo_pair 1 1 1 1 demo_bench_start demo_bench_end) as [_ Hv];
    [vm_compute; reflexivity | exact demo_bench_started | vm_compute; reflexivity | exact demo_bench_rtc |].
  destruct (Hv _ demo_bench_joined) as (any_lapped & merged & E & Hm). exists any_lapped, merged. split; [exact E|].
  assert (any_lapped = false) as Hno by (vm_compute in E; injection E as <- _; reflexivity). split; [exact Hno|].
  apply (proj2 (Hm Hno)). intros [|k] l Hl; vm_compute in Hl; [|destruct k; discriminate Hl].
  injection Hl as <-. constructor; [apply N.leb_le; vm_compute; reflexivity | constructor].
Defined.
